(* ===== verification/_CoqProject ===== *)
-Q . S2P
Prelude.v
GoStd.v
Fs.v
Memtable.v
Bloom.v
Wal.v
Sstable.v
Heap.v
Compact.v
Json.v
Manifest.v
Db.v
Recovery.v
Reopen.v
Durability.v
Faults.v
Replica.v
Snapshot.v
Transfer.v
Kvstate.v
Membership.v
RaftTypes.v
RaftNode.v
RaftCore.v
RaftRefine.v
RaftHandlers.v
RaftOps.v
RaftApi.v
RaftInv.v
RaftSteps.v
RaftCluster.v
Lagging.v
RaftRead.v
Raftstore.v
Stable.v
Runtime.v
Loop.v
InStep.v
Grpc.v
Rpc.v
Client.v
Peers.v
Startup.v
KvMachine.v
Replicas.v
Metrics.v
Calls.v
Server.v
Raftnet.v
