(* ===== verification/Prelude.v ===== *)
(** * lsmdb: a verification development

    lsmdb is a key-value store written in Go. At the bottom is an embedded log-structured
    merge store (src/db): writes go to a write-ahead log and to a memtable, which is
    flushed to sorted table files named by a manifest; a compaction merges tables. The same
    store runs in replica mode without a log of its own, as the state of a replicated state
    machine (src/internal/kvstate). Replication is Raft (src/internal/raft): a deterministic
    node that turns ticks, messages and proposals into updates, a stable store for its term,
    log and snapshots (src/internal/raftstore), and an event loop that carries the updates
    out (src/internal/raftnode). Messages and snapshots travel over gRPC
    (src/internal/raftgrpc); a node (src/cluster) starts and serves all this and counts what
    it does, and a client finds the leader and retries. Command-line programs and
    benchmarks are around them.

    This library models these parts as executable definitions that follow the Go code
    function by function, and proves what they promise each other.

    ** How Go is modelled

    - Integers are [Z] with the wrap-around of their width written where Go computes
      ([u64], [s64]); bytes are [list byte]; maps are [gmap] or, where they are only read
      through functions, functions; structs are records.
    - A function that fails or mutates is a computation [M S A := S -> res A * S] (file Fs):
      outcomes are a value, a returned error, a panic (nil map, index out of range) and a
      crash of the process; the state is returned in every case, since Go keeps what was
      changed before an error.
    - The file system (Fs) is the files of a directory and a list of fates, one for each
      call that changes the directory: it succeeds, fails with an error, or the process
      crashes in it, after any prefix of a write. A theorem over all worlds is a theorem
      over all such schedules. The operating system survives: what was written before a
      crash of the process is read after it, and fsync changes nothing but may fail.
    - Methods that hold a lock throughout are one step. The event loop is a sequence of
      turns; channels are the sequences of what is queued and answered on them.
    - Code outside the sources is a parameter with its documented laws: the float64
      computation of the size of a Bloom filter ([sizing] in Bloom), the protobuf encoding
      of a command (the codec of Kvstate), the order of a heap (Heap, for container/heap,
      whose code is modelled), the writer a snapshot is streamed to (Snapshot), the stable
      store and state machine of the event loop (Runtime; the interfaces of the code), gRPC's
      connections and streams ([Connections] in Grpc), the calls, the clock and the context of
      a client (Client), the clock, the files and the order of a map of the peer directory
      (Peers), the host a node is started on (Startup), and what happens while a call waits
      (the script of Calls).

    ** The files

    Shared:
    - Prelude: bytes, fixed-width integers, big- and little-endian encodings, list lemmas,
      the tactic [bool_hyps] and the hint database [lsm].
    - GoStd: sort.Search and sort.Slice, CRC-32, FNV-1a. Heap: container/heap. Json:
      encoding/json, strconv.
    - Fs: the monad, its program logic ([runs]; [touches] for frames; [safe] for what holds
      of the files at every failure and crash) and the file system.

    The embedded store:
    - Memtable (src/internal/memtable), Bloom (src/internal/bloom), Wal (src/internal/wal),
      Sstable (src/internal/sstable: both writers and the reader), Compact
      (src/internal/compact), Manifest (src/internal/manifest): one module per package, the
      operations under their Go names, with their round trips, lookups and error paths.
    - Db (src/db/db.go, options.go, stats.go): the handle and all its methods.
    - Recovery: the files described by their data ([Disk]), the map they stand for
      ([View]), and the invariant of an open handle ([Inv]). Reopen: Open on such files.
      Durability: the theorems on the whole store. Faults: a flush whose calls fail.
    - Replica, Snapshot, Transfer (src/db/replica_snapshot.go and the replica methods of
      db.go): applying a replicated log, streaming an image out, replacing the state.
    - Kvstate (src/internal/kvstate): the state machine with sessions.

    Consensus:
    - Membership, RaftTypes, RaftNode (src/internal/raft/membership.go, types.go, node.go):
      the node and every operation on it.
    - RaftCore: the protocol as an action relation [act] on the part of a node safety
      depends on, and the invariant [wf]. RaftRefine, RaftHandlers, RaftOps: every handler
      and entry point performs protocol actions, never panics on a well-formed node, and
      reports exactly its durable change and its newly committed entries ([performs]).
      RaftApi: the consequences for all operations together.
    - RaftInv, RaftSteps, RaftCluster: clusters of nodes behind a network that loses,
      delays, reorders and repeats messages, with hosts that crash and restart from what
      their updates made durable; the invariant with its history variables, its
      preservation, and the safety theorems.
    - Raftstore, Stable (src/internal/raftstore/store.go): the stable store, and what its
      files hold at every failure and crash.
    - Lagging: a leader and a follower that compacted its log, exchanging appends.
    - RaftRead: what a leader knows when a quorum has confirmed a read.
    - Runtime (src/internal/raftnode/runtime.go): the event loop. Loop: the answers it
      gives and the batches it makes. InStep: the loop against the contracts of a store
      and of a machine ([StoreLaws], [MachineLaws]), which the store of Raftstore and a
      store and machine in memory satisfy. Calls: the methods other goroutines call.

    The cluster:
    - Grpc (src/internal/raftgrpc): messages and their conversion, the stream of a snapshot
      in both directions, the pool of connections. Rpc (src/api): the requests and statuses
      of the service. Raftnet (src/internal/raftnet): the network in memory.
    - Client and Peers (src/cluster/client.go, peers.go): the retrying client and the
      resolvers of addresses.
    - Startup and Server (src/cluster/node.go): StartNode on what the directories hold, and
      the handlers of a running node. KvMachine: the machine of Kvstate, on its files, as
      the machine of the loop; it satisfies [MachineLaws], [MachineOpens] and
      [MachineRests]. Replicas: clusters of whole nodes, loops with their stores and
      machines, against those contracts. Metrics (src/cluster/metrics.go): the wrappers
      that count.

    ** What is shown

    - The embedded store: a run of writes, deletes, flushes and compactions, crashed
      anywhere and reopened, answers from the map after the acknowledged operations, with
      or without the one in progress (crash_durability, Open_recovers). Keys and values are
      within the limits of the log's replay (16 KiB, 64 MiB), and a crash that cuts the log
      right behind the 17 bytes of a record's header is the one exception: such a log is
      refused (replay_torn). A flush whose calls fail keeps the store too, but for one
      failing call (flush_failures). Lookups and scans
      answer from that map (Scan_correct); tables, manifest, log and filter are read back
      as written (write_open_get, stream_writer_same_file, store_load, replay_torn,
      no_false_negatives, Compact_lookup).
    - The replica: crashed anywhere it is recovered to the state after a prefix of the log
      together with the index of that prefix (replica_prefix, machine_recovers); replacing
      its state is atomic (ReplaceReplicaState_atomic, ReplaceReplicaSnapshot_atomic) and
      the streamed image is the state (snapshot_stream_is_export), so a snapshot of one
      machine gives another its state (snapshot_copies); a retried command changes nothing
      (retries_change_nothing).
    - A node: all operations keep it well-formed, never panic, report what changed, and
      never go back (operations_preserve_wf, restart_recovers, commits_delivered_in_order,
      node_never_goes_back); messages are capped (cappedEntries_bounds); a voter that hears
      nothing campaigns (silent_voter_campaigns); the quorums of a configuration and the
      next one meet (membership_change_overlap).
    - A cluster with fixed voters: one leader per term, matching logs, leader completeness
      and agreement on everything delivered (election_safety, logs_match,
      leader_completeness, delivered_entries_agree), and a confirmed read sees everything
      committed before it (read_is_current). The executions include restarts and
      snapshots; membership changes are covered for single nodes and for quorums, not in
      the cluster theorems.
    - A cluster of whole nodes: one log explains the contents of every machine at every
      time (replicas_agree), so two key-value replicas at one index answer alike
      (kv_replicas_agree). Messages are lost, repeated and reordered, snapshots are taken,
      sent and installed, and processes end between two turns and are started again; a
      process that ends inside a turn is covered for the node alone
      (restart_after_crash).
    - The stable store: an update is applied or, when a call fails or the process crashes,
      the restart finds one of the states it passes through (persist_survives_crash), if the
      update installs no snapshot or the store's first one, taken of its own log
      ([clean_install]); what any other interrupted installation leaves, and how Open reads
      it, is described exactly (interrupted_install). What was persisted is loaded
      (persist_reopen_load).
    - The event loop: carrying out an update leaves node, store and machine in step and
      sends nothing before it is durable (update_carried_out); so does every turn, with
      what it drains and merges (turn_keeps_step); a request is answered at most once
      (answers_at_most_once); batches keep their limits and lose nothing
      (drainProposals_batch); a snapshot stream belongs to the loop until its event is
      answered (snapshot_reader_owned).
    - A running node: whatever a crash left of an update (within [clean_install] again), StartNode
      gives a loop that is in step (restart_after_crash); a snapshot reaches the loop of another node as the bytes the
      sender's store held (snapshot_travels, ReceiveSnapshot_accepts); for every
      status a handler answers with it is said whether the client gives up on it
      (when_clients_give_up); counting changes
      nothing (observed_loop_same) and the counters add up (counters_add_up).
    - A client: its requests end (retry_terminates), reach a leader that stays
      (retry_finds_leader), and each of its writes takes effect at most once, in order, and
      exactly once if it is in the log when the call returns (client_writes_at_most_once).
    - Where the code falls short, theorems of kind error say for all inputs what it does,
      and their witnesses run it: interrupted_install (a snapshot over an old log),
      waiter_answered_by_index (a success for an overwritten proposal),
      compacted_follower_refuses (a follower that goes on refusing what it has), flush_failures (a
      table removed that the manifest names). Smaller examples are single runs:
      stale_records_lose_entry, failed_append_loses_next_write,
      replay_oversized_key_loses_rest, hint_tried_last.

    ** Fuel and bounds

    Loops that are not structural carry fuel computed from their input, and the theorems
    are about the operations with that fuel, so it is enough: loops over the bytes of a
    file (Wal, Sstable, Raftstore, Snapshot, Db.max_loop) have the length of the file, and
    each turn consumes at least a header; the JSON parser has the length of the text; the
    merge of Compact and Snapshot has the number of records; binary search, heap moves and
    the scans of a node's log (find_candidate, lower_hint) have the length of the slice.
    The drains of the event loop have the code's own bound, the capacity of the queue, and
    the retries of a client twenty calls for each address and one more. Sending a snapshot
    has one turn more than there are full chunks in it; trimming spaces has the length of the
    string, reversing held messages their number.
    Theorems about nodes assume that terms and indexes stay below 2^64 ([room], [op_ok],
    [fits]), since the code's additions wrap around.

    ** Not modelled

    - src/api/lsmdb/v1/*.go: generated; the messages the code uses are records in Rpc and
      Grpc, and the encoding of a command is a parameter with its round trip.
    - src/cmd, src/benchmarks, src/internal/bench*, src/scripts: flag parsing, terminal
      output, processes and measurement; no part of the store.
    - The HTTP endpoint of the metrics and its text format; the wrapping of gRPC's server
      and client interceptors around the handlers.
    - Elapsed times in statistics, log lines, and the text of wrapped errors where the code
      only passes it on.
    - In the event loop, the blocking of a full outgoing channel. *)

From Stdlib Require Export ZArith NArith Lia Bool Strings.Byte Strings.String OrdersTac.
From stdpp Require Export base tactics numbers list option gmap sorting strings.

#[global] Open Scope Z_scope.
#[global] Open Scope list_scope.

(** ** Automation shared by every file *)

Create HintDb lsm.

(** Split every boolean test and comparison in sight into its meaning. *)
Ltac bool_hyps :=
  repeat match goal with
  | H : _ && _ = true |- _ => apply andb_true_iff in H; destruct H
  | H : _ || _ = false |- _ => apply orb_false_iff in H; destruct H
  | H : negb _ = true |- _ => apply negb_true_iff in H
  | H : negb _ = false |- _ => apply negb_false_iff in H
  | H : (_ =? _)%Z = true |- _ => apply Z.eqb_eq in H
  | H : (_ =? _)%Z = false |- _ => apply Z.eqb_neq in H
  | H : (_ <? _)%Z = true |- _ => apply Z.ltb_lt in H
  | H : (_ <? _)%Z = false |- _ => apply Z.ltb_ge in H
  | H : (_ <=? _)%Z = true |- _ => apply Z.leb_le in H
  | H : (_ <=? _)%Z = false |- _ => apply Z.leb_gt in H
  | H : (_ =? _)%nat = true |- _ => apply Nat.eqb_eq in H
  | H : (_ =? _)%nat = false |- _ => apply Nat.eqb_neq in H
  | H : (_ <? _)%nat = true |- _ => apply Nat.ltb_lt in H
  | H : (_ <? _)%nat = false |- _ => apply Nat.ltb_ge in H
  | H : (_ <=? _)%nat = true |- _ => apply Nat.leb_le in H
  | H : (_ <=? _)%nat = false |- _ => apply Nat.leb_gt in H
  | H : bool_decide _ = true |- _ => apply bool_decide_eq_true in H
  | H : bool_decide _ = false |- _ => apply bool_decide_eq_false in H
  end.

(** ** Bytes *)

Abbreviation bytes := (list byte).

#[global] Instance byte_eq_dec : EqDecision byte := Byte.byte_eq_dec.
#[global] Program Instance byte_countable : Countable byte :=
  inj_countable Byte.to_N Byte.of_N _.
Next Obligation. intros b. apply Byte.of_to_N. Qed.
#[global] Instance byte_inhabited : Inhabited byte := populate x00.

Definition Z_of_byte (b : byte) : Z := Z.of_N (Byte.to_N b).
Definition byte_of_Z (z : Z) : byte := default x00 (Byte.of_N (Z.to_N (z mod 256))).

(** A byte string written as an ASCII literal. *)
Definition str (s : string) : bytes := list_byte_of_string s.

Lemma Z_of_byte_range b : 0 <= Z_of_byte b < 256.
Proof.
  unfold Z_of_byte. pose proof (Byte.to_N_bounded b). lia.
Qed.

Lemma Z_of_byte_of_Z z : Z_of_byte (byte_of_Z z) = z mod 256.
Proof.
  unfold byte_of_Z, Z_of_byte.
  pose proof (Z.mod_pos_bound z 256 ltac:(lia)).
  destruct (Byte.of_N (Z.to_N (z mod 256))) as [b|] eqn:E; simpl.
  - apply Byte.to_of_N in E. rewrite E. lia.
  - apply Byte.of_N_None_iff in E. lia.
Qed.

Lemma Z_of_byte_inj b1 b2 : Z_of_byte b1 = Z_of_byte b2 -> b1 = b2.
Proof.
  unfold Z_of_byte. intros H%N2Z.inj.
  pose proof (Byte.of_to_N b1). pose proof (Byte.of_to_N b2). congruence.
Qed.

Lemma byte_of_Z_of_byte b : byte_of_Z (Z_of_byte b) = b.
Proof.
  apply Z_of_byte_inj. rewrite Z_of_byte_of_Z.
  apply Z.mod_small, Z_of_byte_range.
Qed.

(** ** Fixed-width integers *)

Definition u64 (z : Z) : Z := z mod 2 ^ 64.
Definition u32 (z : Z) : Z := z mod 2 ^ 32.

(** Go's [int64(x)] of a uint64: the top half is negative. *)
Definition s64 (z : Z) : Z := if u64 z <? 2 ^ 63 then u64 z else u64 z - 2 ^ 64.

Lemma u64_small z : 0 <= z < 2 ^ 64 -> u64 z = z.
Proof. intros. unfold u64. now apply Z.mod_small. Qed.

Lemma u64_range z : 0 <= u64 z < 2 ^ 64.
Proof. apply Z.mod_pos_bound. lia. Qed.

Lemma u32_small z : 0 <= z < 2 ^ 32 -> u32 z = z.
Proof. intros. unfold u32. now apply Z.mod_small. Qed.

Lemma s64_small z : 0 <= z < 2 ^ 63 -> s64 z = z.
Proof.
  intros H. unfold s64. rewrite u64_small by lia.
  destruct (Z.ltb_spec z (2 ^ 63)); lia.
Qed.

(** ** Big-endian encoding ([binary.BigEndian]) *)

(** [put_be n z]: the n-byte big-endian form of z, as PutUint32 (n = 4) and
    PutUint64 (n = 8) write it; higher bits are cut off. *)
Fixpoint put_be (n : nat) (z : Z) : bytes :=
  match n with
  | O => []
  | S n' => byte_of_Z (z / 256 ^ Z.of_nat n') :: put_be n' z
  end.

Fixpoint get_be (l : bytes) : Z :=
  match l with
  | [] => 0
  | b :: l' => Z_of_byte b * 256 ^ Z.of_nat (length l') + get_be l'
  end.

Definition PutUint32 (z : Z) : bytes := put_be 4 z.
Definition PutUint64 (z : Z) : bytes := put_be 8 z.

Lemma length_put_be n z : length (put_be n z) = n.
Proof. induction n; simpl; auto. Qed.

Lemma get_be_range l : 0 <= get_be l < 256 ^ Z.of_nat (length l).
Proof.
  induction l as [|b l IH]; cbn [get_be length]; [lia|].
  rewrite Nat2Z.inj_succ, Z.pow_succ_r by lia.
  pose proof (Z_of_byte_range b). nia.
Qed.

Lemma mod_mul_split z a b : 0 < a -> 0 < b ->
  z mod (a * b) = (z / a) mod b * a + z mod a.
Proof.
  intros Ha Hb. rewrite Z.rem_mul_r by lia. lia.
Qed.

Lemma get_put_be n z : get_be (put_be n z) = z mod 256 ^ Z.of_nat n.
Proof.
  induction n as [|n IH]; cbn [put_be get_be]; [now rewrite Z.mod_1_r|].
  rewrite length_put_be, IH, Z_of_byte_of_Z, Nat2Z.inj_succ, Z.pow_succ_r by lia.
  rewrite (Z.mul_comm 256), mod_mul_split by (try apply Z.pow_pos_nonneg; lia).
  reflexivity.
Qed.

Lemma get_put_be_small n z : 0 <= z < 256 ^ Z.of_nat n -> get_be (put_be n z) = z.
Proof. intros. rewrite get_put_be. now apply Z.mod_small. Qed.

Lemma put_be_add n a z : put_be n (a * 256 ^ Z.of_nat n + z) = put_be n z.
Proof.
  revert a. induction n as [|n IH]; intros a; cbn [put_be]; [done|].
  rewrite Nat2Z.inj_succ, Z.pow_succ_r by lia.
  replace (a * (256 * 256 ^ Z.of_nat n) + z) with (a * 256 * 256 ^ Z.of_nat n + z) by lia.
  rewrite IH. f_equal. unfold byte_of_Z. do 3 f_equal.
  rewrite Z.div_add_l by (apply Z.pow_nonzero; lia).
  rewrite Z.add_comm, Z.mod_add; lia.
Qed.

Lemma put_get_be l : put_be (length l) (get_be l) = l.
Proof.
  induction l as [|b l IH]; [done|]. cbn [put_be get_be length].
  rewrite put_be_add, IH. f_equal.
  pose proof (get_be_range l).
  rewrite Z.div_add_l, Z.div_small, Z.add_0_r by lia.
  apply byte_of_Z_of_byte.
Qed.

Lemma get_put_u32 z : 0 <= z < 2 ^ 32 -> get_be (PutUint32 z) = z.
Proof. intros. apply get_put_be_small. change (256 ^ Z.of_nat 4) with (2 ^ 32). lia. Qed.

Lemma get_put_u64 z : 0 <= z < 2 ^ 64 -> get_be (PutUint64 z) = z.
Proof. intros. apply get_put_be_small. change (256 ^ Z.of_nat 8) with (2 ^ 64). lia. Qed.

Lemma get_be_u32 l : length l = 4%nat -> 0 <= get_be l < 2 ^ 32.
Proof. intros H. pose proof (get_be_range l) as R. rewrite H in R. apply R. Qed.

Lemma get_be_u64 l : length l = 8%nat -> 0 <= get_be l < 2 ^ 64.
Proof. intros H. pose proof (get_be_range l) as R. rewrite H in R. apply R. Qed.

Lemma length_PutUint32 z : length (PutUint32 z) = 4%nat.
Proof. apply length_put_be. Qed.

Lemma length_PutUint64 z : length (PutUint64 z) = 8%nat.
Proof. apply length_put_be. Qed.

Lemma get_be_byte z : 0 <= z < 256 -> get_be [byte_of_Z z] = z.
Proof. intros. cbn [get_be length]. rewrite Z_of_byte_of_Z, Z.mod_small by lia. change (256 ^ Z.of_nat 0) with 1. lia. Qed.

#[global] Opaque PutUint32 PutUint64 get_be.

(** ** Slices *)

(** Go's [l[from:to]] inside bounds. *)
Definition slice {A} (from to : nat) (l : list A) : list A := take (to - from) (drop from l).

Lemma length_slice {A} from to (l : list A) :
  (from <= to <= length l)%nat -> length (slice from to l) = (to - from)%nat.
Proof. intros. unfold slice. rewrite length_take, length_drop. lia. Qed.

Lemma take_app_exact {A} n (l k : list A) : n = length l -> take n (l ++ k) = l.
Proof. intros ->. apply take_app_length. Qed.

Lemma drop_app_exact {A} n (l k : list A) : n = length l -> drop n (l ++ k) = k.
Proof. intros ->. apply drop_app_length. Qed.

Lemma slice_app_mid {A} from to (l m k : list A) :
  from = length l -> to = (length l + length m)%nat -> slice from to (l ++ m ++ k) = m.
Proof.
  intros -> ->. unfold slice. rewrite drop_app_length.
  apply take_app_exact. lia.
Qed.

Lemma slice_app_0 {A} to (m k : list A) : to = length m -> slice 0 to (m ++ k) = m.
Proof. intros ->. unfold slice. rewrite Nat.sub_0_r, drop_0. apply take_app_length. Qed.

Lemma slice_app_last {A} from to (l m : list A) :
  from = length l -> to = (length l + length m)%nat -> slice from to (l ++ m) = m.
Proof. intros. rewrite <- (app_nil_r m) at 1. by apply slice_app_mid. Qed.

(** The same with the decomposition given as an equation. *)
Lemma slice_eq {A} (pre m post : list A) l from to :
  l = pre ++ m ++ post -> from = length pre -> to = (length pre + length m)%nat -> slice from to l = m.
Proof. intros ->. apply slice_app_mid. Qed.

(** ** Key order: Go compares strings bytewise *)

Fixpoint key_compare (a b : bytes) : comparison :=
  match a, b with
  | [], [] => Eq
  | [], _ :: _ => Lt
  | _ :: _, [] => Gt
  | x :: a', y :: b' =>
      match Z_of_byte x ?= Z_of_byte y with
      | Eq => key_compare a' b'
      | c => c
      end
  end.

Definition key_ltb (a b : bytes) : bool := match key_compare a b with Lt => true | _ => false end.
Definition key_leb (a b : bytes) : bool := match key_compare a b with Gt => false | _ => true end.
Definition key_eqb (a b : bytes) : bool := bool_decide (a = b).

Definition key_lt (a b : bytes) : Prop := key_compare a b = Lt.
Definition key_le (a b : bytes) : Prop := key_compare a b <> Gt.

Lemma key_compare_refl a : key_compare a a = Eq.
Proof. induction a; simpl; [done|]. now rewrite Z.compare_refl. Qed.

Lemma key_compare_eq a b : key_compare a b = Eq <-> a = b.
Proof.
  split; [|intros ->; apply key_compare_refl].
  revert b. induction a as [|x a IH]; intros [|y b]; simpl; try done.
  destruct (Z.compare_spec (Z_of_byte x) (Z_of_byte y)) as [E| |]; try done.
  intros H. f_equal; [now apply Z_of_byte_inj | now apply IH].
Qed.

Lemma key_compare_antisym a b : key_compare b a = CompOpp (key_compare a b).
Proof.
  revert b. induction a as [|x a IH]; intros [|y b]; simpl; try done.
  rewrite (Z.compare_antisym (Z_of_byte x)).
  destruct (Z_of_byte x ?= Z_of_byte y); simpl; auto.
Qed.

Lemma key_lt_trans a b c : key_lt a b -> key_lt b c -> key_lt a c.
Proof.
  unfold key_lt. revert b c.
  induction a as [|x a IH]; intros [|y b] [|z c]; simpl; try done.
  destruct (Z.compare_spec (Z_of_byte x) (Z_of_byte y)),
    (Z.compare_spec (Z_of_byte y) (Z_of_byte z)),
    (Z.compare_spec (Z_of_byte x) (Z_of_byte z)); try done; try lia; eauto.
Qed.

Lemma key_lt_irrefl a : ~ key_lt a a.
Proof. unfold key_lt. now rewrite key_compare_refl. Qed.

Lemma key_le_lteq a b : key_le a b <-> key_lt a b \/ a = b.
Proof.
  unfold key_le, key_lt. rewrite <- key_compare_eq.
  destruct (key_compare a b); naive_solver.
Qed.

Lemma key_total a b : key_lt a b \/ a = b \/ key_lt b a.
Proof.
  unfold key_lt. rewrite <- key_compare_eq, (key_compare_antisym a b).
  destruct (key_compare a b); auto.
Qed.

Lemma key_ltb_lt a b : key_ltb a b = true <-> key_lt a b.
Proof. unfold key_ltb, key_lt. destruct (key_compare a b); done. Qed.

Lemma key_ltb_ge a b : key_ltb a b = false <-> key_le b a.
Proof.
  unfold key_ltb, key_le. rewrite (key_compare_antisym a b).
  destruct (key_compare a b); simpl; naive_solver.
Qed.

Lemma key_leb_le a b : key_leb a b = true <-> key_le a b.
Proof. unfold key_leb, key_le. destruct (key_compare a b); naive_solver. Qed.

Lemma key_leb_gt a b : key_leb a b = false <-> key_lt b a.
Proof.
  unfold key_leb, key_lt. rewrite (key_compare_antisym a b).
  destruct (key_compare a b); simpl; naive_solver.
Qed.

Lemma key_eqb_eq a b : key_eqb a b = true <-> a = b.
Proof. apply bool_decide_eq_true. Qed.

Lemma key_eqb_neq a b : key_eqb a b = false <-> a <> b.
Proof. apply bool_decide_eq_false. Qed.

#[global] Instance key_lt_strict : StrictOrder key_lt.
Proof. split; [exact key_lt_irrefl | exact key_lt_trans]. Qed.

(** The order-solving tactic of the Standard Library at keys. *)
Module KeyOrder.
Definition t := bytes.
Definition eq := @Logic.eq bytes.
Definition lt := key_lt.
Definition le := key_le.
Definition eq_equiv : Equivalence eq := eq_equivalence.
Definition lt_strorder : StrictOrder lt := key_lt_strict.
Lemma lt_compat : Proper (eq ==> eq ==> iff) lt.
Proof. now intros ? ? -> ? ? ->. Qed.
Definition le_lteq := key_le_lteq.
Lemma lt_total : forall x y, lt x y \/ eq x y \/ lt y x.
Proof. exact key_total. Qed.
End KeyOrder.
Module KeyTac := MakeOrderTac KeyOrder KeyOrder.

Ltac key_bools :=
  repeat match goal with
  | H : key_ltb _ _ = true |- _ => apply key_ltb_lt in H
  | H : key_ltb _ _ = false |- _ => apply key_ltb_ge in H
  | H : key_leb _ _ = true |- _ => apply key_leb_le in H
  | H : key_leb _ _ = false |- _ => apply key_leb_gt in H
  | H : key_eqb _ _ = true |- _ => apply key_eqb_eq in H
  | H : key_eqb _ _ = false |- _ => apply key_eqb_neq in H
  | |- key_ltb _ _ = true => apply key_ltb_lt
  | |- key_ltb _ _ = false => apply key_ltb_ge
  | |- key_leb _ _ = true => apply key_leb_le
  | |- key_leb _ _ = false => apply key_leb_gt
  | |- key_eqb _ _ = true => apply key_eqb_eq
  | |- key_eqb _ _ = false => apply key_eqb_neq
  end.

(** Decide goals about the order of keys. *)
Ltac key_order :=
  key_bools;
  change key_lt with KeyOrder.lt in *; change key_le with KeyOrder.le in *;
  change (@eq bytes) with KeyOrder.eq in *;
  KeyTac.order.

(** ** Lists strictly sorted by a key *)

Section key_sorted.
Context {A : Type} (key : A -> bytes).

Definition key_sorted (l : list A) : Prop :=
  StronglySorted (fun a b => key_lt (key a) (key b)) l.

Lemma key_sorted_app l k :
  key_sorted (l ++ k) <->
  key_sorted l /\ key_sorted k /\ (forall a b, a ∈ l -> b ∈ k -> key_lt (key a) (key b)).
Proof.
  unfold key_sorted. induction l as [|x l IH]; simpl.
  - split; [|tauto]. intros H. repeat split; [constructor|done|]. intros a b []%not_elem_of_nil.
  - split.
    + intros H. inv H. apply IH in H2 as (H2 & Hk & Hx).
      apply Forall_app in H3 as [F1 F2]. repeat split; [by constructor|done|].
      intros a b [->|Ha]%elem_of_cons Hb; [|auto]. rewrite Forall_forall in F2. auto.
    + intros (H1 & H2 & H3). inv H1. constructor.
      * apply IH. repeat split; auto. intros; apply H3; [by right|done].
      * apply Forall_app. split; [done|]. apply Forall_forall. intros b Hb.
        apply H3; [by left|done].
Qed.

Lemma key_sorted_NoDup l : key_sorted l -> NoDup (key <$> l).
Proof.
  induction 1 as [|x l Hs IH HF]; simpl; constructor; [|done].
  intros (y & Hy & Hin)%list_elem_of_fmap. rewrite Forall_forall in HF.
  specialize (HF y Hin). rewrite Hy in HF. by apply key_lt_irrefl in HF.
Qed.

Lemma key_sorted_inj l a b :
  key_sorted l -> a ∈ l -> b ∈ l -> key a = key b -> a = b.
Proof.
  induction 1 as [|x l Hs IH HF]; [by intros ?%not_elem_of_nil|].
  rewrite Forall_forall in HF.
  intros [->|Ha]%elem_of_cons [->|Hb]%elem_of_cons E; auto.
  - specialize (HF b Hb). rewrite E in HF. by apply key_lt_irrefl in HF.
  - specialize (HF a Ha). rewrite E in HF. by apply key_lt_irrefl in HF.
Qed.

(** A strictly sorted list is determined by its elements. *)
Lemma key_sorted_ext l k :
  key_sorted l -> key_sorted k -> (forall a, a ∈ l <-> a ∈ k) -> l = k.
Proof.
  intros Hl. revert k. induction Hl as [|x l Hs IH HF]; intros k Hk E.
  - destruct k as [|y k]; [done|]. exfalso.
    apply (not_elem_of_nil y), E. left.
  - destruct Hk as [|y k Hsk HFk].
    { exfalso. apply (not_elem_of_nil x), E. left. }
    rewrite Forall_forall in HF, HFk.
    assert (x = y) as ->.
    { pose proof (proj1 (E x) ltac:(left)) as [->|Hx]%elem_of_cons; [done|].
      pose proof (proj2 (E y) ltac:(left)) as [->|Hy]%elem_of_cons; [done|].
      specialize (HF y Hy). specialize (HFk x Hx).
      exfalso. key_order. }
    f_equal. apply IH; [done|]. intros a. specialize (E a).
    rewrite !elem_of_cons in E. split; intros Ha.
    + destruct (proj1 E (or_intror Ha)) as [->|]; [|done].
      specialize (HF y Ha). by apply key_lt_irrefl in HF.
    + destruct (proj2 E (or_intror Ha)) as [->|]; [|done].
      specialize (HFk y Ha). by apply key_lt_irrefl in HFk.
Qed.

Lemma key_sorted_filter (P : A -> Prop) `{!forall a, Decision (P a)} l :
  key_sorted l -> key_sorted (filter P l).
Proof.
  induction 1 as [|x l Hs IH HF]; [constructor|].
  rewrite filter_cons. case_decide; [|done].
  constructor; [done|]. rewrite Forall_forall in *.
  intros y [_ Hy]%list_elem_of_filter. auto.
Qed.
End key_sorted.

Lemma sorted_lookup {A} (R : A -> A -> Prop) l a b x y :
  StronglySorted R l -> l !! a = Some x -> l !! b = Some y -> (a < b)%nat -> R x y.
Proof.
  intros Hs. revert a b. induction Hs as [|z l Hs IH HF]; intros a b Ha Hb Hab; [done|].
  destruct b as [|b]; [lia|]. destruct a as [|a]; simpl in *.
  - simplify_eq. rewrite Forall_forall in HF. apply HF. by eapply list_elem_of_lookup_2.
  - apply (IH a b); [done|done|lia].
Qed.

Lemma sorted_fmap_inv {A B} (R : B -> B -> Prop) (f : A -> B) l :
  StronglySorted R (f <$> l) -> StronglySorted (fun a b => R (f a) (f b)) l.
Proof.
  induction l as [|x l IH]; [constructor|]. rewrite fmap_cons. intros Hs. inv Hs. constructor; [auto|].
  rewrite Forall_fmap in H2. exact H2.
Qed.

Lemma key_sorted_fmap {A B} (key : A -> bytes) (key' : B -> bytes) (f : A -> B) l :
  (forall a, key' (f a) = key a) -> key_sorted key l -> key_sorted key' (f <$> l).
Proof.
  intros E. unfold key_sorted. induction 1 as [|x l Hs IH HF]; csimpl; [constructor|].
  constructor; [done|]. rewrite Forall_forall in HF. apply Forall_forall.
  intros y (a & -> & Ha)%list_elem_of_fmap. rewrite !E. by apply HF.
Qed.

(** ** Filters *)

Section filters.
Context {A : Type} (P : A -> Prop) `{!forall a, Decision (P a)}.

Lemma filter_none (l : list A) : (forall a, a ∈ l -> ~ P a) -> filter P l = [].
Proof.
  induction l as [|x l IH]; intros HP; [done|].
  rewrite filter_cons_False by (apply HP; left). apply IH. intros; apply HP; by right.
Qed.

Lemma filter_all (l : list A) : (forall a, a ∈ l -> P a) -> filter P l = l.
Proof.
  induction l as [|x l IH]; intros HP; [done|].
  rewrite filter_cons_True by (apply HP; left). f_equal. apply IH. intros; apply HP; by right.
Qed.
End filters.
