(* ===== verification/GoStd.v ===== *)
(** * Pieces of the Go standard library the program uses

    [sort.Search], [sort.Slice] by a key, [crc32.ChecksumIEEE] and the 64-bit
    FNV-1a hash, written out as Go computes them, with the facts the components
    rely on. *)

From S2P Require Import Prelude.

(** ** sort.Search *)

(** The loop of [sort.Search]: i and j close in on the smallest index where f
    holds. Each turn shrinks j - i, so j - i turns are enough. *)
Fixpoint search_loop (fuel : nat) (f : nat -> bool) (i j : nat) : nat :=
  match fuel with
  | O => i
  | S fuel' =>
      if (i <? j)%nat then
        let h := ((i + j) / 2)%nat in
        if f h then search_loop fuel' f i h else search_loop fuel' f (S h) j
      else i
  end.

Definition sort_Search (n : nat) (f : nat -> bool) : nat := search_loop n f 0 n.

Lemma search_loop_spec fuel f i j :
  (j - i <= fuel)%nat -> (i <= j)%nat ->
  (forall a b, (i <= a <= b)%nat -> (b < j)%nat -> f a = true -> f b = true) ->
  let r := search_loop fuel f i j in
  (i <= r <= j)%nat /\ (forall a, (i <= a < r)%nat -> f a = false) /\
  (forall a, (r <= a < j)%nat -> f a = true).
Proof.
  revert i j. induction fuel as [|fuel IH]; intros i j Hf Hij Hm; cbn [search_loop]; cbv zeta.
  { repeat split; intros; lia. }
  destruct (Nat.ltb_spec i j); [|repeat split; intros; lia].
  assert (i <= (i + j) / 2 < j)%nat as Hh.
  { split; [apply Nat.div_le_lower_bound; lia | apply Nat.Div0.div_lt_upper_bound; lia]. }
  set (h := ((i + j) / 2)%nat) in *.
  destruct (f h) eqn:E.
  - destruct (IH i h) as (H1 & H2 & H3); [lia|lia|intros a b ? ? ?; apply (Hm a b); [lia|lia|done]|].
    repeat split; [lia|lia|auto|]. intros a Ha.
    destruct (decide (a < h)%nat); [apply H3; lia | apply (Hm h a); auto; lia].
  - destruct (IH (S h) j) as (H1 & H2 & H3); [lia|lia|intros a b ? ? ?; apply (Hm a b); [lia|lia|done]|].
    repeat split; [lia|lia| |auto]. intros a Ha.
    destruct (decide (a <= h)%nat); [|apply H2; lia].
    destruct (f a) eqn:Ea; [|done]. rewrite (Hm a h) in E; auto; lia.
Qed.

(** On a monotone predicate, [sort.Search] returns the first index where it
    holds, or n. *)
Lemma sort_Search_spec n f :
  (forall a b, (a <= b)%nat -> (b < n)%nat -> f a = true -> f b = true) ->
  let r := sort_Search n f in
  (r <= n)%nat /\ (forall a, (a < r)%nat -> f a = false) /\
  (forall a, (r <= a < n)%nat -> f a = true).
Proof.
  intros Hm. destruct (search_loop_spec n f 0 n) as (H1 & H2 & H3);
    [lia|lia|intros a b ? ? ?; apply (Hm a b); [lia|lia|done]|].
  unfold sort_Search. repeat split; [lia| |auto]. intros; apply H2; lia.
Qed.

(** ** sort.Slice by a string key *)

#[global] Instance key_le_dec : RelDecision key_le.
Proof. intros a b. unfold key_le. solve_decision. Defined.

Section sort_by.
Context {A : Type} (key : A -> bytes).

Definition key_ord (a b : A) : Prop := key_le (key a) (key b).

#[local] Instance key_ord_dec : RelDecision key_ord.
Proof. intros a b. unfold key_ord. apply _. Defined.
#[local] Instance key_ord_total : Total key_ord.
Proof.
  intros a b. unfold key_ord.
  destruct (key_total (key a) (key b)) as [|[|]]; [left|left|right]; key_order.
Qed.
#[local] Instance key_ord_trans : Transitive key_ord.
Proof. intros a b c. unfold key_ord. intros. key_order. Qed.

(** The slice is sorted by key; with distinct keys the result does not depend
    on the sorting algorithm ([sort_by_unique]). *)
Definition sort_by (l : list A) : list A := merge_sort key_ord l.

Lemma sort_by_Permutation l : sort_by l ≡ₚ l.
Proof. apply merge_sort_Permutation. Qed.

Lemma elem_of_sort_by l a : a ∈ sort_by l <-> a ∈ l.
Proof. by rewrite sort_by_Permutation. Qed.

Lemma length_sort_by l : length (sort_by l) = length l.
Proof. by rewrite sort_by_Permutation. Qed.

Lemma sorted_strict l :
  StronglySorted key_ord l -> NoDup (key <$> l) -> key_sorted key l.
Proof.
  unfold key_sorted. induction 1 as [|x l Hs IH HF]; csimpl; intros Hn; constructor.
  - apply IH. by inv Hn.
  - rewrite Forall_forall in HF. apply Forall_forall. intros y Hy.
    specialize (HF y Hy). unfold key_ord in HF. inv Hn.
    assert (key x <> key y) by (intros E; apply H1; rewrite E; by apply list_elem_of_fmap_2).
    key_order.
Qed.

Lemma sort_by_sorted l : NoDup (key <$> l) -> key_sorted key (sort_by l).
Proof.
  intros Hn. apply sorted_strict.
  - apply (StronglySorted_merge_sort key_ord).
  - by rewrite sort_by_Permutation.
Qed.

Lemma sort_by_unique l k :
  NoDup (key <$> l) -> key_sorted key k -> k ≡ₚ l -> k = sort_by l.
Proof.
  intros Hn Hk Hp. apply (key_sorted_ext key); [done|by apply sort_by_sorted|].
  intros a. by rewrite elem_of_sort_by, Hp.
Qed.
End sort_by.

(** ** crc32.ChecksumIEEE *)

(** One bit of the reflected polynomial 0xEDB88320. *)
Definition crc_bit (c : Z) : Z :=
  if Z.odd c then Z.lxor (Z.shiftr c 1) 0xEDB88320 else Z.shiftr c 1.

Definition crc_byte (c : Z) (b : byte) : Z :=
  Nat.iter 8 crc_bit (Z.lxor c (Z_of_byte b)).

(** [crc32.Update]: the running checksum is stored complemented. *)
Definition crc32_update (crc : Z) (data : bytes) : Z :=
  Z.lxor (foldl crc_byte (Z.lxor crc 0xFFFFFFFF) data) 0xFFFFFFFF.

Definition ChecksumIEEE (data : bytes) : Z := crc32_update 0 data.

Example crc32_check : ChecksumIEEE (str "123456789") = 0xCBF43926.
Proof. vm_compute. reflexivity. Qed.

Definition u32_range (z : Z) : Prop := 0 <= z < 2 ^ 32.

Lemma lxor_range a b n : 0 <= n -> 0 <= a < 2 ^ n -> 0 <= b < 2 ^ n -> 0 <= Z.lxor a b < 2 ^ n.
Proof.
  intros Hn Ha Hb. split; [apply Z.lxor_nonneg; lia|].
  assert (0 <= Z.lxor a b) by (apply Z.lxor_nonneg; lia).
  destruct (decide (Z.lxor a b = 0)) as [->|]; [apply Z.pow_pos_nonneg; lia|].
  apply Z.log2_lt_pow2; [lia|].
  assert (forall x, 0 <= x < 2 ^ n -> x <> 0 -> Z.log2 x < n) as Hl
    by (intros x ? ?; apply Z.log2_lt_pow2; lia).
  pose proof (Z.log2_lxor a b ltac:(lia) ltac:(lia)).
  destruct (decide (a = 0)) as [->|], (decide (b = 0)) as [->|]; rewrite ?Z.lxor_0_l, ?Z.lxor_0_r in *;
    try lia; auto.
  pose proof (Hl a); pose proof (Hl b). lia.
Qed.

Lemma crc_bit_range c : u32_range c -> u32_range (crc_bit c).
Proof.
  intros Hc. unfold crc_bit.
  assert (u32_range (Z.shiftr c 1)).
  { unfold u32_range in *. rewrite Z.shiftr_div_pow2 by lia. change (2 ^ 1) with 2.
    split; [apply Z.div_pos; lia | apply Z.div_lt_upper_bound; lia]. }
  destruct (Z.odd c); [|done]. apply lxor_range; [lia|done|lia].
Qed.

Lemma crc_byte_range c b : u32_range c -> u32_range (crc_byte c b).
Proof.
  intros Hc. unfold crc_byte. pose proof (Z_of_byte_range b).
  assert (u32_range (Z.lxor c (Z_of_byte b))) as H0 by (apply lxor_range; [lia|done|lia]).
  generalize 8%nat as n. intros n. induction n; simpl; [done|]. by apply crc_bit_range.
Qed.

(** The checksum is a 32-bit number, so it survives its 4-byte encoding. *)
Lemma ChecksumIEEE_range data : 0 <= ChecksumIEEE data < 2 ^ 32.
Proof.
  unfold ChecksumIEEE, crc32_update. rewrite Z.lxor_0_l. apply lxor_range; [lia| |lia].
  assert (u32_range 0xFFFFFFFF) as H by (unfold u32_range; lia). revert H.
  generalize 0xFFFFFFFF as c. induction data as [|b d IH]; intros c Hc; simpl; [done|].
  apply IH, crc_byte_range, Hc.
Qed.

(** A running checksum over chunks is the checksum of the whole. *)
Lemma crc32_update_app crc d1 d2 : crc32_update (crc32_update crc d1) d2 = crc32_update crc (d1 ++ d2).
Proof. unfold crc32_update. by rewrite Z.lxor_assoc, Z.lxor_nilpotent, Z.lxor_0_r, foldl_app. Qed.

Lemma crc_roundtrip data : get_be (PutUint32 (ChecksumIEEE data)) = ChecksumIEEE data.
Proof. apply get_put_u32, ChecksumIEEE_range. Qed.

(** ** fnv.New64a *)

Definition fnv_offset64 : Z := 14695981039346656037.
Definition fnv_prime64 : Z := 1099511628211.

Definition fnv64a (data : bytes) : Z :=
  foldl (fun h b => u64 (Z.lxor h (Z_of_byte b) * fnv_prime64)) fnv_offset64 data.

Example fnv64a_check : fnv64a (str "a") = 0xaf63dc4c8601ec8c.
Proof. vm_compute. reflexivity. Qed.

Lemma fnv64a_range data : 0 <= fnv64a data < 2 ^ 64.
Proof.
  unfold fnv64a. assert (0 <= fnv_offset64 < 2 ^ 64) as H by (unfold fnv_offset64; lia). revert H.
  generalize fnv_offset64 as h. induction data as [|b d IH]; intros h Hh; simpl; [done|].
  apply IH, u64_range.
Qed.
