(* ===== verification/Fs.v ===== *)
(** * Effects: a state and error monad, and the file system

    A Go function that can fail and mutates state becomes a computation of type
    [M S A]: it takes a state and returns an outcome and the state it left, also
    when it failed. Outcomes distinguish a returned error, a panic and a crash of
    the process.

    The state of the file operations is a [World]: the files of one directory and
    a list of fates, one per system call that changes the directory. A call can
    succeed, fail with an error, or crash the process; a write that fails or
    crashes leaves a prefix of its data behind. An exhausted list of fates means
    that every further call succeeds, so a theorem for all worlds covers every
    pattern of failures and crashes. A crash keeps the files as they are (the
    process dies, the operating system does not); an [fsync] changes nothing in
    this model but can fail. *)

From S2P Require Import Prelude.

(** ** Outcomes and the monad *)

Inductive res (A : Type) : Type :=
| Ok (a : A)
| Err (e : string)
| Panic
| Crash.
Arguments Ok {A} a.
Arguments Err {A} e.
Arguments Panic {A}.
Arguments Crash {A}.

Definition res_map {A B} (f : A -> B) (r : res A) : res B :=
  match r with Ok a => Ok (f a) | Err e => Err e | Panic => Panic | Crash => Crash end.

Definition is_ok {A} (r : res A) : bool := match r with Ok _ => true | _ => false end.

(** Pure fallible code uses [res] itself. *)
#[global] Instance res_ret : MRet res := @Ok.
#[global] Instance res_bind : MBind res := fun A B f r =>
  match r with Ok a => f a | Err e => Err e | Panic => Panic | Crash => Crash end.

Lemma bind_eq {A B} (m : res A) a (f : A -> res B) x : m = Ok a -> f a = x -> (m ≫= f) = x.
Proof. by intros ->. Qed.

Lemma bind_ok {A B} (a : A) (f : A -> res B) : (Ok a ≫= f) = f a.
Proof. done. Qed.

Definition M (S A : Type) : Type := S -> res A * S.

#[global] Instance M_ret {S} : MRet (M S) := fun A a s => (Ok a, s).
#[global] Instance M_bind {S} : MBind (M S) := fun A B f m s =>
  match m s with
  | (Ok a, s') => f a s'
  | (Err e, s') => (Err e, s')
  | (Panic, s') => (Panic, s')
  | (Crash, s') => (Crash, s')
  end.

Definition raise {S A} (e : string) : M S A := fun s => (Err e, s).
Definition gets {S A} (f : S -> A) : M S A := fun s => (Ok (f s), s).
Definition modify {S} (f : S -> S) : M S unit := fun s => (Ok tt, f s).
Definition of_res {S A} (r : res A) : M S A := fun s => (r, s).

(** [if err != nil { h(err) }]: run the handler on an error, not on a crash. *)
Definition catch {S A} (m : M S A) (h : string -> M S A) : M S A := fun s =>
  match m s with
  | (Err e, s') => h e s'
  | r => r
  end.

(** [_ = f()]: the error is dropped. *)
Definition ignore {S A} (m : M S A) : M S unit := fun s =>
  match m s with
  | (Ok _, s') => (Ok tt, s')
  | (Err _, s') => (Ok tt, s')
  | (Panic, s') => (Panic, s')
  | (Crash, s') => (Crash, s')
  end.

(** [try_err m]: the error of m as a value. *)
Definition try_err {S A} (m : M S A) : M S (option string) := fun s =>
  match m s with
  | (Ok _, s') => (Ok None, s')
  | (Err e, s') => (Ok (Some e), s')
  | (Panic, s') => (Panic, s')
  | (Crash, s') => (Crash, s')
  end.

(** Run a computation on a component of the state. *)
Definition zoom {S T A} (get : T -> S) (put : S -> T -> T) (m : M S A) : M T A := fun t =>
  let (r, s') := m (get t) in (r, put s' t).

Fixpoint mfold {S A} (f : A -> M S unit) (l : list A) : M S unit :=
  match l with
  | [] => mret tt
  | x :: l' => f x ;; mfold f l'
  end.

(** ** What a computation does from a state *)

(** [runs m s Qok Qerr Qcrash]: from s, m returns a value satisfying Qok, or an
    error in a state satisfying Qerr, or crashes in a state satisfying Qcrash; it
    does not panic. *)
Definition runs {S A} (m : M S A) (s : S)
    (Qok : A -> S -> Prop) (Qerr : S -> Prop) (Qcrash : S -> Prop) : Prop :=
  match m s with
  | (Ok a, s') => Qok a s'
  | (Err _, s') => Qerr s'
  | (Panic, _) => False
  | (Crash, s') => Qcrash s'
  end.

(** A computation that never panics, ends well with [Q] or fails for a cause outside the
    program, [bad], or is cut off by a crash; it brings about no such cause. *)
Definition depends {S A} (bad : S -> Prop) (m : M S A) (s : S) (Q : A -> S -> Prop) : Prop :=
  runs m s (fun a s' => Q a s' /\ (bad s' -> bad s)) (fun _ => bad s) (fun _ => True).

Section runs.
Context {S : Type}.

Lemma runs_ret {A} (a : A) s (Qok : A -> S -> Prop) Qerr Qcrash :
  Qok a s -> runs (mret a) s Qok Qerr Qcrash.
Proof. done. Qed.

Lemma runs_bind {A B} (m : M S A) (f : A -> M S B) s Qok Qerr Qcrash :
  runs m s (fun a s' => runs (f a) s' Qok Qerr Qcrash) Qerr Qcrash ->
  runs (m ≫= f) s Qok Qerr Qcrash.
Proof.
  unfold runs, mbind, M_bind. destruct (m s) as [[a|e| |] s'] eqn:E; try done.
Qed.

Lemma runs_mono {A} (m : M S A) s (Qok Qok' : A -> S -> Prop) (Qerr Qerr' Qcrash Qcrash' : S -> Prop) :
  runs m s Qok Qerr Qcrash ->
  (forall a s', Qok a s' -> Qok' a s') -> (forall s', Qerr s' -> Qerr' s') ->
  (forall s', Qcrash s' -> Qcrash' s') ->
  runs m s Qok' Qerr' Qcrash'.
Proof. unfold runs. destruct (m s) as [[a|e| |] s']; auto. Qed.

Lemma runs_raise {A} e s (Qok : A -> S -> Prop) (Qerr Qcrash : S -> Prop) :
  Qerr s -> runs (raise e) s Qok Qerr Qcrash.
Proof. done. Qed.

Lemma runs_gets {A} (f : S -> A) s (Qok : A -> S -> Prop) Qerr Qcrash :
  Qok (f s) s -> runs (gets f) s Qok Qerr Qcrash.
Proof. done. Qed.

Lemma runs_modify (f : S -> S) s (Qok : unit -> S -> Prop) Qerr Qcrash :
  Qok tt (f s) -> runs (modify f) s Qok Qerr Qcrash.
Proof. done. Qed.

Lemma runs_catch {A} (m : M S A) h s Qok Qerr Qcrash :
  runs m s Qok (fun s' => forall e, runs (h e) s' Qok Qerr Qcrash) Qcrash ->
  runs (catch m h) s Qok Qerr Qcrash.
Proof. unfold runs, catch. destruct (m s) as [[a|e| |] s']; intros H; try done. apply (H e). Qed.

Lemma runs_ignore {A} (m : M S A) s (Qok : unit -> S -> Prop) Qerr Qcrash :
  runs m s (fun _ => Qok tt) (Qok tt) Qcrash ->
  runs (ignore m) s Qok Qerr Qcrash.
Proof. unfold runs, ignore. destruct (m s) as [[a|e| |] s']; auto. Qed.

Lemma runs_try_err {A} (m : M S A) s (Qok : option string -> S -> Prop) Qerr Qcrash :
  runs m s (fun _ => Qok None) (fun s' => forall e, Qok (Some e) s') Qcrash ->
  runs (try_err m) s Qok Qerr Qcrash.
Proof. unfold runs, try_err. destruct (m s) as [[a|e| |] s']; auto. Qed.

Lemma runs_zoom {T A} (get : T -> S) (put : S -> T -> T) (m : M S A) t Qok Qerr Qcrash :
  runs m (get t) (fun a s' => Qok a (put s' t)) (fun s' => Qerr (put s' t))
    (fun s' => Qcrash (put s' t)) ->
  runs (zoom get put m) t Qok Qerr Qcrash.
Proof. unfold runs, zoom. destruct (m (get t)) as [[a|e| |] s']; auto. Qed.

(** A loop over a list keeps an invariant of the elements done and left. *)
Lemma runs_mfold {A} (f : A -> M S unit) (I : list A -> list A -> S -> Prop) l s Qerr Qcrash :
  I [] l s ->
  (forall done x todo s', I done (x :: todo) s' ->
     runs (f x) s' (fun _ => I (done ++ [x]) todo) Qerr Qcrash) ->
  runs (mfold f l) s (fun _ => I l []) Qerr Qcrash.
Proof.
  intros HI Hf. assert (forall todo done s', I done todo s' ->
    runs (mfold f todo) s' (fun _ => I (done ++ todo) []) Qerr Qcrash) as H.
  { induction todo as [|x todo IH]; intros done s' H; simpl.
    - apply runs_ret. by rewrite app_nil_r.
    - apply runs_bind. eapply runs_mono; [by apply Hf| |auto|auto].
      intros u s'' H'. specialize (IH _ _ H').
      by rewrite <- app_assoc in IH. }
  by apply (H l []).
Qed.
End runs.

(** ** The file system *)

Inductive fate : Type :=
| Fine
| Fails (written : nat)
| Crashes (written : nat).

Record World : Type := mkWorld { files : gmap bytes bytes; fates : list fate }.

Definition set_files (f : gmap bytes bytes -> gmap bytes bytes) (w : World) : World :=
  mkWorld (f (files w)) (fates w).

Definition next_fate (w : World) : fate * World :=
  match fates w with
  | [] => (Fine, w)
  | f :: fs => (f, mkWorld (files w) fs)
  end.

(** A system call that takes effect as a whole or not at all. *)
Definition sys (what : string) (f : gmap bytes bytes -> gmap bytes bytes) : M World unit := fun w =>
  match next_fate w with
  | (Fine, w') => (Ok tt, set_files f w')
  | (Fails _, w') => (Err what, w')
  | (Crashes _, w') => (Crash, w')
  end.

(** Overwrite the bytes at [pos]; a gap is filled with zeros. *)
Definition splice (pos : nat) (data content : bytes) : bytes :=
  take pos (content ++ replicate (pos - length content) x00) ++ data ++
  drop (pos + length data) content.

Definition write_bytes (name : bytes) (pos : nat) (data : bytes)
    (fs : gmap bytes bytes) : gmap bytes bytes :=
  alter (splice pos data) name fs.

(** Write [data] at [pos] of a file. *)
Definition sys_write (name : bytes) (pos : nat) (data : bytes) : M World unit := fun w =>
  match next_fate w with
  | (Fine, w') => (Ok tt, set_files (write_bytes name pos data) w')
  | (Fails k, w') => (Err "write", set_files (write_bytes name pos (take k data)) w')
  | (Crashes k, w') => (Crash, set_files (write_bytes name pos (take k data)) w')
  end.

(** [f.Write(data)] on an open file whose offset is part of the state: the offset
    moves past what was written, also when the write fails half-way. *)
Definition f_Write (name : bytes) (data : bytes) : M (nat * World) unit := fun s =>
  let '(pos, w) := s in
  match next_fate w with
  | (Fine, w') => (Ok tt, ((pos + length data)%nat, set_files (write_bytes name pos data) w'))
  | (Fails k, w') =>
      (Err "write", ((pos + length (take k data))%nat, set_files (write_bytes name pos (take k data)) w'))
  | (Crashes k, w') =>
      (Crash, ((pos + length (take k data))%nat, set_files (write_bytes name pos (take k data)) w'))
  end.

(** [os.Create], and [os.OpenFile] with O_CREATE|O_TRUNC. *)
Definition os_Create (name : bytes) : M World unit := sys "create" (fun fs => <[name := []]> fs).

(** [os.OpenFile] with O_CREATE only. *)
Definition os_OpenCreate (name : bytes) : M World unit :=
  sys "open" (fun fs => match fs !! name with Some _ => fs | None => <[name := []]> fs end).

(** [os.Open] for reading: the error when the file is absent is the code's own
    business, so the content is returned as an option. *)
Definition os_Open (name : bytes) : M World (option bytes) :=
  sys "open" id ;; gets (fun w => files w !! name).

Definition os_Remove (name : bytes) : M World unit := fun w =>
  match files w !! name with
  | None => (Err "remove: no such file", w)
  | Some _ => sys "remove" (delete name) w
  end.

Definition os_Rename (old new : bytes) : M World unit := fun w =>
  match files w !! old with
  | None => (Err "rename: no such file", w)
  | Some c => sys "rename" (fun fs => <[new := c]> (delete old fs)) w
  end.

Definition f_Truncate (name : bytes) (n : nat) : M World unit :=
  sys "truncate" (alter (fun c => take n c ++ replicate (n - length c) x00) name).

(** Calls that change no file content: fsync, close, seek, stat, mkdir of an
    existing directory. *)
Definition f_Sync : M World unit := sys "sync" id.
Definition f_Close : M World unit := sys "close" id.
Definition f_Seek : M World unit := sys "seek" id.

Lemma splice_end data content : splice (length content) data content = content ++ data.
Proof.
  unfold splice. rewrite Nat.sub_diag. simpl. rewrite app_nil_r.
  rewrite take_ge by lia. rewrite drop_ge by lia. by rewrite app_nil_r.
Qed.

(** Schedules in which no call returns an error: the process either runs on or
    crashes. *)
Definition crash_only (w : World) : Prop :=
  Forall (fun f => match f with Fails _ => False | _ => True end) (fates w).

(** Schedules in which every call succeeds. *)
Definition faultless (w : World) : Prop := Forall (fun f => f = Fine) (fates w).

Lemma faultless_crash_only w : faultless w -> crash_only w.
Proof. unfold faultless, crash_only. intros H. eapply Forall_impl; [exact H|]. by intros f ->. Qed.

Lemma next_fate_files w : files (next_fate w).2 = files w.
Proof. unfold next_fate. by destruct (fates w). Qed.

Section sys_rules.
Context (w : World) (Qok : unit -> World -> Prop) (Qerr Qcrash : World -> Prop).

Lemma runs_sys what f :
  (forall fs, Qok tt (mkWorld (f (files w)) fs)) ->
  (forall fs, Qerr (mkWorld (files w) fs)) ->
  (forall fs, Qcrash (mkWorld (files w) fs)) ->
  runs (sys what f) w Qok Qerr Qcrash.
Proof.
  intros H1 H2 H3. unfold runs, sys, next_fate, set_files. destruct w as [fs ft]; simpl in *.
  destruct ft as [|[] ft]; simpl; auto.
Qed.

(** With no failing call in the schedule, the error case does not arise. *)
Lemma runs_sys_crash_only what f :
  crash_only w ->
  (forall fs, crash_only (mkWorld (f (files w)) fs) -> Qok tt (mkWorld (f (files w)) fs)) ->
  (forall fs, Qcrash (mkWorld (files w) fs)) ->
  runs (sys what f) w Qok Qerr Qcrash.
Proof.
  intros Hc H1 H3. unfold runs, sys, next_fate, crash_only, set_files in *. destruct w as [fs ft]; simpl in *.
  destruct ft as [|[] ft]; simpl; inv Hc; try done; auto.
Qed.

Lemma runs_write_crash_only name pos data :
  crash_only w ->
  (forall fs, crash_only (mkWorld (write_bytes name pos data (files w)) fs) ->
     Qok tt (mkWorld (write_bytes name pos data (files w)) fs)) ->
  (forall k fs, Qcrash (mkWorld (write_bytes name pos (take k data) (files w)) fs)) ->
  runs (sys_write name pos data) w Qok Qerr Qcrash.
Proof.
  intros Hc H1 H3. unfold runs, sys_write, next_fate, crash_only in *. destruct w as [fs ft]; simpl in *.
  destruct ft as [|[] ft]; simpl; inv Hc; try done; unfold set_files; simpl; auto.
Qed.

Lemma runs_f_Write_crash_only name pos data (Qok' : unit -> nat * World -> Prop) Qerr'
    (Qcrash' : nat * World -> Prop) :
  crash_only w ->
  (forall fs, crash_only (mkWorld (write_bytes name pos data (files w)) fs) ->
     Qok' tt ((pos + length data)%nat, mkWorld (write_bytes name pos data (files w)) fs)) ->
  (forall k p fs, Qcrash' (p, mkWorld (write_bytes name pos (take k data) (files w)) fs)) ->
  runs (f_Write name data) (pos, w) Qok' Qerr' Qcrash'.
Proof.
  intros Hc H1 H3. unfold runs, f_Write, next_fate, crash_only, set_files in *.
  destruct w as [fs ft]; simpl in *.
  destruct ft as [|[] ft]; simpl; inv Hc; try done; auto.
Qed.

Lemma runs_write name pos data :
  (forall fs, Qok tt (mkWorld (write_bytes name pos data (files w)) fs)) ->
  (forall k fs, Qerr (mkWorld (write_bytes name pos (take k data) (files w)) fs)) ->
  (forall k fs, Qcrash (mkWorld (write_bytes name pos (take k data) (files w)) fs)) ->
  runs (sys_write name pos data) w Qok Qerr Qcrash.
Proof.
  intros H1 H2 H3. unfold runs, sys_write, next_fate. destruct w as [fs ft]; simpl in *.
  destruct ft as [|[] ft]; unfold set_files; simpl; auto.
Qed.
End sys_rules.

(** ** Which schedule is left, and which files a computation touched *)

Definition follows (w w' : World) : Prop := fates w' `suffix_of` fates w.
Definition can_fail (w : World) : Prop := exists k, Fails k ∈ fates w.
Definition can_crash (w : World) : Prop := exists k, Crashes k ∈ fates w.

(** Every file not in [names] is as before. *)
Definition only (names : list bytes) (w w' : World) : Prop :=
  forall n, n ∉ names -> files w' !! n = files w !! n.

#[global] Instance follows_preorder : PreOrder follows.
Proof. unfold follows. split; [by intros w|]. intros w1 w2 w3 H1 H2. by etrans. Qed.

#[global] Instance only_equiv names : Equivalence (only names).
Proof.
  unfold only. split; [by intros w n|by intros w1 w2 H n Hn; rewrite H|].
  intros w1 w2 w3 H1 H2 n Hn. by rewrite H2, H1.
Qed.

Lemma only_weaken names names' w w' : only names w w' -> names ⊆ names' -> only names' w w'.
Proof. intros H Hs n Hn. apply H. set_solver. Qed.

Lemma only_files names w w' : files w' = files w -> only names w w'.
Proof. by intros E n _; rewrite E. Qed.

Lemma only_insert name c w w' : files w' = <[name := c]> (files w) -> only [name] w w'.
Proof. intros E n Hn. rewrite E, lookup_insert_ne by set_solver. done. Qed.

Lemma can_fail_follows w w' : follows w w' -> can_fail w' -> can_fail w.
Proof. intros [l Hl] [k Hk]. exists k. rewrite Hl. set_solver. Qed.

Lemma can_crash_follows w w' : follows w w' -> can_crash w' -> can_crash w.
Proof. intros [l Hl] [k Hk]. exists k. rewrite Hl. set_solver. Qed.

Lemma crash_only_cannot_fail w : crash_only w -> ~ can_fail w.
Proof. unfold crash_only. rewrite Forall_forall. intros H [k Hk]. apply (H _ Hk). Qed.

Lemma crash_only_follows w w' : follows w w' -> crash_only w -> crash_only w'.
Proof. unfold crash_only. intros [l ->] H. by apply Forall_app in H as [_ ?]. Qed.

Lemma faultless_cannot_fail w : faultless w -> ~ can_fail w.
Proof. intros H. by apply crash_only_cannot_fail, faultless_crash_only. Qed.

Lemma faultless_cannot_crash w : faultless w -> ~ can_crash w.
Proof. unfold faultless. rewrite Forall_forall. intros H [k Hk]. by specialize (H _ Hk). Qed.

Lemma faultless_follows w w' : follows w w' -> faultless w -> faultless w'.
Proof. unfold faultless. intros [l ->] H. by apply Forall_app in H as [_ ?]. Qed.

#[export] Hint Resolve can_fail_follows can_crash_follows crash_only_follows faultless_follows
  only_files only_insert : lsm.

Section sys_full.
Context (w : World) (Qok : unit -> World -> Prop) (Qerr Qcrash : World -> Prop).

Lemma sys_run what f :
  (forall w', follows w w' -> files w' = f (files w) -> Qok tt w') ->
  (forall w', follows w w' -> can_fail w -> files w' = files w -> Qerr w') ->
  (forall w', can_crash w -> files w' = files w -> Qcrash w') ->
  runs (sys what f) w Qok Qerr Qcrash.
Proof.
  intros H1 H2 H3. unfold runs, sys, next_fate, set_files, follows, can_fail, can_crash in *.
  destruct w as [fs [|ft fts]]; simpl in *; [by apply H1|].
  destruct ft as [|k|k]; simpl; [apply H1|apply H2|apply H3]; try done; try (by exists [Fine]);
    try (by exists [Fails k]); exists k; left.
Qed.

Lemma f_Write_run name data pos (Qok' : unit -> nat * World -> Prop)
    (Qerr' Qcrash' : nat * World -> Prop) :
  (forall w', follows w w' -> files w' = write_bytes name pos data (files w) ->
     Qok' tt ((pos + length data)%nat, w')) ->
  (forall k p w', follows w w' -> can_fail w -> files w' = write_bytes name pos (take k data) (files w) ->
     Qerr' (p, w')) ->
  (forall k p w', can_crash w -> files w' = write_bytes name pos (take k data) (files w) -> Qcrash' (p, w')) ->
  runs (f_Write name data) (pos, w) Qok' Qerr' Qcrash'.
Proof.
  intros H1 H2 H3. unfold runs, f_Write, next_fate, set_files, follows, can_fail, can_crash in *.
  destruct w as [fs [|ft fts]]; simpl in *; [by apply H1|].
  destruct ft as [|k|k]; simpl; [apply H1|apply (H2 k)|apply (H3 k)]; try done; try (by exists [Fine]);
    try (by exists [Fails k]); exists k; left.
Qed.
End sys_full.

Lemma only_write_bytes name pos data w w' :
  files w' = write_bytes name pos data (files w) -> only [name] w w'.
Proof. intros E n Hn. rewrite E. unfold write_bytes. apply lookup_alter_ne. set_solver. Qed.

#[export] Hint Resolve only_write_bytes : lsm.

(** Appending at the end of a file that is all written at its offset. *)
Lemma write_bytes_append (name c data : bytes) (fs : gmap bytes bytes) :
  fs !! name = Some c -> write_bytes name (length c) data fs = <[name := c ++ data]> fs.
Proof.
  intros Hn. apply map_eq. intros n. unfold write_bytes. destruct (decide (n = name)) as [->|].
  - rewrite lookup_alter_eq, Hn, lookup_insert_eq. simpl. by rewrite splice_end.
  - by rewrite lookup_alter_ne, lookup_insert_ne.
Qed.

(** Consecutive writes to a file opened at its end append the buffers. *)
Lemma write_loop_run (name : bytes) (chunks : list bytes) w (c : bytes) :
  files w !! name = Some c ->
  runs (mfold (f_Write name) chunks) (length c, w)
    (fun _ '(p, w') => follows w w' /\ p = length (c ++ concat chunks) /\
                       files w' = <[name := c ++ concat chunks]> (files w))
    (fun '(_, w') => follows w w' /\ can_fail w /\ only [name] w w')
    (fun '(_, w') => can_crash w /\ only [name] w w').
Proof.
  intros Hn.
  apply (runs_mfold _ (fun dn todo '(p, w') => follows w w' /\ p = length (c ++ concat dn) /\
                     files w' = <[name := c ++ concat dn]> (files w))).
  - simpl. rewrite app_nil_r. split; [done|]. split; [done|]. by rewrite insert_id.
  - intros dn x todo [p w'] (Hf & -> & Hfs).
    assert (only [name] w w') by eauto with lsm. apply f_Write_run.
    + intros w'' Hf' Hfs'. split; [by etrans|].
      rewrite (write_bytes_append _ (c ++ concat dn)) in Hfs' by (rewrite Hfs; apply lookup_insert_eq).
      rewrite concat_app. simpl. rewrite app_nil_r. split; [rewrite !length_app; lia|].
      rewrite Hfs', Hfs, insert_insert_eq, <- app_assoc. done.
    + intros k q w'' Hf' Hc Hfs'. split; [by etrans|]. split; [eauto with lsm|].
      transitivity w'; eauto with lsm.
    + intros k q w'' Hc Hfs'. split; [eauto with lsm|]. transitivity w'; eauto with lsm.
Qed.

(** ** Computations on the file system with a frame

    [touches names w0 m w Q]: m, run from w in a computation that began at w0,
    changes only files in [names], whatever happens; if it returns a value the
    final state satisfies Q; an error is returned only if the schedule of w0 has
    a failing call, and a crash only if it has a crashing one. *)
Definition since (names : list bytes) (w0 w : World) : Prop := follows w0 w /\ only names w0 w.

Definition touches {A} (names : list bytes) (w0 : World) (m : M World A) (w : World)
    (Q : A -> World -> Prop) : Prop :=
  runs m w (fun a w' => since names w0 w' /\ Q a w')
    (fun w' => since names w0 w' /\ can_fail w0)
    (fun w' => only names w0 w' /\ can_crash w0).

#[global] Instance since_preorder names : PreOrder (since names).
Proof.
  split; [by intros w; split|]. intros w1 w2 w3 [? ?] [? ?]. split; by etrans.
Qed.

Lemma since_weaken names names' w w' : since names w w' -> names ⊆ names' -> since names' w w'.
Proof. intros [? ?] ?. split; [done|by eapply only_weaken]. Qed.

Section touches.
Context (names : list bytes) (w0 w : World) (Hs : since names w0 w).

Lemma touches_ret {A} (a : A) (Q : A -> World -> Prop) : Q a w -> touches names w0 (mret a) w Q.
Proof. intros H. apply runs_ret. done. Qed.

Lemma touches_gets {A} (f : World -> A) (Q : A -> World -> Prop) : Q (f w) w -> touches names w0 (gets f) w Q.
Proof. intros H. apply runs_gets. done. Qed.

Lemma touches_of_res {A} (r : res A) a (Q : A -> World -> Prop) :
  r = Ok a -> Q a w -> touches names w0 (of_res r) w Q.
Proof. intros -> H. done. Qed.

Lemma touches_raise {A} e (Q : A -> World -> Prop) : can_fail w0 -> touches names w0 (raise e) w Q.
Proof. intros H. apply runs_raise. done. Qed.

Lemma touches_bind {A B} (m : M World A) (f : A -> M World B) Q :
  touches names w0 m w (fun a w' => since names w0 w' -> touches names w0 (f a) w' Q) ->
  touches names w0 (m ≫= f) w Q.
Proof.
  intros H. apply runs_bind. eapply runs_mono; [exact H| |done|done]. intros a w' (Hs' & H'). by apply H'.
Qed.

Lemma touches_mono {A} (m : M World A) (Q Q' : A -> World -> Prop) :
  touches names w0 m w Q -> (forall a w', since names w0 w' -> Q a w' -> Q' a w') -> touches names w0 m w Q'.
Proof. intros H HQ. eapply runs_mono; [exact H| |done|done]. naive_solver. Qed.

(** Use a specification of a callee: from its own start, with its own files. *)
Lemma touches_call {A} names' (m : M World A) (Q Q' : A -> World -> Prop) :
  touches names' w m w Q -> names' ⊆ names ->
  (forall a w', since names' w w' -> Q a w' -> Q' a w') -> touches names w0 m w Q'.
Proof.
  intros H Hn HQ. eapply runs_mono; [exact H|..].
  - intros a w' (Hs' & ?). split; [|auto]. etrans; [exact Hs|by eapply since_weaken].
  - intros w' (Hs' & Hc). split; [etrans; [exact Hs|by eapply since_weaken]|].
    destruct Hs. eauto with lsm.
  - intros w' (Ho & Hc). destruct Hs as [Hf Ho0]. split; [|eauto with lsm].
    etrans; [exact Ho0|by eapply only_weaken].
Qed.

Lemma touches_sys what f (Q : unit -> World -> Prop) :
  (forall w', files w' = f (files w) -> only names w w') ->
  (forall w', files w' = f (files w) -> since names w0 w' -> Q tt w') ->
  touches names w0 (sys what f) w Q.
Proof.
  intros Ho HQ. destruct Hs as [Hf0 Ho0]. apply sys_run.
  - intros w' Hf E. assert (since names w0 w') by (split; etrans; eauto). auto.
  - intros w' Hf Hc E. split; [split; etrans; eauto with lsm|eauto with lsm].
  - intros w' Hc E. split; [etrans; eauto with lsm|eauto with lsm].
Qed.

(** A call whose error is dropped must leave the postcondition either way. *)
Lemma touches_ignore {A} (m : M World A) (Q : unit -> World -> Prop) :
  touches names w0 m w (fun _ => Q tt) ->
  (forall w', since names w0 w' -> can_fail w0 -> Q tt w') ->
  touches names w0 (ignore m) w Q.
Proof.
  intros H HQ. apply runs_ignore. eapply runs_mono; [exact H|..]; [done| |done].
  intros w' (? & ?). auto.
Qed.

(** An error seen as a value. *)
Lemma touches_try_err {A} (m : M World A) (Q : option string -> World -> Prop) :
  touches names w0 m w (fun _ => Q None) ->
  (forall e w', since names w0 w' -> can_fail w0 -> Q (Some e) w') ->
  touches names w0 (try_err m) w Q.
Proof.
  intros H HQ. apply runs_try_err. eapply runs_mono; [exact H|..]; [done| |done].
  intros w' (? & ?). auto.
Qed.

Lemma touches_catch {A} (m : M World A) h (Q : A -> World -> Prop) :
  touches names w0 m w Q ->
  (forall e w', since names w0 w' -> can_fail w0 -> touches names w0 (h e) w' Q) ->
  touches names w0 (catch m h) w Q.
Proof.
  intros H Hh. apply runs_catch. eapply runs_mono; [exact H|done|..|done].
  intros w' (? & ?) e. by apply Hh.
Qed.

Lemma touches_nop what (Q : unit -> World -> Prop) :
  (forall w', files w' = files w -> since names w0 w' -> Q tt w') -> touches names w0 (sys what id) w Q.
Proof. intros H. apply touches_sys; [eauto with lsm|done]. Qed.

Lemma touches_ignore_nop what (Q : unit -> World -> Prop) :
  (forall w', files w' = files w -> since names w0 w' -> Q tt w') ->
  touches names w0 (ignore (sys what id)) w Q.
Proof.
  intros H. apply runs_ignore. destruct Hs as [Hf0 Ho0]. apply sys_run.
  - intros w' Hf E. assert (since names w0 w') by (split; etrans; eauto with lsm). auto.
  - intros w' Hf Hc E. assert (since names w0 w') by (split; etrans; eauto with lsm). auto.
  - intros w' Hc E. split; [etrans; eauto with lsm|eauto with lsm].
Qed.

Lemma touches_os_Create name (Q : unit -> World -> Prop) :
  name ∈ names ->
  (forall w', files w' = <[name := []]> (files w) -> since names w0 w' -> Q tt w') ->
  touches names w0 (os_Create name) w Q.
Proof.
  intros Hn H. apply touches_sys; [|done]. intros w' E. eapply only_weaken; [by eapply only_insert|set_solver].
Qed.

(** Removing a file with the error dropped: absent, removed, or still there
    after a failure. *)
Lemma touches_ignore_Remove name (Q : unit -> World -> Prop) :
  name ∈ names ->
  (forall w', files w' = delete name (files w) -> since names w0 w' -> Q tt w') ->
  (forall w', files w' = files w -> since names w0 w' -> can_fail w0 -> Q tt w') ->
  touches names w0 (ignore (os_Remove name)) w Q.
Proof.
  intros Hn H1 H2. apply runs_ignore. unfold os_Remove, runs.
  destruct (files w !! name) as [c|] eqn:E.
  - change (runs (sys "remove" (delete name)) w
      (fun _ w' => since names w0 w' /\ Q tt w') (fun w' => since names w0 w' /\ Q tt w')
      (fun w' => only names w0 w' /\ can_crash w0)).
    destruct Hs as [Hf0 Ho0]. apply sys_run.
    + intros w' Hf E'. assert (since names w0 w'); [|auto]. split; [by etrans|]. etrans; [exact Ho0|].
      intros n Hn'. rewrite E'. apply lookup_delete_ne. set_solver.
    + intros w' Hf Hc E'. assert (since names w0 w') by (split; etrans; eauto with lsm). eauto with lsm.
    + intros w' Hc E'. split; [etrans; eauto with lsm|eauto with lsm].
  - split; [done|]. apply H1; [by rewrite delete_id|done].
Qed.

Lemma touches_os_Rename old new c (Q : unit -> World -> Prop) :
  old ∈ names -> new ∈ names -> files w !! old = Some c ->
  (forall w', files w' = <[new := c]> (delete old (files w)) -> since names w0 w' -> Q tt w') ->
  touches names w0 (os_Rename old new) w Q.
Proof.
  intros Ho Hn E H. unfold touches, os_Rename, runs. rewrite E.
  apply (touches_sys "rename" (fun fs => <[new := c]> (delete old fs))); [|done].
  intros w' E' n Hn'. rewrite E', lookup_insert_ne, lookup_delete_ne by set_solver. done.
Qed.
End touches.

Lemma touches_os_Open names w0 w name (Q : option bytes -> World -> Prop) :
  since names w0 w ->
  (forall w', files w' = files w -> since names w0 w' -> Q (files w !! name) w') ->
  touches names w0 (os_Open name) w Q.
Proof.
  intros Hs H. apply touches_bind, touches_nop; [done|]. intros w' E Hs' _. apply touches_gets; [done|].
  rewrite E. by apply H.
Qed.

(** Without faults in the schedule the computation succeeds. *)
Lemma touches_faultless {A} names (m : M World A) w Q :
  touches names w m w Q -> faultless w ->
  exists a w', m w = (Ok a, w') /\ faultless w' /\ only names w w' /\ Q a w'.
Proof.
  unfold touches, runs. intros H Hf. destruct (m w) as [[a|e| |] w'].
  - destruct H as ((? & ?) & ?). exists a, w'. split_and!; eauto using faultless_follows.
  - destruct H as (? & H). by apply faultless_cannot_fail in H.
  - done.
  - destruct H as (? & H). by apply faultless_cannot_crash in H.
Qed.

(** ** Computations that keep the disk recoverable

    [safe J w0 m w Q]: whatever happens in m, run from w in a computation that
    began at w0, the files satisfy J: at the end, at an error and at a crash;
    errors and crashes come from the schedule of w0. *)
Definition safe {A : Type} (J : gmap bytes bytes -> Prop) (w0 : World) (m : M World A) (w : World)
    (Q : A -> World -> Prop) : Prop :=
  runs m w (fun a w' => follows w0 w' /\ J (files w') /\ Q a w')
    (fun w' => follows w0 w' /\ J (files w') /\ can_fail w0)
    (fun w' => J (files w') /\ can_crash w0).

Section safe.
Context (J : gmap bytes bytes -> Prop) (w0 w : World) (Hf : follows w0 w) (HJ : J (files w)).

Lemma safe_ret {A} (a : A) (Q : A -> World -> Prop) : Q a w -> safe J w0 (mret a) w Q.
Proof. intros H. apply runs_ret. done. Qed.

Lemma safe_gets {A} (f : World -> A) (Q : A -> World -> Prop) : Q (f w) w -> safe J w0 (gets f) w Q.
Proof. intros H. apply runs_gets. done. Qed.

Lemma safe_of_res {A} (r : res A) a (Q : A -> World -> Prop) :
  r = Ok a -> Q a w -> safe J w0 (of_res r) w Q.
Proof. intros -> H. done. Qed.

Lemma safe_raise {A} e (Q : A -> World -> Prop) : can_fail w0 -> safe J w0 (raise e) w Q.
Proof. intros H. apply runs_raise. done. Qed.

Lemma safe_bind {A B} (m : M World A) (f : A -> M World B) Q :
  safe J w0 m w (fun a w' => follows w0 w' -> J (files w') -> safe J w0 (f a) w' Q) ->
  safe J w0 (m ≫= f) w Q.
Proof.
  intros H. apply runs_bind. eapply runs_mono; [exact H| |done|done]. intros a w' (? & ? & H'). by apply H'.
Qed.

Lemma safe_mono {A} (m : M World A) (Q Q' : A -> World -> Prop) :
  safe J w0 m w Q -> (forall a w', follows w0 w' -> J (files w') -> Q a w' -> Q' a w') -> safe J w0 m w Q'.
Proof. intros H HQ. eapply runs_mono; [exact H| |done|done]. naive_solver. Qed.

(** Calling a computation specified by a frame: J must not depend on its files. *)
Lemma safe_touches {A} names (m : M World A) (Q Q' : A -> World -> Prop) :
  touches names w m w Q -> (forall w', only names w w' -> J (files w')) ->
  (forall a w', follows w0 w' -> only names w w' -> Q a w' -> Q' a w') -> safe J w0 m w Q'.
Proof.
  intros H Hn HQ. eapply runs_mono; [exact H|..].
  - intros a w' [[Hf' Ho] HQ']. assert (follows w0 w') by (by etrans). auto.
  - intros w' [[Hf' Ho] Hc]. split_and!; [by etrans|auto|eauto with lsm].
  - intros w' [Ho Hc]. split; [auto|eauto with lsm].
Qed.

Lemma safe_call {A : Type} (J' : gmap bytes bytes -> Prop) (m : M World A) (Q Q' : A -> World -> Prop) :
  safe J' w m w Q -> (forall fs, J' fs -> J fs) ->
  (forall a w', follows w0 w' -> J' (files w') -> Q a w' -> Q' a w') -> safe J w0 m w Q'.
Proof.
  intros H Hn HQ. eapply runs_mono; [exact H|..].
  - intros a w' (Hf' & HJ' & HQ'). assert (follows w0 w') by (by etrans). auto.
  - intros w' (Hf' & HJ' & Hc). split_and!; [by etrans|auto|eauto with lsm].
  - intros w' [HJ' Hc]. split; [auto|eauto with lsm].
Qed.

Lemma safe_sys what f (Q : unit -> World -> Prop) :
  J (f (files w)) ->
  (forall w', files w' = f (files w) -> follows w0 w' -> Q tt w') ->
  safe J w0 (sys what f) w Q.
Proof.
  intros HJ' HQ. apply sys_run.
  - intros w' Hf' E. assert (follows w0 w') by (by etrans). rewrite E. auto.
  - intros w' Hf' Hc E. rewrite E. split_and!; [by etrans|done|eauto with lsm].
  - intros w' Hc E. rewrite E. eauto with lsm.
Qed.

Lemma safe_nop what (Q : unit -> World -> Prop) :
  (forall w', files w' = files w -> follows w0 w' -> Q tt w') -> safe J w0 (sys what id) w Q.
Proof. intros H. by apply safe_sys. Qed.

Lemma safe_write name pos data (Q : unit -> World -> Prop) :
  (forall k, J (write_bytes name pos (take k data) (files w))) ->
  (forall w', files w' = write_bytes name pos data (files w) -> follows w0 w' -> Q tt w') ->
  safe J w0 (sys_write name pos data) w Q.
Proof.
  intros HJ' HQ. assert (forall fs fts, fs = files w -> fates w = fts -> follows w0 (mkWorld fs fts)) as Hw.
  { intros fs fts -> <-. exact Hf. }
  pose proof (HJ' (length data)) as Hall. rewrite take_ge in Hall by lia.
  unfold safe, runs, sys_write, next_fate, follows, can_fail, can_crash in *.
  destruct w as [fs [|ft fts]]; simpl in *; unfold set_files; simpl; [by auto|].
  assert (fts `suffix_of` fates w0) as Hs by (etrans; [by exists [ft]|done]).
  destruct ft as [|k|k]; simpl; [by auto| |].
  - split_and!; [done|done|]. exists k. destruct Hf as [l ->]. set_solver.
  - split; [done|]. exists k. destruct Hf as [l ->]. set_solver.
Qed.

(** A call whose error is dropped must leave the postcondition either way. *)
Lemma safe_ignore {A} (m : M World A) (Q : unit -> World -> Prop) :
  safe J w0 m w (fun _ => Q tt) ->
  (forall w', follows w0 w' -> J (files w') -> can_fail w0 -> Q tt w') ->
  safe J w0 (ignore m) w Q.
Proof.
  intros H HQ. apply runs_ignore. eapply runs_mono; [exact H|..]; [done| |done].
  intros w' (? & ? & ?). auto.
Qed.

Lemma safe_ignore_nop what (Q : unit -> World -> Prop) :
  (forall w', files w' = files w -> follows w0 w' -> Q tt w') -> safe J w0 (ignore (sys what id)) w Q.
Proof.
  intros H. apply runs_ignore. apply sys_run.
  - intros w' Hf' E. assert (follows w0 w') by (by etrans). rewrite E. auto.
  - intros w' Hf' Hc E. assert (follows w0 w') by (by etrans). rewrite E. auto.
  - intros w' Hc E. rewrite E. eauto with lsm.
Qed.

(** An error seen as a value. *)
Lemma safe_try_err {A} (m : M World A) (Q : option string -> World -> Prop) :
  safe J w0 m w (fun _ => Q None) ->
  (forall e w', follows w0 w' -> J (files w') -> can_fail w0 -> Q (Some e) w') ->
  safe J w0 (try_err m) w Q.
Proof.
  intros H HQ. apply runs_try_err. eapply runs_mono; [exact H|..]; [done| |done].
  intros w' (? & ? & ?). auto.
Qed.

Lemma safe_catch {A} (m : M World A) h (Q : A -> World -> Prop) :
  safe J w0 m w Q ->
  (forall e w', follows w0 w' -> J (files w') -> can_fail w0 -> safe J w0 (h e) w' Q) ->
  safe J w0 (catch m h) w Q.
Proof.
  intros H Hh. apply runs_catch. eapply runs_mono; [exact H|done|..|done].
  intros w' (? & ? & ?) e. by apply Hh.
Qed.

Lemma safe_ignore_Remove name (Q : unit -> World -> Prop) :
  J (delete name (files w)) ->
  (forall w', files w' = delete name (files w) -> follows w0 w' -> Q tt w') ->
  (forall w', files w' = files w -> follows w0 w' -> can_fail w0 -> Q tt w') ->
  safe J w0 (ignore (os_Remove name)) w Q.
Proof.
  intros HJ' H1 H2. apply runs_ignore. unfold os_Remove, runs.
  destruct (files w !! name) as [c|] eqn:E.
  - change (runs (sys "remove" (delete name)) w
      (fun _ w' => follows w0 w' /\ J (files w') /\ Q tt w') (fun w' => follows w0 w' /\ J (files w') /\ Q tt w')
      (fun w' => J (files w') /\ can_crash w0)).
    apply sys_run.
    + intros w' Hf' E'. assert (follows w0 w') by (by etrans). rewrite E'. auto.
    + intros w' Hf' Hc E'. assert (follows w0 w') by (by etrans). rewrite E'. eauto with lsm.
    + intros w' Hc E'. rewrite E'. eauto with lsm.
  - split_and!; [done|done|]. apply H1; [by rewrite delete_id|done].
Qed.

Lemma safe_os_Rename old new c (Q : unit -> World -> Prop) :
  files w !! old = Some c -> J (<[new := c]> (delete old (files w))) ->
  (forall w', files w' = <[new := c]> (delete old (files w)) -> follows w0 w' -> Q tt w') ->
  safe J w0 (os_Rename old new) w Q.
Proof.
  intros E HJ' HQ. unfold safe, os_Rename, runs. rewrite E.
  by apply (safe_sys "rename" (fun fs => <[new := c]> (delete old fs))).
Qed.
End safe.

Lemma safe_os_Open J w0 w name (Q : option bytes -> World -> Prop) :
  follows w0 w -> J (files w) ->
  (forall w', files w' = files w -> follows w0 w' -> Q (files w !! name) w') ->
  safe J w0 (os_Open name) w Q.
Proof.
  intros Hf HJ H. apply safe_bind, safe_nop; [done|done|]. intros w' E Hf' _ HJ'.
  apply safe_gets; [done|done|]. rewrite E. by apply H.
Qed.

(** A frame is a special case. *)
Lemma touches_safe {A : Type} names w (m : M World A) Q :
  safe (fun fs => forall n, n ∉ names -> fs !! n = files w !! n) w m w Q -> touches names w m w Q.
Proof. intros H. eapply runs_mono; [exact H|..]; unfold since, only; naive_solver. Qed.
