(* ===== verification/Memtable.v ===== *)
(** * internal/memtable: versioned records and the in-memory table

    [Record] and [MemTable] of memtable.go with every method, and the notion the
    read paths share: of several records for a key, the newest (highest sequence
    number, first seen on a tie) wins. The mutex is not modelled: each method is
    one atomic step under it. *)

From S2P Require Import Prelude GoStd.

(** ** Records *)

(** RecordType is a uint8 with two named values. *)
Definition RecordTypePut : Z := 0.
Definition RecordTypeDelete : Z := 1.

Record Rec : Type := mkRec { Key : bytes; Value : bytes; SeqNum : Z; RType : Z }.

#[global] Instance Rec_eq_dec : EqDecision Rec.
Proof. solve_decision. Defined.

(** The zero value [Record{}]. *)
Definition zeroRec : Rec := mkRec [] [] 0 0.

Definition live (r : Rec) : option bytes := if RType r =? RecordTypeDelete then None else Some (Value r).

(** ** Newest wins *)

(** The test [!ok || rec.SeqNum > existing.SeqNum] of SetRaw, Scan and
    ExportReplicaState. *)
Definition newer (existing : option Rec) (r : Rec) : option Rec :=
  match existing with
  | Some e => if SeqNum e <? SeqNum r then Some r else Some e
  | None => Some r
  end.

(** The loop body [if existing, ok := byKey[rec.Key]; ... { byKey[rec.Key] = rec }]. *)
Definition keep_newest (byKey : gmap bytes Rec) (r : Rec) : gmap bytes Rec :=
  match byKey !! Key r with
  | Some e => if SeqNum e <? SeqNum r then <[Key r := r]> byKey else byKey
  | None => <[Key r := r]> byKey
  end.

(** The newest record for k after the records of l, starting from [o]. *)
Definition newest_from (o : option Rec) (k : bytes) (l : list Rec) : option Rec :=
  foldl (fun acc r => if key_eqb (Key r) k then newer acc r else acc) o l.

Definition newest (k : bytes) (l : list Rec) : option Rec := newest_from None k l.

Lemma keep_newest_lookup m r k :
  keep_newest m r !! k = if key_eqb (Key r) k then newer (m !! k) r else m !! k.
Proof.
  unfold keep_newest, newer. destruct (key_eqb (Key r) k) eqn:E; key_bools.
  - subst k. destruct (m !! Key r) as [e|] eqn:Em.
    + destruct (SeqNum e <? SeqNum r); [by rewrite lookup_insert_eq | done].
    + by rewrite lookup_insert_eq.
  - destruct (m !! Key r) as [e|]; [destruct (SeqNum e <? SeqNum r)|];
      try done; by rewrite lookup_insert_ne.
Qed.

Lemma fold_keep_newest_lookup l m k :
  foldl keep_newest m l !! k = newest_from (m !! k) k l.
Proof.
  revert m. induction l as [|r l IH]; intros m; simpl; [done|].
  by rewrite IH, keep_newest_lookup.
Qed.

Lemma newest_from_app o k l1 l2 :
  newest_from o k (l1 ++ l2) = newest_from (newest_from o k l1) k l2.
Proof. unfold newest_from. by rewrite foldl_app. Qed.

Lemma newest_from_other o k l :
  (forall r, r ∈ l -> Key r <> k) -> newest_from o k l = o.
Proof.
  revert o. induction l as [|r l IH]; intros o H; simpl; [done|].
  destruct (key_eqb (Key r) k) eqn:E; key_bools.
  - exfalso. apply (H r); [left|done].
  - apply IH. intros r' Hr'. apply H. by right.
Qed.

(** Older records do not change the winner. *)
Lemma newest_from_older e k l :
  (forall r, r ∈ l -> Key r = k -> SeqNum r <= SeqNum e) -> newest_from (Some e) k l = Some e.
Proof.
  induction l as [|r l IH]; intros H; simpl; [done|].
  destruct (key_eqb (Key r) k) eqn:E; key_bools.
  - destruct (Z.ltb_spec (SeqNum e) (SeqNum r)).
    + assert (SeqNum r <= SeqNum e) by (apply H; [left|done]). lia.
    + apply IH. intros; apply H; [by right|done].
  - apply IH. intros; apply H; [by right|done].
Qed.

Lemma newest_from_Some o k l r :
  newest_from o k l = Some r ->
  (o = Some r \/ (r ∈ l /\ Key r = k)) /\
  (forall e, o = Some e -> SeqNum e <= SeqNum r) /\
  (forall r', r' ∈ l -> Key r' = k -> SeqNum r' <= SeqNum r).
Proof.
  revert o. induction l as [|x l IH]; intros o; simpl.
  { intros ->. split; [by left|]. split; [intros e [= ->]; lia|]. intros r' []%not_elem_of_nil. }
  intros H%IH. destruct H as (H1 & H2 & H3).
  destruct (key_eqb (Key x) k) eqn:E; key_bools.
  - unfold newer in *. destruct o as [e|].
    + destruct (Z.ltb_spec (SeqNum e) (SeqNum x)) as [Hlt|Hge].
      * split; [right; destruct H1 as [[= ->]|[? ?]]; split; auto; set_solver|].
        pose proof (H2 x eq_refl). split; [intros ? [= ->]; lia|].
        intros r' [->|Hr']%elem_of_cons ?; auto.
      * split; [destruct H1 as [?|[? ?]]; [by left|right; set_solver]|].
        pose proof (H2 e eq_refl). split; [intros ? [= ->]; lia|].
        intros r' [->|Hr']%elem_of_cons ?; [lia|auto].
    + split; [right; destruct H1 as [[= ->]|[? ?]]; set_solver|].
      pose proof (H2 x eq_refl). split; [done|].
      intros r' [->|Hr']%elem_of_cons ?; auto.
  - split; [destruct H1 as [?|[? ?]]; [by left|right; set_solver]|]. split; [done|].
    intros r' [->|Hr']%elem_of_cons ?; [done|auto].
Qed.

Lemma newest_from_None o k l :
  newest_from o k l = None <-> o = None /\ (forall r, r ∈ l -> Key r <> k).
Proof.
  revert o. induction l as [|x l IH]; intros o; simpl.
  { split; [intros ->; split; [done|intros ? []%not_elem_of_nil]|tauto]. }
  rewrite IH. destruct (key_eqb (Key x) k) eqn:E; key_bools.
  - split.
    + intros [H _]. unfold newer in H. destruct o as [e|]; [|done]. by destruct (_ <? _).
    + intros [_ H]. exfalso. apply (H x); [left|done].
  - split; intros [-> H]; split; auto; [intros r [->|?]%elem_of_cons; auto|].
    intros r Hr. apply H. by right.
Qed.

Lemma newest_Some k l r :
  newest k l = Some r ->
  r ∈ l /\ Key r = k /\ (forall r', r' ∈ l -> Key r' = k -> SeqNum r' <= SeqNum r).
Proof.
  intros (H1 & _ & H3)%newest_from_Some. destruct H1 as [?|[? ?]]; [done|auto].
Qed.

(** In a list without two records of the same key and sequence number, the
    newest record is the one with the highest sequence number. *)
Lemma newest_intro k l r :
  r ∈ l -> Key r = k ->
  (forall r', r' ∈ l -> Key r' = k -> r' = r \/ SeqNum r' < SeqNum r) ->
  newest k l = Some r.
Proof.
  intros Hin Hk Hmax. destruct (newest k l) as [r'|] eqn:E.
  - apply newest_Some in E as (Hr' & Hk' & Hm). f_equal.
    destruct (Hmax r' Hr' Hk') as [?|Hlt]; [done|]. specialize (Hm r Hin Hk). lia.
  - apply newest_from_None in E as [_ H]. exfalso. by apply (H r).
Qed.

(** In a list sorted strictly by key there is only one record per key. *)
Lemma newest_sorted k l r :
  key_sorted Key l -> newest k l = Some r <-> r ∈ l /\ Key r = k.
Proof.
  intros Hs. split; [intros H%newest_Some; tauto|]. intros [Hin <-].
  apply newest_intro; [done|done|]. intros r' Hr' E. left. by apply (key_sorted_inj Key l).
Qed.

(** ** MemTable *)

Module MemTable.

Record MemTable : Type := mkMem { entries : gmap bytes Rec; nextSeq : Z }.

Definition New : MemTable := mkMem ∅ 1.
Definition NewWithSeq (startSeq : Z) : MemTable := mkMem ∅ startSeq.

Definition Set_ (m : MemTable) (key value : bytes) : MemTable :=
  mkMem (<[key := mkRec key value (nextSeq m) RecordTypePut]> (entries m)) (u64 (nextSeq m + 1)).

Definition Get (m : MemTable) (key : bytes) : option bytes :=
  match entries m !! key with
  | Some r => if RType r =? RecordTypeDelete then None else Some (Value r)
  | None => None
  end.

Definition Delete (m : MemTable) (key : bytes) : MemTable :=
  mkMem (<[key := mkRec key [] (nextSeq m) RecordTypeDelete]> (entries m)) (u64 (nextSeq m + 1)).

Definition AllocSeq (m : MemTable) : Z * MemTable :=
  (nextSeq m, mkMem (entries m) (u64 (nextSeq m + 1))).

Definition SetRaw (m : MemTable) (r : Rec) : MemTable :=
  mkMem
    match entries m !! Key r with
    | Some existing =>
        if SeqNum existing <? SeqNum r then <[Key r := r]> (entries m) else entries m
    | None => <[Key r := r]> (entries m)
    end
    (if nextSeq m <=? SeqNum r then u64 (SeqNum r + 1) else nextSeq m).

Definition Size (m : MemTable) : nat := size (entries m).
Definition NextSeq (m : MemTable) : Z := nextSeq m.
Definition GetRecord (m : MemTable) (key : bytes) : option Rec := entries m !! key.

(** The map is iterated in some order and the slice sorted by key. *)
Definition SortedEntries (m : MemTable) : list Rec :=
  sort_by Key (snd <$> map_to_list (entries m)).

(** [for _, r := range all[start:] { if r.Key > to { break }; out = append(out, r) }] *)
Fixpoint scan_until (to : bytes) (l : list Rec) : list Rec :=
  match l with
  | [] => []
  | r :: l' => if key_ltb to (Key r) then [] else r :: scan_until to l'
  end.

Definition ScanRange (m : MemTable) (from to : bytes) : list Rec :=
  let all := SortedEntries m in
  let start := sort_Search (length all) (fun i =>
    match all !! i with Some r => key_leb from (Key r) | None => false end) in
  scan_until to (drop start all).

(** ** Well-formedness *)

(** Every record is stored under its key and carries a sequence number below
    the next one. *)
Record wf (m : MemTable) : Prop := mkWf {
  wf_key : forall k r, entries m !! k = Some r -> Key r = k;
  wf_seq : forall k r, entries m !! k = Some r -> 0 <= SeqNum r < nextSeq m;
  wf_next : 0 <= nextSeq m < 2 ^ 64
}.

Lemma wf_New : wf New.
Proof. split; simpl; [intros k r H; by rewrite lookup_empty in H..|lia]. Qed.

Lemma wf_NewWithSeq s : 0 <= s < 2 ^ 64 -> wf (NewWithSeq s).
Proof. intros Hs. split; simpl; [intros k r H; by rewrite lookup_empty in H..|lia]. Qed.

Lemma entries_SetRaw m r : entries (SetRaw m r) = keep_newest (entries m) r.
Proof. done. Qed.

Lemma nextSeq_SetRaw m r :
  0 <= SeqNum r -> SeqNum r + 1 < 2 ^ 64 -> 0 <= nextSeq m ->
  nextSeq (SetRaw m r) = Z.max (nextSeq m) (SeqNum r + 1).
Proof.
  intros. simpl. destruct (Z.leb_spec (nextSeq m) (SeqNum r)); [rewrite u64_small|]; lia.
Qed.

Lemma wf_SetRaw m r : wf m -> 0 <= SeqNum r -> SeqNum r + 1 < 2 ^ 64 -> wf (SetRaw m r).
Proof.
  intros [Hk Hs Hn] H0 H1. pose proof (nextSeq_SetRaw m r H0 H1 ltac:(lia)) as En.
  split.
  - intros k r'. rewrite entries_SetRaw, keep_newest_lookup.
    destruct (key_eqb (Key r) k) eqn:E; key_bools; [|apply Hk]. subst k. unfold newer.
    destruct (entries m !! Key r) eqn:Er; [destruct (_ <? _)|]; intros [= <-]; eauto.
  - intros k r'. rewrite entries_SetRaw, keep_newest_lookup, En.
    destruct (key_eqb (Key r) k) eqn:E; key_bools.
    + subst k. unfold newer. destruct (entries m !! Key r) as [e|] eqn:Er.
      * apply Hs in Er. destruct (_ <? _); intros [= <-]; lia.
      * intros [= <-]; lia.
    + intros H%Hs. lia.
  - rewrite En. lia.
Qed.

Lemma wf_AllocSeq m : wf m -> nextSeq m + 1 < 2 ^ 64 -> wf (AllocSeq m).2.
Proof.
  intros [Hk Hs Hn] Hlt. split; simpl; rewrite ?u64_small by lia; [apply Hk| |lia].
  intros k r H%Hs. lia.
Qed.

(** ** What the table holds *)

Lemma elem_of_SortedEntries m r :
  wf m -> r ∈ SortedEntries m <-> entries m !! Key r = Some r.
Proof.
  intros Hw. unfold SortedEntries. rewrite elem_of_sort_by, list_elem_of_fmap. split.
  - intros ([k r'] & -> & H%elem_of_map_to_list). simpl.
    by rewrite (wf_key m Hw k r' H).
  - intros H. exists (Key r, r). split; [done|]. by apply elem_of_map_to_list.
Qed.

Lemma keys_map_to_list m :
  wf m -> Key <$> (snd <$> map_to_list (entries m)) = (map_to_list (entries m)).*1.
Proof.
  intros Hw. rewrite <- list_fmap_compose. apply list_fmap_ext.
  intros i [k r] H. simpl. apply list_elem_of_lookup_2, elem_of_map_to_list in H.
  by apply (wf_key m Hw).
Qed.

Lemma SortedEntries_sorted m : wf m -> key_sorted Key (SortedEntries m).
Proof.
  intros Hw. apply sort_by_sorted. rewrite keys_map_to_list by done.
  apply NoDup_fst_map_to_list.
Qed.

Lemma length_SortedEntries m : length (SortedEntries m) = Size m.
Proof. unfold SortedEntries. rewrite length_sort_by, length_fmap. apply length_map_to_list. Qed.

Lemma newest_SortedEntries m k : wf m -> newest k (SortedEntries m) = entries m !! k.
Proof.
  intros Hw. pose proof (SortedEntries_sorted m Hw) as Hs.
  destruct (entries m !! k) as [r|] eqn:E.
  - apply newest_sorted; [done|]. pose proof (wf_key m Hw k r E) as <-.
    split; [|done]. by apply elem_of_SortedEntries.
  - apply newest_from_None. split; [done|]. intros r Hr%elem_of_SortedEntries <-; [|done].
    congruence.
Qed.

(** The table after a list of SetRaw calls holds, for each key, the newest of
    the records. *)
Lemma SetRaw_all_lookup m l k :
  entries (foldl SetRaw m l) !! k = newest_from (entries m !! k) k l.
Proof.
  revert m. induction l as [|r l IH]; intros m; simpl; [done|].
  by rewrite IH, entries_SetRaw, keep_newest_lookup.
Qed.

Lemma wf_SetRaw_all m l :
  wf m -> Forall (fun r => 0 <= SeqNum r /\ SeqNum r + 1 < 2 ^ 64) l -> wf (foldl SetRaw m l).
Proof.
  intros Hw HF. revert m Hw. induction HF as [|r l [H1 H2] _ IH]; intros m Hw; [done|]. by apply IH, wf_SetRaw.
Qed.

(** The entries after writing l are records of l and old entries. *)
Lemma SortedEntries_SetRaw_all m l :
  wf m -> wf (foldl SetRaw m l) -> SortedEntries (foldl SetRaw m l) ⊆+ l ++ SortedEntries m.
Proof.
  intros Hw Hw'. apply NoDup_submseteq.
  - apply (NoDup_fmap_1 Key), key_sorted_NoDup. by apply SortedEntries_sorted.
  - intros r Hr. apply elem_of_SortedEntries in Hr; [|done]. rewrite SetRaw_all_lookup in Hr.
    apply newest_from_Some in Hr as [[Ho|[Hl _]] _]; apply elem_of_app; [right|by left].
    by apply elem_of_SortedEntries.
Qed.

Lemma nextSeq_SetRaw_all m l :
  0 <= nextSeq m -> Forall (fun r => 0 <= SeqNum r /\ SeqNum r + 1 < 2 ^ 64) l ->
  nextSeq m <= nextSeq (foldl SetRaw m l) /\ Forall (fun r => SeqNum r < nextSeq (foldl SetRaw m l)) l /\
  forall n, nextSeq m <= n -> Forall (fun r => SeqNum r < n) l -> nextSeq (foldl SetRaw m l) <= n.
Proof.
  intros Hm HF. revert m Hm. induction HF as [|r l [H1 H2] _ IH]; intros m Hm.
  { simpl. split_and!; [lia|constructor|done]. }
  cbn [foldl]. pose proof (nextSeq_SetRaw m r H1 H2 Hm) as E. destruct (IH (SetRaw m r) ltac:(lia)) as (Ha & Hb & Hc).
  split_and!; [lia|constructor; [lia|done]|]. intros n Hn Hl. inv Hl. apply Hc; [lia|done].
Qed.

Lemma scan_until_filter to l :
  key_sorted Key l -> scan_until to l = filter (fun r => key_le (Key r) to) l.
Proof.
  unfold key_sorted. induction 1 as [|r l Hs IH HF]; simpl; [done|].
  rewrite filter_cons. destruct (key_ltb to (Key r)) eqn:E; key_bools.
  - rewrite decide_False by (intros ?; key_order). symmetry.
    apply filter_none. intros r' Hr'.
    rewrite Forall_forall in HF. specialize (HF r' Hr'). intros ?. key_order.
  - by rewrite decide_True, IH.
Qed.

(** Dropping up to the binary search for [from] keeps exactly the keys at or
    above it. *)
Lemma drop_search_filter from l :
  key_sorted Key l ->
  drop (sort_Search (length l) (fun i =>
    match l !! i with Some r => key_leb from (Key r) | None => false end)) l
  = filter (fun r => key_le from (Key r)) l.
Proof.
  intros Hs. set (f := fun i => _).
  assert (forall i j x y, (i < j)%nat -> l !! i = Some x -> l !! j = Some y ->
    key_lt (Key x) (Key y)) as Hlt.
  { intros i j x y Hij Hx Hy. apply lookup_lt_Some in Hx as Hxl.
    rewrite <- (take_drop j l) in Hs. apply key_sorted_app in Hs as (_ & _ & H).
    apply H.
    - apply list_elem_of_lookup. exists i. rewrite lookup_take_lt by done. done.
    - apply list_elem_of_lookup. exists 0%nat. by rewrite lookup_drop, Nat.add_0_r. }
  destruct (sort_Search_spec (length l) f) as (H1 & H2 & H3).
  { intros a b Hab Hb Ha. destruct (decide (a = b)) as [->|]; [done|]. unfold f in *.
    destruct (l !! a) as [x|] eqn:Ex; [|done].
    destruct (l !! b) as [y|] eqn:Ey; [|by apply lookup_ge_None in Ey; lia].
    specialize (Hlt a b x y ltac:(lia) Ex Ey). key_order. }
  set (n := sort_Search (length l) f) in *.
  rewrite <- (take_drop n l) at 2. rewrite filter_app.
  assert (filter (fun r => key_le from (Key r)) (take n l) = []) as ->.
  { apply filter_none. intros r (i & Hi)%list_elem_of_lookup.
    apply lookup_take_Some in Hi as [Hi Hin]. specialize (H2 i Hin). unfold f in H2.
    rewrite Hi in H2. intros ?. key_order. }
  simpl. symmetry. apply filter_all. intros r (i & Hi)%list_elem_of_lookup.
  rewrite lookup_drop in Hi. assert (n + i < length l)%nat by (by apply lookup_lt_Some in Hi).
  specialize (H3 (n + i)%nat ltac:(lia)). unfold f in H3. rewrite Hi in H3. key_order.
Qed.

Lemma ScanRange_filter m from to :
  wf m ->
  ScanRange m from to = filter (fun r => key_le (Key r) to) (filter (fun r => key_le from (Key r)) (SortedEntries m)).
Proof.
  intros Hw. pose proof (SortedEntries_sorted m Hw) as Hs. unfold ScanRange. cbv zeta.
  rewrite drop_search_filter by done. apply scan_until_filter. by apply key_sorted_filter.
Qed.

(** A range scan of the memtable, which binary-searches the start and stops
    at the end of the range, returns exactly the stored records with a key in the
    closed range, sorted by key, tombstones included. *)
Theorem ScanRange_exact m from to :
  wf m ->
  key_sorted Key (ScanRange m from to) /\
  forall r, r ∈ ScanRange m from to <->
    GetRecord m (Key r) = Some r /\ key_le from (Key r) /\ key_le (Key r) to.
Proof.
  intros Hw. rewrite ScanRange_filter by done. split.
  - by apply key_sorted_filter, key_sorted_filter, SortedEntries_sorted.
  - intros r. rewrite !list_elem_of_filter, elem_of_SortedEntries by done. unfold GetRecord. tauto.
Qed.

End MemTable.
