(* ===== verification/Bloom.v ===== *)
(** * internal/bloom: the Bloom filter

    [BloomFilter], [New], [Add], [MayContain], [Encode], [Decode] and
    [bloomHashes] of bloom.go. The two numbers [New] computes in float64 from the
    expected key count and the false-positive rate, [math.Ceil(mTheory)] and
    [math.Round(k)], are the argument [sizing]; the clamping and rounding to
    words that follows is modelled. *)

From S2P Require Import Prelude GoStd Fs.

Module Bloom.

Record BloomFilter : Type := mkBloom { bits : list Z; numBits : Z; numHash : Z }.

(** [sizing n] is [(math.Ceil(mTheory), math.Round((mTheory/n)*math.Ln2))]. *)
Definition New (sizing : Z -> Z * Z) (expectedKeys : Z) : BloomFilter :=
  let n := if expectedKeys <=? 0 then 1 else expectedKeys in
  let '(mTheory, k0) := sizing n in
  let k1 := if k0 <? 1 then 1 else k0 in
  let k := if 30 <? k1 then 30 else k1 in
  let m := u64 (u64 (u64 mTheory + 63) / 64 * 64) in
  mkBloom (replicate (Z.to_nat (m / 64)) 0) m k.

Definition bloomHashes (key : bytes) : Z * Z :=
  let h1 := fnv64a key in
  (h1, Z.lor (Z.lor (u64 (Z.shiftl h1 17)) (Z.shiftr h1 47)) 1).

(** The positions the loops of Add and MayContain visit, i = 0 .. numHash-1. *)
Definition positions (bf : BloomFilter) (key : bytes) : list Z :=
  let '(h1, h2) := bloomHashes key in
  (fun i => u64 (h1 + u64 (Z.of_nat i * h2)) mod numBits bf) <$> seq 0 (Z.to_nat (numHash bf)).

Definition set_bit (ws : list Z) (pos : Z) : list Z :=
  alter (fun w => Z.lor w (Z.shiftl 1 (pos mod 64))) (Z.to_nat (pos / 64)) ws.

Definition test_bit (ws : list Z) (pos : Z) : bool :=
  negb (Z.land (default 0 (ws !! Z.to_nat (pos / 64))) (Z.shiftl 1 (pos mod 64)) =? 0).

Definition Add (bf : BloomFilter) (key : bytes) : BloomFilter :=
  mkBloom (foldl set_bit (bits bf) (positions bf key)) (numBits bf) (numHash bf).

Definition MayContain (bf : BloomFilter) (key : bytes) : bool :=
  forallb (test_bit (bits bf)) (positions bf key).

Definition Encode (bf : BloomFilter) : bytes :=
  PutUint64 (numBits bf) ++ PutUint64 (numHash bf) ++ concat (PutUint64 <$> bits bf).

Definition Decode (data : bytes) : res BloomFilter :=
  if (length data <? 16)%nat then Err "bloom: too short to decode" else
  let numBits := get_be (slice 0 8 data) in
  let numHash := get_be (slice 8 16 data) in
  if (numBits =? 0) || negb (numBits mod 64 =? 0) then Err "bloom: invalid numBits" else
  let numWords := numBits / 64 in
  if Z.of_nat (length data) - 16 <? u64 (numWords * 8) then Err "bloom: data too short" else
  Ok (mkBloom ((fun i => get_be (slice (16 + i * 8) (16 + i * 8 + 8) data))
                 <$> seq 0 (Z.to_nat numWords)) numBits numHash).

(** ** Well-formed filters *)

Record wf (bf : BloomFilter) : Prop := mkWf {
  wf_pos : 0 < numBits bf < 2 ^ 64;
  wf_mult : numBits bf mod 64 = 0;
  wf_len : length (bits bf) = Z.to_nat (numBits bf / 64);
  wf_hash : 0 <= numHash bf < 2 ^ 64;
  wf_words : Forall (fun w => 0 <= w < 2 ^ 64) (bits bf)
}.

Lemma bloom_wf_New sizing n :
  (0 < (sizing (if n <=? 0 then 1 else n)).1 < 2 ^ 63) -> wf (New sizing n).
Proof.
  unfold New. destruct (sizing _) as [m k]; simpl. intros Hm.
  rewrite (u64_small m), (u64_small (m + 63)) by lia.
  pose proof (Z.div_mod (m + 63) 64 ltac:(lia)). pose proof (Z.mod_pos_bound (m + 63) 64 ltac:(lia)).
  rewrite (u64_small ((m + 63) / 64 * 64)) by lia.
  split; simpl.
  - lia.
  - apply Z.mod_mul. lia.
  - by rewrite length_replicate.
  - destruct (Z.ltb_spec k 1); destruct (Z.ltb_spec 30 (if k <? 1 then 1 else k));
      destruct (Z.ltb_spec 30 1); destruct (Z.ltb_spec 30 k); lia.
  - apply Forall_replicate. lia.
Qed.

Lemma positions_range bf key pos : wf bf -> pos ∈ positions bf key -> 0 <= pos < numBits bf.
Proof.
  intros Hw. unfold positions. destruct (bloomHashes key) as [h1 h2].
  intros (i & -> & _)%list_elem_of_fmap. apply Z.mod_pos_bound. apply Hw.
Qed.

Lemma word_index bf pos :
  wf bf -> 0 <= pos < numBits bf -> (Z.to_nat (pos / 64) < length (bits bf))%nat.
Proof.
  intros Hw Hp. rewrite (wf_len bf Hw). apply Z2Nat.inj_lt; [apply Z.div_pos; lia..|].
  apply Z.div_lt_upper_bound; [lia|].
  pose proof (Z.div_mod (numBits bf) 64 ltac:(lia)). rewrite (wf_mult bf Hw) in *. lia.
Qed.

Lemma length_set_bit ws pos : length (set_bit ws pos) = length ws.
Proof. apply length_alter. Qed.

Lemma length_set_bits ps ws : length (foldl set_bit ws ps) = length ws.
Proof. revert ws. induction ps; intros ws; simpl; [done|]. by rewrite IHps, length_set_bit. Qed.

Lemma land_bit w n : 0 <= n -> (Z.land w (Z.shiftl 1 n) =? 0) = negb (Z.testbit w n).
Proof.
  intros Hn. rewrite Z.shiftl_1_l. destruct (Z.testbit w n) eqn:E; simpl.
  - apply Z.eqb_neq. intros H. apply (f_equal (fun z => Z.testbit z n)) in H.
    by rewrite Z.land_spec, E, Z.pow2_bits_true, Z.bits_0 in H.
  - apply Z.eqb_eq, Z.bits_inj'. intros i Hi. rewrite Z.land_spec, Z.bits_0.
    destruct (decide (i = n)) as [->|]; [by rewrite E|].
    rewrite Z.pow2_bits_false by lia. apply andb_false_r.
Qed.

Lemma test_bit_spec ws pos :
  0 <= pos -> test_bit ws pos = Z.testbit (default 0 (ws !! Z.to_nat (pos / 64))) (pos mod 64).
Proof.
  intros. unfold test_bit. rewrite land_bit by (apply Z.mod_pos_bound; lia). by rewrite negb_involutive.
Qed.

Lemma test_set_bit ws p q :
  0 <= p -> 0 <= q -> (Z.to_nat (p / 64) < length ws)%nat ->
  test_bit (set_bit ws p) q = (p =? q) || test_bit ws q.
Proof.
  intros Hp Hq Hl. rewrite !test_bit_spec by done. unfold set_bit.
  pose proof (Z.mod_pos_bound p 64 ltac:(lia)). pose proof (Z.mod_pos_bound q 64 ltac:(lia)).
  pose proof (Z.div_pos p 64 ltac:(lia) ltac:(lia)). pose proof (Z.div_pos q 64 ltac:(lia) ltac:(lia)).
  pose proof (Z.div_mod p 64 ltac:(lia)). pose proof (Z.div_mod q 64 ltac:(lia)).
  destruct (decide (p / 64 = q / 64)) as [E|E].
  - rewrite <- E. rewrite list_lookup_alter_eq.
    destruct (lookup_lt_is_Some_2 ws _ Hl) as [w Hw]. rewrite Hw. simpl.
    rewrite Z.lor_spec, Z.shiftl_1_l. rewrite orb_comm. f_equal.
    destruct (Z.eqb_spec p q) as [->|Hne]; [apply Z.pow2_bits_true; lia|].
    apply Z.pow2_bits_false. lia.
  - rewrite list_lookup_alter_ne by lia.
    destruct (Z.eqb_spec p q) as [->|]; [done|]. done.
Qed.

Lemma test_set_bits ps ws q :
  0 <= q -> (forall p, p ∈ ps -> 0 <= p /\ (Z.to_nat (p / 64) < length ws)%nat) ->
  test_bit (foldl set_bit ws ps) q = existsb (fun p => p =? q) ps || test_bit ws q.
Proof.
  intros Hq. revert ws. induction ps as [|p ps IH]; intros ws Hps; simpl; [done|].
  destruct (Hps p) as [Hp Hl]; [left|].
  rewrite IH.
  - rewrite test_set_bit by done. rewrite !orb_assoc. f_equal. apply orb_comm.
  - intros p' Hp'. rewrite length_set_bit. apply Hps. by right.
Qed.

Lemma set_bit_words ws pos :
  0 <= pos -> Forall (fun w => 0 <= w < 2 ^ 64) ws -> Forall (fun w => 0 <= w < 2 ^ 64) (set_bit ws pos).
Proof.
  intros Hp Hw. unfold set_bit. apply Forall_alter; [done|]. intros w _ Hr.
  pose proof (Z.mod_pos_bound pos 64 ltac:(lia)).
  assert (0 < 2 ^ (pos mod 64) < 2 ^ 64)
    by (split; [apply Z.pow_pos_nonneg; lia | apply Z.pow_lt_mono_r; lia]).
  rewrite Z.shiftl_1_l. split; [apply Z.lor_nonneg; lia|].
  assert (0 < Z.lor w (2 ^ (pos mod 64))).
  { assert (0 <= Z.lor w (2 ^ (pos mod 64))) by (apply Z.lor_nonneg; lia).
    destruct (decide (Z.lor w (2 ^ (pos mod 64)) = 0)) as [E|]; [|lia].
    apply Z.lor_eq_0_iff in E. lia. }
  apply Z.log2_lt_pow2; [done|]. rewrite Z.log2_lor by lia.
  apply Z.max_lub_lt; [|apply Z.log2_lt_pow2; lia].
  destruct (decide (w = 0)) as [->|]; [simpl; lia|]. apply Z.log2_lt_pow2; lia.
Qed.

Lemma bloom_wf_Add bf key : wf bf -> wf (Add bf key).
Proof.
  intros Hw.
  assert (forall p, p ∈ positions bf key -> 0 <= p) as Hp
    by (intros p Hp; apply positions_range in Hp; [lia|done]).
  destruct Hw as [H1 H2 H3 H4 H5]. split; simpl; try done.
  - by rewrite length_set_bits.
  - revert Hp H5. clear. generalize (positions bf key) as ps, (bits bf) as ws.
    induction ps as [|p ps IH]; intros ws Hp Hw; simpl; [done|].
    apply IH; [intros; apply Hp; by right|]. apply set_bit_words; [apply Hp; left|done].
Qed.

Lemma bloom_wf_Adds keys bf : wf bf -> wf (foldl Add bf keys).
Proof. revert bf. induction keys; intros bf Hw; simpl; [done|]. by apply IHkeys, bloom_wf_Add. Qed.

(** ** No false negatives *)

Lemma MayContain_Add bf key : wf bf -> MayContain (Add bf key) key = true.
Proof.
  intros Hw. unfold MayContain. apply forallb_forall. intros q Hq%list_elem_of_In.
  change (positions (Add bf key) key) with (positions bf key) in Hq.
  pose proof (positions_range bf key q Hw Hq).
  unfold Add. simpl. rewrite test_set_bits.
  - apply orb_true_iff. left. apply existsb_exists. exists q. split; [by apply list_elem_of_In|lia].
  - lia.
  - intros p Hp%positions_range; [|done]. split; [lia|]. by apply word_index.
Qed.

Lemma MayContain_mono bf key key' :
  wf bf -> MayContain bf key = true -> MayContain (Add bf key') key = true.
Proof.
  intros Hw. unfold MayContain. rewrite !forallb_forall. intros H q Hq.
  change (positions (Add bf key') key) with (positions bf key) in Hq.
  specialize (H q Hq). apply list_elem_of_In in Hq. pose proof (positions_range bf key q Hw Hq).
  unfold Add. simpl. rewrite test_set_bits, H; [apply orb_true_r|lia|].
  intros p Hp%positions_range; [|done]. split; [lia|]. by apply word_index.
Qed.

Lemma MayContain_Adds bf keys key :
  wf bf -> key ∈ keys -> MayContain (foldl Add bf keys) key = true.
Proof.
  assert (forall ks bf', wf bf' -> MayContain bf' key = true -> MayContain (foldl Add bf' ks) key = true) as Hm.
  { induction ks as [|k ks IH]; intros bf' Hw H; simpl; [done|].
    apply IH; [by apply bloom_wf_Add|by apply MayContain_mono]. }
  revert bf. induction keys as [|k keys IH]; intros bf Hw; [by intros ?%not_elem_of_nil|].
  intros [->|Hin]%elem_of_cons; simpl; [|apply IH; [by apply bloom_wf_Add|done]].
  apply Hm; [by apply bloom_wf_Add|by apply MayContain_Add].
Qed.

(** ** Encoding *)

Lemma length_words ws : length (concat (PutUint64 <$> ws)) = (8 * length ws)%nat.
Proof. induction ws; [done|]. rewrite fmap_cons. cbn [concat]. rewrite length_app, IHws, length_PutUint64. simpl. lia. Qed.

Lemma length_Encode bf : length (Encode bf) = (16 + 8 * length (bits bf))%nat.
Proof. unfold Encode. rewrite !length_app, !length_PutUint64, length_words. lia. Qed.

Lemma decode_words ws pre post i :
  Forall (fun w => 0 <= w < 2 ^ 64) ws -> (i < length ws)%nat ->
  get_be (slice (length pre + i * 8) (length pre + i * 8 + 8)
            (pre ++ concat (PutUint64 <$> ws) ++ post)) = default 0 (ws !! i).
Proof.
  revert pre i. induction ws as [|w ws IH]; intros pre i Hw Hi; [simpl in Hi; lia|]. inv Hw. rewrite fmap_cons. cbn [concat].
  destruct i as [|i]; simpl.
  - rewrite <- (app_assoc (PutUint64 w)). rewrite slice_app_mid; [by apply get_put_u64|lia|].
    rewrite length_PutUint64. lia.
  - rewrite <- (IH (pre ++ PutUint64 w) i) by (try done; simpl in Hi; lia).
    rewrite length_app, length_PutUint64.
    do 2 f_equal; [lia..|]. by rewrite <- !app_assoc.
Qed.

Lemma Decode_Encode bf post : wf bf -> Decode (Encode bf ++ post) = Ok bf.
Proof.
  intros Hw. destruct Hw as [H1 H2 H3 H4 H5].
  pose proof (length_Encode bf) as Hl.
  pose proof (Z.div_mod (numBits bf) 64 ltac:(lia)) as Hd. rewrite H2 in Hd.
  unfold Decode. rewrite length_app.
  destruct (Nat.ltb_spec (length (Encode bf) + length post) 16); [lia|].
  assert (slice 0 8 (Encode bf ++ post) = PutUint64 (numBits bf)) as ->
    by (unfold Encode, slice; rewrite <- !app_assoc; by apply take_app_exact).
  assert (slice 8 16 (Encode bf ++ post) = PutUint64 (numHash bf)) as ->
    by (unfold Encode; rewrite <- !app_assoc; by apply slice_app_mid).
  rewrite !get_put_u64 by lia.
  destruct (Z.eqb_spec (numBits bf) 0); [lia|]. rewrite H2. simpl.
  rewrite u64_small by lia.
  destruct (Z.ltb_spec (Z.of_nat (length (Encode bf) + length post) - 16) (numBits bf / 64 * 8)); [lia|].
  f_equal. destruct bf as [ws nb nh]; simpl in *. f_equal.
  apply list_eq_same_length with (n := length ws); [done|by rewrite length_fmap, length_seq|].
  intros i x y Hi Hx Hy. rewrite list_lookup_fmap, lookup_seq_lt in Hx by lia. simpl in Hx.
  inv Hx. unfold Encode. cbn [bits numBits numHash].
  pose proof (decode_words ws (PutUint64 nb ++ PutUint64 nh) post i H5 ltac:(lia)) as D.
  rewrite length_app, !length_PutUint64, <- !app_assoc in D. rewrite <- !app_assoc.
  rewrite Hy in D. simpl in *. congruence.
Qed.

(** No false negatives: a filter sized by New answers true for every key
    added to it, also after it was encoded to bytes and decoded. *)
Theorem no_false_negatives sizing n keys k :
  wf (New sizing n) -> k ∈ keys ->
  MayContain (foldl Add (New sizing n) keys) k = true /\
  exists bf, Decode (Encode (foldl Add (New sizing n) keys)) = Ok bf /\ MayContain bf k = true.
Proof.
  intros Hw Hk. assert (MayContain (foldl Add (New sizing n) keys) k = true) by (by apply MayContain_Adds).
  split; [done|]. eexists. rewrite <- (app_nil_r (Encode _)), Decode_Encode by (by apply bloom_wf_Adds). done.
Qed.

Lemma no_false_negatives_witness :
  wf (New (fun n => (10 * n, 7)) 2) /\
  MayContain (foldl Add (New (fun n => (10 * n, 7)) 2) [str "x"; str "y"]) (str "y") = true.
Proof.
  assert (wf (New (fun n => (10 * n, 7)) 2)) as Hw by (apply bloom_wf_New; simpl; lia).
  split; [exact Hw|]. apply (no_false_negatives (fun n => (10 * n, 7)) 2 [str "x"; str "y"] (str "y") Hw).
  right; left.
Defined.

End Bloom.
