(* ===== verification/Wal.v ===== *)
(** * internal/wal: the write-ahead log

    Record encoding, [Open], [Append], [ReadAll], [Reset] and [Close] of wal.go
    on the bytes of the log file. The open file is its offset; [ReadAll] is the
    loop of the code over the bytes from the current position, with one unit of
    fuel per header read (a turn consumes at least a header, so the length of the
    file is enough). *)

From S2P Require Import Prelude GoStd Fs.

Module Wal.

Definition TypePut : Z := 1.
Definition TypeDelete : Z := 2.
Definition maxKeyLen : Z := Z.shiftl 16 10.
Definition maxValLen : Z := Z.shiftl 64 20.

Record WRec : Type := mkWRec { wType : Z; wSeqNum : Z; wKey : bytes; wValue : bytes }.

(** The buffer Append builds:
    type(1) | seq(8) | keyLen(4) | valLen(4) | key | value | crc32(4). *)
Definition encode_body (r : WRec) : bytes :=
  byte_of_Z (wType r) :: PutUint64 (wSeqNum r) ++ PutUint32 (Z.of_nat (length (wKey r))) ++
  PutUint32 (Z.of_nat (length (wValue r))) ++ wKey r ++ wValue r.

Definition encode (r : WRec) : bytes :=
  encode_body r ++ PutUint32 (ChecksumIEEE (encode_body r)).

(** The log file and, as the state of the open file, its offset. *)
Definition walName : bytes := str "wal".

Definition Open : M World nat := os_OpenCreate walName ;; mret 0%nat.

Definition Append (r : WRec) : M (nat * World) unit := f_Write walName (encode r).

(** One turn of the loop of ReadAll on the bytes left: stop, fail, skip or take a
    record. [Stop] and [Bad] leave the loop. *)
Inductive turn : Type :=
| Stop
| Bad
| Skip (size : nat)
| Take (r : WRec) (size : nat).

Definition read_turn (rest : bytes) : turn :=
  (* io.ReadFull(w.f, hdr[:]): EOF or ErrUnexpectedEOF *)
  if (length rest <? 17)%nat then Stop else
  let hdr := take 17 rest in
  let typ := Z_of_byte (default x00 (hdr !! 0%nat)) in
  let seq := get_be (slice 1 9 hdr) in
  let keyLen := get_be (slice 9 13 hdr) in
  let valLen := get_be (slice 13 17 hdr) in
  if (maxKeyLen <? keyLen) || (maxValLen <? valLen) then Stop else
  let bodyLen := Z.to_nat (keyLen + valLen + 4) in
  let left := drop 17 rest in
  (* io.ReadFull(w.f, body): EOF when no byte is left, ErrUnexpectedEOF when
     some but not enough are; only the second is handled as a truncated record *)
  if (length left =? 0)%nat then Bad else
  if (length left <? bodyLen)%nat then Stop else
  let body := take bodyLen left in
  let kv := Z.to_nat (keyLen + valLen) in
  let storedCRC := get_be (drop kv body) in
  let crcInput := hdr ++ take kv body in
  if negb (ChecksumIEEE crcInput =? storedCRC) then Skip (17 + bodyLen) else
  if negb (typ =? TypePut) && negb (typ =? TypeDelete) then Skip (17 + bodyLen) else
  Take (mkWRec typ seq (take (Z.to_nat keyLen) body) (slice (Z.to_nat keyLen) kv body)) (17 + bodyLen).

Fixpoint read_loop (fuel : nat) (rest : bytes) (pos validEnd : nat) (records : list WRec)
    : res (list WRec * nat) :=
  match fuel with
  | O => Ok (records, validEnd)
  | S fuel' =>
      match read_turn rest with
      | Stop => Ok (records, validEnd)
      | Bad => Err "wal read body"
      | Skip n => read_loop fuel' (drop n rest) (pos + n) validEnd records
      | Take r n => read_loop fuel' (drop n rest) (pos + n) (pos + n) (records ++ [r])
      end
  end.

(** The records in the bytes of a log file and the end of the last valid one. *)
Definition replay (content : bytes) : res (list WRec * nat) :=
  read_loop (S (length content)) content 0 0 [].

Definition ReadAll : M (nat * World) (list WRec) := fun s =>
  let run := zoom snd (fun w s => (s.1, w)) in
  (run f_Seek ;;
   content ← gets (fun s => default [] (files s.2 !! walName));
   rv ← of_res (replay content);
   run (f_Truncate walName rv.2) ;;
   run f_Seek ;;
   modify (fun s => (length (default [] (files s.2 !! walName)), s.2)) ;;
   mret rv.1) s.

Definition Reset : M (nat * World) unit :=
  let run := zoom snd (fun w s => (s.1, w)) in
  run (f_Truncate walName 0) ;; run f_Seek ;; modify (fun s => (0%nat, s.2)).

Definition Close : M (nat * World) unit :=
  let run := zoom snd (fun w s => (s.1, w)) in run f_Sync ;; run f_Close.

(** ** Records the log can hold *)

Record valid (r : WRec) : Prop := mkValid {
  valid_type : wType r = TypePut \/ wType r = TypeDelete;
  valid_seq : 0 <= wSeqNum r < 2 ^ 64;
  valid_key : Z.of_nat (length (wKey r)) <= maxKeyLen;
  valid_val : Z.of_nat (length (wValue r)) <= maxValLen
}.

Definition validb (r : WRec) : bool :=
  ((wType r =? TypePut) || (wType r =? TypeDelete)) && (0 <=? wSeqNum r) && (wSeqNum r <? 2 ^ 64) &&
  (Z.of_nat (length (wKey r)) <=? maxKeyLen) && (Z.of_nat (length (wValue r)) <=? maxValLen).

Lemma validb_valid r : validb r = true -> valid r.
Proof.
  unfold validb. intros H. bool_hyps. split; [|lia..].
  apply orb_true_iff in H. destruct H; bool_hyps; auto.
Qed.

Lemma forallb_valid l : forallb validb l = true -> Forall valid l.
Proof.
  intros H. apply List.Forall_forall. rewrite forallb_forall in H. intros r Hr. by apply validb_valid, H.
Qed.

Definition encode_all (l : list WRec) : bytes := concat (encode <$> l).

Definition header (r : WRec) : bytes :=
  byte_of_Z (wType r) :: PutUint64 (wSeqNum r) ++ PutUint32 (Z.of_nat (length (wKey r))) ++
  PutUint32 (Z.of_nat (length (wValue r))).

Lemma length_header r : length (header r) = 17%nat.
Proof. unfold header. simpl. by rewrite !length_app, length_PutUint64, !length_PutUint32. Qed.

Lemma encode_header r :
  encode r = header r ++ wKey r ++ wValue r ++ PutUint32 (ChecksumIEEE (header r ++ wKey r ++ wValue r)).
Proof. unfold encode, encode_body, header. simpl. by rewrite <- !app_assoc. Qed.

Lemma length_encode r : length (encode r) = (21 + length (wKey r) + length (wValue r))%nat.
Proof. rewrite encode_header, !length_app, length_header, length_PutUint32. lia. Qed.

(** The fields of a header are read back. *)
Lemma header_fields r :
  valid r ->
  let hdr := header r in
  Z_of_byte (default x00 (hdr !! 0%nat)) = wType r /\
  get_be (slice 1 9 hdr) = wSeqNum r /\
  get_be (slice 9 13 hdr) = Z.of_nat (length (wKey r)) /\
  get_be (slice 13 17 hdr) = Z.of_nat (length (wValue r)).
Proof.
  intros [Ht Hs Hk Hv]. change maxKeyLen with 16384 in Hk. change maxValLen with 67108864 in Hv.
  unfold header. cbv zeta. repeat split.
  - simpl. rewrite Z_of_byte_of_Z. destruct Ht as [->| ->]; reflexivity.
  - change (byte_of_Z (wType r) :: ?x) with ([byte_of_Z (wType r)] ++ x).
    rewrite slice_app_mid; [by apply get_put_u64|done|by rewrite length_PutUint64].
  - change (byte_of_Z (wType r) :: ?x) with ([byte_of_Z (wType r)] ++ x). rewrite app_assoc.
    rewrite slice_app_mid; [apply get_put_u32; lia| |]; rewrite ?length_app, ?length_PutUint64, ?length_PutUint32; done.
  - rewrite <- (app_nil_r (PutUint32 (Z.of_nat (length (wValue r))))).
    change (byte_of_Z (wType r) :: ?x) with ([byte_of_Z (wType r)] ++ x).
    rewrite (app_assoc (PutUint64 _)), (app_assoc [_]).
    rewrite slice_app_mid; [apply get_put_u32; lia| |]; rewrite ?length_app, ?length_PutUint64, ?length_PutUint32; done.
Qed.

(** A complete record at the front is taken. *)
Lemma read_turn_encode r rest : valid r -> read_turn (encode r ++ rest) = Take r (length (encode r)).
Proof.
  intros Hv. destruct (header_fields r Hv) as (Ft & Fs & Fk & Fv).
  unfold read_turn. rewrite length_app, length_encode.
  destruct (Nat.ltb_spec (21 + length (wKey r) + length (wValue r) + length rest) 17); [lia|].
  rewrite encode_header, <- !app_assoc.
  rewrite take_app_exact, drop_app_exact by (by rewrite length_header).
  rewrite Ft, Fs, Fk, Fv. destruct Hv as [Ht Hs Hk Hvl].
  destruct (Z.ltb_spec maxKeyLen (Z.of_nat (length (wKey r)))); [lia|].
  destruct (Z.ltb_spec maxValLen (Z.of_nat (length (wValue r)))); [lia|]. simpl orb. cbv iota.
  set (c := PutUint32 _). assert (length c = 4%nat) as Hc by apply length_PutUint32.
  replace (Z.to_nat (Z.of_nat (length (wKey r)) + Z.of_nat (length (wValue r)) + 4))
    with (length (wKey r ++ wValue r ++ c)) by (rewrite !length_app; lia).
  replace (Z.to_nat (Z.of_nat (length (wKey r)) + Z.of_nat (length (wValue r))))
    with (length (wKey r ++ wValue r)) by (rewrite !length_app; lia).
  rewrite Nat2Z.id.
  destruct (Nat.eqb_spec (length (wKey r ++ wValue r ++ c ++ rest)) 0) as [E|_];
    [rewrite !length_app in E; lia|].
  destruct (Nat.ltb_spec (length (wKey r ++ wValue r ++ c ++ rest)) (length (wKey r ++ wValue r ++ c)));
    [rewrite !length_app in *; lia|].
  replace (wKey r ++ wValue r ++ c ++ rest) with ((wKey r ++ wValue r ++ c) ++ rest) by (by rewrite <- !app_assoc).
  rewrite take_app_length.
  replace (wKey r ++ wValue r ++ c) with ((wKey r ++ wValue r) ++ c) by (by rewrite <- !app_assoc).
  rewrite drop_app_length, take_app_length.
  assert (get_be c = ChecksumIEEE (header r ++ wKey r ++ wValue r)) as -> by apply crc_roundtrip.
  rewrite Z.eqb_refl. simpl negb. cbv iota.
  assert (negb (wType r =? TypePut) && negb (wType r =? TypeDelete) = false) as ->.
  { destruct Ht as [->| ->]; reflexivity. }
  f_equal; [|rewrite !length_app; lia].
  destruct r as [t s k v]; simpl. f_equal.
  - rewrite <- app_assoc. by rewrite take_app_length.
  - rewrite <- app_assoc. apply slice_app_mid; [done|by rewrite length_app].
Qed.

(** A record cut short at the end of the file stops the loop, unless exactly its
    header was written. *)
Lemma read_turn_torn r k :
  valid r -> (k < length (encode r))%nat -> k <> 17%nat -> read_turn (take k (encode r)) = Stop.
Proof.
  intros Hv Hk Hne. destruct (header_fields r Hv) as (Ft & Fs & Fk & Fv).
  assert (length (take k (encode r)) = k) as Hl by (rewrite length_take; lia).
  unfold read_turn. rewrite Hl.
  destruct (Nat.ltb_spec k 17); [done|].
  assert (take 17 (take k (encode r)) = header r) as ->.
  { rewrite take_take, Nat.min_l by lia. rewrite encode_header.
    apply take_app_exact. by rewrite length_header. }
  rewrite Ft, Fs, Fk, Fv. destruct ((maxKeyLen <? _) || (maxValLen <? _)); [done|].
  rewrite length_drop, Hl. rewrite length_encode in Hk.
  destruct (Nat.eqb_spec (k - 17) 0); [lia|].
  destruct (Nat.ltb_spec (k - 17) (Z.to_nat (Z.of_nat (length (wKey r)) + Z.of_nat (length (wValue r)) + 4)));
    [done|lia].
Qed.

(** With exactly the header written, the read of the body reports EOF and the
    replay fails. *)
Lemma read_turn_header r : valid r -> read_turn (header r) = Bad.
Proof.
  intros Hv. destruct (header_fields r Hv) as (Ft & Fs & Fk & Fv).
  unfold read_turn. rewrite length_header. simpl Nat.ltb. cbv iota.
  rewrite take_ge by (by rewrite length_header). rewrite Ft, Fs, Fk, Fv. destruct Hv as [_ _ Hk Hvl].
  destruct (Z.ltb_spec maxKeyLen (Z.of_nat (length (wKey r)))); [lia|].
  destruct (Z.ltb_spec maxValLen (Z.of_nat (length (wValue r)))); [lia|]. simpl orb. cbv iota.
  by rewrite drop_ge by (by rewrite length_header).
Qed.

Lemma read_loop_step fuel r rest pos ve recs :
  valid r ->
  read_loop (S fuel) (encode r ++ rest) pos ve recs
  = read_loop fuel rest (pos + length (encode r)) (pos + length (encode r)) (recs ++ [r]).
Proof.
  intros Hv. cbn [read_loop]. rewrite read_turn_encode by done. by rewrite drop_app_length.
Qed.

(** The loop walks over the records of a log and goes on with what follows. *)
Lemma read_loop_all fuel l rest pos ve recs :
  Forall valid l -> (length l <= fuel)%nat ->
  read_loop fuel (encode_all l ++ rest) pos ve recs
  = read_loop (fuel - length l) rest (pos + length (encode_all l))
      (if l then ve else pos + length (encode_all l))%nat (recs ++ l).
Proof.
  revert fuel pos ve recs. induction l as [|r l IH]; intros fuel pos ve recs Hv Hf.
  { simpl. by rewrite Nat.sub_0_r, Nat.add_0_r, app_nil_r. }
  inv Hv. destruct fuel as [|fuel]; [simpl in Hf; lia|].
  unfold encode_all. rewrite fmap_cons. cbn [concat]. rewrite <- app_assoc.
  rewrite read_loop_step by done. fold (encode_all l). rewrite IH by (try done; simpl in Hf; lia).
  unfold encode_all. rewrite !length_app, <- !app_assoc. simpl. f_equal; [lia|].
  destruct l; simpl; lia.
Qed.

Lemma length_encode_all_ge l : (length l <= length (encode_all l))%nat.
Proof.
  induction l as [|r l IH]; [done|]. unfold encode_all in *. rewrite fmap_cons. cbn [concat].
  rewrite length_app, length_encode. simpl. lia.
Qed.

(** Replaying a log of records followed by bytes on which the loop stops. *)
Lemma replay_then l tail :
  Forall valid l -> read_turn tail = Stop ->
  replay (encode_all l ++ tail) = Ok (l, length (encode_all l)).
Proof.
  intros Hv Ht. unfold replay. pose proof (length_encode_all_ge l).
  rewrite read_loop_all by (try done; rewrite length_app; lia). rewrite app_nil_l, Nat.add_0_l.
  destruct (S (length (encode_all l ++ tail)) - length l)%nat as [|n] eqn:E;
    [rewrite length_app in E; lia|].
  cbn [read_loop]. rewrite Ht. by destruct l.
Qed.

(** A complete record whose stored checksum does not match is skipped. *)
Lemma read_turn_bad_crc r c rest :
  valid r -> length c = 4%nat -> get_be c <> ChecksumIEEE (header r ++ wKey r ++ wValue r) ->
  read_turn ((header r ++ wKey r ++ wValue r ++ c) ++ rest)
  = Skip (length (header r ++ wKey r ++ wValue r ++ c)).
Proof.
  intros Hv Hc Hne. destruct (header_fields r Hv) as (Ft & Fs & Fk & Fv).
  unfold read_turn. rewrite !length_app, length_header, Hc.
  match goal with |- context [(?a <? 17)%nat] => destruct (Nat.ltb_spec a 17); [lia|] end.
  rewrite <- !app_assoc, take_app_exact, drop_app_exact by (by rewrite length_header).
  rewrite Ft, Fs, Fk, Fv. destruct Hv as [Ht Hs Hk Hvl].
  destruct (Z.ltb_spec maxKeyLen (Z.of_nat (length (wKey r)))); [lia|].
  destruct (Z.ltb_spec maxValLen (Z.of_nat (length (wValue r)))); [lia|]. simpl orb. cbv iota.
  replace (Z.to_nat (Z.of_nat (length (wKey r)) + Z.of_nat (length (wValue r)) + 4))
    with (length (wKey r ++ wValue r ++ c)) by (rewrite !length_app; lia).
  replace (Z.to_nat (Z.of_nat (length (wKey r)) + Z.of_nat (length (wValue r))))
    with (length (wKey r ++ wValue r)) by (rewrite !length_app; lia).
  destruct (Nat.eqb_spec (length (wKey r ++ wValue r ++ c ++ rest)) 0) as [E|_];
    [rewrite !length_app in E; lia|].
  destruct (Nat.ltb_spec (length (wKey r ++ wValue r ++ c ++ rest)) (length (wKey r ++ wValue r ++ c)));
    [rewrite !length_app in *; lia|].
  replace (wKey r ++ wValue r ++ c ++ rest) with (((wKey r ++ wValue r) ++ c) ++ rest) by (by rewrite <- !app_assoc).
  replace (wKey r ++ wValue r ++ c) with ((wKey r ++ wValue r) ++ c) by (by rewrite <- !app_assoc).
  rewrite take_app_length, drop_app_length, take_app_length.
  destruct (Z.eqb_spec (ChecksumIEEE (header r ++ wKey r ++ wValue r)) (get_be c)); [congruence|].
  simpl negb. cbv iota. f_equal. rewrite !length_app. lia.
Qed.

(** ** Properties *)

(** When a crash leaves exactly the 17-byte header of the last record, the
    body read meets end of file and the whole replay fails: the torn tail is not
    dropped, no record is recovered. *)
Theorem replay_header_only_fails l r :
  Forall valid l -> valid r ->
  replay (encode_all l ++ take 17 (encode r)) = Err "wal read body".
Proof.
  intros Hl Hr. rewrite encode_header, take_app_exact by (by rewrite length_header).
  unfold replay. pose proof (length_encode_all_ge l).
  rewrite read_loop_all by (try done; rewrite length_app; lia).
  destruct (S (length (encode_all l ++ header r)) - length l)%nat as [|n] eqn:E;
    [rewrite length_app in E; lia|].
  cbn [read_loop]. by rewrite read_turn_header.
Qed.

(** C36: A log of records Append wrote, followed by a last record of which only the
    first k bytes reached the file (k < its length), replays to exactly the complete
    records, and the end reported for the truncation is the end of the last complete
    one. With k = 0 this is the plain round trip. Cut at k = 17, right behind the
    header of the last record, the replay fails as a whole. The records are of put
    or delete type with a 64-bit sequence number, a key of at most 16 KiB and a value
    of at most 64 MiB, the limits replay checks and Append does not. *)
Theorem replay_torn l r k :
  Forall valid l -> valid r -> (k < length (encode r))%nat ->
  replay (encode_all l ++ take k (encode r)) =
    if (k =? 17)%nat then Err "wal read body" else Ok (l, length (encode_all l)).
Proof.
  intros Hl Hr Hk. destruct (Nat.eqb_spec k 17) as [->|Hne]; [by apply replay_header_only_fails|].
  apply replay_then; [done|]. by apply read_turn_torn.
Qed.

Lemma replay_torn_witness :
  let r1 := mkWRec TypePut 1 (str "k") (str "v") in
  let r2 := mkWRec TypeDelete 2 (str "k") [] in
  replay (encode_all [r1] ++ take 20 (encode r2)) = Ok ([r1], 23%nat).
Proof.
  cbv zeta. apply (replay_torn [mkWRec TypePut 1 (str "k") (str "v")] (mkWRec TypeDelete 2 (str "k") []) 20).
  - by apply forallb_valid.
  - by apply validb_valid.
  - apply Nat.ltb_lt. vm_compute. reflexivity.
Defined.

Lemma replay_header_only_fails_witness :
  let r := mkWRec TypePut 1 (str "k") (str "v") in
  replay (encode_all [] ++ take 17 (encode r)) = Err "wal read body".
Proof.
  apply (replay_header_only_fails [] (mkWRec TypePut 1 (str "k") (str "v"))); [constructor|].
  by apply validb_valid.
Defined.

(** Append accepts a key above 16 KiB, but the replay takes its length field
    for corruption: that record and every later one are lost, and the reported
    end makes ReadAll cut them off the file. *)
Theorem replay_oversized_key_loses_rest l r rest :
  Forall valid l -> maxKeyLen < Z.of_nat (length (wKey r)) < 2 ^ 32 ->
  replay (encode_all l ++ encode r ++ rest) = Ok (l, length (encode_all l)).
Proof.
  intros Hl Hk. apply replay_then; [done|]. unfold read_turn.
  rewrite length_app, length_encode.
  destruct (Nat.ltb_spec (21 + length (wKey r) + length (wValue r) + length rest) 17); [done|].
  rewrite encode_header, <- !app_assoc, take_app_exact by (by rewrite length_header).
  assert (get_be (slice 9 13 (header r)) = Z.of_nat (length (wKey r))) as ->.
  { unfold header. change (byte_of_Z (wType r) :: ?x) with ([byte_of_Z (wType r)] ++ x).
    rewrite app_assoc, slice_app_mid; [apply get_put_u32; unfold maxKeyLen in Hk; simpl in Hk; lia| |];
      rewrite ?length_app, ?length_PutUint64, ?length_PutUint32; done. }
  destruct (Z.ltb_spec maxKeyLen (Z.of_nat (length (wKey r)))); [done|lia].
Qed.

Lemma replay_oversized_key_loses_rest_witness :
  let big := mkWRec TypePut 1 (replicate (Z.to_nat 16385) x61) [] in
  let next := mkWRec TypePut 2 (str "k") (str "v") in
  replay (encode_all [] ++ encode big ++ encode next) = Ok ([], 0%nat).
Proof.
  cbv zeta.
  apply (replay_oversized_key_loses_rest [] (mkWRec TypePut 1 (replicate (Z.to_nat 16385) x61) [])
           (encode (mkWRec TypePut 2 (str "k") (str "v")))); [constructor|].
  cbn [wKey]. rewrite length_replicate, Z2Nat.id by lia. change maxKeyLen with 16384. lia.
Defined.

(** A complete record whose checksum field is wrong is skipped: the records
    before and after it are all replayed. *)
Theorem replay_skips_bad_checksum l1 r c l2 :
  Forall valid l1 -> valid r -> Forall valid l2 -> length c = 4%nat ->
  get_be c <> ChecksumIEEE (header r ++ wKey r ++ wValue r) ->
  res_map fst (replay (encode_all l1 ++ (header r ++ wKey r ++ wValue r ++ c) ++ encode_all l2))
  = Ok (l1 ++ l2).
Proof.
  intros H1 Hr H2 Hc Hne. unfold replay.
  set (bad := header r ++ wKey r ++ wValue r ++ c).
  pose proof (length_encode_all_ge l1). pose proof (length_encode_all_ge l2).
  assert (17 <= length bad)%nat by (unfold bad; rewrite !length_app, length_header; lia).
  rewrite read_loop_all by (try done; rewrite length_app; lia). rewrite app_nil_l.
  destruct (S (length (encode_all l1 ++ bad ++ encode_all l2)) - length l1)%nat as [|n] eqn:E;
    [rewrite !length_app in E; lia|].
  cbn [read_loop]. unfold bad at 1. rewrite read_turn_bad_crc by done. fold bad.
  rewrite drop_app_length. rewrite <- (app_nil_r (encode_all l2)) at 1.
  rewrite !length_app in E.
  rewrite read_loop_all by (try done; lia).
  destruct (n - length l2)%nat; [done|]. done.
Qed.

End Wal.
