(* ===== verification/Sstable.v ===== *)
(** * internal/sstable: the table format, its writers and its reader

    format.go, writer.go, stream_writer.go and reader.go on bytes:
    - [Write] and the [StreamWriter] produce the file
      data | metadata | bloom filter | sparse index | footer;
    - [Open] decodes footer, metadata, filter and index; [Get], [Scan],
      [LoadAll] and [Iterator] read records on demand from the data section.
    An open reader keeps the content of its file: tables are written once under a
    fresh name and never modified while open. Reads are functions of that
    content; a read outside it is the error of ReadAt, a slice out of bounds is a
    panic. Loops over records carry fuel (one unit per record; a record takes at
    least its 17-byte header, so the file length is enough). *)

From S2P Require Import Prelude GoStd Fs Memtable Bloom.

(** What [bloom.New] computes in floating point for a key count, with what the
    writers rely on: a positive bit count, about ten bits per key. *)
Class BloomSizing := {
  sizing : Z -> Z * Z;
  sizing_bounds : forall n, 1 <= n < 2 ^ 53 -> 0 < (sizing n).1 <= 10 * n + 64
}.

Module Sstable.
Import Bloom.

Definition indexStep : nat := 16.
Definition footerSize : nat := 48.
Definition recordHeaderSize : nat := 17.

Record sstFooter : Type := mkFooter {
  ft_metaOffset : Z; ft_bloomOffset : Z; ft_bloomLen : Z;
  ft_indexOffset : Z; ft_indexLen : Z; ft_recordCount : Z }.

Record indexEntry : Type := mkIndex { ie_key : bytes; ie_offset : Z }.

(** ** Encoding *)

(** keyLen(4) | valLen(4) | seqNum(8) | type(1) | key | value *)
Definition encode_record (r : Rec) : bytes :=
  PutUint32 (Z.of_nat (length (Key r))) ++ PutUint32 (Z.of_nat (length (Value r))) ++
  PutUint64 (SeqNum r) ++ [byte_of_Z (RType r)] ++ Key r ++ Value r.

Definition record_size (r : Rec) : Z := Z.of_nat (recordHeaderSize + length (Key r) + length (Value r)).

(** writeMetaBlock *)
Definition encode_meta (minKey maxKey : bytes) : bytes :=
  PutUint32 (Z.of_nat (length minKey)) ++ minKey ++ PutUint32 (Z.of_nat (length maxKey)) ++ maxKey.

Definition encode_index_entry (e : indexEntry) : bytes :=
  PutUint32 (Z.of_nat (length (ie_key e))) ++ ie_key e ++ PutUint64 (ie_offset e).

Definition encode_footer (ft : sstFooter) : bytes :=
  PutUint64 (ft_metaOffset ft) ++ PutUint64 (ft_bloomOffset ft) ++ PutUint64 (ft_bloomLen ft) ++
  PutUint64 (ft_indexOffset ft) ++ PutUint64 (ft_indexLen ft) ++ PutUint64 (ft_recordCount ft).

(** The part both writers share after the data section: the buffers written and
    the footer, from the data size, key range, filter, index and record count. *)
Definition tail_chunks (dataOffset : Z) (minKey maxKey : bytes) (bf : BloomFilter)
    (index : list indexEntry) (count : Z) : list bytes :=
  let meta := encode_meta minKey maxKey in
  let bloomOffset := dataOffset + Z.of_nat (length meta) in
  let bloomData := Encode bf in
  let bloomLen := Z.of_nat (length bloomData) in
  let indexOffset := bloomOffset + bloomLen in
  let entries := encode_index_entry <$> index in
  let indexLen := Z.of_nat (length (concat entries)) in
  [meta; bloomData] ++ entries ++
  [encode_footer (mkFooter dataOffset bloomOffset bloomLen indexOffset indexLen count)].

(** ** Write *)

(** The loop over the records: i counts them, dataOffset is where the next one
    starts; returns the record buffers, the index entries and the end offset. *)
Fixpoint layout (i : nat) (dataOffset : Z) (records : list Rec)
    : list bytes * list indexEntry * Z :=
  match records with
  | [] => ([], [], dataOffset)
  | r :: rest =>
      let '(bufs, index, end_) := layout (S i) (dataOffset + record_size r) rest in
      (encode_record r :: bufs,
       (if (i mod indexStep =? 0)%nat then mkIndex (Key r) dataOffset :: index else index),
       end_)
  end.

Section writers.
Context `{BloomSizing}.

(** All buffers Write hands to [f.Write], in order. *)
Definition write_chunks (records : list Rec) : list bytes :=
  let minKey := default [] (Key <$> head records) in
  let maxKey := default [] (Key <$> last records) in
  let bf := foldl Add (New sizing (Z.of_nat (length records))) (Key <$> records) in
  let '(bufs, index, dataOffset) := layout 0 0 records in
  bufs ++ tail_chunks dataOffset minKey maxKey bf index (Z.of_nat (length records)).

Definition table_bytes (records : list Rec) : bytes := concat (write_chunks records).

(** Writes to the new file one after the other; the offset starts at 0. The
    deferred Close drops its error. *)
Definition write_all (name : bytes) (chunks : list bytes) : M World unit := fun w =>
  let '(r, (_, w')) := mfold (f_Write name) chunks (0%nat, w) in (r, w').

Definition Write (name : bytes) (records : list Rec) : M World unit :=
  match records with
  | [] => mret tt
  | _ :: _ =>
      os_Create name ;;
      e ← try_err (write_all name (write_chunks records) ;; f_Sync);
      ignore f_Close ;;
      match e with Some e => raise e | None => mret tt end
  end.

(** ** StreamWriter *)

Record StreamWriter : Type := mkStream {
  sw_path : bytes; sw_pos : nat; sw_expected : Z; sw_written : Z; sw_dataOffset : Z;
  sw_index : list indexEntry; sw_bloom : BloomFilter;
  sw_minKey : bytes; sw_maxKey : bytes; sw_lastKey : bytes; sw_closed : bool }.

Definition NewStreamWriter (path : bytes) (expected : Z) : M World StreamWriter :=
  if expected <=? 0 then raise "streaming sstable requires a positive record count" else
  if 2 ^ 63 - 1 <? expected then raise "streaming sstable record count exceeds platform limit" else
  os_Create path ;;
  mret (mkStream path 0 expected 0 0 [] (New sizing expected) [] [] [] false).

(** Run a write at the writer's file offset. *)
Definition sw_write (data : bytes) : M (StreamWriter * World) unit := fun s =>
  let '(w, fs) := s in
  let '(r, (pos, fs')) := f_Write (sw_path w) data (sw_pos w, fs) in
  (r, (mkStream (sw_path w) pos (sw_expected w) (sw_written w) (sw_dataOffset w) (sw_index w)
         (sw_bloom w) (sw_minKey w) (sw_maxKey w) (sw_lastKey w) (sw_closed w), fs')).

Definition sw_world {A} (m : M World A) : M (StreamWriter * World) A := zoom snd (fun w s => (s.1, w)) m.
Definition sw_set (f : StreamWriter -> StreamWriter) : M (StreamWriter * World) unit :=
  modify (fun s => (f s.1, s.2)).

Definition Add_ (record : Rec) : M (StreamWriter * World) unit :=
  w ← gets fst;
  if sw_closed w then raise "streaming sstable writer is closed" else
  if key_eqb (Key record) [] || ((0 <? sw_written w) && key_leb (Key record) (sw_lastKey w)) then
    raise "streaming sstable keys must be non-empty and strictly sorted" else
  if sw_expected w <=? sw_written w then raise "streaming sstable received more records" else
  if (2 ^ 32 - 1 <? Z.of_nat (length (Key record))) || (2 ^ 32 - 1 <? Z.of_nat (length (Value record))) then
    raise "sstable record field exceeds uint32 length" else
  (if sw_written w mod Z.of_nat indexStep =? 0 then
     sw_set (fun w => mkStream (sw_path w) (sw_pos w) (sw_expected w) (sw_written w) (sw_dataOffset w)
       (sw_index w ++ [mkIndex (Key record) (sw_dataOffset w)]) (sw_bloom w)
       (sw_minKey w) (sw_maxKey w) (sw_lastKey w) (sw_closed w))
   else mret tt) ;;
  sw_write (encode_record record) ;;
  sw_set (fun w => mkStream (sw_path w) (sw_pos w) (sw_expected w)
    (sw_written w + 1) (sw_dataOffset w + record_size record) (sw_index w)
    (Bloom.Add (sw_bloom w) (Key record))
    (if sw_written w =? 0 then Key record else sw_minKey w) (Key record) (Key record) (sw_closed w)).

Definition Finish : M (StreamWriter * World) unit :=
  w ← gets fst;
  if sw_closed w then raise "streaming sstable writer is closed" else
  if negb (sw_written w =? sw_expected w) then raise "streaming sstable received fewer records" else
  mfold sw_write (tail_chunks (sw_dataOffset w) (sw_minKey w) (sw_maxKey w) (sw_bloom w)
                    (sw_index w) (sw_written w)) ;;
  sw_world f_Sync ;;
  sw_set (fun w => mkStream (sw_path w) (sw_pos w) (sw_expected w) (sw_written w) (sw_dataOffset w)
    (sw_index w) (sw_bloom w) (sw_minKey w) (sw_maxKey w) (sw_lastKey w) true) ;;
  sw_world f_Close.

Definition Abort : M (StreamWriter * World) unit :=
  w ← gets fst;
  (if sw_closed w then mret tt else
     sw_set (fun w => mkStream (sw_path w) (sw_pos w) (sw_expected w) (sw_written w) (sw_dataOffset w)
       (sw_index w) (sw_bloom w) (sw_minKey w) (sw_maxKey w) (sw_lastKey w) true) ;;
     ignore (sw_world f_Close)) ;;
  ignore (sw_world (os_Remove (sw_path w))).

End writers.

(** ** Reader *)

Record Reader : Type := mkReader {
  r_name : bytes; r_content : bytes; r_bf : BloomFilter; r_index : list indexEntry;
  r_minKey : bytes; r_maxKey : bytes; r_recordCount : Z; r_metaOffset : Z; r_bloomSkips : Z }.

(** [f.ReadAt] of n bytes: a short read is an error. *)
Definition ReadAt (content : bytes) (off n : Z) : res bytes :=
  if off <? 0 then Err "negative offset" else
  if n <=? 0 then Ok [] else
  if Z.of_nat (length content) <? off + n then Err "EOF" else
  Ok (take (Z.to_nat n) (drop (Z.to_nat off) content)).

(** [make([]byte, n)] panics on a negative length. *)
Definition make (n : Z) : res unit := if n <? 0 then Panic else Ok tt.

(** [b[from:to]] and [binary.BigEndian.UintN(b[from:])] with their bounds checks. *)
Definition subslice (b : bytes) (from to : Z) : res bytes :=
  if (from <? 0) || (to <? from) || (Z.of_nat (length b) <? to) then Panic
  else Ok (take (Z.to_nat (to - from)) (drop (Z.to_nat from) b)).

Definition uint_at (n : Z) (b : bytes) (from : Z) : res Z :=
  x ← subslice b from (from + n); Ok (get_be x).

Definition readRecordAt (content : bytes) (offset : Z) : res (Rec * Z) :=
  hdr ← ReadAt content offset 17;
  let keyLen := get_be (slice 0 4 hdr) in
  let valLen := get_be (slice 4 8 hdr) in
  let seqNum := get_be (slice 8 16 hdr) in
  let recType := get_be (slice 16 17 hdr) in
  body ← ReadAt content (offset + 17) (keyLen + valLen);
  Ok (mkRec (take (Z.to_nat keyLen) body) (slice (Z.to_nat keyLen) (Z.to_nat (keyLen + valLen)) body)
        seqNum recType, 17 + keyLen + valLen).

Fixpoint decodeIndex_loop (fuel : nat) (buf : bytes) (pos : nat) (entries : list indexEntry)
    : res (list indexEntry) :=
  match fuel with
  | O => Ok entries
  | S fuel' =>
      if negb (pos <? length buf)%nat then Ok entries else
      if (length buf <? pos + 4)%nat then Err "truncated index entry" else
      let keyLen := Z.to_nat (get_be (slice pos (pos + 4) buf)) in
      if (length buf <? pos + 4 + keyLen + 8)%nat then Err "truncated index key" else
      let key := slice (pos + 4) (pos + 4 + keyLen) buf in
      let offset := s64 (get_be (slice (pos + 4 + keyLen) (pos + 4 + keyLen + 8) buf)) in
      decodeIndex_loop fuel' buf (pos + 4 + keyLen + 8) (entries ++ [mkIndex key offset])
  end.

Definition decodeIndex (buf : bytes) : res (list indexEntry) :=
  decodeIndex_loop (length buf) buf 0 [].

Definition decode_footer (buf : bytes) : sstFooter :=
  mkFooter (s64 (get_be (slice 0 8 buf))) (s64 (get_be (slice 8 16 buf))) (s64 (get_be (slice 16 24 buf)))
    (s64 (get_be (slice 24 32 buf))) (s64 (get_be (slice 32 40 buf))) (s64 (get_be (slice 40 48 buf))).

(** The key range in the metadata block. *)
Definition decode_meta (metaBuf : bytes) : res (bytes * bytes) :=
  minKeyLen ← uint_at 4 metaBuf 0;
  minKey ← subslice metaBuf 4 (4 + minKeyLen);
  maxKeyLen ← uint_at 4 metaBuf (4 + minKeyLen);
  maxKey ← subslice metaBuf (4 + minKeyLen + 4) (4 + minKeyLen + 4 + maxKeyLen);
  Ok (minKey, maxKey).

(** [Open] on the content of the file. *)
Definition open_content (name content : bytes) : res Reader :=
  let size := Z.of_nat (length content) in
  if size <? 48 then Err "sstable is too small to be valid" else
  footerBuf ← ReadAt content (size - 48) 48;
  let ft := decode_footer footerBuf in
  let metaLen := s64 (ft_bloomOffset ft - ft_metaOffset ft) in
  make metaLen ;;
  metaBuf ← ReadAt content (ft_metaOffset ft) metaLen;
  range ← decode_meta metaBuf;
  make (ft_bloomLen ft) ;;
  bloomBuf ← ReadAt content (ft_bloomOffset ft) (ft_bloomLen ft);
  bf ← Decode bloomBuf;
  index ← (if 0 <? ft_indexLen ft then
             indexBuf ← ReadAt content (ft_indexOffset ft) (ft_indexLen ft);
             decodeIndex indexBuf
           else Ok []);
  Ok (mkReader name content bf index range.1 range.2 (ft_recordCount ft) (ft_metaOffset ft) 0).

Definition Open (name : bytes) : M World Reader :=
  c ← os_Open name;
  match c with
  | None => raise "open sstable"
  | Some content => of_res (open_content name content)
  end.

(** Closing the descriptor; its error is dropped by every caller but DB.Close. *)
Definition Close (r : Reader) : M World unit := f_Close.

Definition Path (r : Reader) : bytes := r_name r.
Definition RecordCount (r : Reader) : Z := r_recordCount r.
Definition BloomSkips (r : Reader) : Z := r_bloomSkips r.

(** The start offset of a scan for [key]: the offset of the last index entry
    whose key is not above it. *)
Definition start_offset (index : list indexEntry) (key : bytes) : Z :=
  let i := sort_Search (length index) (fun i =>
    match index !! i with Some e => key_ltb key (ie_key e) | None => false end) in
  match i with
  | O => 0
  | S i' => match index !! i' with Some e => ie_offset e | None => 0 end
  end.

Fixpoint get_loop (fuel : nat) (content : bytes) (metaOffset : Z) (key : bytes) (pos : Z)
    (best : Rec) (found : bool) : res (Rec * bool) :=
  match fuel with
  | O => Ok (best, found)
  | S fuel' =>
      if pos <? metaOffset then
        rs ← readRecordAt content pos;
        let '(rec, size) := rs in
        let pos' := pos + size in
        if key_eqb (Key rec) key then
          if negb found || (SeqNum best <? SeqNum rec)
          then get_loop fuel' content metaOffset key pos' rec true
          else get_loop fuel' content metaOffset key pos' best found
        else if key_ltb key (Key rec) then Ok (best, found)
        else get_loop fuel' content metaOffset key pos' best found
      else Ok (best, found)
  end.

Definition count_skip (r : Reader) : Reader :=
  mkReader (r_name r) (r_content r) (r_bf r) (r_index r) (r_minKey r) (r_maxKey r)
    (r_recordCount r) (r_metaOffset r) (r_bloomSkips r + 1).

(** Get returns the reader too: a filter miss is counted. *)
Definition Get (r : Reader) (key : bytes) : Reader * res (Rec * bool) :=
  if negb (MayContain (r_bf r) key) then (count_skip r, Ok (zeroRec, false)) else
  if key_ltb key (r_minKey r) || key_ltb (r_maxKey r) key then (r, Ok (zeroRec, false)) else
  (r, get_loop (length (r_content r)) (r_content r) (r_metaOffset r) key
        (start_offset (r_index r) key) zeroRec false).

Fixpoint scan_loop (fuel : nat) (content : bytes) (metaOffset : Z) (from to : bytes) (pos : Z)
    (byKey : gmap bytes Rec) : res (gmap bytes Rec) :=
  match fuel with
  | O => Ok byKey
  | S fuel' =>
      if pos <? metaOffset then
        rs ← readRecordAt content pos;
        let '(rec, size) := rs in
        let pos' := pos + size in
        if key_ltb to (Key rec) then Ok byKey
        else if key_ltb (Key rec) from then scan_loop fuel' content metaOffset from to pos' byKey
        else scan_loop fuel' content metaOffset from to pos' (keep_newest byKey rec)
      else Ok byKey
  end.

Definition Scan (r : Reader) (from to : bytes) : res (list Rec) :=
  if key_ltb to (r_minKey r) || key_ltb (r_maxKey r) from then Ok [] else
  byKey ← scan_loop (length (r_content r)) (r_content r) (r_metaOffset r) from to
            (start_offset (r_index r) from) ∅;
  Ok (sort_by Key (snd <$> map_to_list byKey)).

Fixpoint load_loop (fuel : nat) (content : bytes) (metaOffset : Z) (pos : Z) (records : list Rec)
    : res (list Rec) :=
  match fuel with
  | O => Ok records
  | S fuel' =>
      if pos <? metaOffset then
        rs ← readRecordAt content pos;
        load_loop fuel' content metaOffset (pos + rs.2) (records ++ [rs.1])
      else Ok records
  end.

Definition LoadAll (r : Reader) : res (list Rec) :=
  load_loop (length (r_content r)) (r_content r) (r_metaOffset r) 0 [].

(** Iterator: its position; Next returns the record and the next position. *)
Definition Next (r : Reader) (pos : Z) : res (option (Rec * Z)) :=
  if r_metaOffset r <=? pos then Ok None else
  rs ← readRecordAt (r_content r) pos;
  Ok (Some (rs.1, pos + rs.2)).

(** ** Records and their bytes *)

Record rec_ok (r : Rec) : Prop := mkRecOk {
  ok_key : Z.of_nat (length (Key r)) < 2 ^ 32;
  ok_value : Z.of_nat (length (Value r)) < 2 ^ 32;
  ok_seq : 0 <= SeqNum r < 2 ^ 64;
  ok_type : 0 <= RType r < 256
}.

Definition data (l : list Rec) : bytes := concat (encode_record <$> l).

Definition record_header (r : Rec) : bytes :=
  PutUint32 (Z.of_nat (length (Key r))) ++ PutUint32 (Z.of_nat (length (Value r))) ++
  PutUint64 (SeqNum r) ++ [byte_of_Z (RType r)].

Lemma length_record_header r : length (record_header r) = 17%nat.
Proof. unfold record_header. by rewrite !length_app, !length_PutUint32, length_PutUint64. Qed.

Lemma encode_record_header r : encode_record r = record_header r ++ Key r ++ Value r.
Proof. unfold encode_record, record_header. by rewrite <- !app_assoc. Qed.

Lemma length_encode_record r : Z.of_nat (length (encode_record r)) = record_size r.
Proof.
  rewrite encode_record_header, !length_app, length_record_header. unfold record_size, recordHeaderSize. lia.
Qed.

Lemma data_cons r l : data (r :: l) = encode_record r ++ data l.
Proof. done. Qed.

Lemma data_app l1 l2 : data (l1 ++ l2) = data l1 ++ data l2.
Proof. unfold data. by rewrite fmap_app, concat_app. Qed.

Lemma length_data_ge l : (17 * length l <= length (data l))%nat.
Proof.
  induction l as [|r l IH]; [done|]. rewrite data_cons, length_app.
  rewrite encode_record_header, !length_app, length_record_header. simpl. lia.
Qed.

(** ** Reading a segment of a file *)

Lemma ReadAt_mid pre mid post off n :
  off = Z.of_nat (length pre) -> n = Z.of_nat (length mid) ->
  ReadAt (pre ++ mid ++ post) off n = Ok mid.
Proof.
  intros -> ->. unfold ReadAt. destruct (Z.ltb_spec (Z.of_nat (length pre)) 0); [lia|].
  destruct (Z.leb_spec (Z.of_nat (length mid)) 0).
  { destruct mid; [done|]. simpl in *. lia. }
  rewrite !length_app. destruct (Z.ltb_spec (Z.of_nat (length pre + (length mid + length post)))
    (Z.of_nat (length pre) + Z.of_nat (length mid))); [lia|].
  rewrite !Nat2Z.id, drop_app_length, take_app_length. done.
Qed.

Lemma readRecordAt_encode pre r post off :
  rec_ok r -> off = Z.of_nat (length pre) ->
  readRecordAt (pre ++ encode_record r ++ post) off = Ok (r, record_size r).
Proof.
  intros [Hk Hv Hs Ht] ->. unfold readRecordAt.
  rewrite encode_record_header, <- app_assoc.
  rewrite (ReadAt_mid pre (record_header r)) by (rewrite ?length_record_header; done).
  simpl mbind. unfold res_bind. cbv beta iota.
  assert (get_be (slice 0 4 (record_header r)) = Z.of_nat (length (Key r))) as ->.
  { unfold record_header. rewrite slice_app_0 by (by rewrite length_PutUint32). apply get_put_u32. lia. }
  assert (get_be (slice 4 8 (record_header r)) = Z.of_nat (length (Value r))) as ->.
  { unfold record_header. rewrite slice_app_mid by (rewrite ?length_PutUint32; done). apply get_put_u32. lia. }
  assert (get_be (slice 8 16 (record_header r)) = SeqNum r) as ->.
  { unfold record_header. rewrite app_assoc.
    rewrite slice_app_mid by (rewrite ?length_app, ?length_PutUint32, ?length_PutUint64; done).
    by apply get_put_u64. }
  assert (get_be (slice 16 17 (record_header r)) = RType r) as ->.
  { unfold record_header. rewrite !app_assoc.
    rewrite slice_app_last by (rewrite ?length_app, ?length_PutUint32, ?length_PutUint64; done).
    by apply get_be_byte. }
  replace (pre ++ record_header r ++ (Key r ++ Value r) ++ post)
    with ((pre ++ record_header r) ++ (Key r ++ Value r) ++ post) by (by rewrite <- !app_assoc).
  rewrite ReadAt_mid by (rewrite ?length_app, ?length_record_header; lia).
  destruct r as [k v s t]; simpl in *.
  rewrite !Nat2Z.id, take_app_length, slice_app_last by lia.
  unfold record_size, recordHeaderSize. simpl. do 2 f_equal. lia.
Qed.

(** ** Sizes *)

Section layout.
Lemma layout_bufs i off l : (layout i off l).1.1 = encode_record <$> l.
Proof.
  revert i off. induction l as [|r l IH]; intros i off; [done|]. simpl.
  specialize (IH (S i) (off + record_size r)).
  destruct (layout _ _ l) as [[bufs index] e]. simpl in *. by rewrite IH.
Qed.

Lemma layout_end i off l : (layout i off l).2 = off + Z.of_nat (length (data l)).
Proof.
  revert i off. induction l as [|r l IH]; intros i off; [simpl; lia|].
  simpl layout. specialize (IH (S i) (off + record_size r)).
  destruct (layout _ _ l) as [[bufs index] e]. simpl in IH |- *.
  rewrite IH, data_cons, length_app, <- length_encode_record. lia.
Qed.

(** Every index entry is the key and offset of a record of the table. *)
Lemma layout_index i off l e :
  e ∈ (layout i off l).1.2 ->
  exists l1 r l2, l = l1 ++ r :: l2 /\ ie_key e = Key r /\
    ie_offset e = off + Z.of_nat (length (data l1)).
Proof.
  revert i off. induction l as [|r l IH]; intros i off; [by intros ?%not_elem_of_nil|].
  simpl layout. specialize (IH (S i) (off + record_size r)).
  destruct (layout _ _ l) as [[bufs index] end_]. simpl in IH |- *. intros He.
  assert (e = mkIndex (Key r) off \/ e ∈ index) as [->|Hin].
  { destruct (_ =? 0)%nat; [by apply elem_of_cons in He|by right]. }
  - exists [], r, l. repeat split; simpl; lia.
  - destruct (IH Hin) as (l1 & r' & l2 & -> & Hk & Ho). exists (r :: l1), r', l2.
    repeat split; [done|]. rewrite Ho, data_cons, length_app, <- length_encode_record. lia.
Qed.

Lemma layout_index_sorted i off l : key_sorted Key l -> key_sorted ie_key (layout i off l).1.2.
Proof.
  unfold key_sorted at 1. intros Hs. revert i off. induction Hs as [|r l Hs IH HF]; intros i off; [constructor|].
  simpl layout. specialize (IH (S i) (off + record_size r)).
  pose proof (layout_index (S i) (off + record_size r) l) as Hi.
  destruct (layout _ _ l) as [[bufs index] end_]. simpl in IH, Hi |- *.
  destruct (_ =? 0)%nat; [|done]. constructor; [done|]. apply Forall_forall. intros e He.
  destruct (Hi e He) as (l1 & r' & l2 & -> & -> & _). simpl.
  rewrite Forall_forall in HF. apply HF. set_solver.
Qed.

Lemma layout_index_length i off l : (length (layout i off l).1.2 <= length l)%nat.
Proof.
  revert i off. induction l as [|r l IH]; intros i off; [done|]. simpl layout.
  specialize (IH (S i) (off + record_size r)).
  destruct (layout _ _ l) as [[bufs index] end_]. simpl in *. destruct (_ =? 0)%nat; simpl; lia.
Qed.
End layout.

(** The scan for [key] starts at a record boundary with only smaller keys before it. *)
Lemma start_offset_spec l key :
  key_sorted Key l ->
  exists l1 l2, l = l1 ++ l2 /\
    start_offset (layout 0 0 l).1.2 key = Z.of_nat (length (data l1)) /\
    (forall r, r ∈ l1 -> key_lt (Key r) key).
Proof.
  intros Hs. pose proof (layout_index_sorted 0 0 l Hs) as Hi. pose proof (layout_index 0 0 l) as Hsp.
  set (index := (layout 0 0 l).1.2) in *. unfold start_offset.
  set (f := fun i : nat => match index !! i with Some e => key_ltb key (ie_key e) | None => false end).
  destruct (sort_Search_spec (length index) f) as (H1 & H2 & _).
  { intros a b Hab Hb Ha. destruct (decide (a = b)) as [->|]; [done|]. unfold f in *.
    destruct (index !! a) as [x|] eqn:Ex; [|done].
    destruct (index !! b) as [y|] eqn:Ey; [|by apply lookup_ge_None in Ey; lia].
    assert (key_lt (ie_key x) (ie_key y)).
    { rewrite <- (take_drop b index) in Hi. apply key_sorted_app in Hi as (_ & _ & Hlt). apply Hlt.
      - apply list_elem_of_lookup. exists a. rewrite lookup_take_lt by lia. done.
      - apply list_elem_of_lookup. exists 0%nat. by rewrite lookup_drop, Nat.add_0_r. }
    key_order. }
  destruct (sort_Search (length index) f) as [|i].
  { exists [], l. repeat split. intros r []%not_elem_of_nil. }
  specialize (H2 i ltac:(lia)). unfold f in H2.
  destruct (index !! i) as [e|] eqn:Ee; [|apply lookup_ge_None in Ee; lia].
  destruct (Hsp e) as (l1 & r & l2 & -> & Hk & Ho); [by apply list_elem_of_lookup_2 in Ee|].
  exists l1, (r :: l2). split; [done|]. split; [lia|]. intros r' Hr'.
  apply key_sorted_app in Hs as (_ & _ & Hlt). specialize (Hlt r' r Hr' ltac:(left)).
  rewrite Hk in H2. key_order.
Qed.

(** ** The read loops follow the records *)

Lemma read_next l1 r l2 tail :
  rec_ok r ->
  readRecordAt (data (l1 ++ r :: l2) ++ tail) (Z.of_nat (length (data l1))) = Ok (r, record_size r).
Proof.
  intros Hr. rewrite data_app, data_cons, <- !app_assoc. by apply readRecordAt_encode.
Qed.

Lemma pos_next l1 r :
  Z.of_nat (length (data l1)) + record_size r = Z.of_nat (length (data (l1 ++ [r]))).
Proof.
  rewrite data_app, length_app, data_cons, length_app, <- length_encode_record. simpl. lia.
Qed.

Lemma pos_inside l1 r l2 :
  (Z.of_nat (length (data l1)) <? Z.of_nat (length (data (l1 ++ r :: l2)))) = true.
Proof.
  apply Z.ltb_lt. rewrite data_app, data_cons, !length_app, encode_record_header, length_app, length_record_header. lia.
Qed.

Lemma pos_end l : (Z.of_nat (length (data l)) <? Z.of_nat (length (data (l ++ [])))) = false.
Proof. rewrite app_nil_r. apply Z.ltb_irrefl. Qed.

Fixpoint get_list (key : bytes) (l : list Rec) (best : Rec) (found : bool) : Rec * bool :=
  match l with
  | [] => (best, found)
  | r :: l' =>
      if key_eqb (Key r) key then
        if negb found || (SeqNum best <? SeqNum r) then get_list key l' r true else get_list key l' best found
      else if key_ltb key (Key r) then (best, found) else get_list key l' best found
  end.

Lemma get_loop_list fuel l1 l2 tail key best found :
  Forall rec_ok l2 -> (length l2 <= fuel)%nat ->
  get_loop fuel (data (l1 ++ l2) ++ tail) (Z.of_nat (length (data (l1 ++ l2)))) key
    (Z.of_nat (length (data l1))) best found = Ok (get_list key l2 best found).
Proof.
  intros Hok. revert fuel l1 best found. induction Hok as [|r l2 Hr Hok IH]; intros fuel l1 best found Hf.
  { destruct fuel; [done|]. cbn [get_loop]. by rewrite pos_end. }
  destruct fuel as [|fuel]; [simpl in Hf; lia|]. cbn [get_loop get_list].
  rewrite pos_inside, read_next by done. simpl mbind. cbv beta iota. rewrite pos_next.
  replace (l1 ++ r :: l2) with ((l1 ++ [r]) ++ l2) by (by rewrite <- app_assoc).
  simpl in Hf. specialize (fun b f => IH fuel (l1 ++ [r]) b f ltac:(lia)).
  destruct (key_eqb _ _); [destruct (negb _ || _)|destruct (key_ltb _ _)]; done || apply IH.
Qed.

Lemma get_list_after key l best :
  (forall r, r ∈ l -> key_lt key (Key r)) -> get_list key l best true = (best, true).
Proof.
  intros H. destruct l as [|r l]; [done|]. simpl. specialize (H r ltac:(left)).
  destruct (key_eqb (Key r) key) eqn:E; key_bools; [rewrite E in H; by apply key_lt_irrefl in H|].
  by rewrite (proj2 (key_ltb_lt _ _) H).
Qed.

(** On records sorted by key the scan finds the record of the key. *)
Lemma get_list_sorted key l :
  key_sorted Key l ->
  get_list key l zeroRec false = match newest key l with Some r => (r, true) | None => (zeroRec, false) end.
Proof.
  unfold key_sorted. induction 1 as [|r l Hs IH HF]; [done|]. rewrite Forall_forall in HF.
  cbn [get_list]. unfold newest. cbn [newest_from foldl].
  destruct (key_eqb (Key r) key) eqn:E; key_bools.
  - simpl. rewrite get_list_after by (intros r' Hr'; rewrite <- E; by apply HF).
    fold (newest_from (Some r) key l). rewrite newest_from_other; [done|].
    intros r' Hr' E'. specialize (HF r' Hr'). rewrite E, E' in HF. by apply key_lt_irrefl in HF.
  - fold (newest_from None key l). fold (newest key l).
    destruct (key_ltb key (Key r)) eqn:E2; [|done]. key_bools.
    unfold newest. rewrite newest_from_other; [done|].
    intros r' Hr' E'. specialize (HF r' Hr'). rewrite E' in HF. key_order.
Qed.

Fixpoint scan_list (from to : bytes) (l : list Rec) (byKey : gmap bytes Rec) : gmap bytes Rec :=
  match l with
  | [] => byKey
  | r :: l' =>
      if key_ltb to (Key r) then byKey
      else if key_ltb (Key r) from then scan_list from to l' byKey
      else scan_list from to l' (keep_newest byKey r)
  end.

Lemma scan_loop_list fuel l1 l2 tail from to byKey :
  Forall rec_ok l2 -> (length l2 <= fuel)%nat ->
  scan_loop fuel (data (l1 ++ l2) ++ tail) (Z.of_nat (length (data (l1 ++ l2)))) from to
    (Z.of_nat (length (data l1))) byKey = Ok (scan_list from to l2 byKey).
Proof.
  intros Hok. revert fuel l1 byKey. induction Hok as [|r l2 Hr Hok IH]; intros fuel l1 byKey Hf.
  { destruct fuel; [done|]. cbn [scan_loop]. by rewrite pos_end. }
  destruct fuel as [|fuel]; [simpl in Hf; lia|]. cbn [scan_loop scan_list].
  rewrite pos_inside, read_next by done. simpl mbind. cbv beta iota. rewrite pos_next.
  replace (l1 ++ r :: l2) with ((l1 ++ [r]) ++ l2) by (by rewrite <- app_assoc).
  simpl in Hf. specialize (fun b => IH fuel (l1 ++ [r]) b ltac:(lia)).
  destruct (key_ltb _ _); [done|]. destruct (key_ltb _ _); apply IH.
Qed.

Definition in_range (from to : bytes) (r : Rec) : Prop := key_le from (Key r) /\ key_le (Key r) to.

#[global] Instance in_range_dec from to r : Decision (in_range from to r).
Proof. unfold in_range. apply _. Defined.

Lemma scan_list_sorted from to l byKey :
  key_sorted Key l -> scan_list from to l byKey = foldl keep_newest byKey (filter (in_range from to) l).
Proof.
  unfold key_sorted. intros Hs. revert byKey. induction Hs as [|r l Hs IH HF]; intros byKey; [done|].
  rewrite Forall_forall in HF. cbn [scan_list]. rewrite filter_cons.
  destruct (key_ltb to (Key r)) eqn:E1; key_bools.
  - rewrite decide_False by (intros [? ?]; key_order). rewrite filter_none; [done|].
    intros r' Hr' [? ?]. specialize (HF r' Hr'). key_order.
  - destruct (key_ltb (Key r) from) eqn:E2; key_bools.
    + rewrite decide_False by (intros [? ?]; key_order). apply IH.
    + rewrite decide_True by (split; key_order). simpl. apply IH.
Qed.

(** Collecting sorted records in a map and sorting the values gives them back. *)
Lemma collect_sorted l :
  key_sorted Key l -> sort_by Key (snd <$> map_to_list (foldl keep_newest ∅ l)) = l.
Proof.
  intros Hs.
  assert (forall k r, foldl keep_newest ∅ l !! k = Some r <-> r ∈ l /\ Key r = k) as Hm.
  { intros k r. rewrite fold_keep_newest_lookup, lookup_empty. by apply newest_sorted. }
  symmetry. apply sort_by_unique; [|done|].
  - rewrite <- list_fmap_compose.
    rewrite (list_fmap_ext (Key ∘ snd) fst) by
      (intros i [k r] H%list_elem_of_lookup_2; apply elem_of_map_to_list, Hm in H; naive_solver).
    apply NoDup_fst_map_to_list.
  - apply NoDup_Permutation.
    + apply (NoDup_fmap_1 Key). by apply key_sorted_NoDup.
    + apply (NoDup_fmap_1 Key). rewrite <- list_fmap_compose.
      rewrite (list_fmap_ext (Key ∘ snd) fst) by
        (intros i [k r] H%list_elem_of_lookup_2; apply elem_of_map_to_list, Hm in H; naive_solver).
      apply NoDup_fst_map_to_list.
    + intros r. rewrite list_elem_of_fmap. split.
      * intros Hr. exists (Key r, r). split; [done|]. apply elem_of_map_to_list, Hm. done.
      * intros ([k r'] & -> & H%elem_of_map_to_list%Hm). by destruct H.
Qed.

Lemma load_loop_list fuel l1 l2 tail acc :
  Forall rec_ok l2 -> (length l2 <= fuel)%nat ->
  load_loop fuel (data (l1 ++ l2) ++ tail) (Z.of_nat (length (data (l1 ++ l2))))
    (Z.of_nat (length (data l1))) acc = Ok (acc ++ l2).
Proof.
  intros Hok. revert fuel l1 acc. induction Hok as [|r l2 Hr Hok IH]; intros fuel l1 acc Hf.
  { rewrite (app_nil_r acc). destruct fuel; [done|]. cbn [load_loop]. by rewrite pos_end. }
  destruct fuel as [|fuel]; [simpl in Hf; lia|]. cbn [load_loop].
  rewrite pos_inside, read_next by done. simpl mbind. cbv beta iota. rewrite pos_next.
  replace (l1 ++ r :: l2) with ((l1 ++ [r]) ++ l2) by (by rewrite <- app_assoc).
  simpl in Hf. rewrite IH by lia. by rewrite <- app_assoc.
Qed.

(** ** Opening a written table *)

Definition index_ok (e : indexEntry) : Prop :=
  Z.of_nat (length (ie_key e)) < 2 ^ 32 /\ 0 <= ie_offset e < 2 ^ 63.

Lemma length_encode_index_entry e : length (encode_index_entry e) = (12 + length (ie_key e))%nat.
Proof. unfold encode_index_entry. rewrite !length_app, length_PutUint32, length_PutUint64. lia. Qed.

Lemma decodeIndex_loop_encode fuel l pre acc :
  Forall index_ok l -> (length l <= fuel)%nat ->
  decodeIndex_loop fuel (pre ++ concat (encode_index_entry <$> l)) (length pre) acc = Ok (acc ++ l).
Proof.
  intros Hok. revert fuel pre acc. induction Hok as [|e l [Hk Ho] Hok IH]; intros fuel pre acc Hf.
  { simpl. rewrite !app_nil_r. destruct fuel; [done|]. cbn [decodeIndex_loop]. by rewrite Nat.ltb_irrefl. }
  destruct fuel as [|fuel]; [simpl in Hf; lia|]. cbn [decodeIndex_loop].
  rewrite fmap_cons. cbn [concat]. set (rest := concat _).
  assert (length (pre ++ encode_index_entry e ++ rest) = (length pre + (12 + length (ie_key e)) + length rest)%nat) as Hl
    by (rewrite !length_app, length_encode_index_entry; lia).
  rewrite Hl. destruct (Nat.ltb_spec (length pre) (length pre + (12 + length (ie_key e)) + length rest)); [|lia].
  simpl negb. cbv iota.
  destruct (Nat.ltb_spec (length pre + (12 + length (ie_key e)) + length rest) (length pre + 4)); [lia|].
  set (kl := PutUint32 (Z.of_nat (length (ie_key e)))). set (o := PutUint64 (ie_offset e)).
  assert (get_be kl = Z.of_nat (length (ie_key e))) as Hkl by (apply get_put_u32; lia).
  assert (s64 (get_be o) = ie_offset e) as Ho' by (unfold o; rewrite get_put_u64, s64_small; lia).
  assert (length kl = 4%nat) by apply length_PutUint32. assert (length o = 8%nat) by apply length_PutUint64.
  assert (pre ++ encode_index_entry e ++ rest = pre ++ kl ++ ie_key e ++ o ++ rest) as Hb
    by (unfold encode_index_entry; by rewrite <- !app_assoc).
  rewrite (slice_eq pre kl (ie_key e ++ o ++ rest)) by (done || lia).
  rewrite Hkl, Nat2Z.id.
  destruct (Nat.ltb_spec (length pre + (12 + length (ie_key e)) + length rest) (length pre + 4 + length (ie_key e) + 8)); [lia|].
  rewrite (slice_eq (pre ++ kl) (ie_key e) (o ++ rest)) by (rewrite ?length_app, ?Hb, <- ?app_assoc; done || lia).
  rewrite (slice_eq (pre ++ kl ++ ie_key e) o rest) by (rewrite ?length_app, ?Hb, <- ?app_assoc; done || lia).
  rewrite Ho'. replace (length pre + 4 + length (ie_key e) + 8)%nat with (length (pre ++ encode_index_entry e))
    by (rewrite length_app, length_encode_index_entry; lia).
  rewrite (app_assoc pre).
  subst rest. rewrite IH by (simpl in Hf; lia). rewrite <- app_assoc. by destruct e.
Qed.

Lemma decodeIndex_encode l :
  Forall index_ok l -> decodeIndex (concat (encode_index_entry <$> l)) = Ok l.
Proof.
  intros Hok. unfold decodeIndex.
  assert (length l <= length (concat (encode_index_entry <$> l)))%nat.
  { clear Hok. induction l as [|e l IH]; [done|]. rewrite fmap_cons. cbn [concat].
    rewrite length_app, length_encode_index_entry. simpl. lia. }
  by apply (decodeIndex_loop_encode _ l [] []).
Qed.

Lemma length_encode_footer ft : length (encode_footer ft) = 48%nat.
Proof. unfold encode_footer. by rewrite !length_app, !length_PutUint64. Qed.

Definition footer_ok (ft : sstFooter) : Prop :=
  Forall (fun z => 0 <= z < 2 ^ 63)
    [ft_metaOffset ft; ft_bloomOffset ft; ft_bloomLen ft; ft_indexOffset ft; ft_indexLen ft; ft_recordCount ft].

Lemma decode_encode_footer ft : footer_ok ft -> decode_footer (encode_footer ft) = ft.
Proof.
  unfold footer_ok. rewrite !Forall_cons. intros (H1 & H2 & H3 & H4 & H5 & H6 & _).
  destruct ft as [a b c d e f]; simpl in *. unfold decode_footer, encode_footer. simpl.
  rewrite slice_app_0 by (by rewrite length_PutUint64).
  rewrite slice_app_mid by (rewrite ?length_PutUint64; done).
  rewrite (app_assoc (PutUint64 a)).
  rewrite slice_app_mid by (rewrite ?length_app, ?length_PutUint64; done).
  rewrite (app_assoc (_ ++ PutUint64 b)).
  rewrite slice_app_mid by (rewrite ?length_app, ?length_PutUint64; done).
  rewrite (app_assoc (_ ++ PutUint64 c)).
  rewrite slice_app_mid by (rewrite ?length_app, ?length_PutUint64; done).
  rewrite (app_assoc (_ ++ PutUint64 d)).
  rewrite slice_app_last by (rewrite ?length_app, ?length_PutUint64; done).
  rewrite !get_put_u64, !s64_small by lia. done.
Qed.

(** What a reader of the records [l] is: every lookup structure agrees with the
    data section. *)
Record reads (r : Reader) (l : list Rec) : Prop := mkReads {
  rd_sorted : key_sorted Key l;
  rd_ok : Forall rec_ok l;
  rd_content : exists tail, r_content r = data l ++ tail;
  rd_meta : r_metaOffset r = Z.of_nat (length (data l));
  rd_index : r_index r = (layout 0 0 l).1.2;
  rd_bloom : forall k, k ∈ Key <$> l -> MayContain (r_bf r) k = true;
  rd_range : forall x, x ∈ l -> key_le (r_minKey r) (Key x) /\ key_le (Key x) (r_maxKey r);
  rd_count : r_recordCount r = Z.of_nat (length l)
}.

(** Tables the writers can lay out with their 63-bit offsets and 32-bit lengths. *)
Record fits (l : list Rec) : Prop := mkFits {
  fits_nonempty : l <> [];
  fits_sorted : key_sorted Key l;
  fits_ok : Forall rec_ok l;
  fits_size : Z.of_nat (length (data l)) < 2 ^ 50
}.

Lemma make_ok n : 0 <= n -> make n = Ok tt.
Proof. intros. unfold make. by destruct (Z.ltb_spec n 0); [lia|]. Qed.

Lemma ReadAt_eq pre mid post c off n :
  c = pre ++ mid ++ post -> off = Z.of_nat (length pre) -> n = Z.of_nat (length mid) ->
  ReadAt c off n = Ok mid.
Proof. intros ->. apply ReadAt_mid. Qed.

Lemma subslice_eq pre mid post c from to :
  c = pre ++ mid ++ post -> from = Z.of_nat (length pre) -> to = Z.of_nat (length pre + length mid) ->
  subslice c from to = Ok mid.
Proof.
  intros -> -> ->. unfold subslice. rewrite !length_app.
  destruct (Z.ltb_spec (Z.of_nat (length pre)) 0); [lia|].
  destruct (Z.ltb_spec (Z.of_nat (length pre + length mid)) (Z.of_nat (length pre))); [lia|].
  destruct (Z.ltb_spec (Z.of_nat (length pre + (length mid + length post))) (Z.of_nat (length pre + length mid))); [lia|].
  simpl. rewrite Nat2Z.id, drop_app_length, take_app_exact by lia. done.
Qed.

Lemma uint32_at_eq pre z post c from :
  c = pre ++ PutUint32 z ++ post -> from = Z.of_nat (length pre) -> 0 <= z < 2 ^ 32 ->
  uint_at 4 c from = Ok z.
Proof.
  intros Hc Hf Hz. unfold uint_at.
  rewrite (subslice_eq pre (PutUint32 z) post) by (rewrite ?length_PutUint32; done || lia).
  simpl. by rewrite get_put_u32.
Qed.

(** The metadata block is read back. *)
Lemma decode_encode_meta mn mx :
  Z.of_nat (length mn) < 2 ^ 32 -> Z.of_nat (length mx) < 2 ^ 32 ->
  decode_meta (encode_meta mn mx) = Ok (mn, mx).
Proof.
  intros Hmn Hmx. unfold decode_meta, encode_meta.
  set (nl := Z.of_nat (length mn)) in *. set (xl := Z.of_nat (length mx)) in *.
  rewrite (uint32_at_eq [] nl (mn ++ PutUint32 xl ++ mx)) by (done || lia). rewrite bind_ok.
  rewrite (subslice_eq (PutUint32 nl) mn (PutUint32 xl ++ mx)) by (rewrite ?length_PutUint32; done || lia).
  rewrite bind_ok.
  rewrite (uint32_at_eq (PutUint32 nl ++ mn) xl mx)
    by (rewrite ?length_app, ?length_PutUint32, <- ?app_assoc; done || lia).
  rewrite bind_ok.
  rewrite (subslice_eq (PutUint32 nl ++ mn ++ PutUint32 xl) mx [])
    by (rewrite ?length_app, ?length_PutUint32, ?app_nil_r, <- ?app_assoc; done || lia).
  done.
Qed.

Lemma last_max l r : key_sorted Key l -> last l = Some r -> forall x, x ∈ l -> key_le (Key x) (Key r).
Proof.
  intros Hs Hl x Hx. apply last_Some in Hl as [l' ->].
  apply key_sorted_app in Hs as (_ & _ & H).
  apply elem_of_app in Hx as [Hx| ->%list_elem_of_singleton]; [|apply key_le_lteq; auto].
  specialize (H x r Hx ltac:(left)). key_order.
Qed.

Lemma head_min l r : key_sorted Key l -> head l = Some r -> forall x, x ∈ l -> key_le (Key r) (Key x).
Proof.
  intros Hs Hl x Hx. destruct l as [|r' l]; [done|]. inv Hl. inv Hs.
  apply elem_of_cons in Hx as [->|Hx]; [apply key_le_lteq; auto|].
  rewrite Forall_forall in H2. specialize (H2 x Hx). key_order.
Qed.

Section open_table.
Context `{BloomSizing}.

Lemma length_bloom l :
  1 <= Z.of_nat (length l) < 2 ^ 53 ->
  let bf := foldl Add (New sizing (Z.of_nat (length l))) (Key <$> l) in
  wf bf /\ Z.of_nat (length (Encode bf)) <= 16 + 8 * (Z.of_nat (length l) * 10 + 127).
Proof.
  intros Hl. cbv zeta. pose proof (sizing_bounds (Z.of_nat (length l)) Hl) as Hb.
  assert (wf (New sizing (Z.of_nat (length l)))) as Hw.
  { apply bloom_wf_New. destruct (Z.leb_spec (Z.of_nat (length l)) 0); lia. }
  split; [by apply bloom_wf_Adds|]. rewrite length_Encode.
  assert (length (bits (foldl Add (New sizing (Z.of_nat (length l))) (Key <$> l)))
          = length (bits (New sizing (Z.of_nat (length l))))) as ->.
  { generalize (New sizing (Z.of_nat (length l))) as bf. generalize (Key <$> l) as ks.
    induction ks as [|k ks IH]; intros bf; [done|]. simpl. rewrite IH. apply length_set_bits. }
  rewrite (wf_len _ Hw). unfold New. destruct (Z.leb_spec (Z.of_nat (length l)) 0); [lia|].
  destruct (sizing (Z.of_nat (length l))) as [m k]; simpl in *.
  rewrite (u64_small m), (u64_small (m + 63)) by lia.
  pose proof (Z.div_mod (m + 63) 64 ltac:(lia)). pose proof (Z.mod_pos_bound (m + 63) 64 ltac:(lia)).
  rewrite u64_small by lia. rewrite Z.div_mul by lia. lia.
Qed.

Lemma length_index_bytes l :
  Z.of_nat (length (concat (encode_index_entry <$> (layout 0 0 l).1.2))) <= Z.of_nat (length (data l)).
Proof.
  generalize 0%nat as i, 0 as off. induction l as [|r l IH]; intros i off; [simpl; lia|].
  simpl layout. specialize (IH (S i) (off + record_size r)).
  destruct (layout _ _ l) as [[bufs index] e]. simpl in IH |- *.
  rewrite data_cons, length_app. pose proof (length_encode_record r) as Hr. unfold record_size, recordHeaderSize in Hr.
  destruct (_ =? 0)%nat; [|lia]. rewrite fmap_cons. cbn [concat].
  rewrite length_app, length_encode_index_entry. simpl. lia.
Qed.

Lemma index_ok_layout l :
  Forall rec_ok l -> Z.of_nat (length (data l)) < 2 ^ 50 -> Forall index_ok (layout 0 0 l).1.2.
Proof.
  intros Hok Hsz. apply Forall_forall. intros e (l1 & r & l2 & -> & Hk & Ho)%layout_index.
  rewrite data_app, length_app in Hsz. split; [|lia]. rewrite Hk.
  rewrite Forall_forall in Hok. by destruct (Hok r ltac:(set_solver)).
Qed.

(** Opening a file laid out as the writers lay it out. *)
Lemma open_layout name D mn mx bf index count :
  Z.of_nat (length D) < 2 ^ 50 -> 0 <= count < 2 ^ 53 ->
  Z.of_nat (length mn) < 2 ^ 32 -> Z.of_nat (length mx) < 2 ^ 32 ->
  wf bf -> Z.of_nat (length (Encode bf)) < 2 ^ 60 ->
  Forall index_ok index -> Z.of_nat (length (concat (encode_index_entry <$> index))) < 2 ^ 60 ->
  let c := D ++ concat (tail_chunks (Z.of_nat (length D)) mn mx bf index count) in
  open_content name c = Ok (mkReader name c bf index mn mx count (Z.of_nat (length D)) 0).
Proof.
  intros HD Hc Hmn Hmx Hbw Hbl Hix Hil. cbv zeta. unfold tail_chunks.
  set (mt := encode_meta mn mx). set (B := Encode bf) in *. set (I := concat (encode_index_entry <$> index)) in *.
  set (ft := mkFooter _ _ _ _ _ _). set (F := encode_footer ft).
  assert (concat ([mt; B] ++ (encode_index_entry <$> index) ++ [F]) = mt ++ B ++ I ++ F) as ->.
  { simpl. rewrite concat_app. simpl. by rewrite app_nil_r. }
  assert (length mt = (8 + length mn + length mx)%nat) as Hmt
    by (unfold mt, encode_meta; rewrite !length_app, !length_PutUint32; lia).
  assert (length F = 48%nat) as HF by apply length_encode_footer.
  assert (footer_ok ft) as Hft.
  { unfold footer_ok, ft; simpl. repeat (apply Forall_cons; split; [lia|]). constructor. }
  set (c := D ++ mt ++ B ++ I ++ F).
  assert (Z.of_nat (length c) = Z.of_nat (length (D ++ mt ++ B ++ I)) + 48) as Hsz
    by (unfold c; rewrite !length_app, HF; lia).
  unfold open_content. rewrite Hsz. destruct (Z.ltb_spec (Z.of_nat (length (D ++ mt ++ B ++ I)) + 48) 48); [lia|]. cbv iota.
  rewrite (ReadAt_eq (D ++ mt ++ B ++ I) F []) by (unfold c; rewrite ?app_nil_r, <- ?app_assoc; done || lia).
  rewrite bind_ok. cbv zeta. replace (decode_footer F) with ft by (by rewrite <- (decode_encode_footer ft Hft)).
  assert (s64 (ft_bloomOffset ft - ft_metaOffset ft) = Z.of_nat (length mt)) as ->
    by (unfold ft; simpl; rewrite s64_small; lia).
  eapply bind_eq; [apply make_ok; lia|].
  eapply bind_eq; [apply (ReadAt_eq D mt (B ++ I ++ F)); done|].
  eapply bind_eq; [by apply decode_encode_meta|].
  eapply bind_eq; [apply make_ok; simpl; lia|].
  eapply bind_eq; [apply (ReadAt_eq (D ++ mt) B (I ++ F)); simpl; rewrite ?length_app, <- ?app_assoc; done || lia|].
  eapply bind_eq; [unfold B; rewrite <- (app_nil_r (Encode bf)); by apply Decode_Encode|].
  eapply bind_eq; [|done].
  destruct (Z.ltb_spec 0 (ft_indexLen ft)) as [|Hz].
  - eapply bind_eq; [|by apply decodeIndex_encode].
    apply (ReadAt_eq (D ++ mt ++ B) I F); simpl; rewrite ?length_app, <- ?app_assoc; done || lia.
  - unfold ft, I in Hz. simpl in Hz. destruct index as [|e index]; [done|].
    rewrite fmap_cons in Hz. cbn [concat] in Hz. rewrite length_app, length_encode_index_entry in Hz. lia.
Qed.

(** The file Write produces opens as a reader of its records. *)
Lemma open_table name l :
  fits l ->
  exists r, open_content name (table_bytes l) = Ok r /\ reads r l /\ r_name r = name /\ r_bloomSkips r = 0.
Proof.
  intros [Hne Hs Hok Hsize].
  destruct (head l) as [r0|] eqn:Eh; [|by destruct l].
  destruct (last l) as [rn|] eqn:El; [|by apply last_None in El].
  assert (rec_ok r0) as Hr0 by (rewrite Forall_forall in Hok; apply Hok; by apply head_Some_elem_of).
  assert (rec_ok rn) as Hrn by (rewrite Forall_forall in Hok; apply Hok; by apply last_Some_elem_of).
  pose proof (length_data_ge l) as Hge.
  assert (1 <= Z.of_nat (length l) < 2 ^ 53) as Hlen by (destruct l; [done|]; simpl in *; lia).
  destruct (length_bloom l Hlen) as [Hbw Hbl].
  pose proof (length_index_bytes l) as Hil. pose proof (index_ok_layout l Hok Hsize) as Hix.
  unfold table_bytes, write_chunks. rewrite Eh, El. simpl default.
  pose proof (layout_bufs 0 0 l) as Lb. pose proof (layout_end 0 0 l) as Le.
  destruct (layout 0 0 l) as [[bufs index] doff] eqn:EL. simpl in Lb, Le, Hil, Hix. subst bufs doff.
  rewrite concat_app. fold (data l).
  rewrite open_layout; [|done|lia|by apply ok_key|by apply ok_key|done|lia|done|lia].
  eexists. split; [done|]. split; [|done]. split; simpl; try done.
  - by eexists.
  - by rewrite EL.
  - intros k Hk. apply MayContain_Adds; [|done]. apply bloom_wf_New. destruct (Z.leb_spec (Z.of_nat (length l)) 0); [lia|].
    pose proof (sizing_bounds (Z.of_nat (length l)) Hlen). lia.
  - intros x Hx. split; [by eapply head_min|by eapply last_max].
Qed.
End open_table.

(** ** What an open reader answers *)

(** The pair Get returns for an optional record. *)
Definition found (o : option Rec) : Rec * bool :=
  match o with Some r => (r, true) | None => (zeroRec, false) end.

Lemma reads_bound r l : reads r l -> (length l <= length (r_content r))%nat.
Proof.
  intros H. destruct (rd_content r l H) as [tail ->]. pose proof (length_data_ge l). rewrite length_app. lia.
Qed.

Lemma reads_absent r l key :
  reads r l -> (forall x, x ∈ l -> Key x <> key) -> newest key l = None.
Proof. intros _ H. unfold newest. by apply newest_from_other. Qed.

(** Where the loop for a start key begins, and what is before it. *)
Lemma reads_from r l key :
  reads r l ->
  exists l1 l2 tail, l = l1 ++ l2 /\ r_content r = data (l1 ++ l2) ++ tail /\
    r_metaOffset r = Z.of_nat (length (data (l1 ++ l2))) /\
    start_offset (r_index r) key = Z.of_nat (length (data l1)) /\
    Forall rec_ok l2 /\ key_sorted Key l2 /\ (length l2 <= length (data (l1 ++ l2) ++ tail))%nat /\
    (forall x, x ∈ l1 -> key_lt (Key x) key).
Proof.
  intros H. pose proof (reads_bound r l H) as Hlen. destruct (rd_content r l H) as [tail Hc].
  destruct (start_offset_spec l key (rd_sorted r l H)) as (l1 & l2 & -> & Ho & Hlt).
  exists l1, l2, tail. rewrite (rd_index r _ H). rewrite Hc, length_app in Hlen.
  split_and!; try done.
  - by apply rd_meta.
  - pose proof (rd_ok r _ H) as Hok. by apply Forall_app in Hok as [].
  - pose proof (rd_sorted r _ H) as Hs. by apply key_sorted_app in Hs as (_ & ? & _).
  - rewrite length_app in *. lia.
Qed.

Lemma reads_Get r l key : reads r l -> (Get r key).2 = Ok (found (newest key l)).
Proof.
  intros H. unfold Get. pose proof (rd_bloom r l H key) as Hb. pose proof (rd_range r l H) as Hr.
  destruct (MayContain (r_bf r) key); simpl negb; cbv iota.
  2:{ simpl. rewrite (reads_absent r l); [done|done|]. intros x Hx <-.
      discriminate Hb. apply list_elem_of_fmap. eauto. }
  destruct (key_ltb key (r_minKey r) || key_ltb (r_maxKey r) key) eqn:E.
  { simpl. rewrite (reads_absent r l); [done|done|]. intros x Hx <-. destruct (Hr x Hx).
    apply orb_true_iff in E as [E|E]; key_bools; key_order. }
  destruct (reads_from r l key H) as (l1 & l2 & tail & -> & -> & -> & -> & Hok & Hs & Hlen & Hlt). simpl.
  rewrite get_loop_list, get_list_sorted by done. unfold newest.
  rewrite newest_from_app, (newest_from_other None key l1); [done|].
  intros x Hx <-. by apply (key_lt_irrefl (Key x)), Hlt.
Qed.

Lemma reads_Get_reader r l key : reads r l -> reads (Get r key).1 l.
Proof.
  intros H. unfold Get. destruct (negb _); [|by destruct (_ || _)].
  destruct H; by split.
Qed.

Lemma reads_Scan r l from to : reads r l -> Scan r from to = Ok (filter (in_range from to) l).
Proof.
  intros H. unfold Scan.
  destruct (key_ltb to (r_minKey r) || key_ltb (r_maxKey r) from) eqn:E.
  { f_equal. symmetry. apply filter_none. intros x Hx [? ?]. destruct (rd_range r l H x Hx).
    apply orb_true_iff in E as [E|E]; key_bools; key_order. }
  pose proof (key_sorted_filter Key (in_range from to) l (rd_sorted r l H)) as Hsf.
  destruct (reads_from r l from H) as (l1 & l2 & tail & -> & -> & -> & -> & Hok & Hs & Hlen & Hlt).
  eapply bind_eq; [by apply scan_loop_list|]. rewrite filter_app in *.
  rewrite (filter_none _ l1) in * by (intros x Hx [? ?]; specialize (Hlt x Hx); key_order).
  rewrite scan_list_sorted, collect_sorted by done. done.
Qed.

Lemma reads_LoadAll r l : reads r l -> LoadAll r = Ok l.
Proof.
  intros H. unfold LoadAll. pose proof (reads_bound r l H). destruct (rd_content r l H) as [tail Hc].
  rewrite (rd_meta r l H), Hc. apply (load_loop_list _ [] l tail []); [by apply (rd_ok r)|]. by rewrite <- Hc.
Qed.

(** Next walks the records in order: from the offset after l1 it yields the first
    record of the rest, and nothing after the last one. *)
Lemma reads_Next r l1 l2 :
  reads r (l1 ++ l2) ->
  Next r (Z.of_nat (length (data l1))) =
    Ok (match l2 with
        | [] => None
        | x :: _ => Some (x, Z.of_nat (length (data (l1 ++ [x]))))
        end).
Proof.
  intros H. unfold Next. destruct (rd_content r _ H) as [tail Hc]. rewrite (rd_meta r _ H), Hc.
  destruct l2 as [|x l2].
  - rewrite app_nil_r. by rewrite (proj2 (Z.leb_le _ _)) by lia.
  - pose proof (pos_inside l1 x l2) as Hp. apply Z.ltb_lt in Hp. rewrite (proj2 (Z.leb_gt _ _)) by lia.
    eapply bind_eq; [apply read_next|]; [|cbn [fst snd]; by rewrite pos_next].
    pose proof (rd_ok r _ H) as Hok. rewrite Forall_forall in Hok. apply Hok. set_solver.
Qed.

(** ** Writing *)

Section writing.
Context `{BloomSizing}.

Lemma write_all_touches names w0 w name chunks (Q : unit -> World -> Prop) :
  since names w0 w -> name ∈ names -> files w !! name = Some [] ->
  (forall w', files w' = <[name := concat chunks]> (files w) -> since names w0 w' -> Q tt w') ->
  touches names w0 (write_all name chunks) w Q.
Proof.
  intros Hs Hin Hn HQ.
  apply (touches_call names w0 w Hs [name] _ (fun _ w' => files w' = <[name := concat chunks]> (files w)));
    [|set_solver|].
  - pose proof (write_loop_run name chunks w [] Hn) as Hr.
    unfold touches, write_all, runs, since in *. simpl length in Hr.
    destruct (mfold (f_Write name) chunks (0%nat, w)) as [[u|e| |] [p w']]; naive_solver eauto with lsm.
  - intros [] w' Hs' E. apply HQ; [done|]. etrans; [exact Hs|]. eapply since_weaken; [done|set_solver].
Qed.

(** Write creates the file with the bytes of the table and touches no other. *)
Lemma Write_touches name l w :
  l <> [] ->
  touches [name] w (Write name l) w (fun _ w' => files w' = <[name := table_bytes l]> (files w)).
Proof.
  intros Hne. destruct l as [|r l]; [done|]. unfold Write.
  apply touches_bind, touches_os_Create; [done|left|]. intros w1 E1 H1 _.
  apply touches_bind, touches_try_err.
  - apply touches_bind, write_all_touches; [done|left|by rewrite E1, lookup_insert_eq|]. intros w2 E2 H2 _.
    apply touches_nop; [done|]. intros w3 E3 H3 _.
    apply touches_bind, touches_ignore_nop; [done|]. intros w4 E4 H4 _. apply touches_ret; [done|].
    by rewrite E4, E3, E2, E1, insert_insert_eq.
  - intros e w2 H2 Hc _. apply touches_bind, touches_ignore_nop; [done|]. intros w3 _ H3 _.
    by apply touches_raise.
Qed.

(** Opening the file of a written table. *)
Lemma Open_touches name l w :
  fits l -> files w !! name = Some (table_bytes l) ->
  touches [] w (Open name) w (fun r w' => files w' = files w /\ reads r l /\ r_name r = name /\ r_bloomSkips r = 0).
Proof.
  intros Hl Hn. destruct (open_table name l Hl) as (r & Hr & Hrd). unfold Open.
  apply touches_bind, touches_os_Open; [done|]. rewrite Hn. intros w' E Hs _.
  eapply touches_of_res; [done|exact Hr|done].
Qed.

(** ** The streaming writer *)

(** The state of a writer opened for n records that has received l. *)
Definition streaming (path : bytes) (n : Z) (l : list Rec) (s : StreamWriter * World) : Prop :=
  files s.2 !! path = Some (data l) /\
  s.1 = mkStream path (length (data l)) n (Z.of_nat (length l)) (Z.of_nat (length (data l)))
          (layout 0 0 l).1.2 (foldl Bloom.Add (New sizing n) (Key <$> l))
          (default [] (Key <$> head l)) (default [] (Key <$> last l)) (default [] (Key <$> last l)) false.

Lemma layout_index_snoc i off l r :
  (layout i off (l ++ [r])).1.2 =
  (layout i off l).1.2 ++ (if ((i + length l) mod indexStep =? 0)%nat
                           then [mkIndex (Key r) (off + Z.of_nat (length (data l)))] else []).
Proof.
  revert i off. induction l as [|x l IH]; intros i off.
  { simpl. rewrite Nat.add_0_r, Z.add_0_r. by destruct (_ =? 0)%nat. }
  cbn [app layout]. specialize (IH (S i) (off + record_size x)).
  destruct (layout _ _ (l ++ [r])) as [[b1 i1] e1], (layout _ _ l) as [[b2 i2] e2]. cbn [fst snd length] in IH |- *.
  rewrite IH, data_cons, length_app, Nat2Z.inj_add, length_encode_record.
  replace (S i + length l)%nat with (i + S (length l))%nat by lia. rewrite Z.add_assoc.
  by destruct (i mod indexStep =? 0)%nat.
Qed.

(** A write through the streaming writer appends to its file. *)
Lemma sw_write_run sw w d c (Qok : unit -> StreamWriter * World -> Prop) Qerr Qcrash :
  files w !! sw_path sw = Some c -> sw_pos sw = length c ->
  (forall w', files w' = <[sw_path sw := c ++ d]> (files w) -> since [sw_path sw] w w' ->
     Qok tt (mkStream (sw_path sw) (length (c ++ d)) (sw_expected sw) (sw_written sw) (sw_dataOffset sw)
       (sw_index sw) (sw_bloom sw) (sw_minKey sw) (sw_maxKey sw) (sw_lastKey sw) (sw_closed sw), w')) ->
  (forall s', since [sw_path sw] w s'.2 -> can_fail w -> Qerr s') ->
  (forall s', only [sw_path sw] w s'.2 -> can_crash w -> Qcrash s') ->
  runs (sw_write d) (sw, w) Qok Qerr Qcrash.
Proof.
  intros Hc Hp Hok He Hcr.
  assert (runs (f_Write (sw_path sw) d) (sw_pos sw, w)
    (fun _ '(p, w') => p = length (c ++ d) /\ files w' = <[sw_path sw := c ++ d]> (files w) /\ since [sw_path sw] w w')
    (fun '(p, w') => since [sw_path sw] w w' /\ can_fail w)
    (fun '(p, w') => only [sw_path sw] w w' /\ can_crash w)) as Hw.
  { rewrite Hp. apply f_Write_run.
    - intros w' Hf E. rewrite (write_bytes_append _ c d _ Hc) in E.
      rewrite length_app. split_and!; [done|done|split; eauto with lsm].
    - intros k p w' Hf Hcf E. split; [split; eauto with lsm|done].
    - intros k p w' Hcf E. split; [eauto with lsm|done]. }
  unfold sw_write, runs in *. destruct (f_Write _ _ _) as [[[]|e| |] [p w']]; try done.
  - destruct Hw as (-> & ? & ?). by apply Hok.
  - destruct Hw. by apply He.
  - destruct Hw. by apply Hcr.
Qed.

Lemma Add_run path n l r s :
  streaming path n l s -> Z.of_nat (length l) < n -> rec_ok r -> Key r <> [] ->
  (forall x, last l = Some x -> key_lt (Key x) (Key r)) ->
  runs (Add_ r) s
    (fun _ s' => streaming path n (l ++ [r]) s' /\ since [path] s.2 s'.2)
    (fun s' => since [path] s.2 s'.2 /\ can_fail s.2)
    (fun s' => only [path] s.2 s'.2 /\ can_crash s.2).
Proof.
  destruct s as [sw w]. intros [Hfile Hsw] Hn [Hk Hv _ _] Hne Hlast. simpl in Hfile, Hsw. subst sw.
  unfold Add_. apply runs_bind, runs_gets. cbn [fst sw_closed sw_written sw_lastKey sw_expected].
  assert (key_eqb (Key r) [] || ((0 <? Z.of_nat (length l)) && key_leb (Key r) (default [] (Key <$> last l))) = false) as ->.
  { apply orb_false_iff. split; [by apply not_true_iff_false; rewrite key_eqb_eq|].
    destruct (last l) as [x|] eqn:E; [|apply last_None in E as ->; done].
    apply andb_false_intro2. simpl. specialize (Hlast x eq_refl). apply not_true_iff_false. intros ?. key_bools. key_order. }
  rewrite (proj2 (Z.leb_gt _ _)) by lia.
  rewrite !(proj2 (Z.ltb_ge _ _)) by lia. simpl orb. cbv iota.
  set (index' := (layout 0 0 (l ++ [r])).1.2).
  apply runs_bind. apply (runs_mono _ _ (fun _ s' => s' = (mkStream path (length (data l)) n (Z.of_nat (length l))
     (Z.of_nat (length (data l))) index' (foldl Bloom.Add (New sizing n) (Key <$> l))
     (default [] (Key <$> head l)) (default [] (Key <$> last l)) (default [] (Key <$> last l)) false, w))
     _ (fun _ => False) _ (fun _ => False)); [|intros [] s' ->|done|done].
  { unfold index'. rewrite layout_index_snoc. simpl Nat.add. rewrite Z.add_0_l.
    replace (Z.of_nat (length l) mod Z.of_nat indexStep =? 0) with ((length l mod indexStep =? 0)%nat).
    2:{ rewrite <- Nat2Z.inj_mod. destruct (Nat.eqb_spec (length l mod indexStep) 0) as [->|]; [done|].
        symmetry. apply Z.eqb_neq. lia. }
    destruct (_ =? 0)%nat; [done|]. by rewrite app_nil_r. }
  apply runs_bind. eapply sw_write_run; [exact Hfile|done|..]; simpl.
  2-3: intros [? ?]; simpl; auto.
  intros w' E Hs. apply runs_modify. cbn [fst snd sw_path sw_pos sw_expected sw_written sw_dataOffset
    sw_index sw_bloom sw_minKey sw_maxKey sw_lastKey sw_closed]. split; [|done]. split; simpl.
  - by rewrite E, lookup_insert_eq, data_app, data_cons, app_nil_r.
  - rewrite last_snoc, fmap_app, foldl_app. simpl.
    rewrite data_app, data_cons. simpl. rewrite app_nil_r, !length_app, <- length_encode_record.
    f_equal; try (simpl; lia). by destruct l.
Qed.

(** NewStreamWriter, Add of every record, Finish. *)
Definition stream_all (path : bytes) (n : Z) (l : list Rec) : M World unit := fun w =>
  match NewStreamWriter path n w with
  | (Ok sw, w1) => let '(r, (_, w2)) := (mfold Add_ l ;; Finish) (sw, w1) in (r, w2)
  | (Err e, w1) => (Err e, w1)
  | (Panic, w1) => (Panic, w1)
  | (Crash, w1) => (Crash, w1)
  end.

Lemma Finish_run path l s :
  streaming path (Z.of_nat (length l)) l s ->
  runs Finish s
    (fun _ s' => files s'.2 = <[path := table_bytes l]> (files s.2) /\ sw_closed s'.1 = true /\ since [path] s.2 s'.2)
    (fun s' => since [path] s.2 s'.2 /\ can_fail s.2)
    (fun s' => only [path] s.2 s'.2 /\ can_crash s.2).
Proof.
  destruct s as [sw w]. intros [Hfile Hsw]. simpl in Hfile, Hsw. subst sw. unfold Finish.
  apply runs_bind, runs_gets. cbn [fst sw_closed sw_written sw_expected sw_dataOffset sw_minKey sw_maxKey sw_bloom sw_index].
  rewrite Z.eqb_refl. simpl negb. cbv iota. set (chunks := tail_chunks _ _ _ _ _ _).
  assert (table_bytes l = data l ++ concat chunks) as Ht.
  { unfold table_bytes, write_chunks. pose proof (layout_bufs 0 0 l) as Lb. pose proof (layout_end 0 0 l) as Le.
    subst chunks. destruct (layout 0 0 l) as [[bufs index] e]. simpl in Lb, Le |- *. subst. by rewrite concat_app. }
  apply runs_bind. eapply runs_mono; [apply (runs_mfold _ (fun dn todo s' => files s'.2 = <[path := data l ++ concat dn]> (files w) /\
    sw_path s'.1 = path /\ sw_pos s'.1 = length (data l ++ concat dn) /\ since [path] w s'.2) chunks _
    (fun s' => since [path] w s'.2 /\ can_fail w) (fun s' => only [path] w s'.2 /\ can_crash w))|..]; try done.
  - simpl. rewrite app_nil_r, insert_id by done. split_and!; try done.
  - intros dn x todo [sw w'] (E & <- & Hp & Hs). simpl in *.
    eapply sw_write_run; [by rewrite E, lookup_insert_eq|done|..].
    + intros w'' E' Hs'. simpl. rewrite concat_app. simpl. rewrite app_nil_r, app_assoc.
      split_and!; [|done|done|by etrans]. by rewrite E', E, insert_insert_eq.
    + intros s' Hs' Hc. split; [by etrans|]. destruct Hs. eauto with lsm.
    + intros s' Ho Hc. destruct Hs. split; [by etrans|eauto with lsm].
  - intros [] [sw w'] (E & Hp & _ & Hs). simpl in *. rewrite <- Ht in E.
    apply runs_bind, runs_zoom. simpl. destruct Hs as [Hf Ho]. apply sys_run; simpl.
    2: intros w2 Hf2 Hc E2; split; [split; [by etrans|etrans; eauto with lsm]|eauto with lsm].
    2: intros w2 Hc E2; split; [etrans; eauto with lsm|eauto with lsm].
    intros w2 Hf2 E2. apply runs_bind, runs_modify, runs_zoom. simpl. apply sys_run; simpl.
    + intros w3 Hf3 E3. rewrite E3, E2. split_and!; [done|done|].
      split; [etrans; [exact Hf|by etrans]|]. transitivity w2; [transitivity w'|]; eauto with lsm.
    + intros w3 Hf3 Hc E3. split; [split|eauto using can_fail_follows].
      * etrans; [exact Hf|by etrans].
      * transitivity w2; [transitivity w'|]; eauto with lsm.
    + intros w3 Hc E3. split; [|eauto using can_crash_follows]. transitivity w2; [transitivity w'|]; eauto with lsm.
Qed.

Lemma NewStreamWriter_run path n w :
  0 < n < 2 ^ 63 ->
  touches [path] w (NewStreamWriter path n) w (fun sw w' => streaming path n [] (sw, w')).
Proof.
  intros Hn. unfold NewStreamWriter.
  rewrite (proj2 (Z.leb_gt _ _)), (proj2 (Z.ltb_ge _ _)) by lia.
  apply touches_bind, touches_os_Create; [done|left|]. intros w' E Hs _. apply touches_ret; [done|].
  split; simpl; [|done]. by rewrite E, lookup_insert_eq.
Qed.

Lemma adds_run path n l s :
  streaming path n [] s -> Z.of_nat (length l) <= n -> key_sorted Key l -> Forall rec_ok l ->
  Forall (fun r => Key r <> []) l ->
  runs (mfold Add_ l) s
    (fun _ s' => streaming path n l s' /\ since [path] s.2 s'.2)
    (fun s' => since [path] s.2 s'.2 /\ can_fail s.2)
    (fun s' => only [path] s.2 s'.2 /\ can_crash s.2).
Proof.
  intros Hst Hn Hs Hok Hne. eapply runs_mono.
  - apply (runs_mfold Add_ (fun dn todo s' => dn ++ todo = l /\ streaming path n dn s' /\ since [path] s.2 s'.2) l s
      (fun s' => since [path] s.2 s'.2 /\ can_fail s.2) (fun s' => only [path] s.2 s'.2 /\ can_crash s.2)).
    + done.
    + intros dn x todo s' (<- & Hst' & Hs'). rewrite length_app in Hn. simpl in Hn.
      apply Forall_app in Hok as [_ Hok]. apply Forall_app in Hne as [_ Hne]. inv Hok. inv Hne.
      apply key_sorted_app in Hs as (_ & _ & Hlt).
      eapply runs_mono; [apply (Add_run path n dn x s' Hst'); try done; try lia|..].
      * intros y (l' & ->)%last_Some. apply Hlt; [set_solver|left].
      * intros [] s'' (Hst'' & Hs''). rewrite <- app_assoc. split_and!; [done|done|by etrans].
      * intros s'' (Hs'' & Hc). split; [by etrans|]. destruct Hs'. eauto with lsm.
      * intros s'' (Ho & Hc). destruct Hs'. split; [by etrans|eauto with lsm].
  - intros [] s' (_ & ? & ?). done.
  - done.
  - done.
Qed.

End writing.

(** ** Properties of the component *)

Section properties.
Context `{BloomSizing}.

(** C35: Writing records sorted by key and opening the file gives a reader whose
    Get returns, for every key, exactly the record with that key, and reports
    absence for all others; whatever the calls do, no other file changes. *)
Theorem write_open_get name l w :
  fits l ->
  touches [name] w (Write name l ;; Open name) w (fun r _ =>
    forall key, (Get r key).2 = Ok (found (newest key l))).
Proof.
  intros Hl. apply touches_bind. eapply touches_call; [done|by apply Write_touches, fits_nonempty|done|].
  intros [] w' Hs E Hs'. eapply touches_call; [done|apply (Open_touches name l)|set_solver|].
  - done.
  - by rewrite E, lookup_insert_eq.
  - intros r w'' _ (_ & Hr & _) key. by apply reads_Get.
Qed.

(** Scan of a written table returns the records whose key is in the closed
    range, in key order, and LoadAll returns all records. *)
Theorem written_scan name l :
  fits l ->
  exists r, open_content name (table_bytes l) = Ok r /\ LoadAll r = Ok l /\
    forall from to, Scan r from to = Ok (filter (in_range from to) l).
Proof.
  intros Hl. destruct (open_table name l Hl) as (r & Hr & Hrd & _).
  exists r. split; [done|]. split; [by apply reads_LoadAll|]. intros. by apply reads_Scan.
Qed.

(** The streaming writer, given as many records as announced, in strictly
    increasing key order, leaves the same bytes Write leaves for them. *)
Theorem stream_writer_same_file path l w :
  fits l -> Forall (fun r => Key r <> []) l ->
  touches [path] w (stream_all path (Z.of_nat (length l)) l) w
    (fun _ w' => files w' = <[path := table_bytes l]> (files w)).
Proof.
  intros [Hne Hs Hok Hsz] Hk. pose proof (length_data_ge l).
  assert (0 < Z.of_nat (length l) < 2 ^ 63) as Hn by (destruct l; [done|]; simpl in *; lia).
  pose proof (NewStreamWriter_run path (Z.of_nat (length l)) w Hn) as Hnew.
  unfold touches, runs, stream_all in *. destruct (NewStreamWriter _ _ w) as [[sw|e| |] w1]; try done.
  destruct Hnew as [[Hf1 Ho1] Hst].
  assert (runs (mfold Add_ l ;; Finish) (sw, w1)
    (fun _ s' => files s'.2 = <[path := table_bytes l]> (files w) /\ since [path] w s'.2)
    (fun s' => since [path] w s'.2 /\ can_fail w) (fun s' => only [path] w s'.2 /\ can_crash w)) as Hr.
  { apply runs_bind. eapply runs_mono; [apply (adds_run _ _ l _ Hst); done || lia|..]; simpl.
    - intros [] s' [Hst' [Hf2 Ho2]]. eapply runs_mono; [by apply Finish_run|..].
      + intros _ s'' (E & _ & Hs''). split.
        * rewrite E. apply map_eq. intros n. destruct (decide (n = path)) as [->|Hn'].
          { by rewrite !lookup_insert_eq. }
          rewrite !lookup_insert_ne by done. rewrite Ho2, Ho1 by set_solver. done.
        * transitivity s'.2; [|done]. split; by etrans.
      + intros s'' (Hs'' & Hc). split; [|eauto using can_fail_follows]. transitivity s'.2; [|done]. split; by etrans.
      + intros s'' (Ho & Hc). split; [|eauto using can_crash_follows]. transitivity s'.2; [|done]. by etrans.
    - intros s' ([? ?] & ?). split; [split; by etrans|eauto with lsm].
    - intros s' (? & ?). split; [by etrans|eauto with lsm]. }
  unfold runs in Hr. destruct ((mfold Add_ l ;; Finish) (sw, w1)) as [[u|e| |] [sw' w2]]; simpl in *; naive_solver.
Qed.

End properties.

(** A sizing with the properties assumed: about 9.6 bits per key, 7 hashes. *)
Definition demo_sizing : BloomSizing.
Proof. refine {| sizing := fun n => (9586 * n / 1000 + 1, 7) |}. intros n Hn. cbn [fst].
  pose proof (Z.div_mod (9586 * n) 1000 ltac:(done)). pose proof (Z.mod_pos_bound (9586 * n) 1000 ltac:(done)). lia.
Defined.

Definition demo_records : list Rec :=
  [mkRec (str "ant") (str "1") 3 0; mkRec (str "bee") [] 4 1; mkRec (str "cat") (str "22") 1 0].

Lemma demo_fits : fits demo_records.
Proof.
  split; [done| | |vm_compute; reflexivity].
  - repeat constructor.
  - repeat constructor; vm_compute; congruence.
Qed.

Lemma write_open_get_witness :
  touches [str "t"] (mkWorld ∅ []) (@Write demo_sizing (str "t") demo_records ;; Open (str "t")) (mkWorld ∅ [])
    (fun r _ => forall key, (Get r key).2 = Ok (found (newest key demo_records))).
Proof. exact (@write_open_get demo_sizing (str "t") demo_records (mkWorld ∅ []) demo_fits). Defined.

Lemma stream_writer_same_file_witness :
  touches [str "t"] (mkWorld ∅ []) (@stream_all demo_sizing (str "t") (Z.of_nat (length demo_records)) demo_records) (mkWorld ∅ [])
    (fun _ w' => files w' = <[str "t" := @table_bytes demo_sizing demo_records]> (files (mkWorld ∅ []))).
Proof.
  refine (@stream_writer_same_file demo_sizing (str "t") demo_records (mkWorld ∅ []) demo_fits _).
  repeat constructor; discriminate.
Defined.

End Sstable.
