(* ===== verification/Heap.v ===== *)
(** * container/heap: the binary heap the merges use

    The Go library's heap on a slice, as its source does it: Push appends and sifts
    up, Pop swaps the root with the last element, sifts down and cuts it off. The
    order is a parameter [less] with the laws container/heap documents (a strict
    weak order). Shown: both keep the heap order, neither loses or invents an
    element, and Pop returns an element no other is below. *)

From S2P Require Import Prelude GoStd.

Module Heap.

Section heap.
Context {A : Type} `{!Inhabited A} (less : A -> A -> bool).

Definition swap (i j : nat) (l : list A) : list A := <[i := l !!! j]> (<[j := l !!! i]> l).

Definition parent (j : nat) : nat := ((j - 1) / 2)%nat.

Fixpoint up (fuel : nat) (l : list A) (j : nat) : list A :=
  match fuel with
  | O => l
  | S fuel' =>
      let i := parent j in
      if (i =? j)%nat || negb (less (l !!! j) (l !!! i)) then l
      else up fuel' (swap i j l) i
  end.

Definition Push (l : list A) (x : A) : list A := up (length l) (l ++ [x]) (length l).

Fixpoint down (fuel : nat) (l : list A) (i n : nat) : list A :=
  match fuel with
  | O => l
  | S fuel' =>
      let j1 := (2 * i + 1)%nat in
      if (n <=? j1)%nat then l else
      let j2 := (j1 + 1)%nat in
      let j := if (j2 <? n)%nat && less (l !!! j2) (l !!! j1) then j2 else j1 in
      if negb (less (l !!! j) (l !!! i)) then l
      else down fuel' (swap i j l) j n
  end.

(** Pop of a non-empty heap; the callers test Len first. *)
Definition Pop (l : list A) : option (A * list A) :=
  match l with
  | [] => None
  | _ :: _ =>
      let n := pred (length l) in
      let l' := down (length l) (swap 0 n l) 0 n in
      Some (l' !!! n, take n l')
  end.

(** ** Laws of the order *)

Definition le (x y : A) : Prop := less y x = false.

Context (less_asym : forall x y, less x y = true -> le x y)
        (le_trans : forall x y z, le x y -> le y z -> le x z).

Lemma le_refl x : le x x.
Proof. unfold le. destruct (less x x) eqn:E; [|done]. apply less_asym in E as E'. unfold le in E'. congruence. Qed.

Lemma parent_lt j : (0 < j)%nat -> (parent j < j)%nat.
Proof. intros. unfold parent. apply Nat.Div0.div_lt_upper_bound. lia. Qed.

Lemma parent_spec i j : (0 < j)%nat -> parent j = i <-> j = (2 * i + 1)%nat \/ j = (2 * i + 2)%nat.
Proof.
  intros Hj. unfold parent.
  pose proof (Nat.div_mod (j - 1) 2 ltac:(lia)). pose proof (Nat.mod_upper_bound (j - 1) 2 ltac:(lia)). lia.
Qed.

(** ** Swapping *)

Lemma length_swap i j l : length (swap i j l) = length l.
Proof. unfold swap. by rewrite !length_insert. Qed.

Lemma lookup_swap i j l k :
  (i < length l)%nat -> (j < length l)%nat ->
  swap i j l !!! k = if decide (k = i) then l !!! j else if decide (k = j) then l !!! i else l !!! k.
Proof.
  intros Hi Hj. unfold swap. destruct (decide (k = i)) as [->|].
  - by rewrite list_lookup_total_insert_eq by (by rewrite length_insert).
  - rewrite list_lookup_total_insert_ne by done. destruct (decide (k = j)) as [->|].
    + by rewrite list_lookup_total_insert_eq.
    + by rewrite list_lookup_total_insert_ne.
Qed.

Lemma swap_Permutation i j l : (i < length l)%nat -> (j < length l)%nat -> swap i j l ≡ₚ l.
Proof.
  intros Hi Hj. destruct (lookup_lt_is_Some_2 l i Hi) as [x Hx], (lookup_lt_is_Some_2 l j Hj) as [y Hy].
  unfold swap. rewrite (list_lookup_total_correct l i x Hx), (list_lookup_total_correct l j y Hy).
  by apply Permutation_insert_swap.
Qed.

(** ** The heap order *)

(** No element is below its parent, for the first n positions. *)
Definition ordered (n : nat) (l : list A) : Prop :=
  forall k, (0 < k < n)%nat -> le (l !!! parent k) (l !!! k).

(** The order except between j and its parent, where the children of j are
    already above that parent: the state of the loop of [up]. *)
Definition up_inv (l : list A) (j : nat) : Prop :=
  (forall k, (0 < k < length l)%nat -> k <> j -> le (l !!! parent k) (l !!! k)) /\
  (forall c, (0 < c < length l)%nat -> parent c = j -> (0 < j)%nat -> le (l !!! parent j) (l !!! c)).

Lemma up_step l j :
  up_inv l j -> (0 < j < length l)%nat -> less (l !!! j) (l !!! parent j) = true ->
  up_inv (swap (parent j) j l) (parent j).
Proof.
  intros [H1 H2] Hj Hless. pose proof (parent_lt j ltac:(lia)) as Hp. apply less_asym in Hless as Hle.
  split; rewrite length_swap.
  - intros k Hk Hne. pose proof (parent_lt k ltac:(lia)). rewrite !lookup_swap by lia.
    rewrite (decide_False (P := k = parent j)) by done.
    destruct (decide (k = j)) as [->|Hkj]; [by rewrite decide_True|].
    destruct (decide (parent k = parent j)) as [E|_].
    { eapply le_trans; [exact Hle|]. rewrite <- E. by apply H1. }
    destruct (decide (parent k = j)) as [E|_]; [|by apply H1].
    apply H2; [lia|done|lia].
  - intros c Hc Hpc Hi. pose proof (parent_lt (parent j) Hi). pose proof (parent_lt c ltac:(lia)).
    rewrite !lookup_swap by lia. rewrite (decide_False (P := parent (parent j) = parent j)) by lia.
    rewrite (decide_False (P := parent (parent j) = j)) by lia. rewrite decide_False by lia.
    destruct (decide (c = j)) as [->|]; [apply H1; lia|].
    eapply le_trans; [apply (H1 (parent j)); lia|]. rewrite <- Hpc. apply H1; [lia|done].
Qed.

Lemma up_spec fuel l j :
  up_inv l j -> (j < length l)%nat -> (j <= fuel)%nat ->
  ordered (length l) (up fuel l j) /\ up fuel l j ≡ₚ l.
Proof.
  revert l j. induction fuel as [|fuel IH]; intros l j Hinv Hj Hf; cbn [up].
  { split; [|done]. intros k Hk. apply Hinv; lia. }
  destruct (Nat.eqb_spec (parent j) j) as [E|E]; simpl.
  { assert (j = 0%nat) by (destruct j; [done|]; pose proof (parent_lt (S j) ltac:(lia)); lia). subst j.
    split; [|done]. intros k Hk. apply Hinv; lia. }
  assert (0 < j)%nat by (destruct j; [done|lia]). pose proof (parent_lt j ltac:(lia)).
  destruct (less (l !!! j) (l !!! parent j)) eqn:El; simpl.
  - destruct (IH (swap (parent j) j l) (parent j)) as [Ho Hp].
    + by apply up_step.
    + rewrite length_swap. lia.
    + lia.
    + rewrite length_swap in Ho. split; [done|]. by rewrite Hp, swap_Permutation by lia.
  - split; [|done]. intros k Hk. destruct (decide (k = j)) as [->|]; [done|]. by apply Hinv.
Qed.

Lemma Push_ordered l x : ordered (length l) l -> ordered (length (Push l x)) (Push l x).
Proof.
  intros Ho. destruct (up_spec (length l) (l ++ [x]) (length l)) as [H1 H2].
  - split.
    + intros k Hk Hne. rewrite length_app in Hk. simpl in Hk. pose proof (parent_lt k ltac:(lia)).
      rewrite !lookup_total_app_l by lia. apply Ho. lia.
    + intros c Hc Hpc. rewrite length_app in Hc. simpl in Hc. pose proof (parent_lt c ltac:(lia)). lia.
  - rewrite length_app. simpl. lia.
  - lia.
  - unfold Push. by rewrite (Permutation_length H2).
Qed.

Lemma Push_Permutation l x : ordered (length l) l -> Push l x ≡ₚ x :: l.
Proof.
  intros Ho. destruct (up_spec (length l) (l ++ [x]) (length l)) as [H1 H2].
  - split.
    + intros k Hk Hne. rewrite length_app in Hk. simpl in Hk. pose proof (parent_lt k ltac:(lia)).
      rewrite !lookup_total_app_l by lia. apply Ho. lia.
    + intros c Hc Hpc. rewrite length_app in Hc. simpl in Hc. pose proof (parent_lt c ltac:(lia)). lia.
  - rewrite length_app. simpl. lia.
  - lia.
  - unfold Push. rewrite H2. by rewrite Permutation_app_comm.
Qed.

(** The order except between i and its children, which are above the parent of
    i: the state of the loop of [down]. *)
Definition down_inv (n : nat) (l : list A) (i : nat) : Prop :=
  (forall k, (0 < k < n)%nat -> parent k <> i -> le (l !!! parent k) (l !!! k)) /\
  (forall c, (0 < c < n)%nat -> parent c = i -> (0 < i)%nat -> le (l !!! parent i) (l !!! c)).

Lemma down_step n l i j :
  down_inv n l i -> (n <= length l)%nat -> (0 < j < n)%nat -> parent j = i ->
  (forall c, (0 < c < n)%nat -> parent c = i -> le (l !!! j) (l !!! c)) ->
  less (l !!! j) (l !!! i) = true -> down_inv n (swap i j l) j.
Proof.
  intros [H1 H2] Hn Hj Hpj Hmin Hless. apply less_asym in Hless as Hle.
  pose proof (parent_lt j ltac:(lia)). split.
  - intros k Hk Hne. pose proof (parent_lt k ltac:(lia)). rewrite !lookup_swap by lia.
    rewrite (decide_False (P := parent k = j)) by done.
    destruct (decide (parent k = i)) as [E|E].
    { rewrite decide_False by lia. destruct (decide (k = j)) as [->|]; [done|]. by apply Hmin. }
    destruct (decide (k = i)) as [->|]; [apply H2; [lia|done|lia]|].
    rewrite decide_False by congruence. by apply H1.
  - intros c Hc Hpc Hj0. pose proof (parent_lt c ltac:(lia)). rewrite !lookup_swap by lia.
    rewrite (decide_True (P := parent j = i)) by done. rewrite !decide_False by lia.
    rewrite <- Hpc at 1. apply H1; lia.
Qed.

Lemma down_spec fuel n l i :
  down_inv n l i -> (n <= length l)%nat -> (i < n \/ n = 0)%nat -> (n <= fuel + i)%nat ->
  ordered n (down fuel l i n) /\ down fuel l i n ≡ₚ l /\
  (forall k, (n <= k)%nat -> down fuel l i n !!! k = l !!! k).
Proof.
  revert l i. induction fuel as [|fuel IH]; intros l i Hinv Hn Hi Hf; cbn [down].
  { split_and!; [|done|done]. intros k Hk. lia. }
  destruct (Nat.leb_spec n (2 * i + 1)) as [Hlf|Hlf].
  { split_and!; [|done|done]. intros k Hk. apply Hinv; [done|].
    intros E. apply parent_spec in E; lia. }
  set (j := if _ && _ then _ else _).
  assert ((0 < j < n)%nat /\ parent j = i /\ (i < j)%nat) as (Hj & Hpj & Hij).
  { unfold j. destruct (Nat.ltb_spec (2 * i + 1 + 1) n); cbn [andb]; [destruct (less _ _)|];
      (split; [lia|]; split; [apply parent_spec; lia|lia]). }
  assert (forall c, (0 < c < n)%nat -> parent c = i -> le (l !!! j) (l !!! c)) as Hmin.
  { intros c Hc Hpc. apply parent_spec in Hpc; [|lia]. unfold j.
    destruct (Nat.ltb_spec (2 * i + 1 + 1) n); cbn [andb].
    - destruct (less (l !!! (2 * i + 1 + 1)%nat) (l !!! (2 * i + 1)%nat)) eqn:E;
        destruct Hpc as [->| ->]; replace (2 * i + 2)%nat with (2 * i + 1 + 1)%nat by lia;
        first [apply le_refl|exact E|by apply less_asym].
    - destruct Hpc as [->| ->]; [apply le_refl|lia]. }
  clearbody j. destruct (less (l !!! j) (l !!! i)) eqn:El; simpl negb; cbv iota.
  - destruct (IH (swap i j l) j) as (Ho & Hp & Hk).
    + by apply down_step.
    + by rewrite length_swap.
    + lia.
    + lia.
    + split_and!; [done|by rewrite Hp, swap_Permutation by lia|].
      intros k Hle. rewrite Hk, lookup_swap by lia. rewrite !decide_False by lia. done.
  - split_and!; [|done|done]. intros k Hk. destruct (decide (parent k = i)) as [E|E]; [|by apply Hinv].
    rewrite E. eapply le_trans; [exact El|]. by apply Hmin.
Qed.

Lemma ordered_root n l k : ordered n l -> (k < n)%nat -> le (l !!! 0%nat) (l !!! k).
Proof.
  intros Ho. induction k as [k IH] using lt_wf_ind. intros Hk. destruct k as [|k]; [apply le_refl|].
  pose proof (parent_lt (S k) ltac:(lia)). eapply le_trans; [apply (IH (parent (S k))); lia|]. apply Ho. lia.
Qed.

(** Pop removes a least element. *)
Lemma Pop_spec l :
  ordered (length l) l -> l <> [] ->
  exists x l', Pop l = Some (x, l') /\ l ≡ₚ x :: l' /\ ordered (length l') l' /\ (forall y, y ∈ l -> le x y).
Proof.
  intros Ho Hne. destruct l as [|x0 l0] eqn:El; [done|]. rewrite <- El in *. unfold Pop.
  assert (length l = S (length l0)) as Hlen by (by rewrite El).
  replace (match l with [] => _ | _ => _ end) with
    (let n := pred (length l) in let l' := down (length l) (swap 0 n l) 0 n in Some (l' !!! n, take n l'))
    by (by rewrite El).
  set (n := pred (length l)). assert (n < length l)%nat by (unfold n; lia).
  destruct (down_spec (length l) n (swap 0 n l) 0) as (Hd & Hp & Hk).
  - split; [|lia]. intros k Hk Hpk. pose proof (parent_lt k ltac:(lia)).
    rewrite !lookup_swap by lia. rewrite !decide_False by lia. apply Ho. lia.
  - rewrite length_swap. lia.
  - lia.
  - lia.
  - cbv zeta. set (l' := down _ _ _ _) in *. exists (l !!! 0%nat), (take n l').
    assert (length l' = length l) as Hl' by (by rewrite (Permutation_length Hp), length_swap).
    assert (l' !!! n = l !!! 0%nat) as Hx.
    { rewrite Hk, lookup_swap by lia. destruct (decide (n = 0%nat)) as [->|]; [done|]. by rewrite decide_True. }
    rewrite Hx. split; [done|]. split_and!.
    + rewrite <- (swap_Permutation 0 n l) at 1 by lia. rewrite <- Hp. rewrite <- (take_drop n l') at 1.
      assert (drop n l' = [l !!! 0%nat]) as ->; [|by rewrite Permutation_app_comm].
      destruct (lookup_lt_is_Some_2 l' n ltac:(lia)) as [y Hy]. rewrite (drop_S _ y) by done.
      rewrite (list_lookup_total_correct _ _ _ Hy) in Hx. by rewrite Hx, drop_ge by lia.
    + rewrite length_take. intros k Hk'. pose proof (parent_lt k ltac:(lia)).
      rewrite !lookup_total_take_lt by lia. apply Hd. lia.
    + intros y (k & Hy)%list_elem_of_lookup. rewrite <- (list_lookup_total_correct _ _ _ Hy).
      apply (ordered_root (length l)); [done|]. by apply lookup_lt_Some in Hy.
Qed.

End heap.
End Heap.
