(* ===== verification/Compact.v ===== *)
(** * internal/compact: the k-way merge of tables

    [Compact] of compactor.go loads every input table, merges them through a heap
    ordered by key and then by descending sequence number, keeps the first record
    of each key, drops tombstones at the bottom level and writes the result.
    db/replica_snapshot.go merges the same way from iterators, so the loop is
    stated over an interface, [RecordQueue]: what a queue of record sources
    promises to the merge. The heap of [Compact] is an instance. *)

From S2P Require Import Prelude GoStd Fs Memtable Heap Sstable.

(** ** The interface of the merge loop *)

(** [r] is popped before [r']: smaller key, or the same key and not older. *)
Definition before (r r' : Rec) : Prop :=
  key_lt (Key r) (Key r') \/ (Key r = Key r' /\ SeqNum r' <= SeqNum r).

Class RecordQueue (S : Type) := {
  (** the record at the root of the heap *)
  q_peek : S -> option Rec;
  (** pop the root and push the next record of its source *)
  q_pop : S -> res (Rec * S);
  (** the records still to come, and the invariant *)
  q_pool : S -> list Rec;
  q_inv : S -> Prop;
  q_peek_law : forall s, q_inv s ->
    match q_peek s with
    | None => q_pool s = []
    | Some r => r ∈ q_pool s /\ forall r', r' ∈ q_pool s -> before r r'
    end;
  q_pop_law : forall s, q_inv s -> q_pool s <> [] ->
    exists r s', q_pop s = Ok (r, s') /\ q_inv s' /\ q_pool s ≡ₚ r :: q_pool s' /\
      forall r', r' ∈ q_pool s -> before r r'
}.

Fixpoint foldM {A B} (f : A -> B -> res A) (acc : A) (l : list B) : res A :=
  match l with
  | [] => Ok acc
  | x :: l' => acc' ← f acc x; foldM f acc' l'
  end.

Section merge.
Context {Q : Type} `{!RecordQueue Q}.

(** While the root of the heap has the winner's key: pop it and advance its source. *)
Fixpoint drain (fuel : nat) (key : bytes) (s : Q) : res Q :=
  match fuel with
  | O => Ok s
  | S fuel' =>
      match q_peek s with
      | Some r =>
          if key_eqb (Key r) key then rs ← q_pop s; drain fuel' key rs.2
          else Ok s
      | None => Ok s
      end
  end.

(** The outer loop: [keep] decides whether the winner is visited. *)
Fixpoint merge {A} (keep : Rec -> bool) (visit : A -> Rec -> res A) (fuel : nat) (s : Q) (acc : A) : res A :=
  match fuel with
  | O => Ok acc
  | S fuel' =>
      match q_peek s with
      | None => Ok acc
      | Some _ =>
          ws ← q_pop s;
          s2 ← drain fuel (Key ws.1) ws.2;
          acc' ← (if keep ws.1 then visit acc ws.1 else Ok acc);
          merge keep visit fuel' s2 acc'
      end
  end.

(** What the merge selects from a pool of records. *)
Record winners (pool out : list Rec) : Prop := mkWinners {
  win_sorted : key_sorted Key out;
  win_newest : forall r, r ∈ out -> r ∈ pool /\ forall r', r' ∈ pool -> Key r' = Key r -> SeqNum r' <= SeqNum r;
  win_all : forall r', r' ∈ pool -> exists r, r ∈ out /\ Key r = Key r'
}.

(** Two records of a pool with the same key and sequence number are the same. *)
Definition seq_unique (pool : list Rec) : Prop :=
  forall r r', r ∈ pool -> r' ∈ pool -> Key r = Key r' -> SeqNum r = SeqNum r' -> r = r'.

Lemma winners_newest pool out k : winners pool out -> seq_unique pool -> newest k out = newest k pool.
Proof.
  intros [Hs Hn Ha] Hu. destruct (newest k pool) as [r|] eqn:E.
  - apply newest_Some in E as (Hr & <- & Hmax). destruct (Ha r Hr) as (r' & Hr' & Ek).
    destruct (Hn r' Hr') as [Hp Hmax']. assert (r' = r) as ->.
    { apply Hu; [done..|]. specialize (Hmax r' Hp Ek). specialize (Hmax' r Hr (eq_sym Ek)). lia. }
    by apply newest_sorted.
  - apply newest_from_None in E as [_ E]. apply newest_from_None. split; [done|].
    intros r Hr. apply E. by apply Hn.
Qed.

Lemma winners_unique pool out out' : seq_unique pool -> winners pool out -> winners pool out' -> out = out'.
Proof.
  intros Hu Hw Hw'. apply (key_sorted_ext Key); [apply Hw|apply Hw'|]. intros r.
  pose proof (winners_newest pool out (Key r) Hw Hu) as E. rewrite <- (winners_newest pool out' (Key r) Hw' Hu) in E.
  pose proof (newest_sorted (Key r) out r (win_sorted _ _ Hw)) as H1.
  pose proof (newest_sorted (Key r) out' r (win_sorted _ _ Hw')) as H2. rewrite E in H1. tauto.
Qed.

Lemma winners_Permutation pool pool' out : pool ≡ₚ pool' -> winners pool out -> winners pool' out.
Proof.
  intros Hp [Hs Hn Ha]. split; [done|..].
  - intros r Hr. destruct (Hn r Hr) as [H1 H2]. rewrite Hp in H1. split; [done|]. intros r' Hr'. apply H2. by rewrite Hp.
  - intros r Hr. apply Ha. by rewrite Hp.
Qed.

Lemma winners_submseteq pool out : winners pool out -> out ⊆+ pool.
Proof.
  intros [Hs Hn _]. apply NoDup_submseteq.
  - apply (NoDup_fmap_1 Key). by apply key_sorted_NoDup.
  - intros r Hr. by apply Hn.
Qed.

Lemma drain_spec fuel key s :
  q_inv s -> (forall r, r ∈ q_pool s -> key_le key (Key r)) -> (length (q_pool s) <= fuel)%nat ->
  exists s', drain fuel key s = Ok s' /\ q_inv s' /\ q_pool s' ≡ₚ filter (fun r => Key r <> key) (q_pool s).
Proof.
  revert s. induction fuel as [|fuel IH]; intros s Hi Hk Hf.
  { exists s. split; [done|]. split; [done|]. destruct (q_pool s); [done|]. simpl in Hf. lia. }
  cbn [drain]. pose proof (q_peek_law s Hi) as Hp. destruct (q_peek s) as [r|].
  2:{ exists s. rewrite Hp. done. }
  destruct Hp as [Hr Hmin]. destruct (key_eqb (Key r) key) eqn:E; key_bools.
  - destruct (q_pop_law s Hi) as (r1 & s1 & -> & Hi1 & Hpool & Hmin1); [by destruct (q_pool s); [apply not_elem_of_nil in Hr|]|].
    rewrite bind_ok. simpl snd.
    assert (Key r1 = key) as Hk1.
    { specialize (Hmin1 r Hr). assert (r1 ∈ q_pool s) as Hr1 by (rewrite Hpool; left).
      specialize (Hk r1 Hr1). destruct Hmin1 as [|[]]; [subst key; key_order|congruence]. }
    destruct (IH s1) as (s' & Hs' & Hi' & Hpool').
    + done.
    + intros x Hx. apply Hk. rewrite Hpool. by right.
    + rewrite Hpool in Hf. simpl in Hf. lia.
    + exists s'. split; [done|]. split; [done|]. rewrite Hpool', Hpool, filter_cons.
      by rewrite decide_False by (intros H; congruence).
  - exists s. split; [done|]. split; [done|]. rewrite filter_all; [done|].
    intros x Hx Ex. specialize (Hk r Hr). destruct (Hmin x Hx) as [Hlt|[? ?]]; [|congruence].
    rewrite Ex in Hlt. key_order.
Qed.

Lemma winners_cons r pool rest out :
  pool ≡ₚ r :: rest -> (forall r', r' ∈ pool -> before r r') ->
  winners (filter (fun x => Key x <> Key r) rest) out -> winners pool (r :: out).
Proof.
  intros Hp Hb [Hs Hn Ha]. assert (forall x, x ∈ out -> x ∈ pool /\ key_lt (Key r) (Key x)) as Hlt.
  { intros x (Hx & _)%Hn. apply list_elem_of_filter in Hx as [Hne Hx].
    assert (x ∈ pool) as Hxp by (rewrite Hp; by right). split; [done|].
    destruct (Hb x Hxp) as [?|[? ?]]; [done|congruence]. }
  split.
  - constructor; [done|]. apply Forall_forall. intros x Hx. by apply Hlt.
  - intros x [->|Hx]%elem_of_cons.
    + split; [rewrite Hp; left|]. intros x' Hx' E. destruct (Hb x' Hx') as [Hl|[]]; [|done].
      rewrite E in Hl. by apply key_lt_irrefl in Hl.
    + split; [by apply Hlt|]. intros x' Hx' E. destruct (Hlt x Hx) as [_ Hl].
      apply (Hn x Hx); [|done]. apply list_elem_of_filter. rewrite Hp in Hx'. apply elem_of_cons in Hx' as [->|Hx'].
      * rewrite E in Hl. by apply key_lt_irrefl in Hl.
      * split; [|done]. intros E'. rewrite <- E, E' in Hl. by apply key_lt_irrefl in Hl.
  - intros x Hx. destruct (decide (Key x = Key r)) as [E|E]; [exists r; split; [left|done]|].
    rewrite Hp in Hx. apply elem_of_cons in Hx as [->|Hx]; [done|].
    destruct (Ha x) as (y & Hy & Ey); [by apply list_elem_of_filter|]. exists y. split; [by right|done].
Qed.

(** The merge visits, in key order, the newest record of each key. *)
Lemma merge_spec {A} keep (visit : A -> Rec -> res A) fuel s acc :
  q_inv s -> (length (q_pool s) <= fuel)%nat ->
  exists out, winners (q_pool s) out /\ merge keep visit fuel s acc = foldM visit acc (filter (fun r => keep r = true) out).
Proof.
  revert s acc. induction fuel as [|fuel IH]; intros s acc Hi Hf.
  { exists []. split; [|done]. destruct (q_pool s); [|simpl in Hf; lia].
    split; [constructor|intros r []%not_elem_of_nil..]. }
  cbn [merge]. pose proof (q_peek_law s Hi) as Hp. destruct (q_peek s) as [r0|].
  2:{ exists []. split; [|done]. rewrite Hp. split; [constructor|intros r []%not_elem_of_nil..]. }
  destruct (q_pop_law s Hi) as (r & s1 & -> & Hi1 & Hpool & Hmin).
  { destruct Hp as [Hr _]. by destruct (q_pool s); [apply not_elem_of_nil in Hr|]. }
  assert (length (q_pool s1) <= fuel)%nat as Hf1 by (rewrite Hpool in Hf; simpl in Hf; lia).
  destruct (drain_spec (S fuel) (Key r) s1) as (s2 & Hd & Hi2 & Hpool2); [done| |lia|].
  { intros x Hx. destruct (Hmin x) as [?|[-> _]]; [rewrite Hpool; by right|key_order|apply key_le_lteq; auto]. }
  rewrite bind_ok. cbn [fst snd]. rewrite Hd, bind_ok.
  assert (length (q_pool s2) <= fuel)%nat by (rewrite Hpool2; etrans; [apply length_filter|done]).
  assert (forall acc', exists out, winners (q_pool s) (r :: out) /\
    merge keep visit fuel s2 acc' = foldM visit acc' (filter (fun r => keep r = true) out)) as Hrec.
  { intros acc'. destruct (IH s2 acc' Hi2) as (out & Hw & Hm); [done|]. exists out. split; [|done].
    eapply winners_cons; [done..|]. destruct Hw as [Hs Hn Ha]. split; [done|..].
    - intros x Hx. destruct (Hn x Hx) as [Hx1 Hx2]. rewrite Hpool2 in Hx1. split; [done|].
      intros y Hy. apply Hx2. by rewrite Hpool2.
    - intros x Hx. apply Ha. by rewrite Hpool2. }
  destruct (keep r) eqn:Ek.
  - destruct (visit acc r) as [acc'|e| |] eqn:Ev.
    + destruct (Hrec acc') as (out & Hw & Hm). exists (r :: out). split; [done|].
      rewrite filter_cons_True by done. rewrite bind_ok. cbn [foldM]. by rewrite Ev, bind_ok.
    + destruct (Hrec acc) as (out & Hw & Hm). exists (r :: out). split; [done|].
      rewrite filter_cons_True by done. cbn [foldM]. by rewrite Ev.
    + destruct (Hrec acc) as (out & Hw & Hm). exists (r :: out). split; [done|].
      rewrite filter_cons_True by done. cbn [foldM]. by rewrite Ev.
    + destruct (Hrec acc) as (out & Hw & Hm). exists (r :: out). split; [done|].
      rewrite filter_cons_True by done. cbn [foldM]. by rewrite Ev.
  - destruct (Hrec acc) as (out & Hw & Hm). exists (r :: out). split; [done|].
    rewrite filter_cons_False by congruence. by rewrite bind_ok.
Qed.
End merge.

(** ** The heap of record cursors *)

(** Less: smallest key first; for equal keys, highest sequence number first. *)
Definition rec_less (a b : Rec) : bool :=
  if negb (key_eqb (Key a) (Key b)) then key_ltb (Key a) (Key b) else SeqNum b <? SeqNum a.

Lemma rec_less_false a b : rec_less b a = false <-> before a b.
Proof.
  unfold rec_less, before. destruct (key_eqb (Key b) (Key a)) eqn:E; simpl; key_bools.
  - rewrite E, Z.ltb_ge. split; [auto|]. intros [H|[_ ?]]; [by apply key_lt_irrefl in H|lia].
  - split.
    + intros H. key_bools. left. destruct (key_total (Key a) (Key b)) as [?|[?|?]]; [done|congruence|key_order].
    + intros [H|[? _]]; [|congruence]. apply not_true_iff_false. intros ?. key_bools. key_order.
Qed.

Lemma before_trans a b c : before a b -> before b c -> before a c.
Proof.
  intros [H1|[E1 H1]] [H2|[E2 H2]]; unfold before.
  - left. key_order.
  - left. congruence.
  - left. congruence.
  - right. split; [congruence|lia].
Qed.

Lemma rec_less_asym a b : rec_less a b = true -> before a b.
Proof.
  unfold rec_less, before. destruct (key_eqb (Key a) (Key b)) eqn:E; simpl; key_bools.
  - rewrite Z.ltb_lt. intros ?. right. split; [done|lia].
  - intros H. key_bools. by left.
Qed.

Lemma sorted_head_before r l x : key_sorted Key (r :: l) -> x ∈ r :: l -> before r x.
Proof.
  intros Hs Hx. inv Hs. apply elem_of_cons in Hx as [->|Hx]; [right; split; [done|lia]|].
  rewrite Forall_forall in H2. left. by apply H2.
Qed.

(** A heap whose elements stand for sorted streams of records: what the root and
    a pop followed by a push of the rest of its stream give. *)
Section stream_heap.
Context {E : Type} `{!Inhabited E} (record : E -> Rec) (stream : E -> list Rec).

Definition stream_less (a b : E) : bool := rec_less (record a) (record b).

(** Every element's stream starts with its record and is sorted. *)
Definition stream_ok (e : E) : Prop := key_sorted Key (stream e) /\ head (stream e) = Some (record e).

Definition streams (h : list E) : list Rec := concat (stream <$> h).

Lemma elem_of_streams h r : r ∈ streams h <-> exists e, e ∈ h /\ r ∈ stream e.
Proof.
  unfold streams. rewrite list_elem_of_In, in_concat. split.
  - intros (l & Hl & Hr). apply list_elem_of_In, list_elem_of_fmap in Hl as (e & -> & He).
    exists e. split; [done|]. by apply list_elem_of_In.
  - intros (e & He & Hr). exists (stream e). rewrite <- !list_elem_of_In. split; [|done].
    apply list_elem_of_fmap. eauto.
Qed.

#[global] Instance streams_Permutation : Proper ((≡ₚ) ==> (≡ₚ)) streams.
Proof. intros h1 h2 H. unfold streams. by rewrite H. Qed.

Lemma stream_le_before a b : Heap.le stream_less a b <-> before (record a) (record b).
Proof. apply rec_less_false. Qed.

Lemma root_before h x :
  (forall e, e ∈ h -> stream_ok e) -> (forall e, e ∈ h -> Heap.le stream_less x e) ->
  forall r, r ∈ streams h -> before (record x) r.
Proof.
  intros Hok Hle r (e & He & Hr)%elem_of_streams. destruct (Hok e He) as [Hs Hh].
  eapply before_trans; [by apply stream_le_before, Hle|].
  destruct (stream e) as [|y l] eqn:El; [done|]. inv Hh. by eapply sorted_head_before.
Qed.

Lemma stream_head e : stream_ok e -> record e ∈ stream e.
Proof. intros [_ H]. destruct (stream e); inv H. left. Qed.

Lemma stream_less_asym a b : stream_less a b = true -> Heap.le stream_less a b.
Proof. intros H. apply stream_le_before. by apply rec_less_asym. Qed.

Lemma stream_le_trans a b c :
  Heap.le stream_less a b -> Heap.le stream_less b c -> Heap.le stream_less a c.
Proof. rewrite !stream_le_before. apply before_trans. Qed.

(** The heap order and well-formed streams. *)
Definition heap_ok (h : list E) : Prop :=
  Heap.ordered stream_less (length h) h /\ forall e, e ∈ h -> stream_ok e.

Lemma heap_peek h :
  heap_ok h ->
  match head h with
  | None => streams h = []
  | Some e => record e ∈ streams h /\ forall r, r ∈ streams h -> before (record e) r
  end.
Proof.
  intros [Ho Hok]. destruct h as [|e h]; [done|]. simpl head. split.
  - apply elem_of_streams. exists e. split; [left|]. apply stream_head, Hok. left.
  - apply root_before; [done|]. intros e' (k & Hk)%list_elem_of_lookup.
    pose proof (Heap.ordered_root stream_less stream_less_asym stream_le_trans _ _ k Ho) as Hr.
    rewrite (list_lookup_total_correct _ _ _ Hk) in Hr. apply Hr. by apply lookup_lt_Some in Hk.
Qed.

Lemma heap_push h e : heap_ok h -> stream_ok e -> heap_ok (Heap.Push stream_less h e) /\
  streams (Heap.Push stream_less h e) ≡ₚ stream e ++ streams h.
Proof.
  intros [Ho Hok] He. pose proof (Heap.Push_Permutation stream_less stream_less_asym stream_le_trans h e Ho) as Hp.
  split; [split|].
  - by apply Heap.Push_ordered; [apply stream_less_asym|apply stream_le_trans|].
  - intros x Hx. rewrite Hp in Hx. apply elem_of_cons in Hx as [->|Hx]; auto.
  - by rewrite Hp.
Qed.

(** Pop the root and push what follows it in its stream. *)
Lemma heap_pop h :
  heap_ok h -> streams h <> [] ->
  exists e h1, Heap.Pop stream_less h = Some (e, h1) /\ e ∈ h /\ heap_ok h1 /\
    streams h ≡ₚ stream e ++ streams h1 /\ (forall r, r ∈ streams h -> before (record e) r) /\
    (forall e', e' ∈ h1 -> e' ∈ h).
Proof.
  intros [Ho Hok] Hne.
  destruct (Heap.Pop_spec stream_less stream_less_asym stream_le_trans h Ho) as (e & h1 & Hpop & Hp & Ho1 & Hmin);
    [by intros ->|].
  assert (forall e', e' ∈ h1 -> e' ∈ h) as Hsub by (intros e' He'; rewrite Hp; by right).
  exists e, h1. split_and!; [done|rewrite Hp; left|split; auto|by rewrite Hp| |done].
  by apply root_before.
Qed.
End stream_heap.

(** ** Compact *)

Module Compact.
Import Sstable.

Record entry : Type := mkEntry { rec : Rec; srcIdx : nat; recIdx : nat }.

#[global] Instance entry_inhabited : Inhabited entry := populate (mkEntry zeroRec 0 0).

Definition entry_less : entry -> entry -> bool := stream_less rec.

(** Push the next record of source srcIdx, if there is one past recIdx. *)
Definition advanceCursor (h : list entry) (sources : list (list Rec)) (srcIdx recIdx : nat) : res (list entry) :=
  let next := S recIdx in
  match sources !! srcIdx with
  | None => Panic
  | Some src =>
      match src !! next with
      | Some r => Ok (Heap.Push entry_less h (mkEntry r srcIdx next))
      | None => Ok h
      end
  end.

Definition pop_advance (sources : list (list Rec)) (h : list entry) : res (Rec * list entry) :=
  match Heap.Pop entry_less h with
  | None => Panic
  | Some (top, h1) => h2 ← advanceCursor h1 sources (srcIdx top) (recIdx top); Ok (rec top, h2)
  end.

(** [for i, src := range sources { if len(src) > 0 { heap.Push(...) } }] *)
Fixpoint seed (i : nat) (sources : list (list Rec)) (h : list entry) : list entry :=
  match sources with
  | [] => h
  | src :: rest =>
      seed (S i) rest (match src with r :: _ => Heap.Push entry_less h (mkEntry r i 0) | [] => h end)
  end.

(** The rest of an entry's source. *)
Definition cursor (sources : list (list Rec)) (e : entry) : list Rec :=
  match sources !! srcIdx e with Some src => drop (recIdx e) src | None => [] end.

Definition cursors_inv (sources : list (list Rec)) (h : list entry) : Prop :=
  Forall (key_sorted Key) sources /\ heap_ok rec (cursor sources) h.

Lemma cursor_step sources e :
  stream_ok rec (cursor sources) e ->
  exists src, sources !! srcIdx e = Some src /\
    cursor sources e = rec e :: drop (S (recIdx e)) src.
Proof.
  intros [_ Hh]. unfold cursor in *. destruct (sources !! srcIdx e) as [src|]; [|done].
  exists src. split; [done|]. destruct (drop (recIdx e) src) as [|x l] eqn:Ed; [done|]. inv Hh.
  f_equal. replace (S (recIdx e)) with (recIdx e + 1)%nat by lia. by rewrite <- drop_drop, Ed.
Qed.

Lemma cursor_ok sources i k src r :
  Forall (key_sorted Key) sources -> sources !! i = Some src -> src !! k = Some r ->
  stream_ok rec (cursor sources) (mkEntry r i k).
Proof.
  intros HF Hi Hk. unfold stream_ok, cursor. simpl. rewrite Hi. split.
  - rewrite Forall_forall in HF. specialize (HF src (list_elem_of_lookup_2 _ _ _ Hi)).
    rewrite <- (take_drop k src) in HF. by apply key_sorted_app in HF as (_ & ? & _).
  - by rewrite (drop_S _ _ _ Hk).
Qed.

Lemma pop_advance_law sources h :
  cursors_inv sources h -> streams (cursor sources) h <> [] ->
  exists r h', pop_advance sources h = Ok (r, h') /\ cursors_inv sources h' /\
    streams (cursor sources) h ≡ₚ r :: streams (cursor sources) h' /\
    forall r', r' ∈ streams (cursor sources) h -> before r r'.
Proof.
  intros [HF Hh] Hne. destruct (heap_pop rec (cursor sources) h Hh Hne) as (e & h1 & Hpop & He & Hh1 & Hp & Hmin & _).
  unfold pop_advance, entry_less. rewrite Hpop.
  destruct (cursor_step sources e) as (src & Hsrc & Hc); [by apply Hh|].
  unfold advanceCursor. rewrite Hsrc. destruct (src !! S (recIdx e)) as [r|] eqn:Er.
  - pose proof (cursor_ok sources _ _ _ _ HF Hsrc Er) as Hok.
    destruct (heap_push rec (cursor sources) h1 _ Hh1 Hok) as [Hh2 Hp2].
    eexists _, _. split; [done|]. split; [done|]. split; [|done].
    rewrite Hp. fold entry_less in Hp2. unfold entry_less in *. rewrite Hp2, Hc. unfold cursor. simpl. by rewrite Hsrc.
  - eexists _, _. split; [done|]. split; [done|]. split; [|done].
    rewrite Hp, Hc. by rewrite drop_ge by (by apply lookup_ge_None).
Qed.

Lemma cursor_peek_law sources h :
  cursors_inv sources h ->
  match rec <$> head h with
  | None => streams (cursor sources) h = []
  | Some r => r ∈ streams (cursor sources) h /\ forall r', r' ∈ streams (cursor sources) h -> before r r'
  end.
Proof. intros [_ Hh]. pose proof (heap_peek rec (cursor sources) h Hh) as Hp. by destruct (head h). Qed.

#[global] Instance cursor_queue (sources : list (list Rec)) : RecordQueue (list entry) := {
  q_peek h := rec <$> head h;
  q_pop := pop_advance sources;
  q_pool := streams (cursor sources);
  q_inv := cursors_inv sources;
  q_peek_law := cursor_peek_law sources;
  q_pop_law := pop_advance_law sources
}.

Lemma seed_spec sources done_ todo h :
  sources = done_ ++ todo -> cursors_inv sources h ->
  cursors_inv sources (seed (length done_) todo h) /\
  streams (cursor sources) (seed (length done_) todo h) ≡ₚ streams (cursor sources) h ++ concat todo.
Proof.
  revert done_ h. induction todo as [|src todo IH]; intros done_ h Hs Hi; simpl; [by rewrite app_nil_r|].
  assert (sources !! length done_ = Some src) as Hsrc by (rewrite Hs; apply list_lookup_middle; done).
  replace (S (length done_)) with (length (done_ ++ [src])) by (rewrite length_app; simpl; lia).
  destruct src as [|r l].
  - apply IH; [by rewrite <- app_assoc|done].
  - destruct Hi as [HF Hh]. pose proof (cursor_ok sources _ 0 _ r HF Hsrc eq_refl) as Hok.
    destruct (heap_push rec (cursor sources) h _ Hh Hok) as [Hh2 Hp2].
    destruct (IH (done_ ++ [r :: l]) (Heap.Push entry_less h (mkEntry r (length done_) 0))) as [H1 H2];
      [by rewrite <- app_assoc|done|].
    split; [done|]. rewrite H2. unfold entry_less. rewrite Hp2. unfold cursor at 1. simpl. rewrite Hsrc, drop_0.
    rewrite (Permutation_app_comm (r :: l)), <- app_assoc. done.
Qed.

Section compact.
Context `{BloomSizing}.

Definition Compact (readers : list Reader) (outputPath : bytes) (isBottomLevel : bool) : M World Z :=
  match readers with
  | [] => mret 0
  | _ :: _ =>
      sources ← of_res (mapM LoadAll readers);
      if Z.of_nat (length (concat sources)) =? 0 then mret 0 else
      let h := seed 0 sources [] in
      output ← of_res (@merge _ (cursor_queue sources) _
                  (fun winner => negb ((RType winner =? RecordTypeDelete) && isBottomLevel))
                  (fun out winner => Ok (out ++ [winner])) (length (concat sources)) h []);
      match output with
      | [] => mret 0
      | _ :: _ => Write outputPath output ;; mret (Z.of_nat (length output))
      end
  end.

(** The records a compaction keeps. *)
Definition kept (isBottomLevel : bool) (r : Rec) : Prop :=
  negb ((RType r =? RecordTypeDelete) && isBottomLevel) = true.

#[global] Instance kept_dec b r : Decision (kept b r).
Proof. unfold kept. apply _. Defined.

Lemma foldM_append {A} (l acc : list A) : foldM (fun out x => Ok (out ++ [x])) acc l = Ok (acc ++ l).
Proof.
  revert acc. induction l as [|x l IH]; intros acc; cbn [foldM]; [by rewrite app_nil_r|].
  rewrite bind_ok, IH. by rewrite <- app_assoc.
Qed.

Lemma load_all readers ls : Forall2 reads readers ls -> mapM LoadAll readers = Ok ls.
Proof.
  induction 1 as [|r l readers ls Hr _ IH]; [done|]. simpl mapM.
  rewrite (reads_LoadAll r l Hr), bind_ok, IH, bind_ok. done.
Qed.

Lemma Forall2_reads_sorted readers ls : Forall2 reads readers ls -> Forall (key_sorted Key) ls.
Proof. induction 1 as [|r l readers ls Hr _ IH]; constructor; [by eapply rd_sorted|done]. Qed.

(** The merge of the inputs of Compact. *)
Lemma merge_sources ls b :
  Forall (key_sorted Key) ls ->
  exists win, winners (concat ls) win /\
    @merge _ (cursor_queue ls) _ (fun winner => negb ((RType winner =? RecordTypeDelete) && b))
      (fun out winner => Ok (out ++ [winner])) (length (concat ls)) (seed 0 ls []) [] = Ok (filter (kept b) win).
Proof.
  intros HF. destruct (seed_spec ls [] ls []) as [Hi Hp]; [done| |].
  { split; [done|]. split; [intros k Hk; simpl in Hk; lia|intros e []%not_elem_of_nil]. }
  simpl in Hi, Hp.
  destruct (@merge_spec _ (cursor_queue ls) _ (fun winner => negb ((RType winner =? RecordTypeDelete) && b))
    (fun out winner => Ok (out ++ [winner])) (length (concat ls)) (seed 0 ls []) []) as (win & Hw & Hm).
  - done.
  - simpl. by rewrite Hp.
  - exists win. rewrite Hm, foldM_append. split; [|done]. by eapply winners_Permutation.
Qed.

Lemma length_data_submseteq l k : l ⊆+ k -> (length (data l) <= length (data k))%nat.
Proof.
  induction 1; rewrite ?data_cons, ?length_app; lia.
Qed.

Lemma fits_winners pool win b :
  winners pool win -> Forall rec_ok pool -> Z.of_nat (length (data pool)) < 2 ^ 50 ->
  filter (kept b) win <> [] -> fits (filter (kept b) win).
Proof.
  intros Hw Hok Hsz Hne. split; [done|by apply key_sorted_filter, Hw| |].
  - apply Forall_forall. intros r [_ Hr]%list_elem_of_filter. rewrite Forall_forall in Hok. by apply Hok, Hw.
  - assert (filter (kept b) win ⊆+ pool) as Hs
      by (etrans; [apply sublist_submseteq, sublist_filter|by apply winners_submseteq]).
    apply length_data_submseteq in Hs. lia.
Qed.

Lemma Forall2_reads_ok readers ls : Forall2 reads readers ls -> Forall rec_ok (concat ls).
Proof.
  induction 1 as [|r l readers ls Hr _ IH]; [constructor|]. simpl. apply Forall_app. split; [by eapply rd_ok|done].
Qed.

(** Compact leaves the table of the kept winners, or no file if there are none. *)
Lemma Compact_touches readers ls path b w :
  Forall2 reads readers ls -> readers <> [] -> Z.of_nat (length (data (concat ls))) < 2 ^ 50 ->
  exists win, winners (concat ls) win /\
    touches [path] w (Compact readers path b) w (fun n w' =>
      n = Z.of_nat (length (filter (kept b) win)) /\
      if decide (filter (kept b) win = []) then files w' = files w
      else files w' = <[path := table_bytes (filter (kept b) win)]> (files w) /\ fits (filter (kept b) win)).
Proof.
  intros Hr Hne Hsz. destruct (merge_sources ls b) as (win & Hw & Hm); [by eapply Forall2_reads_sorted|].
  exists win. split; [done|]. destruct readers as [|r readers]; [done|]. unfold Compact.
  apply touches_bind. eapply touches_of_res; [done|by apply load_all|]. intros Hs.
  destruct (Z.eqb_spec (Z.of_nat (length (concat ls))) 0) as [E|E].
  { assert (concat ls = []) as El by (destruct (concat ls); [done|simpl in E; lia]).
    assert (win = []) as ->.
    { destruct win as [|x win]; [done|]. destruct (win_newest _ _ Hw x) as [Hx _]; [left|].
      rewrite El in Hx. by apply not_elem_of_nil in Hx. }
    apply touches_ret; [done|]. done. }
  apply touches_bind. eapply touches_of_res; [done|exact Hm|]. intros _.
  destruct (filter (kept b) win) as [|x out] eqn:Eo.
  { apply touches_ret; [done|]. done. }
  apply touches_bind. eapply touches_call; [done|by apply Write_touches|done|].
  intros [] w' Hs' Ef _. apply touches_ret; [done|]. split; [done|]. rewrite decide_False by done. split; [done|].
  rewrite <- Eo. apply (fits_winners (concat ls)); [done|by eapply Forall2_reads_ok|done|by rewrite Eo].
Qed.

(** With unique sequence numbers, the table written has the newest record of each
    key, less the tombstones dropped at the bottom level. *)
Lemma Compact_newest readers ls path b w :
  Forall2 reads readers ls -> readers <> [] -> Z.of_nat (length (data (concat ls))) < 2 ^ 50 ->
  seq_unique (concat ls) ->
  exists out, touches [path] w (Compact readers path b) w (fun n w' =>
      n = Z.of_nat (length out) /\
      if decide (out = []) then files w' = files w
      else files w' = <[path := table_bytes out]> (files w) /\ fits out) /\
    out ⊆+ concat ls /\
    forall k, newest k out = (r ← newest k (concat ls); if decide (kept b r) then Some r else None).
Proof.
  intros Hr Hne Hsz Hu. destruct (Compact_touches readers ls path b w Hr Hne Hsz) as (win & Hw & Ht).
  exists (filter (kept b) win). split; [done|]. split.
  { etrans; [apply sublist_submseteq, sublist_filter|by apply winners_submseteq]. }
  intros k. rewrite <- (winners_newest _ _ k Hw Hu). pose proof (win_sorted _ _ Hw) as Hs.
  pose proof (key_sorted_filter Key (kept b) win Hs) as Hsf.
  destruct (newest k win) as [r|] eqn:E; simpl.
  - apply newest_sorted in E as [Hin Hk]; [|done]. destruct (decide (kept b r)).
    + apply newest_sorted; [done|]. split; [by apply list_elem_of_filter|done].
    + apply newest_from_None. split; [done|]. intros r' [Hk' Hr']%list_elem_of_filter E'.
      assert (r' = r) as -> by (apply (key_sorted_inj Key win); congruence). done.
  - apply newest_from_None in E as [_ E]. apply newest_from_None. split; [done|].
    intros r' [_ Hr']%list_elem_of_filter. by apply E.
Qed.

(** Compact, and open the result if there is one. *)
Definition compact_open (readers : list Reader) (path : bytes) (b : bool) : M World (option Reader) :=
  n ← Compact readers path b;
  if 0 <? n then r ← Open path; mret (Some r) else mret None.

(** C34: Compacting tables in which no key has two different records with the same
    sequence number and opening the output gives a reader whose lookup of every
    key is the newest record of that key over all inputs; at the bottom level, and
    only there, a key whose newest record is a tombstone is not found. If nothing
    is left no file is created. No file but the output changes. *)
Theorem Compact_lookup readers ls path b w :
  Forall2 reads readers ls -> readers <> [] -> Z.of_nat (length (data (concat ls))) < 2 ^ 50 ->
  seq_unique (concat ls) ->
  touches [path] w (compact_open readers path b) w (fun o w' => forall k,
    match o with Some r => (Get r k).2 | None => Ok (found None) end =
    Ok (found (r ← newest k (concat ls); if decide (kept b r) then Some r else None))).
Proof.
  intros Hr Hne Hsz Hu. destruct (Compact_newest readers ls path b w Hr Hne Hsz Hu) as (out & Ht & _ & Hk).
  unfold compact_open. apply touches_bind. eapply touches_mono; [exact Ht|]. intros n w' Hs [-> Hout] _.
  destruct (decide (out = [])) as [->|Hne'].
  - apply touches_ret; [done|]. intros k. by rewrite <- Hk.
  - rewrite (proj2 (Z.ltb_lt _ _)) by (destruct out; [done|]; simpl; lia). destruct Hout as [E Hfit].
    apply touches_bind. eapply touches_call; [done|apply (Open_touches path out); [done|]|set_solver|].
    { by rewrite E, lookup_insert_eq. }
    intros r w'' Hs'' (_ & Hrd & _) _. apply touches_ret.
    { etrans; [exact Hs|]. eapply since_weaken; [exact Hs''|set_solver]. }
    intros k. rewrite (reads_Get r out k Hrd). by rewrite Hk.
Qed.

End compact.

Lemma demo_seq_unique : seq_unique (concat [demo_records]).
Proof.
  intros r r' Hr Hr' Ek _. apply (key_sorted_inj Key demo_records); [apply demo_fits|..|done];
    simpl in *; by rewrite ?app_nil_r in *.
Qed.

Lemma Compact_lookup_witness :
  exists r, open_content (str "a") (@table_bytes demo_sizing demo_records) = Ok r /\
  touches [str "b"] (mkWorld ∅ []) (@compact_open demo_sizing [r] (str "b") true) (mkWorld ∅ []) (fun o w' => forall k,
    match o with Some r => (Get r k).2 | None => Ok (found None) end =
    Ok (found (r ← newest k (concat [demo_records]); if decide (kept true r) then Some r else None))).
Proof.
  destruct (@open_table demo_sizing (str "a") demo_records demo_fits) as (r & Hr & Hrd & _).
  exists r. split; [exact Hr|].
  apply (@Compact_lookup demo_sizing [r] [demo_records] (str "b") true (mkWorld ∅ [])).
  - by constructor.
  - discriminate.
  - vm_compute. reflexivity.
  - exact demo_seq_unique.
Defined.

End Compact.
