(* ===== verification/Json.v ===== *)
(** * encoding/json as the manifest and the membership entries use it

    JSON values, the text json.MarshalIndent and json.Marshal produce for them, and a parser of
    JSON text as json.Unmarshal reads it: white space between tokens, escapes in
    strings, numbers kept as their literal. Bytes from 0x80 up pass through, as
    they do in valid UTF-8 (Go replaces invalid sequences; the strings here are
    file names made of digits and a suffix, or names found in the directory).
    Decimal conversion of integers (strconv, and the %06d verb) is here as well.
    The parser carries fuel; the length of the text is enough. *)

From S2P Require Import Prelude GoStd.

Module Json.

(** ** Decimal numbers *)

Definition digit (d : Z) : byte := byte_of_Z (48 + d).
Definition is_digit (b : byte) : bool := (48 <=? Z_of_byte b) && (Z_of_byte b <=? 57).
Definition digit_val (b : byte) : Z := Z_of_byte b - 48.

Fixpoint dec_loop (fuel : nat) (n : Z) (acc : bytes) : bytes :=
  match fuel with
  | O => acc
  | S fuel' => if n <? 10 then digit n :: acc else dec_loop fuel' (n / 10) (digit (n mod 10) :: acc)
  end.

(** strconv.FormatUint(n, 10): at most 20 digits for a 64-bit number. *)
Definition dec (n : Z) : bytes := dec_loop 20 n [].

(** The value of a digit string. *)
Definition undec (l : bytes) : Z := foldl (fun acc b => 10 * acc + digit_val b) 0 l.

(** fmt.Sprintf("%06d", n). *)
Definition dec6 (n : Z) : bytes := replicate (6 - length (dec n)) (digit 0) ++ dec n.

Lemma Z_of_digit d : 0 <= d < 10 -> Z_of_byte (digit d) = 48 + d.
Proof. intros Hd. unfold digit. rewrite Z_of_byte_of_Z. apply Z.mod_small. lia. Qed.

Lemma is_digit_digit d : 0 <= d < 10 -> is_digit (digit d) = true.
Proof. intros Hd. unfold is_digit. rewrite Z_of_digit by done. apply andb_true_iff. split; apply Z.leb_le; lia. Qed.

Lemma digit_val_digit d : 0 <= d < 10 -> digit_val (digit d) = d.
Proof. intros Hd. unfold digit_val. rewrite Z_of_digit by done. lia. Qed.

Lemma dec_loop_spec fuel n acc :
  0 <= n < 10 ^ Z.of_nat fuel ->
  exists l, dec_loop fuel n acc = l ++ acc /\ Forall (fun b => is_digit b = true) l /\
    (forall a, foldl (fun a b => 10 * a + digit_val b) a l = a * 10 ^ Z.of_nat (length l) + n) /\
    (0 < fuel -> l <> [])%nat.
Proof.
  revert n acc. induction fuel as [|fuel IH]; intros n acc Hn.
  { assert (n = 0) as -> by (change (10 ^ Z.of_nat 0) with 1 in Hn; lia). exists [].
    split_and!; [done|constructor| |lia]. intros a. simpl. lia. }
  cbn [dec_loop]. destruct (Z.ltb_spec n 10).
  - exists [digit n]. split_and!; [done|apply Forall_singleton, is_digit_digit; lia| |done].
    intros a. simpl foldl. rewrite digit_val_digit by lia. change (Z.of_nat (length [digit n])) with 1. lia.
  - pose proof (Z.mod_pos_bound n 10 ltac:(lia)). pose proof (Z.div_mod n 10 ltac:(lia)) as Hdm.
    destruct (IH (n / 10) (digit (n mod 10) :: acc)) as (l & Hl & HF & Hv & _).
    { split; [apply Z.div_pos; lia|]. apply Z.div_lt_upper_bound; [lia|].
      rewrite Nat2Z.inj_succ, Z.pow_succ_r in Hn by lia. lia. }
    exists (l ++ [digit (n mod 10)]). split_and!.
    + rewrite Hl. by rewrite <- app_assoc.
    + apply Forall_app. split; [done|]. apply Forall_singleton, is_digit_digit; lia.
    + intros a. rewrite foldl_app. simpl foldl. rewrite Hv, digit_val_digit by lia.
      rewrite length_app. simpl length. rewrite Nat2Z.inj_add. change (Z.of_nat 1) with 1.
      rewrite Z.pow_add_r by lia. change (10 ^ 1) with 10.
      transitivity (a * (10 ^ Z.of_nat (length l) * 10) + (10 * (n / 10) + n mod 10)); [ring|]. by rewrite <- Hdm.
    + intros _. by destruct l.
Qed.

Lemma dec_digits n : 0 <= n < 10 ^ 20 -> Forall (fun b => is_digit b = true) (dec n) /\ dec n <> [].
Proof.
  intros Hn. destruct (dec_loop_spec 20 n []) as (l & Hl & HF & _ & Hne); [done|].
  unfold dec. rewrite Hl, app_nil_r. split; [done|]. apply Hne. lia.
Qed.

Lemma undec_dec n : 0 <= n < 10 ^ 20 -> undec (dec n) = n.
Proof.
  intros Hn. destruct (dec_loop_spec 20 n []) as (l & Hl & _ & Hv & _); [done|].
  unfold undec, dec. rewrite Hl, app_nil_r, Hv. lia.
Qed.

Lemma undec_zeros k l : undec (replicate k (digit 0) ++ l) = undec l.
Proof.
  unfold undec. rewrite foldl_app. f_equal. induction k as [|k IH]; [done|]. simpl.
  rewrite digit_val_digit by lia. exact IH.
Qed.

Lemma undec_dec6 n : 0 <= n < 10 ^ 20 -> undec (dec6 n) = n.
Proof. intros Hn. unfold dec6. rewrite undec_zeros. by apply undec_dec. Qed.

Lemma dec6_digits n : 0 <= n < 10 ^ 20 -> Forall (fun b => is_digit b = true) (dec6 n) /\ dec6 n <> [].
Proof.
  intros Hn. destruct (dec_digits n Hn) as [HF Hne]. unfold dec6. split.
  - apply Forall_app. split; [|done]. apply Forall_replicate. by apply is_digit_digit.
  - by destruct (dec n), (replicate _ _).
Qed.

(** ** Values and their text *)

Inductive json : Type :=
| JNull
| JBool (b : bool)
| JNum (literal : bytes)
| JStr (s : bytes)
| JArr (l : list json)
| JObj (fields : list (bytes * json)).

Definition hex (d : Z) : byte := byte_of_Z (if d <? 10 then 48 + d else 87 + d).
Definition quote : byte := x22.
Definition backslash : byte := x5c.

(** How the encoder writes one byte of a string, with HTML escaping on. *)
Definition escape (b : byte) : bytes :=
  let z := Z_of_byte b in
  if (z =? 34) || (z =? 92) then [backslash; b] else
  if z =? 8 then str "\b" else
  if z =? 12 then str "\f" else
  if z =? 10 then str "\n" else
  if z =? 13 then str "\r" else
  if z =? 9 then str "\t" else
  if (z <? 32) || (z =? 60) || (z =? 62) || (z =? 38)
  then str "\u00" ++ [hex (z / 16); hex (z mod 16)] else [b].

Definition print_string (s : bytes) : bytes := [quote] ++ concat (escape <$> s) ++ [quote].

(** json.MarshalIndent(v, "", "  ") breaks lines, json.Marshal does not. *)
Inductive style := Indented | Compact.

Section printer.
Context (st : style).

Definition newline (ind : nat) : bytes :=
  match st with Indented => byte_of_Z 10 :: replicate (2 * ind) (byte_of_Z 32) | Compact => [] end.
Definition colon : bytes := match st with Indented => str ": " | Compact => str ":" end.

(** The text of a value at nesting depth [ind]. *)
Fixpoint print (ind : nat) (v : json) : bytes :=
  match v with
  | JNull => str "null"
  | JBool b => if b then str "true" else str "false"
  | JNum lit => lit
  | JStr s => print_string s
  | JArr [] => str "[]"
  | JArr (x :: l) =>
      str "[" ++ newline (S ind) ++ print (S ind) x ++
      (fix items l := match l with
                      | [] => []
                      | y :: l' => str "," ++ newline (S ind) ++ print (S ind) y ++ items l'
                      end) l ++ newline ind ++ str "]"
  | JObj [] => str "{}"
  | JObj ((k, x) :: l) =>
      str "{" ++ newline (S ind) ++ print_string k ++ colon ++ print (S ind) x ++
      (fix items l := match l with
                      | [] => []
                      | (k, y) :: l' =>
                          str "," ++ newline (S ind) ++ print_string k ++ colon ++ print (S ind) y ++ items l'
                      end) l ++ newline ind ++ str "}"
  end.

End printer.

(** ** Parsing *)

Definition is_space (b : byte) : bool :=
  let z := Z_of_byte b in (z =? 32) || (z =? 9) || (z =? 10) || (z =? 13).

Fixpoint skip (s : bytes) : bytes :=
  match s with
  | b :: s' => if is_space b then skip s' else s
  | [] => []
  end.

(** The value of a hexadecimal digit. *)
Definition unhex (b : byte) : option Z :=
  let z := Z_of_byte b in
  if (48 <=? z) && (z <=? 57) then Some (z - 48) else
  if (97 <=? z) && (z <=? 102) then Some (z - 87) else
  if (65 <=? z) && (z <=? 70) then Some (z - 55) else None.

Definition unhex4 (a b c d : byte) : option Z :=
  w ← unhex a; x ← unhex b; y ← unhex c; z ← unhex d; Some (((w * 16 + x) * 16 + y) * 16 + z).

(** utf8.EncodeRune. *)
Definition utf8 (r : Z) : bytes :=
  if r <? 128 then [byte_of_Z r] else
  if r <? 2048 then [byte_of_Z (192 + r / 64); byte_of_Z (128 + r mod 64)] else
  if r <? 65536 then [byte_of_Z (224 + r / 4096); byte_of_Z (128 + r / 64 mod 64); byte_of_Z (128 + r mod 64)] else
  [byte_of_Z (240 + r / 262144); byte_of_Z (128 + r / 4096 mod 64); byte_of_Z (128 + r / 64 mod 64);
   byte_of_Z (128 + r mod 64)].

Definition is_surrogate (r : Z) : bool := (55296 <=? r) && (r <=? 57343).

(** The bytes of a \u escape and what is left: a surrogate pair is one rune, a lone
    surrogate the replacement character. *)
Definition unicode_escape (r : Z) (s : bytes) : bytes * bytes :=
  if is_surrogate r then
    match s with
    | x5c :: x75 :: a :: b :: c :: d :: s' =>
        match unhex4 a b c d with
        | Some r2 =>
            if (r <? 56320) && (56320 <=? r2) && (r2 <=? 57343)
            then (utf8 (65536 + (r - 55296) * 1024 + (r2 - 56320)), s')
            else (utf8 65533, s)
        | None => (utf8 65533, s)
        end
    | _ => (utf8 65533, s)
    end
  else (utf8 r, s).

Definition simple_escape (b : byte) : option byte :=
  match b with
  | x22 => Some x22 | x5c => Some x5c | x2f => Some x2f
  | x62 => Some x08 | x66 => Some x0c | x6e => Some x0a | x72 => Some x0d | x74 => Some x09
  | _ => None
  end.

(** The rest of a string after its opening quote. *)
Fixpoint parse_string (fuel : nat) (s acc : bytes) : option (bytes * bytes) :=
  match fuel with
  | O => None
  | S fuel' =>
      match s with
      | [] => None
      | b :: s1 =>
          if Z_of_byte b =? 34 then Some (acc, s1) else
          if Z_of_byte b <? 32 then None else
          if Z_of_byte b =? 92 then
            match s1 with
            | [] => None
            | e :: s2 =>
                match simple_escape e with
                | Some c => parse_string fuel' s2 (acc ++ [c])
                | None =>
                    if Z_of_byte e =? 117 then
                      match s2 with
                      | h1 :: h2 :: h3 :: h4 :: s3 =>
                          match unhex4 h1 h2 h3 h4 with
                          | Some r =>
                              let '(c, s4) := unicode_escape r s3 in
                              parse_string fuel' s4 (acc ++ c)
                          | None => None
                          end
                      | _ => None
                      end
                    else None
                end
            end
          else parse_string fuel' s1 (acc ++ [b])
      end
  end.

Fixpoint take_digits (s : bytes) : bytes * bytes :=
  match s with
  | b :: s' => if is_digit b then let '(d, r) := take_digits s' in (b :: d, r) else ([], s)
  | [] => ([], [])
  end.

(** The rest after the character c, if s starts with it. *)
Definition starts (c : Z) (s : bytes) : option bytes :=
  match s with
  | b :: s' => if Z_of_byte b =? c then Some s' else None
  | [] => None
  end.

(** A non-empty run of digits. *)
Definition digits1 (s : bytes) : option (bytes * bytes) :=
  let '(d, r) := take_digits s in match d with [] => None | _ => Some (d, r) end.

Definition optional_sign (chars : list Z) (s : bytes) : bytes * bytes :=
  match s with
  | b :: s' => if bool_decide (Z_of_byte b ∈ chars) then ([b], s') else ([], s)
  | [] => ([], s)
  end.

(** A number literal: sign, integer part without leading zeros, fraction, exponent. *)
Definition parse_number (s : bytes) : option (bytes * bytes) :=
  let '(sign, s1) := optional_sign [45] s in
  '(int, s2) ← (match starts 48 s1 with Some s' => Some ([digit 0], s') | None => digits1 s1 end);
  '(frac, s3) ← (match starts 46 s2 with
                 | Some s' => '(d, r) ← digits1 s'; Some (byte_of_Z 46 :: d, r)
                 | None => Some ([], s2)
                 end);
  let '(e, s4) := optional_sign [101; 69] s3 in
  '(ex, s5) ← (match e with
               | [] => Some ([], s4)
               | _ => let '(sg, s') := optional_sign [43; 45] s4 in
                      '(d, r) ← digits1 s'; Some (e ++ sg ++ d, r)
               end);
  Some (sign ++ int ++ frac ++ ex, s5).

(** The literal [word] at the start of s. *)
Definition keyword (word s : bytes) : option bytes :=
  if bool_decide (take (length word) s = word) then Some (drop (length word) s) else None.

Fixpoint parse_value (fuel : nat) (s0 : bytes) : option (json * bytes) :=
  match fuel with
  | O => None
  | S fuel' =>
      let s := skip s0 in
      match s with
      | [] => None
      | b :: s1 =>
          let z := Z_of_byte b in
          if z =? 34 then '(x, r) ← parse_string (S (length s1)) s1 []; Some (JStr x, r) else
          if z =? 91 then
            match starts 93 (skip s1) with
            | Some r => Some (JArr [], r)
            | None => '(l, r) ← parse_items fuel' s1; Some (JArr l, r)
            end else
          if z =? 123 then
            match starts 125 (skip s1) with
            | Some r => Some (JObj [], r)
            | None => '(l, r) ← parse_fields fuel' s1; Some (JObj l, r)
            end else
          if z =? 110 then r ← keyword (str "null") s; Some (JNull, r) else
          if z =? 116 then r ← keyword (str "true") s; Some (JBool true, r) else
          if z =? 102 then r ← keyword (str "false") s; Some (JBool false, r) else
          '(n, r) ← parse_number s; Some (JNum n, r)
      end
  end
with parse_items (fuel : nat) (s : bytes) : option (list json * bytes) :=
  match fuel with
  | O => None
  | S fuel' =>
      '(v, r) ← parse_value fuel' s;
      match starts 44 (skip r), starts 93 (skip r) with
      | Some r', _ => '(l, r'') ← parse_items fuel' r'; Some (v :: l, r'')
      | None, Some r' => Some ([v], r')
      | None, None => None
      end
  end
with parse_fields (fuel : nat) (s : bytes) : option (list (bytes * json) * bytes) :=
  match fuel with
  | O => None
  | S fuel' =>
      s1 ← starts 34 (skip s);
      '(k, r) ← parse_string (S (length s1)) s1 [];
      r1 ← starts 58 (skip r);
      '(v, r2) ← parse_value fuel' r1;
      match starts 44 (skip r2), starts 125 (skip r2) with
      | Some r', _ => '(l, r'') ← parse_fields fuel' r'; Some ((k, v) :: l, r'')
      | None, Some r' => Some ([(k, v)], r')
      | None, None => None
      end
  end.

(** A whole text: one value, then only white space. *)
Definition parse (s : bytes) : option json :=
  '(v, r) ← parse_value (2 * length s + 2) s;
  match skip r with [] => Some v | _ => None end.

(** ** Reading back what was printed *)

Lemma parse_string_escape fuel b t acc :
  parse_string (S fuel) (escape b ++ t) acc = parse_string fuel t (acc ++ [b]).
Proof. destruct b; reflexivity. Qed.

Lemma length_escape b : (1 <= length (escape b))%nat.
Proof. destruct b; simpl; lia. Qed.

Lemma parse_string_print s fuel rest acc :
  (length s < fuel)%nat ->
  parse_string fuel (concat (escape <$> s) ++ quote :: rest) acc = Some (acc ++ s, rest).
Proof.
  revert fuel acc. induction s as [|b s IH]; intros fuel acc Hf; (destruct fuel as [|fuel]; [simpl in Hf; lia|]).
  - simpl. by rewrite app_nil_r.
  - rewrite fmap_cons. cbn [concat]. rewrite <- app_assoc, parse_string_escape, IH by (simpl in Hf; lia).
    by rewrite <- app_assoc.
Qed.

Lemma length_escaped s : (length s <= length (concat (escape <$> s)))%nat.
Proof.
  induction s as [|b s IH]; [done|]. rewrite fmap_cons. cbn [concat]. rewrite length_app.
  pose proof (length_escape b). simpl. lia.
Qed.

Section printer_lemmas.
Context (st : style).
Abbreviation newline := (newline st).
Abbreviation print := (print st).
Abbreviation colon := (colon st).

Lemma skip_newline ind s : skip (newline ind ++ s) = skip s.
Proof.
  unfold newline. destruct st; [|done]. cbn [app skip]. change (is_space (byte_of_Z 10)) with true. cbv iota.
  induction (2 * ind)%nat as [|n IH]; [done|]. cbn [replicate app skip].
  change (is_space (byte_of_Z 32)) with true. exact IH.
Qed.

Lemma skip_nonspace b s : is_space b = false -> skip (b :: s) = b :: s.
Proof. intros H. simpl. by rewrite H. Qed.

Lemma parse_value_newline fuel ind s : parse_value fuel (newline ind ++ s) = parse_value fuel s.
Proof. destruct fuel; [done|]. cbn [parse_value]. by rewrite skip_newline. Qed.

(** *** Number literals *)

Definition num_ok (lit : bytes) : Prop := exists n, 0 <= n < 10 ^ 20 /\ lit = dec n.

(** The text after a number does not continue it. *)
Definition rest_ok (rest : bytes) : Prop :=
  match rest with
  | [] => True
  | b :: _ => is_digit b = false /\ Z_of_byte b <> 46 /\ Z_of_byte b <> 101 /\ Z_of_byte b <> 69
  end.

Lemma take_digits_app l rest :
  Forall (fun b => is_digit b = true) l -> rest_ok rest -> take_digits (l ++ rest) = (l, rest).
Proof.
  intros Hl Hr. induction Hl as [|b l Hb Hl IH]; simpl.
  - destruct rest as [|b rest]; [done|]. destruct Hr as [Hb _]. simpl. by rewrite Hb.
  - by rewrite Hb, IH.
Qed.

(** Only zero is printed with a leading zero. *)
Lemma dec_loop_head fuel n acc :
  0 < n < 10 ^ Z.of_nat fuel -> exists d t, dec_loop fuel n acc = digit d :: t /\ 0 < d < 10.
Proof.
  revert n acc. induction fuel as [|fuel IH]; intros n acc Hn.
  { change (10 ^ Z.of_nat 0) with 1 in Hn. lia. }
  cbn [dec_loop]. destruct (Z.ltb_spec n 10); [eexists n, _; split; [done|lia]|].
  apply IH. rewrite Nat2Z.inj_succ, Z.pow_succ_r in Hn by lia. split.
  - apply Z.div_str_pos. lia.
  - apply Z.div_lt_upper_bound; lia.
Qed.

Lemma digit_not d c : 0 <= d < 10 -> (c < 48 \/ 57 < c) -> (Z_of_byte (digit d) =? c) = false.
Proof. intros Hd Hc. rewrite Z_of_digit by done. apply Z.eqb_neq. lia. Qed.

Lemma optional_sign_rest rest : rest_ok rest -> optional_sign [101; 69] rest = ([], rest).
Proof.
  destruct rest as [|b rest]; [done|]. intros (_ & _ & H1 & H2). unfold optional_sign.
  rewrite bool_decide_false; [done|]. set_solver.
Qed.

Lemma starts_dot_rest rest : rest_ok rest -> starts 46 rest = None.
Proof.
  destruct rest as [|b rest]; [done|]. intros (_ & H & _). simpl. by apply Z.eqb_neq in H as ->.
Qed.

Lemma parse_number_dec n rest :
  0 <= n < 10 ^ 20 -> rest_ok rest -> parse_number (dec n ++ rest) = Some (dec n, rest).
Proof.
  intros Hn Hr. destruct (dec_digits n Hn) as [HF Hne].
  assert (exists d t, dec n = digit d :: t /\ 0 <= d < 10 /\ (d = 0 -> n = 0)) as (d & t & Hd & Hd10 & Hd0).
  { destruct (decide (n = 0)) as [->|]; [by exists 0, []|].
    destruct (dec_loop_head 20 n []) as (d & t & E & Hd); [change (Z.of_nat 20) with 20; lia|].
    exists d, t. split; [exact E|]. lia. }
  unfold parse_number.
  assert (optional_sign [45] (dec n ++ rest) = ([], dec n ++ rest)) as ->.
  { rewrite Hd. simpl. rewrite bool_decide_false; [done|]. rewrite Z_of_digit by done. set_solver by lia. }
  assert ((match starts 48 (dec n ++ rest) with Some s' => Some ([digit 0], s') | None => digits1 (dec n ++ rest) end)
          = Some (dec n, rest)) as ->.
  { destruct (decide (d = 0)) as [->|].
    - by rewrite (Hd0 eq_refl).
    - rewrite Hd at 1. simpl starts. rewrite Z_of_digit by done. rewrite (proj2 (Z.eqb_neq _ _)) by lia.
      unfold digits1. rewrite take_digits_app by done. by destruct (dec n). }
  simpl mbind. cbv beta iota. rewrite starts_dot_rest by done. simpl. rewrite optional_sign_rest by done. simpl.
  by rewrite !app_nil_r.
Qed.

Lemma num_ok_dec n : 0 <= n < 10 ^ 20 -> num_ok (dec n).
Proof. intros Hn. by exists n. Qed.

(** *** Induction over nested values *)

Section json_induction.
Context (P : json -> Prop) (Hnull : P JNull) (Hbool : forall b, P (JBool b)) (Hnum : forall l, P (JNum l))
  (Hstr : forall s, P (JStr s)) (Harr : forall l, Forall P l -> P (JArr l))
  (Hobj : forall l, Forall (fun kv => P kv.2) l -> P (JObj l)).

Fixpoint json_nested_ind (v : json) : P v :=
  match v with
  | JNull => Hnull
  | JBool b => Hbool b
  | JNum l => Hnum l
  | JStr s => Hstr s
  | JArr l => Harr l ((fix go l : Forall P l :=
                         match l with
                         | [] => Forall_nil_2 P
                         | x :: l' => Forall_cons_2 P x l' (json_nested_ind x) (go l')
                         end) l)
  | JObj l => Hobj l ((fix go l : Forall (fun kv => P kv.2) l :=
                         match l with
                         | [] => Forall_nil_2 _
                         | kv :: l' => Forall_cons_2 (fun kv => P kv.2) kv l' (json_nested_ind kv.2) (go l')
                         end) l)
  end.
End json_induction.

(** All number literals are decimal numbers. *)
Fixpoint nums_ok (v : json) : Prop :=
  match v with
  | JNum lit => num_ok lit
  | JArr l => (fix go l := match l with [] => True | x :: l' => nums_ok x /\ go l' end) l
  | JObj l => (fix go l := match l with [] => True | (_, x) :: l' => nums_ok x /\ go l' end) l
  | _ => True
  end.

(** The fuel parse_value needs. *)
Fixpoint jsize (v : json) : nat :=
  match v with
  | JArr l => S ((fix go l := match l with [] => O | x :: l' => S (jsize x + go l') end) l)
  | JObj l => S ((fix go l := match l with [] => O | (_, x) :: l' => S (jsize x + go l') end) l)
  | _ => 1
  end.

Definition isize (l : list json) : nat := foldr (fun x n => S (jsize x + n)) O l.
Definition fsize (l : list (bytes * json)) : nat := foldr (fun kv n => S (jsize kv.2 + n)) O l.

Definition print_items (ind : nat) (l : list json) : bytes :=
  concat ((fun y => str "," ++ newline (S ind) ++ print (S ind) y) <$> l).
Definition print_fields (ind : nat) (l : list (bytes * json)) : bytes :=
  concat ((fun '(k, y) => str "," ++ newline (S ind) ++ print_string k ++ colon ++ print (S ind) y) <$> l).

Lemma print_JArr ind x l :
  print ind (JArr (x :: l)) =
  str "[" ++ newline (S ind) ++ print (S ind) x ++ print_items ind l ++ newline ind ++ str "]".
Proof.
  cbn [print]. do 3 f_equal. f_equal. unfold print_items. induction l as [|y l IH]; [done|].
  rewrite fmap_cons. cbn [concat]. rewrite IH. by rewrite <- !app_assoc.
Qed.

Lemma print_JObj ind k x l :
  print ind (JObj ((k, x) :: l)) =
  str "{" ++ newline (S ind) ++ print_string k ++ colon ++ print (S ind) x ++ print_fields ind l ++ newline ind ++ str "}".
Proof.
  cbn [print]. do 5 f_equal. f_equal. unfold print_fields. induction l as [|[k' y] l IH]; [done|].
  rewrite fmap_cons. cbn [concat]. rewrite IH. by rewrite <- !app_assoc.
Qed.

Lemma jsize_JArr l : jsize (JArr l) = S (isize l).
Proof. reflexivity. Qed.
Lemma jsize_JObj l : jsize (JObj l) = S (fsize l).
Proof. simpl. f_equal. induction l as [|[k x] l IH]; [done|]. simpl. by rewrite IH. Qed.

Lemma nums_JArr l : nums_ok (JArr l) <-> Forall nums_ok l.
Proof.
  simpl. induction l as [|x l IH]; [split; [constructor|done]|]. rewrite Forall_cons. by rewrite IH.
Qed.
Lemma nums_JObj l : nums_ok (JObj l) <-> Forall (fun kv => nums_ok kv.2) l.
Proof.
  simpl. induction l as [|[k x] l IH]; [split; [constructor|done]|]. rewrite Forall_cons. by rewrite IH.
Qed.

(** The first character of a value: no white space and no closing bracket. *)
Lemma print_head ind v :
  nums_ok v -> exists b t, print ind v = b :: t /\ is_space b = false /\ Z_of_byte b <> 93 /\ Z_of_byte b <> 125.
Proof.
  destruct v as [|[]|lit|s|[|x l]|[|[k x] l]]; intros Hn;
    try (eexists _, _; split; [reflexivity|]; split_and!; vm_compute; congruence).
  destruct Hn as (n & Hn & ->). destruct (dec_digits n Hn) as [HF Hne]. cbn [print].
  destruct (dec n) as [|b t]; [done|]. inv HF. exists b, t. unfold is_digit in *. unfold is_space.
  apply andb_true_iff in H1 as [Hb1 Hb2]. apply Z.leb_le in Hb1, Hb2.
  split_and!; [done| |lia|lia]. rewrite !orb_false_iff, !Z.eqb_neq. lia.
Qed.

Lemma parse_value_string fuel s rest :
  parse_value (S fuel) (print_string s ++ rest) = Some (JStr s, rest).
Proof.
  unfold print_string. rewrite <- !app_assoc. cbn [app parse_value skip].
  change (is_space quote) with false. cbv iota zeta. change (Z_of_byte quote =? 34) with true. cbv iota.
  change ([quote] ++ rest) with (quote :: rest).
  rewrite parse_string_print; [done|]. rewrite length_app. pose proof (length_escaped s). lia.
Qed.

Lemma parse_value_num fuel n rest :
  0 <= n < 10 ^ 20 -> rest_ok rest -> parse_value (S fuel) (dec n ++ rest) = Some (JNum (dec n), rest).
Proof.
  intros Hn Hr. pose proof (parse_number_dec n rest Hn Hr) as Hp. destruct (dec_digits n Hn) as [HF Hne].
  destruct (dec n) as [|b t]; [done|]. inv HF. cbn [app] in *. cbn [parse_value].
  unfold is_digit in *. apply andb_true_iff in H1 as [Hb1 Hb2]. apply Z.leb_le in Hb1, Hb2.
  assert (is_space b = false) as Hsp by (unfold is_space; rewrite !orb_false_iff, !Z.eqb_neq; lia).
  rewrite skip_nonspace by done. cbv zeta.
  rewrite !(proj2 (Z.eqb_neq _ _)) by lia. by rewrite Hp.
Qed.

(** A closing bracket or a comma, and any layout, ends a number. *)
Definition closes (s : bytes) : Prop := exists t, s = str "]" ++ t \/ s = str "}" ++ t.

Lemma rest_ok_newline ind s : closes s -> rest_ok (newline ind ++ s).
Proof. intros (t & [-> | ->]); unfold newline; destruct st; by vm_compute. Qed.

Lemma rest_ok_items ind l s : closes s -> rest_ok (print_items ind l ++ newline ind ++ s).
Proof. destruct l; [apply rest_ok_newline|by vm_compute]. Qed.

Lemma rest_ok_fields ind l s : closes s -> rest_ok (print_fields ind l ++ newline ind ++ s).
Proof. destruct l as [|[? ?]]; [apply rest_ok_newline|by vm_compute]. Qed.

Lemma some_bind {A B} (a : A) (f : A -> option B) : (Some a ≫= f) = f a.
Proof. done. Qed.

(** Parsing a printed value leaves the rest. *)
Definition reads_back (v : json) : Prop := forall ind fuel rest,
  (jsize v <= fuel)%nat -> nums_ok v -> rest_ok rest ->
  parse_value fuel (print ind v ++ rest) = Some (v, rest).

Lemma print_items_nil ind t : print_items ind [] ++ t = t.
Proof. done. Qed.
Lemma print_fields_nil ind t : print_fields ind [] ++ t = t.
Proof. done. Qed.

Lemma print_items_cons ind y l :
  print_items ind (y :: l) = str "," ++ newline (S ind) ++ print (S ind) y ++ print_items ind l.
Proof. unfold print_items. rewrite fmap_cons. cbn [concat]. by rewrite <- !app_assoc. Qed.

Lemma print_fields_cons ind k y l :
  print_fields ind ((k, y) :: l) =
  str "," ++ newline (S ind) ++ print_string k ++ colon ++ print (S ind) y ++ print_fields ind l.
Proof. unfold print_fields. rewrite fmap_cons. cbn [concat]. by rewrite <- !app_assoc. Qed.

Lemma comma_next t : starts 44 (skip (str "," ++ t)) = Some t.
Proof. reflexivity. Qed.
Lemma bracket_next ind t : starts 44 (skip (newline ind ++ str "]" ++ t)) = None /\
  starts 93 (skip (newline ind ++ str "]" ++ t)) = Some t.
Proof. by rewrite skip_newline. Qed.
Lemma brace_next ind t : starts 44 (skip (newline ind ++ str "}" ++ t)) = None /\
  starts 125 (skip (newline ind ++ str "}" ++ t)) = Some t.
Proof. by rewrite skip_newline. Qed.
Definition after_colon : bytes := match st with Indented => str " " | Compact => [] end.
Lemma colon_next t : starts 58 (skip (colon ++ t)) = Some (after_colon ++ t).
Proof. unfold colon, after_colon. by destruct st. Qed.
Lemma parse_value_space fuel t : parse_value fuel (after_colon ++ t) = parse_value fuel t.
Proof. unfold after_colon. destruct st; by destruct fuel. Qed.

(** A key string after white space. *)
Lemma key_next ind k t :
  exists s1, starts 34 (skip (newline ind ++ print_string k ++ t)) = Some s1 /\
    parse_string (S (length s1)) s1 [] = Some (k, t).
Proof.
  rewrite skip_newline. unfold print_string. rewrite <- !app_assoc. eexists. split; [reflexivity|].
  change ([quote] ++ t) with (quote :: t). apply (parse_string_print k _ t []).
  rewrite length_app. pose proof (length_escaped k). lia.
Qed.

Lemma parse_items_print l : forall x ind fuel rest,
  Forall reads_back (x :: l) -> Forall nums_ok (x :: l) -> (isize (x :: l) <= fuel)%nat ->
  parse_items fuel (newline (S ind) ++ print (S ind) x ++ print_items ind l ++ newline ind ++ str "]" ++ rest)
  = Some (x :: l, rest).
Proof.
  induction l as [|y l IH]; intros x ind fuel rest HR HN Hf;
    inv HR; inv HN; (destruct fuel as [|fuel]; [simpl in Hf; lia|]); cbn [parse_items]; rewrite parse_value_newline.
  - rewrite H1 by (done || (apply rest_ok_newline; eexists; eauto) || (simpl in Hf; lia)). rewrite some_bind. cbv beta iota.
    rewrite print_items_nil. destruct (bracket_next ind rest) as [-> ->]. done.
  - rewrite H1 by (done || (apply rest_ok_items; eexists; eauto) || (simpl in Hf; lia)). rewrite some_bind. cbv beta iota.
    rewrite print_items_cons, <- !app_assoc, comma_next, IH by (done || (simpl in Hf |- *; lia)). done.
Qed.

Lemma parse_fields_print l : forall k x ind fuel rest,
  Forall (fun kv => reads_back kv.2) ((k, x) :: l) -> Forall (fun kv => nums_ok kv.2) ((k, x) :: l) ->
  (fsize ((k, x) :: l) <= fuel)%nat ->
  parse_fields fuel (newline (S ind) ++ print_string k ++ colon ++ print (S ind) x ++
                     print_fields ind l ++ newline ind ++ str "}" ++ rest)
  = Some ((k, x) :: l, rest).
Proof.
  induction l as [|[k' y] l IH]; intros k x ind fuel rest HR HN Hf;
    inv HR; inv HN; (destruct fuel as [|fuel]; [simpl in Hf; lia|]); cbn [parse_fields]; simpl in H1, H3;
    match goal with |- context [skip (newline _ ++ print_string k ++ ?t)] =>
      destruct (key_next (S ind) k t) as (s1 & -> & Hk) end;
    rewrite some_bind, Hk, some_bind; cbv beta iota; rewrite colon_next, some_bind, parse_value_space.
  - rewrite H1 by (done || (apply rest_ok_newline; eexists; eauto) || (simpl in Hf; lia)). rewrite some_bind. cbv beta iota.
    rewrite print_fields_nil. destruct (brace_next ind rest) as [-> ->]. done.
  - rewrite H1 by (done || (apply rest_ok_fields; eexists; eauto) || (simpl in Hf; lia)). rewrite some_bind. cbv beta iota.
    rewrite print_fields_cons, <- !app_assoc, comma_next, IH by (done || (simpl in Hf |- *; lia)). done.
Qed.

Lemma reads_back_all v : reads_back v.
Proof.
  induction v as [|b|lit|s|l HF|l HF] using json_nested_ind; intros ind fuel rest Hf Hn Hr;
    (destruct fuel as [|fuel]; [simpl in Hf; lia|]).
  - done.
  - by destruct b.
  - destruct Hn as (n & Hn & ->). by apply parse_value_num.
  - apply parse_value_string.
  - destruct l as [|x l]; [done|]. rewrite print_JArr, <- !app_assoc.
    apply nums_JArr in Hn as HN. rewrite jsize_JArr in Hf.
    cbn [parse_value]. change (skip (str "[" ++ ?t)) with (str "[" ++ t).
    change (str "[" ++ ?t) with (x5b :: t). cbv beta iota zeta.
    change (Z_of_byte x5b =? 34) with false. change (Z_of_byte x5b =? 91) with true. cbv iota.
    rewrite skip_newline. destruct (print_head (S ind) x) as (b & t & Hb & Hsp & Hb1 & Hb2); [by inv HN|].
    rewrite Hb at 1. cbn [app]. rewrite skip_nonspace by done. simpl starts. rewrite (proj2 (Z.eqb_neq _ _) Hb1).
    rewrite parse_items_print by (done || lia). done.
  - destruct l as [|[k x] l]; [done|]. rewrite print_JObj, <- !app_assoc.
    apply nums_JObj in Hn as HN. rewrite jsize_JObj in Hf.
    cbn [parse_value]. change (skip (str "{" ++ ?t)) with (str "{" ++ t).
    change (str "{" ++ ?t) with (x7b :: t). cbv beta iota zeta.
    change (Z_of_byte x7b =? 34) with false. change (Z_of_byte x7b =? 91) with false.
    change (Z_of_byte x7b =? 123) with true. cbv iota.
    rewrite skip_newline. unfold print_string at 1. rewrite <- !app_assoc.
    change (starts 125 (skip ([quote] ++ ?t))) with (@None bytes). cbv iota.
    rewrite parse_fields_print by (done || lia). done.
Qed.

(** The fuel of [parse] is enough. *)
Lemma length_print v : forall ind, nums_ok v -> (jsize v <= 2 * length (print ind v))%nat.
Proof.
  induction v as [|b|lit|s|l HF|l HF] using json_nested_ind; intros ind Hn.
  - simpl. lia.
  - destruct b; simpl; lia.
  - destruct Hn as (n & Hn & ->). destruct (dec_digits n Hn) as [_ Hne]. simpl. destruct (dec n); [done|]. simpl. lia.
  - simpl print. unfold print_string. rewrite !length_app. simpl. lia.
  - destruct l as [|x l]; [simpl; lia|]. apply nums_JArr in Hn. rewrite print_JArr, jsize_JArr, !length_app.
    inv HF. inv Hn. specialize (H1 (S ind) H3).
    assert (isize l <= 2 * length (print_items ind l))%nat as Hl.
    { clear -H2 H4. induction H2 as [|y l Hy HF IH]; [simpl; lia|]. inv H4.
      rewrite print_items_cons, !length_app. specialize (Hy (S ind) H1). specialize (IH H2). simpl. lia. }
    simpl isize. simpl length. lia.
  - destruct l as [|[k x] l]; [simpl; lia|]. apply nums_JObj in Hn. rewrite print_JObj, jsize_JObj, !length_app.
    inv HF. inv Hn. simpl in H1, H3. specialize (H1 (S ind) H3).
    assert (fsize l <= 2 * length (print_fields ind l))%nat as Hl.
    { clear -H2 H4. induction H2 as [|[k y] l Hy HF IH]; [simpl; lia|]. inv H4. simpl in Hy, H1.
      rewrite print_fields_cons, !length_app. specialize (Hy (S ind) H1). specialize (IH H2). simpl. lia. }
    simpl fsize. simpl length. lia.
Qed.

(** The text of a value followed by a newline parses to the value. *)
Lemma parse_print v : nums_ok v -> parse (print 0 v ++ [byte_of_Z 10]) = Some v.
Proof.
  intros Hn. unfold parse. rewrite reads_back_all; [by rewrite some_bind| |done|by vm_compute].
  pose proof (length_print v 0 Hn). rewrite length_app. lia.
Qed.

(** And the text alone. *)
Lemma parse_print_alone v : nums_ok v -> parse (print 0 v) = Some v.
Proof.
  intros Hn. unfold parse. rewrite <- (app_nil_r (print 0 v)) at 2. rewrite reads_back_all; [done| |done|done].
  pose proof (length_print v 0 Hn). lia.
Qed.

End printer_lemmas.

(** ** Storing values into struct fields *)

(** Field names match without regard to ASCII case. *)
Definition lower (b : byte) : byte :=
  if (65 <=? Z_of_byte b) && (Z_of_byte b <=? 90) then byte_of_Z (Z_of_byte b + 32) else b.
Definition same_name (a b : bytes) : bool := bool_decide (lower <$> a = lower <$> b).

(** strconv.ParseUint and ParseInt of a number literal, base 10, 64 bits. *)
Definition parse_uint (lit : bytes) : option Z :=
  match lit with
  | [] => None
  | _ => if forallb is_digit lit && (undec lit <? 2 ^ 64) then Some (undec lit) else None
  end.

Definition parse_int (lit : bytes) : option Z :=
  match starts 45 lit with
  | Some l => n ← parse_uint l; if n <=? 2 ^ 63 then Some (- n) else None
  | None => n ← parse_uint lit; if n <? 2 ^ 63 then Some n else None
  end.

(** Storing a JSON value into a number field: null leaves it alone. *)
Definition store_num (parse : bytes -> option Z) (v : json) (old : Z) : option Z :=
  match v with JNull => Some old | JNum lit => parse lit | _ => None end.

Definition store_string (v : json) : option bytes :=
  match v with JNull => Some [] | JStr s => Some s | _ => None end.

Lemma parse_uint_dec n : 0 <= n < 2 ^ 64 -> parse_uint (dec n) = Some n.
Proof.
  intros Hn. destruct (dec_digits n) as [HF Hne]; [lia|]. unfold parse_uint.
  assert (forallb is_digit (dec n) = true) as Hd.
  { apply forallb_forall. intros b Hb. rewrite Forall_forall in HF. apply HF. by apply list_elem_of_In. }
  rewrite Hd, undec_dec by lia. destruct (dec n); [done|]. simpl. by rewrite (proj2 (Z.ltb_lt _ _)) by lia.
Qed.

Lemma parse_uint_range lit n : parse_uint lit = Some n -> 0 <= n < 2 ^ 64.
Proof.
  unfold parse_uint. destruct lit as [|b lit]; [done|].
  destruct (forallb is_digit (b :: lit)) eqn:E; [|done]. cbn [andb].
  destruct (Z.ltb_spec (undec (b :: lit)) (2 ^ 64)); [|done]. intros [= <-]. split; [|done].
  assert (forall l acc, forallb is_digit l = true -> 0 <= acc ->
    0 <= foldl (fun acc b => 10 * acc + digit_val b) acc l) as Hf.
  { induction l as [|d l IH]; intros acc Hl Ha; simpl in *; [done|]. bool_hyps. apply IH; [done|].
    unfold is_digit, digit_val in *. bool_hyps. lia. }
  by apply Hf.
Qed.

#[global] Opaque dec.

End Json.
