(* ===== verification/Manifest.v ===== *)
(** * internal/manifest: publishing the set of tables

    [Load], [Store], [Validate] of manifest.go. The manifest is JSON text; Store
    writes a temporary file and renames it over MANIFEST, so that at any crash the
    MANIFEST file holds either the old or the new text. *)

From S2P Require Import Prelude GoStd Fs Json.

Module Manifest.
Import Json.

Definition fileName : bytes := str "MANIFEST".
Definition tmpName : bytes := str ".MANIFEST.tmp".
Definition version : Z := 2.
Definition legacyVersion : Z := 1.

Record State : Type := mkState {
  Version : Z; SSTables : list bytes; NextSST : Z; AppliedIndex : Z; LastSeq : Z }.

Definition zeroState : State := mkState 0 [] 0 0 0.

Definition Legacy (s : State) : bool := Version s =? legacyVersion.

Definition New : State := mkState version [] 0 0 0.

(** ** Validate *)

Definition slash : byte := x2f.

Definition no_slash (b : byte) : bool := negb (Z_of_byte b =? 47).

(** Drop the leading slashes; the part before the first slash. *)
Fixpoint trim_slashes (s : bytes) : bytes :=
  match s with b :: s' => if no_slash b then s else trim_slashes s' | [] => [] end.
Fixpoint upto_slash (s : bytes) : bytes :=
  match s with b :: s' => if no_slash b then b :: upto_slash s' else [] | [] => [] end.

(** filepath.Base on a Unix path. *)
Definition Base (path : bytes) : bytes :=
  match path with
  | [] => str "."
  | _ =>
      match trim_slashes (reverse path) with
      | [] => str "/"
      | trimmed => reverse (upto_slash trimmed)
      end
  end.

Definition HasSuffix (s suffix : bytes) : bool :=
  (length suffix <=? length s)%nat && bool_decide (drop (length s - length suffix) s = suffix).

Definition valid_name (name : bytes) : bool :=
  negb (bool_decide (name = [])) && bool_decide (Base name = name) && HasSuffix name (str ".sst").

Fixpoint validate_names (seen names : list bytes) : option string :=
  match names with
  | [] => None
  | name :: rest =>
      if negb (valid_name name) then Some "invalid manifest SSTable name"%string else
      if bool_decide (name ∈ seen) then Some "duplicate manifest SSTable"%string else
      validate_names (name :: seen) rest
  end.

Definition Validate (s : State) : option string :=
  if negb (Version s =? version) && negb (Version s =? legacyVersion) then Some "manifest version is unsupported"%string
  else validate_names [] (SSTables s).

(** ** JSON *)

(** The slice of names is nil when empty. *)
Definition names_json (names : list bytes) : json :=
  match names with [] => JNull | _ => JArr (JStr <$> names) end.

(** The struct tags: applied_index is omitted when zero. *)
Definition to_json (s : State) : json :=
  JObj ([(str "version", JNum (dec (Version s)));
         (str "sstables", names_json (SSTables s));
         (str "next_sst", JNum (dec (NextSST s)))] ++
        (if AppliedIndex s =? 0 then [] else [(str "applied_index", JNum (dec (AppliedIndex s)))]) ++
        [(str "last_seq", JNum (dec (LastSeq s)))]).

Definition state_bytes (s : State) : bytes := print Indented 0 (to_json s) ++ [byte_of_Z 10].

Definition set_field (s : State) (kv : bytes * json) : option State :=
  let '(k, v) := kv in
  if same_name k (str "version") then
    n ← store_num parse_int v (Version s); Some (mkState n (SSTables s) (NextSST s) (AppliedIndex s) (LastSeq s)) else
  if same_name k (str "sstables") then
    match v with
    | JNull => Some (mkState (Version s) [] (NextSST s) (AppliedIndex s) (LastSeq s))
    | JArr l => names ← mapM store_string l;
                Some (mkState (Version s) names (NextSST s) (AppliedIndex s) (LastSeq s))
    | _ => None
    end else
  if same_name k (str "next_sst") then
    n ← store_num parse_uint v (NextSST s); Some (mkState (Version s) (SSTables s) n (AppliedIndex s) (LastSeq s)) else
  if same_name k (str "applied_index") then
    n ← store_num parse_uint v (AppliedIndex s); Some (mkState (Version s) (SSTables s) (NextSST s) n (LastSeq s)) else
  if same_name k (str "last_seq") then
    n ← store_num parse_uint v (LastSeq s); Some (mkState (Version s) (SSTables s) (NextSST s) (AppliedIndex s) n) else
  Some s.

Fixpoint set_fields (s : State) (l : list (bytes * json)) : option State :=
  match l with
  | [] => Some s
  | kv :: l' => s' ← set_field s kv; set_fields s' l'
  end.

(** json.Unmarshal into a zero State. *)
Definition unmarshal (data : bytes) : option State :=
  v ← parse data;
  match v with
  | JObj l => set_fields zeroState l
  | JNull => Some zeroState
  | _ => None
  end.

(** ** Load and Store *)

Definition decode (data : bytes) : res State :=
  match unmarshal data with
  | None => Err "decode manifest"
  | Some state => match Validate state with Some e => Err e | None => Ok state end
  end.

Definition Load : M World (State * bool) :=
  data ← os_Open fileName;
  match data with
  | None => mret (zeroState, false)
  | Some data => state ← of_res (decode data); mret (state, true)
  end.

(** On an error, close the file and return the error. *)
Definition or_close {A} (m : M World A) : M World A := catch m (fun e => ignore f_Close ;; raise e).

Definition Store (state0 : State) : M World unit :=
  let state := mkState version (SSTables state0) (NextSST state0) (AppliedIndex state0) (LastSeq state0) in
  match Validate state with
  | Some e => raise e
  | None =>
      os_Create tmpName ;;
      catch (or_close (sys_write tmpName 0 (state_bytes state)) ;;
             or_close f_Sync ;;
             f_Close ;;
             os_Rename tmpName fileName)
        (fun e => ignore (os_Remove tmpName) ;; raise e) ;;
      sys "open manifest dir" id ;;
      e ← try_err f_Sync;
      ignore f_Close ;;
      match e with Some e => raise e | None => mret tt end
  end.

(** ** Reading back a stored state *)

Record state_ok (s : State) : Prop := mkStateOk {
  st_version : 0 <= Version s < 2 ^ 63;
  st_next : 0 <= NextSST s < 2 ^ 64;
  st_applied : 0 <= AppliedIndex s < 2 ^ 64;
  st_last : 0 <= LastSeq s < 2 ^ 64
}.

Lemma dec_bound n : n < 2 ^ 64 -> n < 10 ^ 20.
Proof. lia. Qed.

Lemma parse_int_dec n : 0 <= n < 2 ^ 63 -> parse_int (dec n) = Some n.
Proof.
  intros Hn. unfold parse_int. destruct (dec_digits n) as [HF Hne]; [lia|].
  assert (starts 45 (dec n) = None) as ->.
  { destruct (dec n) as [|b t]; [done|]. inv HF. unfold is_digit in *. bool_hyps. simpl.
    by rewrite (proj2 (Z.eqb_neq _ _)) by lia. }
  rewrite parse_uint_dec by lia. simpl. by rewrite (proj2 (Z.ltb_lt _ _)) by lia.
Qed.

Lemma nums_ok_state s : state_ok s -> nums_ok (to_json s).
Proof.
  intros [H1 H2 H3 H4]. unfold to_json. apply nums_JObj. repeat (apply Forall_app; split).
  - repeat (apply Forall_cons; split); cbn [snd nums_ok]; [apply num_ok_dec; lia| |apply num_ok_dec; lia|constructor].
    destruct (SSTables s) as [|n l]; [done|]. apply nums_JArr. apply Forall_forall.
    intros v Hv. apply list_elem_of_fmap in Hv as (x & -> & _). done.
  - destruct (_ =? 0); [constructor|]. apply Forall_singleton. apply num_ok_dec. lia.
  - apply Forall_singleton. apply num_ok_dec. lia.
Qed.

Lemma mapM_store_string l : mapM store_string (JStr <$> l) = Some l.
Proof. induction l as [|x l IH]; [done|]. rewrite fmap_cons. simpl. by rewrite IH. Qed.

Lemma set_version s n : 0 <= n < 2 ^ 63 ->
  set_field s (str "version", JNum (dec n)) = Some (mkState n (SSTables s) (NextSST s) (AppliedIndex s) (LastSeq s)).
Proof. intros Hn. cbn [set_field]. rewrite (eq_refl : same_name (str "version") (str "version") = true). simpl store_num. by rewrite parse_int_dec. Qed.

Lemma set_sstables s names :
  set_field s (str "sstables", names_json names)
  = Some (mkState (Version s) names (NextSST s) (AppliedIndex s) (LastSeq s)).
Proof.
  unfold set_field. rewrite (eq_refl : same_name (str "sstables") (str "version") = false).
  rewrite (eq_refl : same_name (str "sstables") (str "sstables") = true).
  destruct names as [|n l]; [done|]. unfold names_json. by rewrite mapM_store_string.
Qed.

Lemma set_next s n : 0 <= n < 2 ^ 64 ->
  set_field s (str "next_sst", JNum (dec n)) = Some (mkState (Version s) (SSTables s) n (AppliedIndex s) (LastSeq s)).
Proof. intros Hn. unfold set_field. simpl store_num. rewrite parse_uint_dec by done. reflexivity. Qed.

Lemma set_applied s n : 0 <= n < 2 ^ 64 ->
  set_field s (str "applied_index", JNum (dec n)) = Some (mkState (Version s) (SSTables s) (NextSST s) n (LastSeq s)).
Proof. intros Hn. unfold set_field. simpl store_num. rewrite parse_uint_dec by done. reflexivity. Qed.

Lemma set_last s n : 0 <= n < 2 ^ 64 ->
  set_field s (str "last_seq", JNum (dec n)) = Some (mkState (Version s) (SSTables s) (NextSST s) (AppliedIndex s) n).
Proof. intros Hn. unfold set_field. simpl store_num. rewrite parse_uint_dec by done. reflexivity. Qed.

Lemma unmarshal_state s : state_ok s -> unmarshal (state_bytes s) = Some s.
Proof.
  intros Hs. unfold unmarshal, state_bytes. rewrite parse_print, some_bind by (by apply nums_ok_state).
  destruct Hs as [H1 H2 H3 H4]. unfold to_json. destruct s as [v l n a q]; cbn [Version SSTables NextSST AppliedIndex LastSeq] in *.
  destruct (Z.eqb_spec a 0) as [->|].
  - cbn [app set_fields]. rewrite set_version by done. rewrite some_bind, set_sstables, some_bind, set_next by done.
    rewrite some_bind, set_last by done. reflexivity.
  - cbn [app set_fields]. rewrite set_version by done. rewrite some_bind, set_sstables, some_bind, set_next by done.
    rewrite some_bind, set_applied by done. rewrite some_bind, set_last by done. reflexivity.
Qed.

(** ** Publication is atomic *)

(** The state Store writes. *)
Definition published (s : State) : State := mkState version (SSTables s) (NextSST s) (AppliedIndex s) (LastSeq s).

(** At every moment the MANIFEST file has the old or the new text, and no other
    file but the temporary one is touched. *)
Definition old_or_new (s : State) (fs0 fs : gmap bytes bytes) : Prop :=
  (forall n, n ∉ [tmpName; fileName] -> fs !! n = fs0 !! n) /\
  (fs !! fileName = fs0 !! fileName \/ fs !! fileName = Some (state_bytes (published s))).

Lemma tmp_ne_file : tmpName <> fileName.
Proof. discriminate. Qed.

Lemma old_or_new_tmp s fs0 c : old_or_new s fs0 (<[tmpName := c]> fs0).
Proof.
  split.
  - intros n Hn. apply lookup_insert_ne. set_solver.
  - left. by apply lookup_insert_ne.
Qed.

Lemma old_or_new_new s fs0 :
  old_or_new s fs0 (<[fileName := state_bytes (published s)]> (delete tmpName fs0)).
Proof.
  split.
  - intros n Hn. rewrite lookup_insert_ne, lookup_delete_ne by set_solver. done.
  - right. apply lookup_insert_eq.
Qed.

Lemma old_or_new_delete s fs0 fs : old_or_new s fs0 fs -> old_or_new s fs0 (delete tmpName fs).
Proof.
  intros [H1 H2]. split.
  - intros n Hn. rewrite lookup_delete_ne by set_solver. by apply H1.
  - by rewrite lookup_delete_ne by apply tmp_ne_file.
Qed.

Lemma Store_safe s w :
  Validate (published s) = None ->
  safe (old_or_new s (files w)) w (Store s) w (fun _ w' =>
    files w' = <[fileName := state_bytes (published s)]> (delete tmpName (files w))).
Proof.
  intros Hv. unfold Store. fold (published s). rewrite Hv.
  assert (old_or_new s (files w) (files w)) as H0 by (split; [done|by left]).
  set (data := state_bytes (published s)).
  assert (forall c d, write_bytes tmpName 0 d (<[tmpName := c]> (files w)) = <[tmpName := splice 0 d c]> (files w)) as Hwb.
  { intros c d. unfold write_bytes. by rewrite alter_insert_eq. }
  apply safe_bind, safe_sys; [done|done|apply old_or_new_tmp|]. intros w1 E1 Hf1 _ HJ1.
  apply safe_bind, safe_catch.
  - apply safe_bind, safe_catch.
    + apply safe_write; [done|done| |].
      { intros k. rewrite E1, Hwb. apply old_or_new_tmp. }
      rewrite E1, Hwb. change (splice 0 data []) with (data ++ []). rewrite app_nil_r.
      intros w2 E2 Hf2 _ HJ2. apply safe_bind, safe_catch.
      * apply safe_nop; [done|done|]. intros w3 E3 Hf3 _ HJ3.
        apply safe_bind, safe_nop; [done|done|]. intros w4 E4 Hf4 _ HJ4.
        assert (files w4 = <[tmpName := data]> (files w)) as E by (by rewrite E4, E3, E2).
        assert (<[fileName := data]> (delete tmpName (files w4)) = <[fileName := data]> (delete tmpName (files w))) as E'
          by (by rewrite E, delete_insert_eq).
        apply (safe_os_Rename _ _ _ Hf4 HJ4 _ _ data); [by rewrite E, lookup_insert_eq|rewrite E'; apply old_or_new_new|].
        intros w5 E5 Hf5 _ HJ5. apply safe_bind, safe_nop; [done|done|]. intros w6 E6 Hf6 _ HJ6.
        apply safe_bind, safe_try_err.
        -- apply safe_nop; [done|done|]. intros w7 E7 Hf7 _ HJ7.
           apply safe_bind, safe_ignore_nop; [done|done|]. intros w8 E8 Hf8 _ HJ8.
           apply safe_ret; [done|done|]. by rewrite E8, E7, E6, E5.
        -- intros e w7 Hf7 HJ7 Hc _ _. apply safe_bind, safe_ignore_nop; [done|done|]. intros w8 E8 Hf8 _ HJ8.
           by apply safe_raise.
      * intros e w3 Hf3 HJ3 Hc. apply safe_bind, safe_ignore_nop; [done|done|]. intros w4 E4 Hf4 _ HJ4.
        by apply safe_raise.
    + intros e w2 Hf2 HJ2 Hc. apply safe_bind, safe_ignore_nop; [done|done|]. intros w3 E3 Hf3 _ HJ3.
      by apply safe_raise.
  - intros e w2 Hf2 HJ2 Hc. apply safe_bind, safe_ignore_Remove; [done|done|by apply old_or_new_delete|..].
    + intros w3 E3 Hf3 _ HJ3. by apply safe_raise.
    + intros w3 E3 Hf3 _ _ HJ3. by apply safe_raise.
Qed.

Lemma decode_state s : Validate s = None -> state_ok s -> decode (state_bytes s) = Ok s.
Proof. intros Hv Hs. unfold decode. by rewrite unmarshal_state, Hv. Qed.

Lemma published_ok s : state_ok s -> state_ok (published s).
Proof. intros []. split; simpl; unfold version; lia. Qed.

Lemma Load_safe J w0 w s (Q : State * bool -> World -> Prop) :
  follows w0 w -> J (files w) -> files w !! fileName = Some (state_bytes s) ->
  Validate s = None -> state_ok s ->
  (forall w', files w' = files w -> follows w0 w' -> Q (s, true) w') -> safe J w0 Load w Q.
Proof.
  intros Hf HJ E Hv Hs HQ. unfold Load. apply safe_bind, safe_os_Open; [done|done|].
  rewrite E. intros w' E' Hf' _ HJ'. apply safe_bind. eapply safe_of_res; [done|done|by apply decode_state|].
  intros _ _. apply safe_ret; [done|done|]. by apply HQ.
Qed.

(** Storing a state and loading it gives the state back at the current format
    version; at every moment in between, also at an error or a crash, the
    MANIFEST file has either its old content or the complete new one, and only the
    temporary file besides it is touched. *)
Theorem store_load s w :
  Validate (published s) = None -> state_ok s ->
  safe (old_or_new s (files w)) w (Store s ;; Load) w (fun r _ => r = (published s, true)).
Proof.
  intros Hv Hs. apply safe_bind. eapply safe_mono; [by apply Store_safe|].
  intros [] w' Hf HJ E _ _. eapply Load_safe; [done|done| |done|by apply published_ok|done].
  by rewrite E, lookup_insert_eq.
Qed.

Lemma store_load_witness :
  let s := mkState 1 [str "000002.sst"; str "000007.sst"] 7 0 41 in
  Validate (published s) = None /\
  safe (old_or_new s ∅) (mkWorld ∅ []) (Store s ;; Load) (mkWorld ∅ []) (fun r _ => r = (published s, true)).
Proof.
  cbv zeta. assert (Validate (published (mkState 1 [str "000002.sst"; str "000007.sst"] 7 0 41)) = None) as Hv
    by (vm_compute; reflexivity).
  split; [exact Hv|]. apply (store_load (mkState 1 [str "000002.sst"; str "000007.sst"] 7 0 41) (mkWorld ∅ []) Hv).
  split; simpl; lia.
Defined.

(** ** What Validate accepts *)

Lemma validate_names_spec seen names :
  validate_names seen names = None <->
  Forall (fun n => valid_name n = true) names /\ NoDup names /\ (forall n, n ∈ names -> n ∉ seen).
Proof.
  revert seen. induction names as [|x names IH]; intros seen; cbn [validate_names].
  { split; [|done]. intros _. split_and!; [constructor|constructor|]. intros n []%not_elem_of_nil. }
  destruct (valid_name x) eqn:Ev; simpl negb; cbv iota.
  2:{ split; [done|]. intros [H _]. inv H. congruence. }
  case_bool_decide as Hx.
  { split; [done|]. intros (_ & _ & H). exfalso. by apply (H x); [left|]. }
  rewrite IH, Forall_cons, NoDup_cons. split.
  - intros (H1 & H2 & H3). split_and!; [done|done| |done|].
    + intros Hin. apply (H3 x Hin). left.
    + intros n [->|Hn]%elem_of_cons; [done|]. intros Hs. apply (H3 n Hn). by right.
  - intros ([_ H1] & [H2 H2'] & H3). split_and!; [done|done|].
    intros n Hn [->|Hs]%elem_of_cons; [done|]. by apply (H3 n); [right|].
Qed.

Lemma Validate_spec s :
  Validate s = None <->
  (Version s = 2 \/ Version s = 1) /\ Forall (fun n => valid_name n = true) (SSTables s) /\ NoDup (SSTables s).
Proof.
  unfold Validate, version, legacyVersion.
  destruct (Z.eqb_spec (Version s) 2), (Z.eqb_spec (Version s) 1); simpl; try lia;
    rewrite ?validate_names_spec; split; intros; destruct_and?; try done; try lia; split_and!; auto.
  - intros n' _ []%not_elem_of_nil.
  - intros n' _ []%not_elem_of_nil.
Qed.

(** The names of the tables: six digits or more and the suffix. *)
Definition sst_name (n : Z) : bytes := dec6 n ++ str ".sst".

Lemma HasSuffix_app l s : HasSuffix (l ++ s) s = true.
Proof.
  unfold HasSuffix. rewrite length_app. apply andb_true_iff. split; [apply Nat.leb_le; lia|].
  apply bool_decide_eq_true. replace (length l + length s - length s)%nat with (length l) by lia.
  by rewrite drop_app_length.
Qed.

Lemma Base_no_slash l : l <> [] -> Forall (fun b => no_slash b = true) l -> Base l = l.
Proof.
  intros Hne HF. assert (Forall (fun b => no_slash b = true) (reverse l)) as HR by (by apply Forall_reverse).
  assert (reverse l <> []) as Hr by (intros E; apply Hne; by rewrite <- (reverse_involutive l), E).
  assert (forall s, Forall (fun b => no_slash b = true) s -> trim_slashes s = s /\ upto_slash s = s) as Hs.
  { clear. intros s HF. split; [destruct HF as [|b s Hb _]; [done|]; simpl; by rewrite Hb|].
    induction HF as [|b s Hb _ IH]; [done|]. simpl. by rewrite Hb, IH. }
  destruct (Hs _ HR) as [H1 H2]. unfold Base. destruct l as [|x l]; [done|]. rewrite H1.
  destruct (reverse (x :: l)) as [|y t] eqn:E; [done|]. rewrite H2, <- E. apply reverse_involutive.
Qed.

Lemma sst_name_valid n : 0 <= n < 10 ^ 20 -> valid_name (sst_name n) = true.
Proof.
  intros Hn. destruct (dec6_digits n Hn) as [HF Hne]. unfold valid_name, sst_name.
  rewrite HasSuffix_app, andb_true_r. apply andb_true_iff. split.
  - rewrite bool_decide_false; [done|]. by destruct (dec6 n).
  - apply bool_decide_eq_true, Base_no_slash; [by destruct (dec6 n)|]. apply Forall_app. split.
    + eapply Forall_impl; [exact HF|]. intros b Hb. unfold is_digit, no_slash in *. bool_hyps.
      apply negb_true_iff, Z.eqb_neq. lia.
    + repeat constructor.
Qed.

Lemma sst_name_inj n m : 0 <= n < 10 ^ 20 -> 0 <= m < 10 ^ 20 -> sst_name n = sst_name m -> n = m.
Proof.
  intros Hn Hm E%(inj (.++ str ".sst")). rewrite <- (undec_dec6 n), <- (undec_dec6 m) by done. by rewrite E.
Qed.

End Manifest.
