(* ===== verification/Db.v ===== *)
(** * db: the embedded store and the replica store

    The DB handle of db.go on the files of its directory: [Open], [Get], [Set_],
    [Delete], [ApplyBatch], [Scan], [flush], [compact], [ForceFlush],
    [ForceCompact], [Close] and the replica state export and replacement. Methods
    hold the DB lock throughout, so each is one step. The directory is the world's
    file map; the path only tells a persistent store from an in-memory one. Elapsed
    times of the statistics are not kept. *)

From S2P Require Import Prelude GoStd Fs Memtable Bloom Wal Sstable Heap Compact Json Manifest.

Module Db.
Import Json Manifest.

Inductive DurabilityMode : Type := DurabilityEmbedded | DurabilityReplica.

Record Options : Type := mkOptions {
  FlushThreshold : Z; CompactionThreshold : Z; Mode : DurabilityMode }.

Definition DefaultOptions : Options := mkOptions 0 0 DurabilityEmbedded.

Definition flushThreshold (o : Options) : Z := if FlushThreshold o <=? 0 then 1000 else FlushThreshold o.
Definition compactionThreshold (o : Options) : Z := if CompactionThreshold o <=? 0 then 4 else CompactionThreshold o.

Record DB : Type := mkDB {
  mem : MemTable.MemTable;
  log : option nat;                 (* the offset of the open log; None for nil *)
  persistent : bool;                (* path <> "" *)
  readers : list Sstable.Reader;    (* newest first *)
  nextSST : Z;
  opts : Options;
  manifest : State;
  appliedIndex : Z;
  durableIndex : Z;
  closed : bool;
  flushes : Z;
  compactions : Z }.

Definition set_mem m db := mkDB m (log db) (persistent db) (readers db) (nextSST db) (opts db) (manifest db)
  (appliedIndex db) (durableIndex db) (closed db) (flushes db) (compactions db).
Definition set_log l db := mkDB (mem db) l (persistent db) (readers db) (nextSST db) (opts db) (manifest db)
  (appliedIndex db) (durableIndex db) (closed db) (flushes db) (compactions db).
Definition set_readers r db := mkDB (mem db) (log db) (persistent db) r (nextSST db) (opts db) (manifest db)
  (appliedIndex db) (durableIndex db) (closed db) (flushes db) (compactions db).
Definition set_nextSST n db := mkDB (mem db) (log db) (persistent db) (readers db) n (opts db) (manifest db)
  (appliedIndex db) (durableIndex db) (closed db) (flushes db) (compactions db).
Definition set_manifest s db := mkDB (mem db) (log db) (persistent db) (readers db) (nextSST db) (opts db) s
  (appliedIndex db) (durableIndex db) (closed db) (flushes db) (compactions db).
Definition set_applied i db := mkDB (mem db) (log db) (persistent db) (readers db) (nextSST db) (opts db) (manifest db)
  i (durableIndex db) (closed db) (flushes db) (compactions db).
Definition set_durable i db := mkDB (mem db) (log db) (persistent db) (readers db) (nextSST db) (opts db) (manifest db)
  (appliedIndex db) i (closed db) (flushes db) (compactions db).
Definition set_closed b db := mkDB (mem db) (log db) (persistent db) (readers db) (nextSST db) (opts db) (manifest db)
  (appliedIndex db) (durableIndex db) b (flushes db) (compactions db).
Definition count_flush db := mkDB (mem db) (log db) (persistent db) (readers db) (nextSST db) (opts db) (manifest db)
  (appliedIndex db) (durableIndex db) (closed db) (u64 (flushes db + 1)) (compactions db).
Definition count_compaction db := mkDB (mem db) (log db) (persistent db) (readers db) (nextSST db) (opts db) (manifest db)
  (appliedIndex db) (durableIndex db) (closed db) (flushes db) (u64 (compactions db + 1)).

Definition replica (db : DB) : bool := match Mode (opts db) with DurabilityReplica => true | DurabilityEmbedded => false end.

(** ** Effects on the handle and the directory *)

Definition St : Type := DB * World.
Definition get_db : M St DB := gets fst.
Definition put (f : DB -> DB) : M St unit := modify (fun s => (f s.1, s.2)).
Definition fs {A} (m : M World A) : M St A := zoom snd (fun w s => (s.1, w)) m.

(** A call on the open log. *)
Definition with_log {A} (m : M (nat * World) A) : M St A := fun s =>
  match log s.1 with
  | None => (Panic, s)
  | Some off => let '(r, (off', w')) := m (off, s.2) in (r, (set_log (Some off') s.1, w'))
  end.

(** ** Reading *)

(** The loop over the readers: an error or a miss goes on to the next one. *)
Fixpoint get_readers (rs : list Sstable.Reader) (key : bytes) : list Sstable.Reader * option Rec :=
  match rs with
  | [] => ([], None)
  | r :: rest =>
      match Sstable.Get r key with
      | (r', Ok (rec, true)) => (r' :: rest, Some rec)
      | (r', _) => let '(rest', o) := get_readers rest key in (r' :: rest', o)
      end
  end.

Definition Get (db : DB) (key : bytes) : DB * option bytes :=
  match MemTable.GetRecord (mem db) key with
  | Some r => (db, if RType r =? RecordTypeDelete then None else Some (Value r))
  | None =>
      let '(rs, o) := get_readers (readers db) key in
      (set_readers rs db,
       match o with
       | Some r => if RType r =? RecordTypeDelete then None else Some (Value r)
       | None => None
       end)
  end.

Record KVPair : Type := mkKV { kv_key : bytes; kv_value : bytes }.

(** The pairs of the live records of a map, sorted by key. *)
Definition live_pairs (byKey : gmap bytes Rec) : list KVPair :=
  sort_by kv_key ((fun kr => mkKV kr.1 (Value kr.2)) <$>
    filter (fun kr => RType kr.2 = RecordTypePut) (map_to_list byKey)).

Definition Scan (db : DB) (from to : bytes) : res (list KVPair) :=
  let memRecs := MemTable.ScanRange (mem db) from to in
  recs ← mapM (fun r => Sstable.Scan r from to) (readers db);
  Ok (live_pairs (foldl keep_newest ∅ (memRecs ++ concat recs))).

Definition SSTableCount (db : DB) : nat := length (readers db).
Definition BloomSkips (db : DB) : Z := foldl Z.add 0 (Sstable.BloomSkips <$> readers db).
Definition AppliedIndex_ (db : DB) : Z := appliedIndex db.
Definition DurableIndex (db : DB) : Z := durableIndex db.
Definition Stats (db : DB) : Z * Z := (flushes db, compactions db).

(** ** Flushing and compacting *)

Section paths.
Context {BS : BloomSizing}.

Definition with_tables (state : State) (names : list bytes) (next : Z) : State :=
  mkState (Version state) names next (AppliedIndex state) (LastSeq state).

Definition compact : M St unit :=
  db ← get_db;
  match readers db with
  | [] => mret tt
  | _ :: _ =>
      let next := u64 (nextSST db + 1) in
      put (set_nextSST next) ;;
      let outPath := sst_name next in
      let oldPaths := Sstable.Path <$> readers db in
      recordsOut ← catch (fs (Compact.Compact (readers db) outPath true))
                     (fun e => put (set_nextSST (nextSST db)) ;; raise e);
      newReaders ← (if 0 <? recordsOut then nr ← fs (Sstable.Open outPath); mret [nr] else mret []);
      let newNames := if 0 <? recordsOut then [outPath] else [] in
      let state := with_tables (manifest db) newNames next in
      catch (fs (Store state))
        (fun e => mfold (fun r => ignore (fs (Sstable.Close r))) newReaders ;;
                  (if 0 <? recordsOut then ignore (fs (os_Remove outPath)) else mret tt) ;;
                  put (set_nextSST (nextSST db)) ;; raise e) ;;
      mfold (fun r => ignore (fs (Sstable.Close r))) (readers db) ;;
      mfold (fun p => ignore (fs (os_Remove p))) oldPaths ;;
      put (set_readers newReaders) ;;
      put (set_manifest state) ;;
      put count_compaction
  end.

Definition maybeCompact : M St unit :=
  db ← get_db;
  if Z.of_nat (length (readers db)) <? compactionThreshold (opts db) then mret tt else compact.

Definition flush : M St unit :=
  db ← get_db;
  let records := MemTable.SortedEntries (mem db) in
  match records with
  | [] =>
      if replica db && (durableIndex db <? appliedIndex db) then
        let m := manifest db in
        let state := mkState (Version m) (SSTables m) (NextSST m) (appliedIndex db) (LastSeq m) in
        fs (Store state) ;; put (set_manifest state) ;; put (set_durable (appliedIndex db))
      else mret tt
  | _ :: _ =>
      if negb (persistent db) then mret tt else
      let next := u64 (nextSST db + 1) in
      put (set_nextSST next) ;;
      let sstName := sst_name next in
      catch (fs (Sstable.Write sstName records)) (fun e => put (set_nextSST (nextSST db)) ;; raise e) ;;
      r ← catch (fs (Sstable.Open sstName))
            (fun e => put (set_nextSST (nextSST db)) ;; ignore (fs (os_Remove sstName)) ;; raise e);
      let m := manifest db in
      let state := if replica db
        then mkState (Version m) (SSTables m ++ [sstName]) next (appliedIndex db) (LastSeq m)
        else mkState (Version m) (SSTables m ++ [sstName]) next (AppliedIndex m)
               (Z.max (LastSeq m) (u64 (MemTable.NextSeq (mem db) - 1))) in
      catch (fs (Store state))
        (fun e => ignore (fs (Sstable.Close r)) ;; ignore (fs (os_Remove sstName)) ;;
                  put (set_nextSST (nextSST db)) ;; raise e) ;;
      put (set_readers (r :: readers db)) ;;
      put (set_mem (MemTable.NewWithSeq (MemTable.NextSeq (mem db)))) ;;
      put (set_manifest state) ;;
      (if replica db then put (set_durable (appliedIndex db)) else mret tt) ;;
      (match log db with Some _ => with_log Wal.Reset | None => mret tt end) ;;
      put count_flush ;;
      maybeCompact
  end.

Definition maybeFlush : M St unit :=
  db ← get_db;
  if negb (persistent db) then mret tt else
  if Z.of_nat (MemTable.Size (mem db)) <? flushThreshold (opts db) then mret tt else flush.

Definition ForceFlush : M St unit := flush.
Definition ForceCompact : M St unit := compact.

(** ** Writing *)

(** Set and Delete differ in the record only. *)
Definition write_record (wtype rtype : Z) (key value : bytes) : M St unit :=
  db ← get_db;
  let '(seq, m) := MemTable.AllocSeq (mem db) in
  put (set_mem m) ;;
  (match log db with
   | Some _ => with_log (Wal.Append (Wal.mkWRec wtype seq key value))
   | None => mret tt
   end) ;;
  put (fun db => set_mem (MemTable.SetRaw (mem db) (mkRec key value seq rtype)) db) ;;
  maybeFlush.

Definition Set_ (key value : bytes) : M St unit :=
  db ← get_db;
  if replica db then raise "Set is unavailable in replica mode; use ApplyBatch"
  else write_record Wal.TypePut RecordTypePut key value.

Definition Delete (key : bytes) : M St unit :=
  db ← get_db;
  if replica db then raise "Delete is unavailable in replica mode; use ApplyBatch"
  else write_record Wal.TypeDelete RecordTypeDelete key [].

Definition MutationPut : Z := 0.
Definition MutationDelete : Z := 1.

Record Mutation : Type := mkMutation { mType : Z; mKey : bytes; mValue : bytes }.

Fixpoint check_mutations (l : list Mutation) : option string :=
  match l with
  | [] => None
  | m :: l' =>
      if key_eqb (mKey m) [] then Some "mutation key must not be empty"%string else
      if negb (mType m =? MutationPut) && negb (mType m =? MutationDelete) then Some "unknown mutation type"%string else
      check_mutations l'
  end.

Definition mutation_record (index : Z) (m : Mutation) : Rec :=
  mkRec (mKey m) (mValue m) index (if mType m =? MutationDelete then RecordTypeDelete else RecordTypePut).

Definition ApplyBatch (index : Z) (mutations : list Mutation) : M St unit :=
  db ← get_db;
  if negb (replica db) then raise "ApplyBatch requires replica durability mode" else
  if index =? 0 then raise "apply index must be greater than zero" else
  if index <=? appliedIndex db then mret tt else
  if negb (index =? u64 (appliedIndex db + 1)) then raise "apply index gap" else
  match check_mutations mutations with
  | Some e => raise e
  | None =>
      put (fun db => set_mem (foldl MemTable.SetRaw (mem db) (mutation_record index <$> mutations)) db) ;;
      put (set_applied index) ;;
      maybeFlush
  end.

(** The first error of closing every reader and the log. *)
Definition first_error (a b : option string) : option string := match a with Some e => Some e | None => b end.

Definition close_all : M St (option string) :=
  db ← get_db;
  e1 ← (fix go rs := match rs with
                     | [] => mret None
                     | r :: rest => e ← try_err (fs (Sstable.Close r)); e' ← go rest; mret (first_error e e')
                     end) (readers db);
  e2 ← (match log db with Some _ => try_err (with_log Wal.Close) | None => mret None end);
  mret (first_error e1 e2).

Definition Close : M St unit :=
  db ← get_db;
  if closed db then mret tt else
  (if replica db then flush else mret tt) ;;
  put (set_closed true) ;;
  e ← close_all;
  match e with Some e => raise e | None => mret tt end.

(** ** Opening *)

(** fmt.Sscanf(name, "%d.sst", &n): the leading number is stored even when what
    follows does not match; n is left alone when there is none. *)
Definition scan_number (name : bytes) : option Z :=
  let '(d, _) := take_digits (skip name) in
  match d with
  | [] => None
  | _ => if undec d <? 2 ^ 64 then Some (undec d) else None
  end.

Definition closeReaders (rs : list Sstable.Reader) : M World unit := mfold (fun r => ignore (Sstable.Close r)) rs.

(** The loop of openSSTables over the names, newest first. *)
Fixpoint open_all (names : list bytes) (opened : list Sstable.Reader) : M World (list Sstable.Reader) :=
  match names with
  | [] => mret opened
  | n :: rest =>
      r ← catch (Sstable.Open n) (fun e => closeReaders opened ;; raise e);
      open_all rest (opened ++ [r])
  end.

(** The names of the table files in the directory, sorted. *)
Definition dir_tables (files : gmap bytes bytes) : list bytes :=
  sort_by id (filter (fun n => HasSuffix n (str ".sst") = true) (fst <$> map_to_list files)).

Definition bootstrap_state (names : list bytes) : State :=
  mkState version names (match last names with Some n => default 0 (scan_number n) | None => 0 end) 0 0.

Definition openSSTables : M World (list Sstable.Reader * State * bool) :=
  loaded ← Load;
  let '(state0, ok) := loaded in
  state ← (if ok then mret state0 else
             sys "read db dir" id ;; gets (fun w => bootstrap_state (dir_tables (files w))));
  rs ← open_all (reverse (SSTables state)) [];
  mret (rs, state, negb ok).

Fixpoint max_loop (fuel : nat) (r : Sstable.Reader) (pos highest : Z) : res Z :=
  match fuel with
  | O => Ok highest
  | S fuel' =>
      rec ← Sstable.Next r pos;
      match rec with
      | None => Ok highest
      | Some (x, pos') => max_loop fuel' r pos' (Z.max highest (SeqNum x))
      end
  end.

(** The file length bounds the number of records. *)
Fixpoint maxSequence (rs : list Sstable.Reader) (highest : Z) : res Z :=
  match rs with
  | [] => Ok highest
  | r :: rest => h ← max_loop (S (length (Sstable.r_content r))) r 0 highest; maxSequence rest h
  end.

Fixpoint renumber (base : Z) (i : Z) (l : list Wal.WRec) : list Wal.WRec :=
  match l with
  | [] => []
  | r :: l' => Wal.mkWRec (Wal.wType r) (u64 (base + i + 1)) (Wal.wKey r) (Wal.wValue r) :: renumber base (i + 1) l'
  end.

Definition sequenceWAL (records : list Wal.WRec) (lastSeq : Z) (legacy : bool) : list Wal.WRec * bool :=
  if negb legacy then (filter (fun r => lastSeq < Wal.wSeqNum r) records, false) else
  let base := foldl (fun b r => Z.max b (Wal.wSeqNum r)) lastSeq records in
  let reused := existsb (fun r => Wal.wSeqNum r <=? lastSeq) records in
  if negb reused then (records, false) else (renumber base 0 records, true).

(** A log record as a memtable record: types 1 and 2 become 0 and 1. *)
Definition of_wal (r : Wal.WRec) : Rec := mkRec (Wal.wKey r) (Wal.wValue r) (Wal.wSeqNum r) (Wal.wType r - 1).

Definition publishSequenceUpgrade (lastSeq : Z) (renumbered : bool) : M St unit :=
  db ← get_db;
  let m := manifest db in
  let state := mkState (Version m) (SSTables m) (NextSST m) (AppliedIndex m) lastSeq in
  if renumbered then put (set_manifest state) ;; flush
  else fs (Store state) ;; put (set_manifest state).

(** Run a method on a handle of its own. *)
Definition run_db (m : M St unit) (db : DB) : M World DB := fun w =>
  let '(r, (db', w')) := m (db, w) in (res_map (fun _ => db') r, w').

(** A call on a log at an offset, which moves. *)
Definition on_log {A} (off : nat) (m : M (nat * World) A) : M World (A * nat) := fun w =>
  let '(r, (off', w')) := m (off, w) in (res_map (fun a => (a, off')) r, w').

Definition openEmbedded (o : Options) (rs : list Sstable.Reader) (state : State) (lastSeq : Z) (legacy : bool)
    : M World DB :=
  off ← catch Wal.Open (fun e => closeReaders rs ;; raise e);
  replayed ← catch (on_log off Wal.ReadAll) (fun e => ignore (on_log off Wal.Close) ;; closeReaders rs ;; raise e);
  let '(records, renumbered) := sequenceWAL replayed.1 lastSeq legacy in
  let m := foldl MemTable.SetRaw (MemTable.NewWithSeq (u64 (lastSeq + 1))) (of_wal <$> records) in
  let db := mkDB m (Some replayed.2) true rs (NextSST state) o state 0 0 false 0 0 in
  if legacy then
    run_db (catch (publishSequenceUpgrade lastSeq renumbered) (fun e => ignore Close ;; raise e)) db
  else mret db.

Definition Open (persistent : bool) (o : Options) : M World DB :=
  if negb persistent then
    match Mode o with
    | DurabilityReplica => raise "replica durability requires a persistent path"
    | DurabilityEmbedded => mret (mkDB MemTable.New None false [] 0 o zeroState 0 0 false 0 0)
    end
  else
    sys "create db dir" id ;;
    opened ← openSSTables;
    let '(rs, state, bootstrapped) := opened in
    match Mode o with
    | DurabilityReplica =>
        (if bootstrapped then catch (Store state) (fun e => closeReaders rs ;; raise e) else mret tt) ;;
        mret (mkDB MemTable.New None true rs (NextSST state) o state (AppliedIndex state) (AppliedIndex state) false 0 0)
    | DurabilityEmbedded =>
        let legacy := bootstrapped || Legacy state in
        lastSeq ← (if legacy then catch (of_res (maxSequence rs 0)) (fun e => closeReaders rs ;; raise e)
                   else mret (LastSeq state));
        openEmbedded o rs state lastSeq legacy
    end.

(** ** Replica snapshots held in memory *)

Definition ExportReplicaState (db : DB) : res (list KVPair) :=
  if negb (replica db) then Err "replica state export requires replica durability mode" else
  recs ← mapM Sstable.LoadAll (readers db);
  Ok (live_pairs (foldl keep_newest ∅ (MemTable.SortedEntries (mem db) ++ concat recs))).

(** The loop that checks the pairs and builds the records. *)
Fixpoint snapshot_records (index : Z) (previous : option bytes) (pairs : list KVPair) : option (list Rec) :=
  match pairs with
  | [] => Some []
  | p :: rest =>
      if key_eqb (kv_key p) [] || match previous with Some k => key_leb (kv_key p) k | None => false end then None else
      l ← snapshot_records index (Some (kv_key p)) rest;
      Some (mkRec (kv_key p) (kv_value p) index RecordTypePut :: l)
  end.

(** The state after a snapshot at [index] was published: new tables, empty
    memtable; then the old tables are closed and removed. *)
Definition install (index next : Z) (state : State) (newReaders : list Sstable.Reader) (newPath : bytes) : M St unit :=
  db ← get_db;
  put (set_readers newReaders) ;;
  put (set_mem (MemTable.NewWithSeq (u64 (index + 1)))) ;;
  put (set_nextSST next) ;;
  put (set_manifest state) ;;
  put (set_applied index) ;;
  put (set_durable index) ;;
  mfold (fun r => ignore (fs (Sstable.Close r))) (readers db) ;;
  mfold (fun p => if key_eqb p newPath then mret tt else ignore (fs (os_Remove p))) (Sstable.Path <$> readers db).

Definition ReplaceReplicaState (index : Z) (pairs : list KVPair) : M St unit :=
  db ← get_db;
  if negb (replica db) then raise "replica state replacement requires replica durability mode" else
  if index =? 0 then raise "snapshot index must be positive" else
  if index <? appliedIndex db then raise "snapshot index is older than applied index" else
  match snapshot_records index None pairs with
  | None => raise "snapshot keys must be non-empty and strictly sorted"
  | Some records =>
      let next := u64 (nextSST db + 1) in
      let name := match records with [] => [] | _ => sst_name next end in
      newReaders ← (match records with
                    | [] => mret []
                    | _ => fs (Sstable.Write name records) ;;
                           r ← catch (fs (Sstable.Open name)) (fun e => ignore (fs (os_Remove name)) ;; raise e);
                           mret [r]
                    end);
      let m := manifest db in
      let state := mkState (Version m) (match records with [] => [] | _ => [name] end) next index (LastSeq m) in
      catch (fs (Store state))
        (fun e => mfold (fun r => ignore (fs (Sstable.Close r))) newReaders ;;
                  (match records with [] => mret tt | _ => ignore (fs (os_Remove name)) end) ;; raise e) ;;
      install index next state newReaders name
  end.

End paths.
End Db.
