(* ===== verification/Recovery.v ===== *)
(** * What the store keeps, through crashes

    The files of a store described by the data they hold ([Disk]), the key-value
    map they stand for ([View]), and the invariant that ties an open handle to its
    files ([Inv]). Shown: lookups and scans answer from the map; writes, flushes
    and compactions keep the invariant, change the map as specified, and at every
    crash leave files from which the map before or after the operation is
    recovered; opening recovers it. *)

From S2P Require Import Prelude GoStd Fs Memtable Bloom Wal Sstable Heap Compact Json Manifest Db.

Module Recovery.
Import Sstable Manifest Db.

(** ** Layers of records *)

(** Every record of l is newer than every record of l'. *)
Definition above (l l' : list Rec) : Prop := forall r r', r ∈ l -> r' ∈ l' -> SeqNum r' < SeqNum r.

Definition layered (ls : list (list Rec)) : Prop := StronglySorted above ls.

Definition or_else {A} (a b : option A) : option A := match a with Some x => Some x | None => b end.

Lemma newest_above k l1 l2 : above l1 l2 -> newest k (l1 ++ l2) = or_else (newest k l1) (newest k l2).
Proof.
  intros Ha. unfold newest at 1. rewrite newest_from_app. fold (newest k l1).
  destruct (newest k l1) as [r|] eqn:E; simpl; [|done]. apply newest_Some in E as (Hr & _ & _).
  apply newest_from_older. intros r' Hr' _. specialize (Ha r r' Hr Hr'). lia.
Qed.

Lemma above_concat l ls : Forall (above l) ls -> above l (concat ls).
Proof.
  intros HF r r' Hr Hr'. apply list_elem_of_In, in_concat in Hr' as (l' & Hl' & Hr').
  rewrite Forall_forall in HF. apply (HF l'); [by apply list_elem_of_In|done|by apply list_elem_of_In].
Qed.

Lemma layered_unique ls : layered ls -> Forall (key_sorted Key) ls -> seq_unique (concat ls).
Proof.
  unfold layered. induction 1 as [|l ls Hs IH Ha]; intros HF; [by intros r r' []%not_elem_of_nil|].
  inv HF. apply above_concat in Ha. intros r r' Hr Hr' Ek Es. simpl in Hr, Hr'.
  apply elem_of_app in Hr as [Hr|Hr], Hr' as [Hr'|Hr'].
  - by apply (key_sorted_inj Key l).
  - specialize (Ha r r' Hr Hr'). lia.
  - specialize (Ha r' r Hr' Hr). lia.
  - by apply IH.
Qed.

(** ** Lookup through the readers *)

Lemma get_readers_reads rs ls key :
  Forall2 reads rs ls -> layered ls ->
  (get_readers rs key).2 = newest key (concat ls).
Proof.
  intros HF. revert key. induction HF as [|r l rs ls Hr HF IH]; intros key Hs; [done|].
  unfold layered in Hs. inv Hs. apply above_concat in H2. cbn [concat get_readers].
  rewrite newest_above by done. pose proof (reads_Get r l key Hr) as Hg. specialize (IH key H1).
  destruct (Sstable.Get r key) as [r' x]. simpl in Hg. subst x. unfold found.
  destruct (newest key l) as [rec|]; simpl; [done|]. destruct (get_readers rs key). exact IH.
Qed.

Lemma get_readers_same {T} rs (ls : list T) key (P : Reader -> T -> Prop) :
  (forall r l, P r l -> P (Sstable.Get r key).1 l) -> Forall2 P rs ls -> Forall2 P (get_readers rs key).1 ls.
Proof.
  intros HP. induction 1 as [|r l rs ls Hr HF IH]; [constructor|]. cbn [get_readers].
  specialize (HP r l Hr). destruct (Sstable.Get r key) as [r' x]. simpl in HP.
  destruct (get_readers rs key) as [rest' o]. simpl in IH.
  destruct x as [[? []]|?| |]; simpl; by constructor.
Qed.

(** ** The contents of the directory *)

Record Disk : Type := mkDisk {
  d_state : State;
  d_tables : list (bytes * list Rec);     (* newest first *)
  d_wal : option (list Wal.WRec)          (* None in replica mode *)
}.

Definition wal_records (D : Disk) : list Wal.WRec := default [] (d_wal D).

(** The log records not yet in a table, as memtable records. *)
Definition pending (D : Disk) : list Rec :=
  of_wal <$> filter (fun r => LastSeq (d_state D) < Wal.wSeqNum r) (wal_records D).

Definition tables (D : Disk) : list (list Rec) := (d_tables D).*2.
Definition names (D : Disk) : list bytes := (d_tables D).*1.

(** The map the files stand for: the newest record of each key, if live. *)
Definition View (D : Disk) (k : bytes) : option bytes := newest k (pending D ++ concat (tables D)) ≫= live.

(** Records up to this sequence number are in tables. *)
Definition d_floor (D : Disk) : Z :=
  match d_wal D with Some _ => LastSeq (d_state D) | None => AppliedIndex (d_state D) end.

Definition d_replica (D : Disk) : bool := match d_wal D with Some _ => false | None => true end.

Definition type_ok (r : Rec) : Prop := RType r = RecordTypePut \/ RType r = RecordTypeDelete.

Record disk_ok (D : Disk) : Prop := mkDiskOk {
  dk_version : Version (d_state D) = 2;
  dk_state : state_ok (d_state D);
  dk_sst : SSTables (d_state D) = reverse (names D);
  dk_names : Forall (fun n => exists i, n = sst_name i /\ 0 <= i <= NextSST (d_state D)) (names D);
  dk_nodup : NoDup (names D);
  dk_fits : Forall fits (tables D);
  dk_types : Forall type_ok (concat (tables D));
  dk_layered : layered (tables D);
  dk_floor : Forall (fun r => SeqNum r <= d_floor D) (concat (tables D));
  dk_wal : Forall Wal.valid (wal_records D);
  dk_order : StronglySorted (fun a b => Wal.wSeqNum a < Wal.wSeqNum b) (wal_records D);
  dk_last : LastSeq (d_state D) + 1 < 2 ^ 64;
  dk_seqs : Forall (fun r => Wal.wSeqNum r + 1 < 2 ^ 64) (wal_records D)
}.

(** What is left of a record whose write was cut short: not exactly its header. *)
Definition torn_ok (torn : bytes) : Prop :=
  exists r k, Wal.valid r /\ (k < length (Wal.encode r))%nat /\ k <> 17%nat /\ torn = take k (Wal.encode r).

(** The schedules a method is run under: no call fails, and whatever else is asked
    of a schedule holds of the rest of it as calls are made. *)
Class Schedules : Type := {
  good : World -> Prop;
  good_crash_only w : good w -> crash_only w;
  good_follows w w' : follows w w' -> good w -> good w' }.

(** Every schedule of crashes. *)
Definition crashes : Schedules := {|
  good := crash_only; good_crash_only w H := H; good_follows := crash_only_follows |}.

(** Every schedule of crashes, where P is known when one of them comes 17 bytes
    into a write. A record of the log opens with a header of 17 bytes, and replay
    takes a log cut there for a corrupt one (see [Wal.replay_header_only_fails]). *)
Definition cut_good (P : Prop) (w : World) : Prop := crash_only w /\ (Crashes 17 ∈ fates w -> P).

Lemma cut_good_follows P w w' : follows w w' -> cut_good P w -> cut_good P w'.
Proof.
  intros Hf [H1 H2]. split; [by eapply crash_only_follows|]. destruct Hf as [l E]. rewrite E in H2. set_solver.
Qed.

Definition cutting (P : Prop) : Schedules := {|
  good := cut_good P; good_crash_only w H := proj1 H; good_follows := cut_good_follows P |}.

Definition crash_onlyb (l : list fate) : bool := forallb (fun f => match f with Fails _ => false | _ => true end) l.

Lemma crash_onlyb_spec fs l : crash_onlyb l = true -> crash_only (mkWorld fs l).
Proof.
  unfold crash_onlyb, crash_only. rewrite forallb_forall. simpl. intros Hl.
  apply List.Forall_forall. intros f Hf%Hl. by destruct f.
Qed.

Section files.
Context {BS : BloomSizing}.

Record on_disk (D : Disk) (torn : bytes) (fs : gmap bytes bytes) : Prop := mkOnDisk {
  od_manifest : fs !! fileName = Some (state_bytes (d_state D));
  od_tables : Forall (fun t => fs !! t.1 = Some (table_bytes t.2)) (d_tables D);
  od_wal : forall l, d_wal D = Some l -> fs !! Wal.walName = Some (Wal.encode_all l ++ torn)
}.

(** The files from which a map and an applied index are recovered, in replica mode
    or in embedded mode. *)
Definition recoverable (b : bool) (V : bytes -> option bytes) (i : Z) (fs : gmap bytes bytes) : Prop :=
  exists D torn, disk_ok D /\ on_disk D torn fs /\ torn_ok torn /\
    (forall k, View D k = V k) /\ (AppliedIndex (d_state D), d_replica D) = (i, b).

(** The invariant of an open handle. *)
Record Inv (db : DB) (w : World) (D : Disk) : Prop := mkInv {
  inv_ok : disk_ok D;
  inv_disk : on_disk D [] (files w);
  inv_persistent : persistent db = true;
  inv_readers : Forall2 (fun r t => reads r t.2 /\ r_name r = t.1) (readers db) (d_tables D);
  inv_manifest : published (manifest db) = d_state D;
  inv_next : nextSST db = NextSST (d_state D);
  inv_mem : MemTable.wf (mem db);
  inv_mem_ok : forall k r, MemTable.entries (mem db) !! k = Some r -> rec_ok r /\ type_ok r /\ d_floor D < SeqNum r;
  inv_log : log db = (fun l => length (Wal.encode_all l)) <$> d_wal D;
  inv_mode : replica db = d_replica D;
  inv_wal : forall l, d_wal D = Some l ->
    (forall k, MemTable.entries (mem db) !! k = newest k (pending D)) /\
    Forall (fun r => Wal.wSeqNum r < MemTable.nextSeq (mem db)) l /\ LastSeq (d_state D) < MemTable.nextSeq (mem db);
  inv_replica : d_wal D = None ->
    durableIndex db = AppliedIndex (d_state D) /\ durableIndex db <= appliedIndex db < 2 ^ 64 /\
    (forall k r, MemTable.entries (mem db) !! k = Some r -> SeqNum r <= appliedIndex db)
}.

(** The map the handle stands for. *)
Definition Mview (db : DB) (D : Disk) (k : bytes) : option bytes :=
  newest k (MemTable.SortedEntries (mem db) ++ concat (tables D)) ≫= live.

(** ** Reading *)

Lemma inv_reads db w D : Inv db w D -> Forall2 reads (readers db) (tables D).
Proof.
  intros Hi. pose proof (inv_readers _ _ _ Hi) as HF. unfold tables. apply Forall2_fmap_r.
  eapply Forall2_impl; [exact HF|]. by intros r t [? _].
Qed.

Lemma mem_above db w D : Inv db w D -> above (MemTable.SortedEntries (mem db)) (concat (tables D)).
Proof.
  intros Hi r r' Hr Hr'. apply MemTable.elem_of_SortedEntries in Hr; [|by eapply inv_mem].
  destruct (inv_mem_ok _ _ _ Hi _ _ Hr) as (_ & _ & Hlt).
  pose proof (dk_floor _ (inv_ok _ _ _ Hi)) as HF. rewrite Forall_forall in HF. specialize (HF r' Hr'). simpl in HF. lia.
Qed.

Lemma Mview_layers db w D k :
  Inv db w D ->
  Mview db D k = or_else (MemTable.entries (mem db) !! k) (newest k (concat (tables D))) ≫= live.
Proof.
  intros Hi. unfold Mview. rewrite newest_above by (by eapply mem_above).
  by rewrite MemTable.newest_SortedEntries by (by eapply inv_mem).
Qed.

Lemma pending_above D : disk_ok D -> above (pending D) (concat (tables D)).
Proof.
  intros Hd r r' Hr Hr'. unfold pending, wal_records in Hr. pose proof (dk_floor D Hd) as HF. rewrite Forall_forall in HF.
  specialize (HF r' Hr'). unfold d_floor in HF. simpl in HF. destruct (d_wal D) as [l|]; [|by apply not_elem_of_nil in Hr].
  apply list_elem_of_fmap in Hr as (x & -> & [Hx _]%list_elem_of_filter). simpl. lia.
Qed.

(** With a log, the files stand for what the handle stands for. *)
Lemma View_Mview db w D k : Inv db w D -> d_wal D <> None -> View D k = Mview db D k.
Proof.
  intros Hi Hl. rewrite (Mview_layers _ _ _ _ Hi). unfold View. rewrite newest_above by (by apply pending_above, Hi).
  destruct (d_wal D) as [l|] eqn:E; [|done]. destruct (inv_wal _ _ _ Hi l E) as [-> _]. done.
Qed.

Lemma live_match r : (if RType r =? RecordTypeDelete then None else Some (Value r)) = live r.
Proof. done. Qed.

Lemma Inv_set_readers db w D rs :
  Inv db w D -> Forall2 (fun r t => reads r t.2 /\ r_name r = t.1) rs (d_tables D) -> Inv (set_readers rs db) w D.
Proof. intros [] HF. by split. Qed.

(** Get of an open store returns the value of the newest record of the key, or
    nothing if there is none or it is a tombstone, although it stops at the first
    table that has the key; the handle stays valid. *)
Lemma Get_spec db w D k :
  Inv db w D -> (Db.Get db k).2 = Mview db D k /\ Inv (Db.Get db k).1 w D.
Proof.
  intros Hi. rewrite (Mview_layers _ _ _ _ Hi). unfold Db.Get, MemTable.GetRecord.
  destruct (MemTable.entries (mem db) !! k) as [r|] eqn:E; [done|]. simpl.
  pose proof (get_readers_reads _ _ k (inv_reads _ _ _ Hi) (dk_layered _ (inv_ok _ _ _ Hi))) as Hg.
  assert (Forall2 (fun r t => reads r t.2 /\ r_name r = t.1) (get_readers (readers db) k).1 (d_tables D)) as Hs.
  { apply get_readers_same; [|by apply (inv_readers _ _ _ Hi)]. intros r t [Hr Hn].
    split; [by apply reads_Get_reader|]. unfold Sstable.Get. destruct (negb _); [done|]. by destruct (_ || _). }
  destruct (get_readers (readers db) k) as [rs o]. simpl in *. subst o. split; [|by apply Inv_set_readers].
  by destruct (newest k (concat (tables D))).
Qed.

(** ** Scanning *)

Lemma newest_filter (P : Rec -> Prop) `{forall r, Decision (P r)} k l :
  (forall r, r ∈ l -> Key r = k -> P r) -> newest k (filter P l) = newest k l.
Proof.
  unfold newest. generalize (@None Rec) as o. induction l as [|r l IH]; intros o HP; [done|].
  rewrite filter_cons. cbn [newest_from foldl].
  destruct (decide (P r)) as [Hr|Hr]; cbn [foldl].
  - apply IH. intros x Hx. apply HP. by right.
  - destruct (key_eqb (Key r) k) eqn:E; key_bools.
    + exfalso. apply Hr. apply HP; [left|done].
    + apply IH. intros x Hx. apply HP. by right.
Qed.

Lemma filter_concat {A} (P : A -> Prop) `{forall x, Decision (P x)} (ls : list (list A)) :
  filter P (concat ls) = concat (filter P <$> ls).
Proof. induction ls as [|l ls IH]; [done|]. rewrite fmap_cons. cbn [concat]. by rewrite filter_app, IH. Qed.

Lemma scan_readers rs ls from to :
  Forall2 reads rs ls -> mapM (fun r => Sstable.Scan r from to) rs = Ok (filter (in_range from to) <$> ls).
Proof.
  induction 1 as [|r l rs ls Hr _ IH]; [done|]. simpl mapM. rewrite (reads_Scan r l from to Hr), bind_ok.
  rewrite IH, bind_ok. done.
Qed.

Lemma ScanRange_in_range m from to :
  MemTable.wf m -> MemTable.ScanRange m from to = filter (in_range from to) (MemTable.SortedEntries m).
Proof.
  intros Hw. rewrite MemTable.ScanRange_filter by done. rewrite list_filter_filter.
  apply list_filter_iff. intros r. unfold in_range. tauto.
Qed.

(** The pairs of a map of records that are stored under their key. *)
Lemma live_pairs_spec (byKey : gmap bytes Rec) :
  StronglySorted key_lt (kv_key <$> live_pairs byKey) /\
  forall k v, mkKV k v ∈ live_pairs byKey <->
    exists r, byKey !! k = Some r /\ RType r = RecordTypePut /\ Value r = v.
Proof.
  unfold live_pairs. set (l := filter _ (map_to_list byKey)). split.
  - assert (NoDup (kv_key <$> ((fun kr => mkKV kr.1 (Value kr.2)) <$> l))) as Hn.
    { rewrite <- list_fmap_compose. rewrite (list_fmap_ext _ fst) by (by intros i [k r]).
      apply (sublist_NoDup _ (map_to_list byKey).*1); [apply NoDup_fst_map_to_list|].
      apply fmap_sublist, sublist_filter. }
    apply sort_by_sorted in Hn. unfold key_sorted in Hn. induction Hn as [|x l' Hs IH HF]; [constructor|].
    simpl. constructor; [done|]. apply Forall_fmap. exact HF.
  - intros k v. rewrite elem_of_sort_by, list_elem_of_fmap. split.
    + intros ([k' r] & [= -> ->] & [Ht Hin%elem_of_map_to_list]%list_elem_of_filter). eauto.
    + intros (r & Hr & Ht & <-). exists (k, r). split; [done|]. apply list_elem_of_filter.
      split; [done|]. by apply elem_of_map_to_list.
Qed.

Lemma live_put r v : type_ok r -> live r = Some v <-> RType r = RecordTypePut /\ Value r = v.
Proof.
  unfold live, type_ok, RecordTypePut, RecordTypeDelete.
  intros [->| ->]; simpl; (split; [intros [= <-]|intros [? <-]]); done || lia.
Qed.

Lemma mem_types db w D r : Inv db w D -> r ∈ MemTable.SortedEntries (mem db) -> type_ok r.
Proof.
  intros Hi Hr. apply MemTable.elem_of_SortedEntries in Hr; [|by eapply inv_mem].
  by destruct (inv_mem_ok _ _ _ Hi _ _ Hr) as (_ & ? & _).
Qed.

(** C31: Scan returns, sorted by key, exactly the pairs of the map the store stands
    for whose key is in the closed range. *)
Theorem Scan_correct db w D from to :
  Inv db w D ->
  exists pairs, Db.Scan db from to = Ok pairs /\ StronglySorted key_lt (kv_key <$> pairs) /\
    forall k v, mkKV k v ∈ pairs <-> (key_le from k /\ key_le k to) /\ Mview db D k = Some v.
Proof.
  intros Hi. pose proof (inv_mem _ _ _ Hi) as Hw. unfold Db.Scan.
  rewrite (scan_readers _ _ from to (inv_reads _ _ _ Hi)), bind_ok, ScanRange_in_range, <- filter_concat by done.
  set (all := MemTable.SortedEntries (mem db) ++ concat (tables D)). rewrite <- filter_app. fold all.
  eexists. split; [done|]. set (byKey := foldl keep_newest ∅ _).
  destruct (live_pairs_spec byKey) as [Hs Hp]. split; [done|]. intros k v. rewrite Hp.
  assert (byKey !! k = newest k (filter (in_range from to) all)) as ->
    by (unfold byKey; by rewrite fold_keep_newest_lookup, lookup_empty).
  assert (forall r, r ∈ all -> type_ok r) as Ht.
  { intros r [Hr|Hr]%elem_of_app; [by eapply mem_types|].
    pose proof (dk_types _ (inv_ok _ _ _ Hi)) as HF. rewrite Forall_forall in HF. by apply HF. }
  unfold Mview. fold all. split.
  - intros (r & Hr & Hty & <-). pose proof Hr as Hr2. apply newest_Some in Hr as (Hin & Hk & _).
    apply list_elem_of_filter in Hin as [[H1 H2] Hin]. rewrite Hk in H1, H2. split; [done|].
    rewrite newest_filter in Hr2 by (intros x _ Ex; split; by rewrite Ex). rewrite Hr2. simpl.
    by apply live_put; [apply Ht|].
  - intros ([H1 H2] & Hv). rewrite newest_filter by (intros x _ Ex; split; by rewrite Ex).
    destruct (newest k all) as [r|] eqn:Er; [|done]. simpl in Hv. exists r. split; [done|].
    apply newest_Some in Er as (Hin & _). by apply live_put; [apply Ht|].
Qed.
(** ** File names *)

Lemma sst_name_last n : last (sst_name n) = Some x74.
Proof. unfold sst_name. by rewrite last_app. Qed.

Lemma sst_name_other n m : last m <> Some x74 -> sst_name n <> m.
Proof. intros Hm <-. by rewrite sst_name_last in Hm. Qed.

Lemma names_last D n : disk_ok D -> n ∈ names D -> last n = Some x74.
Proof.
  intros Hd Hn. pose proof (dk_names D Hd) as HF. rewrite Forall_forall in HF.
  destruct (HF n Hn) as (i & -> & _). apply sst_name_last.
Qed.

(** A new table name is none of the table names. *)
Lemma fresh_name D i : disk_ok D -> NextSST (d_state D) < i < 10 ^ 20 -> sst_name i ∉ names D.
Proof.
  intros Hd Hi Hn. pose proof (dk_names D Hd) as HF. rewrite Forall_forall in HF.
  destruct (HF _ Hn) as (j & E & Hj). apply sst_name_inj in E; [lia|lia|lia].
Qed.

(** The files a description depends on. *)
Lemma on_disk_frame D torn fs fs' :
  on_disk D torn fs ->
  (forall n, n = fileName \/ n = Wal.walName \/ n ∈ names D -> fs' !! n = fs !! n) -> on_disk D torn fs'.
Proof.
  intros [H1 H2 H3] Hn. split.
  - rewrite Hn by auto. done.
  - apply Forall_forall. intros t Ht. rewrite Forall_forall in H2. rewrite Hn; [by apply H2|].
    right; right. apply list_elem_of_fmap. eauto.
  - intros l Hl. rewrite Hn by auto. by apply H3.
Qed.

Lemma torn_nil : torn_ok [].
Proof.
  exists (Wal.mkWRec 1 0 [] []), 0%nat. split_and!; [by apply Wal.validb_valid|vm_compute; lia|done|done].
Qed.

Lemma inv_recoverable db w D : Inv db w D -> recoverable (d_replica D) (View D) (AppliedIndex (d_state D)) (files w).
Proof. intros Hi. exists D, []. split_and!; [apply Hi|apply Hi|apply torn_nil|done|done]. Qed.

(** ** Methods under schedules of crashes *)
Context {SC : Schedules}.

Lemma good_cannot_fail w : good w -> ~ can_fail w.
Proof. intros H%good_crash_only. by apply crash_only_cannot_fail. Qed.

(** [keeps J m s Q]: m returns in a state satisfying Q, or crashes; the files
    satisfy J in both cases. *)
Definition keeps {A : Type} (J : gmap bytes bytes -> Prop) (m : M St A) (s : St) (Q : A -> St -> Prop) : Prop :=
  runs m s (fun a s' => good s'.2 /\ J (files s'.2) /\ Q a s') (fun _ => False) (fun s' => J (files s'.2)).

Section keeps.
Context (J : gmap bytes bytes -> Prop).

Lemma keeps_ret {A : Type} (a : A) s Q : good s.2 -> J (files s.2) -> Q a s -> keeps J (mret a) s Q.
Proof. done. Qed.

Lemma keeps_bind {A B : Type} (m : M St A) (f : A -> M St B) s Q :
  keeps J m s (fun a s' => good s'.2 -> J (files s'.2) -> keeps J (f a) s' Q) -> keeps J (m ≫= f) s Q.
Proof. intros Hm. apply runs_bind. eapply runs_mono; [exact Hm| |done|done]. naive_solver. Qed.

Lemma keeps_get_db s Q : good s.2 -> J (files s.2) -> Q s.1 s -> keeps J get_db s Q.
Proof. done. Qed.

Lemma keeps_put f s Q : good s.2 -> J (files s.2) -> Q tt (f s.1, s.2) -> keeps J (put f) s Q.
Proof. done. Qed.

Lemma keeps_catch {A : Type} (m : M St A) h s Q : keeps J m s Q -> keeps J (catch m h) s Q.
Proof. intros Hm. apply runs_catch. eapply runs_mono; [exact Hm|done|done|done]. Qed.

Lemma keeps_mono {A : Type} (J' : gmap bytes bytes -> Prop) (m : M St A) s (Q Q' : A -> St -> Prop) :
  keeps J' m s Q -> (forall fs, J' fs -> J fs) -> (forall a s', J' (files s'.2) -> Q a s' -> Q' a s') -> keeps J m s Q'.
Proof. intros Hm HJ HQ. eapply runs_mono; [exact Hm| |done|auto]. naive_solver. Qed.

(** A computation on the files only. *)
Lemma keeps_fs {A : Type} (m : M World A) s (Q : A -> World -> Prop) Q' :
  good s.2 -> safe J s.2 m s.2 Q ->
  (forall a w', good w' -> J (files w') -> Q a w' -> Q' a (s.1, w')) -> keeps J (fs m) s Q'.
Proof.
  intros Hg Hm HQ. apply runs_zoom. eapply runs_mono; [exact Hm|..]; simpl.
  - intros a w' (Hf & HJ & HQ'). assert (good w') by (by eapply good_follows). auto.
  - intros w' (_ & _ & Hc). by apply good_cannot_fail in Hc.
  - naive_solver.
Qed.

(** A call of which the error is dropped. *)
Lemma keeps_ignore_nop what s (Q : unit -> St -> Prop) :
  good s.2 -> J (files s.2) ->
  (forall w', files w' = files s.2 -> good w' -> Q tt (s.1, w')) -> keeps J (ignore (fs (sys what id))) s Q.
Proof.
  intros Hg HJ HQ. apply runs_ignore, runs_zoom, sys_run.
  - intros w' Hf E. assert (good w') by (by eapply good_follows). simpl. rewrite E. auto.
  - intros w' Hf Hc E. by apply good_cannot_fail in Hc.
  - intros w' Hc E. simpl. by rewrite E.
Qed.

Lemma keeps_close_all (rs : list Reader) s (Q : unit -> St -> Prop) :
  good s.2 -> J (files s.2) ->
  (forall w', files w' = files s.2 -> good w' -> Q tt (s.1, w')) ->
  keeps J (mfold (fun r => ignore (fs (Sstable.Close r))) rs) s Q.
Proof.
  revert s. induction rs as [|r rs IH]; intros [db w] Hg HJ HQ; [apply keeps_ret; auto|].
  cbn [mfold]. apply keeps_bind, keeps_ignore_nop; [done|done|]. intros w' E Hg' _ HJ'.
  apply IH; [done|done|]. intros w'' E' Hg''. apply HQ; [|done]. simpl in *. by rewrite E'.
Qed.

(** Removing a file J does not depend on. *)
Lemma keeps_remove p s (Q : unit -> St -> Prop) :
  good s.2 -> J (files s.2) -> J (delete p (files s.2)) ->
  (forall w', files w' = delete p (files s.2) -> good w' -> Q tt (s.1, w')) -> keeps J (ignore (fs (os_Remove p))) s Q.
Proof.
  destruct s as [db w]. simpl. intros Hg HJ HJ' HQ.
  assert (safe J w (ignore (os_Remove p)) w (fun _ w' => files w' = delete p (files w))) as Hs.
  { apply safe_ignore_Remove; [done|done|done|done|]. intros w' _ _ Hc. by apply good_cannot_fail in Hc. }
  assert (runs (ignore (fs (os_Remove p))) (db, w)
    (fun _ s' => s'.1 = db /\ follows w s'.2 /\ J (files s'.2) /\ files s'.2 = delete p (files w)) (fun _ => False)
    (fun s' => J (files s'.2))) as Hr.
  { revert Hs. unfold safe, runs, ignore, fs, zoom. simpl. destruct (os_Remove p w) as [[u|e| |] w']; simpl; naive_solver. }
  eapply runs_mono; [exact Hr| |done|done]. intros [] [db' w'] (Edb & Hf & HJw & E). simpl in *. subst db'.
  assert (good w') by (by eapply good_follows). auto.
Qed.

Lemma keeps_remove_all (ps : list bytes) s (Q : unit -> St -> Prop) :
  good s.2 -> J (files s.2) ->
  (forall w', only ps s.2 w' -> J (files w')) ->
  (forall w', only ps s.2 w' -> good w' -> Q tt (s.1, w')) ->
  keeps J (mfold (fun p => ignore (fs (os_Remove p))) ps) s Q.
Proof.
  revert s. induction ps as [|p ps IH]; intros [db w] Hg HJ HJ' HQ; [apply keeps_ret; auto; by apply HQ|].
  cbn [mfold]. simpl in *.
  assert (forall w', files w' = delete p (files w) -> only (p :: ps) w w') as Hdel.
  { intros w' E n Hn. rewrite E. apply lookup_delete_ne. set_solver. }
  apply keeps_bind, keeps_remove; [done|done|exact (HJ' (mkWorld (delete p (files w)) []) (Hdel (mkWorld _ []) eq_refl))|].
  cbn [fst snd]. intros w' E Hg' _ HJw.
  assert (forall w'', only ps w' w'' -> only (p :: ps) w w'') as Ho.
  { intros w'' Ho n Hn. rewrite Ho by set_solver. rewrite E. apply lookup_delete_ne. set_solver. }
  apply IH; simpl; auto.
Qed.
End keeps.

(** ** Publishing a new description *)

Lemma disk_ok_validate D : disk_ok D -> Validate (d_state D) = None.
Proof.
  intros Hd. apply Validate_spec. rewrite (dk_sst D Hd). split_and!.
  - left. apply Hd.
  - apply Forall_reverse. eapply Forall_impl; [apply (dk_names D Hd)|]. simpl. intros n (i & -> & Hi).
    apply sst_name_valid. pose proof (st_next _ (dk_state D Hd)). lia.
  - rewrite (reverse_Permutation (names D)). apply Hd.
Qed.

Lemma walName_last : last Wal.walName = Some x6c.
Proof. done. Qed.

(** While the manifest of D' is stored over that of D, the files are described by
    one of the two. *)
Lemma store_either D D' torn fs fs' s :
  disk_ok D -> disk_ok D' -> on_disk D torn fs -> published s = d_state D' -> d_wal D' = d_wal D ->
  Forall (fun t => fs !! t.1 = Some (table_bytes t.2)) (d_tables D') ->
  old_or_new s fs fs' -> on_disk D torn fs' \/ on_disk D' torn fs'.
Proof.
  intros Hd Hd' Ho Es Ew Ht [Hn Hm].
  assert (forall n, last n = Some x74 -> fs' !! n = fs !! n) as Hlast.
  { intros n Hl. apply Hn. intros [->|[->|[]%not_elem_of_nil]%elem_of_cons]%elem_of_cons; done. }
  destruct Hm as [Hm|Hm].
  - left. eapply on_disk_frame; [exact Ho|]. intros n [->|[->|Hin]]; [done|by apply Hn; set_solver|].
    apply Hlast. by apply (names_last D).
  - right. split.
    + by rewrite Hm, Es.
    + apply Forall_forall. intros t Hin. rewrite Forall_forall in Ht. rewrite Hlast; [by apply Ht|].
      apply (names_last D'); [done|]. apply list_elem_of_fmap. eauto.
    + intros l Hl. rewrite Hn by set_solver. apply Ho. by rewrite <- Ew.
Qed.

Lemma stored_disk D' torn fs s :
  disk_ok D' -> published s = d_state D' ->
  Forall (fun t => fs !! t.1 = Some (table_bytes t.2)) (d_tables D') ->
  (forall l, d_wal D' = Some l -> fs !! Wal.walName = Some (Wal.encode_all l ++ torn)) ->
  on_disk D' torn (<[fileName := state_bytes (published s)]> (delete tmpName fs)).
Proof.
  intros Hd' Es Ht Hw. split.
  - by rewrite lookup_insert_eq, Es.
  - apply Forall_forall. intros t Hin. rewrite Forall_forall in Ht.
    assert (last t.1 = Some x74) as Hl by (apply (names_last D'); [done|]; apply list_elem_of_fmap; eauto).
    rewrite lookup_insert_ne, lookup_delete_ne by (intros E; rewrite <- E in Hl; done). by apply Ht.
  - intros l Hl. rewrite lookup_insert_ne, lookup_delete_ne by done. by apply Hw.
Qed.

(** Storing a manifest in a handle: the files go from D to D'. *)
Lemma keeps_store (J : gmap bytes bytes -> Prop) D D' s db w (Q : unit -> St -> Prop) :
  good w -> disk_ok D -> disk_ok D' -> on_disk D [] (files w) -> published s = d_state D' -> d_wal D' = d_wal D ->
  Forall (fun t => files w !! t.1 = Some (table_bytes t.2)) (d_tables D') ->
  (forall fs, on_disk D [] fs \/ on_disk D' [] fs -> J fs) ->
  (forall w', good w' -> on_disk D' [] (files w') -> Q tt (db, w')) ->
  keeps J (fs (Store s)) (db, w) Q.
Proof.
  intros Hg Hd Hd' Ho Es Ew Ht HJ HQ.
  apply (keeps_fs J _ (db, w) (fun _ w' => files w' = <[fileName := state_bytes (published s)]> (delete tmpName (files w)))); [done|..]; simpl.
  - eapply safe_call; [done| | |].
    + apply Store_safe. rewrite Es. by apply disk_ok_validate.
    + intros fs Hfs. apply HJ. by eapply store_either.
    + intros [] w' _ _ E. exact E.
  - intros [] w' Hg' _ E. apply HQ; [done|]. rewrite E. apply stored_disk; [done|done|done|].
    intros l Hl. apply Ho. by rewrite <- Ew.
Qed.

(** Writing a table under a name no description uses. *)
Lemma keeps_table (J : gmap bytes bytes -> Prop) D name l (m : M World unit) db w (Q : unit -> St -> Prop) :
  good w -> disk_ok D -> on_disk D [] (files w) -> name ∉ names D -> last name = Some x74 ->
  touches [name] w m w (fun _ w' => files w' = <[name := table_bytes l]> (files w)) ->
  (forall fs, on_disk D [] fs -> J fs) ->
  (forall w', good w' -> on_disk D [] (files w') -> files w' = <[name := table_bytes l]> (files w) -> Q tt (db, w')) ->
  keeps J (fs m) (db, w) Q.
Proof.
  intros Hg Hd Ho Hn Hl Ht HJ HQ.
  assert (forall w', only [name] w w' -> on_disk D [] (files w')) as Hframe.
  { intros w' Hw'. eapply on_disk_frame; [exact Ho|]. intros n Hin. apply Hw'.
    intros ->%list_elem_of_singleton. destruct Hin as [->|[->|?]]; done. }
  apply (keeps_fs J _ (db, w) (fun _ w' => only [name] w w' /\ files w' = <[name := table_bytes l]> (files w))); [done|..]; simpl.
  - eapply (safe_touches J w w); [done|exact Ht| |].
    + intros w' Ho'. by apply HJ, Hframe.
    + intros [] w' _ Ho' E. exact (conj Ho' E).
  - intros [] w' Hg' _ [Ho' E]. apply HQ; [done|by apply Hframe|done].
Qed.

Lemma keeps_open_table (J : gmap bytes bytes -> Prop) name l db w (Q : Reader -> St -> Prop) :
  good w -> J (files w) -> fits l -> files w !! name = Some (table_bytes l) ->
  (forall r w', good w' -> files w' = files w -> reads r l -> r_name r = name -> Q r (db, w')) ->
  keeps J (fs (Sstable.Open name)) (db, w) Q.
Proof.
  intros Hg HJ Hl Hn HQ. apply (keeps_fs J _ (db, w) (fun r w' => files w' = files w /\ reads r l /\ r_name r = name /\ r_bloomSkips r = 0)); [done|..]; simpl.
  - eapply (safe_touches J w w); [done|apply (Open_touches name l); done| |].
    + intros w' Ho'. assert (files w' = files w) as ->; [|done]. apply map_eq. intros n. apply Ho'. set_solver.
    + intros r w' _ _ Hr. exact Hr.
  - intros r w' Hg' _ (E & Hr & Hname & _). by apply HQ.
Qed.

(** ** Compaction *)

Definition compacted (D : Disk) (next : Z) (out : list Rec) : Disk :=
  mkDisk (mkState 2 (match out with [] => [] | _ => [sst_name next] end) next (AppliedIndex (d_state D)) (LastSeq (d_state D)))
    (match out with [] => [] | _ => [(sst_name next, out)] end) (d_wal D).

Lemma tables_compacted D next out : concat (tables (compacted D next out)) = out.
Proof. destruct out; [done|]. unfold tables. simpl. by rewrite app_nil_r. Qed.

Lemma compacted_ok D next out :
  disk_ok D -> NextSST (d_state D) < next < 2 ^ 63 -> (forall r, r ∈ out -> r ∈ concat (tables D)) ->
  (out <> [] -> fits out) -> disk_ok (compacted D next out).
Proof.
  intros Hd Hn Hsub Hfit. pose proof (dk_state D Hd) as [].
  split; try (rewrite tables_compacted; apply Forall_forall; intros r Hr; apply Hsub in Hr).
  - done.
  - split; simpl; lia.
  - by destruct out.
  - destruct out; [constructor|]. apply Forall_singleton. exists next. simpl. split; [done|lia].
  - destruct out; [constructor|]. apply NoDup_singleton.
  - destruct out; [constructor|]. apply Forall_singleton. by apply Hfit.
  - pose proof (dk_types D Hd) as HF. rewrite Forall_forall in HF. by apply HF.
  - destruct out; [constructor|]. repeat constructor.
  - pose proof (dk_floor D Hd) as HF. rewrite Forall_forall in HF. by apply HF.
  - apply (dk_wal D Hd).
  - apply (dk_order D Hd).
  - apply (dk_last D Hd).
  - apply (dk_seqs D Hd).
Qed.

(** Dropping tombstones and older versions below newer layers is not seen. *)
Lemma compacted_view k l old out :
  above l old -> (forall r, r ∈ out -> r ∈ old) ->
  newest k out = (r ← newest k old; if decide (Compact.kept true r) then Some r else None) ->
  (newest k (l ++ out) ≫= live) = (newest k (l ++ old) ≫= live).
Proof.
  intros Ha Hsub Hk. rewrite !newest_above; [|done|intros r r' Hr Hr'; by apply Ha; [|apply Hsub]].
  destruct (newest k l) as [r|]; [done|]. simpl. rewrite Hk. destruct (newest k old) as [r|]; [|done]. simpl.
  unfold Compact.kept. case_decide as Hd; [done|]. simpl. unfold live.
  rewrite andb_true_r, negb_true_iff in Hd. by destruct (RType r =? RecordTypeDelete).
Qed.

Lemma compacted_wal D next out : d_wal (compacted D next out) = d_wal D.
Proof. done. Qed.

Lemma inv_paths db w D : Inv db w D -> Sstable.Path <$> readers db = names D.
Proof.
  intros Hi. pose proof (inv_readers _ _ _ Hi) as HF. unfold names, Path.
  induction HF as [|r t rs ts [_ Hn] HF IH]; [done|]. rewrite !fmap_cons, IH. by rewrite Hn.
Qed.

(** The invariant depends on the description through these fields only. *)
Lemma Inv_compacted db w w' D next rs out :
  Inv db w D -> disk_ok (compacted D next out) -> on_disk (compacted D next out) [] (files w') ->
  Forall2 (fun r t => reads r t.2 /\ r_name r = t.1) rs (d_tables (compacted D next out)) ->
  Inv (count_compaction (set_manifest (with_tables (manifest db) (match out with [] => [] | _ => [sst_name next] end) next)
         (set_readers rs (set_nextSST next db)))) w' (compacted D next out).
Proof.
  intros [] Hd Ho HF. split; try done. simpl.
  unfold published, with_tables, compacted in *. simpl in *. rewrite <- inv_manifest0. done.
Qed.

(** The bytes of all records of a handle, in one table. *)
Definition weight (db : DB) (D : Disk) : Z :=
  Z.of_nat (length (data (MemTable.SortedEntries (mem db) ++ concat (tables D)))).

(** Room for the records of a handle in one table, and for new file numbers. *)
Definition room (files : Z) (db : DB) (D : Disk) : Prop :=
  weight db D < 2 ^ 50 /\ NextSST (d_state D) + files < 2 ^ 63.

(** What a step uses up at most: bytes, file numbers and sequence numbers. *)
Definition spent (bytes files seqs : Z) (db : DB) (D : Disk) (db' : DB) (D' : Disk) : Prop :=
  weight db' D' <= weight db D + bytes /\ NextSST (d_state D') <= NextSST (d_state D) + files /\
  MemTable.nextSeq (mem db') <= MemTable.nextSeq (mem db) + seqs.

Lemma room_tables n db D : room n db D -> Z.of_nat (length (data (concat (tables D)))) < 2 ^ 50.
Proof. intros [Hr _]. unfold weight in Hr. rewrite data_app, length_app in Hr. lia. Qed.

Lemma spent_refl b f q db D : 0 <= b -> 0 <= f -> 0 <= q -> spent b f q db D db D.
Proof. unfold spent. lia. Qed.

Lemma spent_same b f q db D db' D' :
  0 <= b -> 0 <= q -> mem db' = mem db -> tables D' = tables D -> NextSST (d_state D') <= NextSST (d_state D) + f ->
  spent b f q db D db' D'.
Proof. intros ? ? Em Et ?. unfold spent, weight. rewrite Em, Et. lia. Qed.

Lemma spent_trans b f q b' f' q' db D db' D' db'' D'' :
  spent b f q db D db' D' -> spent b' f' q' db' D' db'' D'' -> spent (b + b') (f + f') (q + q') db D db'' D''.
Proof. unfold spent. lia. Qed.

Lemma compacted_spent db db' D next out :
  out ⊆+ concat (tables D) -> next = NextSST (d_state D) + 1 -> mem db' = mem db ->
  spent 0 1 0 db D db' (compacted D next out).
Proof.
  intros Hs En Em. unfold spent, weight. rewrite Em, tables_compacted, !data_app, !length_app.
  apply Compact.length_data_submseteq in Hs. simpl. lia.
Qed.

(** What a background step keeps of a handle. *)
Definition same_view (db : DB) (D : Disk) (db' : DB) (D' : Disk) : Prop :=
  (forall k, View D' k = View D k) /\ (forall k, Mview db' D' k = Mview db D k) /\
  AppliedIndex (d_state D') = AppliedIndex (d_state D) /\ mem db' = mem db /\ opts db' = opts db /\
  appliedIndex db' = appliedIndex db.

(** The merge of the open tables into a fresh file. *)
Lemma keeps_Compact (J : gmap bytes bytes -> Prop) db0 db w D next (Q : Z -> St -> Prop) :
  Inv db w D -> readers db <> [] -> room 1 db D -> good w -> NextSST (d_state D) < next < 2 ^ 63 ->
  (forall fs, on_disk D [] fs -> J fs) ->
  (forall out w', good w' -> on_disk D [] (files w') -> disk_ok (compacted D next out) ->
     (out <> [] -> fits out /\ files w' !! sst_name next = Some (table_bytes out)) ->
     out ⊆+ concat (tables D) ->
     (forall k, newest k out = (r ← newest k (concat (tables D)); if decide (Compact.kept true r) then Some r else None)) ->
     Q (Z.of_nat (length out)) (db0, w')) ->
  keeps J (fs (Compact.Compact (readers db) (sst_name next) true)) (db0, w) Q.
Proof.
  intros Hi Hne Hroom Hg Hn HJ HQ. pose proof (inv_ok _ _ _ Hi) as Hd.
  pose proof (inv_reads _ _ _ Hi) as Hr.
  destruct (Compact.Compact_newest (readers db) (tables D) (sst_name next) true w Hr Hne) as (out & Ht & Hsub & Hk).
  { by eapply room_tables. }
  { apply layered_unique; [apply Hd|]. eapply Compact.Forall2_reads_sorted. exact Hr. }
  assert (forall w', only [sst_name next] w w' -> on_disk D [] (files w')) as Hframe.
  { intros w' Hw'. eapply on_disk_frame; [by eapply inv_disk|]. intros n Hin. apply Hw'.
    intros ->%list_elem_of_singleton. pose proof (sst_name_last next) as Hl.
    destruct Hin as [E|[E|E]]; [by rewrite E in Hl|by rewrite E in Hl|]. revert E. apply fresh_name; [done|lia]. }
  apply (keeps_fs J _ (db0, w) (fun n w' => only [sst_name next] w w' /\ n = Z.of_nat (length out) /\
    if decide (out = []) then files w' = files w
    else files w' = <[sst_name next := table_bytes out]> (files w) /\ fits out)); [done|..]; simpl.
  - eapply (safe_touches J w w); [done|exact Ht| |].
    + intros w' Ho'. by apply HJ, Hframe.
    + intros n w' _ Ho' E. exact (conj Ho' E).
  - intros n w' Hg' _ (Ho' & -> & Hout). apply HQ; [done|by apply Hframe| | |done|done].
    + apply compacted_ok; [done|lia|by intros r Hx; eapply elem_of_submseteq|]. intros Hne'. rewrite decide_False in Hout by done. by destruct Hout.
    + intros Hne'. rewrite decide_False in Hout by done. destruct Hout as [E ?].
      split; [done|]. by rewrite E, lookup_insert_eq.
Qed.

(** Opening the file the merge wrote, if it wrote one. *)
Lemma keeps_open_output (J : gmap bytes bytes -> Prop) db w D next out :
  good w -> J (files w) -> (out <> [] -> fits out /\ files w !! sst_name next = Some (table_bytes out)) ->
  keeps J (if 0 <? Z.of_nat (length out) then nr ← fs (Sstable.Open (sst_name next)); mret [nr] else mret [])
    (db, w) (fun nrs s' => s'.1 = db /\ files s'.2 = files w /\
      Forall2 (fun r t => reads r t.2 /\ r_name r = t.1) nrs (d_tables (compacted D next out))).
Proof.
  intros Hg HJ Hfit. destruct out as [|x out]; [by apply keeps_ret|]. rewrite (proj2 (Z.ltb_lt _ _)) by (simpl; lia).
  destruct Hfit as [Hfit Hfile]; [done|]. apply keeps_bind. eapply keeps_open_table; [done|done|exact Hfit|exact Hfile|].
  intros r w2 Hg2 E2 Hr Hnm _ HJ2. apply keeps_ret; [done|done|]. split_and!; [done|done|]. constructor; [done|constructor].
Qed.

Lemma compact_keeps db w D :
  Inv db w D -> good w -> room 1 db D ->
  keeps (recoverable (d_replica D) (View D) (AppliedIndex (d_state D))) compact (db, w) (fun _ s' =>
    exists D', Inv s'.1 s'.2 D' /\ same_view db D s'.1 D' /\ spent 0 1 0 db D s'.1 D').
Proof.
  intros Hi Hg Hroom. pose proof (inv_ok _ _ _ Hi) as Hd. set (J := recoverable _ _ _).
  assert (J (files w)) as HJ by (by eapply inv_recoverable).
  assert (forall fs, on_disk D [] fs -> J fs) as HJD.
  { intros fs Ho. exists D, []. split_and!; [done|done|apply torn_nil|done|done]. }
  unfold compact. apply keeps_bind, keeps_get_db; [done|done|]. intros _ _. cbn [fst].
  destruct (readers db) as [|r0 rs0] eqn:Er.
  { apply keeps_ret; [done|done|]. exists D. split; [done|]. split; [done|apply spent_refl; lia]. }
  rewrite <- Er. rewrite (inv_next _ _ _ Hi). set (next := u64 (NextSST (d_state D) + 1)).
  assert (next = NextSST (d_state D) + 1) as En.
  { unfold next. apply u64_small. destruct Hroom as [_ ?]. pose proof (st_next _ (dk_state D Hd)). lia. }
  assert (NextSST (d_state D) < next < 2 ^ 63) as Hn by (destruct Hroom; lia).
  clearbody next. apply keeps_bind, keeps_put; [done|done|]. intros _ _. cbn [fst snd].
  apply keeps_bind, keeps_catch. eapply keeps_Compact; [done|by rewrite Er|done|done|done|done|].
  intros out w1 Hg1 Ho1 Hd' Hfit Hsub Hk _ _.
  assert (forall r, r ∈ out -> r ∈ concat (tables D)) as Hmem by (intros r Hx; by eapply elem_of_submseteq).
  assert (forall k, View (compacted D next out) k = View D k) as HV.
  { intros k. unfold View. rewrite tables_compacted. apply compacted_view; [by apply pending_above|done|done]. }
  assert (forall fs, on_disk D [] fs \/ on_disk (compacted D next out) [] fs -> J fs) as HJ'.
  { intros fs [Ho|Ho]; [by apply HJD|]. exists (compacted D next out), []. split_and!; try done. apply torn_nil. }
  apply keeps_bind. eapply keeps_mono; [apply (keeps_open_output J _ w1 D next out); auto|done|]. intros nrs [db2 w2] _ (Edb & E2 & HF) Hg2 HJ2. cbn [fst snd] in *. subst db2.
  replace (if 0 <? Z.of_nat (length out) then [sst_name next] else []) with
    (match out with [] => [] | _ => [sst_name next] end) by (by destruct out).
  rewrite <- E2 in Ho1.
  apply keeps_bind, keeps_catch. eapply (keeps_store J D (compacted D next out)); [done|done|done|done| |done| |done|].
  { unfold published, with_tables, compacted. simpl. by rewrite <- (inv_manifest _ _ _ Hi). }
  { destruct out; [constructor|]. apply Forall_singleton. cbn [fst snd]. rewrite E2. by apply Hfit. }
  intros w3 Hg3 Ho3 _ HJ3.
  apply keeps_bind, keeps_close_all; [done|done|]. intros w4 E4 Hg4 _ HJ4. cbn [fst snd] in *.
  rewrite <- E4 in Ho3. rewrite (inv_paths _ _ _ Hi).
  assert (forall w', only (names D) w4 w' -> on_disk (compacted D next out) [] (files w')) as Hrm.
  { intros w' Ho'. eapply on_disk_frame; [exact Ho3|]. intros n Hin. apply Ho'. intros Hin'.
    pose proof (names_last D n Hd Hin') as Hl. destruct Hin as [->|[->|Hin]]; [done|done|].
    destruct out; [by apply not_elem_of_nil in Hin|]. apply list_elem_of_singleton in Hin. subst n.
    revert Hin'. apply fresh_name; [done|lia]. }
  apply keeps_bind, keeps_remove_all; [done|done|by intros w' Ho'; apply HJ'; right; apply Hrm|].
  intros w5 Ho5 Hg5 _ HJ5. apply keeps_bind, keeps_put; [done|done|]. intros _ _.
  apply keeps_bind, keeps_put; [done|done|]. intros _ _. apply keeps_put; [done|done|]. cbn [fst snd].
  exists (compacted D next out). split; [apply (Inv_compacted db w); auto|].
  split; [|by apply compacted_spent]. split_and!; try done.
  intros k. unfold Mview. rewrite tables_compacted. by apply compacted_view; [eapply mem_above| |].
Qed.

(** ** Flushing *)

Definition flushed (db : DB) (D : Disk) (next : Z) : Disk :=
  mkDisk (mkState 2 (SSTables (d_state D) ++ [sst_name next]) next
            (if replica db then appliedIndex db else AppliedIndex (d_state D))
            (if replica db then LastSeq (d_state D) else Z.max (LastSeq (d_state D)) (MemTable.nextSeq (mem db) - 1)))
    ((sst_name next, MemTable.SortedEntries (mem db)) :: d_tables D) (d_wal D).

Lemma mem_fits n db w D :
  Inv db w D -> room n db D -> MemTable.SortedEntries (mem db) <> [] -> fits (MemTable.SortedEntries (mem db)).
Proof.
  intros Hi [Hsz _] Hne. split; [done|by apply MemTable.SortedEntries_sorted, (inv_mem _ _ _ Hi)| |].
  - apply Forall_forall. intros r Hr. apply MemTable.elem_of_SortedEntries in Hr; [|by eapply inv_mem].
    by destruct (inv_mem_ok _ _ _ Hi _ _ Hr).
  - unfold weight in Hsz. rewrite data_app, length_app in Hsz. lia.
Qed.

(** The new floor is above the flushed records and the old ones. *)
Lemma flushed_floor db w D next :
  Inv db w D -> d_floor D <= d_floor (flushed db D next) /\
  forall r, r ∈ MemTable.SortedEntries (mem db) -> SeqNum r <= d_floor (flushed db D next).
Proof.
  intros Hi. pose proof (inv_mode _ _ _ Hi) as Hm. unfold d_replica in Hm. pose proof (inv_mem _ _ _ Hi) as Hw.
  unfold d_floor, flushed; cbn [d_wal d_state LastSeq AppliedIndex]. rewrite Hm.
  destruct (d_wal D) as [l|] eqn:El; split.
  - lia.
  - intros r Hr. apply MemTable.elem_of_SortedEntries in Hr; [|done]. apply (MemTable.wf_seq _ Hw) in Hr. lia.
  - destruct (inv_replica _ _ _ Hi El) as (? & ? & _). lia.
  - intros r Hr. apply MemTable.elem_of_SortedEntries in Hr; [|done].
    destruct (inv_replica _ _ _ Hi El) as (_ & _ & Hs). by eapply Hs.
Qed.

Lemma flushed_state db w D next :
  Inv db w D -> NextSST (d_state D) < next < 2 ^ 63 -> state_ok (d_state (flushed db D next)).
Proof.
  intros Hi Hn. pose proof (dk_state _ (inv_ok _ _ _ Hi)) as []. pose proof (inv_mode _ _ _ Hi) as Hm. unfold d_replica in Hm.
  pose proof (MemTable.wf_next _ (inv_mem _ _ _ Hi)). unfold flushed. split; simpl; rewrite ?Hm; try lia.
  - destruct (d_wal D) as [l|] eqn:El; [lia|]. destruct (inv_replica _ _ _ Hi El) as (? & ? & _). lia.
  - destruct (d_wal D) as [l|] eqn:El; lia.
Qed.

Lemma flushed_ok n db w D next :
  Inv db w D -> room n db D -> MemTable.SortedEntries (mem db) <> [] -> NextSST (d_state D) < next < 2 ^ 63 ->
  disk_ok (flushed db D next).
Proof.
  intros Hi Hroom Hne Hn. pose proof (inv_ok _ _ _ Hi) as Hd. destruct (flushed_floor db w D next Hi) as [Hf1 Hf2].
  split.
  - done.
  - by eapply flushed_state.
  - unfold flushed, names. simpl. rewrite (dk_sst D Hd). by rewrite reverse_cons.
  - unfold names. simpl. constructor.
    + exists next. pose proof (st_next _ (dk_state D Hd)). split; [done|lia].
    + eapply Forall_impl; [apply (dk_names D Hd)|]. simpl. intros m (i & -> & Hi'). exists i. split; [done|lia].
  - unfold names. simpl. constructor; [apply fresh_name; [done|lia]|apply Hd].
  - unfold tables. simpl. constructor; [by eapply mem_fits|apply Hd].
  - unfold tables. simpl. apply Forall_app. split; [|apply Hd]. apply Forall_forall. intros r Hr. by eapply mem_types.
  - unfold tables, layered. simpl. constructor; [apply Hd|]. apply Forall_forall. intros l Hl r r' Hr Hr'.
    eapply mem_above; [done|done|]. apply list_elem_of_In, in_concat. exists l. by rewrite <- !list_elem_of_In.
  - unfold tables. cbn [flushed d_tables fmap list_fmap snd concat]. apply Forall_app. split.
    + by apply Forall_forall.
    + eapply Forall_impl; [apply (dk_floor D Hd)|]. simpl. intros r Hr. lia.
  - apply (dk_wal D Hd).
  - apply (dk_order D Hd).
  - pose proof (dk_last D Hd). pose proof (MemTable.wf_next _ (inv_mem _ _ _ Hi)). unfold flushed. simpl.
    destruct (replica db); lia.
  - apply (dk_seqs D Hd).
Qed.

Lemma filter_nil_Forall {A} (P : A -> Prop) `{forall x, Decision (P x)} l : Forall (fun x => ~ P x) l -> filter P l = [].
Proof. intros HF. apply filter_none. intros x Hx. rewrite Forall_forall in HF. by apply HF. Qed.

Lemma flushed_pending db w D next : Inv db w D -> pending (flushed db D next) = [].
Proof.
  intros Hi. unfold pending, wal_records, flushed. cbn [d_wal d_state LastSeq].
  rewrite (inv_mode _ _ _ Hi). unfold d_replica. destruct (d_wal D) as [l|] eqn:El; [|done]. simpl default.
  destruct (inv_wal _ _ _ Hi l El) as (_ & Hl & _).
  rewrite filter_nil_Forall; [done|]. eapply Forall_impl; [exact Hl|]. simpl. intros r Hr. lia.
Qed.

Lemma flushed_view db w D next k : Inv db w D -> View (flushed db D next) k = Mview db D k.
Proof. intros Hi. unfold View. by rewrite (flushed_pending _ _ _ _ Hi). Qed.

(** The same with the log emptied. *)
Definition reset (D : Disk) : Disk := mkDisk (d_state D) (d_tables D) ((fun _ => []) <$> d_wal D).

Lemma reset_ok D : disk_ok D -> disk_ok (reset D).
Proof.
  intros []. split; try done; unfold d_floor, reset, wal_records in *; simpl; destruct (d_wal D); try done; constructor.
Qed.

Lemma d_replica_reset D : d_replica (reset D) = d_replica D.
Proof. unfold d_replica, reset. simpl. by destruct (d_wal D). Qed.

Lemma reset_view D k : pending D = [] -> View (reset D) k = View D k.
Proof.
  intros Hp. unfold View. rewrite Hp. unfold pending, reset, wal_records. simpl. by destruct (d_wal D).
Qed.

Lemma reset_disk D torn fs :
  disk_ok D -> on_disk D torn fs -> d_wal D <> None ->
  on_disk (reset D) [] (alter (fun c => take 0 c ++ replicate (0 - length c) x00) Wal.walName fs).
Proof.
  intros Hd [H1 H2 H3] Hl. split; simpl.
  - by rewrite lookup_alter_ne.
  - apply Forall_forall. intros t Ht. rewrite Forall_forall in H2. specialize (H2 t Ht). simpl in H2.
    rewrite lookup_alter_ne; [done|]. intros E.
    assert (last t.1 = Some x74) as Hx by (apply (names_last D); [done|]; apply list_elem_of_fmap; eauto).
    by rewrite <- E in Hx.
  - intros l. destruct (d_wal D) as [l0|]; [|done]. intros [= <-]. by rewrite lookup_alter_eq, (H3 l0 eq_refl).
Qed.

Lemma keeps_reset (J : gmap bytes bytes -> Prop) db w off (Q : unit -> St -> Prop) :
  let fs' := alter (fun c => take 0 c ++ replicate (0 - length c) x00) Wal.walName (files w) in
  good w -> J (files w) -> J fs' -> log db = Some off ->
  (forall w', good w' -> files w' = fs' -> Q tt (set_log (Some 0%nat) db, w')) ->
  keeps J (with_log Wal.Reset) (db, w) Q.
Proof.
  intros fs' Hg HJ HJ' Hlog HQ. unfold keeps, with_log, runs. cbn [fst snd]. rewrite Hlog.
  assert (runs Wal.Reset (off, w)
    (fun _ s => s.1 = 0%nat /\ good s.2 /\ files s.2 = fs') (fun _ => False) (fun s => J (files s.2))) as Hr.
  { unfold Wal.Reset. apply runs_bind, runs_zoom. apply sys_run; simpl.
    - intros w1 Hf1 E1. assert (good w1) by (by eapply good_follows). apply runs_bind, runs_zoom, sys_run; simpl.
      + intros w2 Hf2 E2. apply runs_modify. simpl. split_and!; [done|by eapply good_follows|by rewrite E2].
      + intros w2 _ Hc _. by apply good_cannot_fail in Hc.
      + intros w2 _ E2. rewrite E2. unfold id. by rewrite E1.
    - intros w1 _ Hc _. by apply good_cannot_fail in Hc.
    - intros w1 _ E1. by rewrite E1. }
  unfold runs in Hr. destruct (Wal.Reset (off, w)) as [[[]|e| |] [off' w']]; simpl in *; try done.
  destruct Hr as (-> & Hg' & E). split_and!; [done|by rewrite E|]. by apply HQ.
Qed.

(** The handle after its memtable went into a table and the log was emptied. *)
Definition flushed_handle (db : DB) (D : Disk) (next : Z) (r : Reader) (st : State) : DB :=
  mkDB (MemTable.NewWithSeq (MemTable.NextSeq (mem db))) ((fun _ => 0%nat) <$> d_wal D) true (r :: readers db) next
    (opts db) st (appliedIndex db) (if replica db then appliedIndex db else durableIndex db) (closed db)
    (u64 (flushes db + 1)) (compactions db).

Lemma Inv_flushed db w w' D next r st :
  Inv db w D -> disk_ok (flushed db D next) -> on_disk (reset (flushed db D next)) [] (files w') ->
  reads r (MemTable.SortedEntries (mem db)) -> r_name r = sst_name next ->
  published st = d_state (flushed db D next) ->
  Inv (flushed_handle db D next r st) w' (reset (flushed db D next)).
Proof.
  intros Hi Hd Ho Hr Hn Hst. pose proof (inv_mem _ _ _ Hi) as Hw. pose proof (inv_mode _ _ _ Hi) as Hm. unfold d_replica in Hm.
  split; simpl; try done.
  - by apply reset_ok.
  - constructor; [done|]. apply Hi.
  - apply MemTable.wf_NewWithSeq. apply Hw.
  - unfold MemTable.NextSeq. by destruct (d_wal D).
  - rewrite d_replica_reset. exact Hm.
  - intros l. destruct (d_wal D) as [l0|] eqn:El; [|done]. intros [= <-].
    destruct (inv_wal _ _ _ Hi l0 El) as (_ & _ & Hlt). rewrite Hm. split_and!; [|constructor|].
    + intros k. unfold pending, wal_records, reset, flushed. simpl. rewrite El. simpl. apply lookup_empty.
    + unfold MemTable.NextSeq. lia.
  - destruct (d_wal D) as [l0|] eqn:El; [done|]. intros _. rewrite Hm.
    destruct (inv_replica _ _ _ Hi El) as (? & ? & _). split_and!; [done|lia|lia|].
    intros k r' Hr'. by rewrite lookup_empty in Hr'.
Qed.

(** The state a flush publishes. *)
Lemma flush_state db w D next :
  Inv db w D ->
  published (if replica db
     then mkState (Version (manifest db)) (SSTables (manifest db) ++ [sst_name next]) next (appliedIndex db) (LastSeq (manifest db))
     else mkState (Version (manifest db)) (SSTables (manifest db) ++ [sst_name next]) next (AppliedIndex (manifest db))
            (Z.max (LastSeq (manifest db)) (u64 (MemTable.NextSeq (mem db) - 1))))
  = d_state (flushed db D next).
Proof.
  intros Hi. pose proof (inv_mode _ _ _ Hi) as Hm. unfold d_replica in Hm. pose proof (MemTable.wf_next _ (inv_mem _ _ _ Hi)) as Hwn.
  unfold flushed. rewrite <- (inv_manifest _ _ _ Hi). unfold published. simpl. rewrite Hm.
  destruct (d_wal D) as [l|] eqn:El; [|done]. simpl. destruct (inv_wal _ _ _ Hi l El) as (_ & _ & Hlt).
  pose proof (st_last _ (dk_state _ (inv_ok _ _ _ Hi))). rewrite u64_small; [done|]. unfold MemTable.NextSeq. lia.
Qed.

(** The index the files are at after a flush. *)
Definition flush_index (db : DB) (D : Disk) : Z := if replica db then appliedIndex db else AppliedIndex (d_state D).

(** Files at the view of the description or already at that of the handle. *)
Definition before_or_after (db : DB) (D : Disk) (fs : gmap bytes bytes) : Prop :=
  recoverable (d_replica D) (View D) (AppliedIndex (d_state D)) fs \/ recoverable (d_replica D) (Mview db D) (flush_index db D) fs.

Lemma recoverable_ext b V V' i fs : (forall k, V k = V' k) -> recoverable b V i fs -> recoverable b V' i fs.
Proof. intros HV (D & torn & ? & ? & ? & Hk & ?). exists D, torn. split_and!; try done. intros k. by rewrite Hk. Qed.

(** What a flush does to a handle. *)
Definition flush_post (db : DB) (D : Disk) (s : St) : Prop :=
  exists D', Inv s.1 s.2 D' /\ (forall k, View D' k = Mview db D k) /\ (forall k, Mview s.1 D' k = Mview db D k) /\
    AppliedIndex (d_state D') = flush_index db D /\ appliedIndex s.1 = appliedIndex db /\ opts s.1 = opts db /\
    spent 0 2 0 db D s.1 D'.

Lemma view_empty_mem db w D k :
  Inv db w D -> MemTable.SortedEntries (mem db) = [] -> View D k = Mview db D k.
Proof.
  intros Hi Hm. destruct (d_wal D) as [l|] eqn:El; [by eapply View_Mview; [|rewrite El]|].
  unfold View, Mview, pending, wal_records. by rewrite El, Hm.
Qed.

(** A flush with an empty memtable publishes the applied index if it moved. *)
Definition reindexed (db : DB) (D : Disk) : Disk :=
  mkDisk (mkState 2 (SSTables (d_state D)) (NextSST (d_state D)) (appliedIndex db) (LastSeq (d_state D))) (d_tables D) (d_wal D).

Lemma reindexed_ok db w D : Inv db w D -> d_wal D = None -> disk_ok (reindexed db D).
Proof.
  intros Hi El. destruct (inv_replica _ _ _ Hi El) as (Hdu & Hle & _). pose proof (inv_ok _ _ _ Hi) as [].
  split; try done.
  - destruct dk_state0. split; simpl; lia.
  - eapply Forall_impl; [exact dk_floor0|]. unfold d_floor, reindexed. simpl. rewrite El. intros r Hr. lia.
Qed.

Lemma flush_empty db w D :
  Inv db w D -> good w -> MemTable.SortedEntries (mem db) = [] ->
  keeps (before_or_after db D) flush (db, w) (fun _ => flush_post db D).
Proof.
  intros Hi Hg Hm. assert (before_or_after db D (files w)) as HJ by (left; by eapply inv_recoverable).
  unfold flush. apply keeps_bind, keeps_get_db; [done|done|]. intros _ _. cbn [fst]. rewrite Hm. cbv iota.
  pose proof (inv_mode _ _ _ Hi) as Hmode. unfold d_replica in Hmode. pose proof (fun k => view_empty_mem db w D k Hi Hm) as HV.
  destruct (replica db && (durableIndex db <? appliedIndex db)) eqn:E.
  - apply andb_true_iff in E as [Er El]. apply Z.ltb_lt in El.
    assert (d_wal D = None) as Ew by (destruct (d_wal D); [congruence|done]).
    pose proof (reindexed_ok db w D Hi Ew) as Hd'. destruct (inv_replica _ _ _ Hi Ew) as (Hdu & Hle & Hseq).
    apply keeps_bind. eapply (keeps_store _ D (reindexed db D)); [done|apply Hi|done|apply Hi| |done|apply Hi| |].
    + unfold reindexed, published. rewrite <- (inv_manifest _ _ _ Hi). done.
    + intros fs [Ho|Ho]; [left; exists D, []|right; exists (reindexed db D), []]; split_and!; try done;
        try apply torn_nil; try apply Hi. unfold flush_index. by rewrite Er.
    + intros w' Hg' Ho' _ HJ'. apply keeps_bind, keeps_put; [done|done|]. intros _ _. apply keeps_put; [done|done|].
      exists (reindexed db D). unfold flush_index. rewrite Er.
      split_and!; try done; [|apply spent_same; try done; simpl; lia]. destruct Hi.
      split; simpl; try done.
      * rewrite <- inv_manifest0. done.
      * intros k r Hr. exfalso. destruct (inv_mem_ok0 k r Hr) as (? & ? & ?).
        assert (r ∈ MemTable.SortedEntries (mem db)) as Hin.
        { apply MemTable.elem_of_SortedEntries; [done|]. by rewrite (MemTable.wf_key _ inv_mem0 k r Hr). }
        rewrite Hm in Hin. by apply not_elem_of_nil in Hin.
      * intros _. split_and!; [done|lia|lia|done].
  - apply keeps_ret; [done|done|]. exists D. split_and!; try done; [|apply spent_refl; lia].
    unfold flush_index. destruct (replica db); [|done].
    destruct (d_wal D) as [l|] eqn:El; [done|]. destruct (inv_replica _ _ _ Hi El) as (? & ? & _).
    apply Z.ltb_ge in E. lia.
Qed.

(** Files of the flushed description, with the log emptied or not. *)
Lemma flushed_recovers db w D next fs :
  Inv db w D -> disk_ok (flushed db D next) ->
  on_disk (flushed db D next) [] fs \/ on_disk (reset (flushed db D next)) [] fs ->
  recoverable (d_replica D) (Mview db D) (flush_index db D) fs.
Proof.
  intros Hi Hd' [Ho|Ho].
  - exists (flushed db D next), [].
    split_and!; [done|done|apply torn_nil|intros k; by eapply flushed_view|done].
  - exists (reset (flushed db D next)), []. split_and!; [by apply reset_ok|done|apply torn_nil| |by rewrite d_replica_reset].
    intros k. rewrite reset_view by (by eapply flushed_pending). by eapply flushed_view.
Qed.

Lemma flushed_after db w D next fs :
  Inv db w D -> disk_ok (flushed db D next) ->
  on_disk (flushed db D next) [] fs \/ on_disk (reset (flushed db D next)) [] fs -> before_or_after db D fs.
Proof. intros Hi Hd' Ho. right. by eapply flushed_recovers. Qed.

Lemma flushed_spent db D next r st :
  NextSST (d_state D) + 1 = next -> spent 0 1 0 db D (flushed_handle db D next r st) (reset (flushed db D next)).
Proof.
  intros En. assert (weight (flushed_handle db D next r st) (reset (flushed db D next)) = weight db D) as Ew by done.
  unfold spent. rewrite Ew. split_and!; [lia|cbn; lia|cbn; unfold MemTable.NextSeq; lia].
Qed.

(** The end of a flush: the compaction it may trigger. *)
Lemma flush_compacts db w D next r st w' :
  Inv db w D -> room 2 db D -> NextSST (d_state D) + 1 = next -> disk_ok (flushed db D next) -> good w' ->
  Inv (flushed_handle db D next r st) w' (reset (flushed db D next)) ->
  keeps (before_or_after db D) maybeCompact (flushed_handle db D next r st, w') (fun _ => flush_post db D).
Proof.
  intros Hi Hroom En Hd' Hg Hi6. set (D6 := reset (flushed db D next)) in *. set (db6 := flushed_handle db D next r st) in *.
  assert (before_or_after db D (files w')) as HJ by (eapply flushed_after; [done|done|right; apply Hi6]).
  assert (forall k, View D6 k = Mview db D k) as HV6.
  { intros k. unfold D6. rewrite reset_view by (by eapply flushed_pending). by eapply flushed_view. }
  assert (forall k, Mview db6 D6 k = Mview db D k) as HM6.
  { intros k. rewrite <- HV6. symmetry. by eapply view_empty_mem. }
  assert (spent 0 1 0 db D db6 D6) as Hs6 by (by apply flushed_spent).
  unfold maybeCompact. apply keeps_bind, keeps_get_db; [done|done|]. intros _ _. cbn [fst].
  destruct (_ <? _).
  { apply keeps_ret; [done|done|]. exists D6. split_and!; try done. cbn [fst]. unfold spent in *. lia. }
  eapply keeps_mono; [apply (compact_keeps db6 w' D6 Hi6 Hg)|..].
  - destruct Hroom as [Hsz Hsst]. split; [exact Hsz|]. unfold D6. simpl. lia.
  - intros fs Hfs. right. eapply recoverable_ext; [exact HV6|]. unfold D6 in Hfs at 1. rewrite d_replica_reset in Hfs. exact Hfs.
  - intros [] s' _ (D' & Hi' & (H1 & H2 & H3 & H4 & H5 & H6) & Hs'). exists D'. split_and!; [done|..].
    + intros k. by rewrite H1, HV6.
    + intros k. by rewrite H2, HM6.
    + by rewrite H3.
    + by rewrite H6.
    + by rewrite H5.
    + exact (spent_trans _ _ _ _ _ _ _ _ _ _ _ _ Hs6 Hs').
Qed.

(** Emptying the log after the manifest was published. *)
Lemma flush_resets db w D next r st w3 :
  Inv db w D -> room 2 db D -> NextSST (d_state D) + 1 = next -> disk_ok (flushed db D next) -> good w3 ->
  on_disk (flushed db D next) [] (files w3) ->
  reads r (MemTable.SortedEntries (mem db)) -> r_name r = sst_name next -> published st = d_state (flushed db D next) ->
  keeps (before_or_after db D)
    ((match log db with Some _ => with_log Wal.Reset | None => mret tt end) ;; put count_flush ;; maybeCompact)
    (mkDB (MemTable.NewWithSeq (MemTable.NextSeq (mem db))) (log db) true (r :: readers db) next (opts db) st
       (appliedIndex db) (if replica db then appliedIndex db else durableIndex db) (closed db) (flushes db)
       (compactions db), w3) (fun _ => flush_post db D).
Proof.
  intros Hi Hroom En Hd' Hg Ho3 Hr Hrn Hst'. set (db4 := mkDB _ _ _ _ _ _ _ _ _ _ _ _). set (J := before_or_after db D).
  pose proof (fun fs => flushed_after db w D next fs Hi Hd') as HJ. fold J in HJ.
  apply keeps_bind. apply (keeps_mono J J _ _ (fun _ s' => s'.1 = set_log ((fun _ => 0%nat) <$> d_wal D) db4 /\
    good s'.2 /\ on_disk (reset (flushed db D next)) [] (files s'.2))); [|done|].
  { rewrite (inv_log _ _ _ Hi). destruct (d_wal D) as [l|] eqn:El; simpl.
    - pose proof (reset_disk (flushed db D next) [] (files w3) Hd' Ho3) as Hrd.
      apply (keeps_reset J db4 w3 (length (Wal.encode_all l))); [done|by auto| | |].
      + apply HJ. right. apply Hrd. simpl. by rewrite El.
      + unfold db4. simpl. by rewrite (inv_log _ _ _ Hi), El.
      + intros w4 Hg4 E4. split_and!; [done|done|]. simpl. rewrite E4. apply Hrd. simpl. by rewrite El.
    - apply keeps_ret; [done|by auto|]. simpl. split_and!; [|done|].
      + unfold set_log, db4. simpl. by rewrite (inv_log _ _ _ Hi), El.
      + destruct Ho3. split; try done. unfold reset. simpl. by rewrite El. }
  intros [] [db5 w5] _ (Edb & Hg5 & Ho5) _ HJ5. cbn [fst snd] in *. subst db5.
  apply keeps_bind, keeps_put; [done|done|]. intros _ _. cbn [fst snd].
  change (count_flush (set_log ((fun _ => 0%nat) <$> d_wal D) db4)) with (flushed_handle db D next r st).
  eapply flush_compacts; [done|done|done|done|done|]. by eapply Inv_flushed.
Qed.

Lemma flush_full db w D :
  Inv db w D -> good w -> room 2 db D -> MemTable.SortedEntries (mem db) <> [] ->
  keeps (before_or_after db D) flush (db, w) (fun _ => flush_post db D).
Proof.
  intros Hi Hg Hroom Hne. pose proof (inv_ok _ _ _ Hi) as Hd. set (J := before_or_after db D).
  pose proof (st_next _ (dk_state D Hd)) as Hst.
  assert (forall fs, on_disk D [] fs -> J fs) as HJD.
  { intros fs Ho. left. exists D, []. split_and!; [done|done|apply torn_nil|done|done]. }
  assert (J (files w)) as HJ by apply HJD, Hi.
  unfold flush. apply keeps_bind, keeps_get_db; [done|done|]. intros _ _. cbn [fst].
  destruct (MemTable.SortedEntries (mem db)) as [|x0 l0] eqn:El; [done|]. rewrite <- El in *. clear x0 l0 El.
  rewrite (inv_persistent _ _ _ Hi). simpl negb. cbv iota. rewrite (inv_next _ _ _ Hi).
  set (next := u64 (NextSST (d_state D) + 1)).
  assert (next = NextSST (d_state D) + 1) as En by (apply u64_small; destruct Hroom; lia).
  assert (NextSST (d_state D) < next < 2 ^ 63) as Hn by (destruct Hroom; lia). clearbody next.
  pose proof (flushed_ok 2 db w D next Hi Hroom Hne Hn) as Hd'.
  apply keeps_bind, keeps_put; [done|done|]. intros _ _. cbn [fst snd].
  apply keeps_bind, keeps_catch. eapply (keeps_table J D (sst_name next)); [done|done|by eapply inv_disk|apply fresh_name; [done|lia]|
    apply sst_name_last|by apply Write_touches|done|]. intros w1 Hg1 Ho1 E1 _ HJ1.
  apply keeps_bind, keeps_catch.
  eapply (keeps_open_table J _ (MemTable.SortedEntries (mem db))); [done|done|by eapply (mem_fits 2 db w D)| |].
  { by rewrite E1, lookup_insert_eq. }
  intros r w2 Hg2 E2 Hr Hrn _ HJ2. rewrite <- E2 in Ho1, E1.
  pose proof (flush_state db w D next Hi) as Hst'. set (st := if replica db then _ else _) in *. clearbody st.
  apply keeps_bind, keeps_catch. eapply (keeps_store J D (flushed db D next)); [done|done|done|done|done|done| | |].
  { simpl. constructor; [by rewrite E1, lookup_insert_eq|]. eapply Forall_impl; [apply (od_tables _ _ _ Ho1)|]. done. }
  { intros fs [?|?]; [by apply HJD|]. eapply flushed_after; [done|done|by left]. }
  intros w3 Hg3 Ho3 _ HJ3. do 3 (apply keeps_bind, keeps_put; [done|done|]; intros _ _). cbn [fst snd].
  apply keeps_bind. apply (keeps_mono J J _ _ (fun _ s' => s' =
    (mkDB (MemTable.NewWithSeq (MemTable.NextSeq (mem db))) (log db) true (r :: readers db) next (opts db) st
       (appliedIndex db) (if replica db then appliedIndex db else durableIndex db) (closed db) (flushes db)
       (compactions db), w3))); [|done|].
  { rewrite <- (inv_persistent _ _ _ Hi). destruct (replica db); [by apply keeps_put|by apply keeps_ret]. }
  intros [] s' _ ->. intros _ _. by eapply flush_resets.
Qed.

Lemma flush_keeps db w D :
  Inv db w D -> good w -> room 2 db D ->
  keeps (before_or_after db D) flush (db, w) (fun _ => flush_post db D).
Proof.
  intros Hi Hg Hroom. destruct (decide (MemTable.SortedEntries (mem db) = [])); [by eapply flush_empty|by eapply flush_full].
Qed.

Lemma maybeFlush_keeps db w D :
  Inv db w D -> good w -> room 2 db D ->
  keeps (before_or_after db D) maybeFlush (db, w) (fun _ s =>
    exists D', Inv s.1 s.2 D' /\ (forall k, Mview s.1 D' k = Mview db D k) /\
      ((forall k, View D' k = View D k) /\ AppliedIndex (d_state D') = AppliedIndex (d_state D) \/
       (forall k, View D' k = Mview db D k) /\ AppliedIndex (d_state D') = flush_index db D) /\
      appliedIndex s.1 = appliedIndex db /\ opts s.1 = opts db /\ spent 0 2 0 db D s.1 D').
Proof.
  intros Hi Hg Hroom. assert (before_or_after db D (files w)) as HJ by (left; by eapply inv_recoverable).
  unfold maybeFlush. apply keeps_bind, keeps_get_db; [done|done|]. intros _ _. cbn [fst].
  rewrite (inv_persistent _ _ _ Hi). simpl negb. cbv iota. destruct (_ <? _).
  - apply keeps_ret; [done|done|]. exists D. split_and!; auto. apply spent_refl; lia.
  - eapply keeps_mono; [by apply flush_keeps|done|]. intros [] s _ (D' & ? & ? & ? & ? & ? & ? & ?).
    exists D'. split_and!; auto.
Qed.

End files.
End Recovery.
