(* ===== verification/Reopen.v ===== *)
(** * Opening a store

    [Open] on a directory that holds the files of a description, with at most a
    torn record at the end of the log: it returns a handle that stands for the
    same map. Under any schedule of failures and crashes the files it leaves are
    those of the description. *)

From S2P Require Import Prelude GoStd Fs Memtable Bloom Wal Sstable Heap Compact Json Manifest Db Recovery.

Module Reopen.
Import Sstable Manifest Db Recovery.

Section files.
Context {BS : BloomSizing}.
Implicit Types (J : gmap bytes bytes -> Prop).

(** ** Opening the tables *)

Lemma closeReaders_safe J w0 w (rs : list Reader) (Q : unit -> World -> Prop) :
  follows w0 w -> J (files w) ->
  (forall w', files w' = files w -> follows w0 w' -> Q tt w') -> safe J w0 (closeReaders rs) w Q.
Proof.
  revert w. unfold closeReaders. induction rs as [|r rs IH]; intros w Hf HJ HQ.
  { apply safe_ret; [done|done|]. by apply HQ. }
  cbn [mfold]. apply safe_bind, safe_ignore_nop; [done|done|]. intros w' E Hf' _ HJ'.
  apply IH; [done|done|]. intros w'' E'. apply HQ. by rewrite E'.
Qed.

(** The handlers of Open close the readers and pass the error on. *)
Lemma close_raise_safe {A : Type} J w0 w rs e (Q : A -> World -> Prop) :
  follows w0 w -> J (files w) -> can_fail w0 -> safe J w0 (closeReaders rs ;; raise e) w Q.
Proof.
  intros Hf HJ Hc. apply safe_bind, closeReaders_safe; [done|done|]. intros w' E Hf' _ HJ'. by apply safe_raise.
Qed.

Notation opens := (Forall2 (fun r (t : bytes * list Rec) => reads r t.2 /\ r_name r = t.1)).

Lemma open_all_safe J w0 w ts0 ts opened (Q : list Reader -> World -> Prop) :
  follows w0 w -> J (files w) -> opens opened ts0 ->
  Forall (fun t => fits t.2 /\ files w !! t.1 = Some (table_bytes t.2)) ts ->
  (forall rs w', files w' = files w -> follows w0 w' -> opens rs (ts0 ++ ts) -> Q rs w') ->
  safe J w0 (open_all ts.*1 opened) w Q.
Proof.
  revert w ts0 opened. induction ts as [|t ts IH]; intros w ts0 opened Hf HJ Ho HF HQ.
  { apply safe_ret; [done|done|]. apply HQ; [done|done|]. by rewrite app_nil_r. }
  inv HF. destruct H1 as [Hfit Hfile]. cbn [fmap list_fmap open_all]. apply safe_bind, safe_catch.
  - eapply safe_touches; [done|by apply (Open_touches t.1 t.2)| |].
    + intros w' Ho'. assert (files w' = files w) as ->; [|done]. apply map_eq. intros n. apply Ho'. set_solver.
    + intros r w' Hf' _ (E & Hr & Hn & _) _ HJ'. apply (IH w' (ts0 ++ [t])); [done|done| |by rewrite E|].
      * apply Forall2_app; [done|]. by constructor.
      * intros rs w'' E' Hf'' HF. apply HQ; [by rewrite E'|done|]. by rewrite <- app_assoc in HF.
  - intros e w' Hf' HJ' Hc. by apply close_raise_safe.
Qed.

Lemma openSSTables_safe J w0 w D torn (Q : list Reader * State * bool -> World -> Prop) :
  follows w0 w -> J (files w) -> disk_ok D -> on_disk D torn (files w) ->
  (forall rs w', files w' = files w -> follows w0 w' -> opens rs (d_tables D) -> Q (rs, d_state D, false) w') ->
  safe J w0 openSSTables w Q.
Proof.
  intros Hf HJ Hd Ho HQ. unfold openSSTables. apply safe_bind.
  eapply Load_safe; [done|done|apply Ho|by apply disk_ok_validate|apply Hd|]. intros w1 E1 Hf1 _ HJ1.
  apply safe_bind, safe_ret; [done|done|]. intros _ _. rewrite (dk_sst D Hd), reverse_involutive.
  apply safe_bind. eapply (open_all_safe J w0 w1 [] (d_tables D)); [done|done|constructor| |].
  - apply Forall_forall. intros t Ht. pose proof (od_tables _ _ _ Ho) as H2. pose proof (dk_fits D Hd) as H3.
    rewrite Forall_forall in H2. rewrite Forall_forall in H3. rewrite E1. split; [|by apply H2]. apply H3. apply list_elem_of_fmap. eauto.
  - intros rs w2 E2 Hf2 HF _ HJ2. apply safe_ret; [done|done|]. apply HQ; [by rewrite E2|done|done].
Qed.

(** ** Replaying the log *)

Lemma safe_on_log {A : Type} J w0 w off (m : M (nat * World) A) (Q : A * nat -> World -> Prop) :
  runs m (off, w) (fun a s => follows w0 s.2 /\ J (files s.2) /\ Q (a, s.1) s.2)
    (fun s => follows w0 s.2 /\ J (files s.2) /\ can_fail w0) (fun s => J (files s.2) /\ can_crash w0) ->
  safe J w0 (on_log off m) w Q.
Proof. unfold safe, runs, on_log. by destruct (m (off, w)) as [[a|e| |] [off' w']]. Qed.

(** A computation on the files inside one on the log. *)
Lemma runs_on_files {A B : Type} J w0 (off : nat) w (m : M World A) (f : A -> M (nat * World) B) Q :
  safe J w0 m w (fun a w' => follows w0 w' -> J (files w') ->
    runs (f a) (off, w') Q (fun s => follows w0 s.2 /\ J (files s.2) /\ can_fail w0)
      (fun s => J (files s.2) /\ can_crash w0)) ->
  runs (zoom snd (fun w s => (s.1, w)) m ≫= f) (off, w) Q
    (fun s => follows w0 s.2 /\ J (files s.2) /\ can_fail w0) (fun s => J (files s.2) /\ can_crash w0).
Proof.
  intros H. apply runs_bind, runs_zoom. eapply runs_mono; [exact H|..]; simpl; [|done|done]. naive_solver.
Qed.

Lemma ReadAll_safe J w0 w off l torn (Q : list Wal.WRec * nat -> World -> Prop) :
  follows w0 w -> J (files w) -> files w !! Wal.walName = Some (Wal.encode_all l ++ torn) ->
  Forall Wal.valid l -> torn_ok torn -> J (<[Wal.walName := Wal.encode_all l]> (files w)) ->
  (forall w', files w' = <[Wal.walName := Wal.encode_all l]> (files w) -> follows w0 w' ->
     Q (l, length (Wal.encode_all l)) w') ->
  safe J w0 (on_log off Wal.ReadAll) w Q.
Proof.
  intros Hf HJ Hw Hv (r & k & Hr & Hk & Hne & ->) HJ' HQ. apply safe_on_log. unfold Wal.ReadAll.
  apply runs_on_files, safe_nop; [done|done|]. intros w1 E1 Hf1 _ HJ1.
  apply runs_bind, runs_gets. cbn [snd]. rewrite E1, Hw. cbn [default id].
  apply runs_bind. rewrite Wal.replay_then by (try done; by apply Wal.read_turn_torn). unfold of_res, runs at 1. cbn [snd fst].
  assert (alter (fun c => take (length (Wal.encode_all l)) c ++ replicate (length (Wal.encode_all l) - length c) x00)
    Wal.walName (files w1) = <[Wal.walName := Wal.encode_all l]> (files w)) as Et.
  { rewrite E1, <- (insert_id (files w) Wal.walName (Wal.encode_all l ++ take k (Wal.encode r))) at 1 by done.
    rewrite alter_insert_eq, take_app_length, length_app. f_equal.
    replace (_ - _)%nat with 0%nat by lia. by rewrite app_nil_r. }
  apply runs_on_files, safe_sys; [done|done|by rewrite Et|]. rewrite Et. intros w2 E2 Hf2 _ HJ2.
  apply runs_on_files, safe_nop; [done|done|]. intros w3 E3 Hf3 _ HJ3.
  apply runs_bind, runs_modify, runs_ret. cbn [fst snd]. rewrite E3, E2, lookup_insert_eq. cbn [default id].
  split_and!; [done|by rewrite E2 in HJ2|]. apply HQ; [|done]. by rewrite E3.
Qed.

(** ** The handle *)

Lemma of_wal_ok r : Wal.valid r -> rec_ok (of_wal r) /\ type_ok (of_wal r).
Proof.
  intros [Ht Hs Hk Hv]. change Wal.maxKeyLen with 16384 in Hk. change Wal.maxValLen with 67108864 in Hv.
  unfold Wal.TypePut, Wal.TypeDelete in Ht. split; [split; simpl; lia|].
  unfold type_ok, of_wal, RecordTypePut, RecordTypeDelete. simpl. lia.
Qed.

Lemma pending_in D r : disk_ok D -> r ∈ pending D -> exists x, r = of_wal x /\ x ∈ wal_records D /\
  Wal.valid x /\ LastSeq (d_state D) < Wal.wSeqNum x /\ Wal.wSeqNum x + 1 < 2 ^ 64.
Proof.
  intros Hd Hr. unfold pending in Hr. apply list_elem_of_fmap in Hr as (x & -> & [Hx Hin]%list_elem_of_filter).
  pose proof (dk_wal D Hd) as H1. pose proof (dk_seqs D Hd) as H2. rewrite Forall_forall in H1. rewrite Forall_forall in H2.
  exists x. split_and!; auto.
Qed.

Lemma pending_seqs D : disk_ok D -> Forall (fun r => 0 <= SeqNum r /\ SeqNum r + 1 < 2 ^ 64) (pending D).
Proof.
  intros Hd. apply Forall_forall. intros r Hr. destruct (pending_in D r Hd Hr) as (x & -> & _ & Hv & _ & Hs).
  pose proof (Wal.valid_seq x Hv). simpl. lia.
Qed.

(** The memtable Open rebuilds. *)
Definition replayed (D : Disk) : MemTable.MemTable :=
  foldl MemTable.SetRaw (MemTable.NewWithSeq (LastSeq (d_state D) + 1)) (pending D).

Lemma replayed_lookup D k : MemTable.entries (replayed D) !! k = newest k (pending D).
Proof. unfold replayed. by rewrite MemTable.SetRaw_all_lookup. Qed.

Lemma replayed_next D :
  disk_ok D -> MemTable.wf (replayed D) /\ LastSeq (d_state D) < MemTable.nextSeq (replayed D) /\
  Forall (fun r => Wal.wSeqNum r < MemTable.nextSeq (replayed D)) (wal_records D).
Proof.
  intros Hd. pose proof (st_last _ (dk_state D Hd)) as H0. pose proof (dk_last D Hd) as H1.
  pose proof (pending_seqs D Hd) as Hp. unfold replayed. set (m := MemTable.NewWithSeq _).
  assert (MemTable.nextSeq m = LastSeq (d_state D) + 1) as Em by done.
  destruct (MemTable.nextSeq_SetRaw_all m (pending D)) as (Ha & Hb & _); [lia|done|].
  split_and!; [apply MemTable.wf_SetRaw_all; [apply MemTable.wf_NewWithSeq; lia|done]|lia|].
  apply Forall_forall. intros x Hx. rewrite Forall_forall in Hb.
  destruct (decide (LastSeq (d_state D) < Wal.wSeqNum x)) as [Hl|Hl]; [|lia].
  specialize (Hb (of_wal x)). simpl in Hb. apply Hb. apply list_elem_of_fmap. exists x. split; [done|].
  by apply list_elem_of_filter.
Qed.

Definition opened (o : Options) (rs : list Reader) (D : Disk) (l : list Wal.WRec) : DB :=
  mkDB (replayed D) (Some (length (Wal.encode_all l))) true rs (NextSST (d_state D)) o (d_state D) 0 0 false 0 0.

Lemma Inv_opened o rs D l w :
  disk_ok D -> d_wal D = Some l -> on_disk D [] (files w) -> opens rs (d_tables D) -> Mode o = DurabilityEmbedded ->
  Inv (opened o rs D l) w D.
Proof.
  intros Hd El Ho Hr Hm. destruct (replayed_next D Hd) as (Hw & Hn & Hl).
  assert (published (d_state D) = d_state D) as Hp.
  { pose proof (dk_version D Hd). unfold published. destruct (d_state D). simpl in *. by subst. }
  split; try done; change (mem (opened o rs D l)) with (replayed D).
  - intros k r Hk. rewrite replayed_lookup in Hk. apply newest_Some in Hk as (Hin & _).
    destruct (pending_in D r Hd Hin) as (x & -> & _ & Hv & Hlt & _). unfold d_floor. rewrite El.
    destruct (of_wal_ok x Hv). by split_and!.
  - simpl. by rewrite El.
  - unfold replica, d_replica. simpl. by rewrite Hm, El.
  - intros l' El'. assert (l' = l) as -> by congruence. unfold wal_records in Hl. rewrite El in Hl.
    split_and!; [apply replayed_lookup|done|done].
  - intros E. congruence.
Qed.

(** The handle in replica mode: nothing is replayed. *)
Definition opened_replica (o : Options) (rs : list Reader) (D : Disk) : DB :=
  mkDB MemTable.New None true rs (NextSST (d_state D)) o (d_state D) (AppliedIndex (d_state D)) (AppliedIndex (d_state D)) false 0 0.

Lemma Inv_opened_replica o rs D w :
  disk_ok D -> d_wal D = None -> on_disk D [] (files w) -> opens rs (d_tables D) -> Mode o = DurabilityReplica ->
  Inv (opened_replica o rs D) w D.
Proof.
  intros Hd El Ho Hr Hm. pose proof (st_applied _ (dk_state D Hd)).
  assert (published (d_state D) = d_state D) as Hp.
  { pose proof (dk_version D Hd). unfold published. destruct (d_state D). simpl in *. by subst. }
  split; try done.
  - simpl. by rewrite El.
  - unfold replica, d_replica. simpl. by rewrite Hm, El.
  - intros l' El'. congruence.
  - intros _. simpl. split_and!; [done|lia|lia|]. intros k r Hk. by rewrite lookup_empty in Hk.
Qed.

(** ** Open *)

(** The files of a description, with a torn record at most. *)
Definition files_of (D : Disk) (fs : gmap bytes bytes) : Prop := exists torn, torn_ok torn /\ on_disk D torn fs.

Lemma files_of_cut D torn l fs :
  disk_ok D -> d_wal D = Some l -> on_disk D torn fs -> on_disk D [] (<[Wal.walName := Wal.encode_all l]> fs).
Proof.
  intros Hd El [H1 H2 H3]. split.
  - by rewrite lookup_insert_ne.
  - apply Forall_forall. intros t Ht. rewrite Forall_forall in H2. specialize (H2 t Ht).
    rewrite lookup_insert_ne; [done|]. intros E.
    assert (last t.1 = Some x74) as Hx by (apply (names_last D); [done|]; apply list_elem_of_fmap; eauto).
    by rewrite <- E in Hx.
  - intros l' El'. assert (l' = l) as -> by congruence. by rewrite lookup_insert_eq, app_nil_r.
Qed.

Lemma openEmbedded_safe w0 w o rs D l torn :
  follows w0 w -> disk_ok D -> d_wal D = Some l -> on_disk D torn (files w) -> torn_ok torn ->
  opens rs (d_tables D) -> Mode o = DurabilityEmbedded ->
  safe (files_of D) w0 (openEmbedded o rs (d_state D) (LastSeq (d_state D)) false) w (fun db w' =>
    db = opened o rs D l /\ Inv db w' D).
Proof.
  intros Hf Hd El Ho Ht Hrs Hm. pose proof (od_wal _ _ _ Ho l El) as Hw.
  assert (files_of D (files w)) as HJ by (by exists torn).
  unfold openEmbedded. apply safe_bind, safe_catch.
  2:{ intros e w' Hf' HJ' Hc. by apply close_raise_safe. }
  unfold Wal.Open, os_OpenCreate. apply safe_bind, safe_sys; rewrite ?Hw; [done|done|done|].
  intros w1 E1 Hf1 _ HJ1. apply safe_ret; [done|done|]. intros _ _. apply safe_bind, safe_catch.
  2:{ intros e w' Hf' HJ' Hc. apply safe_bind. apply safe_ignore.
    - apply safe_on_log. unfold Wal.Close. apply runs_on_files, safe_nop; [done|done|]. intros w2 E2 Hf2 _ HJ2.
      apply runs_zoom. apply safe_nop; [done|done|]. intros w3 E3 Hf3. cbn [fst snd]. intros _ HJ3. by apply close_raise_safe.
    - intros w2 Hf2 HJ2 _ _ _. by apply close_raise_safe. }
  pose proof (files_of_cut D torn l (files w) Hd El Ho) as Hcut.
  eapply (ReadAll_safe _ w0 w1 0%nat l torn); [done|done|by rewrite E1|..].
  - pose proof (dk_wal D Hd) as Hv. unfold wal_records in Hv. by rewrite El in Hv.
  - done.
  - exists []. rewrite E1. split; [apply torn_nil|done].
  - rewrite E1. intros w2 E2 Hf2 _ HJ2. cbn [fst snd sequenceWAL negb].
    assert (on_disk D [] (files w2)) as Ho2 by (by rewrite E2). apply safe_ret; [done|done|].
    pose proof (st_last _ (dk_state D Hd)). pose proof (dk_last D Hd). rewrite u64_small by lia.
    assert (forall m, mkDB m (Some (length (Wal.encode_all l))) true rs (NextSST (d_state D)) o (d_state D) 0 0 false 0 0
      = opened o rs D l <-> m = replayed D) as He.
    { intros m. split; [by intros [= ->]|by intros ->]. }
    rewrite (proj2 (He _)); [|unfold replayed, pending, wal_records; by rewrite El].
    split; [done|]. by apply Inv_opened.
Qed.

(** Opening in the mode of the description. *)
Definition mode_of (D : Disk) : DurabilityMode := match d_wal D with Some _ => DurabilityEmbedded | None => DurabilityReplica end.

Lemma Open_safe w o D torn :
  disk_ok D -> on_disk D torn (files w) -> torn_ok torn -> Mode o = mode_of D ->
  safe (files_of D) w (Open true o) w (fun db w' => Inv db w' D /\ (forall k, Mview db D k = View D k) /\
    (d_wal D = None -> appliedIndex db = AppliedIndex (d_state D) /\ mem db = MemTable.New)).
Proof.
  intros Hd Ho Ht Hm. assert (files_of D (files w)) as HJ by (by exists torn).
  unfold Open. cbn [negb]. apply safe_bind, safe_nop; [done|done|]. intros w1 E1 Hf1 _ HJ1. rewrite <- E1 in Ho.
  apply safe_bind. eapply openSSTables_safe; [done|done|done|exact Ho|]. intros rs w2 E2 Hf2 Hrs _ HJ2. rewrite <- E2 in Ho.
  rewrite Hm. unfold mode_of in *. destruct (d_wal D) as [l|] eqn:El.
  - cbn [orb]. assert (Legacy (d_state D) = false) as -> by (unfold Legacy; by rewrite (dk_version D Hd)).
    apply safe_bind, safe_ret; [done|done|]. intros _ _. eapply safe_mono; [by eapply openEmbedded_safe|].
    intros db w' Hf' HJ' [-> Hi]. split_and!; [done| |done]. intros k. symmetry. eapply View_Mview; [done|by rewrite El].
  - apply safe_bind, safe_ret; [done|done|]. intros _ _. apply safe_ret; [done|done|].
    assert (on_disk D [] (files w2)) as Ho2 by (destruct Ho; split; [done|done|]; intros l; by rewrite El).
    pose proof (Inv_opened_replica o rs D w2 Hd El Ho2 Hrs Hm) as Hi. split_and!; [exact Hi| |done].
    intros k. symmetry. by eapply view_empty_mem.
Qed.

(** ** A new directory *)

(** No manifest, no table and no log record yet. *)
Definition new_dir (fs : gmap bytes bytes) : Prop :=
  fs !! fileName = None /\ (forall n c, fs !! n = Some c -> HasSuffix n (str ".sst") = false) /\
  (forall c, fs !! Wal.walName = Some c -> c = []).

Definition empty_disk : Disk := mkDisk Manifest.New [] (Some []).

Lemma empty_disk_ok : disk_ok empty_disk.
Proof. split; simpl; try done; try constructor; try (unfold version; lia); constructor. Qed.

Lemma dir_tables_new fs : new_dir fs -> dir_tables fs = [].
Proof.
  intros (_ & Hs & _). destruct (dir_tables fs) as [|n l] eqn:E; [done|]. exfalso.
  assert (n ∈ dir_tables fs) as Hn by (rewrite E; left). unfold dir_tables in Hn.
  apply elem_of_sort_by, list_elem_of_filter in Hn as [Hn Hin].
  apply list_elem_of_fmap in Hin as ([n' c] & -> & Hin%elem_of_map_to_list). cbn [fst] in Hn. by rewrite (Hs n' c Hin) in Hn.
Qed.

Lemma new_dir_wal fs : new_dir fs -> new_dir (<[Wal.walName := []]> fs).
Proof.
  intros (H1 & H2 & H3). split_and!.
  - by rewrite lookup_insert_ne.
  - intros n c [[<- <-]|[_ ?]]%lookup_insert_Some; [vm_compute; done|by eapply H2].
  - intros c. rewrite lookup_insert_eq. by intros [= <-].
Qed.

Lemma safe_run_db J w0 w m db (Q : DB -> World -> Prop) :
  runs m (db, w) (fun _ s => follows w0 s.2 /\ J (files s.2) /\ Q s.1 s.2)
    (fun s => follows w0 s.2 /\ J (files s.2) /\ can_fail w0) (fun s => J (files s.2) /\ can_crash w0) ->
  safe J w0 (run_db m db) w Q.
Proof. unfold safe, runs, run_db. by destruct (m (db, w)) as [[a|e| |] [db' w']]. Qed.

Lemma store_new w w' s :
  new_dir (files w) -> files w !! Wal.walName = Some [] -> published s = Manifest.New ->
  old_or_new s (files w) w' -> new_dir w' \/ on_disk empty_disk [] w'.
Proof.
  intros (H1 & H2 & H3) Hw Es [Hn [Hm|Hm]].
  - left. assert (forall n, n <> tmpName -> w' !! n = files w !! n) as Hne.
    { intros n Ht. destruct (decide (n = fileName)) as [->|]; [done|]. apply Hn. set_solver. }
    split_and!; [by rewrite Hm| |intros c; rewrite Hne by done; apply H3].
    intros n c Hc. destruct (decide (n = tmpName)) as [->|Ht]; [vm_compute; done|]. apply (H2 n c). by rewrite <- Hne.
  - right. split; [by rewrite Hm, Es|constructor|]. intros l [= <-]. rewrite Hn by set_solver. by rewrite Hw.
Qed.

(** The files of Open in a new directory: still new, or those of the empty store. *)
Definition new_or_empty (fs : gmap bytes bytes) : Prop := new_dir fs \/ on_disk empty_disk [] fs.

Definition empty_handle (o : Options) : DB :=
  mkDB (MemTable.NewWithSeq 1) (Some 0%nat) true [] 0 o Manifest.New 0 0 false 0 0.

Lemma Inv_empty o w :
  on_disk empty_disk [] (files w) -> Mode o = DurabilityEmbedded -> Inv (empty_handle o) w empty_disk.
Proof.
  intros Ho Hm. split; try done; [apply empty_disk_ok| |].
  - unfold replica. simpl. by rewrite Hm.
  - intros l [= <-]. split_and!; [done|constructor|done].
Qed.

Lemma publish_new w0 w o :
  follows w0 w -> ~ can_fail w0 -> new_dir (files w) -> files w !! Wal.walName = Some [] -> Mode o = DurabilityEmbedded ->
  safe new_or_empty w0
    (run_db (catch (publishSequenceUpgrade 0 false) (fun e => ignore Close ;; raise e)) (empty_handle o)) w
    (fun db w' => db = empty_handle o /\ Inv db w' empty_disk).
Proof.
  intros Hf Hc Hn Hw Hm. apply safe_run_db, runs_catch. unfold publishSequenceUpgrade.
  apply runs_bind, runs_gets. cbn [fst]. apply runs_bind, runs_zoom. cbn [snd fst].
  set (st := mkState _ _ _ _ _). assert (published st = Manifest.New) as Es by done.
  eapply runs_mono; [apply (Store_safe st w); by vm_compute|..].
  - intros [] w' (Hf' & HJ & E). apply runs_modify. cbn [fst snd]. assert (follows w0 w') as Hf2 by (by etrans).
    assert (on_disk empty_disk [] (files w')) as Ho.
    { rewrite E, Es. apply (stored_disk empty_disk [] (files w) Manifest.New empty_disk_ok eq_refl); [constructor|].
      intros l [= <-]. exact Hw. }
    split_and!; [done|by right|done|]. by apply Inv_empty.
  - intros w' (_ & _ & Hc') e. exfalso. apply Hc. by eapply can_fail_follows.
  - intros w' [HJ Hcr]. cbn [fst snd]. split; [by eapply store_new|]. by eapply can_crash_follows.
Qed.

Lemma openSSTables_new J w0 w (Q : list Reader * State * bool -> World -> Prop) :
  follows w0 w -> J (files w) -> new_dir (files w) ->
  (forall w', files w' = files w -> follows w0 w' -> Q ([], Manifest.New, true) w') -> safe J w0 openSSTables w Q.
Proof.
  intros Hf HJ Hn HQ. unfold openSSTables, Load. apply safe_bind, safe_bind, safe_os_Open; [done|done|].
  intros w1 E1 Hf1 _ HJ1. rewrite (proj1 Hn). apply safe_ret; [done|done|]. intros _ _.
  apply safe_bind, safe_bind, safe_nop; [done|done|]. intros w2 E2 Hf2 _ HJ2. apply safe_gets; [done|done|]. intros _ _.
  rewrite E2, E1, dir_tables_new by done. apply safe_bind, safe_ret; [done|done|]. intros _ _. apply safe_ret; [done|done|].
  apply HQ; [by rewrite E2|done].
Qed.

Lemma Open_new w o :
  ~ can_fail w -> new_dir (files w) -> Mode o = DurabilityEmbedded ->
  safe new_or_empty w (Open true o) w (fun db w' => db = empty_handle o /\ Inv db w' empty_disk).
Proof.
  intros Hc Hn Hm. assert (new_or_empty (files w)) as HJ by (by left).
  unfold Open. cbn [negb]. apply safe_bind, safe_nop; [done|done|]. intros w1 E1 Hf1 _ HJ1. rewrite <- E1 in Hn.
  apply safe_bind, openSSTables_new; [done|done|done|]. intros w2 E2 Hf2 _ HJ2. rewrite <- E2 in Hn. rewrite Hm.
  cbn [orb maxSequence]. apply safe_bind, safe_catch; [|by intros; exfalso].
  eapply safe_of_res; [done|done|done|]. intros _ _. unfold openEmbedded. apply safe_bind, safe_catch; [|by intros; exfalso].
  assert (exists fs, match files w2 !! Wal.walName with Some _ => files w2 | None => <[Wal.walName := []]> (files w2) end = fs
    /\ new_dir fs /\ fs !! Wal.walName = Some []) as (fs & Efs & Hfs & Hwal).
  { pose proof (proj2 (proj2 Hn)) as Hw. destruct (files w2 !! Wal.walName) as [c|] eqn:E.
    - exists (files w2). rewrite (Hw c eq_refl) in E. done.
    - eexists. split_and!; [done|by apply new_dir_wal|apply lookup_insert_eq]. }
  unfold Wal.Open, os_OpenCreate. apply safe_bind, safe_sys; rewrite ?Efs; [done|done|by left|].
  intros w3 E3 Hf3 _ HJ3. apply safe_ret; [done|done|]. intros _ _. apply safe_bind, safe_catch; [|by intros; exfalso].
  assert (<[Wal.walName := Wal.encode_all []]> (files w3) = fs) as Ei by (rewrite E3; by apply insert_id).
  eapply (ReadAll_safe _ w w3 0%nat [] []); [done|done|by rewrite E3|constructor|apply torn_nil|by rewrite Ei; left|].
  rewrite Ei. intros w4 E4 Hf4 _ HJ4. apply publish_new; [done|done|by rewrite E4|by rewrite E4|done].
Qed.

End files.
End Reopen.
