(* ===== verification/Durability.v ===== *)
(** * Writes, recovery and durability

    [Set_], [Delete] and [ApplyBatch] change the map of the store as specified,
    and [Open] recovers it; together, a run of operations that crashes anywhere
    and is reopened answers from the map after the acknowledged operations, with
    or without the one in progress. *)

From S2P Require Import Prelude GoStd Fs Memtable Bloom Wal Sstable Heap Compact Json Manifest Db Recovery Reopen.

Module Durability.
Import Sstable Manifest Db Recovery Reopen.

Section files.
Context {BS : BloomSizing}.

(** ** Writing *)

Definition upd (V : bytes -> option bytes) (key : bytes) (v : option bytes) (k : bytes) : option bytes :=
  if key_eqb key k then v else V k.

Definition appended (D : Disk) (r : Wal.WRec) : Disk :=
  mkDisk (d_state D) (d_tables D) (Some (wal_records D ++ [r])).

Lemma appended_replica D l r : d_wal D = Some l -> d_replica (appended D r) = d_replica D.
Proof. intros El. unfold d_replica. by rewrite El. Qed.

Lemma wal_appended D r : wal_records (appended D r) = wal_records D ++ [r].
Proof. done. Qed.

Lemma encode_all_snoc l r : Wal.encode_all (l ++ [r]) = Wal.encode_all l ++ Wal.encode r.
Proof. unfold Wal.encode_all. by rewrite fmap_app, concat_app, fmap_cons, concat_cons, app_nil_r. Qed.

Lemma sorted_snoc {A} (R : A -> A -> Prop) l x : StronglySorted R l -> Forall (fun y => R y x) l -> StronglySorted R (l ++ [x]).
Proof.
  intros Hs HF. apply StronglySorted_app. split_and!; [|done|repeat constructor].
  intros a b Ha Hb. apply list_elem_of_singleton in Hb as ->. rewrite Forall_forall in HF. by apply HF.
Qed.

(** A record the log can hold, with the next sequence number, which is not the last. *)
Definition fresh (db : DB) (r : Wal.WRec) : Prop :=
  Wal.valid r /\ Wal.wSeqNum r = MemTable.nextSeq (mem db) /\ MemTable.nextSeq (mem db) + 1 < 2 ^ 64.

Lemma appended_ok db w D l r :
  Inv db w D -> d_wal D = Some l -> fresh db r -> disk_ok (appended D r).
Proof.
  intros Hi El (Hv & Hs & Hn). destruct (inv_wal _ _ _ Hi l El) as (_ & Hlt & _). pose proof (inv_ok _ _ _ Hi) as [].
  assert (wal_records D = l) as Ewr by (unfold wal_records; by rewrite El).
  unfold d_floor in *. rewrite El, Ewr in *.
  split; try done; rewrite wal_appended, Ewr.
  - apply Forall_app. split; [done|]. by apply Forall_singleton.
  - apply sorted_snoc; [done|]. eapply Forall_impl; [exact Hlt|]. simpl. intros x Hx. lia.
  - apply Forall_app. split; [done|]. apply Forall_singleton. lia.
Qed.

Lemma appended_pending db w D l r :
  Inv db w D -> d_wal D = Some l -> fresh db r ->
  pending (appended D r) = pending D ++ [of_wal r].
Proof.
  intros Hi El (_ & Hs & _). destruct (inv_wal _ _ _ Hi l El) as (_ & _ & Hlt). unfold pending.
  rewrite wal_appended, filter_app, fmap_app, filter_cons. cbn [appended d_state]. rewrite decide_True by lia. done.
Qed.

(** The new record is newer than all others. *)
Lemma newest_snoc k l r :
  (forall x, x ∈ l -> SeqNum x < SeqNum r) -> newest k (l ++ [r]) = if key_eqb (Key r) k then Some r else newest k l.
Proof.
  intros Hl. unfold newest. rewrite newest_from_app. cbn [newest_from foldl]. fold (newest k l).
  destruct (key_eqb (Key r) k); [|done]. unfold newer. destruct (newest k l) as [x|] eqn:E; [|done].
  apply newest_Some in E as (Hx & _). by rewrite (proj2 (Z.ltb_lt _ _)) by (by apply Hl).
Qed.

Lemma pending_seq db w D l :
  Inv db w D -> d_wal D = Some l -> forall x, x ∈ pending D -> SeqNum x < MemTable.nextSeq (mem db).
Proof.
  intros Hi El x Hx. destruct (inv_wal _ _ _ Hi l El) as (_ & Hlt & _). unfold pending, wal_records in Hx.
  rewrite El in Hx. apply list_elem_of_fmap in Hx as (y & -> & [_ Hy]%list_elem_of_filter).
  rewrite Forall_forall in Hlt. by apply Hlt.
Qed.

Lemma appended_view db w D l r k :
  Inv db w D -> d_wal D = Some l -> fresh db r ->
  View (appended D r) k = upd (Mview db D) (Wal.wKey r) (live (of_wal r)) k.
Proof.
  intros Hi El Hf. pose proof (appended_ok db w D l r Hi El Hf) as Hd.
  unfold upd. rewrite <- (View_Mview db w D k Hi) by (by rewrite El). unfold View.
  rewrite !newest_above; [|apply pending_above, Hi|by apply (pending_above (appended D r))].
  rewrite (appended_pending db w D l r Hi El Hf), newest_snoc.
  - simpl. by destruct (key_eqb _ _).
  - intros x Hx. destruct Hf as (_ & Hs & _). simpl. rewrite Hs. by eapply pending_seq.
Qed.

(** The log file after a write of the bytes x at its end. *)
Lemma appended_disk D D' l l' x torn fs :
  disk_ok D -> on_disk D [] fs -> d_wal D = Some l -> d_state D' = d_state D -> d_tables D' = d_tables D ->
  d_wal D' = Some l' -> Wal.encode_all l' ++ torn = Wal.encode_all l ++ x ->
  on_disk D' torn (write_bytes Wal.walName (length (Wal.encode_all l)) x fs).
Proof.
  intros Hd [H1 H2 H3] El Es Et El' Eb. specialize (H3 l El). rewrite app_nil_r in H3.
  rewrite (write_bytes_append _ _ _ _ H3). split.
  - by rewrite lookup_insert_ne, Es.
  - rewrite Et. apply Forall_forall. intros t Ht. rewrite Forall_forall in H2. specialize (H2 t Ht).
    rewrite lookup_insert_ne; [done|]. intros E.
    assert (last t.1 = Some x74) as Hx by (apply (names_last D); [done|]; apply list_elem_of_fmap; eauto).
    by rewrite <- E in Hx.
  - intros l'' E. rewrite El' in E. injection E as <-. by rewrite lookup_insert_eq, Eb.
Qed.

(** A log that ends in the header of a record and nothing else of it, which replay
    refuses (see [Wal.replay_header_only_fails]). *)
Definition header_only (fs : gmap bytes bytes) : Prop :=
  exists l r, Wal.valid r /\ (17 < length (Wal.encode r))%nat /\
    fs !! Wal.walName = Some (Wal.encode_all l ++ take 17 (Wal.encode r)).

(** [cut]: some crash of the schedule comes 17 bytes into a write. *)
Section cut.
Context {cut : Prop}.

#[local] Instance cut_schedules : Schedules := cutting cut.

(** Files before or after the write of a record, or with the log cut behind its
    header. *)
Definition old_or_written (db : DB) (D : Disk) (r : Wal.WRec) (fs : gmap bytes bytes) : Prop :=
  recoverable (d_replica D) (Mview db D) (AppliedIndex (d_state D)) fs \/
  recoverable (d_replica D) (upd (Mview db D) (Wal.wKey r) (live (of_wal r))) (AppliedIndex (d_state D)) fs \/
  (cut /\ header_only fs).

Lemma partial_append db w D l r k :
  Inv db w D -> d_wal D = Some l -> fresh db r -> (k = 17%nat -> cut) ->
  old_or_written db D r (write_bytes Wal.walName (length (Wal.encode_all l)) (take k (Wal.encode r)) (files w)).
Proof.
  intros Hi El Hf Hk. pose proof (inv_ok _ _ _ Hi) as Hd. pose proof (inv_disk _ _ _ Hi) as Ho.
  destruct (decide (k < length (Wal.encode r))%nat) as [Hlt|Hge].
  - destruct (decide (k = 17%nat)) as [->|Hne].
    { right; right. split; [by apply Hk|]. exists l, r. split_and!; [by destruct Hf|done|].
      pose proof (od_wal _ _ _ Ho l El) as Hw. rewrite app_nil_r in Hw.
      by rewrite (write_bytes_append _ _ _ _ Hw), lookup_insert_eq. }
    left. exists D, (take k (Wal.encode r)). split_and!; [done| | |intros k'; by eapply View_Mview; [|rewrite El]|done].
    + by apply (appended_disk D D l l).
    + exists r, k. by destruct Hf.
  - right; left. exists (appended D r), []. rewrite take_ge by lia.
    split_and!; [by eapply appended_ok| |apply torn_nil|intros k'; by eapply appended_view|by rewrite (appended_replica D l r El)].
    eapply (appended_disk D (appended D r) l (l ++ [r])); [done|done|done|done|done| |].
    + unfold appended, wal_records. simpl. by rewrite El.
    + by rewrite encode_all_snoc, app_nil_r.
Qed.

Lemma keeps_append db db1 w D l r (Q : unit -> St -> Prop) :
  Inv db w D -> d_wal D = Some l -> good w -> fresh db r ->
  log db1 = log db ->
  (forall w', good w' -> on_disk (appended D r) [] (files w') ->
     Q tt (set_log (Some (length (Wal.encode_all (l ++ [r])))) db1, w')) ->
  keeps (old_or_written db D r) (with_log (Wal.Append r)) (db1, w) Q.
Proof.
  intros Hi El Hg Hf Hlog HQ. pose proof (inv_log _ _ _ Hi) as Hl. rewrite El in Hl. simpl in Hl.
  pose proof (fun k => partial_append db w D l r k Hi El Hf) as Hpart.
  assert (on_disk (appended D r) [] (write_bytes Wal.walName (length (Wal.encode_all l)) (Wal.encode r) (files w))) as Hod.
  { eapply (appended_disk D (appended D r) l (l ++ [r])); [apply Hi|apply Hi|done|done|done| |].
    - unfold appended, wal_records. simpl. by rewrite El.
    - by rewrite encode_all_snoc, app_nil_r. }
  unfold keeps, with_log, runs, Wal.Append, f_Write, next_fate. cbn [fst snd]. rewrite Hlog, Hl.
  rewrite encode_all_snoc, length_app in HQ. destruct Hg as [Hc H17].
  destruct w as [fs0 [|ft fts]]; cbn [fates files] in *; unfold set_files; cbn [files fates] in *.
  - split_and!; [by split|right; left; exists (appended D r), []|by apply HQ].
    split_and!; [by eapply appended_ok|done|apply torn_nil|intros k; by eapply appended_view|by rewrite (appended_replica D l r El)].
  - assert (good (mkWorld fs0 fts)) as Hg'.
    { split; [by inv Hc|]. intros Hin. apply H17. right. exact Hin. }
    destruct ft as [|k|k]; cbn [files fates].
    + split_and!; [done|right; left; exists (appended D r), []|by apply HQ].
      split_and!; [by eapply appended_ok|done|apply torn_nil|intros k; by eapply appended_view|by rewrite (appended_replica D l r El)].
    + by inv Hc.
    + apply Hpart. intros ->. apply H17. left.
Qed.

(** The handle after the record went to the log and the memtable. *)
Definition write_mem (m : MemTable.MemTable) (r : Wal.WRec) : MemTable.MemTable :=
  MemTable.SetRaw (MemTable.AllocSeq m).2 (of_wal r).

Definition written (db : DB) (l : list Wal.WRec) (r : Wal.WRec) : DB :=
  set_mem (write_mem (mem db) r) (set_log (Some (length (Wal.encode_all (l ++ [r])))) db).

Lemma write_mem_wf m r :
  MemTable.wf m -> Wal.wSeqNum r = MemTable.nextSeq m -> MemTable.nextSeq m + 1 < 2 ^ 64 ->
  MemTable.wf (write_mem m r) /\ MemTable.nextSeq (write_mem m r) = MemTable.nextSeq m + 1 /\
  MemTable.SortedEntries (write_mem m r) ⊆+ of_wal r :: MemTable.SortedEntries m.
Proof.
  intros Hw Hs Hn. pose proof (MemTable.wf_next m Hw) as H0.
  pose proof (MemTable.wf_AllocSeq m Hw Hn) as Hw1.
  assert (MemTable.wf (write_mem m r)) as Hw2 by (apply MemTable.wf_SetRaw; [done|simpl; lia|simpl; lia]).
  split_and!; [done| |].
  - unfold write_mem. rewrite MemTable.nextSeq_SetRaw; simpl; [|lia|lia|]; rewrite u64_small; lia.
  - exact (MemTable.SortedEntries_SetRaw_all (MemTable.AllocSeq m).2 [of_wal r] Hw1 Hw2).
Qed.

Lemma write_mem_lookup m r k :
  MemTable.entries (write_mem m r) !! k =
  if key_eqb (Wal.wKey r) k then newer (MemTable.entries m !! k) (of_wal r) else MemTable.entries m !! k.
Proof. unfold write_mem. by rewrite MemTable.entries_SetRaw, keep_newest_lookup. Qed.

Lemma Inv_written db w D l r w' :
  Inv db w D -> d_wal D = Some l -> fresh db r -> on_disk (appended D r) [] (files w') ->
  Inv (written db l r) w' (appended D r).
Proof.
  intros Hi El Hf Ho. pose proof Hf as Hf0. pose proof (appended_ok db w D l r Hi El Hf) as Hd'.
  destruct Hf as (Hv & Hs & Hn).
  destruct (write_mem_wf (mem db) r (inv_mem _ _ _ Hi) Hs Hn) as (Hw & En & _).
  destruct (inv_wal _ _ _ Hi l El) as (Hent & Hlt & Hls).
  assert (d_floor D = LastSeq (d_state D)) as Hfl by (unfold d_floor; by rewrite El).
  split; change (mem (written db l r)) with (write_mem (mem db) r); try done; try apply Hi.
  - intros k x. rewrite write_mem_lookup. pose proof (inv_mem_ok _ _ _ Hi k x) as Hold.
    change (d_floor (appended D r)) with (LastSeq (d_state D)). rewrite Hfl in Hold.
    destruct (key_eqb (Wal.wKey r) k); [|done].
    assert (Some (of_wal r) = Some x -> rec_ok x /\ type_ok x /\ LastSeq (d_state D) < SeqNum x) as Hnew.
    { intros [= <-]. destruct (of_wal_ok r Hv). split_and!; [done|done|simpl; lia]. }
    unfold newer. destruct (MemTable.entries (mem db) !! k); [|done]. by destruct (_ <? _).
  - simpl. unfold wal_records. by rewrite El.
  - pose proof (inv_mode _ _ _ Hi) as Hm. unfold d_replica in Hm. rewrite El in Hm. exact Hm.
  - intros l' [= <-]. unfold wal_records. rewrite El, En. cbn [default appended d_state]. split_and!.
    + intros k. rewrite write_mem_lookup, (appended_pending db w D l r Hi El Hf0), Hent.
      unfold newest. by rewrite newest_from_app.
    + apply Forall_app. split; [eapply Forall_impl; [exact Hlt|simpl; lia]|apply Forall_singleton; lia].
    + lia.
Qed.

Lemma written_view db w D l r w' k :
  Inv db w D -> d_wal D = Some l -> fresh db r ->
  Inv (written db l r) w' (appended D r) ->
  Mview (written db l r) (appended D r) k = upd (Mview db D) (Wal.wKey r) (live (of_wal r)) k.
Proof.
  intros Hi El Hf Hi'. rewrite <- (View_Mview _ _ _ _ Hi') by done. by eapply appended_view.
Qed.

(** The bytes of one record in a table. *)
Definition size (r : Rec) : Z := Z.of_nat (length (encode_record r)).

Lemma written_spent db D l r :
  MemTable.wf (mem db) -> fresh db r ->
  spent (size (of_wal r)) 0 1 db D (written db l r) (appended D r).
Proof.
  intros Hw (_ & Hs & Hn). destruct (write_mem_wf (mem db) r Hw Hs Hn) as (_ & En & Hsub).
  apply Compact.length_data_submseteq in Hsub. rewrite data_cons, length_app in Hsub.
  unfold spent, weight, size. change (mem (written db l r)) with (write_mem (mem db) r).
  rewrite En, !data_app, !length_app. cbn [appended d_state]. change (tables (appended D r)) with (tables D). lia.
Qed.

(** What an embedded write does to a handle: the map changes at one key. *)
Definition wrote (r : Rec) (db : DB) (D : Disk) (s : St) : Prop :=
  exists D', Inv s.1 s.2 D' /\ (forall k, Mview s.1 D' k = upd (Mview db D) (Key r) (live r) k) /\
    AppliedIndex (d_state D') = AppliedIndex (d_state D) /\ opts s.1 = opts db /\ spent (size r) 2 1 db D s.1 D'.

Lemma write_record_keeps wt rt key value db w D l :
  let r := Wal.mkWRec wt (MemTable.nextSeq (mem db)) key value in
  Inv db w D -> d_wal D = Some l -> good w -> fresh db r -> rt = wt - 1 ->
  weight db D + size (of_wal r) < 2 ^ 50 -> NextSST (d_state D) + 2 < 2 ^ 63 ->
  keeps (old_or_written db D r) (write_record wt rt key value) (db, w) (fun _ => wrote (of_wal r) db D).
Proof.
  intros r Hi El Hg Hf -> Hsz Hsst. assert (old_or_written db D r (files w)) as HJ.
  { left. eapply recoverable_ext; [|by eapply inv_recoverable]. intros k. by eapply View_Mview; [|rewrite El]. }
  pose proof (written_spent db D l r (inv_mem _ _ _ Hi) Hf) as Hsp.
  unfold write_record. apply keeps_bind, keeps_get_db; [done|done|]. intros _ _. cbn [fst MemTable.AllocSeq].
  apply keeps_bind, keeps_put; [done|done|]. intros _ _. cbn [fst snd]. fold r.
  rewrite (inv_log _ _ _ Hi), El. cbn [option_fmap fmap option_map].
  apply keeps_bind. eapply (keeps_append db _ w D l r); [done|done|done|done|done|].
  intros w1 Hg1 Ho1 _ HJ1. apply keeps_bind, keeps_put; [done|done|]. intros _ _. cbn [fst snd].
  pose proof (Inv_written db w D l r w1 Hi El Hf Ho1) as Hi1.
  pose proof (fun k => written_view db w D l r w1 k Hi El Hf Hi1) as HV.
  assert (replica (written db l r) = false) as Hrep by (by rewrite (inv_mode _ _ _ Hi1)).
  match goal with |- keeps _ _ (?d, w1) _ => change d with (written db l r) end.
  eapply keeps_mono; [apply (maybeFlush_keeps (written db l r) w1 (appended D r) Hi1 Hg1)|..].
  - unfold spent in Hsp. split; [lia|]. cbn [appended d_state]. lia.
  - intros fs [H|H]; right; left; (eapply recoverable_ext; [|unfold flush_index in H; rewrite ?Hrep, (appended_replica D l r El) in H; exact H]).
    + intros k. by eapply appended_view.
    + exact HV.
  - intros [] s _ (D' & Hi' & HM & Ha & _ & Ho & Hsp'). exists D'. unfold flush_index in Ha. rewrite Hrep in Ha.
    split_and!; [done| |by destruct Ha as [[_ ?]|[_ ?]]|done|].
    + intros k. rewrite HM. apply HV.
    + pose proof (spent_trans _ _ _ _ _ _ _ _ _ _ _ _ Hsp Hsp') as H. by rewrite Z.add_0_r in H.
Qed.

(** ** Operations on an embedded store *)

Inductive Op : Type :=
| OpSet (key value : bytes)
| OpDelete (key : bytes)
| OpFlush
| OpCompact.

Definition exec (op : Op) : M St unit :=
  match op with
  | OpSet key value => Set_ key value
  | OpDelete key => Delete key
  | OpFlush => ForceFlush
  | OpCompact => ForceCompact
  end.

(** What an operation does to the map. *)
Definition apply_op (V : bytes -> option bytes) (op : Op) : bytes -> option bytes :=
  match op with
  | OpSet key value => upd V key (Some value)
  | OpDelete key => upd V key None
  | OpFlush | OpCompact => V
  end.

(** Keys up to 16 KiB and values up to 64 MiB, the limits of the replay. *)
Definition op_okb (op : Op) : bool :=
  match op with
  | OpSet key value => (Z.of_nat (length key) <=? Wal.maxKeyLen) && (Z.of_nat (length value) <=? Wal.maxValLen)
  | OpDelete key => Z.of_nat (length key) <=? Wal.maxKeyLen
  | OpFlush | OpCompact => true
  end.

(** The bytes an operation adds to the tables. *)
Definition cost (op : Op) : Z :=
  match op with
  | OpSet key value => size (mkRec key value 0 RecordTypePut)
  | OpDelete key => size (mkRec key [] 0 RecordTypeDelete)
  | OpFlush | OpCompact => 0
  end.

Lemma cost_nonneg op : 0 <= cost op.
Proof. destruct op; simpl; unfold size; lia. Qed.

(** Room in the tables, file numbers and sequence numbers for more operations. *)
Definition budget (bytes ops : Z) (db : DB) (D : Disk) : Prop :=
  weight db D + bytes < 2 ^ 50 /\ NextSST (d_state D) + 2 * ops < 2 ^ 63 /\ MemTable.nextSeq (mem db) + ops < 2 ^ 64.

(** What an operation leaves behind when it returns. *)
Definition executed (op : Op) (db : DB) (D : Disk) (s : St) : Prop :=
  exists D', Inv s.1 s.2 D' /\ d_replica D' = false /\ (forall k, Mview s.1 D' k = apply_op (Mview db D) op k) /\
    spent (cost op) 2 1 db D s.1 D'.

(** The files at a crash: those of the map before or after the operation, unless
    the log was cut behind a header. *)
Definition old_or_done (op : Op) (db : DB) (D : Disk) (fs : gmap bytes bytes) : Prop :=
  exists i, recoverable false (Mview db D) i fs \/ recoverable false (apply_op (Mview db D) op) i fs \/ (cut /\ header_only fs).

Lemma write_keeps wt key value op db w D :
  let r := Wal.mkWRec wt (MemTable.nextSeq (mem db)) key value in
  Inv db w D -> d_replica D = false -> good w -> Wal.valid r ->
  (forall V, apply_op V op = upd V key (live (of_wal r))) -> cost op = size (of_wal r) -> budget (cost op) 1 db D ->
  keeps (old_or_done op db D) (write_record wt (wt - 1) key value) (db, w) (fun _ => executed op db D).
Proof.
  intros r Hi Hm Hg Hv Ha Hc (Hb1 & Hb2 & Hb3). destruct (d_wal D) as [l|] eqn:El; [|by unfold d_replica in Hm; rewrite El in Hm].
  eapply keeps_mono; [eapply (write_record_keeps wt (wt - 1) key value db w D l); try done; fold r; try lia|..].
  - intros fs Hfs. exists (AppliedIndex (d_state D)). rewrite Ha, <- Hm. exact Hfs.
  - intros [] s _ (D' & Hi' & HV & _ & Ho & Hsp). exists D'. rewrite Ha, Hc. split_and!; try done.
    rewrite <- (inv_mode _ _ _ Hi'). unfold replica. rewrite Ho. change (replica db = false). by rewrite (inv_mode _ _ _ Hi).
Qed.

Lemma d_replica_opts db w D db' w' D' : Inv db w D -> Inv db' w' D' -> opts db' = opts db -> d_replica D' = d_replica D.
Proof. intros Hi Hi' Ho. rewrite <- (inv_mode _ _ _ Hi), <- (inv_mode _ _ _ Hi'). unfold replica. by rewrite Ho. Qed.

Lemma exec_keeps op db w D :
  Inv db w D -> d_replica D = false -> good w -> op_okb op = true -> budget (cost op) 1 db D ->
  keeps (old_or_done op db D) (exec op) (db, w) (fun _ => executed op db D).
Proof.
  intros Hi Hm Hg Hop Hb. pose proof (MemTable.wf_next _ (inv_mem _ _ _ Hi)) as Hn.
  assert (d_wal D <> None) as Hw by (unfold d_replica in Hm; by destruct (d_wal D)).
  assert (forall k, View D k = Mview db D k) as HV by (intros k; by eapply View_Mview).
  assert (old_or_done op db D (files w)) as HJ.
  { eexists. left. rewrite <- Hm. eapply recoverable_ext; [exact HV|by eapply inv_recoverable]. }
  pose proof Hb as (Hb1 & Hb2 & Hb3). pose proof (cost_nonneg op).
  assert (replica db = false) as Hr by (by rewrite (inv_mode _ _ _ Hi)).
  destruct op as [key value|key| |]; cbn [exec].
  - unfold Set_. apply keeps_bind, keeps_get_db; [done|done|]. intros _ _. cbn [fst]. rewrite Hr.
    simpl in Hop. bool_hyps. apply write_keeps; try done; split; simpl; [by left|lia|lia|lia].
  - unfold Delete. apply keeps_bind, keeps_get_db; [done|done|]. intros _ _. cbn [fst]. rewrite Hr.
    simpl in Hop. bool_hyps. apply write_keeps; try done; split; simpl; [by right|lia|lia|done].
  - eapply keeps_mono; [apply (flush_keeps db w D Hi Hg); split; lia|..].
    + intros fs [Hfs|Hfs]; rewrite Hm in Hfs; eexists; left; (eapply recoverable_ext; [|exact Hfs]); done.
    + intros [] s _ (D' & Hi' & _ & HM & _ & _ & Ho & Hsp). exists D'. split_and!; [done| |done|].
      * by rewrite (d_replica_opts db w D s.1 s.2 D').
      * unfold spent in *. cbn [cost]. lia.
  - eapply keeps_mono; [apply (compact_keeps db w D Hi Hg); split; lia|..].
    + intros fs Hfs. rewrite Hm in Hfs. eexists. left. by eapply recoverable_ext.
    + intros [] s _ (D' & Hi' & (_ & HM & _ & _ & Ho & _) & Hsp). exists D'. split_and!; [done| |done|].
      * by rewrite (d_replica_opts db w D s.1 s.2 D').
      * unfold spent in *. cbn [cost]. lia.
Qed.

(** Operations one after the other, with the number of those that returned. *)
Fixpoint run_ops (ops : list Op) (s : St) : nat * (res unit * St) :=
  match ops with
  | [] => (0%nat, (Ok tt, s))
  | op :: rest =>
      match exec op s with
      | (Ok _, s') => let '(n, r) := run_ops rest s' in (S n, r)
      | (r, s') => (0%nat, (r, s'))
      end
  end.

Definition costs (ops : list Op) : Z := foldr (fun op c => cost op + c) 0 ops.

Lemma costs_nonneg ops : 0 <= costs ops.
Proof. induction ops as [|op ops IH]; simpl; [lia|]. pose proof (cost_nonneg op). lia. Qed.

Lemma apply_ops_ext ops V V' :
  (forall k, V k = V' k) -> forall k, foldl apply_op V ops k = foldl apply_op V' ops k.
Proof.
  revert V V'. induction ops as [|op ops IH]; intros V V' HV; [done|]. cbn [foldl]. apply IH.
  intros k. destruct op; simpl; unfold upd; try done; by destruct (key_eqb _ _).
Qed.

(** The map after the acknowledged operations, with or without the next one. *)
Definition acknowledged (V : bytes -> option bytes) (ops : list Op) (n : nat) (fs : gmap bytes bytes) : Prop :=
  (exists i m, (m = n \/ m = S n) /\ (m <= length ops)%nat /\ recoverable false (foldl apply_op V (take m ops)) i fs) \/
  (cut /\ header_only fs).

Lemma run_ops_keeps ops db w D :
  Inv db w D -> d_replica D = false -> good w -> forallb op_okb ops = true ->
  budget (costs ops) (Z.of_nat (length ops)) db D ->
  match run_ops ops (db, w) with
  | (n, (Ok _, s)) => n = length ops /\ exists D', Inv s.1 s.2 D' /\ d_replica D' = false /\
      forall k, Mview s.1 D' k = foldl apply_op (Mview db D) ops k
  | (n, (Crash, s)) => acknowledged (Mview db D) ops n (files s.2)
  | _ => False
  end.
Proof.
  revert db w D. induction ops as [|op ops IH]; intros db w D Hi Hm Hg Hok Hb.
  { simpl. split; [done|]. by exists D. }
  simpl in Hok. apply andb_true_iff in Hok as [Hop Hok]. unfold budget in Hb. cbn [costs foldr length] in Hb.
  fold (costs ops) in Hb. pose proof (costs_nonneg ops). pose proof (cost_nonneg op).
  assert (keeps (old_or_done op db D) (exec op) (db, w) (fun _ => executed op db D)) as Hk.
  { apply exec_keeps; try done. split_and!; lia. }
  unfold keeps, runs in Hk. cbn [run_ops]. destruct (exec op (db, w)) as [[u|e| |] [db1 w1]]; try done.
  - destruct Hk as (Hg1 & _ & D1 & Hi1 & Hm1 & HV1 & Hsp). cbn [fst snd] in *. unfold spent in Hsp.
    specialize (IH db1 w1 D1 Hi1 Hm1 Hg1 Hok). destruct (run_ops ops (db1, w1)) as [n [r s]].
    assert (budget (costs ops) (Z.of_nat (length ops)) db1 D1) as Hb1 by (split_and!; lia). specialize (IH Hb1).
    destruct r as [[]|e| |]; try done.
    + destruct IH as (-> & D' & Hi' & Hm' & HV'). split; [done|]. exists D'. split_and!; [done|done|]. intros k. rewrite HV'.
      cbn [foldl]. by apply apply_ops_ext.
    + destruct IH as [(i & m & Hm' & Hle & Hrec)|Hh]; [left|by right]. exists i, (S m). split_and!; [lia|simpl; lia|].
      cbn [take foldl]. eapply recoverable_ext; [|exact Hrec]. by apply apply_ops_ext.
  - destruct Hk as [i [Hk|[Hk|Hk]]]; [left|left|by right]; exists i; [exists 0%nat|exists 1%nat]; split_and!; try (simpl; lia); try (by left); try (by right).
    + exact Hk.
    + cbn [take foldl]. exact Hk.
Qed.

End cut.

(** ** Reopening *)

Lemma Get_Mview db w D k : Inv db w D -> (Db.Get db k).2 = Mview db D k.
Proof. intros Hi. by destruct (Get_spec db w D k Hi). Qed.

Definition mode (b : bool) : DurabilityMode := if b then DurabilityReplica else DurabilityEmbedded.

Lemma files_of_recoverable D fs : disk_ok D -> files_of D fs -> recoverable (d_replica D) (View D) (AppliedIndex (d_state D)) fs.
Proof. intros Hd (torn & Ht & Ho). exists D, torn. by split_and!. Qed.

(** C17: Opening a directory from which the map V and the applied index i are
    recoverable gives a handle whose lookups answer from V and, in replica mode,
    whose applied index is i. Whatever call of Open fails or crashes, V and i stay
    recoverable; without a failing or crashing call Open returns a handle. *)
Theorem Open_recovers b V i o w :
  recoverable b V i (files w) -> Mode o = mode b ->
  runs (Open true o) w
    (fun db w' => (forall k, (Db.Get db k).2 = V k) /\ (b = true -> AppliedIndex_ db = i) /\ recoverable b V i (files w'))
    (fun w' => can_fail w /\ recoverable b V i (files w'))
    (fun w' => can_crash w /\ recoverable b V i (files w')).
Proof.
  intros (D & torn & Hd & Ho & Ht & HV & [= <- <-]) Hm.
  assert (forall fs, files_of D fs -> recoverable (d_replica D) V (AppliedIndex (d_state D)) fs) as HJ.
  { intros fs Hfs. eapply recoverable_ext; [exact HV|]. by apply files_of_recoverable. }
  eapply runs_mono; [apply (Open_safe w o D torn); try done|..].
  - rewrite Hm. unfold d_replica, mode_of. by destruct (d_wal D).
  - intros db w' (_ & HJ' & Hi & HM & Ha). split_and!; [| |by auto].
    + intros k. by rewrite (Get_Mview db w' D k Hi), HM.
    + unfold d_replica. destruct (d_wal D) as [l|]; [done|]. intros _. by destruct Ha.
  - intros w' (_ & ? & ?). auto.
  - intros w' (? & ?). auto.
Qed.

(** Opened without interruption, the directory answers lookups from the map V. *)
Definition answers (V : bytes -> option bytes) (fs : gmap bytes bytes) : Prop :=
  forall o, Mode o = DurabilityEmbedded ->
  exists db w, Open true o (mkWorld fs []) = (Ok db, w) /\ forall k, (Db.Get db k).2 = V k.

Lemma no_fates fs : ~ can_fail (mkWorld fs []) /\ ~ can_crash (mkWorld fs []).
Proof. split; intros [k Hk]; by apply not_elem_of_nil in Hk. Qed.

Lemma safe_returns {A : Type} (J : gmap bytes bytes -> Prop) (m : M World A) fs (Q : A -> World -> Prop) :
  safe J (mkWorld fs []) m (mkWorld fs []) Q -> exists a w, m (mkWorld fs []) = (Ok a, w) /\ Q a w.
Proof.
  destruct (no_fates fs) as [Hf Hc]. unfold safe, runs. destruct (m (mkWorld fs [])) as [[a|e| |] w]; try tauto.
  intros (_ & _ & HQ). by exists a, w.
Qed.

Lemma recoverable_answers V i fs : recoverable false V i fs -> answers V fs.
Proof.
  intros (D & torn & Hd & Ho & Ht & HV & [= _ Hr]) o Hm.
  assert (Mode o = mode_of D) as Hm' by (unfold d_replica, mode_of in *; by destruct (d_wal D)).
  destruct (safe_returns _ _ _ _ (Open_safe (mkWorld fs []) o D torn Hd Ho Ht Hm')) as (db & w & E & Hi & HM & _).
  exists db, w. split; [done|]. intros k. by rewrite (Get_Mview db w D k Hi), HM.
Qed.

Definition empty_map : bytes -> option bytes := fun _ => None.

Lemma empty_view o k : Mview (empty_handle o) empty_disk k = empty_map k.
Proof. done. Qed.

Lemma new_dir_answers fs : new_dir fs -> answers empty_map fs.
Proof.
  intros Hn o Hm. destruct (no_fates fs) as [Hf _].
  destruct (safe_returns _ _ _ _ (Open_new (mkWorld fs []) o Hf Hn Hm)) as (db & w & E & -> & Hi).
  exists (empty_handle o), w. split; [done|]. intros k. by rewrite (Get_Mview _ _ _ k Hi).
Qed.

(** Open a directory and run operations; how many returned, and the world left. *)
Definition session (o : Options) (ops : list Op) (w : World) : nat * (res DB * World) :=
  match Open true o w with
  | (Ok db, w') => let '(n, (r, s)) := run_ops ops (db, w') in (n, (res_map (fun _ => s.1) r, s.2))
  | (r, w') => (0%nat, (r, w'))
  end.

(** C3: In a new directory, open an embedded store and run a sequence of Set,
    Delete, ForceFlush and ForceCompact, with flushes and compactions triggered as
    they come, under any schedule of crashes of the process (no call fails). The
    keys are of at most 16 KiB and the values of at most 64 MiB, the limits of the
    replay of the log; the records take less than 2^50 bytes in all and there are
    fewer than 2^62 operations. If all operations return, lookups answer from the
    map they describe. If the process crashes after n operations returned, then
    opening the directory again gives a handle that answers from the map after
    those n operations, or after the one in progress as well: nothing acknowledged
    is lost, nothing half-done is seen. The one exception is a crash 17 bytes into
    the write of a record, which leaves the log with the header of the record and
    nothing else of it. *)
Theorem crash_durability o ops fts :
  Mode o = DurabilityEmbedded -> crash_only (mkWorld ∅ fts) -> forallb op_okb ops = true ->
  costs ops < 2 ^ 50 -> Z.of_nat (length ops) < 2 ^ 62 ->
  match session o ops (mkWorld ∅ fts) with
  | (n, (Ok db, w)) => n = length ops /\ (forall k, (Db.Get db k).2 = foldl apply_op empty_map ops k) /\
      answers (foldl apply_op empty_map ops) (files w)
  | (n, (Crash, w)) => (exists m, (m = n \/ m = S n) /\ (m <= length ops)%nat /\
      answers (foldl apply_op empty_map (take m ops)) (files w)) \/
      (Crashes 17 ∈ fts /\ header_only (files w))
  | _ => False
  end.
Proof.
  intros Hm Hcr Hok Hc Hl. pose proof (crash_only_cannot_fail _ Hcr) as Hnf.
  assert (cut_good (Crashes 17 ∈ fts) (mkWorld ∅ fts)) as Hg by done.
  assert (new_dir ∅) as Hn by (split_and!; intros; [done|..]; by rewrite lookup_empty in * ).
  pose proof (Open_new (mkWorld ∅ fts) o Hnf Hn Hm) as Ho. unfold safe, runs in Ho. unfold session.
  destruct (Open true o (mkWorld ∅ fts)) as [[db|e| |] w]; [|tauto|done|].
  2:{ left. exists 0%nat. split_and!; [by left|lia|]. destruct Ho as [[Hd|Hd] _]; [by apply new_dir_answers|].
    apply (recoverable_answers _ 0). exists empty_disk, []. split_and!; [apply empty_disk_ok|done|apply torn_nil|done|done]. }
  destruct Ho as (Hf & _ & -> & Hi).
  pose proof (run_ops_keeps ops (empty_handle o) w empty_disk Hi eq_refl (cut_good_follows _ _ _ Hf Hg) Hok) as Hr.
  destruct (run_ops ops (empty_handle o, w)) as [n [r s]].
  assert (weight (empty_handle o) empty_disk = 0) as Ew by done.
  assert (budget (costs ops) (Z.of_nat (length ops)) (empty_handle o) empty_disk) as Hb.
  { unfold budget. rewrite Ew. simpl. lia. }
  specialize (Hr Hb). destruct r as [[]|e| |]; cbn [res_map]; try done.
  - destruct Hr as (-> & D' & Hi' & Hm' & HV). assert (forall k, Mview s.1 D' k = foldl apply_op empty_map ops k) as HM.
    { intros k. rewrite HV. by apply apply_ops_ext. }
    split_and!; [done|intros k; by rewrite (Get_Mview _ _ _ k Hi')|].
    pose proof (inv_recoverable _ _ _ Hi') as Hrec. rewrite Hm' in Hrec.
    eapply recoverable_answers, recoverable_ext; [|exact Hrec]. intros k. rewrite <- HM. eapply View_Mview; [done|].
    unfold d_replica in Hm'. by destruct (d_wal D').
  - destruct Hr as [(i & m & Hm' & Hle & Hrec)|Hh]; [left|by right]. exists m. split_and!; [done|done|].
    eapply recoverable_answers, recoverable_ext; [|exact Hrec]. by apply apply_ops_ext.
Qed.

End files.

(** ** Concrete runs *)

Definition demo_ops : list Op :=
  [OpSet (str "a") (str "1"); OpSet (str "b") (str "2"); OpFlush; OpDelete (str "a"); OpFlush; OpCompact].

(** A crash during the first flush. *)
Definition demo_fates : list fate := replicate 36 Fine ++ [Crashes 20].

Lemma crash_durability_witness :
  forallb op_okb demo_ops = true /\
  (match @session demo_sizing DefaultOptions demo_ops (mkWorld ∅ demo_fates) with
   | (n, (Ok db, w)) => n = length demo_ops /\ (forall k, (Db.Get db k).2 = foldl apply_op empty_map demo_ops k) /\
       @answers demo_sizing (foldl apply_op empty_map demo_ops) (files w)
   | (n, (Crash, w)) => (exists m, (m = n \/ m = S n) /\ (m <= length demo_ops)%nat /\
       @answers demo_sizing (foldl apply_op empty_map (take m demo_ops)) (files w)) \/
       (Crashes 17 ∈ demo_fates /\ header_only (files w))
   | _ => False
   end).
Proof.
  split; [vm_compute; reflexivity|].
  refine (@crash_durability demo_sizing DefaultOptions demo_ops demo_fates _ _ _ _ _).
  - reflexivity.
  - apply crash_onlyb_spec. vm_compute. reflexivity.
  - vm_compute. reflexivity.
  - vm_compute. reflexivity.
  - vm_compute. reflexivity.
Defined.

(** The directory of an empty store. *)
Definition empty_files : gmap bytes bytes := {[ fileName := state_bytes Manifest.New; Wal.walName := [] ]}.

Lemma empty_on_disk : @on_disk demo_sizing empty_disk [] empty_files.
Proof. split; [by vm_compute|constructor|]. intros l [= <-]. by vm_compute. Qed.

Lemma Open_recovers_witness :
  @recoverable demo_sizing false empty_map 0 empty_files /\
  runs (@Open demo_sizing true DefaultOptions) (mkWorld empty_files [Fine; Fine; Crashes 0])
    (fun db w' => (forall k, (Db.Get db k).2 = empty_map k) /\ (false = true -> AppliedIndex_ db = 0) /\
       @recoverable demo_sizing false empty_map 0 (files w'))
    (fun w' => can_fail (mkWorld empty_files [Fine; Fine; Crashes 0]) /\ @recoverable demo_sizing false empty_map 0 (files w'))
    (fun w' => can_crash (mkWorld empty_files [Fine; Fine; Crashes 0]) /\ @recoverable demo_sizing false empty_map 0 (files w')).
Proof.
  assert (@recoverable demo_sizing false empty_map 0 empty_files) as Hr.
  { exists empty_disk, []. split_and!; [apply empty_disk_ok|apply empty_on_disk|apply torn_nil|done|done]. }
  split; [exact Hr|].
  exact (@Open_recovers demo_sizing false empty_map 0 DefaultOptions (mkWorld empty_files [Fine; Fine; Crashes 0]) Hr eq_refl).
Defined.

(** A store after one Set. *)
Definition one_record : Wal.WRec := Wal.mkWRec Wal.TypePut 1 (str "k") (str "v").

Definition one_files : gmap bytes bytes := {[ fileName := state_bytes Manifest.New; Wal.walName := Wal.encode one_record ]}.

Lemma one_inv : @Inv demo_sizing (written (empty_handle DefaultOptions) [] one_record) (mkWorld one_files []) (appended empty_disk one_record).
Proof.
  apply (@Inv_written demo_sizing (empty_handle DefaultOptions) (mkWorld empty_files []) empty_disk [] one_record).
  - apply Inv_empty; [apply empty_on_disk|done].
  - done.
  - split_and!; [by apply Wal.validb_valid|done|done].
  - split; [by vm_compute|constructor|]. intros l [= <-]. by vm_compute.
Qed.

Lemma Scan_correct_witness :
  exists pairs, Db.Scan (written (empty_handle DefaultOptions) [] one_record) (str "a") (str "z") = Ok pairs /\
    StronglySorted key_lt (kv_key <$> pairs) /\
    forall k v, mkKV k v ∈ pairs <-> (key_le (str "a") k /\ key_le k (str "z")) /\
      Mview (written (empty_handle DefaultOptions) [] one_record) (appended empty_disk one_record) k = Some v.
Proof.
  exact (@Scan_correct demo_sizing (written (empty_handle DefaultOptions) [] one_record) (mkWorld one_files [])
    (appended empty_disk one_record) (str "a") (str "z") one_inv).
Defined.

(** ** Failing calls *)

(** A failed append leaves part of its record in the log and the offset behind
    it, and nothing cuts it off. After the first Set of a fresh store fails with
    five bytes written, the next Set returns without an error; reopening the
    store loses it. *)
Theorem failed_append_loses_next_write :
  match @Open demo_sizing true DefaultOptions (mkWorld ∅ (replicate 15 Fine ++ [Fails 5])) with
  | (Ok db, w) =>
      match @Set_ demo_sizing (str "a") (str "1") (db, w) with
      | (Err _, s) =>
          match @Set_ demo_sizing (str "b") (str "2") s with
          | (Ok _, (db2, w2)) =>
              match @Open demo_sizing true DefaultOptions (mkWorld (files w2) []) with
              | (Ok db3, _) => (Db.Get db2 (str "b")).2 = Some (str "2") /\ (Db.Get db3 (str "b")).2 = None
              | _ => False
              end
          | _ => False
          end
      | _ => False
      end
  | _ => False
  end.
Proof. vm_compute. split; reflexivity. Qed.

End Durability.
