(* ===== verification/Faults.v ===== *)
(** * A flush whose system calls fail

    The durability theorems let the process crash at any call. Here calls may also
    return errors: what [flush] leaves on disk when any of its calls fails, and
    why one failure, that of the directory sync after the manifest was renamed
    into place, leaves a store that cannot be opened again. *)

From S2P Require Import Prelude GoStd Fs Memtable Bloom Wal Sstable Heap Compact Json Manifest Db Recovery Reopen.
From S2P Require Import Durability.

Module Faults.
Import Sstable Manifest Db Recovery Reopen Durability.

(** ** The two halves of [Store]: up to the rename, and the directory sync *)

Definition stage (state : State) : M World unit :=
  os_Create tmpName ;;
  catch (or_close (sys_write tmpName 0 (state_bytes state)) ;;
         or_close f_Sync ;;
         f_Close ;;
         os_Rename tmpName fileName)
    (fun e => ignore (os_Remove tmpName) ;; raise e).

Definition sync_dir : M World unit :=
  sys "open manifest dir" id ;;
  e ← try_err f_Sync;
  ignore f_Close ;;
  match e with Some e => raise e | None => mret tt end.

Lemma Store_split s w : Validate (published s) = None -> Store s w = (stage (published s) ;; sync_dir) w.
Proof.
  intros Hv. unfold Store. fold (published s). rewrite Hv. unfold stage, sync_dir, mbind, M_bind.
  destruct (os_Create tmpName w) as [[[]|e| |] w1]; done.
Qed.

(** ** Calls that leave the files alone *)

Definition quiet {A} (m : M World A) : Prop := forall w, files (m w).2 = files w.

Lemma quiet_ret {A} (a : A) : quiet (mret a).
Proof. done. Qed.

Lemma quiet_raise {A} e : quiet (@raise World A e).
Proof. done. Qed.

Lemma quiet_gets {A} (f : World -> A) : quiet (gets f).
Proof. done. Qed.

Lemma quiet_of_res {A} (r : res A) : quiet (of_res r).
Proof. intros w. unfold of_res. by destruct r. Qed.

Lemma quiet_sys what : quiet (sys what id).
Proof. intros w. unfold sys, next_fate, set_files. destruct w as [fs [|[|k|k] fts]]; done. Qed.

Lemma quiet_bind {A B} (m : M World A) (f : A -> M World B) : quiet m -> (forall a, quiet (f a)) -> quiet (m ≫= f).
Proof.
  intros Hm Hf w. specialize (Hm w). unfold mbind, M_bind. destruct (m w) as [[a|e| |] w']; try done.
  rewrite (Hf a w'). done.
Qed.

Lemma quiet_catch {A} (m : M World A) h : quiet m -> (forall e, quiet (h e)) -> quiet (catch m h).
Proof.
  intros Hm Hh w. specialize (Hm w). unfold catch. destruct (m w) as [[a|e| |] w']; try done. rewrite (Hh e w'). done.
Qed.

Lemma quiet_ignore {A} (m : M World A) : quiet m -> quiet (ignore m).
Proof. intros Hm w. specialize (Hm w). unfold ignore. destruct (m w) as [[a|e| |] w']; done. Qed.

Lemma quiet_try_err {A} (m : M World A) : quiet m -> quiet (try_err m).
Proof. intros Hm w. specialize (Hm w). unfold try_err. destruct (m w) as [[a|e| |] w']; done. Qed.

Lemma quiet_mfold {A} (f : A -> M World unit) l : (forall a, quiet (f a)) -> quiet (mfold f l).
Proof. intros Hf. induction l as [|a l IH]; simpl; [apply quiet_ret|]. apply quiet_bind; auto. Qed.

Create HintDb quiet discriminated.
#[local] Hint Resolve quiet_ret quiet_raise quiet_gets quiet_of_res quiet_sys quiet_bind quiet_catch quiet_ignore
  quiet_try_err quiet_mfold : quiet.

Lemma quiet_sync_dir : quiet sync_dir.
Proof. unfold sync_dir, f_Sync, f_Close. repeat (apply quiet_bind; [auto with quiet|intros ?]). case_match; auto with quiet. Qed.

Lemma quiet_closeReaders rs : quiet (closeReaders rs).
Proof. unfold closeReaders, Sstable.Close, f_Close. auto with quiet. Qed.

Lemma quiet_os_Open name : quiet (os_Open name).
Proof. unfold os_Open. auto with quiet. Qed.

(** ** A manifest that names a missing table *)

Section sizing.
Context {BS : BloomSizing}.

Lemma quiet_table name : quiet (Sstable.Open name).
Proof. unfold Sstable.Open. apply quiet_bind; [apply quiet_os_Open|]. intros [c|]; auto with quiet. Qed.

Lemma quiet_open_all names : forall opened, quiet (open_all names opened).
Proof.
  induction names as [|n names IH]; intros opened; simpl; [auto with quiet|].
  apply quiet_bind; [|done]. apply quiet_catch; [apply quiet_table|]. intros e.
  apply quiet_bind; [apply quiet_closeReaders|auto with quiet].
Qed.

Definition not_ok {A} (m : M World A) (w : World) : Prop := forall a, (m w).1 <> Ok a.

Lemma not_ok_bind {A B} (m : M World A) (f : A -> M World B) w :
  (forall a w', m w = (Ok a, w') -> not_ok (f a) w') -> not_ok (m ≫= f) w.
Proof.
  intros H b. unfold mbind, M_bind. destruct (m w) as [[a|e| |] w'] eqn:E; try done. by apply (H a w').
Qed.

(** m returns no value and changes no file. *)
Definition stuck {A} (m : M World A) (w : World) : Prop := not_ok m w /\ files (m w).2 = files w.

Lemma stuck_first {A B} (m : M World A) (f : A -> M World B) w : stuck m w -> stuck (m ≫= f) w.
Proof.
  unfold stuck, not_ok, mbind, M_bind. intros [H1 H2]. destruct (m w) as [[a|e| |] w']; try done. by destruct (H1 a).
Qed.

Lemma stuck_after {A B} (m : M World A) (f : A -> M World B) w :
  files (m w).2 = files w -> (forall a w', m w = (Ok a, w') -> files w' = files w -> stuck (f a) w') -> stuck (m ≫= f) w.
Proof.
  unfold stuck, not_ok, mbind, M_bind. intros Hm H. destruct (m w) as [[a|e| |] w'] eqn:E; try done.
  simpl in Hm. rewrite <- Hm. by apply (H a w').
Qed.

Lemma not_ok_table name w : files w !! name = None -> not_ok (Sstable.Open name) w.
Proof.
  intros Hn. unfold Sstable.Open. apply not_ok_bind. intros c w' E. assert (c = None) as ->; [|done].
  unfold os_Open, mbind, M_bind, gets in E. pose proof (quiet_sys "open" w) as Hq.
  destruct (sys "open" id w) as [[[]|e| |] w1]; simplify_eq. simpl in Hq. by rewrite Hq.
Qed.

Lemma not_ok_open_all name names : forall opened w,
  name ∈ names -> files w !! name = None -> not_ok (open_all names opened) w.
Proof.
  induction names as [|n names IH]; intros opened w Hin Hn; [by apply not_elem_of_nil in Hin|]. simpl.
  apply not_ok_bind. intros r w' E. pose proof (quiet_table n w) as Hq. unfold catch in E.
  destruct (Sstable.Open n w) as [[r'|e| |] w1] eqn:E1; simplify_eq.
  - simpl in Hq. apply elem_of_cons in Hin as [<-|Hin].
    + destruct (not_ok_table name w Hn r). by rewrite E1.
    + apply IH; [done|]. by rewrite Hq.
  - unfold mbind, M_bind in E. destruct (closeReaders opened w1) as [[[]|e'| |] w2]; simplify_eq.
Qed.

(** The manifest of fs can be read, and a table it names is not there. *)
Definition dangling (fs : gmap bytes bytes) : Prop :=
  exists st name, fs !! fileName = Some (state_bytes st) /\ Validate st = None /\ state_ok st /\
    name ∈ SSTables st /\ fs !! name = None.

(** No call of [Open] on these files returns a store, whatever its options and
    its luck, and the files stay as they are. *)
Definition unopenable (fs : gmap bytes bytes) : Prop :=
  forall o fates, stuck (Open true o) (mkWorld fs fates).

Lemma Load_reads st w :
  files w !! fileName = Some (state_bytes st) -> Validate st = None -> state_ok st ->
  files (Load w).2 = files w /\ (forall a, (Load w).1 = Ok a -> a = (st, true)).
Proof.
  intros E Hv Hs. unfold Load, os_Open, mbind, M_bind, gets, of_res. pose proof (quiet_sys "open" w) as Hq.
  destruct (sys "open" id w) as [[[]|e| |] w1]; try done. simpl in Hq. rewrite Hq, E, (decode_state st Hv Hs).
  simpl. split; [done|]. by intros a [= <-].
Qed.

Lemma openSSTables_dangling w : dangling (files w) -> stuck openSSTables w.
Proof.
  intros (st & name & E & Hv & Hs & Hin & Hn). destruct (Load_reads st w E Hv Hs) as [Hf Ha].
  unfold openSSTables. apply stuck_after; [done|]. intros a w1 E1 Hw1. rewrite E1 in Ha. rewrite (Ha a eq_refl).
  apply stuck_after; [done|]. intros st' w2 [= <- <-] _. apply stuck_first. split; [|apply quiet_open_all].
  apply not_ok_open_all with name; [by apply elem_of_reverse|congruence].
Qed.

Lemma dangling_unopenable fs : dangling fs -> unopenable fs.
Proof.
  intros Hd o fts. change (stuck (Open true o) (mkWorld fs fts)). unfold Open. simpl negb. cbv iota.
  apply stuck_after; [apply quiet_sys|]. intros [] w1 _ Hw1. apply stuck_first, openSSTables_dangling.
  by rewrite Hw1.
Qed.

(** ** [flush], with calls that fail *)

Lemma runs_fs {A} (m : M World A) db w (Qok : A -> St -> Prop) (Qerr Qcrash : St -> Prop) :
  runs m w (fun a w' => Qok a (db, w')) (fun w' => Qerr (db, w')) (fun w' => Qcrash (db, w')) ->
  runs (fs m) (db, w) Qok Qerr Qcrash.
Proof. intros H. unfold fs. apply runs_zoom. exact H. Qed.

Lemma runs_put (f : DB -> DB) db w (Qok : unit -> St -> Prop) Qerr Qcrash :
  Qok tt (f db, w) -> runs (put f) (db, w) Qok Qerr Qcrash.
Proof. done. Qed.

(** [os_Remove] with its error dropped: the file is gone, or nothing changed. *)
Lemma runs_remove name db w (Qok : unit -> St -> Prop) (Qerr Qcrash : St -> Prop) :
  (forall w', files w' = delete name (files w) \/ files w' = files w -> Qok tt (db, w')) ->
  (forall w', files w' = files w -> Qcrash (db, w')) ->
  runs (ignore (fs (os_Remove name))) (db, w) Qok Qerr Qcrash.
Proof.
  intros H1 H2. apply runs_ignore, runs_fs. unfold runs, os_Remove.
  destruct (files w !! name) as [c|]; [|apply H1; auto].
  apply sys_run; intros w'; auto.
Qed.

Lemma runs_or_close {A} (m : M World A) w (Qok : A -> World -> Prop) (Q : World -> Prop) :
  (forall w1 w2, files w1 = files w2 -> Q w1 -> Q w2) -> runs m w Qok Q Q -> runs (or_close m) w Qok Q Q.
Proof.
  intros HQ H. apply runs_catch. eapply runs_mono; [exact H|done| |done]. intros w1 H1 e.
  apply runs_bind, runs_ignore, sys_run; intros w2 ? **; try apply runs_raise; by apply (HQ w1).
Qed.

(** Up to the rename only the temporary file changes; the rename replaces the manifest. *)
Lemma stage_runs st w :
  runs (stage st) w (fun _ w' => files w' = <[fileName := state_bytes st]> (delete tmpName (files w)))
    (only [tmpName] w) (only [tmpName] w).
Proof.
  assert (forall w1 w2, files w1 = files w2 -> only [tmpName] w w1 -> only [tmpName] w w2) as Heq.
  { intros w1 w2 E H n Hn. rewrite <- E. by apply H. }
  assert (forall w1 c, files w1 = <[tmpName := c]> (files w) -> only [tmpName] w w1) as Htmp.
  { intros w1 c E n Hn. rewrite E. apply lookup_insert_ne. set_solver. }
  unfold stage. apply runs_bind, sys_run; [|by intros w' _ _ E n _; rewrite E|by intros w' _ E n _; rewrite E].
  intros w1 _ E1. apply runs_catch.
  apply (runs_mono _ _ (fun _ w' => files w' = <[fileName := state_bytes st]> (delete tmpName (files w))) _
    (only [tmpName] w) _ (only [tmpName] w)); [|done| |done].
  - assert (forall d, write_bytes tmpName 0 d (files w1) = <[tmpName := d]> (files w)) as Hwb.
    { intros d. rewrite E1. unfold write_bytes. rewrite alter_insert_eq. unfold splice. simpl. by rewrite drop_nil, app_nil_r. }
    apply runs_bind, runs_or_close; [done|]. apply runs_write; [|intros k fs0|intros k fs0]; [|by eapply Htmp; apply Hwb..].
    intros fs0. set (w2 := mkWorld _ _). assert (files w2 = <[tmpName := state_bytes st]> (files w)) as E2 by apply Hwb. clearbody w2.
    apply runs_bind, runs_or_close; [done|]. apply sys_run; [|intros w3 _ _ E3|intros w3 _ E3]; [|by eapply Htmp; rewrite E3..].
    intros w3 _ E3. unfold id in E3. rewrite E2 in E3.
    apply runs_bind, sys_run; [|intros w4 _ _ E4|intros w4 _ E4]; [|by eapply Htmp; rewrite E4..].
    intros w4 _ E4. unfold id in E4. rewrite E3 in E4. unfold os_Rename, runs. rewrite E4, lookup_insert_eq.
    apply sys_run; [|intros w5 _ _ E5|intros w5 _ E5]; [|by eapply Htmp; rewrite E5..].
    intros w5 _ E5. by rewrite E5, E4, delete_insert_eq.
  - intros w2 H2 e. apply runs_bind, runs_ignore. unfold os_Remove, runs at 1.
    destruct (files w2 !! tmpName); [|by apply runs_raise].
    apply sys_run; [intros w3 _ E3|intros w3 _ _ E3|intros w3 _ E3]; try apply runs_raise; try by apply (Heq w2).
    intros n Hn. rewrite E3, lookup_delete_ne by set_solver. by apply H2.
Qed.

(** An error of [Store] leaves the old manifest in place, or comes from the
    directory sync and leaves the new one. *)
Definition sync_failed (st : State) (w w' : World) : Prop :=
  exists w1 e, stage st w = (Ok tt, w1) /\ sync_dir w1 = (Err e, w').

Lemma sync_dir_runs w : runs sync_dir w (fun _ _ => True) (fun _ => True) (fun _ => True).
Proof.
  unfold sync_dir. apply runs_bind, sys_run; [|done..]. intros w1 _ _. apply runs_bind, runs_try_err, sys_run; [|intros w2 _ _ _ e|done];
    [intros w2 _ _|]; by apply runs_bind, runs_ignore, sys_run.
Qed.

Lemma Store_runs s w :
  Validate (published s) = None ->
  let stored w' := files w' = <[fileName := state_bytes (published s)]> (delete tmpName (files w)) in
  runs (Store s) w (fun _ => stored)
    (fun w' => only [tmpName] w w' \/ sync_failed (published s) w w' /\ stored w')
    (fun w' => only [tmpName] w w' \/ stored w').
Proof.
  intros Hv stored. unfold runs. rewrite (Store_split s w Hv). pose proof (stage_runs (published s) w) as Hr.
  unfold runs, mbind, M_bind in *. destruct (stage (published s) w) as [[[]|e| |] w1] eqn:E; auto.
  pose proof (sync_dir_runs w1) as Hp. pose proof (quiet_sync_dir w1) as Hq. unfold stored, runs in *.
  rewrite <- Hq in Hr. destruct (sync_dir w1) as [[[]|e| |] w2] eqn:E2; simpl in *; auto.
  right. split; [|done]. by exists w1, e.
Qed.

(** The table that flush wrote is gone, and the manifest that names it was
    published: the directory sync of [Store] failed, and flush removed the table. *)
Definition table_lost (D' : Disk) (name : bytes) (fs : gmap bytes bytes) : Prop :=
  exists w0 w2, sync_failed (d_state D') w0 w2 /\ fs = delete name (files w2).

Lemma table_lost_unopenable D' name fs :
  disk_ok D' -> name ∈ names D' -> table_lost D' name fs -> unopenable fs.
Proof.
  intros Hd Hin (w0 & w2 & (w1 & e & E1 & E2) & ->). apply dangling_unopenable. exists (d_state D'), name.
  pose proof (stage_runs (d_state D') w0) as Hr. unfold runs in Hr. rewrite E1 in Hr.
  pose proof (quiet_sync_dir w1) as Hq. rewrite E2 in Hq. simpl in Hq.
  assert (last name = Some x74) as Hl by (by apply (names_last D')).
  split_and!; [|by apply disk_ok_validate|apply Hd| |apply lookup_delete_eq].
  - rewrite lookup_delete_ne by (by intros ->). by rewrite Hq, Hr, lookup_insert_eq.
  - rewrite (dk_sst D' Hd). by apply elem_of_reverse.
Qed.

Section flush.
Context (db : DB) (w : World) (D : Disk) (next : Z).
Context (Hi : Inv db w D) (Hroom : room 2 db D) (Hne : MemTable.SortedEntries (mem db) <> []).
Context (Hnext : NextSST (d_state D) < next < 2 ^ 63).

Definition after (fs : gmap bytes bytes) : Prop := recoverable (d_replica D) (Mview db D) (flush_index db D) fs.

Lemma before fs : on_disk D [] fs -> before_or_after db D fs.
Proof. intros Ho. left. exists D, []. split_and!; [apply Hi|done|apply torn_nil|done|done]. Qed.

Lemma after_is_either fs : after fs -> before_or_after db D fs.
Proof. by right. Qed.

Lemma flushed_fine : disk_ok (flushed db D next).
Proof. by eapply (flushed_ok 2). Qed.

Lemma flushed_is_after fs :
  on_disk (flushed db D next) [] fs \/ on_disk (reset (flushed db D next)) [] fs -> after fs.
Proof. apply (flushed_recovers db w); [done|apply flushed_fine]. Qed.

Lemma new_table : sst_name next ∉ names D.
Proof. apply fresh_name; [apply Hi|]. lia. Qed.

(** Files that differ only in the new table still hold D. *)
Lemma frame_table fs fs' :
  on_disk D [] fs -> (forall n, n <> sst_name next -> fs' !! n = fs !! n) -> on_disk D [] fs'.
Proof.
  intros Ho Hn. eapply on_disk_frame; [exact Ho|]. intros n Hin. apply Hn. intros ->. pose proof (sst_name_last next).
  destruct Hin as [E|[E|Hin]]; [by rewrite E in *|by rewrite E in *|by apply new_table].
Qed.

Lemma frame_tmp w0 w' : on_disk D [] (files w0) -> only [tmpName] w0 w' -> on_disk D [] (files w').
Proof.
  intros Ho Hn. eapply on_disk_frame; [exact Ho|]. intros n Hin. apply Hn. intros ->%list_elem_of_singleton.
  destruct Hin as [E|[E|Hin]]; [done..|]. apply (names_last D) in Hin; [done|apply Hi].
Qed.

(** The error handler around [Store]: what is left after the table is removed. *)
Definition failed (fs : gmap bytes bytes) : Prop :=
  before_or_after db D fs \/ table_lost (flushed db D next) (sst_name next) fs.

Lemma store_handler (r : Reader) (db' : DB) w0 w' (A : Type) (e : string) (Qok : A -> St -> Prop) :
  on_disk D [] (files w0) -> only [tmpName] w0 w' \/
    sync_failed (d_state (flushed db D next)) w0 w' /\ on_disk (flushed db D next) [] (files w') ->
  runs (ignore (fs (Sstable.Close r)) ;; ignore (fs (os_Remove (sst_name next))) ;; put (set_nextSST (nextSST db)) ;; raise e)
    (db', w') Qok (fun s => failed (files s.2)) (fun s => before_or_after db D (files s.2)).
Proof.
  intros Ho Hs. assert (before_or_after db D (files w')) as HJ.
  { destruct Hs as [Hs|[_ Hs]]; [apply before; by eapply frame_tmp|apply after_is_either, flushed_is_after; by left]. }
  assert (forall w1, files w1 = files w' -> runs (ignore (fs (os_Remove (sst_name next))) ;; put (set_nextSST (nextSST db)) ;;
    @raise St A e) (db', w1) Qok (fun s => failed (files s.2)) (fun s => before_or_after db D (files s.2))) as H.
  { intros w1 E1. apply runs_bind, runs_remove; [|intros w2 E2; simpl; by rewrite E2, E1].
    intros w2 E2. apply runs_bind, runs_put, runs_raise. cbn [fst snd]. rewrite E1 in E2. destruct E2 as [E2|E2].
    - destruct Hs as [Hs|[Hs _]].
      + left. apply before. eapply frame_table; [by eapply frame_tmp|]. intros n Hn. by rewrite E2, lookup_delete_ne.
      + right. by exists w0, w'.
    - left. by rewrite E2. }
  apply runs_bind, runs_ignore, runs_fs, sys_run; [intros w1 _ E1|intros w1 _ _ E1|intros w1 _ E1]; [by apply H..|].
  simpl. by rewrite E1.
Qed.

(** After the manifest is published: the log is emptied and nothing is compacted. *)
Lemma flush_tail db' w3 :
  log db' = log db -> Z.of_nat (length (readers db')) < compactionThreshold (opts db') ->
  on_disk (flushed db D next) [] (files w3) ->
  runs ((match log db with Some _ => with_log Wal.Reset | None => mret tt end) ;; put count_flush ;; maybeCompact) (db', w3)
    (fun _ s => after (files s.2)) (fun s => after (files s.2)) (fun s => after (files s.2)).
Proof.
  intros Hlog Hth Ho. apply runs_bind.
  assert (forall db1 w1, after (files w1) -> readers db1 = readers db' -> opts db1 = opts db' ->
    runs (put count_flush ;; maybeCompact) (db1, w1)
    (fun _ s => after (files s.2)) (fun s => after (files s.2)) (fun s => after (files s.2))) as Hc.
  { intros db1 w1 H1 E1 E2. apply runs_bind, runs_put. unfold maybeCompact. apply runs_bind, runs_gets. cbn [fst snd].
    assert (readers (count_flush db1) = readers db1) as -> by done. assert (opts (count_flush db1) = opts db1) as -> by done.
    rewrite E1, E2. apply Z.ltb_lt in Hth as ->. by apply runs_ret. }
  destruct (log db) as [off|] eqn:El; [|apply runs_ret, Hc; [|done..]; apply flushed_is_after; by left].
  assert (d_wal (flushed db D next) <> None) as Hw.
  { rewrite (inv_log _ _ _ Hi) in El. simpl. by destruct (d_wal D). }
  pose proof (reset_disk _ [] _ flushed_fine Ho Hw) as Hr. set (fs' := alter _ _ _) in Hr.
  assert (after (files w3)) as H3 by (apply flushed_is_after; by left).
  assert (after fs') as H4 by (apply flushed_is_after; by right).
  unfold with_log, runs at 1. cbn [fst snd]. rewrite Hlog.
  assert (runs Wal.Reset (off, w3) (fun _ s => after (files s.2)) (fun s => after (files s.2)) (fun s => after (files s.2))) as Hrun.
  { unfold Wal.Reset. apply runs_bind, runs_zoom, sys_run; [|by intros w4 _ _ E4; simpl; rewrite E4|by intros w4 _ E4; simpl; rewrite E4].
    intros w4 _ E4. apply runs_bind, runs_zoom, sys_run; [|intros w5 _ _ E5|intros w5 _ E5];
      [intros w5 _ E5; apply runs_modify|..]; simpl; rewrite E5; unfold id; simpl; by rewrite E4. }
  unfold runs in Hrun. destruct (Wal.Reset (off, w3)) as [[[]|e| |] [off' w4]]; try done. by apply Hc.
Qed.

(** Publishing the table: the rest of [flush] from the call of [Store] on. *)
Lemma flush_publishes (st : State) (r : Reader) (db' : DB) w2 :
  published st = d_state (flushed db D next) -> on_disk D [] (files w2) ->
  files w2 !! sst_name next = Some (table_bytes (MemTable.SortedEntries (mem db))) ->
  log db' = log db -> opts db' = opts db -> Z.of_nat (length (readers db)) + 1 < compactionThreshold (opts db) ->
  runs (catch (fs (Store st))
          (fun e => ignore (fs (Sstable.Close r)) ;; ignore (fs (os_Remove (sst_name next))) ;;
                    put (set_nextSST (nextSST db)) ;; raise e) ;;
        put (set_readers (r :: readers db)) ;;
        put (set_mem (MemTable.NewWithSeq (MemTable.NextSeq (mem db)))) ;;
        put (set_manifest st) ;;
        (if replica db then put (set_durable (appliedIndex db)) else mret tt) ;;
        (match log db with Some _ => with_log Wal.Reset | None => mret tt end) ;;
        put count_flush ;;
        maybeCompact) (db', w2)
    (fun _ s => after (files s.2)) (fun s => failed (files s.2)) (fun s => before_or_after db D (files s.2)).
Proof.
  intros Hst Ho Ht Hlog Hopts Hth. apply runs_bind, runs_catch, runs_fs.
  assert (forall w', files w' = <[fileName := state_bytes (published st)]> (delete tmpName (files w2)) ->
    on_disk (flushed db D next) [] (files w')) as Hstored.
  { intros w' ->. apply stored_disk; [apply flushed_fine|done| |apply Ho].
    simpl. constructor; [done|]. eapply Forall_impl; [apply (od_tables _ _ _ Ho)|]. done. }
  eapply runs_mono; [apply Store_runs; rewrite Hst; apply disk_ok_validate, flushed_fine|..].
  - intros [] w3 E3%Hstored. do 3 apply runs_bind, runs_put. apply runs_bind.
    assert (forall db1, log db1 = log db' -> opts db1 = opts db' -> readers db1 = r :: readers db ->
      runs ((match log db with Some _ => with_log Wal.Reset | None => mret tt end) ;; put count_flush ;; maybeCompact) (db1, w3)
        (fun _ s => after (files s.2)) (fun s => failed (files s.2)) (fun s => before_or_after db D (files s.2))) as Htail.
    { intros db1 E1 E2 Er. eapply runs_mono; [apply (flush_tail db1 w3); [congruence| |done]|done| |].
      - rewrite Er, E2, Hopts. simpl. lia.
      - intros s' Hs. left. by apply after_is_either.
      - intros s' Hs. by apply after_is_either. }
    destruct (replica db); [apply runs_put|apply runs_ret]; by apply Htail.
  - intros w3 H3 e. cbv beta in H3. eapply store_handler; [exact Ho|]. rewrite Hst in H3. destruct H3 as [H3|[H3 E3]]; [by left|right].
    split; [done|]. apply Hstored. by rewrite Hst.
  - intros w3 [H3|E3%Hstored]; [apply before; by eapply frame_tmp|apply after_is_either, flushed_is_after; by left].
Qed.

End flush.

Lemma flush_runs db w D :
  Inv db w D -> room 2 db D -> MemTable.SortedEntries (mem db) <> [] ->
  Z.of_nat (length (readers db)) + 1 < compactionThreshold (opts db) ->
  runs flush (db, w) (fun _ s => after db D (files s.2)) (fun s => failed db D (NextSST (d_state D) + 1) (files s.2))
    (fun s => before_or_after db D (files s.2)).
Proof.
  intros Hi Hroom Hne Hth. pose proof (st_next _ (dk_state D (inv_ok _ _ _ Hi))) as Hst.
  unfold flush. apply runs_bind, runs_gets. cbn [fst].
  destruct (MemTable.SortedEntries (mem db)) as [|x0 l0] eqn:El; [done|]. rewrite <- El in *. clear x0 l0 El.
  rewrite (inv_persistent _ _ _ Hi). simpl negb. cbv iota. rewrite (inv_next _ _ _ Hi).
  rewrite u64_small by (destruct Hroom; lia). set (next := NextSST (d_state D) + 1).
  assert (NextSST (d_state D) < next < 2 ^ 63) as Hn by (destruct Hroom; lia).
  pose proof (before db w D Hi) as Hbef. pose proof (frame_table db w D next Hi Hn) as Hframe.
  apply runs_bind, runs_put. cbn [fst snd]. apply runs_bind, runs_catch, runs_fs.
  assert (forall w', only [sst_name next] w w' -> on_disk D [] (files w')) as Hw.
  { intros w' H'. eapply Hframe; [apply Hi|]. intros n Hne'. apply H'. by intros ->%list_elem_of_singleton. }
  eapply runs_mono; [by apply Write_touches|..].
  2:{ intros w1 [[_ H1] _] e. apply runs_bind, runs_put, runs_raise. left. by apply Hbef, Hw. }
  2:{ intros w1 [H1 _]. by apply Hbef, Hw. }
  intros [] w1 [[_ H1%Hw] E1]. apply runs_bind, runs_catch, runs_fs.
  assert (forall w', only [] w1 w' -> files w' = files w1) as Hsame.
  { intros w' H'. apply map_eq. intros n. apply H'. apply not_elem_of_nil. }
  eapply runs_mono; [apply (Open_touches _ (MemTable.SortedEntries (mem db))); [by eapply (mem_fits 2 db w D)|by rewrite E1, lookup_insert_eq]|..].
  2:{ intros w2 [[_ H2%Hsame] _] e. apply runs_bind, runs_put, runs_bind, runs_remove.
      - intros w3 E3. apply runs_raise. left. apply Hbef. simpl. eapply Hframe; [exact H1|]. intros n Hne'.
        destruct E3 as [->| ->]; rewrite H2; [by rewrite lookup_delete_ne|done].
      - intros w3 E3. apply Hbef. simpl. by rewrite E3, H2. }
  2:{ intros w2 [H2%Hsame _]. apply Hbef. simpl. by rewrite H2. }
  intros r w2 (_ & E2 & _). pose proof (flush_state db w D next Hi) as Hst'.
  set (st := if replica db then _ else _) in *. clearbody st.
  rewrite <- (inv_next _ _ _ Hi). eapply flush_publishes; try done; rewrite E2; [done|by rewrite E1, lookup_insert_eq].
Qed.

(** C40: flush with any of its calls failing. Take an open store whose handle and
    files agree, with a memtable to write and fewer tables than start a compaction.
    Under every schedule of failing and crashing calls: when flush returns without
    error the files hold the map of the handle; after a crash at any point they hold
    that or the map they held before. When flush returns an error they do too,
    except in one case: the failing call was the opening or the sync of the
    directory after the new manifest had been renamed into place, and flush then
    removed the table which that manifest names. From those files no call of Open
    ever returns a store. *)
Theorem flush_failures db w D :
  Inv db w D -> room 2 db D -> MemTable.SortedEntries (mem db) <> [] ->
  Z.of_nat (length (readers db)) + 1 < compactionThreshold (opts db) ->
  let name := sst_name (NextSST (d_state D) + 1) in
  runs ForceFlush (db, w)
    (fun _ s => recoverable (d_replica D) (Mview db D) (flush_index db D) (files s.2))
    (fun s => before_or_after db D (files s.2) \/
       table_lost (flushed db D (NextSST (d_state D) + 1)) name (files s.2) /\ unopenable (files s.2))
    (fun s => before_or_after db D (files s.2)).
Proof.
  intros Hi Hroom Hne Hth name. eapply runs_mono; [by apply (flush_runs db w D)|done| |done].
  intros s' [H|H]; [by left|right]. split; [done|]. eapply table_lost_unopenable; [| |exact H].
  - eapply (flushed_ok 2); try done. pose proof (st_next _ (dk_state D (inv_ok _ _ _ Hi))). destruct Hroom. lia.
  - apply list_elem_of_fmap. by eexists (_, _); split; [|left].
Qed.

End sizing.

(** ** A run whose directory sync fails *)

(** A store with one write in its log, and a schedule under which the sixteenth
    call of its flush fails, the sync of the directory after the rename. *)
Definition one_write : DB := written (empty_handle DefaultOptions) [] one_record.
Definition one_disk : Disk := appended empty_disk one_record.
Definition sync_fails : World := mkWorld one_files (replicate 15 Fine ++ [Fails 0]).

Lemma Inv_files {BS : BloomSizing} db w w' D : files w' = files w -> Inv db w D -> Inv db w' D.
Proof. intros E [? Ho]. split; try done. by rewrite E. Qed.

Lemma flush_failures_witness :
  runs (@ForceFlush demo_sizing) (one_write, sync_fails)
    (fun _ s => @recoverable demo_sizing (d_replica one_disk) (Mview one_write one_disk) (flush_index one_write one_disk) (files s.2))
    (fun s => @before_or_after demo_sizing one_write one_disk (files s.2) \/
       table_lost (flushed one_write one_disk 1) (sst_name 1) (files s.2) /\ @unopenable demo_sizing (files s.2))
    (fun s => @before_or_after demo_sizing one_write one_disk (files s.2)) /\
  (@ForceFlush demo_sizing (one_write, sync_fails)).1 = Err "sync" /\
  files (@ForceFlush demo_sizing (one_write, sync_fails)).2.2 !! fileName =
    Some (state_bytes (d_state (flushed one_write one_disk 1))) /\
  files (@ForceFlush demo_sizing (one_write, sync_fails)).2.2 !! sst_name 1 = None.
Proof.
  split_and!; [|vm_compute; reflexivity..].
  apply (@flush_failures demo_sizing one_write sync_fails one_disk).
  - apply (Inv_files one_write (mkWorld one_files [])); [reflexivity|exact one_inv].
  - split; vm_compute; reflexivity.
  - vm_compute. discriminate.
  - vm_compute. reflexivity.
Defined.

End Faults.
