(* ===== verification/Replica.v ===== *)
(** * The replica store

    In replica mode the store has no log: the replicated log above it replays
    what the tables do not have. [ApplyBatch] applies the entries of that log in
    order. Shown: an opened replica that applies entries, flushes and compacts,
    and crashes anywhere, is recovered to the state after some entry of the log,
    together with the index of exactly that entry. *)

From S2P Require Import Prelude GoStd Fs Memtable Bloom Wal Sstable Heap Compact Json Manifest Db Recovery Reopen Durability.

Module Replica.
Import Sstable Manifest Db Recovery Reopen Durability.

(** The mutation of a key in a batch: of several the first one is kept. *)
Fixpoint batch_find (ms : list Mutation) (k : bytes) : option Mutation :=
  match ms with
  | [] => None
  | m :: rest => if key_eqb (mKey m) k then Some m else batch_find rest k
  end.

(** What a batch does to the map. *)
Definition apply_batch (V : bytes -> option bytes) (ms : list Mutation) (k : bytes) : option bytes :=
  match batch_find ms k with
  | Some m => if mType m =? MutationDelete then None else Some (mValue m)
  | None => V k
  end.

Lemma batch_newest index ms k o :
  (forall e, o = Some e -> SeqNum e < index) ->
  newest_from o k (mutation_record index <$> ms) =
  match batch_find ms k with Some m => Some (mutation_record index m) | None => o end.
Proof.
  revert o. induction ms as [|m ms IH]; intros o Ho; [done|]. rewrite fmap_cons. cbn [newest_from foldl batch_find].
  change (Key (mutation_record index m)) with (mKey m). destruct (key_eqb (mKey m) k); [|by apply IH].
  assert (newer o (mutation_record index m) = Some (mutation_record index m)) as ->.
  { destruct o as [e|]; [|done]. unfold newer. specialize (Ho e eq_refl). simpl. by rewrite (proj2 (Z.ltb_lt _ _)). }
  apply newest_from_older. intros r (x & -> & _)%list_elem_of_fmap _. simpl. lia.
Qed.

Lemma live_mutation index m :
  live (mutation_record index m) = if mType m =? MutationDelete then None else Some (mValue m).
Proof. unfold live, mutation_record. simpl. by destruct (mType m =? MutationDelete). Qed.

Definition fits_u32 (m : Mutation) : bool :=
  (Z.of_nat (length (mKey m)) <? 2 ^ 32) && (Z.of_nat (length (mValue m)) <? 2 ^ 32).

Lemma mutation_ok index m :
  fits_u32 m = true -> 0 <= index < 2 ^ 64 -> rec_ok (mutation_record index m) /\ type_ok (mutation_record index m).
Proof.
  unfold fits_u32. intros Hm Hi. bool_hyps. unfold mutation_record, type_ok, RecordTypeDelete, RecordTypePut.
  split; [split|]; simpl; destruct (mType m =? MutationDelete); auto; lia.
Qed.

(** No call fails; a crash may come at any point. *)
#[local] Existing Instance crashes.
#[local] Canonical Structure crashes.

Section files.
Context {BS : BloomSizing}.

(** The handle with the batch in the memtable. *)
Definition batched (index : Z) (ms : list Mutation) (db : DB) : DB :=
  set_applied index (set_mem (foldl MemTable.SetRaw (mem db) (mutation_record index <$> ms)) db).

Definition batch_size (ms : list Mutation) : Z := Z.of_nat (length (data (mutation_record 0 <$> ms))).

Lemma batch_size_eq index ms : Z.of_nat (length (data (mutation_record index <$> ms))) = batch_size ms.
Proof.
  unfold batch_size. induction ms as [|m ms IH]; [done|]. rewrite !fmap_cons, !data_cons, !length_app.
  assert (size (mutation_record index m) = size (mutation_record 0 m)) as E by (unfold size; by rewrite !length_encode_record).
  unfold size in E. lia.
Qed.

Section batch.
Context (db : DB) (w : World) (D : Disk) (index : Z) (ms : list Mutation).
Context (Hi : Inv db w D) (Hr : d_wal D = None) (Hidx : index = appliedIndex db + 1) (Hlt : index + 1 < 2 ^ 64).
Context (Hfit : forallb fits_u32 ms = true).

Lemma applied_bounds : AppliedIndex (d_state D) < index /\ 0 <= index < 2 ^ 64.
Proof.
  destruct (inv_replica _ _ _ Hi Hr) as (H1 & H2 & _). pose proof (st_applied _ (dk_state _ (inv_ok _ _ _ Hi))). lia.
Qed.

Lemma batch_seqs : Forall (fun r => 0 <= SeqNum r /\ SeqNum r + 1 < 2 ^ 64) (mutation_record index <$> ms).
Proof. apply Forall_fmap, Forall_forall. intros m _. simpl. pose proof applied_bounds. lia. Qed.

Lemma batched_wf : MemTable.wf (mem (batched index ms db)).
Proof. apply MemTable.wf_SetRaw_all; [apply Hi|apply batch_seqs]. Qed.

Lemma batched_lookup k :
  MemTable.entries (mem (batched index ms db)) !! k =
  match batch_find ms k with Some m => Some (mutation_record index m) | None => MemTable.entries (mem db) !! k end.
Proof.
  unfold batched. cbn [mem set_applied set_mem]. rewrite MemTable.SetRaw_all_lookup, batch_newest; [done|].
  intros e He. destruct (inv_replica _ _ _ Hi Hr) as (_ & _ & H3). specialize (H3 k e He). lia.
Qed.

Lemma batch_find_in k m : batch_find ms k = Some m -> m ∈ ms.
Proof.
  clear. induction ms as [|x l IH]; [done|]. simpl. destruct (key_eqb _ _); [intros [= ->]; by left|]. intros H. right. auto.
Qed.

Lemma Inv_batched : Inv (batched index ms db) w D.
Proof.
  pose proof applied_bounds as [Hb1 Hb2]. destruct (inv_replica _ _ _ Hi Hr) as (H1 & H2 & H3).
  assert (d_floor D = AppliedIndex (d_state D)) as Hfl by (unfold d_floor; by rewrite Hr).
  split; try (by apply Hi); [by apply batched_wf|..].
  - intros k r. rewrite batched_lookup. destruct (batch_find ms k) as [m|] eqn:E; [|by apply Hi]. intros [= <-].
    rewrite forallb_forall in Hfit. apply batch_find_in, list_elem_of_In, Hfit in E.
    destruct (mutation_ok index m E Hb2). rewrite Hfl. split_and!; [done|done|simpl; lia].
  - intros l El. congruence.
  - intros _. simpl. split_and!; [done|lia|lia|]. intros k r Hk.
    change (MemTable.entries (mem (batched index ms db)) !! k = Some r) in Hk. rewrite batched_lookup in Hk.
    destruct (batch_find ms k); [injection Hk as <-; simpl; lia|]. specialize (H3 k r Hk). lia.
Qed.

Lemma batched_view k : Mview (batched index ms db) D k = apply_batch (Mview db D) ms k.
Proof.
  rewrite (Mview_layers _ _ _ _ Inv_batched), batched_lookup. unfold apply_batch.
  rewrite (Mview_layers _ _ _ _ Hi). destruct (batch_find ms k) as [m|]; [|done]. simpl. apply live_mutation.
Qed.

Lemma batched_weight : weight (batched index ms db) D <= weight db D + batch_size ms.
Proof.
  pose proof (MemTable.SortedEntries_SetRaw_all (mem db) (mutation_record index <$> ms) (inv_mem _ _ _ Hi) batched_wf) as Hs.
  apply Compact.length_data_submseteq in Hs. rewrite data_app, length_app in Hs.
  unfold weight. rewrite !data_app, !length_app, <- (batch_size_eq index). unfold batched. cbn [mem set_applied set_mem]. lia.
Qed.
End batch.

(** ** Commands of a replica *)

Inductive Cmd : Type :=
| RApply (ms : list Mutation)
| RFlush
| RCompact.

(** The next entry of the replicated log is applied at the next index. *)
Definition run_cmd (c : Cmd) : M St unit :=
  match c with
  | RApply ms => db ← get_db; ApplyBatch (u64 (appliedIndex db + 1)) ms
  | RFlush => ForceFlush
  | RCompact => ForceCompact
  end.

Definition batch (c : Cmd) : list (list Mutation) := match c with RApply ms => [ms] | _ => [] end.
Definition batches (cs : list Cmd) : list (list Mutation) := concat (batch <$> cs).

Definition cmd_okb (c : Cmd) : bool :=
  match c with
  | RApply ms => forallb fits_u32 ms && bool_decide (check_mutations ms = None)
  | _ => true
  end.

Definition cmd_size (c : Cmd) : Z := match c with RApply ms => batch_size ms | _ => 0 end.

Section tracked.
Context (V0 : bytes -> option bytes) (i0 : Z).

(** The map after the first d entries. *)
Definition after (hist : list (list Mutation)) (d : nat) : bytes -> option bytes := foldl apply_batch V0 (take d hist).

(** The files are those of some prefix of the entries and know its length. *)
Definition prefix_files (hist : list (list Mutation)) (fs : gmap bytes bytes) : Prop :=
  exists d, (d <= length hist)%nat /\ recoverable true (after hist d) (i0 + Z.of_nat d) fs.

(** A handle at the end of the entries, with tables of a prefix. *)
Record tracked (hist : list (list Mutation)) (db : DB) (D : Disk) : Prop := mkTracked {
  tr_mode : d_wal D = None;
  tr_disk : exists d, (d <= length hist)%nat /\ (forall k, View D k = after hist d k) /\
    AppliedIndex (d_state D) = i0 + Z.of_nat d;
  tr_map : forall k, Mview db D k = foldl apply_batch V0 hist k;
  tr_index : appliedIndex db = i0 + Z.of_nat (length hist)
}.

Lemma after_app h l d : (d <= length h)%nat -> after (h ++ l) d = after h d.
Proof. intros Hd. unfold after. by rewrite take_app_le. Qed.

Lemma after_all h : after h (length h) = foldl apply_batch V0 h.
Proof. unfold after. by rewrite take_ge. Qed.

Lemma prefix_files_app h l fs : prefix_files h fs -> prefix_files (h ++ l) fs.
Proof.
  intros (d & Hd & Hr). exists d. rewrite length_app, after_app by done. split; [lia|done].
Qed.

(** The files a step from a tracked handle can leave. *)
Lemma tracked_files h db w D fs :
  Inv db w D -> tracked h db D -> before_or_after db D fs -> prefix_files h fs.
Proof.
  intros Hi [Hm (d & Hd & HV & Ha) HM Hx] Hfs. assert (d_replica D = true) as Hr by (unfold d_replica; by rewrite Hm).
  unfold before_or_after, flush_index in Hfs. rewrite Hr, (inv_mode _ _ _ Hi), Hr in Hfs. destruct Hfs as [Hfs|Hfs].
  - exists d. rewrite <- Ha. split; [done|]. by eapply recoverable_ext.
  - exists (length h). rewrite after_all, <- Hx. split; [lia|]. by eapply recoverable_ext.
Qed.

Lemma d_wal_opts db w D db' w' D' : Inv db w D -> Inv db' w' D' -> opts db' = opts db -> d_wal D = None -> d_wal D' = None.
Proof.
  intros Hi Hi' Ho Hm. pose proof (d_replica_opts _ _ _ _ _ _ Hi Hi' Ho) as Hr. unfold d_replica in Hr.
  rewrite Hm in Hr. by destruct (d_wal D').
Qed.

(** A step that keeps the map and either keeps the tables' prefix or moves it to
    the end keeps the handle tracked. *)
Lemma tracked_step h db w D db' w' D' :
  Inv db w D -> tracked h db D -> Inv db' w' D' -> opts db' = opts db -> appliedIndex db' = appliedIndex db ->
  (forall k, Mview db' D' k = Mview db D k) ->
  ((forall k, View D' k = View D k) /\ AppliedIndex (d_state D') = AppliedIndex (d_state D) \/
   (forall k, View D' k = Mview db D k) /\ AppliedIndex (d_state D') = flush_index db D) ->
  tracked h db' D'.
Proof.
  intros Hi [Hm (d & Hd & HV & Ha) HM Hx] Hi' Ho Hap HM' Hor. assert (d_replica D = true) as Hr by (unfold d_replica; by rewrite Hm).
  split; [by eapply (d_wal_opts db w D)| |intros k; by rewrite HM'|by rewrite Hap]. destruct Hor as [[HV' Ha']|[HV' Ha']].
  - exists d. split_and!; [done|intros k; by rewrite HV'|by rewrite Ha'].
  - exists (length h). unfold flush_index in Ha'. rewrite (inv_mode _ _ _ Hi), Hr in Ha'. rewrite after_all.
    split_and!; [lia|intros k; by rewrite HV'|by rewrite Ha'].
Qed.

Lemma apply_batch_ext V V' ms : (forall k, V k = V' k) -> forall k, apply_batch V ms k = apply_batch V' ms k.
Proof. intros HV k. unfold apply_batch. by destruct (batch_find ms k). Qed.

(** The handle with a batch in the memtable is at the end of one more entry. *)
Lemma tracked_batched h db w D ms :
  Inv db w D -> tracked h db D -> appliedIndex db + 2 < 2 ^ 64 -> forallb fits_u32 ms = true ->
  tracked (h ++ [ms]) (batched (appliedIndex db + 1) ms db) D.
Proof.
  intros Hi [Hm (d & Hd & HV & Ha) HM Hx] Hlt Hfit. split; [done|..].
  - exists d. rewrite length_app, after_app by done. split_and!; [lia|done|done].
  - intros k. rewrite (batched_view db w D) by (try done; lia). rewrite foldl_app. simpl. by apply apply_batch_ext.
  - rewrite length_app. simpl. lia.
Qed.

(** Room for more commands. *)
Definition rbudget (bytes cmds : Z) (db : DB) (D : Disk) : Prop :=
  weight db D + bytes < 2 ^ 50 /\ NextSST (d_state D) + 2 * cmds < 2 ^ 63 /\ appliedIndex db + cmds + 1 < 2 ^ 64.

Definition rspent (bytes : Z) (db : DB) (D : Disk) (db' : DB) (D' : Disk) : Prop :=
  weight db' D' <= weight db D + bytes /\ NextSST (d_state D') <= NextSST (d_state D) + 2 /\
  appliedIndex db' <= appliedIndex db + 1.

(** What is in the tables stays, or moves up to what is applied. *)
Definition moved (D : Disk) (db' : DB) (D' : Disk) : Prop :=
  (forall k, View D' k = View D k) /\ AppliedIndex (d_state D') = AppliedIndex (d_state D) \/
  (forall k, View D' k = Mview db' D' k) /\ AppliedIndex (d_state D') = appliedIndex db'.

Lemma ApplyBatch_keeps h db w D ms :
  Inv db w D -> tracked h db D -> crash_only w -> cmd_okb (RApply ms) = true -> rbudget (batch_size ms) 1 db D ->
  keeps (prefix_files (h ++ [ms])) (ApplyBatch (appliedIndex db + 1) ms) (db, w) (fun _ s =>
    exists D', Inv s.1 s.2 D' /\ tracked (h ++ [ms]) s.1 D' /\ rspent (batch_size ms) db D s.1 D' /\ moved D s.1 D').
Proof.
  intros Hi Ht Hg Hok (Hb1 & Hb2 & Hb3). apply andb_true_iff in Hok as [Hfit Hchk]. apply bool_decide_eq_true in Hchk.
  pose proof (tr_mode _ _ _ Ht) as Hm. destruct (inv_replica _ _ _ Hi Hm) as (H1 & H2 & _).
  pose proof (st_applied _ (dk_state _ (inv_ok _ _ _ Hi))) as H3.
  assert (prefix_files (h ++ [ms]) (files w)) as HJ.
  { apply prefix_files_app. eapply tracked_files; [done|done|left; by eapply inv_recoverable]. }
  unfold ApplyBatch. apply keeps_bind, keeps_get_db; [done|done|]. intros _ _. cbn [fst].
  assert (replica db = true) as -> by (rewrite (inv_mode _ _ _ Hi); unfold d_replica; by rewrite Hm).
  cbn [negb]. rewrite (proj2 (Z.eqb_neq _ _)), (proj2 (Z.leb_gt _ _)) by lia.
  rewrite u64_small, Z.eqb_refl, Hchk by lia. cbn [negb].
  do 2 (apply keeps_bind, keeps_put; [done|done|]; intros _ _). cbn [fst snd].
  match goal with |- keeps _ _ (?d, w) _ => change d with (batched (appliedIndex db + 1) ms db) end.
  assert (Inv (batched (appliedIndex db + 1) ms db) w D) as Hi1 by (apply Inv_batched; [done|done|done|lia|done]).
  assert (tracked (h ++ [ms]) (batched (appliedIndex db + 1) ms db) D) as Ht1 by (eapply tracked_batched; [done|done|lia|done]).
  assert (weight (batched (appliedIndex db + 1) ms db) D <= weight db D + batch_size ms) as Hw1
    by (eapply batched_weight; [done|done|done|lia]).
  eapply keeps_mono; [apply (maybeFlush_keeps _ w D Hi1 Hg); split; lia|..].
  - intros fs Hfs. by eapply tracked_files.
  - intros [] s _ (D' & Hi' & HM & Hor & Ha & Ho & Hsp). exists D'. split_and!; [done| | |].
    + by eapply (tracked_step (h ++ [ms]) (batched (appliedIndex db + 1) ms db) w D).
    + unfold spent in Hsp. unfold rspent. rewrite Ha. cbn [batched set_applied set_mem appliedIndex]. lia.
    + destruct Hor as [?|[HV Hai]]; [by left|right]. split; [intros k; by rewrite HV, HM|]. rewrite Hai, Ha. unfold flush_index.
      rewrite (inv_mode _ _ _ Hi1). unfold d_replica. by rewrite Hm.
Qed.

Lemma run_cmd_keeps h c db w D :
  Inv db w D -> tracked h db D -> crash_only w -> cmd_okb c = true -> rbudget (cmd_size c) 1 db D ->
  keeps (prefix_files (h ++ batch c)) (run_cmd c) (db, w) (fun _ s =>
    exists D', Inv s.1 s.2 D' /\ tracked (h ++ batch c) s.1 D' /\ rspent (cmd_size c) db D s.1 D').
Proof.
  intros Hi Ht Hg Hok Hb. pose proof Hb as (Hb1 & Hb2 & Hb3).
  assert (prefix_files h (files w)) as HJ by (eapply tracked_files; [done|done|left; by eapply inv_recoverable]).
  destruct c as [ms| |]; cbn [run_cmd batch cmd_size] in *; rewrite ?app_nil_r.
  - apply keeps_bind, keeps_get_db; [done|by apply prefix_files_app|]. intros _ _. cbn [fst].
    pose proof (tr_mode _ _ _ Ht) as Hm. destruct (inv_replica _ _ _ Hi Hm) as (H1 & H2 & _).
    pose proof (st_applied _ (dk_state _ (inv_ok _ _ _ Hi))) as H3. rewrite u64_small by lia.
    eapply keeps_mono; [by apply ApplyBatch_keeps|done|]. intros [] s _ (D' & ? & ? & ? & _). eauto.
  - eapply keeps_mono; [apply (flush_keeps db w D Hi Hg); split; lia|intros fs Hfs; by eapply tracked_files|].
    intros [] s _ (D' & Hi' & HV & HM & Ha & Hap & Ho & Hsp). exists D'. split_and!; [done| |].
    + eapply (tracked_step h db w D); try done. by right.
    + unfold spent in Hsp. unfold rspent. rewrite Hap. lia.
  - eapply keeps_mono; [apply (compact_keeps db w D Hi Hg); split; lia|intros fs Hfs; eapply tracked_files; [done|done|by left]|].
    intros [] s _ (D' & Hi' & (HV & HM & Ha & _ & Ho & Hap) & Hsp). exists D'. split_and!; [done| |].
    + eapply (tracked_step h db w D); try done. by left.
    + unfold spent in Hsp. unfold rspent. rewrite Hap. lia.
Qed.

Definition cmd_sizes (cs : list Cmd) : Z := foldr (fun c n => cmd_size c + n) 0 cs.

Lemma cmd_size_nonneg c : 0 <= cmd_size c.
Proof. destruct c; simpl; unfold batch_size; lia. Qed.

Lemma cmd_sizes_nonneg cs : 0 <= cmd_sizes cs.
Proof. induction cs as [|c cs IH]; simpl; [lia|]. pose proof (cmd_size_nonneg c). lia. Qed.

Lemma run_cmds_keeps h cs db w D :
  Inv db w D -> tracked h db D -> crash_only w -> forallb cmd_okb cs = true -> rbudget (cmd_sizes cs) (Z.of_nat (length cs)) db D ->
  keeps (prefix_files (h ++ batches cs)) (mfold run_cmd cs) (db, w) (fun _ s =>
    exists D', Inv s.1 s.2 D' /\ tracked (h ++ batches cs) s.1 D').
Proof.
  revert h db w D. induction cs as [|c cs IH]; intros h db w D Hi Ht Hg Hok Hb.
  { unfold batches. simpl. rewrite app_nil_r. apply keeps_ret; [done| |by exists D].
    eapply tracked_files; [done|done|left; by eapply inv_recoverable]. }
  simpl in Hok. apply andb_true_iff in Hok as [Hc Hok]. unfold rbudget in Hb. cbn [cmd_sizes foldr length] in Hb.
  fold (cmd_sizes cs) in Hb. pose proof (cmd_sizes_nonneg cs). pose proof (cmd_size_nonneg c).
  assert (h ++ batches (c :: cs) = (h ++ batch c) ++ batches cs) as E by (unfold batches; by rewrite fmap_cons, concat_cons, app_assoc).
  rewrite E. cbn [mfold]. apply keeps_bind.
  eapply keeps_mono; [apply (run_cmd_keeps h c db w D); try done; split_and!; lia|intros fs; apply prefix_files_app|].
  intros [] [db1 w1] _ (D1 & Hi1 & Ht1 & Hsp) Hg1 _. cbn [fst snd] in *. unfold rspent in Hsp.
  eapply IH; try done. split_and!; lia.
Qed.
End tracked.

(** Open a replica and run commands. *)
Definition replica_session (o : Options) (cs : list Cmd) : M World DB := db ← Open true o; run_db (mfold run_cmd cs) db.

(** C8: Open a replica whose files hold the map V at applied index i, apply the
    next entries of the replicated log, flush and compact in any order, under any
    schedule of crashes. If it returns, lookups answer from V with all entries
    applied and the applied index is i plus their number. Whether it returns or
    crashes, a map and an index are recoverable from the files: the map after
    some prefix of the entries, and i plus the length of exactly that prefix, so
    that replaying the log from there applies every entry once. *)
Theorem replica_prefix o cs w D torn :
  disk_ok D -> d_wal D = None -> on_disk D torn (files w) -> torn_ok torn -> Mode o = DurabilityReplica -> crash_only w ->
  forallb cmd_okb cs = true -> Z.of_nat (length (data (concat (tables D)))) + cmd_sizes cs < 2 ^ 50 ->
  NextSST (d_state D) + 2 * Z.of_nat (length cs) < 2 ^ 63 -> AppliedIndex (d_state D) + Z.of_nat (length cs) + 1 < 2 ^ 64 ->
  let V := View D in let i := AppliedIndex (d_state D) in
  runs (replica_session o cs) w
    (fun db w' => (forall k, (Db.Get db k).2 = foldl apply_batch V (batches cs) k) /\
       AppliedIndex_ db = i + Z.of_nat (length (batches cs)) /\ prefix_files V i (batches cs) (files w'))
    (fun _ => False)
    (fun w' => prefix_files V i (batches cs) (files w')).
Proof.
  intros Hd Hm Ho Ht Hmo Hg Hok Hsz Hsst Hix V i. unfold replica_session. apply runs_bind.
  assert (Mode o = mode_of D) as Hmo' by (unfold mode_of; by rewrite Hm).
  assert (d_replica D = true) as Hrep by (unfold d_replica; by rewrite Hm).
  assert (forall fs, files_of D fs -> prefix_files V i (batches cs) fs) as HJ.
  { intros fs Hfs. exists 0%nat. unfold after. rewrite take_0, Z.add_0_r. split; [lia|]. rewrite <- Hrep.
    by apply files_of_recoverable. }
  eapply runs_mono; [apply (Open_safe w o D torn); done|..].
  - intros db w' (Hf & HJ' & Hi & HM & Ha). destruct (Ha Hm) as [Hai Hmem].
    assert (weight db D = Z.of_nat (length (data (concat (tables D))))) as Hw by (unfold weight; by rewrite Hmem).
    assert (tracked V i [] db D) as Htr.
    { split; [done|exists 0%nat; split_and!; [done|done|lia]|done|simpl; lia]. }
    assert (crash_only w') as Hg' by (by eapply crash_only_follows).
    pose proof (run_cmds_keeps V i [] cs db w' D Hi Htr Hg' Hok) as Hk. unfold rbudget in Hk. rewrite Hw, Hai in Hk.
    specialize (Hk ltac:(split_and!; lia)). unfold keeps, runs in Hk. unfold runs, run_db.
    destruct (mfold run_cmd cs (db, w')) as [[[]|e| |] [db1 w1]]; cbn [res_map fst snd] in *; try done.
    destruct Hk as (_ & Hpre & D1 & Hi1 & [_ _ HM1 Hx1]). split_and!; [|done|done].
    intros k. by rewrite (Get_Mview _ _ _ k Hi1), HM1.
  - intros w' (_ & _ & Hc). by apply crash_only_cannot_fail in Hc.
  - intros w' (? & _). auto.
Qed.

End files.

(** ** Concrete runs *)

Definition replica_options : Options := mkOptions 2 0 DurabilityReplica.
Definition replica_disk : Disk := mkDisk Manifest.New [] None.
Definition replica_files : gmap bytes bytes := {[ fileName := state_bytes Manifest.New ]}.
Definition replica_handle : DB := opened_replica replica_options [] replica_disk.

Lemma replica_disk_ok : disk_ok replica_disk.
Proof. split; simpl; try done; try constructor; try (unfold version; lia); constructor. Qed.

Lemma replica_on_disk : @on_disk demo_sizing replica_disk [] replica_files.
Proof. split; [by vm_compute|constructor|done]. Qed.

Lemma replica_inv fts : @Inv demo_sizing replica_handle (mkWorld replica_files fts) replica_disk.
Proof.
  apply Inv_opened_replica; [apply replica_disk_ok|done|apply replica_on_disk|constructor|done].
Qed.

Definition demo_batch : list Mutation :=
  [mkMutation MutationPut (str "a") (str "1"); mkMutation MutationDelete (str "b") []].

Definition batched_handle : DB := batched 1 demo_batch replica_handle.

Lemma batched_inv : @Inv demo_sizing batched_handle (mkWorld replica_files []) replica_disk.
Proof. apply Inv_batched; [apply replica_inv|done|done|by vm_compute|by vm_compute]. Qed.

Definition demo_cmds : list Cmd := [RApply demo_batch; RApply [mkMutation MutationPut (str "b") (str "2")]; RCompact].
Definition demo_world : World := mkWorld replica_files [Fine; Fine; Fine; Fine; Crashes 5].

Lemma replica_prefix_witness :
  let V := View replica_disk in let i := AppliedIndex (d_state replica_disk) in
  runs (@replica_session demo_sizing replica_options demo_cmds) demo_world
    (fun db w' => (forall k, (Db.Get db k).2 = foldl apply_batch V (batches demo_cmds) k) /\
       AppliedIndex_ db = i + Z.of_nat (length (batches demo_cmds)) /\ @prefix_files demo_sizing V i (batches demo_cmds) (files w'))
    (fun _ => False)
    (fun w' => @prefix_files demo_sizing V i (batches demo_cmds) (files w')).
Proof.
  refine (@replica_prefix demo_sizing replica_options demo_cmds demo_world replica_disk [] replica_disk_ok eq_refl replica_on_disk
    torn_nil eq_refl _ _ _ _ _).
  - apply crash_onlyb_spec. vm_compute. reflexivity.
  - vm_compute. reflexivity.
  - vm_compute. reflexivity.
  - vm_compute. reflexivity.
  - vm_compute. reflexivity.
Defined.

End Replica.
