(* ===== verification/Snapshot.v ===== *)
(** * db/replica_snapshot.go: snapshots of a replica

    [WriteReplicaSnapshot] streams the live records of a replica, merged from the
    memtable and iterators over the tables through a heap, to a writer;
    [ReplaceReplicaSnapshot] reads such a stream into a new table with the
    streaming writer and publishes it as the whole state. The merge is the loop of
    [Compact], on another queue: the sources are read one record at a time and
    their cursors are part of the state. The writer is a parameter (a function
    that takes the bytes of one Write call or fails), the reader the bytes it
    yields. *)

From S2P Require Import Prelude GoStd Fs Memtable Bloom Wal Sstable Heap Compact Json Manifest Db Recovery Reopen Durability.

Module Snapshot.
Import Sstable Manifest Db Recovery Reopen Durability.

(** ** Sources and the heap *)

Inductive recordSource : Type :=
| sliceRecordSource (records : list Rec) (index : nat)
| iteratorRecordSource (r : Reader) (pos : Z).

Definition source_Next (s : recordSource) : res (option Rec * recordSource) :=
  match s with
  | sliceRecordSource records index =>
      match records !! index with
      | None => Ok (None, s)
      | Some r => Ok (Some r, sliceRecordSource records (S index))
      end
  | iteratorRecordSource r pos =>
      n ← Sstable.Next r pos;
      Ok (match n with
          | None => (None, s)
          | Some (x, pos') => (Some x, iteratorRecordSource r pos')
          end)
  end.

Record snapshotHeapEntry : Type := mkSE { se_record : Rec; se_source : nat }.

#[global] Instance se_inhabited : Inhabited snapshotHeapEntry := populate (mkSE zeroRec 0).

Definition se_less : snapshotHeapEntry -> snapshotHeapEntry -> bool := stream_less se_record.

Definition queue : Type := list recordSource * list snapshotHeapEntry.

(** The loop that pushes the first record of every source. *)
Fixpoint seed_sources (todo srcs : list recordSource) (h : list snapshotHeapEntry) : res queue :=
  match todo with
  | [] => Ok (srcs, h)
  | s :: rest =>
      n ← source_Next s;
      seed_sources rest (srcs ++ [n.2])
        (match n.1 with Some r => Heap.Push se_less h (mkSE r (length srcs)) | None => h end)
  end.

(** The advance closure. *)
Definition advance (srcs : list recordSource) (h : list snapshotHeapEntry) (source : nat) : res queue :=
  match srcs !! source with
  | None => Panic
  | Some s =>
      n ← source_Next s;
      Ok (<[source := n.2]> srcs, match n.1 with Some r => Heap.Push se_less h (mkSE r source) | None => h end)
  end.

Definition pop_queue (q : queue) : res (Rec * queue) :=
  match Heap.Pop se_less q.2 with
  | None => Panic
  | Some (e, h) => q' ← advance q.1 h (se_source e); Ok (se_record e, q')
  end.

Definition source_bound (s : recordSource) : nat :=
  match s with
  | sliceRecordSource records _ => length records
  | iteratorRecordSource r _ => length (r_content r)
  end.

Definition state_sources (db : DB) : list recordSource :=
  sliceRecordSource (MemTable.SortedEntries (mem db)) 0 :: ((fun r => iteratorRecordSource r 0) <$> readers db).

(** ** What the sources still hold *)

Fixpoint iter_rest (fuel : nat) (r : Reader) (pos : Z) : list Rec :=
  match fuel with
  | O => []
  | S fuel' => match Sstable.Next r pos with Ok (Some (x, pos')) => x :: iter_rest fuel' r pos' | _ => [] end
  end.

Definition source_rest (s : recordSource) : list Rec :=
  match s with
  | sliceRecordSource records index => drop index records
  | iteratorRecordSource r pos => iter_rest (source_bound s) r pos
  end.

Definition source_ok (s : recordSource) : Prop :=
  match s with
  | sliceRecordSource records _ => key_sorted Key records
  | iteratorRecordSource r pos => exists l1 l2, reads r (l1 ++ l2) /\ pos = Z.of_nat (length (data l1))
  end.

Lemma iter_rest_reads fuel r l1 l2 :
  reads r (l1 ++ l2) -> (length l2 <= fuel)%nat -> iter_rest fuel r (Z.of_nat (length (data l1))) = l2.
Proof.
  revert l1 l2. induction fuel as [|fuel IH]; intros l1 l2 Hr Hf; [by destruct l2; [|simpl in Hf; lia]|].
  cbn [iter_rest]. rewrite (reads_Next r l1 l2 Hr). destruct l2 as [|x l2]; [done|]. f_equal.
  apply IH; [by rewrite <- app_assoc|simpl in Hf; lia].
Qed.

Lemma source_rest_iter r l1 l2 :
  reads r (l1 ++ l2) -> source_rest (iteratorRecordSource r (Z.of_nat (length (data l1)))) = l2.
Proof.
  intros Hr. apply iter_rest_reads; [done|]. pose proof (reads_bound r _ Hr) as Hb. rewrite length_app in Hb. simpl. lia.
Qed.

Lemma source_sorted s : source_ok s -> key_sorted Key (source_rest s).
Proof.
  destruct s as [l i|r pos]; simpl.
  - intros Hs. rewrite <- (take_drop i l) in Hs. by apply key_sorted_app in Hs as (_ & ? & _).
  - intros (l1 & l2 & Hr & ->). change (key_sorted Key (source_rest (iteratorRecordSource r (Z.of_nat (length (data l1)))))).
    rewrite (source_rest_iter r l1 l2 Hr). pose proof (rd_sorted r _ Hr) as Hs. by apply key_sorted_app in Hs as (_ & ? & _).
Qed.

(** Next yields the records in order. *)
Lemma source_Next_spec s :
  source_ok s -> exists s', source_Next s = Ok (head (source_rest s), s') /\ source_ok s' /\ source_rest s' = tail (source_rest s).
Proof.
  destruct s as [l i|r pos]; intros Hs.
  - simpl. destruct (l !! i) as [x|] eqn:E.
    + exists (sliceRecordSource l (S i)). rewrite (drop_S l x i E). done.
    + exists (sliceRecordSource l i). simpl. rewrite drop_ge by (by apply lookup_ge_None). done.
  - destruct Hs as (l1 & l2 & Hr & ->). rewrite (source_rest_iter r l1 l2 Hr). cbn [source_Next].
    rewrite (reads_Next r l1 l2 Hr), bind_ok. destruct l2 as [|x l2].
    + eexists. split; [done|]. rewrite (source_rest_iter r l1 [] Hr). split; [|done]. by exists l1, [].
    + assert (reads r ((l1 ++ [x]) ++ l2)) as Hr' by (by rewrite <- app_assoc).
      eexists. split; [done|]. rewrite (source_rest_iter r (l1 ++ [x]) l2 Hr'). split; [|done]. by exists (l1 ++ [x]), l2.
Qed.

(** ** The queue keeps the promises of the merge loop *)

(** An entry stands for its record and what its source still holds. *)
Definition se_stream (srcs : list recordSource) (e : snapshotHeapEntry) : list Rec :=
  se_record e :: match srcs !! se_source e with Some s => source_rest s | None => [] end.

Record queue_inv (q : queue) : Prop := mkQueueInv {
  qi_sources : Forall source_ok q.1;
  qi_nodup : NoDup (se_source <$> q.2);
  qi_range : forall e, e ∈ q.2 -> (se_source e < length q.1)%nat;
  qi_heap : heap_ok se_record (se_stream q.1) q.2
}.

Definition queue_pool (q : queue) : list Rec := streams (se_stream q.1) q.2.

(** Streams that agree on the entries give the same heap. *)
Lemma heap_ok_ext {E : Type} `{!Inhabited E} (record : E -> Rec) (st st' : E -> list Rec) h :
  (forall e, e ∈ h -> st' e = st e) -> heap_ok record st h -> heap_ok record st' h /\ streams st' h = streams st h.
Proof.
  intros He [Ho Hok]. split; [split; [done|]|].
  - intros e Hin. unfold stream_ok. rewrite He by done. by apply Hok.
  - unfold streams. f_equal. apply list_fmap_ext. intros i e Hi. apply He. by eapply list_elem_of_lookup_2.
Qed.

(** A source that changes outside the heap is pushed with its next record, if any. *)
Lemma push_next srcs h j s s' :
  Forall source_ok srcs -> NoDup (se_source <$> h) -> (forall e, e ∈ h -> (se_source e < length srcs)%nat) ->
  heap_ok se_record (se_stream srcs) h -> srcs !! j = Some s' -> j ∉ se_source <$> h ->
  source_ok s -> source_rest s' = tail (source_rest s) ->
  let h' := match head (source_rest s) with Some r => Heap.Push se_less h (mkSE r j) | None => h end in
  queue_inv (srcs, h') /\ queue_pool (srcs, h') ≡ₚ source_rest s ++ streams (se_stream srcs) h.
Proof.
  intros HF Hnd Hrg Hh Hj Hnj Hs Ht h'. pose proof (source_sorted s Hs) as Hsrt.
  destruct (source_rest s) as [|r rest] eqn:Er; [by split|]. simpl in Ht, h'.
  assert (se_stream srcs (mkSE r j) = r :: rest) as Est by (unfold se_stream; simpl; by rewrite Hj, Ht).
  assert (stream_ok se_record (se_stream srcs) (mkSE r j)) as Hok by (unfold stream_ok; by rewrite Est).
  destruct (heap_push se_record (se_stream srcs) h (mkSE r j) Hh Hok) as [Hh' Hp'].
  pose proof (Heap.Push_Permutation se_less (stream_less_asym se_record) (stream_le_trans se_record) h (mkSE r j) (proj1 Hh)) as Hp.
  assert (forall e, e ∈ h' <-> e = mkSE r j \/ e ∈ h) as Hin.
  { intros e. unfold h'. rewrite Hp. apply elem_of_cons. }
  split; [split; simpl|].
  - done.
  - unfold h'. rewrite Hp. rewrite fmap_cons. by constructor.
  - intros e [->|He]%Hin; [by apply lookup_lt_Some in Hj|by apply Hrg].
  - exact Hh'.
  - unfold queue_pool. simpl. unfold h'. fold se_less in Hp'. rewrite Hp', Est. done.
Qed.

Lemma pop_queue_law q :
  queue_inv q -> queue_pool q <> [] ->
  exists r q', pop_queue q = Ok (r, q') /\ queue_inv q' /\ queue_pool q ≡ₚ r :: queue_pool q' /\
    forall r', r' ∈ queue_pool q -> before r r'.
Proof.
  destruct q as [srcs h]. intros [HF Hnd Hrg Hh] Hne. simpl in *. unfold queue_pool in *. simpl in Hne |- *.
  destruct (Heap.Pop_spec se_less (stream_less_asym se_record) (stream_le_trans se_record) h (proj1 Hh)) as (e0 & h0 & Hpop0 & Hp0 & _);
    [by intros ->|].
  destruct (heap_pop se_record (se_stream srcs) h Hh Hne) as (e & h1 & Hpop & He & Hh1 & Hp & Hmin & Hsub).
  fold se_less in Hpop. assert (e0 = e /\ h0 = h1) as [-> ->] by (split; congruence).
  unfold pop_queue. simpl. rewrite Hpop. unfold advance.
  destruct (srcs !! se_source e) as [s|] eqn:Es; [|apply lookup_ge_None in Es; specialize (Hrg e He); lia].
  assert (source_ok s) as Hs by (rewrite Forall_forall in HF; apply HF; by eapply list_elem_of_lookup_2).
  destruct (source_Next_spec s Hs) as (s' & -> & Hs' & Ht). rewrite bind_ok. cbn [fst snd]. rewrite bind_ok.
  rewrite Hp0, fmap_cons in Hnd. apply NoDup_cons in Hnd as [Hnj Hnd].
  set (srcs' := <[se_source e := s']> srcs).
  assert (forall x, x ∈ h1 -> se_stream srcs' x = se_stream srcs x) as Hext.
  { intros x Hx. unfold se_stream, srcs'. rewrite list_lookup_insert_ne; [done|]. intros E. apply Hnj. rewrite E.
    apply list_elem_of_fmap. eauto. }
  destruct (heap_ok_ext se_record _ _ h1 Hext Hh1) as [Hh1' Est1].
  assert (srcs' !! se_source e = Some s') as Hj by (apply list_lookup_insert_eq; by eapply lookup_lt_Some).
  assert (Forall source_ok srcs') as HF' by (by apply Forall_insert).
  destruct (push_next srcs' h1 (se_source e) s s') as [Hq Hpool]; try done.
  { intros x Hx. unfold srcs'. rewrite length_insert. by apply Hrg, Hsub. }
  eexists _, _. split; [done|]. split; [exact Hq|]. split; [|done].
  unfold queue_pool in Hpool. rewrite Est1 in Hpool. rewrite Hp. unfold se_stream at 1. rewrite Es. simpl. by rewrite <- Hpool.
Qed.

Lemma queue_peek_law q :
  queue_inv q ->
  match se_record <$> head q.2 with
  | None => queue_pool q = []
  | Some r => r ∈ queue_pool q /\ forall r', r' ∈ queue_pool q -> before r r'
  end.
Proof.
  intros Hq. pose proof (heap_peek se_record (se_stream q.1) q.2 (qi_heap q Hq)) as Hp. unfold queue_pool.
  by destruct (head q.2).
Qed.

#[global] Instance snapshot_queue : RecordQueue queue := {
  q_peek q := se_record <$> head q.2;
  q_pop := pop_queue;
  q_pool := queue_pool;
  q_inv := queue_inv;
  q_peek_law := queue_peek_law;
  q_pop_law := pop_queue_law
}.

Lemma seed_sources_spec todo srcs h :
  Forall source_ok todo -> queue_inv (srcs, h) ->
  exists q, seed_sources todo srcs h = Ok q /\ queue_inv q /\
    queue_pool q ≡ₚ queue_pool (srcs, h) ++ concat (source_rest <$> todo).
Proof.
  revert srcs h. induction todo as [|s todo IH]; intros srcs h HF Hq.
  { exists (srcs, h). simpl. by rewrite app_nil_r. }
  inv HF. cbn [seed_sources]. destruct (source_Next_spec s) as (s' & -> & Hs' & Ht); [done|]. rewrite bind_ok. cbn [fst snd].
  destruct Hq as [HFs Hnd Hrg Hh]. simpl in *.
  assert (forall x, x ∈ h -> se_stream (srcs ++ [s']) x = se_stream srcs x) as Hext.
  { intros x Hx. unfold se_stream. by rewrite lookup_app_l by (by apply Hrg). }
  destruct (heap_ok_ext se_record _ _ h Hext Hh) as [Hh' Est].
  destruct (push_next (srcs ++ [s']) h (length srcs) s s') as [Hq' Hpool]; try done.
  - apply Forall_app. split; [done|]. by apply Forall_singleton.
  - intros x Hx. rewrite length_app. specialize (Hrg x Hx). lia.
  - by apply list_lookup_middle.
  - intros (x & E & Hx)%list_elem_of_fmap. specialize (Hrg x Hx). lia.
  - destruct (IH _ _ H2 Hq') as (q & Eq & Hqi & Hqp). exists q. split; [done|]. split; [done|].
    rewrite Hqp, Hpool. unfold queue_pool. simpl. rewrite Est.
    rewrite (Permutation_app_comm (source_rest s)), <- app_assoc. done.
Qed.

(** ** Writing a snapshot *)

(** The loop over the heap, visiting the live winners. A turn takes at least one
    record, and the sources have no more records than their bound. *)
Definition visitReplicaStateLocked {A} (db : DB) (visit : A -> Rec -> res A) (acc : A) : res A :=
  q ← seed_sources (state_sources db) [] [];
  merge (fun r => RType r =? RecordTypePut) visit (sum_list (source_bound <$> state_sources db)) q acc.

Definition replicaSnapshotMagic : bytes := str "LSMSNAP" ++ [x01].
Definition maxReplicaSnapshotField : Z := Z.shiftl 64 20.

Section writing.
Context {W : Type} (write : W -> bytes -> res W).

Definition write_snapshot_record (out : W) (r : Rec) : res W :=
  if (2 ^ 32 - 1 <? Z.of_nat (length (Key r))) || (2 ^ 32 - 1 <? Z.of_nat (length (Value r)))
  then Err "snapshot record is too large" else
  out ← write out (PutUint32 (Z.of_nat (length (Key r))));
  out ← write out (PutUint32 (Z.of_nat (length (Value r))));
  out ← write out (Key r);
  write out (Value r).

Definition WriteReplicaSnapshot (db : DB) (out : W) : res (W * Z) :=
  if negb (replica db) then Err "replica state export requires replica durability mode" else
  if appliedIndex db =? 0 then Err "cannot snapshot an unapplied replica" else
  count ← visitReplicaStateLocked db (fun n _ => Ok (u64 (n + 1))) 0;
  out ← write out replicaSnapshotMagic;
  out ← write out (PutUint64 count);
  out ← visitReplicaStateLocked db write_snapshot_record out;
  Ok (out, appliedIndex db).
End writing.

(** ** Replacing the state by a snapshot *)

(** [io.ReadFull] of n bytes from what the reader still yields. *)
Definition read_full (n : nat) (rest : bytes) : option (bytes * bytes) :=
  if (length rest <? n)%nat then None else Some (take n rest, drop n rest).

Section reading.
Context {BS : BloomSizing}.

(** The fields of the next record, checked; the bytes left. *)
Definition read_snapshot_record (rest previous : bytes) : res (bytes * bytes * bytes) :=
  match read_full 4 rest with
  | None => Err "decode snapshot key length"
  | Some (kl, rest) =>
      match read_full 4 rest with
      | None => Err "decode snapshot value length"
      | Some (vl, rest) =>
          let keyLen := get_be kl in
          let valueLen := get_be vl in
          if (keyLen =? 0) || (maxReplicaSnapshotField <? keyLen) || (maxReplicaSnapshotField <? valueLen)
          then Err "invalid state snapshot record size" else
          match read_full (Z.to_nat keyLen) rest with
          | None => Err "truncated state snapshot record"
          | Some (key, rest) =>
              match read_full (Z.to_nat valueLen) rest with
              | None => Err "truncated state snapshot record"
              | Some (value, rest) =>
                  if key_leb key previous then Err "snapshot keys must be non-empty and strictly sorted"
                  else Ok (key, value, rest)
              end
          end
      end
  end.

(** [for i := 0; i < count; i++]: every turn reads at least nine bytes, so the
    bytes left bound the turns. *)
Fixpoint copy_records (fuel : nat) (index i count : Z) (rest previous : bytes) : M (StreamWriter * World) bytes :=
  match fuel with
  | O => raise "out of fuel"
  | S fuel' =>
      if count <=? i then mret rest else
      kvr ← of_res (read_snapshot_record rest previous);
      let '(key, value, rest') := kvr in
      Add_ (mkRec key value index RecordTypePut) ;;
      copy_records fuel' index (i + 1) count rest' key
  end.

(** [io.ReadFull] of one more byte must report EOF. *)
Definition check_end {S} (rest : bytes) : M S unit :=
  match rest with [] => mret tt | _ => raise "state snapshot has trailing data" end.

(** A computation on a stream writer of its own. *)
Definition on_stream {A} (sw : StreamWriter) (m : M (StreamWriter * World) A) : M World A := fun w =>
  let '(r, (_, w')) := m (sw, w) in (r, w').

(** The table of a snapshot with records: created, filled and finished, or
    aborted. *)
Definition stream_snapshot (path : bytes) (index count : Z) (rest : bytes) : M World unit :=
  sw ← NewStreamWriter path count;
  on_stream sw (catch (rest' ← copy_records (S (length rest)) index 0 count rest []; check_end rest' ;; Finish)
                  (fun e => Abort ;; raise e)).

(** The assignments after the manifest was published, then per old reader: close
    it and remove its file. *)
Definition install_snapshot (index next : Z) (state : State) (newReaders : list Reader) (newPath : bytes) : M St unit :=
  db ← get_db;
  put (set_readers newReaders) ;;
  put (set_mem (MemTable.NewWithSeq (u64 (index + 1)))) ;;
  put (set_nextSST next) ;;
  put (set_manifest state) ;;
  put (set_applied index) ;;
  put (set_durable index) ;;
  mfold (fun r => ignore (fs (Sstable.Close r)) ;;
                  if key_eqb (Sstable.Path r) newPath then mret tt else ignore (fs (os_Remove (Sstable.Path r)))) (readers db).

Definition ReplaceReplicaSnapshot (index size : Z) (content : bytes) : M St unit :=
  db ← get_db;
  if negb (replica db) then raise "replica state replacement requires replica durability mode" else
  if index =? 0 then raise "snapshot index must be positive" else
  if index <? appliedIndex db then raise "snapshot index is older than applied index" else
  if size <? 8 + 8 then raise "state snapshot is truncated" else
  match read_full 8 content with
  | None => raise "invalid state snapshot magic"
  | Some (magic, rest) =>
      if negb (key_eqb magic replicaSnapshotMagic) then raise "invalid state snapshot magic" else
      match read_full 8 rest with
      | None => raise "decode snapshot count"
      | Some (c, rest) =>
          let count := get_be c in
          if ((size - 8 - 8) / 8 <? count) || (2 ^ 63 - 1 <? count) || (2 ^ 63 - 1 <? count)
          then raise "invalid state snapshot record count" else
          let next := u64 (nextSST db + 1) in
          let newPath := if 0 <? count then sst_name next else [] in
          (if 0 <? count then fs (stream_snapshot newPath index count rest) else check_end rest) ;;
          newReaders ← (if 0 <? count then
                          r ← catch (fs (Sstable.Open newPath)) (fun e => ignore (fs (os_Remove newPath)) ;; raise e);
                          mret [r]
                        else mret []);
          let m := manifest db in
          let state := mkState (Version m) (if 0 <? count then [newPath] else []) next index (LastSeq m) in
          catch (fs (Store state))
            (fun e => mfold (fun r => ignore (fs (Sstable.Close r))) newReaders ;;
                      (if 0 <? count then ignore (fs (os_Remove newPath)) else mret tt) ;; raise e) ;;
          install_snapshot index next state newReaders newPath
      end
  end.
End reading.

(** ** The merged stream is the in-memory export *)

Lemma length_source_rest s : source_ok s -> (length (source_rest s) <= source_bound s)%nat.
Proof.
  destruct s as [l i|r pos]; simpl; [rewrite length_drop; lia|]. intros (l1 & l2 & Hr & ->).
  pose proof (reads_bound r _ Hr) as Hb. rewrite length_app in Hb.
  rewrite (iter_rest_reads _ r l1 l2) by (done || lia). lia.
Qed.

Lemma length_sources l :
  Forall source_ok l -> (length (concat (source_rest <$> l)) <= sum_list (source_bound <$> l))%nat.
Proof.
  induction 1 as [|s l Hs _ IH]; [done|]. rewrite !fmap_cons. cbn [concat sum_list sum_list_with foldr]. rewrite length_app.
  apply length_source_rest in Hs. unfold sum_list in *. simpl in *. lia.
Qed.

Section export.
Context {BS : BloomSizing} (db : DB) (w : World) (D : Disk) (Hi : Inv db w D).

Definition pool : list Rec := MemTable.SortedEntries (mem db) ++ concat (tables D).

Lemma pool_unique : seq_unique pool.
Proof.
  pose proof (inv_ok _ _ _ Hi) as Hd. apply (layered_unique (MemTable.SortedEntries (mem db) :: tables D)).
  - unfold layered. constructor; [apply Hd|]. apply Forall_forall. intros l Hl r r' Hr Hr'.
    eapply mem_above; [done|done|]. apply list_elem_of_In, in_concat. exists l. by rewrite <- !list_elem_of_In.
  - constructor; [by apply MemTable.SortedEntries_sorted, Hi|]. eapply Compact.Forall2_reads_sorted. by eapply inv_reads.
Qed.

Lemma state_sources_ok : Forall source_ok (state_sources db) /\ concat (source_rest <$> state_sources db) = pool.
Proof.
  unfold state_sources, pool. pose proof (inv_reads _ _ _ Hi) as Hr. split.
  - constructor; [by apply MemTable.SortedEntries_sorted, Hi|]. apply Forall_fmap.
    induction Hr as [|r l rs ls Hr _ IH]; constructor; [by exists [], l|done].
  - rewrite fmap_cons. cbn [concat source_rest]. rewrite drop_0. f_equal. rewrite <- list_fmap_compose.
    induction Hr as [|r l rs ls Hr _ IH]; [done|]. rewrite fmap_cons. cbn [concat]. rewrite IH. f_equal.
    exact (source_rest_iter r [] l Hr).
Qed.

(** Every pass over the state visits the same records: the live ones among the
    newest of each key, in key order. *)
Lemma visit_spec :
  exists win, winners pool win /\ forall A (visit : A -> Rec -> res A) acc,
    visitReplicaStateLocked db visit acc = foldM visit acc (filter (fun r => (RType r =? RecordTypePut) = true) win).
Proof.
  destruct state_sources_ok as [Hok Ec]. pose proof (length_sources _ Hok) as Hlen. rewrite Ec in Hlen.
  destruct (seed_sources_spec (state_sources db) [] []) as (q & Eq & Hq & Hp); [done| |].
  { split; simpl; [constructor|constructor|intros e []%not_elem_of_nil|].
    split; [intros k Hk; simpl in Hk; lia|intros e []%not_elem_of_nil]. }
  rewrite Ec in Hp. simpl in Hp.
  assert (forall A (visit : A -> Rec -> res A) acc, exists win, winners pool win /\
    visitReplicaStateLocked db visit acc = foldM visit acc (filter (fun r => (RType r =? RecordTypePut) = true) win)) as Hv.
  { intros A visit acc. unfold visitReplicaStateLocked. rewrite Eq, bind_ok.
    destruct (@merge_spec queue snapshot_queue A (fun r => RType r =? RecordTypePut) visit (sum_list (source_bound <$> state_sources db)) q acc Hq)
      as (win & Hw & Hm).
    - change (q_pool q) with (queue_pool q). by rewrite Hp.
    - exists win. split; [by eapply winners_Permutation|done]. }
  destruct (Hv unit (fun _ _ => Ok tt) tt) as (win & Hw & _). exists win. split; [done|]. intros A visit acc.
  destruct (Hv A visit acc) as (win' & Hw' & ->). by rewrite (winners_unique pool win' win pool_unique).
Qed.

Lemma elem_of_winners win r : winners pool win -> r ∈ win <-> newest (Key r) pool = Some r.
Proof.
  intros Hw. rewrite <- (winners_newest pool win (Key r) Hw pool_unique), newest_sorted by apply Hw. tauto.
Qed.

Lemma pool_types r : r ∈ pool -> type_ok r /\ rec_ok r.
Proof.
  intros [Hr|Hr]%elem_of_app.
  - apply MemTable.elem_of_SortedEntries in Hr; [|apply Hi]. by destruct (inv_mem_ok _ _ _ Hi _ _ Hr) as (? & ? & _).
  - pose proof (dk_types _ (inv_ok _ _ _ Hi)) as HF. rewrite Forall_forall in HF.
    pose proof (Compact.Forall2_reads_ok _ _ (inv_reads _ _ _ Hi)) as HF'. rewrite Forall_forall in HF'. auto.
Qed.

(** The pairs of the records visited are the pairs of the map. *)
Lemma elem_of_live win k v :
  winners pool win ->
  mkKV k v ∈ ((fun r => mkKV (Key r) (Value r)) <$> filter (fun r => (RType r =? RecordTypePut) = true) win)
  <-> Mview db D k = Some v.
Proof.
  intros Hw. unfold Mview. change (MemTable.SortedEntries (mem db) ++ concat (tables D)) with pool. rewrite list_elem_of_fmap. split.
  - intros (r & [= -> ->] & [Ht Hr]%list_elem_of_filter). apply Z.eqb_eq in Ht. apply (elem_of_winners win r Hw) in Hr.
    rewrite Hr. simpl. apply newest_Some in Hr as (Hin & _). apply live_put; [by apply pool_types|done].
  - destruct (newest k pool) as [r|] eqn:E; [|done]. simpl. intros Hl. pose proof E as E2.
    apply newest_Some in E2 as (Hin & Hk & _). apply live_put in Hl as [Ht <-]; [|by apply pool_types]. subst k.
    exists r. split; [done|]. apply list_elem_of_filter. split; [by apply Z.eqb_eq|]. by apply elem_of_winners.
Qed.

Lemma export_pairs :
  exists win, winners pool win /\
    live_pairs (foldl keep_newest ∅ pool) = (fun r => mkKV (Key r) (Value r)) <$> filter (fun r => (RType r =? RecordTypePut) = true) win /\
    forall A (visit : A -> Rec -> res A) acc,
      visitReplicaStateLocked db visit acc = foldM visit acc (filter (fun r => (RType r =? RecordTypePut) = true) win).
Proof.
  destruct visit_spec as (win & Hw & Hv). exists win. split_and!; [done| |done].
  destruct (live_pairs_spec (foldl keep_newest ∅ pool)) as [Hs Hp].
  apply (key_sorted_ext kv_key).
  - unfold key_sorted. by apply sorted_fmap_inv.
  - apply (key_sorted_fmap Key); [done|]. apply key_sorted_filter, Hw.
  - intros [k v]. rewrite Hp, (elem_of_live win k v Hw). unfold Mview.
    rewrite fold_keep_newest_lookup, lookup_empty. fold (newest k pool). change (MemTable.SortedEntries (mem db) ++ concat (tables D)) with pool.
    split.
    + intros (r & Hr & Ht & <-). rewrite Hr. simpl. apply newest_Some in Hr as (Hin & _). apply live_put; [by apply pool_types|done].
    + destruct (newest k pool) as [r|] eqn:E; [|done]. simpl. intros Hl. exists r. split; [done|].
      apply newest_Some in E as (Hin & _). by apply live_put in Hl; [|apply pool_types].
Qed.

End export.

(** ** The stream *)

Definition snapshot_record_bytes (p : KVPair) : bytes :=
  PutUint32 (Z.of_nat (length (kv_key p))) ++ PutUint32 (Z.of_nat (length (kv_value p))) ++ kv_key p ++ kv_value p.

Definition snapshot_bytes (pairs : list KVPair) : bytes :=
  replicaSnapshotMagic ++ PutUint64 (Z.of_nat (length pairs)) ++ concat (snapshot_record_bytes <$> pairs).

(** A writer that takes everything. *)
Definition append_writer (out b : bytes) : res bytes := Ok (out ++ b).

Lemma append_writer_ok out b : append_writer out b = Ok (out ++ b).
Proof. done. Qed.

Lemma foldM_count l n :
  0 <= n -> n + Z.of_nat (length l) < 2 ^ 64 -> foldM (fun n (_ : Rec) => Ok (u64 (n + 1))) n l = Ok (n + Z.of_nat (length l)).
Proof.
  revert n. induction l as [|r l IH]; intros n H0 Hn; cbn [foldM length]; [by rewrite Z.add_0_r|].
  cbn [length] in Hn. rewrite bind_ok, u64_small, IH by lia. f_equal. lia.
Qed.

Lemma write_snapshot_record_ok out r :
  rec_ok r -> write_snapshot_record append_writer out r = Ok (out ++ snapshot_record_bytes (mkKV (Key r) (Value r))).
Proof.
  intros [Hk Hv _ _]. unfold write_snapshot_record. rewrite (proj2 (Z.ltb_ge _ _)), (proj2 (Z.ltb_ge _ _)) by lia. cbn [orb].
  unfold append_writer. rewrite !bind_ok. f_equal. unfold snapshot_record_bytes. cbn [kv_key kv_value]. by rewrite <- !app_assoc.
Qed.

Lemma foldM_records l out :
  Forall rec_ok l ->
  foldM (write_snapshot_record append_writer) out l =
  Ok (out ++ concat (snapshot_record_bytes <$> ((fun r => mkKV (Key r) (Value r)) <$> l))).
Proof.
  intros HF. revert out. induction HF as [|r l Hr _ IH]; intros out; cbn [foldM]; [by rewrite app_nil_r|].
  by rewrite !fmap_cons, write_snapshot_record_ok, bind_ok, IH, <- app_assoc by done.
Qed.

(** C33: The stream WriteReplicaSnapshot merges from the memtable and the table
    iterators through the heap is the encoding of the pairs ExportReplicaState
    collects in memory, and these are, in key order, exactly the pairs of the map
    the replica stands for. *)
Theorem snapshot_stream_is_export `{BloomSizing} db w D :
  Inv db w D -> replica db = true -> appliedIndex db <> 0 -> weight db D < 2 ^ 50 ->
  exists pairs, ExportReplicaState db = Ok pairs /\
    WriteReplicaSnapshot append_writer db [] = Ok (snapshot_bytes pairs, appliedIndex db) /\
    key_sorted kv_key pairs /\ forall k v, mkKV k v ∈ pairs <-> Mview db D k = Some v.
Proof.
  intros Hi Hr Ha Hw. destruct (export_pairs db w D Hi) as (win & Hwin & Hexp & Hv).
  set (live_win := filter (fun r => (RType r =? RecordTypePut) = true) win) in *. fold (pool db D) in *.
  assert (live_win ⊆+ pool db D) as Hsub.
  { etrans; [apply sublist_submseteq, sublist_filter|by apply winners_submseteq]. }
  assert (Z.of_nat (length live_win) < 2 ^ 64) as Hlen.
  { apply submseteq_length in Hsub. pose proof (length_data_ge (pool db D)). unfold weight in Hw. fold (pool db D) in Hw. lia. }
  assert (Forall rec_ok live_win) as Hok.
  { apply Forall_forall. intros r Hin. eapply elem_of_submseteq in Hin; [|exact Hsub]. by apply (pool_types db w D Hi). }
  eexists. split_and!.
  - unfold ExportReplicaState. rewrite Hr. cbn [negb]. rewrite (Compact.load_all _ _ (inv_reads _ _ _ Hi)), bind_ok.
    change (MemTable.SortedEntries (mem db) ++ concat (tables D)) with (pool db D). by rewrite Hexp.
  - unfold WriteReplicaSnapshot. rewrite Hr, (proj2 (Z.eqb_neq _ _)) by done. cbn [negb]. rewrite Hv, foldM_count by lia.
    rewrite bind_ok, append_writer_ok, bind_ok, append_writer_ok, bind_ok, Hv, foldM_records, bind_ok by done.
    unfold snapshot_bytes. rewrite length_fmap, app_nil_l, Z.add_0_l, <- !app_assoc. done.
  - apply (key_sorted_fmap Key); [done|]. apply key_sorted_filter, Hwin.
  - intros k v. by apply (elem_of_live db w D Hi).
Qed.

End Snapshot.
