(* ===== verification/Transfer.v ===== *)
(** * Installing a snapshot

    [ReplaceReplicaState] and its streaming form [ReplaceReplicaSnapshot] replace
    the whole state of a replica by the pairs of a snapshot and its index: at
    every crash the files are those of the old state or of the new one. *)

From S2P Require Import Prelude GoStd Fs Memtable Bloom Wal Sstable Heap Compact Json Manifest Db Recovery Reopen Durability Replica Snapshot.

Module Transfer.
Import Sstable Manifest Db Recovery Reopen Durability Replica Snapshot.

(** The map of a list of pairs. *)
Fixpoint pairs_map (pairs : list KVPair) (k : bytes) : option bytes :=
  match pairs with
  | [] => None
  | p :: rest => if key_eqb (kv_key p) k then Some (kv_value p) else pairs_map rest k
  end.

Definition pair_record (index : Z) (p : KVPair) : Rec := mkRec (kv_key p) (kv_value p) index RecordTypePut.

(** Pairs a snapshot can carry: non-empty keys in strict order, fields up to 64 MiB. *)
Record pairs_ok (pairs : list KVPair) : Prop := mkPairsOk {
  po_sorted : key_sorted kv_key pairs;
  po_keys : Forall (fun p => kv_key p <> []) pairs;
  po_sizes : Forall (fun p => Z.of_nat (length (kv_key p)) <= maxReplicaSnapshotField /\
                              Z.of_nat (length (kv_value p)) <= maxReplicaSnapshotField) pairs;
  po_bytes : Z.of_nat (length (data (pair_record 0 <$> pairs))) < 2 ^ 50
}.

Lemma records_sorted index pairs : key_sorted kv_key pairs -> key_sorted Key (pair_record index <$> pairs).
Proof. by apply key_sorted_fmap. Qed.

Lemma newest_pairs index pairs k :
  key_sorted kv_key pairs -> (newest k (pair_record index <$> pairs) ≫= live) = pairs_map pairs k.
Proof.
  intros Hs. pose proof (records_sorted index pairs Hs) as Hr.
  induction pairs as [|p pairs IH]; [done|]. rewrite fmap_cons in *. cbn [pairs_map].
  inv Hs. inv Hr. destruct (key_eqb (kv_key p) k) eqn:E; key_bools.
  - assert (newest k (pair_record index p :: (pair_record index <$> pairs)) = Some (pair_record index p)) as ->; [|done].
    apply newest_sorted; [by constructor|]. split; [left|done].
  - rewrite <- IH by done. unfold newest. cbn [newest_from foldl]. change (Key (pair_record index p)) with (kv_key p).
    destruct (key_eqb (kv_key p) k) eqn:E2; [by apply key_eqb_eq in E2|done].
Qed.

Lemma length_records index pairs :
  length (data (pair_record index <$> pairs)) = length (data (pair_record 0 <$> pairs)).
Proof.
  induction pairs as [|p pairs IH]; [done|]. rewrite !fmap_cons, !data_cons, !length_app, IH. f_equal.
Qed.

Lemma records_fit index pairs : pairs_ok pairs -> 0 <= index < 2 ^ 64 -> pairs <> [] -> fits (pair_record index <$> pairs).
Proof.
  intros [Hs Hk Hz Hb] Hi Hne. change maxReplicaSnapshotField with 67108864 in Hz. split.
  - by destruct pairs.
  - by apply records_sorted.
  - apply Forall_fmap. eapply Forall_impl; [exact Hz|]. intros p [H1 H2]. split; simpl; unfold RecordTypePut; lia.
  - by rewrite length_records.
Qed.

(** No call fails; a crash may come at any point. *)
#[local] Existing Instance crashes.
#[local] Canonical Structure crashes.

Section files.
Context {BS : BloomSizing}.

(** ** The new description *)

Definition replaced (D : Disk) (next index : Z) (pairs : list KVPair) : Disk :=
  mkDisk (mkState 2 (match pairs with [] => [] | _ => [sst_name next] end) next index (LastSeq (d_state D)))
    (match pairs with [] => [] | _ => [(sst_name next, pair_record index <$> pairs)] end) None.

Lemma tables_replaced D next index pairs : concat (tables (replaced D next index pairs)) = pair_record index <$> pairs.
Proof. destruct pairs; [done|]. unfold tables. simpl. by rewrite app_nil_r. Qed.

Lemma replaced_ok D next index pairs :
  disk_ok D -> pairs_ok pairs -> NextSST (d_state D) < next < 2 ^ 63 -> 0 <= index < 2 ^ 64 ->
  disk_ok (replaced D next index pairs).
Proof.
  intros Hd Hp Hn Hi. pose proof (dk_state D Hd) as [].
  split; try (rewrite tables_replaced; apply Forall_fmap, Forall_forall; intros p _).
  - done.
  - split; simpl; lia.
  - by destruct pairs.
  - destruct pairs; [constructor|]. apply Forall_singleton. exists next. simpl. split; [done|lia].
  - destruct pairs; [constructor|]. apply NoDup_singleton.
  - destruct pairs; [constructor|]. apply Forall_singleton. by apply records_fit.
  - by left.
  - destruct pairs; [constructor|]. repeat constructor.
  - unfold d_floor. simpl. lia.
  - constructor.
  - constructor.
  - apply (dk_last D Hd).
  - constructor.
Qed.

Lemma replaced_view D next index pairs k :
  key_sorted kv_key pairs -> View (replaced D next index pairs) k = pairs_map pairs k.
Proof. intros Hs. unfold View. rewrite tables_replaced. by apply newest_pairs. Qed.

(** The handle after the assignments of the two methods. *)
Definition installed (index next : Z) (st : State) (rs : list Reader) (db : DB) : DB :=
  set_durable index (set_applied index (set_manifest st (set_nextSST next
    (set_mem (MemTable.NewWithSeq (u64 (index + 1))) (set_readers rs db))))).

Lemma Inv_installed db w w' D next index pairs rs st :
  Inv db w D -> d_wal D = None -> disk_ok (replaced D next index pairs) -> 0 <= index -> index + 1 < 2 ^ 64 ->
  on_disk (replaced D next index pairs) [] (files w') ->
  Forall2 (fun r t => reads r t.2 /\ r_name r = t.1) rs (d_tables (replaced D next index pairs)) ->
  published st = d_state (replaced D next index pairs) ->
  Inv (installed index next st rs db) w' (replaced D next index pairs).
Proof.
  intros Hi Hm Hd' H0 H1 Ho HF Hst. pose proof (inv_mode _ _ _ Hi) as Hmode. unfold d_replica in Hmode. rewrite Hm in Hmode.
  split; try done.
  - apply (inv_persistent _ _ _ Hi).
  - apply MemTable.wf_NewWithSeq. rewrite u64_small; lia.
  - simpl. rewrite (inv_log _ _ _ Hi), Hm. done.
  - intros _. simpl. split_and!; [done|lia|lia|]. intros k r Hk. by rewrite lookup_empty in Hk.
Qed.

(** ** From the old description to the new one *)

(** The files of the old state or of the snapshot. *)
Definition old_or_snapshot (D : Disk) (pairs : list KVPair) (index : Z) (fs : gmap bytes bytes) : Prop :=
  recoverable true (View D) (AppliedIndex (d_state D)) fs \/ recoverable true (pairs_map pairs) index fs.

(** What the replacement leaves behind when it returns. *)
Definition replaced_by (pairs : list KVPair) (index next : Z) (s : St) : Prop :=
  exists D', Inv s.1 s.2 D' /\ d_wal D' = None /\ (forall k, Mview s.1 D' k = pairs_map pairs k) /\ (forall k, View D' k = pairs_map pairs k) /\
    AppliedIndex (d_state D') = index /\ appliedIndex s.1 = index /\ durableIndex s.1 = index /\ nextSST s.1 = next /\ weight s.1 D' < 2 ^ 50.

Section transfer.
Context (db : DB) (w : World) (D : Disk) (next index : Z) (pairs : list KVPair).
Context (Hi : Inv db w D) (Hm : d_wal D = None) (Hp : pairs_ok pairs) (Hn : NextSST (d_state D) < next < 2 ^ 63).
Context (H0 : 0 < index) (H1 : index + 1 < 2 ^ 64).
Notation D' := (replaced D next index pairs).
Notation J := (old_or_snapshot D pairs index).
Notation newPath := (match pairs with [] => [] | _ => sst_name next end).

Lemma transfer_ok : disk_ok D'.
Proof. apply replaced_ok; [apply Hi|done|done|lia]. Qed.

Lemma transfer_old fs : on_disk D [] fs -> J fs.
Proof.
  intros Ho. left. exists D, []. split_and!; [apply Hi|done|apply torn_nil|done|]. unfold d_replica. by rewrite Hm.
Qed.

Lemma transfer_new fs : on_disk D' [] fs -> J fs.
Proof.
  intros Ho. right. exists D', []. split_and!; [apply transfer_ok|done|apply torn_nil| |done].
  intros k. apply replaced_view, Hp.
Qed.

Lemma newPath_fresh n : n ∈ names D -> n <> newPath.
Proof.
  intros Hin E. pose proof (names_last D n (inv_ok _ _ _ Hi) Hin) as Hl. subst n. destruct pairs; [done|].
  revert Hin. apply fresh_name; [apply Hi|lia].
Qed.

(** Removing an old table does not touch the new description. *)
Lemma transfer_remove n fs : n ∈ names D -> on_disk D' [] fs -> on_disk D' [] (delete n fs).
Proof.
  intros Hin Ho. eapply on_disk_frame; [exact Ho|]. intros m Hm'. apply lookup_delete_ne. intros ->.
  pose proof (names_last D m (inv_ok _ _ _ Hi) Hin) as Hl. destruct Hm' as [->|[->|Hin']]; [done|done|].
  apply (newPath_fresh m Hin). unfold names, replaced in Hin'. simpl in Hin'.
  destruct pairs; [by apply not_elem_of_nil in Hin'|]. by apply list_elem_of_singleton in Hin'.
Qed.

Lemma remove_old_keeps ps db1 w1 :
  crash_only w1 -> on_disk D' [] (files w1) -> Forall (fun p => p ∈ names D) ps ->
  keeps J (mfold (fun p => if key_eqb p newPath then mret tt else ignore (fs (os_Remove p))) ps) (db1, w1)
    (fun _ s => s.1 = db1 /\ on_disk D' [] (files s.2)).
Proof.
  intros Hg Ho HF. revert w1 Hg Ho. induction HF as [|p ps Hin _ IH]; intros w1 Hg Ho.
  { apply keeps_ret; [done|by apply transfer_new|done]. }
  cbn [mfold]. assert (key_eqb p newPath = false) as -> by (apply not_true_iff_false; rewrite key_eqb_eq; by apply newPath_fresh).
  pose proof (transfer_remove p (files w1) Hin Ho) as Ho'.
  apply keeps_bind, keeps_remove; [done|by apply transfer_new|by apply transfer_new|]. cbn [fst snd].
  intros w2 E Hg2 _ _. apply IH; [done|by rewrite E].
Qed.

Lemma close_remove_keeps rs db1 w1 :
  crash_only w1 -> on_disk D' [] (files w1) -> Forall (fun r => Sstable.Path r ∈ names D) rs ->
  keeps J (mfold (fun r => ignore (fs (Sstable.Close r)) ;;
      if key_eqb (Sstable.Path r) newPath then mret tt else ignore (fs (os_Remove (Sstable.Path r)))) rs) (db1, w1)
    (fun _ s => s.1 = db1 /\ on_disk D' [] (files s.2)).
Proof.
  intros Hg Ho HF. revert w1 Hg Ho. induction HF as [|r rs Hin _ IH]; intros w1 Hg Ho.
  { apply keeps_ret; [done|by apply transfer_new|done]. }
  cbn [mfold]. apply keeps_bind, keeps_bind, keeps_ignore_nop; [done|by apply transfer_new|]. cbn [fst snd].
  intros w2 E2 Hg2 _ _. rewrite <- E2 in Ho.
  assert (key_eqb (Sstable.Path r) newPath = false) as -> by (apply not_true_iff_false; rewrite key_eqb_eq; by apply newPath_fresh).
  pose proof (transfer_remove _ (files w2) Hin Ho) as Ho'.
  apply keeps_remove; [done|by apply transfer_new|by apply transfer_new|]. cbn [fst snd].
  intros w3 E Hg3 _ _. apply IH; [done|by rewrite E].
Qed.

Lemma old_paths : Forall (fun r => Sstable.Path r ∈ names D) (readers db).
Proof.
  apply Forall_forall. intros r Hr. rewrite <- (inv_paths _ _ _ Hi). apply list_elem_of_fmap. eauto.
Qed.

(** Opening the new table, if there is one. *)
Lemma transfer_open db1 w1 :
  crash_only w1 -> J (files w1) -> (pairs <> [] -> files w1 !! sst_name next = Some (table_bytes (pair_record index <$> pairs))) ->
  keeps J (match pairs with [] => mret [] | _ => r ← catch (fs (Sstable.Open newPath)) (fun e => ignore (fs (os_Remove newPath)) ;; raise e); mret [r] end)
    (db1, w1) (fun rs s => s.1 = db1 /\ files s.2 = files w1 /\
      Forall2 (fun r t => reads r t.2 /\ r_name r = t.1) rs (d_tables D')).
Proof.
  intros Hg HJ Hf. pose proof (records_fit index pairs Hp) as Hfit. unfold replaced. destruct pairs as [|p l]; [by apply keeps_ret|].
  apply keeps_bind, keeps_catch. eapply keeps_open_table; [done|done|apply Hfit; [lia|done]|by apply Hf|].
  intros r w2 Hg2 E2 Hr Hnm _ HJ2. apply keeps_ret; [done|done|]. split_and!; [done|done|]. constructor; [done|constructor].
Qed.

(** The new table is there and open. *)
Definition table_open (rs : list Reader) (s : St) : Prop :=
  s.1 = db /\ on_disk D [] (files s.2) /\
  (pairs <> [] -> files s.2 !! sst_name next = Some (table_bytes (pair_record index <$> pairs))) /\
  Forall2 (fun r t => reads r t.2 /\ r_name r = t.1) rs (d_tables D').

Lemma transfer_write :
  crash_only w ->
  keeps J (match pairs with
           | [] => mret []
           | _ => fs (Sstable.Write newPath (pair_record index <$> pairs)) ;;
                  r ← catch (fs (Sstable.Open newPath)) (fun e => ignore (fs (os_Remove newPath)) ;; raise e); mret [r]
           end) (db, w) table_open.
Proof.
  intros Hg. pose proof (inv_disk _ _ _ Hi) as Ho. pose proof transfer_old as HJ. pose proof transfer_open as Hopen.
  unfold table_open in *. destruct pairs as [|p l] eqn:E; [by apply keeps_ret; [|apply HJ|]|]. rewrite <- E in *.
  apply keeps_bind. eapply (keeps_table _ D (sst_name next) (pair_record index <$> pairs)); [done|apply Hi|done| | | |done|].
  - apply fresh_name; [apply Hi|lia].
  - apply sst_name_last.
  - apply Write_touches. by rewrite E.
  - intros w1 Hg1 Ho1 E1 _ HJ1. eapply keeps_mono; [apply Hopen; [done|done|]|done|].
    + intros _. by rewrite E1, lookup_insert_eq.
    + intros rs [db2 w2] _ (Edb & E2 & HF). cbn [fst snd] in *. rewrite E2. split_and!; try done.
      intros _. by rewrite E1, lookup_insert_eq.
Qed.

(** The state the methods publish. *)
Lemma transfer_state :
  published (mkState (Version (manifest db)) (match pairs with [] => [] | _ => [newPath] end) next index (LastSeq (manifest db))) = d_state D'.
Proof. unfold published, replaced. simpl. rewrite <- (inv_manifest _ _ _ Hi). by destruct pairs. Qed.

Lemma transfer_post rs w' st :
  on_disk D' [] (files w') -> Forall2 (fun r t => reads r t.2 /\ r_name r = t.1) rs (d_tables D') -> published st = d_state D' ->
  replaced_by pairs index next (installed index next st rs db, w').
Proof.
  intros Ho HF Hst. exists D'.
  assert (Inv (installed index next st rs db) w' D') as Hi' by (eapply Inv_installed; try done; [apply transfer_ok|lia]).
  assert (forall k, View D' k = pairs_map pairs k) as HV by (intros k; apply replaced_view, Hp).
  split_and!; try done. unfold weight. rewrite tables_replaced. cbn [installed set_durable set_applied set_manifest set_nextSST set_mem mem].
  change (MemTable.SortedEntries (MemTable.NewWithSeq _)) with (@nil Rec). rewrite app_nil_l, length_records. apply Hp.
Qed.

(** Publishing the manifest once the new table is there, then going on. *)
Lemma publish_keeps w1 st h (K : M St unit) (Q : unit -> St -> Prop) :
  crash_only w1 -> on_disk D [] (files w1) ->
  (pairs <> [] -> files w1 !! sst_name next = Some (table_bytes (pair_record index <$> pairs))) -> published st = d_state D' ->
  (forall w2, crash_only w2 -> on_disk D' [] (files w2) -> keeps J K (db, w2) Q) -> keeps J (catch (fs (Store st)) h ;; K) (db, w1) Q.
Proof.
  intros Hg Ho Hf Hst HK. apply keeps_bind, keeps_catch.
  eapply (keeps_store J D D'); [done|apply Hi|apply transfer_ok|done|done|by rewrite Hm| | |].
  - unfold replaced. clear -Hf. destruct pairs; [constructor|]. apply Forall_singleton. by apply Hf.
  - intros fs [?|?]; [by apply transfer_old|by apply transfer_new].
  - intros w2 Hg2 Ho2 _ _. by apply HK.
Qed.

Section install.
Context (rs : list Reader) (st : State) (w2 : World) (Hg2 : crash_only w2) (Ho2 : on_disk D' [] (files w2)).
Context (HF : Forall2 (fun r t => reads r t.2 /\ r_name r = t.1) rs (d_tables D')) (Hst : published st = d_state D').

Lemma install_keeps : keeps J (install index next st rs newPath) (db, w2) (fun _ => replaced_by pairs index next).
Proof.
  pose proof (transfer_new (files w2) Ho2) as HJ2. unfold install. apply keeps_bind, keeps_get_db; [done|done|]. intros _ _.
  do 6 (apply keeps_bind, keeps_put; [done|done|]; intros _ _). cbn [fst snd].
  apply keeps_bind, keeps_close_all; [done|done|]. cbn [fst snd]. intros w3 E3 Hg3 _ HJ3. rewrite (inv_paths _ _ _ Hi).
  eapply keeps_mono; [apply remove_old_keeps; [done|by rewrite E3|by apply Forall_forall]|done|].
  intros [] [db4 w4] _ [E4 Ho4]. cbn [fst snd] in *. subst db4. by apply transfer_post.
Qed.

Lemma install_snapshot_keeps : keeps J (install_snapshot index next st rs newPath) (db, w2) (fun _ => replaced_by pairs index next).
Proof.
  pose proof (transfer_new (files w2) Ho2) as HJ2. unfold install_snapshot. apply keeps_bind, keeps_get_db; [done|done|]. intros _ _.
  do 6 (apply keeps_bind, keeps_put; [done|done|]; intros _ _). cbn [fst snd].
  eapply keeps_mono; [apply close_remove_keeps; [done|done|apply old_paths]|done|].
  intros [] [db4 w4] _ [E4 Ho4]. cbn [fst snd] in *. subst db4. by apply transfer_post.
Qed.
End install.

End transfer.

(** ** ReplaceReplicaState *)

Lemma snapshot_records_ok index prev pairs :
  key_sorted kv_key pairs -> Forall (fun p => kv_key p <> []) pairs ->
  (forall k p, prev = Some k -> p ∈ pairs -> key_lt k (kv_key p)) ->
  snapshot_records index prev pairs = Some (pair_record index <$> pairs).
Proof.
  intros Hs Hk. revert prev. induction pairs as [|p pairs IH]; intros prev Hprev; [done|].
  inv Hs. inv Hk. cbn [snapshot_records]. rewrite fmap_cons.
  assert (key_eqb (kv_key p) [] || match prev with Some k => key_leb (kv_key p) k | None => false end = false) as ->.
  { apply orb_false_iff. split; [by apply not_true_iff_false; rewrite key_eqb_eq|]. destruct prev as [k|]; [|done].
    apply not_true_iff_false. intros ?. key_bools. specialize (Hprev k p eq_refl ltac:(left)). key_order. }
  rewrite IH; [done|done|done|]. intros k q [= <-] Hq. rewrite Forall_forall in H2. by apply H2.
Qed.

(** ReplaceReplicaState of an open replica by the pairs of a snapshot at an
    index not older than its own returns a handle that stands for exactly these
    pairs, at that applied and durable index. At a crash at any point, the files
    give back either the old map with the old index, or the snapshot with its
    index. *)
Theorem ReplaceReplicaState_atomic db w D index pairs :
  Inv db w D -> d_wal D = None -> pairs_ok pairs -> crash_only w -> NextSST (d_state D) + 1 < 2 ^ 63 ->
  0 < index -> appliedIndex db <= index -> index + 1 < 2 ^ 64 ->
  keeps (old_or_snapshot D pairs index) (ReplaceReplicaState index pairs) (db, w) (fun _ => replaced_by pairs index (nextSST db + 1)).
Proof.
  intros Hi Hm Hp Hg Hsst H0 Ha H1. pose proof (inv_ok _ _ _ Hi) as Hd. set (J := old_or_snapshot D pairs index).
  pose proof (st_next _ (dk_state D Hd)) as Hst.
  set (next := NextSST (d_state D) + 1). assert (NextSST (d_state D) < next < 2 ^ 63) as Hn by lia.
  pose proof (transfer_old db w D index pairs Hi Hm) as HJold. assert (J (files w)) as HJ by apply HJold, Hi.
  unfold ReplaceReplicaState. apply keeps_bind, keeps_get_db; [done|done|]. intros _ _. cbn [fst].
  assert (replica db = true) as -> by (rewrite (inv_mode _ _ _ Hi); unfold d_replica; by rewrite Hm). cbn [negb].
  rewrite (proj2 (Z.eqb_neq _ _)), (proj2 (Z.ltb_ge _ _)) by lia.
  rewrite (snapshot_records_ok index None pairs) by (done || apply Hp). rewrite (inv_next _ _ _ Hi), u64_small by lia. fold next.
  assert (forall A (x y : A), match pair_record index <$> pairs with [] => x | _ => y end = match pairs with [] => x | _ => y end) as Ematch
    by (by destruct pairs).
  rewrite !Ematch. apply keeps_bind.
  eapply keeps_mono; [by apply (transfer_write db w D next index pairs)|done|].
  intros rs [db1 w1] HJ1 (Edb & Ho1 & Hf1 & HF) Hg1 _. cbn [fst snd] in *. subst db1.
  apply (publish_keeps db w D next index pairs); try done; [by apply (transfer_state db w)|].
  intros w2 Hg2 Ho2. apply (install_keeps db w); try done. by apply (transfer_state db w).
Qed.

(** ** ReplaceReplicaSnapshot *)

Lemma read_full_app n a rest : length a = n -> read_full n (a ++ rest) = Some (a, rest).
Proof.
  intros <-. unfold read_full. rewrite length_app. destruct (Nat.ltb_spec (length a + length rest) (length a)); [lia|].
  by rewrite take_app_length, drop_app_length.
Qed.

Lemma read_snapshot_record_ok p rest previous :
  kv_key p <> [] -> Z.of_nat (length (kv_key p)) <= maxReplicaSnapshotField ->
  Z.of_nat (length (kv_value p)) <= maxReplicaSnapshotField -> key_lt previous (kv_key p) ->
  read_snapshot_record (snapshot_record_bytes p ++ rest) previous = Ok (kv_key p, kv_value p, rest).
Proof.
  intros Hne Hk Hv Hlt. unfold read_snapshot_record, snapshot_record_bytes. rewrite <- !app_assoc.
  rewrite read_full_app by apply length_PutUint32. rewrite read_full_app by apply length_PutUint32.
  change maxReplicaSnapshotField with 67108864 in *. rewrite !get_put_u32 by lia.
  destruct (Z.eqb_spec (Z.of_nat (length (kv_key p))) 0) as [E|_]; [by destruct (kv_key p); [|simpl in E; lia]|].
  rewrite (proj2 (Z.ltb_ge _ _)), (proj2 (Z.ltb_ge _ _)) by lia. cbn [orb].
  rewrite !Nat2Z.id, !read_full_app by done.
  destruct (key_leb (kv_key p) previous) eqn:E; [|done]. exfalso. key_bools. key_order.
Qed.

Lemma key_lt_nil k : k <> [] -> key_lt [] k.
Proof. destruct k; [done|]. intros _. by vm_compute. Qed.

Lemma copy_records_run path index n todo dn s w0 fuel :
  let recs l := pair_record index <$> l in
  streaming path n (recs dn) s -> since [path] w0 s.2 -> Z.of_nat (length (dn ++ todo)) = n -> pairs_ok (dn ++ todo) ->
  0 <= index < 2 ^ 64 -> (length todo < fuel)%nat ->
  runs (copy_records fuel index (Z.of_nat (length dn)) n (concat (snapshot_record_bytes <$> todo)) (default [] (kv_key <$> last dn))) s
    (fun rest s' => rest = [] /\ streaming path n (recs (dn ++ todo)) s' /\ since [path] w0 s'.2)
    (fun s' => since [path] w0 s'.2 /\ can_fail w0) (fun s' => only [path] w0 s'.2 /\ can_crash w0).
Proof.
  intros recs. revert dn s fuel. induction todo as [|p todo IH]; intros dn s fuel Hst Hs Hlen Hp Hi Hf; (destruct fuel as [|fuel]; [lia|]).
  { cbn [copy_records]. rewrite app_nil_r in *. rewrite (proj2 (Z.leb_le _ _)) by lia. by apply runs_ret. }
  cbn [copy_records]. rewrite length_app in Hlen. cbn [length] in Hlen. rewrite (proj2 (Z.leb_gt _ _)) by lia.
  pose proof Hp as [Hsrt Hk Hz Hb]. apply key_sorted_app in Hsrt as (_ & _ & Hlt).
  apply Forall_app in Hk as [_ Hk]. apply Forall_cons in Hk as [Hk _]. apply Forall_app in Hz as [_ Hz]. apply Forall_cons in Hz as [[Hz1 Hz2] _].
  assert (forall x, last dn = Some x -> key_lt (kv_key x) (kv_key p)) as Hlast.
  { intros x (l & ->)%last_Some. apply Hlt; [set_solver|left]. }
  rewrite fmap_cons, concat_cons. apply runs_bind. rewrite read_snapshot_record_ok; [|done|done|done|].
  2:{ destruct (last dn) as [x|]; [by apply Hlast|by apply key_lt_nil]. }
  unfold of_res, runs at 1. apply runs_bind. change maxReplicaSnapshotField with 67108864 in *.
  eapply runs_mono; [apply (Add_run path n (recs dn) (pair_record index p) s Hst)|..].
  - unfold recs. rewrite length_fmap. lia.
  - split; simpl; unfold RecordTypePut; lia.
  - done.
  - unfold recs. rewrite fmap_last. intros x Hx. destruct (last dn) as [y|] eqn:E; [|done]. injection Hx as <-. by apply Hlast.
  - intros [] s' [Hst' Hs'].
    assert (recs dn ++ [pair_record index p] = recs (dn ++ [p])) as Er by (unfold recs; by rewrite fmap_app). rewrite Er in Hst'.
    specialize (IH (dn ++ [p]) s' fuel Hst'). rewrite last_snoc, <- app_assoc in IH. simpl in IH.
    replace (Z.of_nat (length (dn ++ [p]))) with (Z.of_nat (length dn) + 1) in IH by (rewrite length_app; simpl; lia).
    apply IH; [by etrans|rewrite !length_app in *; simpl in *; lia|done|done|simpl in Hf; lia].
  - intros s' [Hs' Hc]. split; [by etrans|]. destruct Hs. by eapply can_fail_follows.
  - intros s' [Ho Hc]. destruct Hs. split; [by etrans|]. by eapply can_crash_follows.
Qed.

Lemma runs_on_stream {A : Type} sw (m : M (StreamWriter * World) A) w (Q : A -> World -> Prop) Qe Qc :
  runs m (sw, w) (fun a s => Q a s.2) (fun s => Qe s.2) (fun s => Qc s.2) -> runs (on_stream sw m) w Q Qe Qc.
Proof. unfold runs, on_stream. by destruct (m (sw, w)) as [[a|e| |] [sw' w']]. Qed.

Lemma stream_snapshot_touches path index pairs w :
  ~ can_fail w -> pairs_ok pairs -> pairs <> [] -> 0 <= index < 2 ^ 64 ->
  touches [path] w (stream_snapshot path index (Z.of_nat (length pairs)) (concat (snapshot_record_bytes <$> pairs))) w
    (fun _ w' => files w' = <[path := table_bytes (pair_record index <$> pairs)]> (files w)).
Proof.
  intros Hc Hp Hne Hi. assert (0 < Z.of_nat (length pairs) < 2 ^ 63) as Hn.
  { pose proof (po_bytes _ Hp) as Hb. pose proof (length_data_ge (pair_record 0 <$> pairs)) as Hl. rewrite length_fmap in Hl.
    destruct pairs; [done|]. cbn [length] in *. lia. }
  unfold stream_snapshot. apply touches_bind. eapply touches_mono; [by apply NewStreamWriter_run|].
  intros sw w1 Hs1 Hst _. apply runs_on_stream, runs_catch, runs_bind.
  assert (length pairs <= length (concat (snapshot_record_bytes <$> pairs)))%nat as Hlen.
  { clear. induction pairs as [|p l IH]; [done|]. rewrite fmap_cons, concat_cons, length_app. unfold snapshot_record_bytes at 1.
    rewrite !length_app, length_PutUint32. simpl. lia. }
  eapply runs_mono; [apply (copy_records_run path index _ pairs [] (sw, w1) w); try done; simpl; lia|..].
  - intros rest s' (-> & Hst' & Hs'). apply runs_bind, runs_ret.
    assert (Z.of_nat (length pairs) = Z.of_nat (length (pair_record index <$> pairs))) as El by (by rewrite length_fmap).
    rewrite El in Hst'. eapply runs_mono; [apply (Finish_run path (pair_record index <$> pairs) s' Hst')|..].
    + intros [] s'' (E & _ & Hs''). split; [by etrans|]. rewrite E. apply map_eq. intros n.
      destruct (decide (n = path)) as [->|Hn']; [by rewrite !lookup_insert_eq|]. rewrite !lookup_insert_ne by done.
      apply Hs'. set_solver.
    + intros s'' (_ & Hc'). destruct Hs'. exfalso. apply Hc. by eapply can_fail_follows.
    + intros s'' [Ho Hcr]. destruct Hs'. split; [by etrans|]. by eapply can_crash_follows.
  - intros s' [_ Hc']. done.
  - done.
Qed.

Lemma length_snapshot_bytes pairs :
  (16 + 8 * length pairs <= length (snapshot_bytes pairs))%nat.
Proof.
  unfold snapshot_bytes. rewrite !length_app, length_PutUint64.
  assert (8 * length pairs <= length (concat (snapshot_record_bytes <$> pairs)))%nat; [|simpl; lia].
  induction pairs as [|p l IH]; [done|]. rewrite fmap_cons, concat_cons, length_app. unfold snapshot_record_bytes at 1.
  rewrite !length_app, !length_PutUint32. simpl. lia.
Qed.

Lemma if_count {A} (pairs : list KVPair) (x y : A) :
  (if 0 <? Z.of_nat (length pairs) then x else y) = match pairs with [] => y | _ => x end.
Proof. by destruct pairs. Qed.

(** Filling the table of the snapshot. *)
Lemma stream_keeps db w D next index pairs :
  Inv db w D -> d_wal D = None -> pairs_ok pairs -> NextSST (d_state D) < next < 2 ^ 63 -> 0 < index -> index + 1 < 2 ^ 64 -> crash_only w ->
  keeps (old_or_snapshot D pairs index)
    (match pairs with
     | [] => check_end (concat (snapshot_record_bytes <$> pairs))
     | _ => fs (stream_snapshot (match pairs with [] => [] | _ => sst_name next end) index (Z.of_nat (length pairs))
                  (concat (snapshot_record_bytes <$> pairs)))
     end) (db, w)
    (fun _ s => s.1 = db /\ on_disk D [] (files s.2) /\
       (pairs <> [] -> files s.2 !! sst_name next = Some (table_bytes (pair_record index <$> pairs)))).
Proof.
  intros Hi Hm Hp Hn H0 H1 Hg. pose proof (inv_disk _ _ _ Hi) as Ho.
  pose proof (transfer_old db w D index pairs Hi Hm) as HJ.
  destruct pairs as [|p l] eqn:E; [by apply keeps_ret; [|apply HJ|]|]. rewrite <- E in *.
  eapply (keeps_table _ D (sst_name next) (pair_record index <$> pairs)); [done|apply Hi|done| | | |done|].
  - apply fresh_name; [apply Hi|lia].
  - apply sst_name_last.
  - apply stream_snapshot_touches; [by apply crash_only_cannot_fail|done|by rewrite E|lia].
  - intros w1 Hg1 Ho1 E1. split_and!; [done|done|]. intros _. cbn [snd]. by rewrite E1, lookup_insert_eq.
Qed.

(** C32: ReplaceReplicaSnapshot, given the stream WriteReplicaSnapshot produces for
    a list of pairs, has the effect of ReplaceReplicaState on that list: the
    handle it returns stands for the pairs at the index of the snapshot, and at a
    crash at any point the files give back the old state or the new one. *)
Theorem ReplaceReplicaSnapshot_atomic db w D index pairs :
  Inv db w D -> d_wal D = None -> pairs_ok pairs -> crash_only w -> NextSST (d_state D) + 1 < 2 ^ 63 ->
  0 < index -> appliedIndex db <= index -> index + 1 < 2 ^ 64 ->
  keeps (old_or_snapshot D pairs index)
    (ReplaceReplicaSnapshot index (Z.of_nat (length (snapshot_bytes pairs))) (snapshot_bytes pairs)) (db, w)
    (fun _ => replaced_by pairs index (nextSST db + 1)).
Proof.
  intros Hi Hm Hp Hg Hsst H0 Ha H1. pose proof (inv_ok _ _ _ Hi) as Hd. set (J := old_or_snapshot D pairs index).
  pose proof (st_next _ (dk_state D Hd)) as Hst.
  set (next := NextSST (d_state D) + 1). assert (NextSST (d_state D) < next < 2 ^ 63) as Hn by lia.
  pose proof (transfer_old db w D index pairs Hi Hm) as HJold. assert (J (files w)) as HJ by apply HJold, Hi.
  pose proof (length_snapshot_bytes pairs) as Hlen. pose proof (stream_keeps db w D next index pairs Hi Hm Hp Hn H0 H1 Hg) as Hstream.
  assert (Z.of_nat (length pairs) < 2 ^ 50) as Hcnt.
  { pose proof (po_bytes _ Hp) as Hb. pose proof (length_data_ge (pair_record 0 <$> pairs)) as Hl. rewrite length_fmap in Hl. lia. }
  unfold ReplaceReplicaSnapshot. apply keeps_bind, keeps_get_db; [done|done|]. intros _ _. cbn [fst].
  assert (replica db = true) as -> by (rewrite (inv_mode _ _ _ Hi); unfold d_replica; by rewrite Hm). cbn [negb].
  rewrite (proj2 (Z.eqb_neq _ _)), (proj2 (Z.ltb_ge index _)), (proj2 (Z.ltb_ge _ (8 + 8))) by lia.
  set (size := Z.of_nat (length (snapshot_bytes pairs))) in *. unfold snapshot_bytes. rewrite read_full_app by done.
  rewrite (proj2 (key_eqb_eq _ _)) by done. cbn [negb].
  rewrite read_full_app by apply length_PutUint64. cbv zeta. rewrite get_put_u64 by lia.
  assert (Z.of_nat (length pairs) <= (size - 8 - 8) / 8) as Hdiv by (apply Z.div_le_lower_bound; lia).
  rewrite (proj2 (Z.ltb_ge ((size - 8 - 8) / 8) _)), (proj2 (Z.ltb_ge (2 ^ 63 - 1) _)) by lia. cbn [orb].
  rewrite !if_count, (inv_next _ _ _ Hi), u64_small by lia. fold next.
  apply keeps_bind. eapply keeps_mono; [exact Hstream|done|]. intros [] [db1 w1] HJ1 (E1 & Ho1 & Hf1) Hg1 _. cbn [fst snd] in *. subst db1.
  apply keeps_bind. eapply keeps_mono; [apply (transfer_open D next index pairs Hp H0 H1 db w1); done|done|].
  intros rs [db2 w2] HJ2 (E2 & Ef2 & HF) Hg2 _. cbn [fst snd] in *. subst db2. rewrite <- Ef2 in Ho1, Hf1.
  apply (publish_keeps db w D next index pairs); try done; [by apply (transfer_state db w)|].
  intros w3 Hg3 Ho3. apply (install_snapshot_keeps db w); try done. by apply (transfer_state db w).
Qed.

End files.

(** ** Concrete runs *)

Definition demo_pairs : list KVPair := [mkKV (str "a") (str "1"); mkKV (str "b") (str "2")].

Lemma demo_pairs_ok : pairs_ok demo_pairs.
Proof.
  split.
  - repeat constructor.
  - repeat constructor; discriminate.
  - change maxReplicaSnapshotField with 67108864. repeat constructor; simpl; lia.
  - by vm_compute.
Qed.

Lemma ReplaceReplicaState_atomic_witness :
  pairs_ok demo_pairs /\
  keeps (@old_or_snapshot demo_sizing replica_disk demo_pairs 7) (@ReplaceReplicaState demo_sizing 7 demo_pairs)
    (replica_handle, mkWorld replica_files [Fine; Fine; Crashes 3]) (fun _ => @replaced_by demo_sizing demo_pairs 7 (nextSST replica_handle + 1)).
Proof.
  split; [exact demo_pairs_ok|].
  refine (@ReplaceReplicaState_atomic demo_sizing replica_handle _ replica_disk 7 demo_pairs (replica_inv _) eq_refl demo_pairs_ok _ _ _ _ _).
  - apply crash_onlyb_spec. vm_compute. reflexivity.
  - vm_compute. reflexivity.
  - vm_compute. reflexivity.
  - vm_compute. discriminate.
  - vm_compute. reflexivity.
Defined.

Lemma ReplaceReplicaSnapshot_atomic_witness :
  keeps (@old_or_snapshot demo_sizing replica_disk demo_pairs 7)
    (@ReplaceReplicaSnapshot demo_sizing 7 (Z.of_nat (length (snapshot_bytes demo_pairs))) (snapshot_bytes demo_pairs))
    (replica_handle, mkWorld replica_files [Fine; Fine; Crashes 3]) (fun _ => @replaced_by demo_sizing demo_pairs 7 (nextSST replica_handle + 1)).
Proof.
  refine (@ReplaceReplicaSnapshot_atomic demo_sizing replica_handle _ replica_disk 7 demo_pairs (replica_inv _) eq_refl demo_pairs_ok _ _ _ _ _).
  - apply crash_onlyb_spec. vm_compute. reflexivity.
  - vm_compute. reflexivity.
  - vm_compute. reflexivity.
  - vm_compute. discriminate.
  - vm_compute. reflexivity.
Defined.

Lemma snapshot_stream_is_export_witness :
  exists pairs, ExportReplicaState batched_handle = Ok pairs /\
    WriteReplicaSnapshot append_writer batched_handle [] = Ok (snapshot_bytes pairs, appliedIndex batched_handle) /\
    key_sorted kv_key pairs /\ forall k v, mkKV k v ∈ pairs <-> Mview batched_handle replica_disk k = Some v.
Proof.
  refine (@snapshot_stream_is_export demo_sizing batched_handle (mkWorld replica_files []) replica_disk batched_inv eq_refl _ _).
  - vm_compute. discriminate.
  - vm_compute. reflexivity.
Defined.

End Transfer.
