(* ===== verification/Kvstate.v ===== *)
(** * The key-value state machine

    internal/kvstate: a committed log entry holds a command of a client; the machine
    applies it to a replica store, with the user's keys and the last request number of
    each client in separate key ranges. Shown: the store implements a map with one
    session number per client, a retried command changes nothing, and a machine that
    crashes anywhere is recovered to the state after a prefix of the log together with
    the length of that prefix. *)

From S2P Require Import Prelude GoStd Fs Memtable Bloom Wal Sstable Heap Compact Json Manifest Db Recovery Reopen Durability Replica Snapshot.

Module Kvstate.
Import Sstable Manifest Db Recovery Reopen Durability Replica.

(** ** Commands *)

Definition OPERATION_NOOP : Z := 0.
Definition OPERATION_PUT : Z := 1.
Definition OPERATION_DELETE : Z := 2.

Record Command : Type := mkCommand {
  Operation : Z;
  CKey : bytes;
  CValue : bytes;
  ClientId : bytes;
  RequestSeq : Z
}.

#[global] Instance Command_eq_dec : EqDecision Command.
Proof. solve_decision. Defined.

Definition noCommand : Command := mkCommand OPERATION_NOOP [] [] [] 0.

(** The generated encoding of commands, protobuf. *)
Class CommandCodec := {
  Marshal : Command -> res bytes;
  Unmarshal : bytes -> res Command
}.

(** What protobuf promises: decoding gives back what was encoded, and no bytes encode
    the message with default fields. *)
Class CodecLaws (C : CommandCodec) : Prop := {
  unmarshal_marshal : forall c b, Marshal c = Ok b -> Unmarshal b = Ok c;
  unmarshal_nil : Unmarshal [] = Ok noCommand
}.

Definition userPrefix : bytes := [byte_of_Z 1].
Definition sessionPrefix : bytes := byte_of_Z 0 :: str "session/".
Definition MaxKeyBytes : Z := 16 * 2 ^ 10.
Definition MaxValueBytes : Z := 4 * 2 ^ 20.

Definition userKey (key : bytes) : bytes := userPrefix ++ key.
Definition sessionKey (client : bytes) : bytes := sessionPrefix ++ client.

(** No call fails; a crash may come at any point. *)
#[local] Existing Instance crashes.
#[local] Canonical Structure crashes.

Section machine.
Context {BS : BloomSizing} {C : CommandCodec}.

Definition is_mutation (op : Z) : bool := (op =? OPERATION_PUT) || (op =? OPERATION_DELETE).

Definition EncodeCommand (operation : Z) (key value clientID : bytes) (requestSeq : Z) : res bytes :=
  if negb (is_mutation operation) then Err "command operation must be put or delete" else
  if (length key =? 0)%nat || (MaxKeyBytes <? Z.of_nat (length key)) then Err "key length must be between 1 and 16384 bytes" else
  if MaxValueBytes <? Z.of_nat (length value) then Err "value exceeds 4194304 bytes" else
  if (length clientID =? 0)%nat || (requestSeq =? 0) then Err "client ID and positive request sequence are required" else
  Marshal (mkCommand operation key value clientID requestSeq).

(** m.db.Get: the readers count what they skip. *)
Definition lookup (key : bytes) : M St (option bytes) :=
  db ← get_db;
  let r := Db.Get db key in
  put (fun _ => r.1) ;; mret r.2.

(** Whether the session already covers a request. *)
Definition covered (raw : option bytes) (seq : Z) : bool :=
  match raw with
  | Some raw => (length raw =? 8)%nat && (seq <=? get_be raw)
  | None => false
  end.

Definition command_mutation (c : Command) : Mutation :=
  if Operation c =? OPERATION_DELETE then mkMutation MutationDelete (userKey (CKey c)) []
  else mkMutation MutationPut (userKey (CKey c)) (CValue c).

Definition command_batch (c : Command) : list Mutation :=
  [command_mutation c; mkMutation MutationPut (sessionKey (ClientId c)) (PutUint64 (RequestSeq c))].

Definition Apply (index : Z) (data : bytes) : M St unit :=
  match data with
  | [] => ApplyBatch index []
  | _ =>
      command ← of_res (match Unmarshal data with Err e => Err ("decode state-machine command: " ++ e) | r => r end);
      if negb (is_mutation (Operation command)) then raise "unsupported state-machine operation" else
      if (length (ClientId command) =? 0)%nat || (RequestSeq command =? 0)
      then raise "committed command has invalid request identity" else
      raw ← lookup (sessionKey (ClientId command));
      if covered raw (RequestSeq command) then ApplyBatch index [] else
      ApplyBatch index (command_batch command)
  end.

Definition Get (key : bytes) : M St (option bytes) :=
  if (length key =? 0)%nat || (MaxKeyBytes <? Z.of_nat (length key)) then raise "key length must be between 1 and 16384 bytes" else
  lookup (userKey key).

(** WriteSnapshot and RestoreSnapshot are the store's; Snapshot and Restore go through
    a byte buffer. *)
Definition WriteSnapshot {W : Type} (write : W -> bytes -> res W) (db : DB) (out : W) : res (W * Z) :=
  Snapshot.WriteReplicaSnapshot write db out.

Definition Snapshot (db : DB) : res (Z * bytes) :=
  r ← WriteSnapshot Snapshot.append_writer db []; Ok (r.2, r.1).

Definition RestoreSnapshot (index size : Z) (content : bytes) : M St unit := Snapshot.ReplaceReplicaSnapshot index size content.
Definition Restore (index : Z) (content : bytes) : M St unit := RestoreSnapshot index (Z.of_nat (length content)) content.

Definition Machine_AppliedIndex (db : DB) : Z := Db.AppliedIndex_ db.
Definition Machine_DurableIndex (db : DB) : Z := Db.DurableIndex db.
Definition EngineStats (db : DB) : Z * Z := Db.Stats db.
Definition Close : M St unit := Db.Close.

(** Open sets the replica mode whatever the options say. *)
Definition machine_options (options : option Options) : Options :=
  let o := default DefaultOptions options in mkOptions (FlushThreshold o) (CompactionThreshold o) DurabilityReplica.

Definition Open (options : option Options) : M World DB := Db.Open true (machine_options options).

(** ** What an entry does to the map of the store *)

(** The batch of an entry, from the map before it. *)
Definition entry_batch (V : bytes -> option bytes) (data : bytes) : list Mutation :=
  match data with
  | [] => []
  | _ =>
      match Unmarshal data with
      | Ok c => if covered (V (sessionKey (ClientId c))) (RequestSeq c) then [] else command_batch c
      | _ => []
      end
  end.

Definition apply_entry (V : bytes -> option bytes) (data : bytes) : bytes -> option bytes := apply_batch V (entry_batch V data).

(** An entry the machine accepts: empty, or a command with a request number. *)
Definition valid_command (c : Command) : bool :=
  is_mutation (Operation c) && negb (length (ClientId c) =? 0)%nat && (0 <? RequestSeq c) && (RequestSeq c <? 2 ^ 64) &&
  forallb fits_u32 (command_batch c).

Definition valid_entry (data : bytes) : bool :=
  match data with
  | [] => true
  | _ => match Unmarshal data with Ok c => valid_command c | _ => false end
  end.

(** The batches of a log, one after the other. *)
Fixpoint log_batches (V : bytes -> option bytes) (l : list bytes) : list (list Mutation) :=
  match l with
  | [] => []
  | d :: l' => entry_batch V d :: log_batches (apply_entry V d) l'
  end.

Lemma log_batches_apply l : forall V, foldl apply_batch V (log_batches V l) = foldl apply_entry V l.
Proof. induction l as [|d l IH]; intros V; [done|]. simpl. by rewrite IH. Qed.

Lemma length_log_batches l : forall V, length (log_batches V l) = length l.
Proof. induction l as [|d l IH]; intros V; [done|]. simpl. by rewrite IH. Qed.

Lemma take_log_batches l : forall V k, take k (log_batches V l) = log_batches V (take k l).
Proof. induction l as [|d l IH]; intros V [|k]; [done..|]. simpl. by rewrite IH. Qed.

Lemma command_batch_ok c : check_mutations (command_batch c) = None.
Proof.
  unfold command_batch, command_mutation. by destruct (Operation c =? OPERATION_DELETE).
Qed.

Lemma entry_batch_ext V V' d : (forall k, V k = V' k) -> entry_batch V d = entry_batch V' d.
Proof. intros HV. unfold entry_batch. destruct d; [done|]. destruct (Unmarshal _); try done. by rewrite HV. Qed.

Lemma apply_entry_ext V V' d : (forall k, V k = V' k) -> forall k, apply_entry V d k = apply_entry V' d k.
Proof. intros HV k. unfold apply_entry. rewrite (entry_batch_ext V V') by done. by apply apply_batch_ext. Qed.

(** The size of an entry's records, if it takes effect. *)
Definition entry_size (data : bytes) : Z :=
  match data with [] => 0 | _ => match Unmarshal data with Ok c => batch_size (command_batch c) | _ => 0 end end.

Lemma entry_batch_size V d : batch_size (entry_batch V d) <= entry_size d.
Proof.
  unfold entry_batch, entry_size. destruct d; [done|]. destruct (Unmarshal _) as [c| | |]; try done.
  destruct (covered _ _); [|done]. unfold batch_size. simpl. lia.
Qed.

(** ** One entry on a store *)

Lemma Get_same db k : mem (Db.Get db k).1 = mem db /\ appliedIndex (Db.Get db k).1 = appliedIndex db.
Proof.
  unfold Db.Get. destruct (MemTable.GetRecord _ _); [done|]. by destruct (get_readers _ _).
Qed.

Lemma tracked_Get V0 i0 h db D k : tracked V0 i0 h db D -> tracked V0 i0 h (Db.Get db k).1 D.
Proof.
  intros [H1 H2 H3 H4]. destruct (Get_same db k) as [Em Ea]. split; [done|done| |by rewrite Ea].
  intros k'. unfold Mview. rewrite Em. apply H3.
Qed.

Section log.
Context (V0 : bytes -> option bytes) (i0 : Z).

Lemma valid_entry_cases data c : valid_entry data = true -> data <> [] -> Unmarshal data = Ok c -> valid_command c = true.
Proof. intros Hv Hne Hu. destruct data; [done|]. unfold valid_entry in Hv. by rewrite Hu in Hv. Qed.

Lemma entry_cmd_ok V data : valid_entry data = true -> cmd_okb (RApply (entry_batch V data)) = true.
Proof.
  intros Hv. unfold entry_batch. destruct data as [|b data]; [done|]. unfold valid_entry in Hv.
  destruct (Unmarshal (b :: data)) as [c| | |]; try done. destruct (covered _ _); [done|].
  unfold valid_command in Hv. apply andb_true_iff in Hv as [_ Hv]. unfold cmd_okb. by rewrite Hv, command_batch_ok.
Qed.

Lemma Apply_command index data c : data <> [] -> Unmarshal data = Ok c -> valid_command c = true ->
  Apply index data = (raw ← lookup (sessionKey (ClientId c));
    if covered raw (RequestSeq c) then ApplyBatch index [] else ApplyBatch index (command_batch c)).
Proof.
  intros Hne Hu Hc. unfold valid_command in Hc. rewrite !andb_true_iff in Hc. destruct Hc as ((((Hop & Hcl) & H1) & H2) & _).
  apply negb_true_iff in Hcl. apply Z.ltb_lt in H1. unfold Apply. destruct data as [|b l]; [done|]. rewrite Hu.
  change (of_res (Ok c) ≫= ?f) with (f c). cbv beta. rewrite Hop, Hcl, (proj2 (Z.eqb_neq (RequestSeq c) 0)) by lia. done.
Qed.

Lemma entry_batch_command V data c : data <> [] -> Unmarshal data = Ok c ->
  entry_batch V data = if covered (V (sessionKey (ClientId c))) (RequestSeq c) then [] else command_batch c.
Proof. intros Hne Hu. unfold entry_batch. destruct data; [done|]. by rewrite Hu. Qed.

(** Apply computes the entry's batch from the map and applies it. *)
Lemma Apply_keeps h db w D data :
  let ms := entry_batch (foldl apply_batch V0 h) data in
  Inv db w D -> tracked V0 i0 h db D -> crash_only w -> valid_entry data = true -> rbudget (entry_size data) 1 db D ->
  keeps (prefix_files V0 i0 (h ++ [ms])) (Apply (appliedIndex db + 1) data) (db, w) (fun _ s =>
    exists D', Inv s.1 s.2 D' /\ tracked V0 i0 (h ++ [ms]) s.1 D' /\ rspent (entry_size data) db D s.1 D' /\ moved D s.1 D').
Proof.
  intros ms Hi Ht Hg Hv Hb. assert (batch_size ms <= entry_size data) as Hsz by apply entry_batch_size.
  assert (forall db', Inv db' w D -> tracked V0 i0 h db' D -> mem db' = mem db -> appliedIndex db' = appliedIndex db ->
    keeps (prefix_files V0 i0 (h ++ [ms])) (ApplyBatch (appliedIndex db + 1) ms) (db', w) (fun _ s =>
      exists D', Inv s.1 s.2 D' /\ tracked V0 i0 (h ++ [ms]) s.1 D' /\ rspent (entry_size data) db D s.1 D' /\ moved D s.1 D')) as HA.
  { intros db' Hi' Ht' Em Ea. rewrite <- Ea. assert (weight db' D = weight db D) as Ew by (unfold weight; by rewrite Em).
    eapply keeps_mono; [apply (ApplyBatch_keeps V0 i0 h db' w D ms Hi' Ht' Hg)|done|].
    - by apply entry_cmd_ok.
    - unfold rbudget in *. rewrite Ew, Ea. lia.
    - intros _ s _ (D' & H1 & H2 & H3 & H4). exists D'. split_and!; [done|done| |done]. unfold rspent in *. rewrite Ew, Ea in H3. lia. }
  assert (prefix_files V0 i0 (h ++ [ms]) (files w)) as HJ.
  { apply prefix_files_app. eapply tracked_files; [done|done|left; by eapply inv_recoverable]. }
  destruct (decide (data = [])) as [E|Hne]; [subst data; by apply HA|].
  assert (exists c, Unmarshal data = Ok c /\ valid_command c = true) as (c & Hu & Hc).
  { unfold valid_entry in Hv. destruct data; [done|]. destruct (Unmarshal _) as [c| | |]; try done. eauto. }
  unfold ms in *. rewrite (entry_batch_command _ _ c) in * by done. rewrite (Apply_command _ _ c) by done.
  destruct (Get_same db (sessionKey (ClientId c))) as [Em Ea]. destruct (Get_spec db w D (sessionKey (ClientId c)) Hi) as [Hr Hi'].
  apply keeps_bind. unfold lookup. apply keeps_bind, keeps_get_db; [done|done|]. intros _ _. cbv zeta. cbn [fst].
  apply keeps_bind, keeps_put; [done|done|]. intros _ _. apply keeps_ret; [done|done|]. intros _ _. cbn [fst snd].
  rewrite Hr, (tr_map _ _ _ _ _ Ht) in *. pose proof (HA _ Hi' (tracked_Get _ _ _ _ _ _ Ht) Em Ea) as HK.
  by destruct (covered _ _).
Qed.

(** ** The machine under crashes *)

Inductive MCmd : Type :=
| MApply (data : bytes)
| MFlush
| MCompact.

(** The next entry of the log is applied at the next index. *)
Definition run_mcmd (c : MCmd) : M St unit :=
  match c with
  | MApply data => db ← get_db; Apply (u64 (appliedIndex db + 1)) data
  | MFlush => ForceFlush
  | MCompact => ForceCompact
  end.

Definition entry_of (c : MCmd) : list bytes := match c with MApply d => [d] | _ => [] end.
Definition entries_of (cs : list MCmd) : list bytes := concat (entry_of <$> cs).
Definition mcmd_size (c : MCmd) : Z := match c with MApply d => entry_size d | _ => 0 end.
Definition mcmd_sizes (cs : list MCmd) : Z := foldr (fun c n => mcmd_size c + n) 0 cs.

Lemma mcmd_size_nonneg c : 0 <= mcmd_size c.
Proof.
  destruct c as [d| |]; simpl; try done. pose proof (entry_batch_size (fun _ => None) d). unfold batch_size in *. lia.
Qed.

Lemma mcmd_sizes_nonneg cs : 0 <= mcmd_sizes cs.
Proof. induction cs as [|c cs IH]; simpl; [lia|]. pose proof (mcmd_size_nonneg c). lia. Qed.

(** One command of the machine. *)
Lemma run_mcmd_keeps h c db w D :
  let l := log_batches (foldl apply_batch V0 h) (entry_of c) in
  Inv db w D -> tracked V0 i0 h db D -> crash_only w -> forallb valid_entry (entry_of c) = true -> rbudget (mcmd_size c) 1 db D ->
  keeps (prefix_files V0 i0 (h ++ l)) (run_mcmd c) (db, w) (fun _ s =>
    exists D', Inv s.1 s.2 D' /\ tracked V0 i0 (h ++ l) s.1 D' /\ rspent (mcmd_size c) db D s.1 D').
Proof.
  intros l Hi Ht Hg Hv Hb. destruct c as [data| |].
  - pose proof Hb as (Hb1 & Hb2 & Hb3). simpl in Hv. rewrite andb_true_r in Hv. cbn [run_mcmd].
    assert (prefix_files V0 i0 (h ++ l) (files w)) as HJ.
    { apply prefix_files_app. eapply tracked_files; [done|done|left; by eapply inv_recoverable]. }
    apply keeps_bind, keeps_get_db; [done|done|]. intros _ _. cbn [fst].
    pose proof (tr_mode _ _ _ _ _ Ht) as Hm. destruct (inv_replica _ _ _ Hi Hm) as (H1 & H2 & _).
    pose proof (st_applied _ (dk_state _ (inv_ok _ _ _ Hi))) as H3. rewrite u64_small by lia.
    eapply keeps_mono; [by apply Apply_keeps|done|]. intros [] s _ (D' & ? & ? & ? & _). eauto.
  - apply (run_cmd_keeps V0 i0 h RFlush db w D Hi Ht Hg eq_refl Hb).
  - apply (run_cmd_keeps V0 i0 h RCompact db w D Hi Ht Hg eq_refl Hb).
Qed.

Lemma log_batches_app l1 l2 : forall V, log_batches V (l1 ++ l2) = log_batches V l1 ++ log_batches (foldl apply_entry V l1) l2.
Proof. induction l1 as [|d l1 IH]; intros V; [done|]. simpl. by rewrite IH. Qed.

Lemma run_mcmds_keeps cs : forall h db w D,
  let l := log_batches (foldl apply_batch V0 h) (entries_of cs) in
  Inv db w D -> tracked V0 i0 h db D -> crash_only w -> forallb valid_entry (entries_of cs) = true ->
  rbudget (mcmd_sizes cs) (Z.of_nat (length cs)) db D ->
  keeps (prefix_files V0 i0 (h ++ l)) (mfold run_mcmd cs) (db, w) (fun _ s =>
    exists D', Inv s.1 s.2 D' /\ tracked V0 i0 (h ++ l) s.1 D').
Proof.
  induction cs as [|c cs IH]; intros h db w D l Hi Ht Hg Hok Hb.
  { unfold l, entries_of. simpl. rewrite app_nil_r. apply keeps_ret; [done| |by exists D].
    eapply tracked_files; [done|done|left; by eapply inv_recoverable]. }
  change (entries_of (c :: cs)) with (entry_of c ++ entries_of cs) in *. rewrite forallb_app in Hok. apply andb_true_iff in Hok as [Hc Hok]. unfold rbudget in Hb. cbn [mcmd_sizes foldr length] in Hb.
  fold (mcmd_sizes cs) in Hb. pose proof (mcmd_sizes_nonneg cs). pose proof (mcmd_size_nonneg c).
  set (l1 := log_batches (foldl apply_batch V0 h) (entry_of c)).
  assert (h ++ l = (h ++ l1) ++ log_batches (foldl apply_batch V0 (h ++ l1)) (entries_of cs)) as E.
  { unfold l. rewrite log_batches_app, foldl_app. unfold l1. by rewrite log_batches_apply, app_assoc. }
  rewrite E. cbn [mfold]. apply keeps_bind.
  eapply keeps_mono; [apply (run_mcmd_keeps h c db w D); try done; split_and!; lia|intros fs; apply prefix_files_app|].
  intros [] [db1 w1] _ (D1 & Hi1 & Ht1 & Hsp) Hg1 _. cbn [fst snd] in *. unfold rspent in Hsp.
  eapply IH; try done. split_and!; lia.
Qed.

End log.

(** ** A map with a request number per client *)

Record Kv : Type := mkKv { users : bytes -> option bytes; sessions : bytes -> Z }.

(** What a store's map means. *)
Definition kv_of (V : bytes -> option bytes) : Kv :=
  mkKv (fun k => V (userKey k))
    (fun c => match V (sessionKey c) with Some raw => if (length raw =? 8)%nat then get_be raw else 0 | None => 0 end).

(** A command takes effect if its client has not got that far yet. *)
Definition kv_apply (s : Kv) (c : Command) : Kv :=
  if RequestSeq c <=? sessions s (ClientId c) then s else
  mkKv (fun k => if decide (k = CKey c) then (if Operation c =? OPERATION_DELETE then None else Some (CValue c)) else users s k)
    (fun cl => if decide (cl = ClientId c) then RequestSeq c else sessions s cl).

Definition kv_eq (s s' : Kv) : Prop := (forall k, users s k = users s' k) /\ (forall c, sessions s c = sessions s' c).

#[global] Instance kv_eq_equivalence : Equivalence kv_eq.
Proof.
  split; [by intros s; split|by intros s s' [H1 H2]; split; intros x|].
  intros s1 s2 s3 [H1 H2] [H3 H4]. split; intros x; [by rewrite H1|by rewrite H2].
Qed.

#[global] Instance kv_apply_proper : Proper (kv_eq ==> eq ==> kv_eq) kv_apply.
Proof.
  intros s s' [HU HS] c ? <-. unfold kv_apply. rewrite HS. destruct (_ <=? _); [by split|].
  split; intros x; simpl; by case_decide.
Qed.

(** The commands of a log. *)
Definition entry_command (data : bytes) : list Command :=
  match data with [] => [] | _ => match Unmarshal data with Ok c => [c] | _ => [] end end.

Lemma covered_session V c : 0 < RequestSeq c ->
  covered (V (sessionKey (ClientId c))) (RequestSeq c) = (RequestSeq c <=? sessions (kv_of V) (ClientId c)).
Proof.
  intros Hp. unfold covered. simpl. destruct (V (sessionKey (ClientId c))) as [raw|]; [|symmetry; apply Z.leb_gt; lia].
  destruct (length raw =? 8)%nat; [done|]. symmetry. apply Z.leb_gt. lia.
Qed.

Lemma key_eqb_decide a b : key_eqb a b = bool_decide (a = b).
Proof. destruct (key_eqb a b) eqn:E; key_bools; symmetry; [by apply bool_decide_true|by apply bool_decide_false]. Qed.

Lemma userKey_eqb k k' : key_eqb (userKey k) (userKey k') = bool_decide (k = k').
Proof. rewrite key_eqb_decide. apply bool_decide_ext. unfold userKey. split; [apply app_inv_head|congruence]. Qed.

Lemma sessionKey_eqb c c' : key_eqb (sessionKey c) (sessionKey c') = bool_decide (c = c').
Proof.
  rewrite key_eqb_decide. apply bool_decide_ext. unfold sessionKey. split; [apply app_inv_head|congruence].
Qed.

Lemma user_session k c : key_eqb (userKey k) (sessionKey c) = false /\ key_eqb (sessionKey c) (userKey k) = false.
Proof. rewrite !key_eqb_decide. split; by apply bool_decide_false. Qed.

(** An accepted command on the map of the store. *)
Lemma apply_entry_kv V data c : data <> [] -> Unmarshal data = Ok c -> valid_command c = true ->
  kv_eq (kv_of (apply_entry V data)) (kv_apply (kv_of V) c).
Proof.
  intros Hne Hu Hc. unfold valid_command in Hc. rewrite !andb_true_iff in Hc. destruct Hc as ((((Hop & Hcl) & H1) & H2) & _). bool_hyps.
  unfold apply_entry. rewrite (entry_batch_command _ _ c) by done. rewrite covered_session by done. unfold kv_apply.
  destruct (_ <=? _); [done|]. unfold command_batch, apply_batch.
  assert (mKey (command_mutation c) = userKey (CKey c)) as Ek by (unfold command_mutation; by destruct (_ =? _)).
  split; intros x; cbn [users sessions kv_of batch_find mKey]; rewrite Ek.
  - rewrite userKey_eqb. case_decide as E; [subst x; rewrite bool_decide_true by done|rewrite bool_decide_false by congruence].
    + unfold command_mutation. by destruct (Operation c =? OPERATION_DELETE).
    + by rewrite (proj2 (user_session _ _)).
  - rewrite (proj1 (user_session _ _)), sessionKey_eqb. case_decide as E; [subst x; rewrite bool_decide_true by done|by rewrite bool_decide_false by congruence].
    cbn [mType mValue]. change (MutationPut =? MutationDelete) with false. cbv iota. rewrite length_PutUint64. cbn [Nat.eqb].
    apply get_put_u64. lia.
Qed.

(** A log of accepted entries does what its commands do. *)
Lemma apply_log_kv l : forall V s, forallb valid_entry l = true -> kv_eq (kv_of V) s ->
  kv_eq (kv_of (foldl apply_entry V l)) (foldl kv_apply s (concat (entry_command <$> l))).
Proof.
  induction l as [|d l IH]; intros V s Hv Hs; [done|]. simpl in Hv. apply andb_true_iff in Hv as [Hd Hv].
  rewrite fmap_cons, concat_cons, foldl_app. cbn [foldl]. apply IH; [done|].
  destruct d as [|b d]; [exact Hs|]. cbn [entry_command]. unfold valid_entry in Hd.
  destruct (Unmarshal (b :: d)) as [c| | |] eqn:Hu; try done. cbn [foldl].
  rewrite (apply_entry_kv V (b :: d) c) by done. by rewrite Hs.
Qed.

(** Request numbers of a client never fall. *)
Lemma sessions_mono cs : forall s cl, sessions s cl <= sessions (foldl kv_apply s cs) cl.
Proof.
  induction cs as [|c cs IH]; intros s cl; simpl; [lia|]. etrans; [|apply IH]. unfold kv_apply.
  destruct (Z.leb_spec (RequestSeq c) (sessions s (ClientId c))); [lia|]. simpl. case_decide; [subst|]; lia.
Qed.

Lemma session_after s c : RequestSeq c <= sessions (kv_apply s c) (ClientId c).
Proof. unfold kv_apply. destruct (Z.leb_spec (RequestSeq c) (sessions s (ClientId c))); [lia|]. simpl. rewrite decide_True by done. lia. Qed.

(** ** What the machine promises *)

Definition commands (l : list bytes) : list Command := concat (entry_command <$> l).

(** The files hold the state after some prefix of the log, and its length. *)
Definition log_prefix (V : bytes -> option bytes) (i : Z) (l : list bytes) (fs : gmap bytes bytes) : Prop :=
  exists d V', (d <= length l)%nat /\ recoverable true V' (i + Z.of_nat d) fs /\
    kv_eq (kv_of V') (foldl kv_apply (kv_of V) (commands (take d l))).

Definition machine_session (o : option Options) (cs : list MCmd) : M World DB :=
  db ← Open o; run_db (mfold run_mcmd cs) db.

Lemma log_prefix_files V i l fs : forallb valid_entry l = true -> prefix_files V i (log_batches V l) fs -> log_prefix V i l fs.
Proof.
  intros Hv (d & Hd & Hr). rewrite length_log_batches in Hd. unfold after in Hr. rewrite take_log_batches, log_batches_apply in Hr.
  exists d, (foldl apply_entry V (take d l)). split_and!; [done|done|]. apply apply_log_kv; [|done].
  rewrite <- (take_drop d l), forallb_app in Hv. by apply andb_true_iff in Hv as [? _].
Qed.

(** C15: Open a state machine whose files hold the state V at index i and apply the next
    entries of the log, flushing and compacting in any order, under any schedule of
    crashes. If it returns, the store means exactly the key-value map and client
    sessions after all the entries' commands, and the applied index is i plus their
    number. Whether it returns or crashes, the files hold the state after some prefix
    of the entries together with i plus the length of exactly that prefix. *)
Theorem machine_recovers o cs w D torn :
  disk_ok D -> d_wal D = None -> on_disk D torn (files w) -> torn_ok torn -> crash_only w ->
  forallb valid_entry (entries_of cs) = true -> Z.of_nat (length (data (concat (tables D)))) + mcmd_sizes cs < 2 ^ 50 ->
  NextSST (d_state D) + 2 * Z.of_nat (length cs) < 2 ^ 63 -> AppliedIndex (d_state D) + Z.of_nat (length cs) + 1 < 2 ^ 64 ->
  let V := View D in let i := AppliedIndex (d_state D) in let l := entries_of cs in
  runs (machine_session o cs) w
    (fun db w' => kv_eq (kv_of (fun k => (Db.Get db k).2)) (foldl kv_apply (kv_of V) (commands l)) /\
       AppliedIndex_ db = i + Z.of_nat (length l) /\ log_prefix V i l (files w'))
    (fun _ => False)
    (fun w' => log_prefix V i l (files w')).
Proof.
  intros Hd Hm Ho Ht Hg Hok Hsz Hsst Hix V i l. unfold machine_session, Open. apply runs_bind.
  assert (Mode (machine_options o) = mode_of D) as Hmo by (unfold mode_of; by rewrite Hm).
  assert (d_replica D = true) as Hrep by (unfold d_replica; by rewrite Hm).
  assert (forall fs, files_of D fs -> log_prefix V i l fs) as HJ.
  { intros fs Hfs. exists 0%nat, V. rewrite take_0, Z.add_0_r. split_and!; [lia| |done]. rewrite <- Hrep. by apply files_of_recoverable. }
  eapply runs_mono; [apply (Open_safe w (machine_options o) D torn); done|..].
  - intros db w' (Hf & HJ' & Hi & HM & Ha). destruct (Ha Hm) as [Hai Hmem].
    assert (weight db D = Z.of_nat (length (data (concat (tables D))))) as Hw by (unfold weight; by rewrite Hmem).
    assert (tracked V i [] db D) as Htr by (split; [done|exists 0%nat; split_and!; [done|done|lia]|done|simpl; lia]).
    assert (crash_only w') as Hg' by (by eapply crash_only_follows).
    pose proof (run_mcmds_keeps V i cs [] db w' D Hi Htr Hg' Hok) as Hk. unfold rbudget in Hk. rewrite Hw, Hai in Hk.
    specialize (Hk ltac:(split_and!; lia)). unfold keeps, runs in Hk. unfold runs, run_db. cbn [app foldl] in Hk. fold l in Hk.
    destruct (mfold run_mcmd cs (db, w')) as [[[]|e| |] [db1 w1]]; cbn [res_map fst snd] in *; try done; [|by apply log_prefix_files].
    destruct Hk as (_ & Hpre & D1 & Hi1 & [_ _ HM1 Hx1]). rewrite log_batches_apply in HM1. rewrite length_log_batches in Hx1.
    split_and!; [|done|by apply log_prefix_files]. etrans; [|by apply apply_log_kv].
    assert (forall k, (Db.Get db1 k).2 = foldl apply_entry V l k) as HG by (intros k; by rewrite (Get_Mview _ _ _ k Hi1), HM1).
    split; intros x; simpl; by rewrite HG.
  - intros w' (_ & _ & Hc). by apply crash_only_cannot_fail in Hc.
  - intros w' (? & _). auto.
Qed.

(** C21: Retries are harmless: on a store that holds the session of a client after
    a log with one of its commands, applying an entry with the same or a smaller request
    number of that client, whatever it holds and whatever came in between, looks up the
    session and applies an empty batch: it only moves the applied index. *)
Theorem retries_change_nothing V l1 d l2 d' c c' index db w :
  forallb valid_entry (l1 ++ d :: l2) = true -> d <> [] -> Unmarshal d = Ok c ->
  d' <> [] -> Unmarshal d' = Ok c' -> valid_command c' = true -> ClientId c' = ClientId c -> RequestSeq c' <= RequestSeq c ->
  (Db.Get db (sessionKey (ClientId c))).2 = foldl apply_entry V (l1 ++ d :: l2) (sessionKey (ClientId c)) ->
  Apply index d' (db, w) = (lookup (sessionKey (ClientId c)) ;; ApplyBatch index []) (db, w).
Proof.
  intros Hv Hd Hu Hd' Hu' Hc' Hcl Hseq HG. set (V' := foldl apply_entry V (l1 ++ d :: l2)) in *.
  assert (0 < RequestSeq c') as Hp by (unfold valid_command in Hc'; bool_hyps; lia).
  rewrite (Apply_command _ _ c') by done. rewrite Hcl. unfold mbind, M_bind.
  assert (lookup (sessionKey (ClientId c)) (db, w) = (Ok (V' (sessionKey (ClientId c))),
    ((Db.Get db (sessionKey (ClientId c))).1, w))) as -> by (rewrite <- HG; done).
  rewrite <- Hcl, covered_session by done. rewrite (proj2 (Z.leb_le _ _)); [done|]. rewrite Hcl.
  pose proof (apply_log_kv (l1 ++ d :: l2) V (kv_of V) Hv ltac:(done)) as [_ HS]. fold V' in HS. rewrite HS.
  rewrite fmap_app, concat_app, foldl_app, fmap_cons, concat_cons, foldl_app.
  assert (entry_command d = [c]) as -> by (unfold entry_command; destruct d; [done|]; by rewrite Hu).
  etrans; [exact Hseq|]. etrans; [apply session_after|]. apply sessions_mono.
Qed.

(** What EncodeCommand accepts the machine applies: the encoded command is a valid
    log entry, and applying it puts or deletes exactly its key and records its request
    number, unless the client's session is already there. *)
Theorem encoded_command_applies {L : CodecLaws C} V op key value client seq b :
  EncodeCommand op key value client seq = Ok b -> 0 < seq < 2 ^ 64 -> Z.of_nat (length client) < 2 ^ 31 ->
  valid_entry b = true /\ kv_eq (kv_of (apply_entry V b)) (kv_apply (kv_of V) (mkCommand op key value client seq)).
Proof.
  intros He Hseq Hcl. unfold EncodeCommand in He. destruct (is_mutation op) eqn:Hop; [|done]. cbn [negb] in He.
  destruct ((length key =? 0)%nat || (MaxKeyBytes <? Z.of_nat (length key))) eqn:E1; [done|].
  destruct (MaxValueBytes <? Z.of_nat (length value)) eqn:E2; [done|].
  destruct ((length client =? 0)%nat || (seq =? 0)) eqn:E3; [done|].
  apply orb_false_iff in E1 as [_ E1], E3 as [E3 _]. apply Z.ltb_ge in E1, E2. unfold MaxKeyBytes, MaxValueBytes in *.
  set (c := mkCommand op key value client seq) in *. pose proof (unmarshal_marshal _ _ He) as Hu.
  assert (b <> []) as Hne.
  { intros ->. rewrite unmarshal_nil in Hu. injection Hu as Hop' _ _ _ _. by rewrite <- Hop' in Hop. }
  assert (valid_command c = true) as Hc.
  { unfold valid_command. cbn [c Operation ClientId RequestSeq]. rewrite Hop, E3. cbn [negb andb].
    rewrite (proj2 (Z.ltb_lt 0 seq)), (proj2 (Z.ltb_lt seq (2 ^ 64))) by lia. cbn [andb]. unfold command_batch. cbn [forallb].
    rewrite !andb_true_iff. unfold fits_u32. cbn [mKey mValue ClientId RequestSeq c]. rewrite length_PutUint64.
    unfold command_mutation, userKey, sessionKey. cbn [Operation CKey CValue c].
    destruct (op =? OPERATION_DELETE); cbn [mKey mValue]; rewrite !length_app; change (length userPrefix) with 1%nat;
      change (length sessionPrefix) with 9%nat; simpl (length []); rewrite !andb_true_iff, !Z.ltb_lt; lia. }
  split; [|by apply apply_entry_kv]. unfold valid_entry. destruct b; [done|]. by rewrite Hu.
Qed.

End machine.

(** ** Concrete runs *)

Definition put_a : Command := mkCommand OPERATION_PUT (str "a") (str "1") (str "alice") 1.
Definition put_b : Command := mkCommand OPERATION_PUT (str "a") (str "2") (str "bob") 7.

(** An encoding of three commands that keeps protobuf's promises. *)
Definition demo_codec : CommandCodec := {|
  Marshal c :=
    if decide (c = put_a) then Ok (str "put a") else if decide (c = put_b) then Ok (str "put b") else
    if decide (c = noCommand) then Ok [] else Err "unknown command";
  Unmarshal b :=
    if decide (b = str "put a") then Ok put_a else if decide (b = str "put b") then Ok put_b else
    if decide (b = []) then Ok noCommand else Err "unknown encoding"
|}.

Lemma demo_laws : CodecLaws demo_codec.
Proof.
  split; [|done]. intros c b. cbn [Marshal demo_codec].
  destruct (decide (c = put_a)) as [->|_]; [intros [= <-]; vm_compute; reflexivity|].
  destruct (decide (c = put_b)) as [->|_]; [intros [= <-]; vm_compute; reflexivity|].
  destruct (decide (c = noCommand)) as [->|_]; [intros [= <-]; vm_compute; reflexivity|done].
Qed.

Definition demo_log : list MCmd := [MApply (str "put a"); MApply (str "put b"); MApply (str "put a"); MFlush; MApply []].

Lemma machine_recovers_witness :
  let V := View replica_disk in let i := AppliedIndex (d_state replica_disk) in let l := entries_of demo_log in
  runs (@machine_session demo_sizing demo_codec (Some replica_options) demo_log) demo_world
    (fun db w' => kv_eq (kv_of (fun k => (Db.Get db k).2)) (foldl kv_apply (kv_of V) (@commands demo_codec l)) /\
       AppliedIndex_ db = i + Z.of_nat (length l) /\ @log_prefix demo_sizing demo_codec V i l (files w'))
    (fun _ => False)
    (fun w' => @log_prefix demo_sizing demo_codec V i l (files w')).
Proof.
  refine (@machine_recovers demo_sizing demo_codec (Some replica_options) demo_log demo_world replica_disk [] replica_disk_ok eq_refl
    replica_on_disk torn_nil _ _ _ _ _).
  - apply crash_onlyb_spec. vm_compute. reflexivity.
  - vm_compute. reflexivity.
  - vm_compute. reflexivity.
  - vm_compute. reflexivity.
  - vm_compute. reflexivity.
Defined.

(** A machine after the commands of both clients. *)
Definition demo_machine : DB :=
  match @machine_session demo_sizing demo_codec (Some replica_options) [MApply (str "put a"); MApply (str "put b")]
    (mkWorld (files demo_world) []) with
  | (Ok db, _) => db
  | _ => replica_handle
  end.

Lemma retries_change_nothing_witness :
  @Apply demo_sizing demo_codec 3 (str "put a") (demo_machine, demo_world)
  = (lookup (sessionKey (str "alice")) ;; @ApplyBatch demo_sizing 3 []) (demo_machine, demo_world).
Proof.
  refine (@retries_change_nothing demo_sizing demo_codec (fun _ => None) [] (str "put a") [str "put b"] (str "put a") put_a put_a 3
    demo_machine demo_world _ _ _ _ _ _ eq_refl (Z.le_refl _) _); try (vm_compute; reflexivity); by vm_compute.
Defined.

End Kvstate.
