(* ===== verification/Membership.v ===== *)
(** * internal/raft/membership.go: voter configurations

    A configuration is one voter set, or two while a change is in progress; both
    must then reach a majority. Configuration entries travel in the log as a prefix
    followed by JSON. The theorems show that a normalised voter set is sorted and
    free of duplicates, that the entries decode to what was encoded, and that the
    quorums of a configuration and of the next one always share a voter. *)

From S2P Require Import Prelude GoStd Fs Json.

Module Membership.
Import Json.

(** ** Data *)

Record Membership := mkMembership {
  Voters : list Z;
  JointVoters : list Z;
  Index : Z
}.

#[global] Instance Membership_eq_dec : EqDecision Membership.
Proof. solve_decision. Defined.

Record membershipCommand := mkCommand {
  Phase : bytes;
  Old : list Z;
  New : list Z
}.

Definition configJoint : bytes := str "joint".
Definition configFinal : bytes := str "final".

Definition zeroMembership : Membership := mkMembership [] [] 0.

(** ** Voter sets *)

(** The loop of normalizeVoters over the sorted slice; [prev] is result[i-1]. *)
Fixpoint check_voters (prev : option Z) (l : list Z) : option string :=
  match l with
  | [] => None
  | id :: l' =>
      if id =? 0 then Some "voter ID must be non-zero"%string else
      if bool_decide (prev = Some id) then Some "duplicate voter"%string else
      check_voters (Some id) l'
  end.

Definition normalizeVoters (voters : list Z) : res (list Z) :=
  match voters with
  | [] => Err "voter set must not be empty"
  | _ =>
      let result := merge_sort Z.le voters in
      match check_voters None result with Some e => Err e | None => Ok result end
  end.

Fixpoint equalVoters (a b : list Z) : bool :=
  match a, b with
  | [], [] => true
  | x :: a', y :: b' => (x =? y) && equalVoters a' b'
  | _, _ => false
  end.

Definition validateMembership (m : Membership) : option string :=
  match normalizeVoters (Voters m) with
  | Ok voters =>
      if negb (equalVoters voters (Voters m)) then Some "membership voters must be sorted"%string else
      match JointVoters m with
      | [] => None
      | _ =>
          match normalizeVoters (JointVoters m) with
          | Ok joint =>
              if negb (equalVoters joint (JointVoters m)) then Some "joint voters must be sorted"%string else None
          | Err e => Some e
          | _ => Some ""%string
          end
      end
  | Err e => Some e
  | _ => Some ""%string
  end.

Definition containsVoter (voters : list Z) (id : Z) : bool :=
  let i := sort_Search (length voters) (fun i => id <=? voters !!! i) in
  (i <? length voters)%nat && (voters !!! i =? id).

Definition majority (voters : list Z) : Z := Z.of_nat (length voters) / 2 + 1.

(** The order in which a map is traversed does not matter: the result is sorted. *)
Definition unionVoters (m : Membership) : list Z :=
  let set : gset Z := list_to_set (Voters m) ∪ list_to_set (JointVoters m) in
  merge_sort Z.le (elements set).

(** ** Quorums *)

Fixpoint count_voters (acknowledged : Z -> bool) (voters : list Z) (count : Z) : Z :=
  match voters with
  | [] => count
  | id :: l => count_voters acknowledged l (if acknowledged id then count + 1 else count)
  end.

Definition hasSetQuorum (voters : list Z) (acknowledged : Z -> bool) : bool :=
  majority voters <=? count_voters acknowledged voters 0.

Definition hasQuorum (m : Membership) (acknowledged : Z -> bool) : bool :=
  if negb (hasSetQuorum (Voters m) acknowledged) then false else
  (length (JointVoters m) =? 0)%nat || hasSetQuorum (JointVoters m) acknowledged.

Definition voteLost (m : Membership) (rejected : Z -> bool) : bool :=
  if hasSetQuorum (Voters m) rejected then true else
  (0 <? length (JointVoters m))%nat && hasSetQuorum (JointVoters m) rejected.

(** ** Configuration entries *)

Definition membershipPrefix : bytes := byte_of_Z 0 :: str "lsmdb-member-" ++ [byte_of_Z 1].

Definition voters_json (l : list Z) : json := JArr ((fun id => JNum (dec id)) <$> l).

Definition slice_json (l : list Z) : json := match l with [] => JNull | _ => voters_json l end.

(** json.Marshal: "old" is omitted when empty, an empty (nil) "new" is null. *)
Definition command_json (c : membershipCommand) : json :=
  JObj ([(str "phase", JStr (Phase c))] ++
        (if (length (Old c) =? 0)%nat then [] else [(str "old", voters_json (Old c))]) ++
        [(str "new", slice_json (New c))]).

Definition encodeMembership (c : membershipCommand) : bytes :=
  membershipPrefix ++ print Compact 0 (command_json c).

Definition hasMembershipPrefix (data : bytes) : bool :=
  bool_decide (take (length membershipPrefix) data = membershipPrefix).

Definition store_uints (v : json) : option (list Z) :=
  match v with
  | JNull => Some []
  | JArr l => mapM (fun x => store_num parse_uint x 0) l
  | _ => None
  end.

Definition set_command_field (c : membershipCommand) (kv : bytes * json) : option membershipCommand :=
  let '(k, v) := kv in
  if same_name k (str "phase") then
    match v with
    | JNull => Some c
    | JStr s => Some (mkCommand s (Old c) (New c))
    | _ => None
    end else
  if same_name k (str "old") then l ← store_uints v; Some (mkCommand (Phase c) l (New c)) else
  if same_name k (str "new") then l ← store_uints v; Some (mkCommand (Phase c) (Old c) l) else
  Some c.

Fixpoint set_command_fields (c : membershipCommand) (l : list (bytes * json)) : option membershipCommand :=
  match l with
  | [] => Some c
  | kv :: l' => c' ← set_command_field c kv; set_command_fields c' l'
  end.

(** json.Unmarshal into a zero membershipCommand. *)
Definition unmarshal_command (data : bytes) : option membershipCommand :=
  v ← parse data;
  match v with
  | JObj l => set_command_fields (mkCommand [] [] []) l
  | JNull => Some (mkCommand [] [] [])
  | _ => None
  end.

(** None when the data is not a configuration entry. *)
Definition decodeMembership (data : bytes) : res (option membershipCommand) :=
  if negb (hasMembershipPrefix data) then Ok None else
  match unmarshal_command (drop (length membershipPrefix) data) with
  | None => Err "decode membership entry"
  | Some command =>
      if negb (bool_decide (Phase command = configJoint)) &&
         negb (bool_decide (Phase command = configFinal))
      then Err "invalid membership phase" else
      new ← normalizeVoters (New command);
      let command := mkCommand (Phase command) (Old command) new in
      if bool_decide (Phase command = configJoint) then
        old ← normalizeVoters (Old command);
        Ok (Some (mkCommand (Phase command) old (New command)))
      else Ok (Some command)
  end.

Definition IsMembershipEntry (data : bytes) : bool * option string :=
  match decodeMembership data with
  | Ok (Some _) => (true, None)
  | Ok None => (false, None)
  | Err e => (true, Some e)
  | _ => (true, Some ""%string)
  end.

Definition applyMembership (current : Membership) (command : membershipCommand) (index : Z) : res Membership :=
  if bool_decide (Phase command = configJoint) then
    if negb (length (JointVoters current) =? 0)%nat || negb (equalVoters (Voters current) (Old command))
    then Err "joint configuration does not match current voters"
    else Ok (mkMembership (Old command) (New command) index)
  else if bool_decide (Phase command = configFinal) then
    if (length (JointVoters current) =? 0)%nat || negb (equalVoters (JointVoters current) (New command))
    then Err "final configuration has no matching joint configuration"
    else Ok (mkMembership (New command) [] index)
  else Err "unknown membership phase".

(** ** Lemmas: voter sets *)

#[local] Instance Zle_total : Total Z.le.
Proof. intros a b. destruct (Z.le_ge_cases a b); auto. Qed.

(** What every voter set of a valid configuration is. *)
Definition voters_ok (l : list Z) : Prop :=
  l <> [] /\ StronglySorted Z.lt l /\ Forall (fun id => 0 < id < 2 ^ 64) l.

Lemma sorted_lt_le l : StronglySorted Z.lt l -> StronglySorted Z.le l.
Proof. induction 1 as [|x l Hs IH HF]; constructor; [done|]. eapply Forall_impl; [done|]. simpl. lia. Qed.

Lemma sorted_lt_NoDup l : StronglySorted Z.lt l -> NoDup l.
Proof.
  induction 1 as [|x l Hs IH HF]; constructor; [|done]. intros Hx. rewrite Forall_forall in HF.
  specialize (HF x Hx). lia.
Qed.

Lemma sorted_le_lt l : StronglySorted Z.le l -> NoDup l -> StronglySorted Z.lt l.
Proof.
  induction 1 as [|x l Hs IH HF]; intros HN; constructor; inv HN; [auto|].
  rewrite Forall_forall in *. intros y Hy. specialize (HF y Hy).
  assert (x <> y) by congruence. lia.
Qed.

Lemma merge_sort_sorted l : StronglySorted Z.lt l -> merge_sort Z.le l = l.
Proof.
  intros Hl. apply (StronglySorted_unique Z.le).
  - apply (StronglySorted_merge_sort Z.le).
  - by apply sorted_lt_le.
  - apply merge_sort_Permutation.
Qed.

Lemma merge_sort_NoDup l : NoDup l -> StronglySorted Z.lt (merge_sort Z.le l).
Proof.
  intros HN. apply sorted_le_lt; [apply (StronglySorted_merge_sort Z.le)|]. by rewrite merge_sort_Permutation.
Qed.

Lemma check_voters_spec l : forall prev, StronglySorted Z.le l ->
  (forall p, prev = Some p -> Forall (Z.le p) l) ->
  check_voters prev l = None <-> 0 ∉ l /\ NoDup l /\ (forall p, prev = Some p -> p ∉ l).
Proof.
  induction l as [|id l IH]; intros prev Hs Hp; simpl.
  - split; [|done]. intros _. repeat split; [set_solver|constructor|set_solver].
  - inv Hs. destruct (Z.eqb_spec id 0) as [->|Hz]; [split; [done|set_solver]|].
    case_bool_decide as E; [split; [done|]; intros (_ & _ & H3); specialize (H3 id E); set_solver|].
    rewrite IH; [|done|by intros ? [= ->]]. rewrite NoDup_cons. split.
    + intros (H3 & H4 & H5). specialize (H5 id eq_refl). repeat split; [set_solver|done|done|].
      intros p -> [->|Hin]%elem_of_cons; [done|].
      specialize (Hp p eq_refl). inv Hp. rewrite Forall_forall in H2. specialize (H2 p Hin).
      assert (p = id) as -> by lia. done.
    + intros (H3 & (H4 & H5) & H6). repeat split; [set_solver|done|]. by intros ? [= ->].
Qed.

(** normalizeVoters accepts exactly the non-empty lists of distinct non-zero IDs
    and returns them in ascending order. *)
Lemma normalizeVoters_spec l r :
  normalizeVoters l = Ok r <-> l <> [] /\ 0 ∉ l /\ NoDup l /\ r = merge_sort Z.le l.
Proof.
  assert (l <> [] -> normalizeVoters l =
    match check_voters None (merge_sort Z.le l) with Some e => Err e | None => Ok (merge_sort Z.le l) end) as E
    by (by destruct l).
  assert (check_voters None (merge_sort Z.le l) = None <-> 0 ∉ l /\ NoDup l) as C.
  { rewrite check_voters_spec; [|apply (StronglySorted_merge_sort Z.le)|done].
    rewrite !merge_sort_Permutation. naive_solver. }
  destruct (decide (l = [])) as [->|Hne]; [split; [done|naive_solver]|]. rewrite E by done.
  destruct (check_voters None _); naive_solver.
Qed.

Lemma normalizeVoters_ok l r : Forall (fun id => 0 <= id < 2 ^ 64) l -> normalizeVoters l = Ok r -> voters_ok r /\ r ≡ₚ l.
Proof.
  intros HF (Hne & Hz & HN & ->)%normalizeVoters_spec. split; [|apply merge_sort_Permutation].
  repeat split.
  - intros E. apply (f_equal length) in E. rewrite merge_sort_Permutation in E. by destruct l.
  - by apply merge_sort_NoDup.
  - rewrite merge_sort_Permutation. rewrite Forall_forall in *. intros id Hin. specialize (HF id Hin).
    assert (id <> 0) by congruence. lia.
Qed.

Lemma normalizeVoters_cases l : (exists r, normalizeVoters l = Ok r) \/ (exists e, normalizeVoters l = Err e).
Proof. destruct l as [|v l]; simpl; [eauto|]. destruct (check_voters _ _); eauto. Qed.

Lemma normalizeVoters_id l : voters_ok l -> normalizeVoters l = Ok l.
Proof.
  intros (Hne & Hs & HF). apply normalizeVoters_spec. repeat split; [done| | |].
  - intros H0. rewrite Forall_forall in HF. specialize (HF 0 H0). lia.
  - by apply sorted_lt_NoDup.
  - by rewrite merge_sort_sorted.
Qed.

Lemma equalVoters_eq a b : equalVoters a b = true <-> a = b.
Proof.
  revert b. induction a as [|x a IH]; intros [|y b]; simpl; [done|done|done|].
  rewrite andb_true_iff, Z.eqb_eq, IH. naive_solver.
Qed.

Lemma validateMembership_ok m : Forall (fun id => 0 <= id < 2 ^ 64) (Voters m ++ JointVoters m) ->
  validateMembership m = None <-> voters_ok (Voters m) /\ (JointVoters m = [] \/ voters_ok (JointVoters m)).
Proof.
  rewrite Forall_app. intros [HV HJ]. unfold validateMembership.
  assert (forall l, Forall (fun id => 0 <= id < 2 ^ 64) l ->
    voters_ok l <-> normalizeVoters l = Ok l) as E.
  { intros l HF. split; [apply normalizeVoters_id|]. by intros [? _]%normalizeVoters_ok. }
  assert (forall l r, normalizeVoters l = Ok r -> equalVoters r l = true <-> normalizeVoters l = Ok l) as E2.
  { intros l r Hr. rewrite equalVoters_eq, Hr. naive_solver. }
  rewrite !E by done. destruct (normalizeVoters (Voters m)) as [r|e| |] eqn:Hr; [|naive_solver..].
  specialize (E2 _ _ Hr) as E3. rewrite Hr in E3. destruct (equalVoters r (Voters m)) eqn:Eq; cbn [negb]; [|naive_solver].
  destruct (JointVoters m) as [|j l]; [naive_solver|].
  destruct (normalizeVoters (j :: l)) as [r'|e| |] eqn:Hr'; [|naive_solver..].
  specialize (E2 _ _ Hr'). rewrite Hr' in E2. destruct (equalVoters r' (j :: l)); naive_solver.
Qed.

Lemma containsVoter_spec l id : StronglySorted Z.lt l -> containsVoter l id = bool_decide (id ∈ l).
Proof.
  intros Hs. unfold containsVoter.
  assert (forall a b, (a < b)%nat -> (b < length l)%nat -> l !!! a < l !!! b) as Hm.
  { intros a b Hab Hb. destruct (lookup_lt_is_Some_2 l a) as [x Hx]; [lia|]. destruct (lookup_lt_is_Some_2 l b) as [y Hy]; [lia|].
    rewrite (list_lookup_total_correct _ _ _ Hx), (list_lookup_total_correct _ _ _ Hy).
    by apply (sorted_lookup Z.lt l a b). }
  destruct (sort_Search_spec (length l) (fun i => id <=? l !!! i)) as (H1 & H2 & H3).
  { intros a b Hab Hb E%Z.leb_le. apply Z.leb_le. destruct (decide (a = b)) as [->|]; [done|].
    specialize (Hm a b ltac:(lia) Hb). lia. }
  set (r := sort_Search _ _) in *. case_bool_decide as Hin.
  - apply list_elem_of_lookup in Hin as [i Hi]. pose proof (lookup_lt_Some _ _ _ Hi) as Hlt.
    apply list_lookup_total_correct in Hi as Hit.
    assert (r <= i)%nat as Hri. { destruct (decide (r <= i)%nat); [done|]. specialize (H2 i ltac:(lia)). bool_hyps. lia. }
    rewrite (proj2 (Nat.ltb_lt _ _)) by lia. specialize (H3 r ltac:(lia)). apply Z.leb_le in H3. apply Z.eqb_eq.
    destruct (decide (r = i)) as [E|]; [by rewrite E|]. specialize (Hm r i ltac:(lia) Hlt). lia.
  - destruct (Nat.ltb_spec r (length l)); [|done]. apply Z.eqb_neq. intros E. apply Hin. rewrite <- E.
    by apply list_elem_of_lookup_total_2.
Qed.

Lemma unionVoters_sorted m : StronglySorted Z.lt (unionVoters m).
Proof. apply merge_sort_NoDup, NoDup_elements. Qed.

Lemma elem_of_unionVoters m id : id ∈ unionVoters m <-> id ∈ Voters m \/ id ∈ JointVoters m.
Proof. unfold unionVoters. rewrite merge_sort_Permutation. set_solver. Qed.

(** ** Lemmas: quorums *)

Lemma count_voters_filter f l n : count_voters f l n = n + Z.of_nat (length (filter (fun id => f id = true) l)).
Proof.
  revert n. induction l as [|id l IH]; intros n; simpl; [lia|].
  rewrite IH, filter_cons. destruct (f id) eqn:E; case_decide; simpl; try done; lia.
Qed.

Lemma majority_overlap (f g : Z -> bool) l :
  (length l < length (filter (fun id => f id = true) l) + length (filter (fun id => g id = true) l))%nat ->
  exists id, id ∈ l /\ f id = true /\ g id = true.
Proof.
  induction l as [|id l IH]; simpl; [lia|]. rewrite !filter_cons.
  destruct (f id) eqn:Ef, (g id) eqn:Eg; repeat case_decide; simpl; try done; intros Hl;
    [exists id; set_solver|destruct IH as (i & ? & ?); [lia|]; exists i; set_solver..].
Qed.

(** Two majorities of a voter set share a voter. *)
Lemma hasSetQuorum_overlap l f g :
  hasSetQuorum l f = true -> hasSetQuorum l g = true -> exists id, id ∈ l /\ f id = true /\ g id = true.
Proof.
  unfold hasSetQuorum, majority. rewrite !Z.leb_le, !count_voters_filter. intros Hf Hg.
  apply majority_overlap. pose proof (Z.div_mod (Z.of_nat (length l)) 2 ltac:(lia)).
  pose proof (Z.mod_pos_bound (Z.of_nat (length l)) 2 ltac:(lia)). lia.
Qed.

Lemma hasSetQuorum_mono l f g : (forall id, id ∈ l -> f id = true -> g id = true) ->
  hasSetQuorum l f = true -> hasSetQuorum l g = true.
Proof.
  unfold hasSetQuorum. rewrite !Z.leb_le, !count_voters_filter. intros Hfg H.
  assert (length (filter (fun id => f id = true) l) <= length (filter (fun id => g id = true) l))%nat; [|lia].
  clear H. induction l as [|id l IH]; [done|]. rewrite !filter_cons. specialize (IH ltac:(set_solver)).
  specialize (Hfg id ltac:(set_solver)). repeat case_decide; simpl; try lia. naive_solver.
Qed.

Lemma hasQuorum_spec m f : hasQuorum m f = true <->
  hasSetQuorum (Voters m) f = true /\ (JointVoters m = [] \/ hasSetQuorum (JointVoters m) f = true).
Proof.
  unfold hasQuorum. destruct (hasSetQuorum (Voters m) f); cbn [negb]; [|naive_solver].
  rewrite orb_true_iff, Nat.eqb_eq, length_zero_iff_nil. naive_solver.
Qed.

Lemma hasQuorum_mono m f g : (forall id, f id = true -> g id = true) -> hasQuorum m f = true -> hasQuorum m g = true.
Proof.
  rewrite !hasQuorum_spec. intros Hfg (H1 & [H2|H2]); split; eauto using hasSetQuorum_mono.
Qed.

Lemma hasQuorum_overlap m f g : hasQuorum m f = true -> hasQuorum m g = true ->
  exists id, id ∈ Voters m /\ f id = true /\ g id = true.
Proof. rewrite !hasQuorum_spec. intros [Hf _] [Hg _]. by apply hasSetQuorum_overlap. Qed.

(** A lost vote can no longer be won. *)
Lemma voteLost_spec m f : voteLost m f = true <->
  hasSetQuorum (Voters m) f = true \/ (JointVoters m <> [] /\ hasSetQuorum (JointVoters m) f = true).
Proof.
  unfold voteLost. destruct (hasSetQuorum (Voters m) f); [naive_solver|].
  rewrite andb_true_iff, Nat.ltb_lt. destruct (JointVoters m); simpl; naive_solver lia.
Qed.

(** ** Lemmas: configuration entries *)

Lemma hasPrefix_encode c : hasMembershipPrefix (encodeMembership c) = true.
Proof. unfold hasMembershipPrefix, encodeMembership. by rewrite take_app_length, bool_decide_true. Qed.

Lemma nums_ok_voters l : Forall (fun id => 0 <= id < 2 ^ 64) l -> nums_ok (voters_json l).
Proof.
  intros HF. apply nums_JArr. apply Forall_fmap. eapply Forall_impl; [done|]. simpl. intros id Hid.
  exists id. split; [lia|done].
Qed.

Lemma store_uints_voters l : Forall (fun id => 0 <= id < 2 ^ 64) l -> store_uints (voters_json l) = Some l.
Proof.
  intros HF. unfold store_uints, voters_json. induction HF as [|id l Hid HF IH]; [done|].
  rewrite fmap_cons. cbn [mapM]. simpl store_num. rewrite parse_uint_dec by done. rewrite some_bind, IH. done.
Qed.

(** The commands the program encodes. *)
Definition command_ok (c : membershipCommand) : Prop :=
  voters_ok (New c) /\
  ((Phase c = configJoint /\ voters_ok (Old c)) \/ (Phase c = configFinal /\ Old c = [])).

Lemma voters_ok_range l : voters_ok l -> Forall (fun id => 0 <= id < 2 ^ 64) l.
Proof. intros (_ & _ & HF). eapply Forall_impl; [done|]. simpl. lia. Qed.

Lemma unmarshal_encode c : Forall (fun id => 0 <= id < 2 ^ 64) (Old c ++ New c) ->
  unmarshal_command (print Compact 0 (command_json c)) = Some c.
Proof.
  rewrite Forall_app. intros [HO HN]. unfold unmarshal_command. rewrite parse_print_alone, some_bind.
  - destruct c as [p o n]; simpl in HO, HN. unfold command_json; cbn [Phase Old New].
    assert (forall c0, set_command_field c0 (str "new", slice_json n)
      = Some (mkCommand (Phase c0) (Old c0) n)) as En.
    { intros c0. unfold set_command_field. rewrite (eq_refl : same_name (str "new") (str "phase") = false),
        (eq_refl : same_name (str "new") (str "old") = false), (eq_refl : same_name (str "new") (str "new") = true).
      unfold slice_json. destruct n as [|i n]; [done|]. by rewrite store_uints_voters, some_bind. }
    assert (forall c0, set_command_field c0 (str "old", voters_json o) = Some (mkCommand (Phase c0) o (New c0))) as Eo.
    { intros c0. unfold set_command_field. rewrite (eq_refl : same_name (str "old") (str "phase") = false),
        (eq_refl : same_name (str "old") (str "old") = true). by rewrite store_uints_voters, some_bind. }
    destruct o as [|i o]; cbn [length Nat.eqb app set_command_fields].
    + change (set_command_field _ (str "phase", JStr p)) with (Some (mkCommand p [] [])). rewrite some_bind, En. done.
    + change (set_command_field _ (str "phase", JStr p)) with (Some (mkCommand p [] [])). rewrite some_bind.
      rewrite Eo, some_bind, En by done. done.
  - unfold command_json. apply nums_JObj. apply Forall_app. split; [by repeat constructor|]. apply Forall_app. split.
    + destruct (Old c) as [|i o]; [constructor|]. constructor; [|constructor]. by apply nums_ok_voters.
    + constructor; [|constructor]. cbn [snd]. destruct (New c) as [|i n]; [done|]. by apply nums_ok_voters.
Qed.

Lemma decode_encode c : command_ok c -> decodeMembership (encodeMembership c) = Ok (Some c).
Proof.
  intros (HN & HO). unfold decodeMembership. rewrite hasPrefix_encode. cbn [negb].
  unfold encodeMembership. rewrite drop_app_length, unmarshal_encode.
  - destruct c as [p o n]; cbn [Phase Old New] in *. destruct HO as [[-> HO] | [-> HO]]; cbv beta iota;
      rewrite ?(bool_decide_true (configJoint = configJoint)), ?(bool_decide_true (configFinal = configFinal)),
        ?(bool_decide_false (configFinal = configJoint)) by done;
      cbn [negb andb Phase Old New]; by repeat rewrite normalizeVoters_id by done.
  - apply Forall_app. split; [|by apply voters_ok_range]. destruct HO as [[_ ?] | [_ ->]]; [by apply voters_ok_range|constructor].
Qed.

(** A decoded command has valid voter sets. *)
Lemma store_uints_range v l : store_uints v = Some l -> Forall (fun id => 0 <= id < 2 ^ 64) l.
Proof.
  destruct v as [| | | |js|]; simpl; try done; [by intros [= <-]|]. intros Hm. apply mapM_Some in Hm.
  induction Hm as [|x id js l Hx Hm IH]; constructor; [|done].
  destruct x; simpl in Hx; try done; [injection Hx as <-; lia|by eapply parse_uint_range].
Qed.

Lemma unmarshal_range data c : unmarshal_command data = Some c -> Forall (fun id => 0 <= id < 2 ^ 64) (Old c ++ New c).
Proof.
  unfold unmarshal_command. destruct (parse data) as [v|]; [|done]. rewrite some_bind.
  assert (forall l c0, Forall (fun id => 0 <= id < 2 ^ 64) (Old c0 ++ New c0) -> set_command_fields c0 l = Some c ->
    Forall (fun id => 0 <= id < 2 ^ 64) (Old c ++ New c)) as Hf.
  { induction l as [|[k x] l IH]; intros c0 Hc; cbn [set_command_fields]; [by intros [= <-]|].
    destruct (set_command_field c0 (k, x)) as [c1|] eqn:E; [|done]. rewrite some_bind. apply IH.
    rewrite Forall_app in Hc. destruct Hc as [HO HN]. unfold set_command_field in E.
    repeat (destruct (same_name _ _); [|]).
    all: try (destruct x; simplify_eq; by rewrite Forall_app).
    all: try (destruct (store_uints x) as [u|] eqn:Eu; [|done]; rewrite some_bind in E; simplify_eq; simpl;
      rewrite Forall_app; split; [done || by eapply store_uints_range|done || by eapply store_uints_range]).
    all: simplify_eq; by rewrite Forall_app. }
  destruct v as [| | | | |l]; try done; [by intros [= <-]|]. apply Hf. constructor.
Qed.

Lemma decode_ok data c : decodeMembership data = Ok (Some c) ->
  voters_ok (New c) /\ (Phase c = configJoint -> voters_ok (Old c)).
Proof.
  unfold decodeMembership. destruct (hasMembershipPrefix data); cbn [negb]; [|done].
  destruct (unmarshal_command _) as [c0|] eqn:E; [|done]. apply unmarshal_range in E. rewrite Forall_app in E.
  destruct E as [HO HN]. destruct (negb _ && negb _); [done|].
  destruct (normalizeVoters (New c0)) as [new|e| |] eqn:En; try done. rewrite bind_ok.
  apply normalizeVoters_ok in En as [Hn _]; [|done]. cbn [Phase Old New].
  case_bool_decide as Ep; [|intros [= <-]; by split].
  destruct (normalizeVoters (Old c0)) as [old|e| |] eqn:Eo; try done. rewrite bind_ok. intros [= <-].
  apply normalizeVoters_ok in Eo as [Ho _]; [|done]. by split.
Qed.

(** What every configuration of a node is. *)
Definition memb_ok (m : Membership) : Prop :=
  voters_ok (Voters m) /\ (JointVoters m = [] \/ voters_ok (JointVoters m)).

(** applyMembership moves to a configuration whose quorums meet the old one's. *)
Lemma applyMembership_ok m c i m' : applyMembership m c i = Ok m' ->
  (JointVoters m = [] /\ Voters m = Old c /\ m' = mkMembership (Old c) (New c) i) \/
  (JointVoters m <> [] /\ JointVoters m = New c /\ m' = mkMembership (New c) [] i).
Proof.
  unfold applyMembership. case_bool_decide; [|case_bool_decide; [|done]];
    destruct (Nat.eqb_spec (length (JointVoters m)) 0) as [E|E]; cbn [negb orb]; try done.
  - rewrite length_zero_iff_nil in E.
    destruct (equalVoters (Voters m) (Old c)) eqn:E1; [|done]. apply equalVoters_eq in E1. cbn [negb]. naive_solver.
  - rewrite length_zero_iff_nil in E.
    destruct (equalVoters (JointVoters m) (New c)) eqn:E1; [|done]. apply equalVoters_eq in E1. cbn [negb]. naive_solver.
Qed.

Lemma applyMembership_memb_ok m data c i m' :
  memb_ok m -> decodeMembership data = Ok (Some c) -> applyMembership m c i = Ok m' -> memb_ok m'.
Proof.
  intros [HV HJ] [HN HO]%decode_ok [(E1 & E2 & ->) | (E1 & E2 & ->)]%applyMembership_ok; split; simpl; auto.
  by rewrite <- E2.
Qed.

(** ** Properties *)

(** C20: quorums of a configuration and of the one that a configuration entry turns
    it into always share a voter: a stable configuration and the joint one that
    leaves it, and the joint one and the final one, cannot decide independently. *)
Theorem membership_change_overlap m c i m' f g :
  applyMembership m c i = Ok m' -> hasQuorum m f = true -> hasQuorum m' g = true ->
  exists id, f id = true /\ g id = true.
Proof.
  intros [(HJ & HV & ->) | (HJ & HV & ->)]%applyMembership_ok; rewrite !hasQuorum_spec;
    intros [Hf Hf'] [Hg Hg']; cbn [Voters JointVoters] in *.
  - rewrite HV in Hf. destruct (hasSetQuorum_overlap _ _ _ Hf Hg) as (id & _ & ?). by exists id.
  - destruct Hf' as [?|Hf']; [done|]. rewrite HV in Hf'.
    destruct (hasSetQuorum_overlap _ _ _ Hf' Hg) as (id & _ & ?). by exists id.
Qed.

Lemma membership_change_overlap_witness : exists id : Z,
  bool_decide (id ∈ [1; 2]) = true /\ bool_decide (id ∈ [2; 4; 5; 1]) = true.
Proof.
  exact (membership_change_overlap (mkMembership [1; 2; 3] [] 0) (mkCommand configJoint [1; 2; 3] [2; 4; 5]) 7
    (mkMembership [1; 2; 3] [2; 4; 5] 7) (fun id => bool_decide (id ∈ [1; 2]))
    (fun id => bool_decide (id ∈ [2; 4; 5; 1])) eq_refl eq_refl eq_refl).
Defined.

(** A vote that is lost cannot be won: no set of IDs disjoint from the rejecting
    ones is a quorum, so giving up the campaign loses nothing. *)
Theorem voteLost_final m granted rejected :
  voteLost m rejected = true -> (forall id, granted id && rejected id = false) -> hasQuorum m granted = false.
Proof.
  intros HL Hd. apply not_true_iff_false. intros [HV HJ]%hasQuorum_spec. apply voteLost_spec in HL as [HL|[Hne HL]].
  - destruct (hasSetQuorum_overlap _ _ _ HV HL) as (id & _ & H1 & H2). specialize (Hd id). by rewrite H1, H2 in Hd.
  - destruct HJ as [|HJ]; [done|]. destruct (hasSetQuorum_overlap _ _ _ HJ HL) as (id & _ & H1 & H2).
    specialize (Hd id). by rewrite H1, H2 in Hd.
Qed.

(** A configuration entry decodes to the command that was encoded, and a command
    with unsorted voter lists to the same sets in ascending order. *)
Theorem decode_encodeMembership phase old new old' new' :
  Forall (fun id => 0 <= id < 2 ^ 64) (old ++ new) ->
  normalizeVoters new = Ok new' ->
  (phase = configJoint /\ normalizeVoters old = Ok old') \/ (phase = configFinal /\ old' = old) ->
  decodeMembership (encodeMembership (mkCommand phase old new)) = Ok (Some (mkCommand phase old' new')).
Proof.
  intros HF HN HO. unfold decodeMembership. rewrite hasPrefix_encode. cbn [negb].
  unfold encodeMembership. rewrite drop_app_length, unmarshal_encode by done. cbn [Phase Old New].
  destruct HO as [[-> HO] | [-> ->]];
    rewrite ?(bool_decide_true (configJoint = configJoint)), ?(bool_decide_true (configFinal = configFinal)),
      ?(bool_decide_false (configFinal = configJoint)) by done; cbn [negb andb]; by rewrite HN, ?HO.
Qed.

Lemma decode_encodeMembership_witness :
  decodeMembership (encodeMembership (mkCommand configJoint [2; 1] [3; 1; 2]))
  = Ok (Some (mkCommand configJoint [1; 2] [1; 2; 3])).
Proof.
  apply (decode_encodeMembership configJoint [2; 1] [3; 1; 2] [1; 2] [1; 2; 3]).
  - repeat constructor; lia.
  - reflexivity.
  - left. split; reflexivity.
Defined.

End Membership.
