(* ===== verification/RaftTypes.v ===== *)
(** * internal/raft/types.go: the data of the consensus core

    Roles, log entries, messages, the effects of a transition ([Update]) and the
    configuration of a node, with Config.validate and Update.merge. Terms, indexes
    and node IDs are uint64 values, kept as integers; additions that Go performs on
    them wrap around where the node computes them. *)

From S2P Require Import Prelude GoStd Fs Json Membership.

Module Raft.
Import Membership.

(** ** Roles and messages *)

Inductive Role := Follower | PreCandidate | Candidate | Leader.
#[global] Instance Role_eq_dec : EqDecision Role.
Proof. solve_decision. Defined.

Definition Role_String (r : Role) : bytes :=
  match r with
  | Follower => str "follower"
  | PreCandidate => str "pre-candidate"
  | Candidate => str "candidate"
  | Leader => str "leader"
  end.

Inductive MessageType :=
| MsgPreVote | MsgPreVoteResponse | MsgVote | MsgVoteResponse
| MsgAppend | MsgAppendResponse | MsgSnapshot | MsgSnapshotResponse.
#[global] Instance MessageType_eq_dec : EqDecision MessageType.
Proof. solve_decision. Defined.

Record Entry := mkEntry { e_index : Z; e_term : Z; e_data : bytes }.
#[global] Instance Entry_eq_dec : EqDecision Entry.
Proof. solve_decision. Defined.

Record HardState := mkHard { hs_term : Z; hs_votedFor : Z }.

Record Snapshot := mkSnapshot {
  s_index : Z;
  s_term : Z;
  s_data : bytes;
  s_membership : Membership
}.

Definition zeroSnapshot : Snapshot := mkSnapshot 0 0 [] zeroMembership.

Inductive MessageOrigin :=
| OriginOther | OriginHeartbeat | OriginProposal | OriginCommitAdvance | OriginAckResend.
#[global] Instance MessageOrigin_eq_dec : EqDecision MessageOrigin.
Proof. solve_decision. Defined.

Definition Origin_String (o : MessageOrigin) : bytes :=
  match o with
  | OriginHeartbeat => str "heartbeat"
  | OriginProposal => str "proposal"
  | OriginCommitAdvance => str "commit_advance"
  | OriginAckResend => str "ack_resend"
  | OriginOther => str "other"
  end.

Record Message := mkMessage {
  m_type : MessageType;
  m_from : Z;
  m_to : Z;
  m_term : Z;
  m_logIndex : Z;
  m_logTerm : Z;
  m_entries : list Entry;
  m_leaderCommit : Z;
  m_reject : bool;
  m_rejectHint : Z;
  m_context : Z;
  m_snapshot : option Snapshot;
  m_origin : MessageOrigin
}.

(** ** Effects of a transition *)

Record Update := mkUpdate {
  u_hardState : option HardState;
  u_truncateFrom : Z;
  u_entries : list Entry;
  u_messages : list Message;
  u_committed : list Entry;
  u_roleChanged : bool;
  u_snapshot : option Snapshot;
  u_droppedAppend : bytes
}.

Definition noUpdate : Update := mkUpdate None 0 [] [] [] false None [].

(** [x if it is set, y otherwise]. *)
Definition over {A} (x y : option A) : option A := match x with Some _ => x | None => y end.

Definition merge (u other : Update) : Update :=
  mkUpdate
    (over (u_hardState other) (u_hardState u))
    (if u_truncateFrom other =? 0 then u_truncateFrom u else u_truncateFrom other)
    (u_entries u ++ u_entries other)
    (u_messages u ++ u_messages other)
    (u_committed u ++ u_committed other)
    (u_roleChanged u || u_roleChanged other)
    (over (u_snapshot other) (u_snapshot u))
    (match u_droppedAppend other with [] => u_droppedAppend u | d => d end).

(** [update.Messages = append(update.Messages, ms...)] *)
Definition add_messages (ms : list Message) (u : Update) : Update :=
  mkUpdate (u_hardState u) (u_truncateFrom u) (u_entries u) (u_messages u ++ ms)
    (u_committed u) (u_roleChanged u) (u_snapshot u) (u_droppedAppend u).

(** ** Configuration *)

Record Config := mkConfig {
  c_ID : Z;
  c_Peers : list Z;
  c_ElectionTickMin : Z;
  c_ElectionTickMax : Z;
  c_HeartbeatTicks : Z;
  c_CheckQuorumTicks : Z;
  c_RandomSeed : Z;
  c_AppliedIndex : Z;
  c_maxAppendBytes : Z;
  c_inflightResendTicks : Z
}.

Fixpoint validate_peers (seen : gset Z) (l : list Z) : option string :=
  match l with
  | [] => None
  | peer :: l' =>
      if peer =? 0 then Some "raft peer ID must be non-zero"%string else
      if bool_decide (peer ∈ seen) then Some "duplicate raft peer"%string else
      validate_peers ({[peer]} ∪ seen) l'
  end.

Definition validate (c : Config) : option string :=
  if c_ID c =? 0 then Some "raft ID must be non-zero"%string else
  if (length (c_Peers c) =? 0)%nat then Some "raft peers must not be empty"%string else
  match validate_peers ∅ (c_Peers c) with
  | Some e => Some e
  | None =>
      if (c_ElectionTickMin c <=? 0) || (c_ElectionTickMax c <=? c_ElectionTickMin c)
      then Some "invalid election tick range"%string else
      if (c_HeartbeatTicks c <=? 0) || (c_ElectionTickMin c <=? c_HeartbeatTicks c)
      then Some "heartbeat ticks must be positive and below election minimum"%string else
      if (c_CheckQuorumTicks c <=? 0) || (c_ElectionTickMin c <? c_CheckQuorumTicks c)
      then Some "check quorum ticks must be positive and at most election minimum"%string else
      None
  end.

(** ** Status and limits *)

Record Status := mkStatus {
  st_ID : Z;
  st_Role : Role;
  st_Term : Z;
  st_LeaderID : Z;
  st_CommitIndex : Z;
  st_LastLogIndex : Z;
  st_SnapshotIndex : Z;
  st_RetainedLogEntries : Z;
  st_VotedFor : Z;
  st_MatchIndex : gmap Z Z;
  st_Membership : Membership;
  st_MalformedAppendsDropped : Z;
  st_VotesIgnoredInLease : Z
}.

Definition ErrNotLeader : string := "raft node is not leader".
Definition ErrReadNotReady : string := "raft leader is not ready for linearizable reads".
Definition ErrMembershipChangeInProgress : string := "raft membership change is already in progress".
Definition ErrEntryTooLarge : string := "raft entry data exceeds 4227072 bytes".

Definition MaxEntryBytes : Z := 4 * 2 ^ 20 + 32 * 2 ^ 10.
Definition EntryOverheadBytes : Z := 32.
Definition MessageEnvelopeBytes : Z := 121.
Definition defaultMaxAppendBytes : Z := 2 ^ 20.
Definition defaultInflightResendTicks : Z := 5.

(** ** Lemmas *)

Lemma validate_peers_None l seen : validate_peers seen l = None <->
  0 ∉ l /\ NoDup l /\ (forall p, p ∈ l -> p ∉ seen).
Proof.
  revert seen. induction l as [|p l IH]; intros seen; simpl.
  - split; [|done]. intros _. repeat split; [set_solver|constructor|set_solver].
  - destruct (Z.eqb_spec p 0) as [->|]; [split; [done|set_solver]|].
    case_bool_decide; [split; [done|set_solver]|]. rewrite IH, NoDup_cons. split; [|set_solver].
    intros (H1 & H2 & H3). repeat split; [set_solver|set_solver|done|].
    intros q [->|Hq]%elem_of_cons; [done|]. specialize (H3 q Hq). set_solver.
Qed.

(** merge keeps what either side set, the later one first. *)
Lemma merge_assoc u v w : merge (merge u v) w = merge u (merge v w).
Proof.
  unfold merge; cbn [u_hardState u_truncateFrom u_entries u_messages u_committed u_roleChanged u_snapshot u_droppedAppend].
  f_equal; try by rewrite app_assoc.
  - by destruct (u_hardState w), (u_hardState v).
  - destruct (Z.eqb_spec (u_truncateFrom w) 0) as [E|E]; [done|]. by rewrite (proj2 (Z.eqb_neq _ _) E).
  - by rewrite orb_assoc.
  - by destruct (u_snapshot w), (u_snapshot v).
  - by destruct (u_droppedAppend w), (u_droppedAppend v).
Qed.

Lemma merge_noUpdate_l u : merge noUpdate u = u.
Proof.
  destruct u as [h t e m c r s d]. unfold merge, noUpdate; simpl. f_equal; try by destruct h.
  - by destruct (Z.eqb_spec t 0).
  - by destruct s.
  - by destruct d.
Qed.

Lemma merge_noUpdate_r u : merge u noUpdate = u.
Proof.
  destruct u as [h t e m c r s d]. unfold merge, noUpdate; simpl. by rewrite !app_nil_r, orb_false_r.
Qed.

End Raft.
