(* ===== verification/RaftNode.v ===== *)
(** * internal/raft/node.go: the consensus state machine

    The state of a node and every operation on it. An operation is a computation
    of type [M Node A]: it may change the node also when it returns an error, and it
    may panic (maybeCommit, and a write to a nil map). Slices of entries are lists:
    the code copies entries at every boundary and never modifies one in place. The
    maps outstanding and outstandingAge are nil until the node first leads. *)

From S2P Require Import Prelude GoStd Fs Json Membership RaftTypes.

Module Node.
Import Json Membership Raft.

(** ** State *)

Record Node := mkNode {
  cfg : Config;
  role : Role;
  term : Z;
  votedFor : Z;
  leaderID : Z;
  snapshot : Snapshot;
  log : list Entry;
  commit : Z;
  initialMembership : Membership;
  membership : Membership;
  electionElapsed : Z;
  electionTimeout : Z;
  heartbeatElapsed : Z;
  quorumElapsed : Z;
  random : Z;
  votes : gmap Z bool;
  nextIndex : gmap Z Z;
  matchIndex : gmap Z Z;
  recentActive : gmap Z bool;
  outstanding : option (gmap Z Z);
  outstandingAge : option (gmap Z Z);
  malformedAppendsDropped : Z;
  votesIgnoredInLease : Z
}.

(** Assignment to one field. *)
Definition with_role (x : Role) (n : Node) : Node :=
  mkNode (cfg n) x (term n) (votedFor n) (leaderID n) (snapshot n) (log n) (commit n) (initialMembership n)
    (membership n) (electionElapsed n) (electionTimeout n) (heartbeatElapsed n) (quorumElapsed n) (random n)
    (votes n) (nextIndex n) (matchIndex n) (recentActive n) (outstanding n) (outstandingAge n)
    (malformedAppendsDropped n) (votesIgnoredInLease n).
Definition with_term (x : Z) (n : Node) : Node :=
  mkNode (cfg n) (role n) x (votedFor n) (leaderID n) (snapshot n) (log n) (commit n) (initialMembership n)
    (membership n) (electionElapsed n) (electionTimeout n) (heartbeatElapsed n) (quorumElapsed n) (random n)
    (votes n) (nextIndex n) (matchIndex n) (recentActive n) (outstanding n) (outstandingAge n)
    (malformedAppendsDropped n) (votesIgnoredInLease n).
Definition with_votedFor (x : Z) (n : Node) : Node :=
  mkNode (cfg n) (role n) (term n) x (leaderID n) (snapshot n) (log n) (commit n) (initialMembership n)
    (membership n) (electionElapsed n) (electionTimeout n) (heartbeatElapsed n) (quorumElapsed n) (random n)
    (votes n) (nextIndex n) (matchIndex n) (recentActive n) (outstanding n) (outstandingAge n)
    (malformedAppendsDropped n) (votesIgnoredInLease n).
Definition with_leaderID (x : Z) (n : Node) : Node :=
  mkNode (cfg n) (role n) (term n) (votedFor n) x (snapshot n) (log n) (commit n) (initialMembership n)
    (membership n) (electionElapsed n) (electionTimeout n) (heartbeatElapsed n) (quorumElapsed n) (random n)
    (votes n) (nextIndex n) (matchIndex n) (recentActive n) (outstanding n) (outstandingAge n)
    (malformedAppendsDropped n) (votesIgnoredInLease n).
Definition with_snapshot (x : Snapshot) (n : Node) : Node :=
  mkNode (cfg n) (role n) (term n) (votedFor n) (leaderID n) x (log n) (commit n) (initialMembership n)
    (membership n) (electionElapsed n) (electionTimeout n) (heartbeatElapsed n) (quorumElapsed n) (random n)
    (votes n) (nextIndex n) (matchIndex n) (recentActive n) (outstanding n) (outstandingAge n)
    (malformedAppendsDropped n) (votesIgnoredInLease n).
Definition with_log (x : list Entry) (n : Node) : Node :=
  mkNode (cfg n) (role n) (term n) (votedFor n) (leaderID n) (snapshot n) x (commit n) (initialMembership n)
    (membership n) (electionElapsed n) (electionTimeout n) (heartbeatElapsed n) (quorumElapsed n) (random n)
    (votes n) (nextIndex n) (matchIndex n) (recentActive n) (outstanding n) (outstandingAge n)
    (malformedAppendsDropped n) (votesIgnoredInLease n).
Definition with_commit (x : Z) (n : Node) : Node :=
  mkNode (cfg n) (role n) (term n) (votedFor n) (leaderID n) (snapshot n) (log n) x (initialMembership n)
    (membership n) (electionElapsed n) (electionTimeout n) (heartbeatElapsed n) (quorumElapsed n) (random n)
    (votes n) (nextIndex n) (matchIndex n) (recentActive n) (outstanding n) (outstandingAge n)
    (malformedAppendsDropped n) (votesIgnoredInLease n).
Definition with_membership (x : Membership) (n : Node) : Node :=
  mkNode (cfg n) (role n) (term n) (votedFor n) (leaderID n) (snapshot n) (log n) (commit n) (initialMembership n)
    x (electionElapsed n) (electionTimeout n) (heartbeatElapsed n) (quorumElapsed n) (random n) (votes n)
    (nextIndex n) (matchIndex n) (recentActive n) (outstanding n) (outstandingAge n)
    (malformedAppendsDropped n) (votesIgnoredInLease n).
Definition with_electionElapsed (x : Z) (n : Node) : Node :=
  mkNode (cfg n) (role n) (term n) (votedFor n) (leaderID n) (snapshot n) (log n) (commit n) (initialMembership n)
    (membership n) x (electionTimeout n) (heartbeatElapsed n) (quorumElapsed n) (random n) (votes n)
    (nextIndex n) (matchIndex n) (recentActive n) (outstanding n) (outstandingAge n)
    (malformedAppendsDropped n) (votesIgnoredInLease n).
Definition with_electionTimeout (x : Z) (n : Node) : Node :=
  mkNode (cfg n) (role n) (term n) (votedFor n) (leaderID n) (snapshot n) (log n) (commit n) (initialMembership n)
    (membership n) (electionElapsed n) x (heartbeatElapsed n) (quorumElapsed n) (random n) (votes n)
    (nextIndex n) (matchIndex n) (recentActive n) (outstanding n) (outstandingAge n)
    (malformedAppendsDropped n) (votesIgnoredInLease n).
Definition with_heartbeatElapsed (x : Z) (n : Node) : Node :=
  mkNode (cfg n) (role n) (term n) (votedFor n) (leaderID n) (snapshot n) (log n) (commit n) (initialMembership n)
    (membership n) (electionElapsed n) (electionTimeout n) x (quorumElapsed n) (random n) (votes n)
    (nextIndex n) (matchIndex n) (recentActive n) (outstanding n) (outstandingAge n)
    (malformedAppendsDropped n) (votesIgnoredInLease n).
Definition with_quorumElapsed (x : Z) (n : Node) : Node :=
  mkNode (cfg n) (role n) (term n) (votedFor n) (leaderID n) (snapshot n) (log n) (commit n) (initialMembership n)
    (membership n) (electionElapsed n) (electionTimeout n) (heartbeatElapsed n) x (random n) (votes n)
    (nextIndex n) (matchIndex n) (recentActive n) (outstanding n) (outstandingAge n)
    (malformedAppendsDropped n) (votesIgnoredInLease n).
Definition with_random (x : Z) (n : Node) : Node :=
  mkNode (cfg n) (role n) (term n) (votedFor n) (leaderID n) (snapshot n) (log n) (commit n) (initialMembership n)
    (membership n) (electionElapsed n) (electionTimeout n) (heartbeatElapsed n) (quorumElapsed n) x (votes n)
    (nextIndex n) (matchIndex n) (recentActive n) (outstanding n) (outstandingAge n)
    (malformedAppendsDropped n) (votesIgnoredInLease n).
Definition with_votes (x : gmap Z bool) (n : Node) : Node :=
  mkNode (cfg n) (role n) (term n) (votedFor n) (leaderID n) (snapshot n) (log n) (commit n) (initialMembership n)
    (membership n) (electionElapsed n) (electionTimeout n) (heartbeatElapsed n) (quorumElapsed n) (random n)
    x (nextIndex n) (matchIndex n) (recentActive n) (outstanding n) (outstandingAge n)
    (malformedAppendsDropped n) (votesIgnoredInLease n).
Definition with_nextIndex (x : gmap Z Z) (n : Node) : Node :=
  mkNode (cfg n) (role n) (term n) (votedFor n) (leaderID n) (snapshot n) (log n) (commit n) (initialMembership n)
    (membership n) (electionElapsed n) (electionTimeout n) (heartbeatElapsed n) (quorumElapsed n) (random n)
    (votes n) x (matchIndex n) (recentActive n) (outstanding n) (outstandingAge n)
    (malformedAppendsDropped n) (votesIgnoredInLease n).
Definition with_matchIndex (x : gmap Z Z) (n : Node) : Node :=
  mkNode (cfg n) (role n) (term n) (votedFor n) (leaderID n) (snapshot n) (log n) (commit n) (initialMembership n)
    (membership n) (electionElapsed n) (electionTimeout n) (heartbeatElapsed n) (quorumElapsed n) (random n)
    (votes n) (nextIndex n) x (recentActive n) (outstanding n) (outstandingAge n) (malformedAppendsDropped n)
    (votesIgnoredInLease n).
Definition with_recentActive (x : gmap Z bool) (n : Node) : Node :=
  mkNode (cfg n) (role n) (term n) (votedFor n) (leaderID n) (snapshot n) (log n) (commit n) (initialMembership n)
    (membership n) (electionElapsed n) (electionTimeout n) (heartbeatElapsed n) (quorumElapsed n) (random n)
    (votes n) (nextIndex n) (matchIndex n) x (outstanding n) (outstandingAge n) (malformedAppendsDropped n)
    (votesIgnoredInLease n).
Definition with_outstanding (x : option (gmap Z Z)) (n : Node) : Node :=
  mkNode (cfg n) (role n) (term n) (votedFor n) (leaderID n) (snapshot n) (log n) (commit n) (initialMembership n)
    (membership n) (electionElapsed n) (electionTimeout n) (heartbeatElapsed n) (quorumElapsed n) (random n)
    (votes n) (nextIndex n) (matchIndex n) (recentActive n) x (outstandingAge n) (malformedAppendsDropped n)
    (votesIgnoredInLease n).
Definition with_outstandingAge (x : option (gmap Z Z)) (n : Node) : Node :=
  mkNode (cfg n) (role n) (term n) (votedFor n) (leaderID n) (snapshot n) (log n) (commit n) (initialMembership n)
    (membership n) (electionElapsed n) (electionTimeout n) (heartbeatElapsed n) (quorumElapsed n) (random n)
    (votes n) (nextIndex n) (matchIndex n) (recentActive n) (outstanding n) x (malformedAppendsDropped n)
    (votesIgnoredInLease n).
Definition with_malformedAppendsDropped (x : Z) (n : Node) : Node :=
  mkNode (cfg n) (role n) (term n) (votedFor n) (leaderID n) (snapshot n) (log n) (commit n) (initialMembership n)
    (membership n) (electionElapsed n) (electionTimeout n) (heartbeatElapsed n) (quorumElapsed n) (random n)
    (votes n) (nextIndex n) (matchIndex n) (recentActive n) (outstanding n) (outstandingAge n) x
    (votesIgnoredInLease n).
Definition with_votesIgnoredInLease (x : Z) (n : Node) : Node :=
  mkNode (cfg n) (role n) (term n) (votedFor n) (leaderID n) (snapshot n) (log n) (commit n) (initialMembership n)
    (membership n) (electionElapsed n) (electionTimeout n) (heartbeatElapsed n) (quorumElapsed n) (random n)
    (votes n) (nextIndex n) (matchIndex n) (recentActive n) (outstanding n) (outstandingAge n)
    (malformedAppendsDropped n) x.

Ltac nsimpl := cbn [cfg role term votedFor leaderID snapshot log commit initialMembership membership electionElapsed electionTimeout heartbeatElapsed quorumElapsed random votes nextIndex matchIndex recentActive outstanding outstandingAge malformedAppendsDropped votesIgnoredInLease
  with_role with_term with_votedFor with_leaderID with_snapshot with_log with_commit with_membership with_electionElapsed with_electionTimeout with_heartbeatElapsed with_quorumElapsed with_random with_votes with_nextIndex with_matchIndex with_recentActive with_outstanding with_outstandingAge with_malformedAppendsDropped with_votesIgnoredInLease].
Ltac nsimpl_all := cbn [cfg role term votedFor leaderID snapshot log commit initialMembership membership electionElapsed electionTimeout heartbeatElapsed quorumElapsed random votes nextIndex matchIndex recentActive outstanding outstandingAge malformedAppendsDropped votesIgnoredInLease
  with_role with_term with_votedFor with_leaderID with_snapshot with_log with_commit with_membership with_electionElapsed with_electionTimeout with_heartbeatElapsed with_quorumElapsed with_random with_votes with_nextIndex with_matchIndex with_recentActive with_outstanding with_outstandingAge with_malformedAppendsDropped with_votesIgnoredInLease] in *.

(** ** Small steps of the code *)

Definition get : M Node Node := gets id.
Definition panic {A} : M Node A := fun n => (Panic, n).

(** [m[k]]: a missing key, or a nil map, reads as the zero value. *)
Definition at0 (m : gmap Z Z) (k : Z) : Z := default 0 (m !! k).
Definition at_false (m : gmap Z bool) (k : Z) : bool := default false (m !! k).
Definition at_nil (m : option (gmap Z Z)) (k : Z) : Z := match m with Some m => at0 m k | None => 0 end.

Definition set_vote (id : Z) (v : bool) : M Node unit := modify (fun n => with_votes (<[id := v]> (votes n)) n).
Definition set_next (id v : Z) : M Node unit := modify (fun n => with_nextIndex (<[id := v]> (nextIndex n)) n).
Definition set_match (id v : Z) : M Node unit := modify (fun n => with_matchIndex (<[id := v]> (matchIndex n)) n).
Definition set_active (id : Z) (v : bool) : M Node unit :=
  modify (fun n => with_recentActive (<[id := v]> (recentActive n)) n).
(** A write to a nil map panics. *)
Definition set_outstanding (id v : Z) : M Node unit := n ← get;
  match outstanding n with Some m => modify (with_outstanding (Some (<[id := v]> m))) | None => panic end.
Definition set_age (id v : Z) : M Node unit := n ← get;
  match outstandingAge n with Some m => modify (with_outstandingAge (Some (<[id := v]> m))) | None => panic end.

(** A loop over peers whose body may emit messages. *)
Fixpoint collect (f : Z -> M Node (list Message)) (l : list Z) : M Node (list Message) :=
  match l with
  | [] => mret []
  | p :: l' => ms ← f p; rest ← collect f l'; mret (ms ++ rest)
  end.

(** ** The log *)

Definition lastIndex (n : Node) : Z := u64 (s_index (snapshot n) + Z.of_nat (length (log n))).

Definition termAt (n : Node) (index : Z) : Z :=
  if index =? 0 then 0 else
  if index =? s_index (snapshot n) then s_term (snapshot n) else
  if (index <=? s_index (snapshot n)) || (lastIndex n <? index) then 0 else
  match log n !! Z.to_nat (index - s_index (snapshot n) - 1) with
  | Some e => e_term e
  | None => 0
  end.

Definition entriesBetween (n : Node) (from to : Z) : list Entry :=
  if (to <=? from) || (from <=? s_index (snapshot n)) || (lastIndex n <? from) then [] else
  let to := Z.min to (u64 (lastIndex n + 1)) in
  slice (Z.to_nat (from - s_index (snapshot n) - 1)) (Z.to_nat (to - s_index (snapshot n) - 1)) (log n).

Definition isUpToDate (n : Node) (index tm : Z) : bool :=
  let localTerm := termAt n (lastIndex n) in
  (localTerm <? tm) || ((tm =? localTerm) && (lastIndex n <=? index)).

Definition hardState (n : Node) : HardState := mkHard (term n) (votedFor n).

Definition compactLog (s : Snapshot) : M Node unit := n ← get;
  let suffix := if (s_index s <? lastIndex n) && (termAt n (s_index s) =? s_term s)
                then entriesBetween n (u64 (s_index s + 1)) (u64 (lastIndex n + 1)) else [] in
  modify (with_snapshot s) ;; modify (with_log suffix).

(** ** Membership of a node *)

(** The loop of rebuildMembership and membershipAt; the latter stops at an index. *)
Fixpoint fold_membership (stop : Entry -> bool) (m : Membership) (l : list Entry) : res Membership :=
  match l with
  | [] => Ok m
  | e :: l' =>
      if stop e then Ok m else
      command ← decodeMembership (e_data e);
      match command with
      | None => fold_membership stop m l'
      | Some command => m' ← applyMembership m command (e_index e); fold_membership stop m' l'
      end
  end.

Definition base_membership (n : Node) : Membership :=
  if (0 <? s_index (snapshot n)) && (0 <? length (Voters (s_membership (snapshot n))))%nat
  then s_membership (snapshot n) else initialMembership n.

Definition rebuildMembership : M Node unit := n ← get;
  m ← of_res (fold_membership (fun _ => false) (base_membership n) (log n));
  modify (with_membership m).

Definition membershipAt (n : Node) (index : Z) : res Membership :=
  fold_membership (fun e => index <? e_index e) (base_membership n) (log n).

Definition peers (n : Node) : list Z := unionVoters (membership n).
Definition isVoter (n : Node) (id : Z) : bool := containsVoter (peers n) id.

Definition replicationPeers (n : Node) : list Z :=
  if (length (JointVoters (membership n)) =? 0)%nat && (commit n <? Index (membership n)) then
    match membershipAt n (u64 (Index (membership n) - 1)) with
    | Ok prior => if (0 <? length (JointVoters prior))%nat then unionVoters prior else peers n
    | _ => peers n
    end
  else peers n.

Definition isCommunicationPeer (n : Node) (id : Z) : bool := containsVoter (replicationPeers n) id.

Definition HasQuorum (n : Node) (ids : gset Z) : bool := hasQuorum (membership n) (fun id => bool_decide (id ∈ ids)).

(** ** Timers *)

Definition next_random (r : Z) : Z := u64 (r * 6364136223846793005 + 1442695040888963407).

Definition resetElectionTimer : M Node unit := n ← get;
  let r := next_random (random n) in
  let span := u64 (c_ElectionTickMax (cfg n) - c_ElectionTickMin (cfg n)) in
  modify (with_electionElapsed 0) ;;
  modify (with_random r) ;;
  modify (with_electionTimeout (s64 (c_ElectionTickMin (cfg n) + s64 (r mod span)))).

Definition inLease (n : Node) : bool :=
  bool_decide (role n = Leader) || (negb (leaderID n =? 0) && (electionElapsed n <? c_ElectionTickMin (cfg n))).

(** ** Role changes *)

Definition becomeFollower (tm leader : Z) : M Node Update := n ← get;
  let changed := negb (bool_decide (role n = Follower)) || negb (term n =? tm) in
  let hardChanged := negb (tm =? term n) || ((term n <? tm) && negb (votedFor n =? 0)) in
  (if term n <? tm then modify (with_term tm) ;; modify (with_votedFor 0) else mret tt) ;;
  modify (with_role Follower) ;;
  modify (with_leaderID leader) ;;
  modify (with_votes ∅) ;;
  resetElectionTimer ;;
  n' ← get;
  mret (mkUpdate (if hardChanged then Some (hardState n') else None) 0 [] [] [] changed None []).

(** ** Replication *)

(** The loop of cappedEntries over the entries from index [to] on. *)
Fixpoint capped_to (limit from to size : Z) (l : list Entry) : Z :=
  match l with
  | [] => to
  | e :: l' =>
      let entrySize := u64 (Z.of_nat (length (e_data e)) + EntryOverheadBytes) in
      if (from <? to) && (limit <? u64 (size + entrySize)) then to else
      capped_to limit from (u64 (to + 1)) (u64 (size + entrySize)) l'
  end.

Definition cappedEntries (n : Node) (from : Z) : list Entry :=
  if (from <=? s_index (snapshot n)) || (lastIndex n <? from) then [] else
  let limit := if c_maxAppendBytes (cfg n) =? 0 then defaultMaxAppendBytes else c_maxAppendBytes (cfg n) in
  let to := capped_to limit from from 0 (drop (Z.to_nat (from - s_index (snapshot n) - 1)) (log n)) in
  entriesBetween n from to.

Definition appendMessage (peer context : Z) (origin : MessageOrigin) : M Node Message := n ← get;
  let next := if at0 (nextIndex n) peer =? 0 then u64 (lastIndex n + 1) else at0 (nextIndex n) peer in
  if next <=? s_index (snapshot n) then
    mret (mkMessage MsgSnapshot (c_ID (cfg n)) peer (term n) 0 0 [] 0 false 0 0 (Some (snapshot n)) origin)
  else
    let message := mkMessage MsgAppend (c_ID (cfg n)) peer (term n) (next - 1) (termAt n (next - 1)) []
                     (commit n) false 0 context None origin in
    if negb (at_nil (outstanding n) peer =? 0) then mret message else
    let entries := cappedEntries n next in
    let message := mkMessage MsgAppend (c_ID (cfg n)) peer (term n) (next - 1) (termAt n (next - 1)) entries
                     (commit n) false 0 context None origin in
    match last entries with
    | Some e => set_outstanding peer (e_index e) ;; set_age peer 0 ;; mret message
    | None => mret message
    end.

(** make([]Message, 0, len(peers)-1) panics when there is no peer. *)
Definition broadcastAppend (origin : MessageOrigin) : M Node (list Message) := n ← get;
  if (length (replicationPeers n) =? 0)%nat then panic else
  collect (fun peer => n ← get;
    if peer =? c_ID (cfg n) then mret [] else
    if bool_decide (origin = OriginProposal) && negb (at_nil (outstanding n) peer =? 0) then mret [] else
    m ← appendMessage peer 0 origin; mret [m]) (replicationPeers n).

Definition settleOutstanding (peer : Z) : M Node unit := n ← get;
  if negb (at_nil (outstanding n) peer =? 0) && (at_nil (outstanding n) peer <=? at0 (matchIndex n) peer)
  then set_outstanding peer 0 else mret tt.

(** The loop of expireOutstanding. *)
Fixpoint expire_peers (limit : Z) (l : list Z) : M Node (list Z) :=
  match l with
  | [] => mret []
  | peer :: l' =>
      n ← get;
      if at_nil (outstanding n) peer =? 0 then expire_peers limit l' else
      set_age peer (s64 (at_nil (outstandingAge n) peer + 1)) ;;
      n ← get;
      if limit <=? at_nil (outstandingAge n) peer
      then set_outstanding peer 0 ;; expired ← expire_peers limit l'; mret (peer :: expired)
      else expire_peers limit l'
  end.

Definition expireOutstanding : M Node (list Z) := n ← get;
  let limit := if c_inflightResendTicks (cfg n) =? 0 then defaultInflightResendTicks else c_inflightResendTicks (cfg n) in
  expire_peers limit (replicationPeers n).

(** The loop of maybeCommit: the number of indexes above commit is enough fuel. *)
Fixpoint find_candidate (n : Node) (fuel : nat) (candidate : Z) : Z :=
  match fuel with
  | O => candidate
  | S fuel' =>
      if commit n <? candidate then
        if (termAt n candidate =? term n) && hasQuorum (membership n) (fun id => candidate <=? at0 (matchIndex n) id)
        then candidate else find_candidate n fuel' (candidate - 1)
      else candidate
  end.

(** The configuration entry that ends a joint configuration. *)
Definition final_entry (n : Node) : Entry :=
  mkEntry (u64 (lastIndex n + 1)) (term n) (encodeMembership (mkCommand configFinal [] (JointVoters (membership n)))).

(** The block of maybeCommit that appends it once the joint configuration is
    committed. *)
Definition append_final (n : Node) : M Node (list Entry) :=
  if (0 <? length (JointVoters (membership n)))%nat && (Index (membership n) <=? commit n) then
    let final := final_entry n in
    modify (with_log (log n ++ [final])) ;;
    e ← try_err rebuildMembership;
    match e with
    | Some _ => panic
    | None =>
        set_match (c_ID (cfg n)) (e_index final) ;;
        set_next (c_ID (cfg n)) (u64 (e_index final + 1)) ;;
        mret [final]
    end
  else mret [].

Definition maybeCommit : M Node Update := n ← get;
  let candidate := find_candidate n (Z.to_nat (lastIndex n - commit n)) (lastIndex n) in
  if candidate <=? commit n then mret noUpdate else
  let old := commit n in
  modify (with_commit candidate) ;;
  n ← get;
  let committed := entriesBetween n (u64 (old + 1)) (u64 (commit n + 1)) in
  entries ← append_final n;
  ms ← broadcastAppend OriginCommitAdvance;
  let update := mkUpdate None 0 entries ms committed false None [] in
  n ← get;
  if (Index (membership n) <=? commit n) && negb (isVoter n (c_ID (cfg n))) then
    u ← becomeFollower (term n) 0; mret (merge update u)
  else mret update.

(** ** Elections *)

Definition becomeLeader : M Node Update := n ← get;
  let id := c_ID (cfg n) in
  modify (with_role Leader) ;;
  modify (with_leaderID id) ;;
  modify (with_heartbeatElapsed 0) ;;
  modify (with_quorumElapsed 0) ;;
  modify (with_matchIndex ∅) ;;
  modify (with_recentActive ∅) ;;
  modify (with_outstanding (Some ∅)) ;;
  modify (with_outstandingAge (Some ∅)) ;;
  let last := lastIndex n in
  modify (with_nextIndex (list_to_map ((fun peer => (peer, u64 (last + 1))) <$> peers n))) ;;
  set_match id last ;;
  let noop := mkEntry (u64 (last + 1)) (term n) [] in
  modify (with_log (log n ++ [noop])) ;;
  set_match id (e_index noop) ;;
  set_next id (u64 (e_index noop + 1)) ;;
  ms ← broadcastAppend OriginOther;
  u ← maybeCommit;
  mret (merge (mkUpdate None 0 [noop] ms [] true None []) u).

(** The requests a campaign sends to every other voter. *)
Definition campaign_messages (t : MessageType) (tm : Z) (n : Node) : list Message :=
  (fun peer => mkMessage t (c_ID (cfg n)) peer tm (lastIndex n) (termAt n (lastIndex n)) [] 0 false 0 0 None OriginOther)
    <$> filter (fun peer => peer <> c_ID (cfg n)) (peers n).

Definition startElection : M Node Update := n ← get;
  let id := c_ID (cfg n) in
  modify (with_role Candidate) ;;
  modify (with_term (u64 (term n + 1))) ;;
  modify (with_votedFor id) ;;
  modify (with_leaderID 0) ;;
  modify (with_votes {[id := true]}) ;;
  resetElectionTimer ;;
  n ← get;
  let update := mkUpdate (Some (hardState n)) 0 [] [] [] true None [] in
  if HasQuorum n {[id]} then u ← becomeLeader; mret (merge update u) else
  mret (add_messages (campaign_messages MsgVote (term n) n) update).

Definition startPreVote : M Node Update := n ← get;
  let id := c_ID (cfg n) in
  let changed := negb (bool_decide (role n = PreCandidate)) in
  modify (with_role PreCandidate) ;;
  modify (with_leaderID 0) ;;
  modify (with_votes {[id := true]}) ;;
  resetElectionTimer ;;
  n ← get;
  if HasQuorum n {[id]} then startElection else
  mret (mkUpdate None 0 [] (campaign_messages MsgPreVote (u64 (term n + 1)) n) [] changed None []).

Definition handlePreVote (message : Message) (n : Node) : Message :=
  let leaderIsRecent := negb (leaderID n =? 0) && (electionElapsed n <? electionTimeout n) in
  let grant := isVoter n (c_ID (cfg n)) && (u64 (term n + 1) <=? m_term message) && negb leaderIsRecent &&
               isUpToDate n (m_logIndex message) (m_logTerm message) in
  let tm := if grant then m_term message else term n in
  mkMessage MsgPreVoteResponse (c_ID (cfg n)) (m_from message) tm 0 0 [] 0 (negb grant) 0 0 None OriginOther.

(** The two counts every vote response leads to. *)
Definition vote_won (n : Node) : bool := hasQuorum (membership n) (at_false (votes n)).
Definition vote_lost (n : Node) : bool :=
  voteLost (membership n) (fun id => match votes n !! id with Some vote => negb vote | None => false end).

Definition handlePreVoteResponse (message : Message) : M Node Update := n ← get;
  if m_reject message && (term n <? m_term message) then becomeFollower (m_term message) 0 else
  let granted := negb (m_reject message) && (m_term message =? u64 (term n + 1)) in
  let rejected := m_reject message && (m_term message <=? term n) in
  if negb (bool_decide (role n = PreCandidate)) || (negb granted && negb rejected) then mret noUpdate else
  set_vote (m_from message) granted ;;
  n ← get;
  if vote_won n then startElection else
  if vote_lost n then becomeFollower (term n) 0 else
  mret noUpdate.

Definition handleVote (message : Message) : M Node Update := n ← get;
  let canVote := (votedFor n =? 0) || (votedFor n =? m_from message) in
  let grant := isVoter n (c_ID (cfg n)) && canVote && isUpToDate n (m_logIndex message) (m_logTerm message) in
  hs ← (if grant then
    modify (with_votedFor (m_from message)) ;;
    modify (with_leaderID 0) ;;
    resetElectionTimer ;;
    n ← get; mret (Some (hardState n))
  else mret None);
  mret (mkUpdate hs 0 []
    [mkMessage MsgVoteResponse (c_ID (cfg n)) (m_from message) (term n) 0 0 [] 0 (negb grant) 0 0 None OriginOther]
    [] false None []).

Definition handleVoteResponse (message : Message) : M Node Update := n ← get;
  if negb (bool_decide (role n = Candidate)) || negb (m_term message =? term n) then mret noUpdate else
  set_vote (m_from message) (negb (m_reject message)) ;;
  n ← get;
  if vote_won n then becomeLeader else
  if vote_lost n then becomeFollower (term n) 0 else
  mret noUpdate.

(** ** Appends *)

Fixpoint malformed_entries (message : Message) (i previous : Z) (l : list Entry) : bytes :=
  match l with
  | [] => []
  | entry :: l' =>
      let want := u64 (m_logIndex message + i + 1) in
      let size := Z.of_nat (length (e_data entry)) in
      let at_entry := str "entry " ++ dec i ++ str " (index " ++ dec (e_index entry) ++ str ")" in
      if negb (e_index entry =? want) then
        str "entry " ++ dec i ++ str " has index " ++ dec (e_index entry) ++ str ", want " ++ dec want else
      if e_term entry =? 0 then at_entry ++ str " has term 0" else
      if MaxEntryBytes <? size then at_entry ++ str " has " ++ dec size ++ str " bytes, over " ++ dec MaxEntryBytes else
      if m_term message <? e_term entry then
        at_entry ++ str " has term " ++ dec (e_term entry) ++ str ", above the message term " ++ dec (m_term message) else
      if (i =? 0) && (e_term entry <? previous) then
        at_entry ++ str " has term " ++ dec (e_term entry) ++ str ", below LogTerm " ++ dec previous else
      if e_term entry <? previous then
        at_entry ++ str " has term " ++ dec (e_term entry) ++ str ", below the previous entry's " ++ dec previous else
      malformed_entries message (i + 1) (e_term entry) l'
  end.

Definition malformedAppend (message : Message) : bytes :=
  malformed_entries message 0 (m_logTerm message) (m_entries message).

(** The loop that lowers the hint of a rejection to the first entry of the
    conflicting term; the log's length is enough fuel. *)
Fixpoint lower_hint (n : Node) (conflictTerm : Z) (fuel : nat) (hint : Z) : Z :=
  match fuel with
  | O => hint
  | S fuel' =>
      if (u64 (s_index (snapshot n) + 1) <? hint) && (termAt n (hint - 1) =? conflictTerm)
      then lower_hint n conflictTerm fuel' (hint - 1) else hint
  end.

Definition reject_append (n : Node) (to hint : Z) : Message :=
  mkMessage MsgAppendResponse (c_ID (cfg n)) to (term n) 0 0 [] 0 true hint 0 None OriginOther.

(** What the loop over the entries of an append finds. *)
Inductive Scan :=
| ScanMatched                                    (* every entry is already in the log *)
| ScanCommitted                                  (* an entry conflicts with a committed one *)
| ScanNew (truncate : option Z) (rest : list Entry). (* append rest, after truncating from an index *)

Fixpoint scan_entries (n : Node) (l : list Entry) : Scan :=
  match l with
  | [] => ScanMatched
  | entry :: l' =>
      if e_index entry <=? lastIndex n then
        if termAt n (e_index entry) =? e_term entry then scan_entries n l' else
        if e_index entry <=? commit n then ScanCommitted else
        ScanNew (Some (e_index entry)) l
      else ScanNew None l
  end.

(** The end of handleAppend, after the entries are in the log. *)
Definition finish_append (message : Message) (update : Update) : M Node Update := n ← get;
  let lastNew := u64 (m_logIndex message + Z.of_nat (length (m_entries message))) in
  let lastNew := if lastIndex n <? lastNew then lastIndex n else lastNew in
  let newCommit := Z.min (m_leaderCommit message) lastNew in
  committed ← (if commit n <? newCommit then
    let old := commit n in
    modify (with_commit newCommit) ;;
    n ← get; mret (entriesBetween n (u64 (old + 1)) (u64 (commit n + 1)))
  else mret []);
  mret (mkUpdate (u_hardState update) (u_truncateFrom update) (u_entries update)
    (u_messages update ++ [mkMessage MsgAppendResponse (c_ID (cfg n)) (m_from message) (term n) lastNew 0 [] 0 false 0
                             (m_context message) None OriginOther])
    (u_committed update ++ committed) (u_roleChanged update) (u_snapshot update) (u_droppedAppend update)).

(** Truncate, append, and rebuild the membership when it may have changed; undo on
    an invalid configuration entry. *)
Definition store_entries (message : Message) (truncate : option Z) (rest : list Entry) (update : Update) : M Node Update :=
  n ← get;
  let oldLog := log n in
  let keep := match truncate with
              | Some index => Z.to_nat (index - s_index (snapshot n) - 1)
              | None => length (log n)
              end in
  let truncatedTail := drop keep (log n) in
  modify (with_log (take keep (log n) ++ rest)) ;;
  let update' := mkUpdate (u_hardState update) (match truncate with Some index => index | None => u_truncateFrom update end)
                   (u_entries update ++ rest) (u_messages update) (u_committed update) (u_roleChanged update)
                   (u_snapshot update) (u_droppedAppend update) in
  let rebuild := (match truncate with Some _ => true | None => false end) ||
                 existsb (fun e => hasMembershipPrefix (e_data e)) rest in
  if rebuild then
    e ← try_err rebuildMembership;
    match e with
    | Some _ =>
        n ← get;
        modify (with_log (take (length oldLog - length truncatedTail) (log n) ++ truncatedTail)) ;;
        n ← get;
        mret (mkUpdate (u_hardState update) 0 []
          (u_messages update ++ [reject_append n (m_from message) (u64 (lastIndex n + 1))]) (u_committed update)
          (u_roleChanged update) (u_snapshot update) (u_droppedAppend update))
    | None => finish_append message update'
    end
  else finish_append message update'.

Definition handleAppend (message : Message) : M Node Update := n ← get;
  update ← (if negb (bool_decide (role n = Follower)) || negb (leaderID n =? m_from message)
            then u ← becomeFollower (term n) (m_from message); mret (merge noUpdate u) else mret noUpdate);
  modify (with_leaderID (m_from message)) ;;
  resetElectionTimer ;;
  n ← get;
  if (lastIndex n <? m_logIndex message) || negb (termAt n (m_logIndex message) =? m_logTerm message) then
    let hint := if m_logIndex message <=? lastIndex n
                then lower_hint n (termAt n (m_logIndex message)) (length (log n)) (m_logIndex message)
                else u64 (lastIndex n + 1) in
    mret (add_messages [reject_append n (m_from message) hint] update)
  else
    match scan_entries n (m_entries message) with
    | ScanMatched => finish_append message update
    | ScanCommitted => mret (add_messages [reject_append n (m_from message) (u64 (commit n + 1))] update)
    | ScanNew truncate rest => store_entries message truncate rest update
    end.

Definition handleAppendResponse (message : Message) : M Node Update := n ← get;
  let from := m_from message in
  if negb (bool_decide (role n = Leader)) || negb (m_term message =? term n) then mret noUpdate else
  set_active from true ;;
  if m_reject message then
    let next := at0 (nextIndex n) from in
    let next := if (0 <? m_rejectHint message) && (m_rejectHint message <? next) then m_rejectHint message
                else if 1 <? next then next - 1 else next in
    set_next from (Z.max 1 (Z.max next (u64 (at0 (matchIndex n) from + 1)))) ;;
    set_outstanding from 0 ;;
    m ← appendMessage from (m_context message) OriginAckResend;
    mret (mkUpdate None 0 [] [m] [] false None [])
  else
    let matched := Z.min (m_logIndex message) (lastIndex n) in
    let advanced := (at0 (matchIndex n) from <? m_logIndex message) && (at0 (matchIndex n) from <? matched) in
    (if at0 (matchIndex n) from <? m_logIndex message
     then set_match from matched ;; set_next from (u64 (matched + 1)) else mret tt) ;;
    settleOutstanding from ;;
    update ← maybeCommit;
    n ← get;
    if advanced && (at_nil (outstanding n) from =? 0) && (at0 (nextIndex n) from <=? lastIndex n) then
      m ← appendMessage from (m_context message) OriginAckResend;
      mret (add_messages [m] update)
    else mret update.

(** ** Snapshots *)

Definition reject_snapshot (n : Node) (to : Z) : Message :=
  mkMessage MsgSnapshotResponse (c_ID (cfg n)) to (term n) 0 0 [] 0 true (u64 (lastIndex n + 1)) 0 None OriginOther.

Definition with_s_membership (m : Membership) (s : Snapshot) : Snapshot :=
  mkSnapshot (s_index s) (s_term s) (s_data s) m.

Definition accept_snapshot (message : Message) (s : Snapshot) (update : Update) : M Node Update := n ← get;
  mret (add_messages [mkMessage MsgSnapshotResponse (c_ID (cfg n)) (m_from message) (term n)
                        (Z.max (s_index s) (s_index (snapshot n))) 0 [] 0 false 0 0 None OriginOther] update).

Definition handleSnapshot (message : Message) : M Node Update := n ← get;
  match m_snapshot message with
  | None => mret (mkUpdate None 0 [] [reject_snapshot n (m_from message)] [] false None [])
  | Some s =>
      if (s_index s =? 0) || (s_term s =? 0)
      then mret (mkUpdate None 0 [] [reject_snapshot n (m_from message)] [] false None []) else
      update ← (if negb (bool_decide (role n = Follower)) || negb (leaderID n =? m_from message)
                then u ← becomeFollower (term n) (m_from message); mret (merge noUpdate u) else mret noUpdate);
      modify (with_leaderID (m_from message)) ;;
      resetElectionTimer ;;
      n ← get;
      let reject := add_messages [reject_snapshot n (m_from message)] update in
      let s := if (length (Voters (s_membership s)) =? 0)%nat then with_s_membership (initialMembership n) s else s in
      match validateMembership (s_membership s) with
      | Some _ => mret reject
      | None =>
          if s_index s <? Index (s_membership s) then mret reject else
          if s_index (snapshot n) <? s_index s then
            if (s_index s <=? commit n) && negb (termAt n (s_index s) =? s_term s) then mret reject else
            compactLog s ;;
            e ← try_err rebuildMembership;
            match e with
            | Some _ =>
                modify (with_snapshot (snapshot n)) ;;
                modify (with_log (log n)) ;;
                modify (with_membership (membership n)) ;;
                mret reject
            | None =>
                (if commit n <? s_index s then modify (with_commit (s_index s)) else mret tt) ;;
                accept_snapshot message s
                  (mkUpdate (u_hardState update) (u_truncateFrom update) (u_entries update) (u_messages update)
                     (u_committed update) (u_roleChanged update) (Some s) (u_droppedAppend update))
            end
          else accept_snapshot message s update
      end
  end.

Definition handleSnapshotResponse (message : Message) : M Node Update := n ← get;
  let from := m_from message in
  if negb (bool_decide (role n = Leader)) || negb (m_term message =? term n) then mret noUpdate else
  set_active from true ;;
  if m_reject message then
    set_outstanding from 0 ;;
    m ← appendMessage from 0 OriginOther;
    mret (mkUpdate None 0 [] [m] [] false None [])
  else
    let matched := Z.min (m_logIndex message) (lastIndex n) in
    (if at0 (matchIndex n) from <? matched
     then set_match from matched ;; set_next from (u64 (matched + 1)) else mret tt) ;;
    settleOutstanding from ;;
    update ← maybeCommit;
    n ← get;
    if at0 (nextIndex n) from <=? lastIndex n then
      m ← appendMessage from 0 OriginOther; mret (add_messages [m] update)
    else mret update.

Definition Compact (s : Snapshot) : M Node Update := n ← get;
  if s_index s <=? s_index (snapshot n) then mret noUpdate else
  if (commit n <? s_index s) || (s_term s =? 0) || negb (termAt n (s_index s) =? s_term s)
  then raise "invalid snapshot boundary" else
  expected ← of_res (membershipAt n (s_index s));
  let s := if (length (Voters (s_membership s)) =? 0)%nat then with_s_membership expected s else s in
  if s_index s <? Index (s_membership s) then raise "snapshot membership index exceeds snapshot index" else
  if negb (equalVoters (Voters (s_membership s)) (Voters expected)) ||
     negb (equalVoters (JointVoters (s_membership s)) (JointVoters expected)) ||
     negb (Index (s_membership s) =? Index expected)
  then raise "snapshot membership does not match its log index" else
  compactLog s ;;
  rebuildMembership ;;
  mret (mkUpdate None 0 [] [] [] false (Some s) []).

Definition CreateSnapshot (index : Z) (data : bytes) : M Node Update := n ← get;
  m ← of_res (membershipAt n index);
  Compact (mkSnapshot index (termAt n index) data m).

(** ** Proposals *)

(** The loop of ProposeBatch: indexes, and the entries appended. *)
Fixpoint append_commands (l : list bytes) : M Node (list Z * list Entry) :=
  match l with
  | [] => mret ([], [])
  | command :: l' =>
      if MaxEntryBytes <? Z.of_nat (length command) then
        r ← append_commands l'; mret (0 :: r.1, r.2)
      else
        n ← get;
        let entry := mkEntry (u64 (lastIndex n + 1)) (term n) command in
        modify (with_log (log n ++ [entry])) ;;
        r ← append_commands l'; mret (e_index entry :: r.1, entry :: r.2)
  end.

Definition ProposeBatch (data : list bytes) : M Node (list Z * Update) := n ← get;
  if negb (bool_decide (role n = Leader)) then raise ErrNotLeader else
  r ← append_commands data;
  let '(indexes, entries) := r in
  if (length entries =? 0)%nat then mret (indexes, noUpdate) else
  n ← get;
  set_match (c_ID (cfg n)) (lastIndex n) ;;
  set_next (c_ID (cfg n)) (u64 (lastIndex n + 1)) ;;
  ms ← broadcastAppend OriginProposal;
  u ← maybeCommit;
  mret (indexes, merge (mkUpdate None 0 entries ms [] false None []) u).

Definition Propose (data : bytes) : M Node (Z * Update) :=
  if MaxEntryBytes <? Z.of_nat (length data) then raise ErrEntryTooLarge else
  r ← ProposeBatch [data];
  match r with
  | (index :: _, update) => mret (index, update)
  | ([], _) => panic
  end.

(** The loop of ProposeMembership that gives new peers their first next index. *)
Definition init_next (index : Z) (l : list Z) : M Node unit :=
  mfold (fun peer => n ← get; if at0 (nextIndex n) peer =? 0 then set_next peer index else mret tt) l.

Definition ProposeMembership (voters : list Z) : M Node (Z * Update) := n ← get;
  if negb (bool_decide (role n = Leader)) then raise ErrNotLeader else
  if (0 <? length (JointVoters (membership n)))%nat || (commit n <? Index (membership n))
  then raise ErrMembershipChangeInProgress else
  newVoters ← of_res (normalizeVoters voters);
  if equalVoters newVoters (Voters (membership n)) then mret (Index (membership n), noUpdate) else
  let entry := mkEntry (u64 (lastIndex n + 1)) (term n)
                 (encodeMembership (mkCommand configJoint (Voters (membership n)) newVoters)) in
  modify (with_log (log n ++ [entry])) ;;
  rebuildMembership ;;
  n ← get;
  init_next (e_index entry) (peers n) ;;
  set_match (c_ID (cfg n)) (e_index entry) ;;
  set_next (c_ID (cfg n)) (u64 (e_index entry + 1)) ;;
  ms ← broadcastAppend OriginOther;
  u ← maybeCommit;
  mret (u64 (e_index entry + 1), merge (mkUpdate None 0 [entry] ms [] false None []) u).

Definition ReadProbe (context : Z) : M Node Update := n ← get;
  if negb (bool_decide (role n = Leader)) then raise ErrNotLeader else
  if (commit n =? 0) || negb (termAt n (commit n) =? term n) then raise ErrReadNotReady else
  ms ← collect (fun peer => if peer =? c_ID (cfg n) then mret [] else
                  m ← appendMessage peer context OriginOther; mret [m]) (peers n);
  mret (mkUpdate None 0 [] ms [] false None []).

(** ** Time *)

(** The loop that gathers the recently active peers and forgets them. *)
Fixpoint gather_active (id : Z) (active : gset Z) (l : list Z) : M Node (gset Z) :=
  match l with
  | [] => mret active
  | peer :: l' =>
      n ← get;
      let active := if negb (peer =? id) && at_false (recentActive n) peer then {[peer]} ∪ active else active in
      set_active peer false ;;
      gather_active id active l'
  end.

Definition Tick : M Node Update := n ← get;
  let id := c_ID (cfg n) in
  if bool_decide (role n = Leader) then
    modify (with_heartbeatElapsed (s64 (heartbeatElapsed n + 1))) ;;
    modify (with_quorumElapsed (s64 (quorumElapsed n + 1))) ;;
    expired ← expireOutstanding;
    n ← get;
    ms ← (if c_HeartbeatTicks (cfg n) <=? heartbeatElapsed n then
            modify (with_heartbeatElapsed 0) ;; broadcastAppend OriginHeartbeat
          else collect (fun peer => m ← appendMessage peer 0 OriginHeartbeat; mret [m]) expired);
    let update := mkUpdate None 0 [] ms [] false None [] in
    n ← get;
    if c_CheckQuorumTicks (cfg n) <=? quorumElapsed n then
      modify (with_quorumElapsed 0) ;;
      active ← gather_active id (if isVoter n id then {[id]} else ∅) (peers n);
      n ← get;
      if negb (HasQuorum n active) then u ← becomeFollower (term n) 0; mret (merge update u) else mret update
    else mret update
  else if negb (isVoter n id) then mret noUpdate else
    modify (with_electionElapsed (s64 (electionElapsed n + 1))) ;;
    n ← get;
    if electionTimeout n <=? electionElapsed n then u ← startPreVote; mret (merge noUpdate u) else mret noUpdate.

(** ** Messages *)

Definition rejectStale (message : Message) (n : Node) : Message :=
  let '(t, hint) := match m_type message with
                    | MsgVote => (MsgVoteResponse, 0)
                    | MsgAppend => (MsgAppendResponse, u64 (lastIndex n + 1))
                    | MsgSnapshot => (MsgSnapshotResponse, 0)
                    | t => (t, 0)
                    end in
  mkMessage t (c_ID (cfg n)) (m_from message) (term n) 0 0 [] 0 true hint 0 None OriginOther.

Definition dispatch (message : Message) : M Node Update := n ← get;
  match m_type message with
  | MsgPreVote => mret (mkUpdate None 0 [] [handlePreVote message n] [] false None [])
  | MsgPreVoteResponse => handlePreVoteResponse message
  | MsgVote => handleVote message
  | MsgVoteResponse => handleVoteResponse message
  | MsgAppend => handleAppend message
  | MsgAppendResponse => handleAppendResponse message
  | MsgSnapshot => handleSnapshot message
  | MsgSnapshotResponse => handleSnapshotResponse message
  end.

Definition is_prevote (t : MessageType) : bool :=
  match t with MsgPreVote | MsgPreVoteResponse => true | _ => false end.

Definition Step (message : Message) : M Node Update := n ← get;
  if negb (m_to message =? 0) && negb (m_to message =? c_ID (cfg n)) then mret noUpdate else
  if negb (isCommunicationPeer n (m_from message)) || (m_from message =? c_ID (cfg n)) then mret noUpdate else
  let reason := if bool_decide (m_type message = MsgAppend) then malformedAppend message else [] in
  if negb (length reason =? 0)%nat then
    modify (with_malformedAppendsDropped (u64 (malformedAppendsDropped n + 1))) ;;
    mret (mkUpdate None 0 [] [] [] false None
            (str "from " ++ dec (m_from message) ++ str " at term " ++ dec (m_term message) ++ str ": " ++ reason))
  else if bool_decide (m_type message = MsgVote) && (term n <? m_term message) && inLease n then
    modify (with_votesIgnoredInLease (u64 (votesIgnoredInLease n + 1))) ;; mret noUpdate
  else if negb (is_prevote (m_type message)) && (m_term message <? term n) then
    mret (mkUpdate None 0 [] [rejectStale message n] [] false None [])
  else
    update ← (if negb (is_prevote (m_type message)) && (term n <? m_term message)
              then u ← becomeFollower (m_term message) 0; mret (merge noUpdate u) else mret noUpdate);
    u ← dispatch message;
    mret (merge update u).

(** ** Construction and inspection *)

(** The loop of New over the restored entries. *)
Fixpoint check_entries (base i : Z) (l : list Entry) : bool :=
  match l with
  | [] => true
  | e :: l' =>
      if negb (e_index e =? u64 (base + i + 1)) || (e_term e =? 0) then false else check_entries base (i + 1) l'
  end.

Definition set_peers (p : list Z) (c : Config) : Config :=
  mkConfig (c_ID c) p (c_ElectionTickMin c) (c_ElectionTickMax c) (c_HeartbeatTicks c) (c_CheckQuorumTicks c)
    (c_RandomSeed c) (c_AppliedIndex c) (c_maxAppendBytes c) (c_inflightResendTicks c).

(** The checks of New on a restored snapshot. *)
Definition restored_snapshot (restored : list Snapshot) : res Snapshot :=
  match restored with
  | [] => Ok zeroSnapshot
  | [s] =>
      if negb (Bool.eqb (s_index s =? 0) (s_term s =? 0)) || ((s_index s =? 0) && negb (length (s_data s) =? 0)%nat)
      then Err "restored snapshot requires positive index and term" else
      if s_index s <? Index (s_membership s) then Err "snapshot membership index exceeds snapshot index" else Ok s
  | _ => Err "at most one restored snapshot is allowed"
  end.

Definition New (c : Config) (hard : HardState) (entries : list Entry) (restored : list Snapshot) : res Node :=
  match validate c with
  | Some e => Err e
  | None =>
      s ← restored_snapshot restored;
      if negb (check_entries (s_index s) 0 entries) then Err "raft log is not contiguous" else
      voters ← normalizeVoters (c_Peers c);
      let c := set_peers voters c in
      let initial := mkMembership voters [] 0 in
      m ← (if (0 <? s_index s) && (0 <? length (Voters (s_membership s)))%nat then
             match validateMembership (s_membership s) with
             | Some e => Err e
             | None => Ok (s_membership s)
             end
           else Ok initial);
      let n := mkNode c Follower (hs_term hard) (hs_votedFor hard) 0 s entries (c_AppliedIndex c) initial m
                 0 0 0 0 (c_RandomSeed c) ∅ ∅ ∅ ∅ None None 0 0 in
      match rebuildMembership n with
      | (Ok _, n) =>
          if (c_AppliedIndex c <? s_index s) || (lastIndex n <? c_AppliedIndex c)
          then Err "applied index is outside snapshot/log range" else
          let n := if random n =? 0
                   then with_random (u64 (c_ID c * 6364136223846793005 + 1442695040888963407)) n else n in
          Ok (resetElectionTimer n).2
      | (Err e, _) => Err e
      | (Panic, _) => Panic
      | (Crash, _) => Crash
      end
  end.

Definition status (n : Node) : Status :=
  mkStatus (c_ID (cfg n)) (role n) (term n) (leaderID n) (commit n) (lastIndex n) (s_index (snapshot n))
    (Z.of_nat (length (log n))) (votedFor n)
    (if bool_decide (role n = Leader) then matchIndex n else ∅)
    (membership n) (malformedAppendsDropped n) (votesIgnoredInLease n).

End Node.
