(* ===== verification/RaftCore.v ===== *)
(** * The consensus core as a protocol

    What the safety of the consensus core depends on, without the timers, the
    bookkeeping of in-flight appends and the counters: [core n] is that part of a
    node. [act] lists the protocol's actions on it (adopt a term, grant a vote, win
    an election, store entries of an append, advance the commit index, send a message,
    ...), each with the condition under which it is allowed. The file RaftRefine shows
    that every handler of internal/raft/node.go performs a sequence of these actions;
    here the invariant [wf] of a node is defined and shown to be preserved by every
    action. *)

From S2P Require Import Prelude GoStd Fs Membership RaftTypes RaftNode.

Module Core.
Import Membership Raft Node.

(** ** The part of a node the protocol is about *)

Record Core := mkCore {
  k_id : Z;
  k_init : Membership;
  k_role : Role;
  k_term : Z;
  k_voted : Z;
  k_snap : Snapshot;
  k_log : list Entry;
  k_commit : Z;
  k_memb : Membership;
  k_votes : gmap Z bool;
  k_next : gmap Z Z;
  k_match : gmap Z Z;
  k_alloc : bool
}.

Definition w_role (x : Role) (c : Core) : Core :=
  mkCore (k_id c) (k_init c) x (k_term c) (k_voted c) (k_snap c) (k_log c) (k_commit c) (k_memb c) (k_votes c)
    (k_next c) (k_match c) (k_alloc c).
Definition w_term (x : Z) (c : Core) : Core :=
  mkCore (k_id c) (k_init c) (k_role c) x (k_voted c) (k_snap c) (k_log c) (k_commit c) (k_memb c) (k_votes c)
    (k_next c) (k_match c) (k_alloc c).
Definition w_voted (x : Z) (c : Core) : Core :=
  mkCore (k_id c) (k_init c) (k_role c) (k_term c) x (k_snap c) (k_log c) (k_commit c) (k_memb c) (k_votes c)
    (k_next c) (k_match c) (k_alloc c).
Definition w_snap (x : Snapshot) (c : Core) : Core :=
  mkCore (k_id c) (k_init c) (k_role c) (k_term c) (k_voted c) x (k_log c) (k_commit c) (k_memb c) (k_votes c)
    (k_next c) (k_match c) (k_alloc c).
Definition w_log (x : list Entry) (c : Core) : Core :=
  mkCore (k_id c) (k_init c) (k_role c) (k_term c) (k_voted c) (k_snap c) x (k_commit c) (k_memb c) (k_votes c)
    (k_next c) (k_match c) (k_alloc c).
Definition w_commit (x : Z) (c : Core) : Core :=
  mkCore (k_id c) (k_init c) (k_role c) (k_term c) (k_voted c) (k_snap c) (k_log c) x (k_memb c) (k_votes c)
    (k_next c) (k_match c) (k_alloc c).
Definition w_memb (x : Membership) (c : Core) : Core :=
  mkCore (k_id c) (k_init c) (k_role c) (k_term c) (k_voted c) (k_snap c) (k_log c) (k_commit c) x (k_votes c)
    (k_next c) (k_match c) (k_alloc c).
Definition w_votes (x : gmap Z bool) (c : Core) : Core :=
  mkCore (k_id c) (k_init c) (k_role c) (k_term c) (k_voted c) (k_snap c) (k_log c) (k_commit c) (k_memb c) x
    (k_next c) (k_match c) (k_alloc c).
Definition w_next (x : gmap Z Z) (c : Core) : Core :=
  mkCore (k_id c) (k_init c) (k_role c) (k_term c) (k_voted c) (k_snap c) (k_log c) (k_commit c) (k_memb c)
    (k_votes c) x (k_match c) (k_alloc c).
Definition w_match (x : gmap Z Z) (c : Core) : Core :=
  mkCore (k_id c) (k_init c) (k_role c) (k_term c) (k_voted c) (k_snap c) (k_log c) (k_commit c) (k_memb c)
    (k_votes c) (k_next c) x (k_alloc c).
Definition w_alloc (x : bool) (c : Core) : Core :=
  mkCore (k_id c) (k_init c) (k_role c) (k_term c) (k_voted c) (k_snap c) (k_log c) (k_commit c) (k_memb c)
    (k_votes c) (k_next c) (k_match c) x.

Ltac ksimpl := cbn [k_id k_init k_role k_term k_voted k_snap k_log k_commit k_memb k_votes k_next k_match k_alloc
  w_role w_term w_voted w_snap w_log w_commit w_memb w_votes w_next w_match w_alloc].
Ltac ksimpl_in H := cbn [k_id k_init k_role k_term k_voted k_snap k_log k_commit k_memb k_votes k_next k_match k_alloc
  w_role w_term w_voted w_snap w_log w_commit w_memb w_votes w_next w_match w_alloc] in H.
Ltac ksimpl_all := cbn [k_id k_init k_role k_term k_voted k_snap k_log k_commit k_memb k_votes k_next k_match k_alloc
  w_role w_term w_voted w_snap w_log w_commit w_memb w_votes w_next w_match w_alloc] in *.

Definition is_some {A} (o : option A) : bool := match o with Some _ => true | None => false end.

(** The maps outstanding and outstandingAge are allocated. *)
Definition allocated (n : Node) : bool := is_some (outstanding n) && is_some (outstandingAge n).

Definition core (n : Node) : Core :=
  mkCore (c_ID (cfg n)) (initialMembership n) (role n) (term n) (votedFor n) (snapshot n) (log n) (commit n)
    (membership n) (votes n) (nextIndex n) (matchIndex n) (allocated n).

Definition k_last (c : Core) : Z := s_index (k_snap c) + Z.of_nat (length (k_log c)).

Definition k_termAt (c : Core) (i : Z) : Z :=
  if i <=? s_index (k_snap c) then (if i =? s_index (k_snap c) then s_term (k_snap c) else 0) else
  match k_log c !! Z.to_nat (i - s_index (k_snap c) - 1) with Some e => e_term e | None => 0 end.

(** The voter configuration after a log. *)
Definition conf (base : Membership) (l : list Entry) : res Membership := fold_membership (fun _ => false) base l.

Definition k_base (c : Core) : Membership :=
  if (0 <? s_index (k_snap c)) && (0 <? length (Voters (s_membership (k_snap c))))%nat
  then s_membership (k_snap c) else k_init c.

Definition k_upToDate (c : Core) (index tm : Z) : bool :=
  (k_termAt c (k_last c) <? tm) || ((tm =? k_termAt c (k_last c)) && (k_last c <=? index)).

(** ** Well-formed nodes *)

(** Entries at consecutive indexes after [base], with terms up to [t]. *)
Definition log_ok (base t : Z) (l : list Entry) : Prop :=
  forall i e, l !! i = Some e -> e_index e = base + Z.of_nat i + 1 /\ 0 < e_term e <= t.

Definition terms_ok (t : Z) (l : list Entry) : Prop := StronglySorted Z.le (t :: (e_term <$> l)).

Record wf (c : Core) : Prop := {
  wf_id : 0 < k_id c < 2 ^ 64;
  wf_init : memb_ok (k_init c) /\ JointVoters (k_init c) = [] /\ Index (k_init c) = 0;
  wf_term : 0 <= k_term c < 2 ^ 64;
  wf_snap : 0 <= s_index (k_snap c) /\ 0 <= s_term (k_snap c) <= k_term c /\
            (s_index (k_snap c) = 0 <-> s_term (k_snap c) = 0);
  wf_snap_memb : (s_index (k_snap c) = 0 -> k_snap c = zeroSnapshot) /\ Index (s_membership (k_snap c)) <= s_index (k_snap c);
  wf_base : memb_ok (k_base c);
  wf_log : log_ok (s_index (k_snap c)) (k_term c) (k_log c);
  wf_terms : terms_ok (s_term (k_snap c)) (k_log c);
  wf_last : k_last c < 2 ^ 64;
  wf_commit : s_index (k_snap c) <= k_commit c <= k_last c;
  wf_memb : conf (k_base c) (k_log c) = Ok (k_memb c);
  wf_alloc : k_role c = Leader -> k_alloc c = true;
  wf_self : k_role c = Candidate \/ k_role c = Leader -> k_voted c = k_id c /\ 0 < k_term c;
  wf_match : k_role c = Leader -> forall p, 0 <= at0 (k_match c) p <= k_last c;
  wf_next : k_role c = Leader -> forall p, 0 <= at0 (k_next c) p <= k_last c + 1
}.

(** ** Actions *)

Definition follow (c : Core) : Core := w_votes ∅ (w_role Follower c).
Definition adopt (t : Z) (c : Core) : Core := w_voted 0 (w_term t (follow c)).
Definition precandidate (c : Core) : Core := w_votes {[k_id c := true]} (w_role PreCandidate c).
Definition elect (c : Core) : Core :=
  w_votes {[k_id c := true]} (w_voted (k_id c) (w_term (k_term c + 1) (w_role Candidate c))).

(** Entries a leader adds to its log. *)
Definition grow (l : list Entry) (m : Membership) (c : Core) : Core :=
  w_match (<[k_id c := k_last c + Z.of_nat (length l)]> (k_match c)) (w_memb m (w_log (k_log c ++ l) c)).

Definition noop (c : Core) : Entry := mkEntry (k_last c + 1) (k_term c) [].

Definition lead (nx : gmap Z Z) (c : Core) : Core :=
  w_alloc true (w_next nx (w_match {[k_id c := k_last c + 1]} (w_log (k_log c ++ [noop c]) (w_role Leader c)))).

(** The entries a snapshot leaves in the log. *)
Definition suffix (s : Snapshot) (c : Core) : list Entry :=
  if (s_index s <? k_last c) && (k_termAt c (s_index s) =? s_term s)
  then drop (Z.to_nat (s_index s - s_index (k_snap c))) (k_log c) else [].

Definition install (s : Snapshot) (m : Membership) (c : Core) : Core :=
  w_commit (Z.max (k_commit c) (s_index s)) (w_memb m (w_log (suffix s c) (w_snap s c))).

(** The entries of an append: consecutive after LogIndex, terms from LogTerm up to
    the message term. *)
Definition entries_ok (m : Message) : Prop :=
  log_ok (m_logIndex m) (m_term m) (m_entries m) /\ terms_ok (m_logTerm m) (m_entries m).

(** The log has an entry of term [t] at index [i] (or the snapshot ends there). *)
Definition holds (c : Core) (i t : Z) : Prop := i <= k_last c /\ k_termAt c i = t.

(** The log has everything an append carries. *)
Definition matches (c : Core) (m : Message) : Prop :=
  holds c (m_logIndex m) (m_logTerm m) /\ Forall (fun e => holds c (e_index e) (e_term e)) (m_entries m).

(** The last index an append proves. *)
Definition lastNew (m : Message) : Z := m_logIndex m + Z.of_nat (length (m_entries m)).

(** What a node reacts to: nothing but time and its clients, a message, or a request to
    change the voters. *)
Inductive Input := Quiet | Received (m : Message) | Reconfigure.

(** What holds of a message when a node sends it; [inp] is what it handles. *)
Definition sendable (inp : Input) (c : Core) (m : Message) : Prop :=
  m_from m = k_id c /\
  match m_type m with
  | MsgPreVote | MsgPreVoteResponse => True
  | MsgVote => k_role c = Candidate /\ m_term m = k_term c /\ m_logIndex m = k_last c /\ m_logTerm m = k_termAt c (k_last c)
  | MsgVoteResponse =>
      m_reject m = false ->
      m_term m = k_term c /\ m_to m = k_voted c /\ exists m0, inp = Received m0 /\ m_from m0 = m_to m
  | MsgAppend =>
      k_role c = Leader /\ m_term m = k_term c /\ m_leaderCommit m = k_commit c /\
      s_index (k_snap c) <= m_logIndex m <= k_last c /\ m_logTerm m = k_termAt c (m_logIndex m) /\
      exists k, m_entries m = take k (drop (Z.to_nat (m_logIndex m - s_index (k_snap c))) (k_log c))
  | MsgAppendResponse =>
      m_reject m = false ->
      m_term m = k_term c /\ k_role c = Follower /\
      exists m0, inp = Received m0 /\ m_type m0 = MsgAppend /\ m_term m0 = k_term c /\ m_from m0 = m_to m /\
        entries_ok m0 /\ matches c m0 /\ m_logIndex m = lastNew m0
  | MsgSnapshot => k_role c = Leader /\ m_term m = k_term c /\ m_snapshot m = Some (k_snap c)
  | MsgSnapshotResponse =>
      m_reject m = false ->
      m_term m = k_term c /\ k_role c = Follower /\ m_logIndex m = s_index (k_snap c) /\
      exists m0, inp = Received m0 /\ m_type m0 = MsgSnapshot /\ m_term m0 = k_term c
  end.

Inductive act (inp : Input) : Core -> list Message -> Core -> Prop :=
| act_term c t : k_term c < t < 2 ^ 64 -> act inp c [] (adopt t c)
| act_follow c : act inp c [] (follow c)
| act_precandidate c : act inp c [] (precandidate c)
| act_prevote c id v : k_role c = PreCandidate -> act inp c [] (w_votes (<[id := v]> (k_votes c)) c)
| act_elect c : k_term c + 1 < 2 ^ 64 -> act inp c [] (elect c)
| act_vote c m :
    inp = Received m -> m_type m = MsgVote -> m_term m = k_term c -> k_voted c = 0 \/ k_voted c = m_from m ->
    k_role c <> Candidate -> k_role c <> Leader ->
    k_upToDate c (m_logIndex m) (m_logTerm m) = true ->
    act inp c [] (w_voted (m_from m) c)
| act_voted c m :
    inp = Received m -> m_type m = MsgVoteResponse -> m_term m = k_term c -> k_role c = Candidate ->
    act inp c [] (w_votes (<[m_from m := negb (m_reject m)]> (k_votes c)) c)
| act_lead c nx :
    k_role c = Candidate -> hasQuorum (k_memb c) (at_false (k_votes c)) = true -> k_last c + 1 < 2 ^ 64 ->
    (forall p, 0 <= at0 nx p <= k_last c + 2) -> act inp c [] (lead nx c)
| act_grow c l m :
    k_role c = Leader -> log_ok (k_last c) (k_term c) l -> Forall (fun e => e_term e = k_term c) l ->
    conf (k_memb c) l = Ok m -> k_last c + Z.of_nat (length l) < 2 ^ 64 ->
    Forall (fun e => hasMembershipPrefix (e_data e) = false) l \/ JointVoters (k_memb c) <> [] \/ inp = Reconfigure ->
    act inp c [] (grow l m c)
| act_nexts c nx : (forall p, 0 <= at0 nx p <= k_last c + 1) -> act inp c [] (w_next nx c)
| act_match c m :
    inp = Received m -> m_type m = MsgAppendResponse \/ m_type m = MsgSnapshotResponse -> m_reject m = false ->
    m_term m = k_term c -> k_role c = Leader -> at0 (k_match c) (m_from m) <= Z.min (m_logIndex m) (k_last c) ->
    act inp c [] (w_match (<[m_from m := Z.min (m_logIndex m) (k_last c)]> (k_match c)) c)
| act_commit c i :
    k_role c = Leader -> k_commit c < i <= k_last c -> k_termAt c i = k_term c ->
    hasQuorum (k_memb c) (fun id => i <=? at0 (k_match c) id) = true -> act inp c [] (w_commit i c)
| act_store c m old rest keep m' :
    inp = Received m -> m_type m = MsgAppend -> m_term m = k_term c -> k_role c = Follower -> entries_ok m ->
    holds c (m_logIndex m) (m_logTerm m) ->
    m_entries m = old ++ rest -> Forall (fun e => holds c (e_index e) (e_term e)) old ->
    s_index (k_snap c) + Z.of_nat keep = m_logIndex m + Z.of_nat (length old) ->
    k_commit c <= s_index (k_snap c) + Z.of_nat keep <= k_last c -> lastNew m < 2 ^ 64 ->
    keep = length (k_log c) \/ (exists e, head rest = Some e /\ k_termAt c (e_index e) <> e_term e) ->
    conf (k_base c) (take keep (k_log c) ++ rest) = Ok m' ->
    act inp c [] (w_memb m' (w_log (take keep (k_log c) ++ rest) c))
| act_learn c m i :
    inp = Received m -> m_type m = MsgAppend -> m_term m = k_term c -> k_role c = Follower -> entries_ok m ->
    matches c m -> k_commit c < i <= Z.min (m_leaderCommit m) (lastNew m) -> act inp c [] (w_commit i c)
| act_install c m s s' m' :
    inp = Received m -> m_type m = MsgSnapshot -> m_term m = k_term c -> k_role c = Follower -> m_snapshot m = Some s ->
    s' = s \/ (Voters (s_membership s) = [] /\ s' = with_s_membership (k_init c) s) -> memb_ok (s_membership s') ->
    Index (s_membership s') <= s_index s' ->
    s_index (k_snap c) < s_index s < 2 ^ 64 -> 0 < s_term s <= k_term c ->
    (s_index s <= k_commit c -> k_termAt c (s_index s) = s_term s) ->
    conf (s_membership s') (suffix s' c) = Ok m' -> act inp c [] (install s' m' c)
| act_compact c s :
    s_index (k_snap c) < s_index s <= k_commit c -> k_termAt c (s_index s) = s_term s -> s_term s <> 0 ->
    conf (k_base c) (take (Z.to_nat (s_index s - s_index (k_snap c))) (k_log c)) = Ok (s_membership s) ->
    Index (s_membership s) <= s_index s -> act inp c [] (install s (k_memb c) c)
| act_send c m : sendable inp c m -> act inp c [m] c.

(** Sequences of actions, with all the messages they send. *)
Inductive acts (inp : Input) : Core -> list Message -> Core -> Prop :=
| acts_nil c : acts inp c [] c
| acts_cons c ms c' ms' c'' : act inp c ms c' -> acts inp c' ms' c'' -> acts inp c (ms ++ ms') c''.

(** ** Lemmas: logs *)

Lemma log_ok_app base t l1 l2 :
  log_ok base t (l1 ++ l2) <-> log_ok base t l1 /\ log_ok (base + Z.of_nat (length l1)) t l2.
Proof.
  split.
  - intros H. split; intros i e Hi.
    + apply H. by apply lookup_app_l_Some.
    + destruct (H (length l1 + i)%nat e) as [H1 H2]; [|split; [lia|done]].
      by rewrite lookup_app_r, Nat.add_comm, Nat.add_sub by lia.
  - intros [H1 H2] i e Hi. apply lookup_app_Some in Hi as [Hi|[Hl Hi]]; [by apply H1|].
    destruct (H2 _ _ Hi) as [H3 H4]. split; [lia|done].
Qed.

Lemma log_ok_take base t k l : log_ok base t l -> log_ok base t (take k l).
Proof. intros H i e [Hi _]%lookup_take_Some. by apply H. Qed.

Lemma log_ok_drop base t k l : log_ok base t l -> (k <= length l)%nat -> log_ok (base + Z.of_nat k) t (drop k l).
Proof. intros H Hk i e Hi. rewrite lookup_drop in Hi. destruct (H _ _ Hi). split; [lia|done]. Qed.

Lemma log_ok_mono base t t' l : log_ok base t l -> t <= t' -> log_ok base t' l.
Proof. intros H Ht i e Hi. destruct (H _ _ Hi). split; [done|lia]. Qed.

Lemma log_ok_nil base t : log_ok base t [].
Proof. by intros i e Hi. Qed.

(** The terms of a log, starting with the term its snapshot ends in. *)
Definition term_list (c : Core) : list Z := s_term (k_snap c) :: (e_term <$> k_log c).

Lemma k_termAt_nat c k : k_termAt c (s_index (k_snap c) + Z.of_nat k) = default 0 (term_list c !! k).
Proof.
  unfold k_termAt, term_list. destruct k as [|k].
  - rewrite Z.add_0_r, Z.leb_refl, Z.eqb_refl. done.
  - rewrite (proj2 (Z.leb_gt _ _)) by lia. change ((?x :: ?l) !! S k) with (l !! k). rewrite list_lookup_fmap.
    replace (Z.to_nat _) with k by lia. by destruct (k_log c !! k).
Qed.

Lemma length_term_list c : length (term_list c) = S (length (k_log c)).
Proof. unfold term_list. simpl. by rewrite length_fmap. Qed.

Lemma k_termAt_in c i : s_index (k_snap c) <= i <= k_last c ->
  term_list c !! Z.to_nat (i - s_index (k_snap c)) = Some (k_termAt c i).
Proof.
  unfold k_last. intros Hi. replace i with (s_index (k_snap c) + Z.of_nat (Z.to_nat (i - s_index (k_snap c)))) at 2 by lia.
  rewrite k_termAt_nat. destruct (lookup_lt_is_Some_2 (term_list c) (Z.to_nat (i - s_index (k_snap c)))) as [t Ht];
    [rewrite length_term_list; lia|]. by rewrite Ht.
Qed.

Lemma k_termAt_out c i : k_last c < i \/ i < s_index (k_snap c) -> k_termAt c i = 0.
Proof.
  unfold k_last, k_termAt. intros Hi. destruct (Z.leb_spec i (s_index (k_snap c))).
  - destruct (Z.eqb_spec i (s_index (k_snap c))); [lia|done].
  - by rewrite lookup_ge_None_2 by lia.
Qed.

(** With positive terms, an index with a term lies in the log or at its start. *)
Lemma k_termAt_pos c i : k_termAt c i <> 0 -> s_index (k_snap c) <= i <= k_last c.
Proof.
  intros Ht. destruct (decide (s_index (k_snap c) <= i <= k_last c)); [done|].
  destruct Ht. apply k_termAt_out. lia.
Qed.

Lemma wf_term_list c : wf c -> StronglySorted Z.le (term_list c).
Proof. intros Hw. apply (wf_terms c Hw). Qed.

Lemma k_termAt_range c i : wf c -> 0 <= k_termAt c i <= k_term c.
Proof.
  intros Hw. destruct (wf_snap c Hw) as (_ & Hs & _). destruct (wf_term c Hw).
  destruct (decide (s_index (k_snap c) <= i <= k_last c)) as [Hi|Hi]; [|rewrite k_termAt_out; lia].
  pose proof (k_termAt_in c i Hi) as Hl. apply list_elem_of_lookup_2 in Hl. unfold term_list in Hl.
  apply elem_of_cons in Hl as [->|(e & -> & He)%list_elem_of_fmap]; [done|].
  apply list_elem_of_lookup in He as [j Hj]. destruct (wf_log c Hw _ _ Hj). lia.
Qed.

(** ** Lemmas: configurations *)

Lemma conf_app b l1 l2 : conf b (l1 ++ l2) = (m ← conf b l1; conf m l2).
Proof.
  unfold conf. revert b. induction l1 as [|e l1 IH]; intros b; [done|]. cbn [app fold_membership].
  destruct (decodeMembership (e_data e)) as [[c|]|?| |]; rewrite ?bind_ok; try done.
  destruct (applyMembership b c (e_index e)) as [m|?| |]; rewrite ?bind_ok; done.
Qed.

Lemma conf_prefix b l1 l2 m : conf b (l1 ++ l2) = Ok m -> exists m1, conf b l1 = Ok m1.
Proof. rewrite conf_app. destruct (conf b l1) as [m1|?| |]; try done. by exists m1. Qed.

(** The index of a configuration is that of the entry that made it. *)
Lemma conf_index b l m : conf b l = Ok m -> Index m = Index b \/ exists e, e ∈ l /\ Index m = e_index e.
Proof.
  unfold conf. revert b. induction l as [|e l IH]; intros b; cbn [fold_membership]; [intros [= <-]; by left|].
  destruct (decodeMembership (e_data e)) as [[c|]|?| |]; rewrite ?bind_ok; try done.
  - destruct (applyMembership b c (e_index e)) as [m1|?| |] eqn:Ea; rewrite ?bind_ok; try done. intros H.
    assert (Index m1 = e_index e) as E1.
    { revert Ea. unfold applyMembership. repeat case_match; try done; by intros [= <-]. }
    right. destruct (IH _ H) as [-> | (e' & ? & ?)]; [exists e|exists e']; (split; [set_solver|done]).
  - intros H. destruct (IH _ H) as [? | (e' & ? & ?)]; [by left|]. right. exists e'. split; [set_solver|done].
Qed.

(** Every entry of a log with a configuration decodes. *)
Lemma conf_decodes b l m e : conf b l = Ok m -> e ∈ l -> (IsMembershipEntry (e_data e)).2 = None.
Proof.
  unfold conf, IsMembershipEntry. revert b. induction l as [|e' l IH]; intros b; cbn [fold_membership]; [by intros _ ?%not_elem_of_nil|].
  destruct (decodeMembership (e_data e')) as [[c|]|?| |] eqn:Ed; rewrite ?bind_ok; try done;
    [destruct (applyMembership b c (e_index e')) as [m1|?| |]; rewrite ?bind_ok; try done|];
    intros H [->|Hin]%elem_of_cons; try (by rewrite Ed); by eapply IH.
Qed.

Lemma base_index c : wf c -> Index (k_base c) <= s_index (k_snap c).
Proof.
  intros Hw. destruct (wf_snap_memb _ Hw) as [_ Hx]. destruct (wf_init _ Hw) as (_ & _ & Hi). destruct (wf_snap _ Hw) as [Hs _].
  unfold k_base. destruct (_ && _); [done|]. lia.
Qed.

Lemma conf_memb_ok l b m : memb_ok b -> conf b l = Ok m -> memb_ok m.
Proof.
  unfold conf. revert b. induction l as [|e l IH]; intros b Hb; cbn [fold_membership]; [by intros [= <-]|].
  destruct (decodeMembership (e_data e)) as [[c|]|?| |] eqn:Ed; rewrite ?bind_ok; try done; [|by apply IH].
  destruct (applyMembership b c (e_index e)) as [m'|?| |] eqn:Ea; rewrite ?bind_ok; try done.
  apply IH. by eapply applyMembership_memb_ok.
Qed.

(** Entries without the configuration prefix do not change it. *)
Lemma conf_plain l b : Forall (fun e => hasMembershipPrefix (e_data e) = false) l -> conf b l = Ok b.
Proof.
  unfold conf. induction 1 as [|e l He HF IH]; [done|]. cbn [fold_membership].
  unfold decodeMembership. rewrite He. simpl. done.
Qed.

Lemma wf_memb_ok c : wf c -> memb_ok (k_memb c).
Proof. intros Hw. eapply conf_memb_ok; [apply (wf_base c Hw)|apply (wf_memb c Hw)]. Qed.

(** ** Every action preserves well-formedness *)

(** Changing the role, the votes and so on keeps the log part. *)
Lemma wf_same_log c c' : wf c ->
  k_id c' = k_id c -> k_init c' = k_init c -> k_snap c' = k_snap c -> k_log c' = k_log c ->
  k_memb c' = k_memb c -> k_term c <= k_term c' < 2 ^ 64 ->
  s_index (k_snap c) <= k_commit c' <= k_last c ->
  (k_role c' = Leader -> k_alloc c' = true) ->
  (k_role c' = Candidate \/ k_role c' = Leader -> k_voted c' = k_id c /\ 0 < k_term c') ->
  (k_role c' = Leader -> forall p, 0 <= at0 (k_match c') p <= k_last c) ->
  (k_role c' = Leader -> forall p, 0 <= at0 (k_next c') p <= k_last c + 1) -> wf c'.
Proof.
  intros Hw E1 E2 E3 E4 E5 Ht Hc Ha Hs Hm Hn. destruct Hw.
  assert (k_base c' = k_base c) as Eb by (unfold k_base; by rewrite E2, E3).
  assert (k_last c' = k_last c) as El by (unfold k_last; by rewrite E3, E4).
  constructor; rewrite ?Eb, ?El, ?E1, ?E2, ?E3, ?E4, ?E5; try done; [lia| |].
  - destruct wf_snap0 as (? & ? & ?). split_and!; try done; lia.
  - eapply log_ok_mono; [done|lia].
Qed.

Lemma at0_insert m p q v : at0 (<[p := v]> m) q = if decide (p = q) then v else at0 m q.
Proof.
  unfold at0. case_decide as E; [subst; by rewrite lookup_insert_eq|by rewrite lookup_insert_ne].
Qed.

Lemma k_last_app c l x : k_last (w_memb x (w_log (k_log c ++ l) c)) = k_last c + Z.of_nat (length l).
Proof. unfold k_last; ksimpl. rewrite length_app. lia. Qed.

(** A leader's own entries carry its term, which no entry before exceeds. *)
Lemma terms_ok_grow c l : wf c -> Forall (fun e => e_term e = k_term c) l -> terms_ok (s_term (k_snap c)) (k_log c ++ l).
Proof.
  intros Hw HF. unfold terms_ok. rewrite fmap_app, app_comm_cons. apply StronglySorted_app. split_and!.
  - intros x y Hx (e & -> & He)%list_elem_of_fmap. rewrite Forall_forall in HF. rewrite (HF e He).
    apply elem_of_cons in Hx as [->|(e' & -> & He')%list_elem_of_fmap]; [apply (wf_snap c Hw)|].
    apply list_elem_of_lookup in He' as [j Hj]. destruct (wf_log c Hw _ _ Hj). lia.
  - apply (wf_terms c Hw).
  - induction HF as [|e l He HF IH]; simpl; constructor; [done|].
    apply Forall_fmap. eapply Forall_impl; [exact HF|]. simpl. lia.
Qed.

Lemma wf_grow c l m : wf c -> k_role c = Leader -> log_ok (k_last c) (k_term c) l ->
  Forall (fun e => e_term e = k_term c) l -> conf (k_memb c) l = Ok m -> k_last c + Z.of_nat (length l) < 2 ^ 64 ->
  wf (grow l m c).
Proof.
  intros Hw Hr Hl Ht Hm Hlt. pose proof (terms_ok_grow c l Hw Ht) as Hs. destruct Hw. unfold grow.
  assert (forall x y, k_last (w_match x (w_memb y (w_log (k_log c ++ l) c))) = k_last c + Z.of_nat (length l)) as El.
  { intros. unfold k_last; ksimpl. rewrite length_app. lia. }
  constructor; rewrite ?El; ksimpl; try done.
  - apply log_ok_app. by split.
  - lia.
  - change (k_base _) with (k_base c). rewrite conf_app, wf_memb0. done.
  - intros _ p. rewrite at0_insert. destruct wf_commit0, wf_snap0. case_decide; [lia|].
    specialize (wf_match0 Hr p). lia.
  - intros _ p. specialize (wf_next0 Hr p). lia.
Qed.

Lemma wf_lead c nx : wf c -> k_role c = Candidate -> k_last c + 1 < 2 ^ 64 ->
  (forall p, 0 <= at0 nx p <= k_last c + 2) -> wf (lead nx c).
Proof.
  intros Hw Hr Hlt Hnx. destruct (wf_self c Hw (or_introl Hr)) as [Hv Hpos].
  pose proof (terms_ok_grow c [noop c] Hw ltac:(by repeat constructor)) as Hs. destruct Hw. unfold lead.
  match goal with |- wf ?x => assert (k_last x = k_last c + 1) as El end.
  { unfold k_last; ksimpl. rewrite length_app. simpl. lia. }
  constructor; rewrite ?El; ksimpl; try done.
  - apply log_ok_app. split; [done|]. intros [|i] e [= <-]. simpl. split; [unfold k_last; lia|lia].
  - lia.
  - change (k_base _) with (k_base c). rewrite conf_app, wf_memb0, bind_ok. by apply conf_plain; repeat constructor.
  - intros _ p. unfold at0. destruct wf_commit0, wf_snap0. destruct (decide (k_id c = p)); simplify_map_eq; simpl; lia.
  - intros _ p. specialize (Hnx p). lia.
Qed.

(** The entry before the first new one of an append has at most its term. *)
Lemma store_prev c m old rest : entries_ok m -> holds c (m_logIndex m) (m_logTerm m) -> m_entries m = old ++ rest ->
  Forall (fun e => holds c (e_index e) (e_term e)) old ->
  Forall (fun e => k_termAt c (m_logIndex m + Z.of_nat (length old)) <= e_term e) rest.
Proof.
  intros [Hl Ht] [_ Hh] E HF. unfold terms_ok in Ht. rewrite E in Hl, Ht.
  rewrite fmap_app, app_comm_cons in Ht. apply StronglySorted_app in Ht as (Hle & _ & _).
  assert (k_termAt c (m_logIndex m + Z.of_nat (length old)) ∈ m_logTerm m :: (e_term <$> old)) as Hin.
  { destruct old as [|e old _] using rev_ind; [rewrite Z.add_0_r, Hh; set_solver|].
    apply Forall_app in HF as [_ HF]. inv HF. destruct H1 as [_ H1].
    destruct (Hl (length old) e) as [Hi _].
    { rewrite <- app_assoc. by apply list_lookup_middle. }
    rewrite length_app. simpl length. rewrite Nat2Z.inj_add. replace (m_logIndex m + (Z.of_nat (length old) + Z.of_nat 1)) with (e_index e) by lia.
    rewrite H1, fmap_app. set_solver. }
  apply Forall_forall. intros e He. apply Hle; [done|]. by apply list_elem_of_fmap_2.
Qed.

Lemma terms_ok_store c keep rest : wf c -> (keep <= length (k_log c))%nat ->
  Forall (fun e => k_termAt c (s_index (k_snap c) + Z.of_nat keep) <= e_term e) rest ->
  StronglySorted Z.le (e_term <$> rest) ->
  terms_ok (s_term (k_snap c)) (take keep (k_log c) ++ rest).
Proof.
  intros Hw Hk HF Hs. unfold terms_ok. rewrite fmap_app, fmap_take, app_comm_cons.
  change (s_term (k_snap c) :: take keep (e_term <$> k_log c)) with (take (S keep) (term_list c)).
  pose proof (wf_term_list c Hw) as Hts.
  assert (StronglySorted Z.le (take (S keep) (term_list c))) as Htk.
  { pose proof Hts as H. rewrite <- (take_drop (S keep) (term_list c)) in H. by apply StronglySorted_app in H as (_ & ? & _). }
  apply StronglySorted_app. split_and!; [|done|done].
  intros x y Hx (e & -> & He)%list_elem_of_fmap. rewrite Forall_forall in HF. specialize (HF e He).
  rewrite k_termAt_nat in HF.
  destruct (lookup_lt_is_Some_2 (term_list c) keep) as [t Ht]; [rewrite length_term_list; lia|].
  rewrite Ht in HF. simpl in HF. apply list_elem_of_lookup in Hx as [j Hj]. apply lookup_take_Some in Hj as [Hj Hlt].
  destruct (decide (j = keep)) as [->|]; [by simplify_eq|].
  assert (x <= t); [|lia]. apply (sorted_lookup Z.le (term_list c) j keep); [done|done|done|lia].
Qed.

Lemma terms_ok_tail t l1 l2 : terms_ok t (l1 ++ l2) -> StronglySorted Z.le (e_term <$> l2).
Proof. unfold terms_ok. rewrite fmap_app, app_comm_cons. by intros (_ & _ & ?)%StronglySorted_app. Qed.

Lemma wf_store c m old rest keep m' : wf c ->
  m_term m = k_term c -> k_role c = Follower -> entries_ok m -> holds c (m_logIndex m) (m_logTerm m) ->
  m_entries m = old ++ rest -> Forall (fun e => holds c (e_index e) (e_term e)) old ->
  s_index (k_snap c) + Z.of_nat keep = m_logIndex m + Z.of_nat (length old) ->
  k_commit c <= s_index (k_snap c) + Z.of_nat keep <= k_last c -> lastNew m < 2 ^ 64 ->
  conf (k_base c) (take keep (k_log c) ++ rest) = Ok m' ->
  wf (w_memb m' (w_log (take keep (k_log c) ++ rest) c)).
Proof.
  intros Hw Htm Hr He Hh E HF Hk Hc Hn Hm.
  pose proof (store_prev c m old rest He Hh E HF) as Hp. rewrite <- Hk in Hp.
  assert (keep <= length (k_log c))%nat as Hkl by (unfold k_last in Hc; lia).
  pose proof (terms_ok_store c keep rest Hw Hkl Hp) as Hts. destruct He as [Hl Ht]. rewrite E in Hl, Ht.
  apply terms_ok_tail in Ht. specialize (Hts Ht). apply log_ok_app in Hl as [_ Hl].
  destruct Hw. match goal with |- wf ?x => assert (k_last x = lastNew m) as El end.
  { unfold k_last, lastNew; ksimpl. rewrite E, !length_app, length_take. lia. }
  constructor; rewrite ?El; ksimpl; try done.
  - apply log_ok_app. split; [by apply log_ok_take|]. rewrite length_take, Nat.min_l by done.
    rewrite Hk. rewrite Htm in Hl. done.
  - unfold lastNew. rewrite E, length_app. lia.
  - by rewrite Hr.
  - by rewrite Hr.
Qed.

Lemma k_base_install s m c : 0 < s_index s -> memb_ok (s_membership s) -> k_base (install s m c) = s_membership s.
Proof.
  intros Hi [[Hne _] _]. unfold k_base, install; ksimpl. rewrite (proj2 (Z.ltb_lt _ _)) by done.
  by destruct (Voters (s_membership s)).
Qed.

Lemma suffix_last s c m : wf c -> s_index (k_snap c) < s_index s ->
  (s_index s <= k_commit c -> k_termAt c (s_index s) = s_term s) ->
  Z.max (k_commit c) (s_index s) <= k_last (install s m c) <= Z.max (k_last c) (s_index s) /\
  (s_index s <= k_last c -> k_termAt c (s_index s) = s_term s -> k_last (install s m c) = k_last c).
Proof.
  intros Hw Hi Hc. pose proof (wf_commit c Hw). unfold install, suffix, k_last; ksimpl. fold (k_last c).
  destruct (Z.ltb_spec (s_index s) (k_last c)) as [Hlt|Hge]; cbn [andb].
  - destruct (Z.eqb_spec (k_termAt c (s_index s)) (s_term s)) as [E|E].
    + unfold k_last in *. rewrite length_drop. split; lia.
    + simpl. split; [|done]. assert (~ s_index s <= k_commit c) by tauto. lia.
  - simpl. split; lia.
Qed.

Lemma log_ok_suffix s c : wf c -> s_index (k_snap c) < s_index s -> log_ok (s_index s) (k_term c) (suffix s c).
Proof.
  intros Hw Hi. unfold suffix. destruct (Z.ltb_spec (s_index s) (k_last c)) as [Hlt|]; cbn [andb]; [|apply log_ok_nil].
  destruct (_ =? _); [|apply log_ok_nil]. unfold k_last in Hlt.
  replace (s_index s) with (s_index (k_snap c) + Z.of_nat (Z.to_nat (s_index s - s_index (k_snap c)))) at 1 by lia.
  apply log_ok_drop; [apply (wf_log c Hw)|lia].
Qed.

Lemma terms_ok_suffix s c : wf c -> s_index (k_snap c) < s_index s -> terms_ok (s_term s) (suffix s c).
Proof.
  intros Hw Hi. unfold suffix. destruct (Z.ltb_spec (s_index s) (k_last c)) as [Hlt|]; cbn [andb]; [|by repeat constructor].
  destruct (Z.eqb_spec (k_termAt c (s_index s)) (s_term s)) as [E|E]; [|by repeat constructor].
  pose proof (wf_term_list c Hw) as Hs. pose proof (k_termAt_in c (s_index s) ltac:(lia)) as Hl. rewrite E in Hl.
  remember (Z.to_nat (s_index s - s_index (k_snap c))) as k eqn:Ek. unfold terms_ok.
  rewrite <- (take_drop k (term_list c)) in Hs. apply StronglySorted_app in Hs as (_ & _ & Hs).
  rewrite (drop_S _ _ _ Hl) in Hs. unfold term_list in Hs.
  destruct k as [|k]; [lia|]. cbn [drop] in Hs. by rewrite fmap_drop.
Qed.

Lemma wf_install_gen c s m : wf c ->
  s_index (k_snap c) < s_index s < 2 ^ 64 -> 0 < s_term s <= k_term c -> memb_ok (s_membership s) ->
  (s_index s <= k_commit c -> k_termAt c (s_index s) = s_term s) ->
  (k_role c = Leader -> s_index s <= k_commit c) -> Index (s_membership s) <= s_index s ->
  conf (s_membership s) (suffix s c) = Ok m -> wf (install s m c).
Proof.
  intros Hw Hi Ht Hm Hc Hr Hx Hf. pose proof (wf_snap c Hw) as (Hs0 & _). pose proof (wf_commit c Hw).
  pose proof (log_ok_suffix s c Hw ltac:(lia)) as Hlog. pose proof (terms_ok_suffix s c Hw ltac:(lia)) as Hterms.
  destruct (suffix_last s c m Hw ltac:(lia) Hc) as [Hlast Hsame].
  pose proof (k_base_install s m c ltac:(lia) Hm) as Hb.
  assert (k_role c = Leader -> k_last (install s m c) = k_last c) as Hld.
  { intros HL. specialize (Hr HL). apply Hsame; [lia|auto]. }
  destruct Hw. constructor; rewrite ?Hb; try done; unfold install in *; ksimpl; try done; try lia.
  - intros HL p. rewrite Hld by done. by apply wf_match0.
  - intros HL p. rewrite Hld by done. by apply wf_next0.
Qed.

Lemma conf_take_drop b l k m m' : conf b l = Ok m -> conf b (take k l) = Ok m' -> conf m' (drop k l) = Ok m.
Proof. intros H1 H2. rewrite <- (take_drop k l), conf_app, H2, bind_ok in H1. done. Qed.

Lemma wf_compact c s : wf c ->
  s_index (k_snap c) < s_index s <= k_commit c -> k_termAt c (s_index s) = s_term s -> s_term s <> 0 ->
  conf (k_base c) (take (Z.to_nat (s_index s - s_index (k_snap c))) (k_log c)) = Ok (s_membership s) ->
  Index (s_membership s) <= s_index s -> wf (install s (k_memb c) c).
Proof.
  intros Hw Hi Ht Hz Hm Hx. pose proof (wf_commit c Hw). pose proof (wf_last c Hw).
  pose proof (k_termAt_range c (s_index s) Hw). apply wf_install_gen; try done; try lia.
  - eapply conf_memb_ok; [apply (wf_base c Hw)|done].
  - unfold suffix. rewrite Ht, Z.eqb_refl, andb_true_r. destruct (Z.ltb_spec (s_index s) (k_last c)).
    + eapply conf_take_drop; [apply (wf_memb c Hw)|done].
    + rewrite take_ge in Hm by (unfold k_last in *; lia). rewrite (wf_memb c Hw) in Hm. injection Hm as ->. done.
Qed.

Lemma matches_last c m : entries_ok m -> matches c m -> lastNew m <= k_last c.
Proof.
  intros [Hl _] [[Hh _] HF]. unfold lastNew. destruct (m_entries m) as [|e l _] eqn:E using rev_ind; [simpl; lia|].
  rewrite Forall_app in HF. destruct HF as [_ HF]. inv HF. destruct H1 as [H1 _].
  destruct (Hl (length l) e) as [Hi _]; [by apply list_lookup_middle|]. rewrite length_app. simpl. lia.
Qed.

(** Every action preserves well-formedness. *)
Lemma act_wf inp c ms c' : act inp c ms c' -> wf c -> wf c'.
Proof.
  intros Ha Hw. pose proof (wf_commit c Hw) as Hcm. pose proof (wf_term c Hw) as Htm. pose proof (wf_snap c Hw) as Hsn.
  inv Ha; unfold adopt, follow, precandidate, elect.
  all: try (apply (wf_same_log c); ksimpl; try done; try lia; try apply (wf_alloc c Hw); try apply (wf_self c Hw);
    try apply (wf_match c Hw); try apply (wf_next c Hw); naive_solver).
  - by apply wf_lead.
  - by apply wf_grow.
  - (* match *) apply (wf_same_log c); ksimpl; try done; try lia; try apply Hw.
    intros HL p0. rewrite at0_insert. pose proof (wf_match c Hw HL). case_decide; [|done].
    specialize (H (m_from m)). lia.
  - by apply (wf_store c m old rest keep m').
  - (* learn *) apply (wf_same_log c); ksimpl; try done; try lia; try apply Hw.
    pose proof (matches_last c m ltac:(done) ltac:(done)). lia.
  - (* install *) assert (s_index s' = s_index s /\ s_term s' = s_term s) as [Es Et] by (by destruct H4 as [->|[_ ->]]).
    rewrite <- Es in *. rewrite <- Et in *. apply wf_install_gen; try done. by rewrite H2.
  - by apply wf_compact.
  - done.
Qed.

Lemma act_next inp c p i : wf c -> k_role c = Leader -> 0 <= i <= k_last c + 1 ->
  act inp c [] (w_next (<[p := i]> (k_next c)) c).
Proof.
  intros Hw HL Hi. apply act_nexts. intros q. rewrite at0_insert. case_decide; [done|]. by apply (wf_next c Hw).
Qed.

Lemma acts_wf inp c ms c' : acts inp c ms c' -> wf c -> wf c'.
Proof. induction 1; intros; [done|]. eauto using act_wf. Qed.

Lemma acts_one inp c ms c' : act inp c ms c' -> acts inp c ms c'.
Proof. intros H. rewrite <- (app_nil_r ms). by eapply acts_cons; [|constructor]. Qed.

Lemma acts_app inp c ms c' ms' c'' : acts inp c ms c' -> acts inp c' ms' c'' -> acts inp c (ms ++ ms') c''.
Proof. induction 1; intros; [done|]. rewrite <- app_assoc. econstructor; eauto. Qed.

Lemma acts_snoc inp c ms c' ms' c'' : acts inp c ms c' -> act inp c' ms' c'' -> acts inp c (ms ++ ms') c''.
Proof. intros. eapply acts_app; [done|]. by apply acts_one. Qed.


Lemma acts_sends inp c ms : Forall (sendable inp c) ms -> acts inp c ms c.
Proof.
  induction 1 as [|m ms Hm HF IH]; [constructor|]. change (m :: ms) with ([m] ++ ms).
  eapply acts_cons; [by apply act_send|done].
Qed.

(** ** What a node keeps across a restart, and how an update changes it *)

Record Durable := mkDurable { d_hard : HardState; d_snap : Snapshot; d_log : list Entry }.

Definition dur (c : Core) : Durable := mkDurable (mkHard (k_term c) (k_voted c)) (k_snap c) (k_log c).

(** A snapshot replaces a log prefix; the rest is kept if the log agrees with it. *)
Definition d_install (s : Snapshot) (d : Durable) : Durable :=
  let base := s_index (d_snap d) in
  if s_index s <=? base then d else
  let keep := match d_log d !! Z.to_nat (s_index s - base - 1) with
              | Some e => e_term e =? s_term s
              | None => false
              end in
  mkDurable (d_hard d) s (if keep then drop (Z.to_nat (s_index s - base)) (d_log d) else []).

(** Applying the persistence effects of an update, in the order of the stable store. *)
Definition persist (u : Update) (d : Durable) : Durable :=
  let d := match u_hardState u with Some h => mkDurable h (d_snap d) (d_log d) | None => d end in
  let d := match u_snapshot u with Some s => d_install s d | None => d end in
  let kept := if u_truncateFrom u =? 0 then d_log d
              else take (Z.to_nat (u_truncateFrom u - s_index (d_snap d) - 1)) (d_log d) in
  mkDurable (d_hard d) (d_snap d) (kept ++ u_entries u).

(** The entries between two commit indexes. *)
Definition between (lo hi : Z) (c : Core) : list Entry := filter (fun e => lo < e_index e <= hi) (k_log c).

(** ** Reading a log after entries were stored *)

Section stored.
Context (c : Core) (keep : nat) (rest : list Entry) (mb : Membership).
Context (Hkeep : (keep <= length (k_log c))%nat).
Let c' : Core := w_memb mb (w_log (take keep (k_log c) ++ rest) c).

Lemma k_termAt_kept i : i <= s_index (k_snap c) + Z.of_nat keep -> k_termAt c' i = k_termAt c i.
Proof.
  intros Hi. unfold k_termAt, c'; ksimpl. destruct (Z.leb_spec i (s_index (k_snap c))); [done|].
  rewrite lookup_app_l by (rewrite length_take; lia). rewrite lookup_take_lt by lia. done.
Qed.

Lemma k_termAt_stored j e : rest !! j = Some e ->
  k_termAt c' (s_index (k_snap c) + Z.of_nat keep + Z.of_nat j + 1) = e_term e.
Proof.
  intros He. unfold k_termAt, c'; ksimpl. rewrite (proj2 (Z.leb_gt _ _)) by lia.
  rewrite lookup_app_r by (rewrite length_take; lia). rewrite length_take.
  replace (_ - _)%nat with j by lia. by rewrite He.
Qed.

Lemma k_last_stored : k_last c' = s_index (k_snap c) + Z.of_nat keep + Z.of_nat (length rest).
Proof. unfold k_last, c'; ksimpl. rewrite length_app, length_take. lia. Qed.

Lemma matches_stored m old : holds c (m_logIndex m) (m_logTerm m) -> entries_ok m -> m_entries m = old ++ rest ->
  Forall (fun e => holds c (e_index e) (e_term e)) old ->
  s_index (k_snap c) + Z.of_nat keep = m_logIndex m + Z.of_nat (length old) -> matches c' m.
Proof.
  intros [Hh1 Hh2] [Hl _] E HF Hk. split.
  - split; [rewrite k_last_stored; lia|]. by rewrite k_termAt_kept by lia.
  - rewrite E in Hl |- *. apply Forall_app. split; apply Forall_lookup; intros i e Hi.
    + rewrite Forall_lookup in HF. destruct (HF i e Hi) as [_ H2]. apply log_ok_app in Hl as [Hl _].
      destruct (Hl i e Hi) as [Hx _]. apply lookup_lt_Some in Hi.
      split; [rewrite k_last_stored; lia|]. by rewrite k_termAt_kept by lia.
    + apply log_ok_app in Hl as [_ Hl]. destruct (Hl i e Hi) as [Hx _]. apply lookup_lt_Some in Hi as Hlt.
      split; [rewrite k_last_stored; lia|]. rewrite <- (k_termAt_stored i e Hi). f_equal. lia.
Qed.

End stored.

End Core.
