(* ===== verification/RaftRefine.v ===== *)
(** * The handlers of internal/raft/node.go refine the protocol

    Every operation of a node performs a sequence of protocol actions (file
    RaftCore) on the node's core, never panics on a well-formed node, and returns an
    update that records exactly the change of the durable state and exactly the
    entries that became committed. *)

From S2P Require Import Prelude GoStd Fs Json Membership RaftTypes RaftNode RaftCore.

Module Refine.
Import Membership Raft Node Core.

(** ** Running a handler *)

(** The computation returns normally and the result satisfies Q. *)
Definition does {A} (m : M Node A) (n : Node) (Q : A -> Node -> Prop) : Prop :=
  runs m n Q (fun _ => False) (fun _ => False).

Lemma does_ret {A} (a : A) n (Q : A -> Node -> Prop) : Q a n -> does (mret a) n Q.
Proof. done. Qed.

Lemma does_get {B} (f : Node -> M Node B) n Q : does (f n) n Q -> does (get ≫= f) n Q.
Proof. done. Qed.

Lemma does_modify {B} g (f : unit -> M Node B) n Q : does (f tt) (g n) Q -> does (modify g ≫= f) n Q.
Proof. done. Qed.

Lemma does_mono {A} (m : M Node A) n (Q Q' : A -> Node -> Prop) :
  does m n Q -> (forall a n', Q a n' -> Q' a n') -> does m n Q'.
Proof. intros H HQ. eapply runs_mono; [exact H|done|done|done]. Qed.

(** Sequencing through a specification of the first part. *)
Lemma does_bind {A B} (m : M Node A) (f : A -> M Node B) n Q1 Q :
  does m n Q1 -> (forall a n', Q1 a n' -> does (f a) n' Q) -> does (m ≫= f) n Q.
Proof. intros H1 H2. apply runs_bind. eapply runs_mono; [exact H1|exact H2|done|done]. Qed.

Lemma does_if {A} (b : bool) (m1 m2 : M Node A) n Q :
  (b = true -> does m1 n Q) -> (b = false -> does m2 n Q) -> does (if b then m1 else m2) n Q.
Proof. destruct b; auto. Qed.

Ltac step_get := match goal with |- does (mbind _ get) _ _ => apply does_get end.
Ltac step_mod := match goal with |- does (mbind _ (modify _)) _ _ => apply does_modify end.
Ltac steps := repeat first [step_get | step_mod].

(** ** Reading a node *)

Lemma lastIndex_core n : wf (core n) -> lastIndex n = k_last (core n).
Proof.
  intros Hw. pose proof (wf_last _ Hw). pose proof (wf_snap _ Hw). unfold lastIndex, k_last in *. simpl in *.
  apply u64_small. lia.
Qed.

Lemma termAt_core n i : wf (core n) -> termAt n i = k_termAt (core n) i.
Proof.
  intros Hw. destruct (wf_snap _ Hw) as (Hs & _ & Hz). unfold termAt, k_termAt. rewrite lastIndex_core by done.
  simpl in *. destruct (Z.eqb_spec i 0) as [->|Hi].
  - rewrite (proj2 (Z.leb_le _ _)) by done. destruct (Z.eqb_spec 0 (s_index (snapshot n))) as [E|]; [|done].
    symmetry. by apply Hz.
  - destruct (Z.eqb_spec i (s_index (snapshot n))) as [->|]; [by rewrite Z.leb_refl|].
    destruct (Z.leb_spec i (s_index (snapshot n))); [done|]. cbn [orb].
    destruct (Z.ltb_spec (k_last (core n)) i); [|done].
    rewrite lookup_ge_None_2; [done|]. unfold k_last in *. simpl in *. lia.
Qed.

Lemma isUpToDate_core n i t : wf (core n) -> isUpToDate n i t = k_upToDate (core n) i t.
Proof. intros Hw. unfold isUpToDate, k_upToDate. by rewrite lastIndex_core, termAt_core. Qed.

Lemma base_core n : base_membership n = k_base (core n).
Proof. done. Qed.

Lemma entriesBetween_take n from to : exists k,
  entriesBetween n from to = take k (drop (Z.to_nat (from - s_index (snapshot n) - 1)) (log n)).
Proof.
  unfold entriesBetween. destruct (_ || _); [by exists O|]. unfold slice. eauto.
Qed.

(** In range, entriesBetween is the entries from one index up to before another. *)
Lemma entriesBetween_slice n from to : wf (core n) -> s_index (snapshot n) < from <= to -> to <= k_last (core n) + 1 ->
  k_last (core n) + 1 < 2 ^ 64 ->
  entriesBetween n from to =
  slice (Z.to_nat (from - s_index (snapshot n) - 1)) (Z.to_nat (to - s_index (snapshot n) - 1)) (log n).
Proof.
  intros Hw Hf Ht Hl. pose proof (wf_snap _ Hw) as [Hs _]. simpl in Hs. unfold entriesBetween.
  rewrite lastIndex_core by done.
  assert (s_index (snapshot n) <= k_last (core n)) by (unfold k_last; simpl; lia).
  rewrite u64_small, Z.min_l by lia.
  destruct (Z.leb_spec to from); cbn [orb].
  - assert (to = from) as -> by lia. unfold slice. by rewrite Nat.sub_diag.
  - rewrite (proj2 (Z.leb_gt _ _)), (proj2 (Z.ltb_ge _ _)) by lia. done.
Qed.

Lemma peers_ne m : memb_ok m -> unionVoters m <> [].
Proof.
  intros [[Hne _] _] E. destruct (Voters m) as [|v l] eqn:Ev; [done|].
  assert (v ∈ unionVoters m) as Hin by (apply elem_of_unionVoters; rewrite Ev; set_solver). rewrite E in Hin. set_solver.
Qed.

Lemma replicationPeers_ne n : wf (core n) -> replicationPeers n <> [].
Proof.
  intros Hw. pose proof (peers_ne _ (wf_memb_ok _ Hw)) as Hp. unfold replicationPeers. destruct (_ && _); [|done].
  destruct (membershipAt n _) as [prior|?| |]; try done.
  destruct (Nat.ltb_spec 0 (length (JointVoters prior))); [|done]. intros E.
  destruct (JointVoters prior) as [|v l] eqn:Ev; [simpl in *; lia|].
  assert (v ∈ unionVoters prior) as Hin by (apply elem_of_unionVoters; rewrite Ev; set_solver). rewrite E in Hin. set_solver.
Qed.

(** The entries between two indexes, as a slice of a log. *)
Lemma filter_Forall_none {A} (P : A -> Prop) `{!forall x, Decision (P x)} l : Forall (fun x => ~ P x) l -> filter P l = [].
Proof. rewrite Forall_forall. apply filter_none. Qed.

Lemma filter_Forall_all {A} (P : A -> Prop) `{!forall x, Decision (P x)} l : Forall P l -> filter P l = l.
Proof. rewrite Forall_forall. apply filter_all. Qed.

Lemma between_slice c lo hi : wf c -> s_index (k_snap c) <= lo <= hi -> hi <= k_last c ->
  between lo hi c = slice (Z.to_nat (lo - s_index (k_snap c))) (Z.to_nat (hi - s_index (k_snap c))) (k_log c).
Proof.
  intros Hw Hlo Hhi. pose proof (wf_log _ Hw) as Hl. unfold between, slice, k_last in *.
  set (a := Z.to_nat (lo - s_index (k_snap c))). set (b := Z.to_nat (hi - s_index (k_snap c))).
  rewrite <- (take_drop a (k_log c)) at 1. rewrite <- (take_drop (b - a) (drop a (k_log c))) at 1.
  rewrite !filter_app. rewrite (filter_Forall_none _ (take a _)), (filter_Forall_all _ (take (b - a) _)), (filter_Forall_none _ (drop (b - a) _)).
  - by rewrite app_nil_r.
  - apply Forall_lookup. intros i e Hi. rewrite !lookup_drop in Hi. destruct (Hl _ _ Hi). lia.
  - apply Forall_lookup. intros i e [Hi Hlt]%lookup_take_Some. rewrite lookup_drop in Hi. destruct (Hl _ _ Hi). lia.
  - apply Forall_lookup. intros i e [Hi Hlt]%lookup_take_Some. destruct (Hl _ _ Hi). lia.
Qed.

Lemma entriesBetween_core n lo hi : wf (core n) -> s_index (snapshot n) <= lo <= hi -> hi <= k_last (core n) ->
  k_last (core n) + 1 < 2 ^ 64 -> entriesBetween n (u64 (lo + 1)) (u64 (hi + 1)) = between lo hi (core n).
Proof.
  intros Hw Hlo Hhi Hr. pose proof (wf_snap _ Hw) as [Hs _]. simpl in Hs.
  rewrite between_slice by done. rewrite !u64_small by lia. rewrite entriesBetween_slice by (done || lia).
  simpl. f_equal; lia.
Qed.

(** A change of bookkeeping is no change of the core. *)
Definition quiet (n n' : Node) : Prop := core n' = core n.

Lemma does_quiet {A B} (m : M Node A) (f : A -> M Node B) n Q :
  does m n (fun _ n' => quiet n n') -> (forall a n', quiet n n' -> does (f a) n' Q) -> does (m ≫= f) n Q.
Proof. apply does_bind. Qed.

Lemma reset_quiet n : does resetElectionTimer n (fun _ n' => quiet n n').
Proof. done. Qed.

Lemma set_active_quiet n p v : does (set_active p v) n (fun _ n' => quiet n n').
Proof. done. Qed.

Lemma quiet_role n n' : quiet n n' -> role n' = role n.
Proof. intros H. by apply (f_equal k_role) in H. Qed.

Lemma quiet_wf n n' : quiet n n' -> wf (core n) -> wf (core n').
Proof. unfold quiet. by intros ->. Qed.

Lemma quiet_trans n n' n'' : quiet n n' -> quiet n' n'' -> quiet n n''.
Proof. unfold quiet. congruence. Qed.

(** ** Sending *)

Section sending.
Context (inp : Input).

(** A leader, or a node that has just stepped down and still sends what it would
    have sent as leader: [c] is its core before it stepped down. *)
Definition leads (c : Core) (n : Node) : Prop :=
  wf c /\ k_role c = Leader /\ (core n = c \/ core n = follow c).

Lemma leads_self n : wf (core n) -> role n = Leader -> leads (core n) n.
Proof. intros. split_and!; auto. Qed.

Lemma leads_wf c n : leads c n -> wf (core n).
Proof. intros (Hw & Hr & [-> | ->]); [done|]. by eapply act_wf; [apply (act_follow Quiet)|]. Qed.

Lemma leads_quiet c n n' : leads c n -> quiet n n' -> leads c n'.
Proof. unfold leads, quiet. by intros H ->. Qed.

(** Everything but the role and the votes. *)
Lemma leads_fields c n : leads c n ->
  c_ID (cfg n) = k_id c /\ term n = k_term c /\ snapshot n = k_snap c /\ log n = k_log c /\ commit n = k_commit c /\
  nextIndex n = k_next c /\ matchIndex n = k_match c /\ allocated n = k_alloc c /\ membership n = k_memb c.
Proof. intros (_ & _ & [<- | H]); [done|]. 
  split_and!; [exact (f_equal k_id H)|exact (f_equal k_term H)|exact (f_equal k_snap H)|exact (f_equal k_log H)|
    exact (f_equal k_commit H)|exact (f_equal k_next H)|exact (f_equal k_match H)|exact (f_equal k_alloc H)|exact (f_equal k_memb H)].
Qed.

Lemma leads_termAt c n i : leads c n -> termAt n i = k_termAt c i.
Proof.
  intros H. rewrite termAt_core by (by eapply leads_wf). destruct H as (_ & _ & [-> | ->]); done.
Qed.

Lemma leads_lastIndex c n : leads c n -> lastIndex n = k_last c.
Proof.
  intros H. rewrite lastIndex_core by (by eapply leads_wf). destruct H as (_ & _ & [-> | ->]); done.
Qed.

Lemma alloc_maps c n : leads c n -> exists o a, outstanding n = Some o /\ outstandingAge n = Some a.
Proof.
  intros Hl. pose proof (leads_fields c n Hl) as (_ & _ & _ & _ & _ & _ & _ & Ha & _).
  destruct Hl as (Hw & Hr & _). rewrite (wf_alloc _ Hw Hr) in Ha. unfold allocated in Ha.
  destruct (outstanding n) as [o|], (outstandingAge n) as [a|]; try done. eauto.
Qed.

Lemma set_outstanding_quiet c n p v : leads c n -> does (set_outstanding p v) n (fun _ n' => quiet n n').
Proof.
  intros Hl. destruct (alloc_maps c n Hl) as (o & a & Eo & Ea). unfold set_outstanding. step_get. rewrite Eo.
  unfold does, runs, modify, quiet, core, allocated. nsimpl. by rewrite Eo, Ea.
Qed.

Lemma set_age_quiet c n p v : leads c n -> does (set_age p v) n (fun _ n' => quiet n n').
Proof.
  intros Hl. destruct (alloc_maps c n Hl) as (o & a & Eo & Ea). unfold set_age. step_get. rewrite Ea.
  unfold does, runs, modify, quiet, core, allocated. nsimpl. by rewrite Eo, Ea.
Qed.

Lemma settle_quiet c n p : leads c n -> does (settleOutstanding p) n (fun _ n' => quiet n n').
Proof. intros Hl. unfold settleOutstanding. step_get. apply does_if; [intros _; by eapply set_outstanding_quiet|done]. Qed.

Lemma expire_quiet c l limit : forall n, leads c n -> does (expire_peers limit l) n (fun _ n' => quiet n n').
Proof.
  induction l as [|p l IH]; intros n Hl; cbn [expire_peers]; [done|]. step_get.
  apply does_if; intros _; [by apply IH|]. eapply does_quiet; [by eapply set_age_quiet|]. intros _ n1 H1. step_get.
  pose proof (leads_quiet _ _ _ Hl H1) as Hl1. apply does_if; intros _.
  - eapply does_quiet; [by eapply set_outstanding_quiet|]. intros _ n2 H2.
    eapply does_bind; [apply IH; by eapply leads_quiet|].
    intros ex n3 H3. apply does_ret. eauto using quiet_trans.
  - eapply does_mono; [by apply IH|]. simpl. eauto using quiet_trans.
Qed.

Definition sent (c : Core) (n : Node) (ms : list Message) (n' : Node) : Prop := quiet n n' /\ Forall (sendable inp c) ms.

Lemma capped_take n from : exists k,
  cappedEntries n from = take k (drop (Z.to_nat (from - s_index (snapshot n) - 1)) (log n)).
Proof. unfold cappedEntries. destruct (_ || _); [by exists O|]. apply entriesBetween_take. Qed.

Lemma append_sendable c n next peer context origin entries : leads c n ->
  s_index (snapshot n) < next <= k_last c + 1 -> entries = cappedEntries n next \/ entries = [] ->
  sendable inp c (mkMessage MsgAppend (c_ID (cfg n)) peer (term n) (next - 1) (termAt n (next - 1)) entries
                     (commit n) false 0 context None origin).
Proof.
  intros Hl Hn He. rewrite (leads_termAt c n _ Hl).
  pose proof (leads_fields c n Hl) as (E1 & E2 & E3 & E4 & E5 & _). destruct Hl as (Hw & Hr & _).
  split; [done|]. simpl. rewrite E3 in Hn. split_and!; try done; try lia.
  destruct He as [-> | ->]; [|by exists O].
  destruct (capped_take n next) as [k ->]. exists k. rewrite E3, E4. do 2 f_equal. lia.
Qed.

Lemma appendMessage_spec c n peer context origin : leads c n ->
  does (appendMessage peer context origin) n (fun m n' => sent c n [m] n').
Proof.
  intros Hl. pose proof (leads_fields c n Hl) as (E1 & E2 & E3 & E4 & E5 & E6 & _). pose proof Hl as (Hw & Hr & _).
  unfold appendMessage. step_get. cbv zeta.
  set (next := if at0 (nextIndex n) peer =? 0 then _ else _).
  assert (next <= k_last c + 1) as Hn.
  { unfold next. rewrite E6. destruct (Z.eqb_spec (at0 (k_next c) peer) 0); [|apply (wf_next _ Hw Hr)].
    rewrite (leads_lastIndex c n Hl). pose proof (wf_commit _ Hw). pose proof (wf_snap _ Hw).
    unfold u64. apply Z.mod_le; lia. }
  apply does_if; intros E; bool_hyps.
  { apply does_ret. split; [done|]. constructor; [|constructor]. split; [done|]. simpl. rewrite E3. done. }
  apply does_if; intros E'.
  { apply does_ret. split; [done|]. constructor; [|constructor]. apply append_sendable; auto; lia. }
  assert (forall n', quiet n n' -> does (mret (mkMessage MsgAppend (c_ID (cfg n)) peer (term n) (next - 1)
    (termAt n (next - 1)) (cappedEntries n next) (commit n) false 0 context None origin)) n' (fun m n' => sent c n [m] n')) as Hd.
  { intros n' H'. apply does_ret. split; [done|]. constructor; [|constructor]. apply append_sendable; auto; lia. }
  destruct (last (cappedEntries n next)) as [e|]; [|by apply Hd].
  eapply does_quiet; [by eapply set_outstanding_quiet|]. intros _ n1 H1.
  eapply does_quiet; [eapply set_age_quiet; by eapply leads_quiet|].
  intros _ n2 H2. apply Hd. by eapply quiet_trans.
Qed.

Lemma sent_trans c n ms n' ms' n'' : sent c n ms n' -> sent c n' ms' n'' -> sent c n (ms ++ ms') n''.
Proof. intros [H1 F1] [H2 F2]. split; [by eapply quiet_trans|]. by apply Forall_app. Qed.

Lemma collect_spec c f l : forall n, leads c n ->
  (forall p n', leads c n' -> does (f p) n' (fun ms n'' => sent c n' ms n'')) ->
  does (collect f l) n (fun ms n' => sent c n ms n').
Proof.
  induction l as [|p l IH]; intros n Hl Hf; cbn [collect]; [by split|].
  eapply does_bind; [by apply Hf|]. intros ms n1 H1. pose proof H1 as [Hq _].
  eapply does_bind; [apply IH; [by eapply leads_quiet|done]|].
  intros rest n2 H2. apply does_ret. by eapply sent_trans.
Qed.

Lemma broadcast_spec c n origin : leads c n -> does (broadcastAppend origin) n (fun ms n' => sent c n ms n').
Proof.
  intros Hl. unfold broadcastAppend. step_get. apply does_if; intros E; bool_hyps.
  { apply length_zero_iff_nil in E. by destruct (replicationPeers_ne n (leads_wf c n Hl)). }
  apply collect_spec; [done|]. intros p n' Hl'. step_get.
  apply does_if; intros _; [by split|]. apply does_if; intros _; [by split|].
  eapply does_bind; [by apply appendMessage_spec|]. intros m n1 H1. by apply does_ret.
Qed.

Lemma sent_acts c n ms n' : sent c n ms n' -> acts inp c ms c.
Proof. intros [_ HF]. by apply acts_sends. Qed.

End sending.

(** ** What an update records *)

Record performs (inp : Input) (n : Node) (u : Update) (n' : Node) : Prop := {
  pf_acts : acts inp (core n) (u_messages u) (core n');
  pf_dur : dur (core n') = persist u (dur (core n));
  pf_del : u_committed u = between (commit n) (commit n') (core n')
}.

(** No truncation and no snapshot; and no entries, messages or commits either. *)
Definition plain (u : Update) : Prop := u_truncateFrom u = 0 /\ u_snapshot u = None.
Definition bare (u : Update) : Prop := plain u /\ u_entries u = [] /\ u_messages u = [] /\ u_committed u = [].

Lemma persist_merge u v d : plain v \/ (plain u /\ u_entries u = []) -> persist (merge u v) d = persist v (persist u d).
Proof.
  intros [[Ht Hs] | [[Ht Hs] He]]; unfold persist, merge, over;
    cbn [u_hardState u_truncateFrom u_entries u_snapshot]; rewrite Ht, Hs; simpl Z.eqb; cbv iota.
  - destruct (u_hardState v), (u_hardState u), (u_snapshot u); unfold d_install; simpl; try (by rewrite app_assoc);
      match goal with |- context [s_index ?s <=? ?x] => destruct (s_index s <=? x) end; simpl; by rewrite app_assoc.
  - rewrite He, app_nil_l. replace (if u_truncateFrom v =? 0 then 0 else u_truncateFrom v) with (u_truncateFrom v)
      by (by destruct (Z.eqb_spec (u_truncateFrom v) 0)).
    destruct (u_hardState v), (u_hardState u), (u_snapshot v); unfold d_install; simpl; rewrite ?app_nil_r; try done;
      match goal with |- context [s_index ?s <=? ?x] => destruct (s_index s <=? x) end; done.
Qed.

Lemma between_same i c : between i i c = [].
Proof. apply filter_Forall_none. apply Forall_forall. lia. Qed.

Lemma between_app lo hi c l m : hi <= k_last c -> wf (grow l m c) ->
  between lo hi (grow l m c) = between lo hi c.
Proof.
  intros Hh Hw. unfold between, grow; ksimpl. rewrite filter_app, (filter_Forall_none _ l), app_nil_r; [done|].
  pose proof (wf_log _ Hw) as Hl. unfold grow in Hl; ksimpl_in Hl. apply log_ok_app in Hl as [_ Hl].
  apply Forall_lookup. intros i e Hi. destruct (Hl _ _ Hi). unfold k_last in Hh. lia.
Qed.

Lemma performs_none inp n n' : quiet n n' -> performs inp n noUpdate n'.
Proof.
  intros H. assert (commit n' = commit n) as Ec by (by apply (f_equal k_commit) in H).
  constructor; rewrite ?H, ?Ec; [constructor| |by rewrite between_same].
  unfold persist; simpl. rewrite app_nil_r. done.
Qed.

(** Two updates in sequence, merged. *)
Lemma performs_merge inp n u n1 v n2 : performs inp n u n1 -> performs inp n1 v n2 ->
  plain v \/ (plain u /\ u_entries u = []) ->
  commit n1 = commit n \/ (commit n2 = commit n1 /\ log n2 = log n1) -> performs inp n (merge u v) n2.
Proof.
  intros [A1 D1 C1] [A2 D2 C2] Hc Hk. constructor.
  - simpl. by eapply acts_app.
  - by rewrite persist_merge, <- D1.
  - simpl. rewrite C1, C2. destruct Hk as [-> | [-> El]].
    + by rewrite between_same.
    + rewrite between_same, app_nil_r. unfold between. simpl. by rewrite El.
Qed.

(** ** Becoming a follower *)

Lemma becomeFollower_spec inp n t l : wf (core n) -> t = term n \/ term n < t < 2 ^ 64 ->
  does (becomeFollower t l) n (fun u n' =>
    core n' = (if term n <? t then adopt t (core n) else follow (core n)) /\ performs inp n u n' /\ bare u).
Proof.
  intros Hw Ht. unfold becomeFollower. step_get. cbv zeta.
  destruct (Z.ltb_spec (term n) t) as [Hlt|Hge].
  - rewrite (proj2 (Z.eqb_neq t (term n))) by lia. cbn [negb orb].
    apply (does_bind _ _ _ (fun _ n' => n' = with_votedFor 0 (with_term t n))); [done|]. intros _ n0 ->. steps.
    eapply does_quiet; [apply reset_quiet|]. intros _ n' Hq. step_get. apply does_ret.
    assert (core n' = adopt t (core n)) as E by (unfold quiet in Hq; by rewrite Hq).
    assert (commit n' = commit n /\ term n' = t /\ votedFor n' = 0) as (Ec & Et & Ev).
    { split_and!; [exact (f_equal k_commit E)|exact (f_equal k_term E)|exact (f_equal k_voted E)]. }
    split_and!; [done| |by repeat split]. constructor; rewrite ?E, ?Ec.
    + apply acts_one. apply (act_term inp (core n) t). simpl. lia.
    + unfold persist, dur, hardState. cbn. by rewrite app_nil_r, Et, Ev.
    + by rewrite between_same.
  - assert (t = term n) as -> by lia. rewrite Z.eqb_refl. cbn [negb orb andb].
    apply (does_bind _ _ _ (fun _ n' => n' = n)); [done|]. intros _ n0 ->. steps.
    eapply does_quiet; [apply reset_quiet|]. intros _ n' Hq. step_get. apply does_ret.
    assert (core n' = follow (core n)) as E by (unfold quiet in Hq; by rewrite Hq).
    assert (commit n' = commit n) as Ec by exact (f_equal k_commit E).
    split_and!; [done| |by repeat split]. constructor; rewrite ?E, ?Ec.
    + apply acts_one. apply (act_follow inp (core n)).
    + unfold persist, dur; cbn. by rewrite app_nil_r.
    + by rewrite between_same.
Qed.

(** ** Advancing the commit index *)

Lemma find_candidate_spec n fuel : forall i, (Z.to_nat (i - commit n) <= fuel)%nat ->
  let r := find_candidate n fuel i in
  r <= i /\ (r <= commit n \/
    (commit n < r /\ termAt n r = term n /\ hasQuorum (membership n) (fun id => r <=? at0 (matchIndex n) id) = true)).
Proof.
  induction fuel as [|fuel IH]; intros i Hf; cbn [find_candidate]; [simpl; lia|].
  destruct (Z.ltb_spec (commit n) i); [|simpl; lia].
  destruct (termAt n i =? term n) eqn:E1; cbn [andb].
  - destruct (hasQuorum _ _) eqn:E2; [bool_hyps; simpl; auto with lia|].
    destruct (IH (i - 1) ltac:(lia)) as [H1 H2]. simpl. split; [lia|done].
  - destruct (IH (i - 1) ltac:(lia)) as [H1 H2]. simpl. split; [lia|done].
Qed.

(** The final configuration entry of a joint configuration is valid. *)
Lemma conf_final n : wf (core n) -> (0 < length (JointVoters (membership n)))%nat ->
  conf (membership n) [final_entry n] = Ok (mkMembership (JointVoters (membership n)) [] (e_index (final_entry n))).
Proof.
  intros Hw HJ. destruct (wf_memb_ok _ Hw) as [_ [E|Hj]]; simpl in *; [by rewrite E in HJ; simpl in HJ; lia|].
  unfold conf. cbn [fold_membership final_entry e_data].
  rewrite decode_encode by (split; [done|by right]). rewrite bind_ok.
  unfold applyMembership; cbn [Phase New]. rewrite bool_decide_false, bool_decide_true by done.
  rewrite (proj2 (Nat.eqb_neq _ _)) by lia. rewrite (proj2 (equalVoters_eq _ _)) by done. done.
Qed.

Lemma rebuild_eq n : rebuildMembership n =
  match conf (k_base (core n)) (log n) with
  | Ok m => (Ok tt, with_membership m n)
  | Err e => (Err e, n)
  | Panic => (Panic, n)
  | Crash => (Crash, n)
  end.
Proof.
  unfold rebuildMembership, conf, get, gets, of_res, modify, mbind, M_bind, id. cbv beta iota. by rewrite base_core.
Qed.

Lemma rebuild_ok n m : conf (k_base (core n)) (log n) = Ok m ->
  does (try_err rebuildMembership) n (fun e n' => e = None /\ n' = with_membership m n).
Proof. intros H. unfold does, runs, try_err. by rewrite rebuild_eq, H. Qed.

Lemma u64_le x : 0 <= x -> 0 <= u64 x <= x.
Proof. intros Hx. pose proof (u64_range x). unfold u64 in *. pose proof (Z.mod_le x (2 ^ 64)). lia. Qed.

Lemma append_final_spec inp n : wf (core n) -> role n = Leader -> k_last (core n) + 1 < 2 ^ 64 ->
  does (append_final n) n (fun es n' =>
    acts inp (core n) [] (core n') /\ wf (core n') /\ role n' = Leader /\ commit n' = commit n /\
    dur (core n') = mkDurable (hardState n) (snapshot n) (log n ++ es) /\ k_last (core n') <= k_last (core n) + 1 /\
    (forall lo, between lo (commit n) (core n') = between lo (commit n) (core n))).
Proof.
  intros Hw Hr Hl. unfold append_final. apply does_if; intros E; bool_hyps.
  2:{ apply does_ret. rewrite app_nil_r. split_and!; try done; [constructor|lia]. }
  pose proof (conf_final n Hw ltac:(done)) as Hc. set (final := final_entry n) in *.
  remember (mkMembership (JointVoters (membership n)) [] (e_index final)) as m eqn:Em.
  pose proof (wf_snap _ Hw) as [Hs0 _]. pose proof (wf_commit _ Hw) as Hcm. simpl in Hs0, Hcm.
  assert (e_index final = k_last (core n) + 1) as Ei.
  { unfold final. cbn [final_entry e_index]. rewrite lastIndex_core, u64_small by (done || lia). done. }
  step_mod. eapply does_bind.
  { apply (rebuild_ok _ m). change (conf (k_base (core n)) (log n ++ [final]) = Ok m).
    rewrite conf_app, (wf_memb _ Hw : conf (k_base (core n)) (log n) = _), bind_ok. exact Hc. }
  intros e n' [-> ->]. cbv iota. unfold set_match, set_next. steps. apply does_ret. rewrite Ei.
  assert (act inp (core n) [] (grow [final] m (core n))) as Ha.
  { apply act_grow; try done.
    - intros [|i] e [= <-]. split; [rewrite Ei; simpl; lia|]. simpl. pose proof (wf_self _ Hw). pose proof (wf_term _ Hw). simpl in *. naive_solver lia.
    - by repeat constructor.
    - right; left. intros HJ. simpl in HJ. rewrite HJ in *. simpl in *. lia. }
  pose proof (act_wf _ _ _ _ Ha Hw) as Hwg.
  assert (act inp (grow [final] m (core n)) [] (w_next (<[k_id (core n) := u64 (k_last (core n) + 1 + 1)]>
    (k_next (grow [final] m (core n)))) (grow [final] m (core n)))) as Hb.
  { apply act_next; [done|done|]. pose proof (u64_le (k_last (core n) + 1 + 1)). unfold grow, k_last in *; ksimpl. rewrite length_app. simpl in *. lia. }
  match goal with |- acts _ _ _ (core ?x) /\ _ => assert (core x = w_next (<[k_id (core n) := u64 (k_last (core n) + 1 + 1)]>
    (k_next (grow [final] m (core n)))) (grow [final] m (core n))) as Ec end.
  { unfold grow, core; simpl. done. }
  rewrite Ec. split_and!.
  - change (@nil Message) with (@nil Message ++ []). eapply acts_cons; [exact Ha|]. by apply acts_one.
  - by eapply act_wf.
  - exact Hr.
  - done.
  - done.
  - unfold grow, k_last; ksimpl. rewrite length_app. simpl. lia.
  - intros lo. change (between lo (commit n) (grow [final] m (core n)) = between lo (commit n) (core n)).
    apply between_app; [lia|done].
Qed.

(** maybeCommit on a leader: the node it leaves is the leader [c], or [c] stepped down. *)
Definition commits (inp : Input) (n : Node) (u : Update) (n' : Node) : Prop :=
  exists c, leads c n' /\ acts inp (core n) (u_messages u) c /\ k_last c <= k_last (core n) + 1 /\
    plain u /\ performs inp n u n' /\ commit n' <= k_last (core n).

Lemma maybeCommit_spec inp n : wf (core n) -> role n = Leader -> k_last (core n) + 1 < 2 ^ 64 ->
  does maybeCommit n (commits inp n).
Proof.
  intros Hw Hr Hl. unfold maybeCommit. step_get. cbv zeta.
  destruct (find_candidate_spec n (Z.to_nat (lastIndex n - commit n)) (lastIndex n) ltac:(lia)) as [Hle Hcand].
  set (i := find_candidate n _ _) in *. rewrite lastIndex_core in Hle by done. apply does_if; intros E; bool_hyps.
  { apply does_ret. exists (core n). split_and!; try done; [by apply leads_self|constructor|lia|by apply performs_none|apply (wf_commit _ Hw)]. }
  destruct Hcand as [|(Hi & Ht & Hq)]; [lia|]. rewrite termAt_core in Ht by done.
  step_mod. step_get. set (n1 := with_commit i n). cbv zeta.
  assert (act inp (core n) [] (core n1)) as Ha1 by (apply (act_commit inp (core n) i); done).
  pose proof (act_wf _ _ _ _ Ha1 Hw) as Hw1. pose proof (wf_commit _ Hw) as Hcm. simpl in Hcm.
  rewrite (entriesBetween_core n1 (commit n) (commit n1)) by (done || (simpl; lia)).
  eapply does_bind; [apply (append_final_spec inp n1); done|].
  intros es n2 (Ha2 & Hw2 & Hr2 & Ec2 & Ed2 & Hl2 & Hb2).
  eapply does_bind; [apply (broadcast_spec inp (core n2)); by apply leads_self|].
  intros ms n3 Hs. pose proof Hs as [Hq3 _]. step_get.
  assert (acts inp (core n) ms (core n3)) as Ha3.
  { rewrite <- (app_nil_l ms). eapply acts_cons; [exact Ha1|]. rewrite <- (app_nil_l ms).
    eapply acts_app; [exact Ha2|]. rewrite Hq3. by eapply sent_acts. }
  pose proof (quiet_wf _ _ Hq3 Hw2) as Hw3. pose proof (quiet_role _ _ Hq3) as Hr3. rewrite Hr2 in Hr3.
  set (u := mkUpdate None 0 es ms _ false None []).
  assert (commit n3 = commit n1) as Ec3 by (rewrite <- Ec2; exact (f_equal k_commit Hq3)).
  assert (performs inp n u n3) as Hp.
  { constructor; [exact Ha3| |].
    - rewrite Hq3, Ed2. unfold persist, dur; simpl. done.
    - simpl u_committed. rewrite Ec3, Hq3. symmetry. apply Hb2. }
  apply does_if; intros _.
  - eapply does_bind; [apply (becomeFollower_spec inp n3 (term n3) 0); auto|].
    intros u' n4 (E4 & Hp4 & Hbare). rewrite Z.ltb_irrefl in E4. apply does_ret. destruct Hbare as (Hpl & He & Hm & Hc).
    exists (core n3). split_and!.
    + split_and!; [done|done|by right].
    + simpl. rewrite Hm, app_nil_r. done.
    + rewrite Hq3. exact Hl2.
    + destruct Hpl as [Ht' Hs']. split; simpl; [by rewrite Ht'|by rewrite Hs'].
    + eapply performs_merge; [exact Hp|exact Hp4|by left|]. right.
      split; [exact (f_equal k_commit E4)|exact (f_equal k_log E4)].
    + rewrite (f_equal k_commit E4 : commit n4 = commit n3), Ec3. exact Hle.
  - apply does_ret. exists (core n3). split_and!; try done; [by apply leads_self| |rewrite Ec3; exact Hle]. rewrite Hq3. exact Hl2.
Qed.

(** ** Elections *)

Lemma at0_list_to_map (l : list Z) v p : at0 (list_to_map ((fun peer => (peer, v)) <$> l)) p = v \/
  at0 (list_to_map ((fun peer => (peer, v)) <$> l)) p = 0.
Proof.
  unfold at0. destruct (list_to_map _ !! p) as [x|] eqn:E; [left|by right].
  apply elem_of_list_to_map_2, list_elem_of_fmap in E as (q & [= _ ->] & _). done.
Qed.

(** What the node looks like once becomeLeader has set it up. *)
Definition leader_next (n : Node) : gmap Z Z :=
  <[c_ID (cfg n) := u64 (k_last (core n) + 1 + 1)]>
    (list_to_map ((fun peer => (peer, k_last (core n) + 1)) <$> peers n)).

Lemma leader_next_bounds n p : wf (core n) -> 0 <= at0 (leader_next n) p <= k_last (core n) + 2.
Proof.
  intros Hw. pose proof (wf_commit _ Hw). pose proof (wf_snap _ Hw) as [? _].
  pose proof (u64_le (k_last (core n) + 1 + 1) ltac:(lia)).
  unfold leader_next. rewrite at0_insert. case_decide; [lia|].
  destruct (at0_list_to_map (peers n) (k_last (core n) + 1) p) as [-> | ->]; lia.
Qed.

Lemma becomeLeader_spec inp n : wf (core n) -> role n = Candidate ->
  hasQuorum (membership n) (at_false (votes n)) = true -> k_last (core n) + 2 < 2 ^ 64 ->
  does becomeLeader n (fun u n' => performs inp n u n' /\ plain u).
Proof.
  intros Hw Hr Hq Hl. pose proof (wf_commit _ Hw). pose proof (wf_snap _ Hw) as [Hs0 _].
  assert (act inp (core n) [] (lead (leader_next n) (core n))) as Ha.
  { apply act_lead; try done; [lia|]. intros p. by apply leader_next_bounds. }
  pose proof (act_wf _ _ _ _ Ha Hw) as Hw1.
  unfold becomeLeader, set_match, set_next. steps. rewrite lastIndex_core by done.
  rewrite (u64_small (k_last (core n) + 1)) by lia. cbn [e_index].
  match goal with |- does _ ?x _ => remember x as n1 eqn:En1 end.
  assert (core n1 = lead (leader_next n) (core n)) as E1.
  { subst n1. unfold lead, leader_next, noop, core, allocated. nsimpl. ksimpl. f_equal. by rewrite insert_insert_eq. }
  assert (role n1 = Leader) as Hr1 by exact (f_equal k_role E1). rewrite <- E1 in Ha, Hw1.
  assert (k_last (core n1) = k_last (core n) + 1) as El1.
  { rewrite E1. unfold lead, k_last; ksimpl. rewrite length_app. simpl. lia. }
  clear En1. eapply does_bind; [apply (broadcast_spec inp (core n1)); by apply leads_self|].
  intros ms n2 Hs. pose proof Hs as [Hq2 _].
  assert (commit n2 = commit n) as Ec2 by (transitivity (k_commit (core n1)); [exact (f_equal k_commit Hq2)|by rewrite E1]).
  eapply does_bind.
  { apply (maybeCommit_spec inp n2); [by eapply quiet_wf|by rewrite (quiet_role _ _ Hq2)|rewrite Hq2; lia]. }
  intros u n3 (c & Hlc & Hac & _ & Hpl & Hp & _). apply does_ret. split.
  - eapply performs_merge; [|exact Hp|by left|by left]. constructor.
    + simpl. rewrite <- (app_nil_l ms). eapply acts_cons; [exact Ha|]. rewrite Hq2. by eapply sent_acts.
    + rewrite Hq2, E1. done.
    + simpl. rewrite Ec2. by rewrite between_same.
  - destruct Hpl as [Ht' Hs']. split; simpl; [by rewrite Ht'|by rewrite Hs'].
Qed.

(** Room for a campaign: the term and two more entries do not overflow. *)
Definition room (c : Core) : Prop := k_term c + 1 < 2 ^ 64 /\ k_last c + 2 < 2 ^ 64.

Lemma self_quorum n id : HasQuorum n {[id]} = true -> hasQuorum (membership n) (at_false {[id := true]}) = true.
Proof.
  apply hasQuorum_mono. intros x Hx. apply bool_decide_eq_true in Hx. apply elem_of_singleton in Hx as ->.
  unfold at_false. by rewrite lookup_singleton_eq.
Qed.

Lemma campaign_sendable inp t tm n : wf (core n) ->
  (t = MsgPreVote \/ (t = MsgVote /\ role n = Candidate /\ tm = term n)) ->
  Forall (sendable inp (core n)) (campaign_messages t tm n).
Proof.
  intros Hw Ht. unfold campaign_messages. apply Forall_fmap, Forall_forall. intros p _. split; [done|]. simpl.
  rewrite lastIndex_core, termAt_core by done. destruct Ht as [-> | (-> & -> & ->)]; done.
Qed.

Lemma startElection_spec inp n : wf (core n) -> room (core n) ->
  does startElection n (fun u n' => performs inp n u n' /\ plain u).
Proof.
  intros Hw [Ht Hl]. simpl in Ht. unfold startElection. steps.
  eapply does_quiet; [apply reset_quiet|]. intros _ n1 Hq. step_get. cbv zeta.
  assert (core n1 = elect (core n)) as E1.
  { rewrite Hq. unfold elect, core, allocated. nsimpl. ksimpl. rewrite u64_small; [done|]. pose proof (wf_term _ Hw). simpl in *. lia. }
  assert (act inp (core n) [] (core n1)) as Ha by (rewrite E1; by apply act_elect).
  pose proof (act_wf _ _ _ _ Ha Hw) as Hw1.
  assert (commit n1 = commit n) as Ec by exact (f_equal k_commit E1).
  assert (c_ID (cfg n1) = c_ID (cfg n)) as Eid by exact (f_equal k_id E1).
  set (u := mkUpdate (Some (hardState n1)) 0 [] [] [] true None []).
  assert (performs inp n u n1) as Hp.
  { constructor; [by apply acts_one| |].
    - change (hardState n1) with (mkHard (k_term (core n1)) (k_voted (core n1))) in u. subst u. rewrite E1. unfold persist, dur; simpl. by rewrite app_nil_r.
    - simpl. by rewrite Ec, between_same. }
  apply does_if; intros E.
  - eapply does_bind.
    { apply (becomeLeader_spec inp n1); [done|exact (f_equal k_role E1)| |rewrite E1; exact Hl].
      rewrite (f_equal k_votes E1 : votes n1 = _). simpl. by apply self_quorum. }
    intros u' n2 [Hp2 Hpl]. apply does_ret. split.
    + eapply performs_merge; [exact Hp|exact Hp2|by left|by left].
    + destruct Hpl as [Ht' Hs']. split; simpl; [by rewrite Ht'|by rewrite Hs'].
  - apply does_ret. split; [|done]. destruct Hp as [A1 D1 C1]. constructor; [|exact D1|exact C1].
    simpl. eapply (acts_app _ _ []); [exact A1|]. apply acts_sends, campaign_sendable; [done|].
    right. split_and!; [done|exact (f_equal k_role E1)|done].
Qed.

Lemma startPreVote_spec inp n : wf (core n) -> room (core n) ->
  does startPreVote n (fun u n' => performs inp n u n' /\ plain u).
Proof.
  intros Hw Hroom. unfold startPreVote. steps.
  eapply does_quiet; [apply reset_quiet|]. intros _ n1 Hq. step_get. cbv zeta.
  assert (core n1 = precandidate (core n)) as E1 by exact Hq.
  assert (act inp (core n) [] (core n1)) as Ha by (rewrite E1; by apply act_precandidate).
  pose proof (act_wf _ _ _ _ Ha Hw) as Hw1.
  assert (commit n1 = commit n) as Ec by exact (f_equal k_commit E1).
  assert (performs inp n noUpdate n1) as Hp.
  { constructor; [by apply acts_one| |].
    - rewrite E1. unfold persist, dur; simpl. by rewrite app_nil_r.
    - simpl. by rewrite Ec, between_same. }
  apply does_if; intros _.
  - eapply does_mono; [apply (startElection_spec inp n1); [done|]; rewrite E1; exact Hroom|].
    intros u n2 [Hp2 Hpl]. split; [|done]. rewrite <- (merge_noUpdate_l u).
    eapply performs_merge; [exact Hp|exact Hp2|by left|by left].
  - apply does_ret. split; [|done]. destruct Hp as [A1 D1 C1]. constructor; [|exact D1|exact C1].
    simpl. eapply (acts_app _ _ []); [exact A1|]. apply acts_sends, campaign_sendable; auto.
Qed.

End Refine.
