(* ===== verification/RaftHandlers.v ===== *)
(** * The message handlers and the client operations refine the protocol

    Continues RaftRefine with the handlers of Step, the proposals, the snapshots and
    Tick. *)

From S2P Require Import Prelude GoStd Fs Json Membership RaftTypes RaftNode RaftCore RaftRefine.

Module Handlers.
Import Membership Raft Node Core Refine.

(** ** Combining actions *)

(** An action that changes nothing durable needs no update. *)
Lemma performs_act inp n n1 : act inp (core n) [] (core n1) -> dur (core n1) = dur (core n) -> commit n1 = commit n ->
  performs inp n noUpdate n1.
Proof.
  intros Ha Hd Hc. constructor; [by apply acts_one| |by rewrite Hc, between_same].
  rewrite Hd. unfold persist; simpl. by rewrite app_nil_r.
Qed.

Lemma performs_then inp n n1 u n2 : performs inp n noUpdate n1 -> commit n1 = commit n -> performs inp n1 u n2 ->
  performs inp n u n2.
Proof.
  intros H1 Hc H2. rewrite <- (merge_noUpdate_l u). eapply performs_merge; [exact H1|exact H2| |by left].
  right. done.
Qed.

(** Only a message is sent. *)
Lemma performs_send inp n n' u m : quiet n n' -> u = mkUpdate None 0 [] [m] [] false None [] -> sendable inp (core n) m ->
  performs inp n u n'.
Proof.
  intros Hq -> Hs. assert (commit n' = commit n) as Ec by exact (f_equal k_commit Hq).
  constructor; rewrite ?Hq.
  - simpl. apply acts_sends. constructor; [done|constructor].
  - unfold persist; simpl. by rewrite app_nil_r.
  - simpl. by rewrite Ec, between_same.
Qed.

(** A message added at the end. *)
Lemma performs_add inp n u n1 m n2 : performs inp n u n1 -> sendable inp (core n1) m -> quiet n1 n2 ->
  performs inp n (add_messages [m] u) n2.
Proof.
  intros [A D C] Hs Hq. assert (commit n2 = commit n1) as Ec by exact (f_equal k_commit Hq).
  constructor; rewrite Hq, ?Ec; [|exact D|exact C].
  simpl. eapply acts_app; [exact A|]. apply acts_sends. constructor; [done|constructor].
Qed.

(** ** Votes *)

(** The fields of a message are 64-bit numbers, and a snapshot is of the sender's
    past. *)
Record msg_ok (m : Message) : Prop := {
  mo_term : 0 <= m_term m < 2 ^ 64;
  mo_logIndex : 0 <= m_logIndex m < 2 ^ 64;
  mo_hint : 0 <= m_rejectHint m < 2 ^ 64;
  mo_entries : Forall (fun e => 0 <= e_term e) (m_entries m);
  mo_snapshot : forall s, m_type m = MsgSnapshot -> m_snapshot m = Some s ->
    0 <= s_index s < 2 ^ 64 /\ 0 <= s_term s <= m_term m /\
    Forall (fun id => 0 <= id < 2 ^ 64) (Voters (s_membership s) ++ JointVoters (s_membership s))
}.

Lemma handlePreVoteResponse_spec m n : wf (core n) -> room (core n) -> msg_ok m ->
  does (handlePreVoteResponse m) n (performs (Received m) n).
Proof.
  intros Hw Hroom Hm. destruct (mo_term _ Hm) as [_ Hmt]. unfold handlePreVoteResponse. step_get. cbv zeta.
  apply does_if; intros E; bool_hyps.
  { eapply does_mono; [apply (becomeFollower_spec (Received m)); [done|lia]|]. by intros u n' (_ & Hp & _). }
  apply does_if; intros E2; [apply does_ret; by apply performs_none|]. bool_hyps.
  unfold set_vote. steps. set (n1 := with_votes _ n).
  assert (performs (Received m) n noUpdate n1) as Hp.
  { apply performs_act; [|done|done]. by apply (act_prevote (Received m) (core n)). }
  assert (wf (core n1)) as Hw1.
  { eapply act_wf; [|exact Hw]. by apply (act_prevote (Received m) (core n) (m_from m)). }
  apply does_if; intros _; [|apply does_if; intros _].
  - eapply does_mono; [apply (startElection_spec (Received m) n1); done|]. intros u n2 [Hp2 _]. by eapply performs_then.
  - eapply does_mono; [apply (becomeFollower_spec (Received m) n1); auto|]. intros u n2 (_ & Hp2 & _). by eapply performs_then.
  - by apply does_ret.
Qed.

Lemma handleVoteResponse_spec m n : wf (core n) -> k_last (core n) + 2 < 2 ^ 64 -> m_type m = MsgVoteResponse ->
  does (handleVoteResponse m) n (performs (Received m) n).
Proof.
  intros Hw Hl Hty. unfold handleVoteResponse. step_get.
  apply does_if; intros E; [apply does_ret; by apply performs_none|]. bool_hyps.
  unfold set_vote. steps. set (n1 := with_votes _ n).
  assert (act (Received m) (core n) [] (core n1)) as Ha by (by apply (act_voted (Received m) (core n) m)).
  pose proof (performs_act _ _ _ Ha eq_refl eq_refl) as Hp. pose proof (act_wf _ _ _ _ Ha Hw) as Hw1.
  apply does_if; intros Hwon; [|apply does_if; intros _].
  - eapply does_mono; [apply (becomeLeader_spec (Received m) n1); done|]. intros u n2 [Hp2 _]. by eapply performs_then.
  - eapply does_mono; [apply (becomeFollower_spec (Received m) n1); auto|]. intros u n2 (_ & Hp2 & _). by eapply performs_then.
  - by apply does_ret.
Qed.

Lemma handleVote_spec m n : wf (core n) -> m_type m = MsgVote -> m_term m = term n -> m_from m <> c_ID (cfg n) ->
  does (handleVote m) n (performs (Received m) n).
Proof.
  intros Hw Hty Ht Hfrom. unfold handleVote. step_get. cbv zeta. rewrite isUpToDate_core by done.
  destruct (isVoter n (c_ID (cfg n)) && _ && _) eqn:E; cbn [negb].
  - bool_hyps. apply orb_true_iff in H1. rewrite !Z.eqb_eq in H1.
    assert (role n <> Candidate /\ role n <> Leader) as [Hc HL].
    { pose proof (wf_self _ Hw). pose proof (wf_id _ Hw). simpl in *. split; intros Hr; naive_solver lia. }
    eapply (does_bind _ _ _ (fun hs n' => core n' = w_voted (m_from m) (core n) /\ hs = Some (hardState n'))).
    { steps. eapply does_quiet; [apply reset_quiet|]. intros _ n1 Hq. step_get. apply does_ret. split; [exact Hq|done]. }
    intros hs n1 [E1 ->]. apply does_ret.
    assert (commit n1 = commit n) as Ec by exact (f_equal k_commit E1).
    change (hardState n1) with (mkHard (k_term (core n1)) (k_voted (core n1))).
    assert (act (Received m) (core n) [] (core n1)) as Ha by (rewrite E1; by apply (act_vote (Received m) (core n) m)).
    constructor; rewrite ?Ec.
    + simpl. eapply (acts_app _ _ []); [by apply acts_one|]. apply acts_sends. constructor; [|constructor].
      rewrite E1. split; [done|]. simpl. intros _. by eauto 6.
    + rewrite E1. unfold persist, dur; simpl. by rewrite app_nil_r.
    + by rewrite between_same.
  - apply does_bind with (fun hs n' => hs = None /\ n' = n); [done|]. intros hs n1 [-> ->]. apply does_ret.
    by eapply performs_send.
Qed.

(** ** Appends *)

Lemma terms_ok_cons t e l : t <= e_term e -> terms_ok (e_term e) l -> terms_ok t (e :: l).
Proof.
  intros Ht Hs. unfold terms_ok in *. simpl. constructor; [done|]. inv Hs. constructor; [done|].
  eapply Forall_impl; [done|]. simpl. lia.
Qed.

(** An append that is not dropped has well-formed entries. *)
Lemma malformed_entries_ok m l : forall i previous, malformed_entries m i previous l = [] ->
  Forall (fun e => 0 <= e_term e) l -> 0 <= m_logIndex m -> 0 <= i ->
  m_logIndex m + i + Z.of_nat (length l) < 2 ^ 64 ->
  log_ok (m_logIndex m + i) (m_term m) l /\ terms_ok previous l.
Proof.
  induction l as [|e l IH]; intros i previous Hm HF Hli Hi Hlt; [split; [apply log_ok_nil|by repeat constructor]|].
  inv HF. simpl length in Hlt. cbn [malformed_entries] in Hm. rewrite u64_small in Hm by lia.
  destruct (Z.eqb_spec (e_index e) (m_logIndex m + i + 1)) as [Ei|]; cbn [negb] in Hm; [|done].
  destruct (Z.eqb_spec (e_term e) 0); [done|].
  destruct (_ <? _); [done|]. destruct (Z.ltb_spec (m_term m) (e_term e)); [done|].
  destruct ((i =? 0) && _); [done|]. destruct (Z.ltb_spec (e_term e) previous); [done|].
  destruct (IH (i + 1) (e_term e) Hm ltac:(done) ltac:(lia) ltac:(lia) ltac:(lia)) as [H3 H4].
  split; [|by apply terms_ok_cons]. change (e :: l) with ([e] ++ l). apply log_ok_app. split.
  - intros [|j] x [= <-]. simpl. lia.
  - simpl. by rewrite <- Z.add_assoc.
Qed.

Lemma malformedAppend_ok m : malformedAppend m = [] -> Forall (fun e => 0 <= e_term e) (m_entries m) ->
  0 <= m_logIndex m -> lastNew m < 2 ^ 64 -> entries_ok m.
Proof.
  intros Hm HF Hl Hn. unfold lastNew in Hn. destruct (malformed_entries_ok m _ 0 _ Hm HF Hl) as [H1 H2]; [lia|lia|].
  rewrite Z.add_0_r in H1. by split.
Qed.

Definition scan_ok (c : Core) (l : list Entry) (r : Scan) : Prop :=
  match r with
  | ScanMatched => Forall (fun e => holds c (e_index e) (e_term e)) l
  | ScanCommitted => True
  | ScanNew truncate rest =>
      exists old e rest', rest = e :: rest' /\ l = old ++ rest /\ Forall (fun e => holds c (e_index e) (e_term e)) old /\
        match truncate with
        | Some i => i = e_index e /\ k_commit c < i <= k_last c /\ k_termAt c i <> e_term e
        | None => k_last c < e_index e
        end
  end.

Lemma scan_spec n l : wf (core n) -> scan_ok (core n) l (scan_entries n l).
Proof.
  intros Hw. induction l as [|e l IH]; cbn [scan_entries]; [constructor|].
  rewrite lastIndex_core, termAt_core by done. destruct (Z.leb_spec (e_index e) (k_last (core n))).
  - destruct (Z.eqb_spec (k_termAt (core n) (e_index e)) (e_term e)).
    + destruct (scan_entries n l) as [| |tr rest]; simpl in *; [by constructor|done|].
      destruct IH as (old & e1 & rest' & E1 & E2 & HF & Htr). exists (e :: old), e1, rest'.
      split_and!; [done|by rewrite E2|by constructor|done].
    + destruct (Z.leb_spec (e_index e) (commit n)); [done|]. exists [], e, l. split_and!; try done; simpl; lia.
  - exists [], e, l. split_and!; try done; simpl; lia.
Qed.

Lemma conf_cases b l : (exists m, conf b l = Ok m) \/ (exists e, conf b l = Err e).
Proof.
  unfold conf. revert b. induction l as [|e l IH]; intros b; cbn [fold_membership]; [eauto|].
  assert (forall d, (exists c, decodeMembership d = Ok c) \/ (exists e, decodeMembership d = Err e)) as Hd.
  { intros d. unfold decodeMembership. destruct (negb _); [eauto|]. destruct (unmarshal_command _); [|eauto].
    destruct (_ && _); [eauto|].
    destruct (normalizeVoters_cases (Membership.New m)) as [[r ->]|[x ->]]; simpl; [|eauto]. case_bool_decide; [|eauto].
    destruct (normalizeVoters_cases (Old m)) as [[r' ->]|[x ->]]; simpl; eauto. }
  destruct (Hd (e_data e)) as [[[c|] ->]|[x ->]]; simpl; [|apply IH|eauto].
  unfold applyMembership. case_bool_decide; [destruct (_ || _)|case_bool_decide; [destruct (_ || _)|]]; simpl; eauto.
Qed.

Definition response (n : Node) (m : Message) : Message :=
  mkMessage MsgAppendResponse (c_ID (cfg n)) (m_from m) (term n) (lastNew m) 0 [] 0 false 0 (m_context m) None OriginOther.

Lemma response_sendable m n : m_type m = MsgAppend -> m_term m = term n -> role n = Follower -> entries_ok m ->
  matches (core n) m -> sendable (Received m) (core n) (response n m).
Proof. intros. split; [done|]. simpl. intros _. split_and!; try done. by exists m. Qed.

(** The end of an append: the log has everything the message carries. *)
Lemma finish_append_spec m u n0 n : performs (Received m) n0 u n -> commit n = commit n0 -> wf (core n) ->
  k_last (core n) + 1 < 2 ^ 64 -> msg_ok m -> m_type m = MsgAppend -> m_term m = term n -> role n = Follower ->
  entries_ok m -> matches (core n) m ->
  does (finish_append m u) n (fun u' n' => performs (Received m) n0 u' n').
Proof.
  intros Hp Ec Hw Hr Hm Hty Ht Hrole He Hma. pose proof (matches_last _ _ He Hma) as Hlast.
  pose proof (mo_logIndex _ Hm). pose proof (wf_commit _ Hw) as Hcm. simpl in Hcm.
  unfold finish_append. step_get. cbv zeta. fold (lastNew m). rewrite lastIndex_core by done.
  rewrite (u64_small (lastNew m)) by (unfold lastNew in *; lia). rewrite (proj2 (Z.ltb_ge _ _)) by lia.
  set (k := Z.min (m_leaderCommit m) (lastNew m)).
  eapply (does_bind _ _ _ (fun committed n' =>
    performs (Received m) n (mkUpdate None 0 [] [] committed false None []) n' /\ core n' = w_commit (Z.max (commit n) k) (core n))).
  { apply does_if; intros Ek; bool_hyps.
    - step_mod. step_get. apply does_ret. set (n1 := with_commit k n).
      assert (act (Received m) (core n) [] (core n1)) as Ha by (apply (act_learn (Received m) (core n) m k); try done; simpl; lia).
      pose proof (act_wf _ _ _ _ Ha Hw) as Hw1. pose proof (wf_commit _ Hw1) as Hc1. simpl in Hc1.
      rewrite (entriesBetween_core n1 (commit n) (commit n1)) by (done || (simpl; lia)).
      split; [|rewrite Z.max_r by lia; done]. constructor; [by apply acts_one| |done].
      unfold persist, dur; simpl. by rewrite app_nil_r.
    - apply does_ret. rewrite Z.max_l by lia. split; [by apply performs_none|]. by destruct n. }
  intros committed n1 [Hp1 E1]. apply does_ret.
  assert (sendable (Received m) (core n1) (response n m)) as Hs.
  { rewrite E1. destruct (response_sendable m n Hty Ht Hrole He Hma) as [Hs1 Hs2]. split; [exact Hs1|exact Hs2]. }
  assert (performs (Received m) n0 (add_messages [response n m] (merge u (mkUpdate None 0 [] [] committed false None []))) n1) as Hq.
  { eapply performs_add; [|exact Hs|done]. eapply performs_merge; [exact Hp|exact Hp1|by left|by left]. }
  destruct u as [h tr es ms co rc sn dr]. unfold merge, add_messages in Hq. simpl in Hq.
  rewrite !app_nil_r, orb_false_r in Hq. exact Hq.
Qed.

(** The update of a stored append, as a merge. *)
Definition store_update (truncate : option Z) (rest : list Entry) : Update :=
  mkUpdate None (default 0 truncate) rest [] [] false None [].

Lemma store_keep c m old e rest' tr : wf c -> holds c (m_logIndex m) (m_logTerm m) -> entries_ok m ->
  m_entries m = old ++ e :: rest' -> Forall (fun e => holds c (e_index e) (e_term e)) old ->
  match tr with
  | Some i => i = e_index e /\ k_commit c < i <= k_last c /\ k_termAt c i <> e_term e
  | None => k_last c < e_index e
  end ->
  let keep := match tr with Some i => Z.to_nat (i - s_index (k_snap c) - 1) | None => length (k_log c) end in
  s_index (k_snap c) + Z.of_nat keep = m_logIndex m + Z.of_nat (length old) /\
  k_commit c <= s_index (k_snap c) + Z.of_nat keep <= k_last c /\
  e_index e = m_logIndex m + Z.of_nat (length old) + 1.
Proof.
  intros Hw Hh He E HF Htr. cbv zeta. pose proof (wf_commit c Hw).
  destruct He as [Hl _]. destruct (Hl (length old) e) as [Hi _]; [rewrite E; by apply list_lookup_middle|].
  destruct tr as [i|].
  - destruct Htr as (-> & Hc & _). rewrite Hi in *. split_and!; lia.
  - assert (m_logIndex m + Z.of_nat (length old) <= k_last c) as Hle.
    { destruct old as [|x old _] using rev_ind; [destruct Hh; simpl; lia|].
      apply Forall_app in HF as [_ HF]. inv HF. destruct H2 as [H2 _].
      destruct (Hl (length old) x) as [Hx _]; [rewrite E, <- app_assoc; by apply list_lookup_middle|].
      rewrite length_app. simpl. lia. }
    unfold k_last in *. split_and!; lia.
Qed.

Lemma store_performs m n tr rest keep m' :
  wf (core n) -> act (Received m) (core n) [] (w_memb m' (w_log (take keep (log n) ++ rest) (core n))) ->
  (match tr with Some i => 0 < i /\ keep = Z.to_nat (i - s_index (snapshot n) - 1) | None => keep = length (log n) end) ->
  performs (Received m) n (store_update tr rest) (with_membership m' (with_log (take keep (log n) ++ rest) n)).
Proof.
  intros Hw Ha Htr. constructor; [by apply acts_one| |by rewrite between_same].
  unfold persist, dur; simpl. destruct tr as [i|]; simpl.
  - destruct Htr as [Hi ->]. rewrite (proj2 (Z.eqb_neq _ _)) by lia. done.
  - subst keep. by rewrite take_ge by done.
Qed.

(** The update store_entries builds is the merge of what came before and the store. *)
Lemma store_update_merge u tr rest : bare u -> match tr with Some i => 0 < i | None => True end ->
  mkUpdate (u_hardState u) (match tr with Some index => index | None => u_truncateFrom u end)
    (u_entries u ++ rest) (u_messages u) (u_committed u) (u_roleChanged u) (u_snapshot u) (u_droppedAppend u)
  = merge u (store_update tr rest).
Proof.
  intros ((Ht & Hs) & He & Hm & Hc) Hi. destruct u as [h t e ms co rc sn d]. unfold merge, store_update; simpl in *. subst.
  rewrite orb_false_r. f_equal. destruct tr as [i|]; simpl; [|done]. by rewrite (proj2 (Z.eqb_neq _ _)) by lia.
Qed.

Lemma undo_log (l rest : list Entry) keep :
  take (length l - length (drop keep l)) (take keep l ++ rest) ++ drop keep l = l.
Proof.
  rewrite length_drop. destruct (decide (keep <= length l)%nat).
  - replace (length l - (length l - keep))%nat with keep by lia.
    rewrite take_app_le, take_take, Nat.min_id by (rewrite length_take; lia). apply take_drop.
  - replace (length l - (length l - keep))%nat with (length l) by lia.
    rewrite (take_ge l) by lia. rewrite take_app_length, drop_ge by lia. by rewrite app_nil_r.
Qed.

Lemma store_entries_spec m u n0 n old e rest' tr : performs (Received m) n0 u n -> bare u -> commit n = commit n0 ->
  wf (core n) -> lastNew m + 1 < 2 ^ 64 -> msg_ok m -> m_type m = MsgAppend -> m_term m = term n -> role n = Follower ->
  holds (core n) (m_logIndex m) (m_logTerm m) -> entries_ok m -> m_entries m = old ++ e :: rest' ->
  Forall (fun e => holds (core n) (e_index e) (e_term e)) old ->
  match tr with
  | Some i => i = e_index e /\ k_commit (core n) < i <= k_last (core n) /\ k_termAt (core n) i <> e_term e
  | None => k_last (core n) < e_index e
  end ->
  does (store_entries m tr (e :: rest') u) n (fun u' n' => performs (Received m) n0 u' n').
Proof.
  intros Hp Hb Ec Hw Hroom Hm Hty Ht Hrole Hh He E HF Htr.
  destruct (store_keep (core n) m old e rest' tr Hw Hh He E HF Htr) as (Hk & Hcm & Hei).
  unfold store_entries. step_get. cbv zeta.
  change (s_index (k_snap (core n))) with (s_index (snapshot n)) in *. change (k_log (core n)) with (log n) in *.
  remember (match tr with Some index => Z.to_nat (index - s_index (snapshot n) - 1) | None => length (log n) end)
    as keep eqn:Ek.
  assert (keep <= length (log n))%nat as Hkl by (unfold k_last in Hcm; simpl in Hcm; lia).
  assert (match tr with Some i => 0 < i | None => True end) as Hpos.
  { destruct tr as [i|]; [|done]. destruct Htr as [_ Htr]. pose proof (wf_commit _ Hw). pose proof (wf_snap _ Hw). lia. }
  rewrite (store_update_merge u tr (e :: rest') Hb Hpos).
  assert (forall m', conf (k_base (core n)) (take keep (log n) ++ e :: rest') = Ok m' ->
    does (finish_append m (merge u (store_update tr (e :: rest'))))
      (with_membership m' (with_log (take keep (log n) ++ e :: rest') n)) (fun u' n' => performs (Received m) n0 u' n')) as Hfin.
  { intros m' Hconf.
    assert (act (Received m) (core n) [] (w_memb m' (w_log (take keep (log n) ++ e :: rest') (core n)))) as Ha.
    { apply (act_store (Received m) (core n) m old (e :: rest') keep m'); try done; [lia|].
      destruct tr as [i|]; [|by left]. right. exists e. by destruct Htr as (-> & _ & ?). }
    assert (performs (Received m) n (store_update tr (e :: rest')) (with_membership m' (with_log (take keep (log n) ++ e :: rest') n))) as Hps.
    { apply store_performs; [done|done|]. destruct tr as [i|]; done. }
    apply finish_append_spec; try done.
    - eapply performs_merge; [exact Hp|exact Hps| |by left]. right. by destruct Hb as (? & ? & _).
    - by eapply act_wf.
    - pose proof (k_last_stored (core n) keep (e :: rest') m' Hkl) as El.
      change (k_log (core n)) with (log n) in El. change (s_index (k_snap (core n))) with (s_index (snapshot n)) in El.
      unfold lastNew in Hroom. rewrite E, length_app in Hroom.
      change (k_last (w_memb m' (w_log (take keep (log n) ++ e :: rest') (core n))) + 1 < 2 ^ 64). rewrite El. simpl in *. lia.
    - by apply (matches_stored (core n) keep (e :: rest') m' Hkl m old). }
  step_mod. apply does_if; intros Hrb.
  - destruct (conf_cases (k_base (core n)) (take keep (log n) ++ e :: rest')) as [[m' Hc]|[x Hc]].
    + eapply does_bind; [by apply (rebuild_ok _ m')|]. intros err n1 [-> ->]. by apply Hfin.
    + eapply (does_bind _ _ _ (fun err n1 => err = Some x /\ n1 = with_log (take keep (log n) ++ e :: rest') n)).
      { unfold does, runs, try_err. rewrite rebuild_eq.
        change (conf (k_base (core _)) (log _)) with (conf (k_base (core n)) (take keep (log n) ++ e :: rest')). by rewrite Hc. }
      intros err n1 [-> ->]. steps. apply does_ret. nsimpl. rewrite undo_log.
      destruct Hb as ((Ht0 & Hs0) & He0 & Hm0 & Hc0). rewrite <- He0, <- Ht0.
      apply (performs_add (Received m) n0 u n); [done| |done]. split; [done|]. simpl. done.
  - apply orb_false_iff in Hrb as [Htr0 Hex]. destruct tr as [i|]; [done|]. subst keep.
    rewrite take_ge in Hfin |- * by done.
    assert (with_log (log n ++ e :: rest') n = with_membership (membership n) (with_log (log n ++ e :: rest') n)) as -> by (by destruct n).
    apply Hfin. rewrite conf_app, (wf_memb _ Hw : conf (k_base (core n)) (log n) = Ok (membership n)), bind_ok.
    apply conf_plain. apply Forall_forall. intros x Hx. apply not_true_iff_false. intros Hpre.
    apply not_true_iff_false in Hex. apply Hex. apply existsb_exists. exists x. by rewrite <- list_elem_of_In.
Qed.

(** handleAppend and handleSnapshot first follow the sender. *)
Lemma follow_sender_spec {B} m n (f : Update -> M Node B) Q : wf (core n) ->
  (forall u n', performs (Received m) n u n' -> bare u -> commit n' = commit n -> wf (core n') -> role n' = Follower ->
     term n' = term n -> k_last (core n') = k_last (core n) -> k_snap (core n') = k_snap (core n) -> does (f u) n' Q) ->
  does (update ← (if negb (bool_decide (role n = Follower)) || negb (leaderID n =? m_from m)
            then u ← becomeFollower (term n) (m_from m); mret (merge noUpdate u) else mret noUpdate);
        modify (with_leaderID (m_from m)) ;; resetElectionTimer ;; f update) n Q.
Proof.
  intros Hw Hf.
  eapply (does_bind _ _ _ (fun u n' => (core n' = core n \/ core n' = follow (core n)) /\ role n' = Follower /\ performs (Received m) n u n' /\ bare u)).
  - apply does_if; intros E.
    + eapply does_bind; [apply (becomeFollower_spec (Received m) n (term n)); auto|].
      intros u n' (E1 & Hp & Hb). rewrite Z.ltb_irrefl in E1. apply does_ret. rewrite merge_noUpdate_l.
      split_and!; [by right|exact (f_equal k_role E1)|done|done].
    + apply does_ret. bool_hyps. split_and!; [by left|done|by apply performs_none|by repeat split].
  - intros u n' (Hcore & Hr & Hp & Hb). step_mod. eapply does_quiet; [apply reset_quiet|]. intros _ n1 Hq.
    change (core n1 = core n') in Hq.
    assert (wf (core n1)) as Hw1 by (rewrite Hq; by eapply acts_wf; [apply (pf_acts _ _ _ _ Hp)|]).
    assert (performs (Received m) n u n1) as Hp1.
    { destruct Hp as [A D C]. constructor; rewrite Hq; [done|done|].
      by rewrite (f_equal k_commit Hq : commit n1 = commit n'). }
    apply Hf; try done.
    + rewrite (f_equal k_commit Hq : commit n1 = commit n'). destruct Hcore as [E|E]; exact (f_equal k_commit E).
    + by rewrite (f_equal k_role Hq : role n1 = role n').
    + rewrite (f_equal k_term Hq : term n1 = term n'). destruct Hcore as [E|E]; exact (f_equal k_term E).
    + rewrite Hq. by destruct Hcore as [-> | ->].
    + rewrite Hq. by destruct Hcore as [-> | ->].
Qed.

Lemma reject_append_sendable m n to hint : sendable (Received m) (core n) (reject_append n to hint).
Proof. split; [done|]. simpl. done. Qed.

Lemma handleAppend_spec m n : wf (core n) -> k_last (core n) + 1 < 2 ^ 64 -> msg_ok m -> m_type m = MsgAppend ->
  m_term m = term n -> entries_ok m -> lastNew m + 1 < 2 ^ 64 ->
  does (handleAppend m) n (performs (Received m) n).
Proof.
  intros Hw Hroom Hm Hty Ht He Hn. unfold handleAppend. step_get.
  apply follow_sender_spec; [done|]. intros u n1 Hp Hb Ec Hw1 Hr1 Et El Es. step_get.
  rewrite lastIndex_core, termAt_core by done. apply does_if; intros E.
  { apply does_ret. eapply performs_add; [exact Hp|apply reject_append_sendable|done]. }
  bool_hyps. assert (holds (core n1) (m_logIndex m) (m_logTerm m)) as Hh by (by split).
  pose proof (scan_spec n1 (m_entries m) Hw1) as Hscan.
  destruct (scan_entries n1 (m_entries m)) as [| |tr rest]; simpl in Hscan.
  - apply finish_append_spec; try done; [lia|congruence].
  - apply does_ret. eapply performs_add; [exact Hp|apply reject_append_sendable|done].
  - destruct Hscan as (old & e & rest' & -> & E3 & HF & Htr).
    apply (store_entries_spec m u n n1 old e rest' tr); try done. congruence.
Qed.

(** ** Responses to a leader *)

(** A message sent after the commit index advanced, also by a leader that thereby
    stepped down. *)
Lemma commits_add inp n u n1 c m n2 : leads c n1 -> acts inp (core n) (u_messages u) c -> performs inp n u n1 ->
  sent inp c n1 [m] n2 -> performs inp n (add_messages [m] u) n2.
Proof.
  intros (Hw & Hr & Hc) Ha [_ D C] [Hq HF]. assert (commit n2 = commit n1) as Ec by exact (f_equal k_commit Hq).
  constructor; rewrite ?Hq, ?Ec; [|exact D|exact C].
  simpl. eapply acts_app; [exact Ha|]. rewrite <- (app_nil_r [m]). eapply acts_app; [by apply acts_sends|].
  destruct Hc as [-> | ->]; [constructor|]. apply acts_one, act_follow.
Qed.

(** The common end: maybeCommit, then perhaps one more append to the peer. *)
Lemma commit_then_append inp n (b : Node -> bool) peer ctx origin : wf (core n) -> role n = Leader ->
  k_last (core n) + 1 < 2 ^ 64 ->
  does (update ← maybeCommit; n' ← get;
        if b n' then m ← appendMessage peer ctx origin; mret (add_messages [m] update) else mret update) n (performs inp n).
Proof.
  intros Hw Hr Hroom. eapply does_bind; [by apply (maybeCommit_spec inp n)|].
  intros u n1 (c & Hl & Ha & _ & _ & Hp & _). step_get. apply does_if; intros _; [|by apply does_ret].
  eapply does_bind; [by apply (appendMessage_spec inp c)|]. intros m n2 Hs. apply does_ret. by eapply commits_add.
Qed.

(** Recording that a peer holds the log up to an index. *)
Lemma record_match_spec m n : wf (core n) -> role n = Leader -> msg_ok m ->
  m_type m = MsgAppendResponse \/ m_type m = MsgSnapshotResponse -> m_reject m = false -> m_term m = term n ->
  at0 (matchIndex n) (m_from m) <= Z.min (m_logIndex m) (k_last (core n)) ->
  let matched := Z.min (m_logIndex m) (lastIndex n) in
  does (set_match (m_from m) matched ;; set_next (m_from m) (u64 (matched + 1))) n
    (fun _ n' => performs (Received m) n noUpdate n' /\ commit n' = commit n /\ role n' = Leader /\ k_last (core n') = k_last (core n)).
Proof.
  intros Hw Hr Hm Hty Hrej Ht Hle. cbv zeta. rewrite lastIndex_core by done. unfold set_match, set_next.
  pose proof (mo_logIndex _ Hm). pose proof (wf_commit _ Hw). pose proof (wf_snap _ Hw) as [? _].
  set (k := Z.min (m_logIndex m) (k_last (core n))) in *. step_mod. set (n1 := with_matchIndex _ n).
  assert (act (Received m) (core n) [] (core n1)) as Ha1 by (by apply (act_match (Received m) (core n) m)).
  set (n2 := with_nextIndex (<[m_from m := u64 (k + 1)]> (nextIndex n1)) n1).
  assert (act (Received m) (core n1) [] (core n2)) as Ha2.
  { apply (act_next (Received m) (core n1)); [by eapply act_wf|done|]. pose proof (u64_le (k + 1)). change (k_last (core n1)) with (k_last (core n)). lia. }
  change (does (modify (fun _ => n2)) n1 (fun _ n' => performs (Received m) n noUpdate n' /\ commit n' = commit n /\
    role n' = Leader /\ k_last (core n') = k_last (core n))).
  unfold does, runs, modify. split_and!; try done.
  eapply performs_then; [by apply (performs_act _ _ n1)|done|]. by apply performs_act.
Qed.

Lemma performs_wf inp n u n' : performs inp n u n' -> wf (core n) -> wf (core n').
Proof. intros [A _ _] Hw. by eapply acts_wf. Qed.

Lemma performs_quiet inp n u n1 n2 : performs inp n u n1 -> quiet n1 n2 -> performs inp n u n2.
Proof.
  intros [A D C] Hq. assert (commit n2 = commit n1) as Ec by exact (f_equal k_commit Hq).
  constructor; rewrite ?Hq, ?Ec; done.
Qed.

(** A quiet step before a handler's main part. *)
Lemma performs_from_quiet inp n n1 u n2 : quiet n n1 -> performs inp n1 u n2 -> performs inp n u n2.
Proof.
  intros Hq [A D C]. assert (commit n1 = commit n) as Ec by exact (f_equal k_commit Hq).
  constructor; [by rewrite <- Hq|by rewrite <- Hq|by rewrite <- Ec].
Qed.

(** Recording a match (or not), settling, committing and sending on. *)
Lemma acknowledge_spec m n (b : bool) (b' : Node -> bool) ctx origin : wf (core n) -> role n = Leader ->
  k_last (core n) + 1 < 2 ^ 64 -> msg_ok m ->
  m_type m = MsgAppendResponse \/ m_type m = MsgSnapshotResponse -> m_reject m = false -> m_term m = term n ->
  (b = true -> at0 (matchIndex n) (m_from m) <= Z.min (m_logIndex m) (k_last (core n))) ->
  let matched := Z.min (m_logIndex m) (lastIndex n) in
  does ((if b then set_match (m_from m) matched ;; set_next (m_from m) (u64 (matched + 1)) else mret tt) ;;
        settleOutstanding (m_from m) ;;
        update ← maybeCommit; n' ← get;
        if b' n' then m' ← appendMessage (m_from m) ctx origin; mret (add_messages [m'] update) else mret update) n
    (performs (Received m) n).
Proof.
  intros Hw Hr Hroom Hm Hty Hrej Ht Hb. cbv zeta.
  eapply (does_bind _ _ _ (fun _ n' => performs (Received m) n noUpdate n' /\ commit n' = commit n /\ role n' = Leader /\ k_last (core n') = k_last (core n))).
  { apply does_if; intros E; [apply record_match_spec; auto|]. apply does_ret. split_and!; try done. by apply performs_none. }
  intros _ n1 (Hp1 & Ec1 & Hr1 & El1). pose proof (performs_wf _ _ _ _ Hp1 Hw) as Hw1.
  eapply does_quiet; [apply (settle_quiet (core n1)); by apply leads_self|]. intros _ n2 Hq2.
  eapply does_mono; [apply (commit_then_append (Received m) n2 b')|].
  - by eapply quiet_wf.
  - by rewrite (quiet_role _ _ Hq2).
  - rewrite Hq2. lia.
  - intros u n3 Hp3. eapply performs_then; [exact Hp1|done|]. by eapply performs_from_quiet.
Qed.

(** A rejection: reset the in-flight append and answer with the next one. *)
Lemma resend_spec m n ctx origin peer : wf (core n) -> role n = Leader ->
  does (set_outstanding peer 0 ;; m' ← appendMessage peer ctx origin; mret (mkUpdate None 0 [] [m'] [] false None [])) n
    (performs (Received m) n).
Proof.
  intros Hw Hr. pose proof (leads_self n Hw Hr) as Hl.
  eapply does_quiet; [by apply (set_outstanding_quiet (core n))|]. intros _ n1 Hq.
  eapply does_bind; [apply (appendMessage_spec (Received m) (core n)); by eapply leads_quiet|].
  intros m' n2 [Hq2 HF]. apply does_ret. inv HF. by eapply performs_send; [eapply quiet_trans|..].
Qed.

Lemma handleAppendResponse_spec m n : wf (core n) -> k_last (core n) + 1 < 2 ^ 64 -> msg_ok m ->
  m_type m = MsgAppendResponse -> does (handleAppendResponse m) n (performs (Received m) n).
Proof.
  intros Hw Hroom Hm Hty. unfold handleAppendResponse. step_get. cbv zeta.
  apply does_if; intros E; [apply does_ret; by apply performs_none|]. bool_hyps.
  eapply does_quiet; [apply set_active_quiet|]. intros _ n1 Hq.
  pose proof (quiet_wf _ _ Hq Hw) as Hw1. pose proof (quiet_role _ _ Hq) as Hr1. rewrite H in Hr1.
  apply does_if; intros Erej.
  - unfold set_next. step_mod.
    match goal with |- does _ (with_nextIndex (<[_ := ?v]> _) _) _ => set (next := v) end.
    assert (0 <= next <= k_last (core n) + 1) as Hnx.
    { pose proof (wf_next _ Hw H (m_from m)) as Hn. pose proof (wf_match _ Hw H (m_from m)) as Hma. simpl in Hn, Hma.
      pose proof (u64_le (at0 (matchIndex n) (m_from m) + 1) ltac:(lia)). pose proof (mo_hint _ Hm).
      unfold next. destruct (_ && _) eqn:Eh; bool_hyps; [lia|]. destruct (Z.ltb_spec 1 (at0 (nextIndex n) (m_from m))); lia. }
    set (n2 := with_nextIndex _ n1).
    assert (act (Received m) (core n1) [] (core n2)) as Ha.
    { apply (act_next (Received m) (core n1)); [done|done|]. rewrite Hq. done. }
    eapply does_mono; [apply (resend_spec m n2); [by eapply act_wf|done]|].
    intros u n3 Hp. eapply performs_from_quiet; [exact Hq|].
    eapply performs_then; [by apply performs_act|done|done].
  - assert (lastIndex n = lastIndex n1) as -> by (rewrite !lastIndex_core by done; by rewrite Hq).
    assert (matchIndex n = matchIndex n1) as -> by (symmetry; exact (f_equal k_match Hq)).
    eapply does_mono; [apply (acknowledge_spec m n1 _ (fun n => _ && (at_nil (outstanding n) (m_from m) =? 0) && (at0 (nextIndex n) (m_from m) <=? lastIndex n)))|].
    + done.
    + done.
    + by rewrite Hq.
    + done.
    + by left.
    + done.
    + by rewrite H0, (f_equal k_term Hq : term n1 = term n).
    + intros Eb. bool_hyps. pose proof (wf_match _ Hw1 Hr1 (m_from m)) as Hma. simpl in Hma. lia.
    + intros u n2 Hp. by eapply performs_from_quiet.
Qed.

Lemma handleSnapshotResponse_spec m n : wf (core n) -> k_last (core n) + 1 < 2 ^ 64 -> msg_ok m ->
  m_type m = MsgSnapshotResponse -> does (handleSnapshotResponse m) n (performs (Received m) n).
Proof.
  intros Hw Hroom Hm Hty. unfold handleSnapshotResponse. step_get. cbv zeta.
  apply does_if; intros E; [apply does_ret; by apply performs_none|]. bool_hyps.
  eapply does_quiet; [apply set_active_quiet|]. intros _ n1 Hq.
  pose proof (quiet_wf _ _ Hq Hw) as Hw1. pose proof (quiet_role _ _ Hq) as Hr1. rewrite H in Hr1.
  apply does_if; intros Erej.
  - eapply does_mono; [by apply (resend_spec m n1)|]. intros u n3 Hp. by eapply performs_from_quiet.
  - assert (lastIndex n = lastIndex n1) as -> by (rewrite !lastIndex_core by done; by rewrite Hq).
    assert (matchIndex n = matchIndex n1) as -> by (symmetry; exact (f_equal k_match Hq)).
    eapply does_mono; [apply (acknowledge_spec m n1 _ (fun n => at0 (nextIndex n) (m_from m) <=? lastIndex n)); auto|].
    + by rewrite Hq.
    + by rewrite H0, (f_equal k_term Hq : term n1 = term n).
    + intros Eb. bool_hyps. rewrite lastIndex_core in Eb by done. lia.
    + intros u n2 Hp. by eapply performs_from_quiet.
Qed.

(** ** Snapshots *)

Lemma suffix_entries n s : wf (core n) -> s_index (snapshot n) < s_index s -> k_last (core n) + 1 < 2 ^ 64 ->
  (if (s_index s <? lastIndex n) && (termAt n (s_index s) =? s_term s)
   then entriesBetween n (u64 (s_index s + 1)) (u64 (lastIndex n + 1)) else []) = suffix s (core n).
Proof.
  intros Hw Hi Hroom. pose proof (wf_snap _ Hw) as [Hs0 _]. simpl in Hs0. unfold suffix.
  rewrite lastIndex_core, termAt_core by done. destruct (Z.ltb_spec (s_index s) (k_last (core n))) as [Hlt|]; [|done].
  cbn [andb]. destruct (_ =? _); [|done]. rewrite !u64_small by lia.
  rewrite entriesBetween_slice by (done || lia). unfold slice, k_last in *. simpl in *.
  rewrite take_ge by (rewrite length_drop; lia). f_equal. lia.
Qed.

Lemma compactLog_spec n s : wf (core n) -> s_index (snapshot n) < s_index s -> k_last (core n) + 1 < 2 ^ 64 ->
  does (compactLog s) n (fun _ n' => n' = with_log (suffix s (core n)) (with_snapshot s n)).
Proof.
  intros Hw Hi Hroom. unfold compactLog. step_get. cbv zeta. rewrite suffix_entries by done. done.
Qed.

(** The stable store cuts its log as the node does. *)
Lemma d_install_suffix s c : wf c -> s_index (k_snap c) < s_index s ->
  d_install s (dur c) = mkDurable (mkHard (k_term c) (k_voted c)) s (suffix s c).
Proof.
  intros Hw Hi. unfold d_install, suffix, dur; simpl. rewrite (proj2 (Z.leb_gt _ _)) by done. f_equal.
  unfold k_termAt. rewrite (proj2 (Z.leb_gt _ _)) by done.
  destruct (Z.ltb_spec (s_index s) (k_last c)) as [Hlt|Hge]; cbn [andb].
  - unfold k_last in Hlt. destruct (lookup_lt_is_Some_2 (k_log c) (Z.to_nat (s_index s - s_index (k_snap c) - 1))) as [e He]; [lia|].
    by rewrite He.
  - unfold k_last in Hge. destruct (k_log c !! _); [|done]. destruct (_ =? _); [|done]. by rewrite drop_ge by lia.
Qed.

Lemma between_install s m c : wf (install s m c) -> between (k_commit c) (Z.max (k_commit c) (s_index s)) (install s m c) = [].
Proof.
  intros Hw. apply filter_Forall_none. apply Forall_lookup. intros i e Hi. destruct (wf_log _ Hw _ _ Hi) as [E _].
  unfold install in E; ksimpl_in E. lia.
Qed.

Lemma install_performs inp n s m n' : wf (core n) -> s_index (snapshot n) < s_index s ->
  act inp (core n) [] (install s m (core n)) -> core n' = install s m (core n) ->
  performs inp n (mkUpdate None 0 [] [] [] false (Some s) []) n'.
Proof.
  intros Hw Hi Ha E. pose proof (act_wf _ _ _ _ Ha Hw) as Hw'. constructor; rewrite ?E.
  - by apply acts_one.
  - unfold persist; simpl. rewrite d_install_suffix by done. simpl. by rewrite app_nil_r.
  - symmetry. change (u_committed _) with (@nil Entry).
    rewrite (f_equal k_commit E : commit n' = Z.max (commit n) (s_index s)). exact (between_install s m (core n) Hw').
Qed.

Lemma reject_snapshot_sendable m n to : sendable (Received m) (core n) (reject_snapshot n to).
Proof. split; [done|]. simpl. done. Qed.

Lemma snapshot_update_merge u s : bare u ->
  mkUpdate (u_hardState u) (u_truncateFrom u) (u_entries u) (u_messages u) (u_committed u) (u_roleChanged u)
    (Some s) (u_droppedAppend u) = merge u (mkUpdate None 0 [] [] [] false (Some s) []).
Proof.
  intros ((Ht & Hs) & He & Hm & Hc). destruct u as [h t e ms co rc sn d]. unfold merge; simpl in *. subst.
  by rewrite orb_false_r.
Qed.

Lemma accept_snapshot_spec m s u n0 n : performs (Received m) n0 u n -> m_type m = MsgSnapshot -> m_term m = term n ->
  role n = Follower -> s_index s <= s_index (snapshot n) ->
  does (accept_snapshot m s u) n (performs (Received m) n0).
Proof.
  intros Hp Hty Ht Hr Hi. unfold accept_snapshot. step_get. apply does_ret.
  eapply performs_add; [exact Hp| |done]. split; [done|]. simpl. intros _. split_and!; [done|done|lia|by exists m].
Qed.

Lemma snapshot_membership_ok s c : wf c -> Forall (fun id => 0 <= id < 2 ^ 64) (Voters (s_membership s) ++ JointVoters (s_membership s)) ->
  let s' := if (length (Voters (s_membership s)) =? 0)%nat then with_s_membership (k_init c) s else s in
  validateMembership (s_membership s') = None -> memb_ok (s_membership s') /\
  (s' = s \/ (Voters (s_membership s) = [] /\ s' = with_s_membership (k_init c) s)).
Proof.
  intros Hw HF. destruct (Nat.eqb_spec (length (Voters (s_membership s))) 0) as [E|E]; simpl; intros Hv.
  - destruct (wf_init _ Hw) as (Hi & _). split; [done|]. right. split; [by apply length_zero_iff_nil|done].
  - split; [by apply validateMembership_ok|by left].
Qed.

Lemma handleSnapshot_spec m n : wf (core n) -> k_last (core n) + 1 < 2 ^ 64 -> msg_ok m -> m_type m = MsgSnapshot ->
  m_term m = term n -> does (handleSnapshot m) n (performs (Received m) n).
Proof.
  intros Hw Hroom Hm Hty Ht. unfold handleSnapshot. step_get.
  destruct (m_snapshot m) as [s|] eqn:Es.
  2:{ apply does_ret. eapply performs_send; [done|done|apply reject_snapshot_sendable]. }
  destruct (mo_snapshot _ Hm s Hty Es) as (Hsi & Hst & Hids).
  apply does_if; intros E.
  { apply does_ret. eapply performs_send; [done|done|apply reject_snapshot_sendable]. }
  bool_hyps. apply follow_sender_spec; [done|]. intros u n1 Hp Hb Ec Hw1 Hr1 Et El Esn. step_get. cbv zeta.
  assert (does (mret (add_messages [reject_snapshot n1 (m_from m)] u)) n1 (performs (Received m) n)) as Hrej.
  { apply does_ret. eapply performs_add; [exact Hp|apply reject_snapshot_sendable|done]. }
  pose proof (snapshot_membership_ok s (core n1) Hw1 Hids) as Hmb. cbv zeta in Hmb.
  change (k_init (core n1)) with (initialMembership n1) in Hmb.
  set (s' := if (length (Voters (s_membership s)) =? 0)%nat then with_s_membership (initialMembership n1) s else s) in *.
  destruct (validateMembership (s_membership s')); [exact Hrej|]. destruct (Hmb eq_refl) as [Hmok Hs'].
  assert (s_index s' = s_index s /\ s_term s' = s_term s) as [Ei' Et'] by (by destruct Hs' as [-> | [_ ->]]).
  apply does_if; intros Eix; bool_hyps; [exact Hrej|].
  apply does_if; intros Ei; bool_hyps.
  2:{ apply accept_snapshot_spec; try done; congruence. }
  rewrite termAt_core by done. apply does_if; intros Ecm; [exact Hrej|].
  assert (s_index s' <= k_commit (core n1) -> k_termAt (core n1) (s_index s') = s_term s') as Hct.
  { intros Hle. apply andb_false_iff in Ecm as [Ecm|Ecm]; bool_hyps; [simpl in Hle; lia|done]. }
  eapply does_bind; [apply compactLog_spec; [done|done|lia]|]. intros _ n2 ->.
  assert (k_base (core (with_log (suffix s' (core n1)) (with_snapshot s' n1))) = s_membership s') as Ekb.
  { apply (k_base_install s' (membership n1) (core n1)); [pose proof (wf_snap _ Hw1); simpl in *; lia|done]. }
  destruct (conf_cases (s_membership s') (suffix s' (core n1))) as [[m' Hc]|[x Hc]].
  - eapply does_bind; [apply (rebuild_ok _ m'); by rewrite Ekb|]. intros err n3 [-> ->].
    assert (act (Received m) (core n1) [] (install s' m' (core n1))) as Ha.
    { apply (act_install (Received m) (core n1) m s s' m'); try done; [simpl; congruence|simpl; lia|simpl; lia|].
      intros Hle. rewrite <- Ei', <- Et'. apply Hct. lia. }
    set (n3 := with_membership m' _).
    eapply (does_bind _ _ _ (fun _ n' => core n' = install s' m' (core n1))).
    { unfold install. apply does_if; intros Ecl; bool_hyps.
      - unfold does, runs, modify. rewrite Z.max_r by (simpl in *; lia). done.
      - apply does_ret. rewrite Z.max_l by (simpl in *; lia). done. }
    intros _ n4 E4. rewrite snapshot_update_merge by done. apply accept_snapshot_spec; try done.
    + eapply performs_merge; [exact Hp|by eapply (install_performs (Received m) n1 s' m')| |by left].
      right. by destruct Hb as (? & ? & _).
    + rewrite Ht, <- Et. symmetry. exact (f_equal k_term E4).
    + rewrite <- Hr1. exact (f_equal k_role E4).
    + rewrite (f_equal k_snap E4 : snapshot n4 = s'). lia.
  - eapply (does_bind _ _ _ (fun err n2 => err = Some x /\ n2 = with_log (suffix s' (core n1)) (with_snapshot s' n1))).
    { unfold does, runs, try_err. rewrite rebuild_eq, Ekb. simpl log. by rewrite Hc. }
    intros err n3 [-> ->]. steps. apply does_ret. eapply performs_add; [exact Hp|apply reject_snapshot_sendable|done].
Qed.

(** Compact and CreateSnapshot: an error leaves the node as it was. *)
Definition tries (inp : Input) (m : M Node Update) (n : Node) : Prop :=
  runs m n (performs inp n) (fun n' => n' = n) (fun _ => False).

Lemma membershipAt_conf n i : wf (core n) -> s_index (snapshot n) <= i ->
  membershipAt n i = conf (k_base (core n)) (take (Z.to_nat (i - s_index (snapshot n))) (log n)).
Proof.
  intros Hw Hi. unfold membershipAt, conf. rewrite base_core. pose proof (wf_log _ Hw) as Hl. simpl in Hl.
  remember (s_index (snapshot n)) as b eqn:Eb. clear Eb. generalize (k_base (core n)). revert b Hl Hi.
  induction (log n) as [|e l IH]; intros b Hl Hi mb; [by rewrite take_nil|].
  destruct (Hl O e eq_refl) as [He _]. cbn [fold_membership]. simpl in He.
  assert (log_ok (b + 1) (term n) l) as Hl'.
  { intros j x Hj. destruct (Hl (S j) x Hj). split; [lia|done]. }
  destruct (Z.ltb_spec i (e_index e)).
  - replace (Z.to_nat (i - b)) with O by lia. done.
  - replace (Z.to_nat (i - b)) with (S (Z.to_nat (i - (b + 1)))) by lia. cbn [take fold_membership].
    destruct (decodeMembership (e_data e)) as [[c|]|x| |]; rewrite ?bind_ok; try done; [|apply IH; [done|lia]].
    destruct (applyMembership mb c (e_index e)) as [m'|x| |]; rewrite ?bind_ok; try done. apply IH; [done|lia].
Qed.

Lemma membershipAt_cases n i : (exists m, membershipAt n i = Ok m) \/ (exists e, membershipAt n i = Err e).
Proof.
  unfold membershipAt.
  assert (exists l, forall b, fold_membership (fun e => i <? e_index e) b (log n) = conf b l) as [l ->]; [|apply conf_cases].
  induction (log n) as [|e l [l' IH]]; [by exists []|]. cbn [fold_membership].
  destruct (i <? e_index e); [by exists []|]. exists (e :: l'). intros b. unfold conf; cbn [fold_membership].
  destruct (decodeMembership (e_data e)) as [[c|]|x| |]; rewrite ?bind_ok; try done.
  by destruct (applyMembership b c (e_index e)) as [m'|x| |]; rewrite ?bind_ok.
Qed.

Lemma tries_get inp f n : tries inp (f n) n -> tries inp (get ≫= f) n.
Proof. done. Qed.

Lemma tries_if inp (b : bool) (m1 m2 : M Node Update) n :
  (b = true -> tries inp m1 n) -> (b = false -> tries inp m2 n) -> tries inp (if b then m1 else m2) n.
Proof. destruct b; auto. Qed.

Lemma tries_does inp (m : M Node Update) n : does m n (performs inp n) -> tries inp m n.
Proof. intros H. eapply runs_mono; [exact H|done|done|done]. Qed.

Lemma tries_of_res {A} inp (r : res A) (f : A -> M Node Update) n : (exists a, r = Ok a) \/ (exists e, r = Err e) ->
  (forall a, r = Ok a -> tries inp (f a) n) -> tries inp (of_res r ≫= f) n.
Proof. intros [[a ->]|[e ->]] Hf; [by apply Hf|done]. Qed.

(** Replacing a committed prefix by a snapshot of it. *)
Lemma compact_works inp s n : wf (core n) -> k_last (core n) + 1 < 2 ^ 64 ->
  s_index (snapshot n) < s_index s <= commit n -> k_termAt (core n) (s_index s) = s_term s -> s_term s <> 0 ->
  conf (k_base (core n)) (take (Z.to_nat (s_index s - s_index (snapshot n))) (log n)) = Ok (s_membership s) ->
  Index (s_membership s) <= s_index s ->
  does (compactLog s ;; rebuildMembership ;; mret (mkUpdate None 0 [] [] [] false (Some s) [])) n
    (fun u n' => performs inp n u n' /\ commit n' = commit n /\ u = mkUpdate None 0 [] [] [] false (Some s) []).
Proof.
  intros Hw Hroom Hi Ht Ht0 Hc Hx.
  assert (act inp (core n) [] (install s (k_memb (core n)) (core n))) as Ha by (by apply act_compact).
  eapply does_bind; [apply compactLog_spec; [done|lia|done]|]. intros _ n1 ->.
  pose proof (act_wf _ _ _ _ Ha Hw) as Hw'. pose proof (wf_memb _ Hw') as Hm'.
  assert (rebuildMembership (with_log (suffix s (core n)) (with_snapshot s n)) =
    (Ok tt, with_membership (membership n) (with_log (suffix s (core n)) (with_snapshot s n)))) as Er.
  { rewrite rebuild_eq.
    change (conf (k_base (core (with_log (suffix s (core n)) (with_snapshot s n)))) (log _)) with
      (conf (k_base (install s (k_memb (core n)) (core n))) (k_log (install s (k_memb (core n)) (core n)))).
    rewrite Hm'. done. }
  unfold does, runs, mbind, M_bind. rewrite Er. simpl. split; [|done].
  apply (install_performs inp n s (membership n)); [done|lia|done|].
  unfold install. pose proof (wf_commit _ Hw). rewrite Z.max_l by (simpl in *; lia). done.
Qed.

Lemma Compact_spec inp s n : wf (core n) -> k_last (core n) + 1 < 2 ^ 64 -> tries inp (Compact s) n.
Proof.
  intros Hw Hroom. unfold Compact. apply tries_get. apply tries_if; intros E1; bool_hyps; [by apply performs_none|].
  apply tries_if; intros E2; [done|]. bool_hyps. rewrite termAt_core in * by done.
  apply tries_of_res; [apply membershipAt_cases|]. intros expected He. rewrite membershipAt_conf in He by (done || lia).
  cbv zeta. set (s' := if (length (Voters (s_membership s)) =? 0)%nat then with_s_membership expected s else s).
  assert (s_index s' = s_index s /\ s_term s' = s_term s) as [Ei Et] by (unfold s'; by destruct (_ =? _)%nat).
  apply tries_if; intros E3; [done|]. apply tries_if; intros E4; [done|]. bool_hyps.
  rewrite !equalVoters_eq in *.
  assert (s_membership s' = expected) as Em by (destruct (s_membership s'), expected; simpl in *; congruence).
  apply tries_does. eapply does_mono; [apply (compact_works inp s' n); [done|done|lia|congruence|congruence| |lia]|naive_solver].
  by rewrite Em, Ei.
Qed.

Lemma CreateSnapshot_spec inp i data n : wf (core n) -> k_last (core n) + 1 < 2 ^ 64 -> tries inp (CreateSnapshot i data) n.
Proof.
  intros Hw Hroom. unfold CreateSnapshot. apply tries_get. apply tries_of_res; [apply membershipAt_cases|].
  intros m _. by apply Compact_spec.
Qed.

(** CreateSnapshot of a committed index the log still has. *)
Lemma CreateSnapshot_works inp i data n : wf (core n) -> k_last (core n) + 1 < 2 ^ 64 -> s_index (snapshot n) < i <= commit n ->
  does (CreateSnapshot i data) n (fun u n' => performs inp n u n' /\ commit n' = commit n /\
    exists s, u = mkUpdate None 0 [] [] [] false (Some s) [] /\ s_index s = i /\ s_term s = k_termAt (core n) i /\ s_term s <> 0).
Proof.
  intros Hw Hroom Hi. pose proof (wf_log _ Hw) as Hl. pose proof (wf_commit _ Hw) as Hcm. unfold k_last in *. simpl in Hl, Hcm.
  set (k := Z.to_nat (i - s_index (snapshot n))).
  destruct (lookup_lt_is_Some_2 (log n) (k - 1)) as [e He]; [simpl in *; lia|]. destruct (Hl _ _ He) as (Hei & Het).
  assert (k_termAt (core n) i = e_term e) as Ht.
  { unfold k_termAt. simpl. rewrite (proj2 (Z.leb_gt _ _)) by lia.
    replace (Z.to_nat (i - s_index (snapshot n) - 1)) with (k - 1)%nat by lia. by rewrite He. }
  destruct (conf_prefix (k_base (core n)) (take k (log n)) (drop k (log n)) (membership n)) as [m Hm].
  { rewrite take_drop. exact (wf_memb _ Hw). }
  assert (Index m <= i) as Hx.
  { destruct (conf_index _ _ _ Hm) as [-> | (e' & He' & ->)].
    - pose proof (base_index _ Hw). simpl in *. lia.
    - apply list_elem_of_lookup in He' as [j Hj]. apply lookup_take_Some in Hj as [Hj ?]. destruct (Hl _ _ Hj) as [-> _]. lia. }
  unfold CreateSnapshot. step_get. rewrite membershipAt_conf by (done || lia). fold k. rewrite Hm.
  eapply (does_bind _ _ _ (fun x n' => x = m /\ n' = n)); [done|]. intros _ _ [-> ->]. rewrite termAt_core by done. rewrite Ht.
  unfold Compact. step_get. cbn [s_index s_term s_membership].
  rewrite (proj2 (Z.leb_gt i _)), (proj2 (Z.ltb_ge (commit n) i)), (proj2 (Z.eqb_neq (e_term e) 0)) by lia.
  rewrite termAt_core by done. rewrite Ht, Z.eqb_refl. cbn [negb orb]. rewrite membershipAt_conf by (done || lia). fold k. rewrite Hm.
  eapply (does_bind _ _ _ (fun x n' => x = m /\ n' = n)); [done|]. intros _ _ [-> ->]. cbv zeta.
  replace (if (length (Voters m) =? 0)%nat then _ else _) with (mkSnapshot i (e_term e) data m) by (by destruct (_ =? _)%nat).
  cbn [s_index s_membership]. rewrite (proj2 (Z.ltb_ge i (Index m))) by lia. rewrite !(proj2 (equalVoters_eq _ _)) by done.
  rewrite Z.eqb_refl. cbn [negb orb].
  eapply does_mono; [apply (compact_works inp (mkSnapshot i (e_term e) data m) n); try done; simpl; lia|].
  intros u n' (? & ? & ->). split_and!; [done|done|]. eexists. split_and!; [done|done|done|simpl; lia].
Qed.

End Handlers.
