(* ===== verification/RaftOps.v ===== *)
(** * Proposals, time, messages and restarts of a node

    The entry points of internal/raft/node.go: ProposeBatch and Propose,
    ProposeMembership, ReadProbe, Tick, Step and New. Each preserves
    well-formedness, never panics, performs protocol actions and reports exactly what
    changed. *)

From S2P Require Import Prelude GoStd Fs Json Membership RaftTypes RaftNode RaftCore RaftRefine RaftHandlers.

Module Ops.
Import Membership Raft Node Core Refine Handlers.

(** ** Proposals *)

(** The indexes and entries a batch gets: a command that is too large gets index 0
    and no entry. *)
Fixpoint assign (next tm : Z) (l : list bytes) : list Z * list Entry :=
  match l with
  | [] => ([], [])
  | command :: l' =>
      if MaxEntryBytes <? Z.of_nat (length command) then
        let r := assign next tm l' in (0 :: r.1, r.2)
      else let r := assign (next + 1) tm l' in (next :: r.1, mkEntry next tm command :: r.2)
  end.

Lemma assign_length l : forall next tm, (length (assign next tm l).2 <= length l)%nat.
Proof.
  induction l as [|c l IH]; intros next tm; simpl; [done|]. destruct (_ <? _); simpl; [specialize (IH next tm)|specialize (IH (next + 1) tm)]; lia.
Qed.

Lemma append_commands_spec l : forall n, wf (core n) -> k_last (core n) + Z.of_nat (length l) < 2 ^ 64 -> 0 < term n ->
  does (append_commands l) n (fun r n' => r = assign (k_last (core n) + 1) (term n) l /\ n' = with_log (log n ++ r.2) n).
Proof.
  assert (forall l n k, k = Z.of_nat (length (log n)) -> 0 <= s_index (snapshot n) -> s_index (snapshot n) + k + Z.of_nat (length l) < 2 ^ 64 ->
    does (append_commands l) n (fun r n' => r = assign (s_index (snapshot n) + k + 1) (term n) l /\ n' = with_log (log n ++ r.2) n)) as H.
  { clear l. induction l as [|c l IH]; intros n k Hk Hs Hl; cbn [append_commands assign].
    { apply does_ret. split; [done|]. simpl. rewrite app_nil_r. by destruct n. }
    simpl length in Hl. apply does_if; intros E; rewrite E.
    - eapply does_bind; [apply (IH n k); [done|done|lia]|]. intros r n' [-> ->]. by apply does_ret.
    - step_get. step_mod.
      assert (lastIndex n = s_index (snapshot n) + k) as El by (unfold lastIndex; rewrite u64_small; lia).
      rewrite El, u64_small by lia. cbv zeta.
      eapply does_bind; [apply (IH _ (k + 1)); simpl; [rewrite length_app; simpl; lia|done|lia]|].
      intros r n' [-> ->]. apply does_ret. simpl. rewrite Z.add_assoc. split; [done|]. rewrite <- app_assoc. done. }
  intros n Hw Hl Ht. apply H; [done|apply (wf_snap _ Hw)|exact Hl].
Qed.

Lemma assign_log_ok l : forall next tm, 0 < tm -> log_ok (next - 1) tm (assign next tm l).2 /\ Forall (fun e => e_term e = tm) (assign next tm l).2.
Proof.
  induction l as [|c l IH]; intros next tm Ht; simpl; [split; [apply log_ok_nil|constructor]|].
  destruct (_ <? _); simpl; [by apply IH|]. destruct (IH (next + 1) tm Ht) as [H1 H2]. split; [|by constructor].
  intros [|i] e Hi; simpl in Hi; [simplify_eq; simpl; lia|]. destruct (H1 i e Hi). lia.
Qed.

Lemma assign_plain l : forall next tm, Forall (fun d => hasMembershipPrefix d = false) l ->
  Forall (fun e => hasMembershipPrefix (e_data e) = false) (assign next tm l).2.
Proof.
  induction l as [|c l IH]; intros next tm HF; simpl; [constructor|]. inv HF. destruct (_ <? _); simpl; [auto|constructor; auto].
Qed.

(** Outcome of a client operation: an error leaves the node as it was. *)
Definition proposes {A} (m : M Node A) (n : Node) (Q : A -> Node -> Prop) : Prop :=
  runs m n Q (fun n' => n' = n) (fun _ => False).

Lemma proposes_does {A} (m : M Node A) n Q : does m n Q -> proposes m n Q.
Proof. intros H. eapply runs_mono; [exact H|done|done|done]. Qed.

(** A leader's log has grown and the node announces it. *)
Lemma announce_spec {B} (f : Update -> B) inp n n1 es m nx origin : wf (core n) -> role n = Leader ->
  log_ok (k_last (core n)) (term n) es -> Forall (fun e => e_term e = term n) es -> conf (membership n) es = Ok m ->
  k_last (core n) + Z.of_nat (length es) + 1 < 2 ^ 64 ->
  Forall (fun e => hasMembershipPrefix (e_data e) = false) es \/ inp = Reconfigure ->
  (forall p, 0 <= at0 nx p <= k_last (core n) + Z.of_nat (length es) + 1) ->
  core n1 = w_next nx (grow es m (core n)) ->
  does (ms ← broadcastAppend origin; u ← maybeCommit; mret (f (merge (mkUpdate None 0 es ms [] false None []) u))) n1
    (fun r n' => exists u, r = f u /\ performs inp n u n' /\ es `prefix_of` u_entries u /\ commit n' <= k_last (core n) + Z.of_nat (length es)).
Proof.
  intros Hw Hr Hl Ht Hm Hroom Hkind Hnx E.
  assert (k_last (grow es m (core n)) = k_last (core n) + Z.of_nat (length es)) as El.
  { unfold grow, k_last; ksimpl. rewrite length_app. lia. }
  assert (act inp (core n) [] (grow es m (core n))) as Ha by (apply act_grow; try done; [lia|tauto]).
  assert (act inp (grow es m (core n)) [] (core n1)) as Ha2 by (rewrite E; apply act_nexts; by rewrite El).
  pose proof (act_wf _ _ _ _ Ha Hw) as Hwg. pose proof (act_wf _ _ _ _ Ha2 Hwg) as Hw1.
  assert (role n1 = Leader) as Hr1 by (rewrite (f_equal k_role E : role n1 = role n); done).
  assert (commit n1 = commit n) as Ec1 by exact (f_equal k_commit E).
  assert (k_last (core n1) = k_last (core n) + Z.of_nat (length es)) as El1 by (rewrite E; exact El).
  eapply does_bind; [apply (broadcast_spec inp (core n1)); by apply leads_self|].
  intros ms n2 Hs. pose proof Hs as [Hq2 _].
  eapply does_bind.
  { apply (maybeCommit_spec inp n2); [by eapply quiet_wf|by rewrite (quiet_role _ _ Hq2)|rewrite Hq2; lia]. }
  intros u n3 (c & _ & _ & _ & Hpl & Hp & Hcm). apply does_ret. eexists. split; [reflexivity|].
  split; [|split; [by eexists|by rewrite <- El1, <- Hq2]].
  assert (commit n2 = commit n) as Ec2 by (rewrite <- Ec1; exact (f_equal k_commit Hq2)).
  eapply performs_merge; [|exact Hp|by left|by left]. constructor.
  - simpl. rewrite <- (app_nil_l ms). eapply acts_cons; [exact Ha|]. rewrite <- (app_nil_l ms).
    eapply acts_cons; [exact Ha2|]. rewrite Hq2. by eapply sent_acts.
  - rewrite Hq2, E. unfold persist, dur; simpl. done.
  - simpl. by rewrite Ec2, between_same.
Qed.

Lemma proposes_get {A} (f : Node -> M Node A) n Q : proposes (f n) n Q -> proposes (get ≫= f) n Q.
Proof. done. Qed.

Lemma proposes_if {A} (b : bool) (m1 m2 : M Node A) n Q :
  (b = true -> proposes m1 n Q) -> (b = false -> proposes m2 n Q) -> proposes (if b then m1 else m2) n Q.
Proof. destruct b; auto. Qed.

Lemma ProposeBatch_spec inp data n : wf (core n) -> k_last (core n) + Z.of_nat (length data) + 1 < 2 ^ 64 ->
  Forall (fun d => hasMembershipPrefix d = false) data ->
  proposes (ProposeBatch data) n (fun r n' =>
    role n = Leader /\ r.1 = (assign (k_last (core n) + 1) (term n) data).1 /\ performs inp n r.2 n' /\
    (u_entries r.2 = [] -> quiet n n')).
Proof.
  intros Hw Hroom Hpre. unfold ProposeBatch. apply proposes_get. apply proposes_if; intros E; [done|].
  bool_hyps. rename E into Hr. apply proposes_does. destruct (wf_self _ Hw (or_intror Hr)) as [_ Hpos]. simpl in Hpos.
  pose proof (wf_commit _ Hw). pose proof (wf_snap _ Hw) as [Hs0 _].
  eapply does_bind; [apply append_commands_spec; [done|lia|done]|]. intros r n1 [-> ->].
  remember (assign (k_last (core n) + 1) (term n) data) as r eqn:Er. destruct r as [ixs es]. simpl snd.
  pose proof (assign_length data (k_last (core n) + 1) (term n)) as Hlen. rewrite <- Er in Hlen. simpl in Hlen.
  destruct (assign_log_ok data (k_last (core n) + 1) (term n) Hpos) as [Hlog Hterms]. rewrite <- Er in Hlog, Hterms. simpl in Hlog, Hterms.
  replace (k_last (core n) + 1 - 1) with (k_last (core n)) in Hlog by lia.
  pose proof (assign_plain data (k_last (core n) + 1) (term n) Hpre) as Hplain. rewrite <- Er in Hplain. simpl in Hplain.
  apply does_if; intros E.
  { bool_hyps. apply length_zero_iff_nil in E as ->. apply does_ret.
    assert (quiet n (with_log (log n ++ []) n)) by (unfold quiet, core; nsimpl; by rewrite app_nil_r).
    split_and!; [done|done|by apply performs_none|done]. }
  step_get. unfold set_match, set_next. steps.
  assert (lastIndex (with_log (log n ++ es) n) = k_last (core n) + Z.of_nat (length es)) as El.
  { unfold lastIndex. nsimpl. rewrite length_app. unfold k_last in *. simpl in *. rewrite u64_small; lia. }
  rewrite El. match goal with |- does _ ?x _ => set (n1 := x) end.
  eapply does_mono.
  - eapply (announce_spec (fun u => (ixs, u)) inp n n1 es (membership n)
      (<[c_ID (cfg n) := u64 (k_last (core n) + Z.of_nat (length es) + 1)]> (nextIndex n))); try done; [by apply conf_plain|lia|by left|].
    intros p. rewrite at0_insert. pose proof (u64_le (k_last (core n) + Z.of_nat (length es) + 1)).
    pose proof (wf_next _ Hw Hr p) as Hnx. simpl in Hnx. nsimpl. case_decide; lia.
  - intros r n' (u & -> & Hp & [l Hes] & _). split_and!; [done|done|done|]. simpl. rewrite Hes. by destruct es.
Qed.

Lemma runs_Propose inp data n : wf (core n) -> k_last (core n) + 2 < 2 ^ 64 -> hasMembershipPrefix data = false ->
  proposes (Propose data) n (fun r n' =>
    role n = Leader /\ Z.of_nat (length data) <= MaxEntryBytes /\ r.1 = k_last (core n) + 1 /\ performs inp n r.2 n').
Proof.
  intros Hw Hroom Hpre. unfold Propose. apply proposes_if; intros E; [done|]. bool_hyps.
  apply runs_bind. eapply runs_mono; [apply (ProposeBatch_spec inp [data]); [done|simpl; lia|by constructor]| |done|done].
  intros [ixs u] n' (Hr & Hix & Hp & _). simpl in Hix. rewrite (proj2 (Z.ltb_ge _ _)) in Hix by lia. simpl in Hix. subst ixs. done.
Qed.

(** The joint entry of a membership change is valid. *)
Lemma conf_joint n new i t : wf (core n) -> JointVoters (membership n) = [] -> voters_ok new ->
  conf (membership n) [mkEntry i t (encodeMembership (mkCommand configJoint (Voters (membership n)) new))]
  = Ok (mkMembership (Voters (membership n)) new i).
Proof.
  intros Hw HJ Hv. destruct (wf_memb_ok _ Hw) as [HV _]. simpl in HV.
  unfold conf. cbn [fold_membership e_data e_index]. rewrite decode_encode by (split; [done|by left]). rewrite bind_ok.
  unfold applyMembership; cbn [Phase Old Membership.New]. rewrite bool_decide_true by done. rewrite HJ.
  rewrite (proj2 (equalVoters_eq _ _)) by done. done.
Qed.

(** Giving new peers a next index changes nothing else. *)
Lemma init_next_spec i l : forall n, 0 <= i -> does (init_next i l) n (fun _ n' =>
  exists nx, n' = with_nextIndex nx n /\ forall p, at0 nx p = at0 (nextIndex n) p \/ at0 nx p = i).
Proof.
  unfold init_next. induction l as [|p l IH]; intros n Hi; cbn [mfold].
  { apply does_ret. exists (nextIndex n). split; [by destruct n|auto]. }
  eapply (does_bind _ _ _ (fun _ n' => exists nx, n' = with_nextIndex nx n /\ forall q, at0 nx q = at0 (nextIndex n) q \/ at0 nx q = i)).
  { step_get. apply does_if; intros E.
    - unfold does, runs, set_next, modify. eexists. split; [reflexivity|]. intros q. rewrite at0_insert. case_decide; auto.
    - apply does_ret. exists (nextIndex n). split; [by destruct n|auto]. }
  intros _ n1 (nx & -> & Hnx). eapply does_mono; [by apply IH|]. intros _ n2 (nx' & -> & Hnx').
  exists nx'. split; [done|]. intros q. destruct (Hnx' q) as [-> |]; [apply Hnx|by right].
Qed.

Lemma ProposeMembership_spec voters n : wf (core n) -> k_last (core n) + 3 < 2 ^ 64 ->
  Forall (fun id => 0 <= id < 2 ^ 64) voters ->
  proposes (ProposeMembership voters) n (fun r n' => role n = Leader /\ performs Reconfigure n r.2 n' /\
    (r.1 <= commit n' -> quiet n n')).
Proof.
  intros Hw Hroom Hv. unfold ProposeMembership. apply proposes_get. apply proposes_if; intros E; [done|].
  bool_hyps. rename E into Hr. destruct (wf_self _ Hw (or_intror Hr)) as [_ Hpos]. simpl in Hpos.
  apply proposes_if; intros E; [done|]. bool_hyps.
  destruct (normalizeVoters_cases voters) as [[new En]|[e En]]; rewrite En; [|done].
  destruct (normalizeVoters_ok _ _ Hv En) as [Hnew _].
  change (proposes (if equalVoters new (Voters (membership n)) then mret (Index (membership n), noUpdate) else
    let entry := mkEntry (u64 (lastIndex n + 1)) (term n) (encodeMembership (mkCommand configJoint (Voters (membership n)) new)) in
    modify (with_log (log n ++ [entry])) ;; rebuildMembership ;; n' ← get; init_next (e_index entry) (peers n') ;;
    set_match (c_ID (cfg n')) (e_index entry) ;; set_next (c_ID (cfg n')) (u64 (e_index entry + 1)) ;;
    ms ← broadcastAppend OriginOther; u ← maybeCommit;
    mret (u64 (e_index entry + 1), merge (mkUpdate None 0 [entry] ms [] false None []) u)) n
    (fun r n' => role n = Leader /\ performs Reconfigure n r.2 n' /\ (r.1 <= commit n' -> quiet n n'))).
  apply proposes_if; intros E; [split_and!; [done| |done]; by apply performs_none|]. cbv zeta.
  pose proof (wf_commit _ Hw). pose proof (wf_snap _ Hw) as [Hs0 _].
  rewrite lastIndex_core, (u64_small (k_last (core n) + 1)) by (done || lia). cbn [e_index].
  set (entry := mkEntry (k_last (core n) + 1) _ _).
  assert (JointVoters (membership n) = []) as HJ by (destruct (JointVoters (membership n)); [done|simpl in *; lia]).
  pose proof (conf_joint n new (k_last (core n) + 1) (term n) Hw HJ Hnew) as Hc. fold entry in Hc.
  set (m := mkMembership _ _ _) in Hc. apply proposes_does. step_mod.
  eapply (does_bind _ _ _ (fun _ n' => n' = with_membership m (with_log (log n ++ [entry]) n))).
  { unfold does, runs. rewrite rebuild_eq.
    change (conf (k_base (core (with_log (log n ++ [entry]) n))) (log _)) with (conf (k_base (core n)) (log n ++ [entry])).
    by rewrite conf_app, (wf_memb _ Hw : conf (k_base (core n)) (log n) = Ok (membership n)), bind_ok, Hc. }
  intros _ n1 ->. step_get. eapply does_bind; [apply init_next_spec; lia|]. intros _ n2 (nx & -> & Hnx). nsimpl_all.
  unfold set_match, set_next. steps. match goal with |- does _ ?x _ => set (n1 := x) end.
  eapply does_mono.
  - eapply (announce_spec (fun u => (_, u)) Reconfigure n n1 [entry] m (<[c_ID (cfg n) := u64 (k_last (core n) + 1 + 1)]> nx)); try done.
    + intros [|i] e [= <-]. simpl. lia.
    + by repeat constructor.
    + simpl. lia.
    + by right.
    + intros p. rewrite at0_insert. pose proof (u64_le (k_last (core n) + 1 + 1)).
      pose proof (wf_next _ Hw Hr p) as Hn. simpl in Hn. simpl length. case_decide; [lia|]. destruct (Hnx p) as [-> | ->]; lia.
  - intros r n' (u & -> & Hp & _ & Hcm). split_and!; [done|done|]. simpl in *. rewrite u64_small by lia. lia.
Qed.

Lemma ReadProbe_spec inp context n : wf (core n) ->
  proposes (ReadProbe context) n (fun u n' => role n = Leader /\ termAt n (commit n) = term n /\ performs inp n u n').
Proof.
  intros Hw. unfold ReadProbe. apply proposes_get. apply proposes_if; intros E; [done|]. bool_hyps.
  rename E into Hr. apply proposes_if; intros E; [done|]. bool_hyps. apply proposes_does.
  eapply does_bind.
  - apply (collect_spec inp (core n)); [by apply leads_self|]. intros p n' Hl. apply does_if; intros _; [by split|].
    eapply does_bind; [by apply (appendMessage_spec inp (core n))|]. intros m n1 H1. by apply does_ret.
  - intros ms n1 [Hq HF]. apply does_ret. split_and!; try done. constructor; rewrite ?Hq.
    + by apply acts_sends.
    + unfold persist, dur; simpl. by rewrite app_nil_r.
    + simpl. by rewrite (f_equal k_commit Hq : commit n1 = commit n), between_same.
Qed.

(** ** Time *)

Lemma gather_quiet id l : forall active n, does (gather_active id active l) n (fun _ n' => quiet n n').
Proof.
  induction l as [|p l IH]; intros active n; cbn [gather_active]; [done|]. step_get. cbv zeta.
  eapply does_quiet; [apply set_active_quiet|]. intros _ n1 H1. eapply does_mono; [apply IH|].
  intros a n2 H2; simpl in H2. by eapply quiet_trans.
Qed.

Lemma Tick_spec inp n : wf (core n) -> room (core n) -> does Tick n (performs inp n).
Proof.
  intros Hw Hroom. unfold Tick. step_get. cbv zeta. apply does_if; intros E; bool_hyps.
  - rename E into Hr. steps. set (n1 := with_quorumElapsed _ _).
    assert (leads (core n) n1) as Hl by (by split_and!; [| |left]).
    assert (quiet n n1) as Hq1 by done. clearbody n1.
    eapply does_quiet; [eapply (expire_quiet (core n)); exact Hl|]. intros expired n2 Hq2. step_get.
    pose proof (leads_quiet _ _ _ Hl Hq2) as Hl2. pose proof (quiet_trans _ _ _ Hq1 Hq2) as Hq.
    eapply (does_bind _ _ _ (fun ms n' => sent inp (core n) n2 ms n')).
    { apply does_if; intros _.
      - step_mod. eapply does_mono; [apply (broadcast_spec inp (core n)); by eapply leads_quiet|]. done.
      - apply (collect_spec inp (core n)); [done|]. intros p n' Hl'.
        eapply does_bind; [by apply (appendMessage_spec inp (core n))|]. intros m n3 H3. by apply does_ret. }
    intros ms n3 [Hq3 HF]. step_get. pose proof (quiet_trans _ _ _ Hq Hq3) as Hqa.
    set (u := mkUpdate None 0 [] ms [] false None []).
    assert (forall n4, quiet n n4 -> performs inp n u n4) as Hp.
    { intros n4 Hq4. constructor; rewrite ?Hq4; [by apply acts_sends| |].
      - unfold persist; simpl. by rewrite app_nil_r.
      - simpl. by rewrite (f_equal k_commit Hq4 : commit n4 = commit n), between_same. }
    apply does_if; intros _; [|apply does_ret; by apply Hp].
    step_mod. eapply does_quiet; [apply gather_quiet|]. intros active n4 Hq4. step_get.
    assert (quiet n n4) as Hqb by (eapply quiet_trans; [exact Hqa|exact Hq4]).
    apply does_if; intros _; [|apply does_ret; by apply Hp].
    eapply does_bind; [apply (becomeFollower_spec inp n4 (term n4)); [by eapply quiet_wf|by left]|].
    intros u' n5 (E5 & Hp5 & Hb5). apply does_ret. eapply performs_merge; [by apply Hp|exact Hp5|left; apply Hb5|].
    left. exact (f_equal k_commit Hqb).
  - apply does_if; intros _; [apply does_ret; by apply performs_none|]. step_mod. step_get.
    apply does_if; intros _; [|apply does_ret; by apply performs_none].
    eapply does_bind; [by apply (startPreVote_spec inp)|]. intros u n1 [Hp _]. apply does_ret. rewrite merge_noUpdate_l.
    by eapply performs_from_quiet; [|exact Hp].
Qed.

(** ** Messages *)

Lemma rejectStale_sendable m n : is_prevote (m_type m) = false -> sendable (Received m) (core n) (rejectStale m n).
Proof. intros Hp. unfold rejectStale. destruct (m_type m); try done; split; done. Qed.

Lemma dispatch_spec m n : wf (core n) -> k_last (core n) + 2 < 2 ^ 64 -> msg_ok m -> m_from m <> c_ID (cfg n) ->
  (is_prevote (m_type m) = true -> room (core n)) -> (is_prevote (m_type m) = false -> m_term m = term n) ->
  (m_type m = MsgAppend -> entries_ok m) -> lastNew m + 1 < 2 ^ 64 ->
  does (dispatch m) n (performs (Received m) n).
Proof.
  intros Hw Hroom Hm Hfrom Hpre Hterm Hent Hlast. unfold dispatch. step_get.
  destruct (m_type m) eqn:Hty; simpl in *.
  - apply does_ret. eapply performs_send; [done|reflexivity|]. by split.
  - apply handlePreVoteResponse_spec; auto.
  - apply handleVote_spec; auto.
  - apply handleVoteResponse_spec; auto.
  - apply handleAppend_spec; auto; lia.
  - apply handleAppendResponse_spec; auto; lia.
  - apply handleSnapshot_spec; auto; lia.
  - apply handleSnapshotResponse_spec; auto; lia.
Qed.

Lemma Step_spec m n : wf (core n) -> room (core n) -> msg_ok m -> lastNew m + 1 < 2 ^ 64 ->
  does (Step m) n (performs (Received m) n).
Proof.
  intros Hw [Hroom1 Hroom2] Hm Hlast. unfold Step. step_get.
  apply does_if; intros E1; [apply does_ret; by apply performs_none|].
  apply does_if; intros E2; [apply does_ret; by apply performs_none|]. bool_hyps. cbv zeta.
  apply does_if; intros E3.
  { step_mod. apply does_ret. destruct (performs_none (Received m) n n eq_refl) as [A D C]. by constructor. }
  assert (m_type m = MsgAppend -> entries_ok m) as Hent.
  { intros Hty. rewrite bool_decide_true in E3 by done. bool_hyps. apply length_zero_iff_nil in E3.
    apply malformedAppend_ok; [done|apply (mo_entries _ Hm)|apply (mo_logIndex _ Hm)|lia]. }
  apply does_if; intros E4; [step_mod; apply does_ret; by apply performs_none|].
  apply does_if; intros E5; bool_hyps.
  { apply does_ret. eapply performs_send; [done|reflexivity|]. by apply rejectStale_sendable. }
  eapply (does_bind _ _ _ (fun u n' => performs (Received m) n u n' /\ bare u /\ commit n' = commit n /\
    k_last (core n') = k_last (core n) /\ c_ID (cfg n') = c_ID (cfg n) /\
    (is_prevote (m_type m) = true -> n' = n) /\ (is_prevote (m_type m) = false -> m_term m = term n'))).
  { apply does_if; intros E6; bool_hyps.
    - eapply does_bind; [apply (becomeFollower_spec (Received m) n (m_term m)); [done|right; destruct (mo_term _ Hm); lia]|].
      intros u n1 (Ec & Hp & Hb). rewrite (proj2 (Z.ltb_lt _ _)) in Ec by done. apply does_ret. rewrite merge_noUpdate_l.
      split_and!; [done|done|exact (f_equal k_commit Ec)|by rewrite Ec|exact (f_equal k_id Ec)|congruence|].
      intros _. symmetry. exact (f_equal k_term Ec).
    - apply does_ret. split_and!; try done; [by apply performs_none|]. intros Hp.
      rewrite Hp in E5, E6. cbn [negb andb] in E5, E6. bool_hyps. lia. }
  intros u n1 (Hp & Hb & Ec & El & Ei & Hpre & Hnp).
  eapply does_bind.
  - apply (dispatch_spec m n1); try done; [by eapply performs_wf|lia|congruence|]. intros Hpv. rewrite (Hpre Hpv). done.
  - intros u' n2 Hp'. apply does_ret. eapply performs_merge; [exact Hp|exact Hp'| |by left]. right. by destruct Hb as (? & ? & _).
Qed.

(** ** Construction *)

(** What a node keeps over a restart: its durable state; the configuration in force is
    recomputed and the commit index restarts at the applied index. *)
Definition restarted (applied : Z) (c : Core) : Core :=
  mkCore (k_id c) (k_init c) Follower (k_term c) (k_voted c) (k_snap c) (k_log c) applied (k_memb c) ∅ ∅ ∅ false.

(** A node that has never run. *)
Definition fresh (id : Z) (voters : list Z) : Core :=
  mkCore id (mkMembership voters [] 0) Follower 0 0 zeroSnapshot [] 0 (mkMembership voters [] 0) ∅ ∅ ∅ false.

Lemma restarted_wf a c : wf c -> s_index (k_snap c) <= a <= k_last c -> wf (restarted a c).
Proof. intros [] Ha. constructor; try done; simpl; by intuition. Qed.

Lemma fresh_wf id voters : 0 < id < 2 ^ 64 -> voters_ok voters -> wf (fresh id voters).
Proof.
  intros Hid Hv. assert (memb_ok (mkMembership voters [] 0)) as Hm by (split; [done|by left]).
  constructor; try done; simpl; try lia; try (by intuition congruence).
  repeat constructor.
Qed.

Lemma check_entries_ok base t l : forall i, 0 <= base + i -> log_ok (base + i) t l -> base + i + Z.of_nat (length l) < 2 ^ 64 ->
  check_entries base i l = true.
Proof.
  induction l as [|e l IH]; intros i Hb Hl Hlast; [done|]. simpl in Hlast |- *.
  destruct (Hl 0%nat e eq_refl) as [Hi Ht]. rewrite u64_small by lia.
  replace (e_index e =? base + i + 1) with true by (symmetry; apply Z.eqb_eq; lia).
  replace (e_term e =? 0) with false by (symmetry; apply Z.eqb_neq; lia).
  simpl. apply IH; [lia| |lia].
  intros j e' Hj. destruct (Hl (S j) e' Hj). lia.
Qed.

Lemma restored_ok c : wf c -> restored_snapshot [k_snap c] = Ok (k_snap c).
Proof.
  intros Hw. destruct (wf_snap_memb _ Hw) as [Hz Hi], (wf_snap _ Hw) as (Hs & _ & Ht). simpl.
  rewrite (proj2 (Z.ltb_ge _ _)) by lia.
  destruct (Z.eqb_spec (s_index (k_snap c)) 0) as [E|E].
  - by rewrite (Hz E).
  - destruct (Z.eqb_spec (s_term (k_snap c)) 0) as [E'|E']; [tauto|done].
Qed.

Lemma memb_ok_validate m : memb_ok m -> validateMembership m = None.
Proof.
  intros [HV HJ]. apply validateMembership_ok; [|done]. apply Forall_app. split.
  - destruct HV as (_ & _ & HV). eapply Forall_impl; [exact HV|]. simpl. lia.
  - destruct HJ as [-> |(_ & _ & HJ)]; [constructor|]. eapply Forall_impl; [exact HJ|]. simpl. lia.
Qed.

(** New rebuilds the node a well-formed durable state was taken from. *)
Lemma New_spec cf c : wf c -> validate cf = None -> c_ID cf = k_id c ->
  normalizeVoters (c_Peers cf) = Ok (Voters (k_init c)) -> s_index (k_snap c) <= c_AppliedIndex cf <= k_last c ->
  exists n, New cf (d_hard (dur c)) (d_log (dur c)) [d_snap (dur c)] = Ok n /\ core n = restarted (c_AppliedIndex cf) c.
Proof.
  intros Hw Hv Hid Hn Ha. unfold New, dur. cbn [d_hard d_snap d_log hs_term hs_votedFor].
  rewrite Hv, restored_ok, bind_ok by done.
  destruct (wf_snap _ Hw) as [Hs _]. destruct (wf_init _ Hw) as (_ & HJ & HI).
  rewrite (check_entries_ok _ (k_term c)); [|lia|rewrite Z.add_0_r; apply (wf_log _ Hw)|rewrite Z.add_0_r; apply (wf_last _ Hw)].
  cbn [negb]. rewrite Hn, bind_ok. cbv zeta.
  assert (mkMembership (Voters (k_init c)) [] 0 = k_init c) as Ei by (destruct (k_init c); simpl in *; congruence).
  rewrite Ei. pose proof (wf_base _ Hw) as Hb.
  assert ((if (0 <? s_index (k_snap c)) && (0 <? length (Voters (s_membership (k_snap c))))%nat
           then match validateMembership (s_membership (k_snap c)) with Some e => Err e | None => Ok (s_membership (k_snap c)) end
           else Ok (k_init c)) = Ok (k_base c)) as Eb.
  { unfold k_base in *. destruct (_ && _); [|done]. by rewrite memb_ok_validate. }
  rewrite Eb, bind_ok. rewrite rebuild_eq.
  change (conf (k_base _) (log _)) with (conf (k_base c) (k_log c)). rewrite (wf_memb _ Hw).
  set (n0 := with_membership _ _).
  assert (lastIndex n0 = k_last c) as El.
  { unfold lastIndex, n0. nsimpl. pose proof (wf_last _ Hw) as Hl. unfold k_last in *. rewrite u64_small; [done|lia]. }
  rewrite El. change (c_AppliedIndex (set_peers _ cf)) with (c_AppliedIndex cf).
  rewrite (proj2 (Z.ltb_ge _ _)) by lia. rewrite (proj2 (Z.ltb_ge _ _)) by lia. cbn [orb].
  eexists. split; [reflexivity|]. unfold restarted. rewrite <- Hid. by destruct (random n0 =? 0).
Qed.

End Ops.
