(* ===== verification/RaftApi.v ===== *)
(** * The promises of a node

    Every operation of a node as one step function, and what holds of all of them: the
    node stays well-formed, never panics, leaves the node alone when it fails, reports
    exactly the durable change and the newly committed entries, never goes back in
    term, never votes twice, and never changes a committed entry. *)

From S2P Require Import Prelude GoStd Fs Json Membership RaftTypes RaftNode RaftCore RaftRefine RaftHandlers RaftOps.

Module Api.
Import Membership Raft Node Core Refine Handlers Ops.

(** ** Operations *)

Inductive NodeOp :=
| OpTick
| OpStep (m : Message)
| OpPropose (data : bytes)
| OpProposeBatch (data : list bytes)
| OpProposeMembership (voters : list Z)
| OpReadProbe (context : Z)
| OpCreateSnapshot (index : Z) (data : bytes)
| OpCompact (s : Snapshot).

(** The update an operation returns. *)
Definition run_op (op : NodeOp) : M Node Update :=
  match op with
  | OpTick => Tick
  | OpStep m => Step m
  | OpPropose data => r ← Propose data; mret r.2
  | OpProposeBatch data => r ← ProposeBatch data; mret r.2
  | OpProposeMembership voters => r ← ProposeMembership voters; mret r.2
  | OpReadProbe context => ReadProbe context
  | OpCreateSnapshot index data => CreateSnapshot index data
  | OpCompact s => Compact s
  end.

Definition op_input (op : NodeOp) : Input :=
  match op with OpStep m => Received m | OpProposeMembership _ => Reconfigure | _ => Quiet end.

(** The arguments are 64-bit numbers that leave room in the log, and a client's command
    does not carry the prefix of membership commands: that starts with a zero byte, with
    which no encoded protobuf message, hence no command of the service, begins. *)
Definition op_ok (op : NodeOp) (c : Core) : Prop :=
  room c /\
  match op with
  | OpStep m => msg_ok m /\ lastNew m + 1 < 2 ^ 64
  | OpPropose data => hasMembershipPrefix data = false
  | OpProposeBatch data => k_last c + Z.of_nat (length data) + 1 < 2 ^ 64 /\ Forall (fun d => hasMembershipPrefix d = false) data
  | OpProposeMembership voters => k_last c + 3 < 2 ^ 64 /\ Forall (fun id => 0 <= id < 2 ^ 64) voters
  | _ => True
  end.

Lemma proposes_snd {A} inp (m : M Node (A * Update)) n (P : A * Update -> Node -> Prop) :
  proposes m n P -> (forall r n', P r n' -> performs inp n r.2 n') -> tries inp (r ← m; mret r.2) n.
Proof. intros H HP. apply runs_bind. eapply runs_mono; [exact H| |done|done]. intros r n' Hr. by apply HP. Qed.

(** Every operation performs protocol actions or fails and leaves the node alone. *)
Lemma run_op_spec op n : wf (core n) -> op_ok op (core n) -> tries (op_input op) (run_op op) n.
Proof.
  intros Hw [Hroom Hop]. pose proof Hroom as [Hr1 Hr2]. destruct op; simpl in *.
  - apply (proposes_does _ _ (performs _ n)). by apply Tick_spec.
  - apply (proposes_does _ _ (performs _ n)). by apply Step_spec; destruct Hop.
  - eapply proposes_snd; [apply (runs_Propose Quiet); [done|lia|done]|]. naive_solver.
  - eapply proposes_snd; [by apply (ProposeBatch_spec Quiet); destruct Hop|]. naive_solver.
  - eapply proposes_snd; [by apply ProposeMembership_spec; destruct Hop|]. naive_solver.
  - eapply runs_mono; [by apply (ReadProbe_spec Quiet)| |done|done]. naive_solver.
  - apply CreateSnapshot_spec; [done|lia].
  - apply Compact_spec; [done|lia].
Qed.

(** ** What never goes back *)

(** The entry at an index, if the log still holds it. *)
Definition entry_at (c : Core) (i : Z) : option Entry :=
  if i <=? s_index (k_snap c) then None else k_log c !! Z.to_nat (i - s_index (k_snap c) - 1).

Record advances (c c' : Core) : Prop := {
  av_id : k_id c' = k_id c;
  av_term : k_term c <= k_term c';
  av_vote : k_term c' = k_term c -> k_voted c <> 0 -> k_voted c' = k_voted c;
  av_commit : k_commit c <= k_commit c';
  av_snap : s_index (k_snap c) <= s_index (k_snap c');
  av_entries : forall i, s_index (k_snap c') < i <= k_commit c -> entry_at c' i = entry_at c i
}.

Lemma advances_refl c : advances c c.
Proof. by constructor. Qed.

Lemma advances_trans c c' c'' : advances c c' -> advances c' c'' -> advances c c''.
Proof.
  intros [I T V C S E] [I' T' V' C' S' E']. constructor; try lia.
  intros i Hi. rewrite E' by lia. apply E. lia.
Qed.

Lemma acts_config inp c ms c' : acts inp c ms c' -> k_id c' = k_id c /\ k_init c' = k_init c.
Proof. induction 1 as [c|c ms c' ms' c'' Ha H [-> ->]]; [done|]. by inv Ha. Qed.

(** Reading an entry the log kept. *)
Lemma entry_at_same c c' i : k_snap c' = k_snap c -> s_index (k_snap c) < i -> (exists k l, k_log c' = take k (k_log c) ++ l /\
  i <= s_index (k_snap c) + Z.of_nat k /\ (k <= length (k_log c))%nat) -> entry_at c' i = entry_at c i.
Proof.
  intros Es Hi (k & l & El & Hk & Hlen). unfold entry_at. rewrite Es, El. rewrite (proj2 (Z.leb_gt _ _)) by lia.
  rewrite lookup_app_l by (rewrite length_take; lia). by rewrite lookup_take_lt by lia.
Qed.

Lemma entry_at_install s m c i : s_index (k_snap c) <= s_index s -> s_index s < i <= k_commit c -> k_commit c <= k_last c ->
  k_termAt c (s_index s) = s_term s -> entry_at (install s m c) i = entry_at c i.
Proof.
  intros Hs Hi Hc Ht. unfold entry_at, install, suffix; ksimpl. rewrite !(proj2 (Z.leb_gt _ _)) by lia.
  rewrite (proj2 (Z.ltb_lt _ _)), Ht, Z.eqb_refl by lia. cbn [andb]. rewrite lookup_drop. f_equal. lia.
Qed.

Lemma act_advances inp c ms c' : wf c -> act inp c ms c' -> advances c c'.
Proof.
  intros Hw H. pose proof (wf_commit _ Hw) as Hc. pose proof (wf_snap _ Hw) as [Hs _].
  assert (forall c'' l i, k_snap c'' = k_snap c -> k_log c'' = k_log c ++ l -> s_index (k_snap c) < i <= k_commit c ->
    entry_at c'' i = entry_at c i) as Happ.
  { intros c'' l i Es El Hi. apply entry_at_same; [done|lia|]. exists (length (k_log c)), l. rewrite firstn_all. unfold k_last in *.
    split_and!; [done|lia|lia]. }
  inv H; (constructor; [done|simpl; try lia|simpl; try done; try lia|simpl; try lia|simpl; try lia|]); try done.
  - intros i Hi. by eapply Happ.
  - intros i Hi. by eapply Happ.
  - simpl. intros i Hi. apply entry_at_same; [done|lia|]. exists keep, rest. unfold k_last in *. split_and!; [done|lia|lia].
  - destruct H5 as [-> |[_ ->]]; simpl; lia.
  - assert (s_index s' = s_index s /\ s_term s' = s_term s) as [Ei Et] by (by destruct H5 as [-> |[_ ->]]).
    intros i Hi; simpl in Hi. apply entry_at_install; try lia. rewrite Ei, Et. apply H10. lia.
  - intros i Hi; simpl in Hi. apply entry_at_install; [lia|lia|lia|done].
Qed.

Lemma acts_advances inp c ms c' : wf c -> acts inp c ms c' -> advances c c'.
Proof.
  intros Hw H. induction H as [c|c ms c' ms' c'' Ha H IH]; [apply advances_refl|].
  eapply advances_trans; [by eapply act_advances|]. apply IH. by eapply act_wf.
Qed.

Lemma filter_ext_in {A} (P Q : A -> Prop) `{!forall x, Decision (P x), !forall x, Decision (Q x)} (l : list A) :
  Forall (fun x => P x <-> Q x) l -> filter P l = filter Q l.
Proof. induction 1 as [|x l Hx _ IH]; [done|]. rewrite !filter_cons, IH. destruct (decide (P x)), (decide (Q x)); naive_solver. Qed.

(** The entries between two indexes are numbered without gaps. *)
(** The log starts after the snapshot. *)
Lemma between_max lo hi c : wf c -> between lo hi c = between (Z.max lo (s_index (k_snap c))) hi c.
Proof. intros Hw. apply filter_ext_in, Forall_lookup. intros i e Hi. destruct (wf_log _ Hw i e Hi) as [-> _]. lia. Qed.

Lemma between_indexes lo hi c : wf c -> hi <= k_last c ->
  let lo' := Z.max lo (s_index (k_snap c)) in e_index <$> between lo hi c = seqZ (lo' + 1) (hi - lo').
Proof.
  intros Hw Hhi lo'. pose proof (wf_log _ Hw) as Hl.
  rewrite between_max by done. fold lo'.
  destruct (decide (hi < lo')) as [Hlt|].
  { rewrite seqZ_nil by lia. unfold between. rewrite filter_Forall_none; [done|]. apply Forall_forall. lia. }
  rewrite between_slice by (done || lia). apply list_eq. intros i. unfold slice, k_last in *.
  rewrite list_lookup_fmap. destruct (decide (Z.of_nat i < hi - lo')) as [Hi|Hi].
  - rewrite lookup_seqZ_lt by lia. rewrite lookup_take_lt, lookup_drop by lia.
    destruct (k_log c !! (Z.to_nat (lo' - s_index (k_snap c)) + i)%nat) as [e|] eqn:E.
    + simpl. destruct (Hl _ _ E) as [-> _]. f_equal. lia.
    + apply lookup_ge_None in E. lia.
  - rewrite lookup_seqZ_ge by lia. rewrite lookup_take_ge by lia. done.
Qed.

Lemma run_op_performs op n u n' : wf (core n) -> op_ok op (core n) -> run_op op n = (Ok u, n') ->
  performs (op_input op) n u n' /\ wf (core n').
Proof.
  intros Hw Hop Hrun. pose proof (run_op_spec op n Hw Hop) as H. unfold tries, runs in H. rewrite Hrun in H.
  split; [done|]. by eapply performs_wf.
Qed.

Lemma between_entry_at lo hi c e : wf c -> e ∈ between lo hi c -> lo < e_index e <= hi /\ entry_at c (e_index e) = Some e.
Proof.
  intros Hw [Hr Hin]%list_elem_of_filter. split; [done|]. apply list_elem_of_lookup in Hin as [i Hi].
  destruct (wf_log _ Hw _ _ Hi) as [E _]. unfold entry_at. rewrite (proj2 (Z.leb_gt _ _)) by lia. rewrite <- Hi. f_equal. lia.
Qed.

(** ** The promises *)

(** C7: Every operation of a node (Tick, Step, Propose, ProposeBatch,
    ProposeMembership, ReadProbe, CreateSnapshot, Compact) keeps the node well-formed,
    never panics, and when it returns an error leaves the node exactly as it was. *)
Theorem operations_preserve_wf op n : wf (core n) -> op_ok op (core n) ->
  match run_op op n with
  | (Ok _, n') => wf (core n')
  | (Err _, n') => n' = n
  | _ => False
  end.
Proof.
  intros Hw Hop. pose proof (run_op_spec op n Hw Hop) as H. unfold tries, runs in H.
  destruct (run_op op n) as [[u|e| |] n']; try done. by eapply performs_wf.
Qed.

(** An operation's Update tells the stable store everything: applying its hard
    state, snapshot, truncation and entries to the old durable state gives the new one,
    and New on what the store then holds rebuilds the node as a follower with the same
    identity, term, vote, snapshot, log and membership. *)
Theorem restart_recovers op n u n' cf : wf (core n) -> op_ok op (core n) -> run_op op n = (Ok u, n') ->
  validate cf = None -> c_ID cf = c_ID (cfg n) -> normalizeVoters (c_Peers cf) = Ok (Voters (initialMembership n)) ->
  s_index (snapshot n') <= c_AppliedIndex cf <= k_last (core n') ->
  let d := persist u (dur (core n)) in
  d = dur (core n') /\
  exists r, New cf (d_hard d) (d_log d) [d_snap d] = Ok r /\ core r = restarted (c_AppliedIndex cf) (core n').
Proof.
  intros Hw Hop Hrun Hv Hid Hp Ha. destruct (run_op_performs _ _ _ _ Hw Hop Hrun) as [[Hacts Hdur _] Hw'].
  cbv zeta. rewrite <- Hdur. split; [done|].
  destruct (acts_config _ _ _ _ Hacts) as [Ei Em]. apply New_spec; try done; simpl.
  - rewrite Hid. symmetry. exact Ei.
  - by rewrite Hp, (Em : initialMembership n' = initialMembership n).
Qed.

(** C18: An operation hands the newly committed entries to the application exactly
    once and in order: their indexes are consecutive from the old commit index (or the
    snapshot just installed) to the new one, and each is the log's entry at its index. *)
Theorem commits_delivered_in_order op n u n' : wf (core n) -> op_ok op (core n) -> run_op op n = (Ok u, n') ->
  let lo := Z.max (commit n) (s_index (snapshot n')) in
  e_index <$> u_committed u = seqZ (lo + 1) (commit n' - lo) /\
  Forall (fun e => entry_at (core n') (e_index e) = Some e) (u_committed u).
Proof.
  intros Hw Hop Hrun. destruct (run_op_performs _ _ _ _ Hw Hop Hrun) as [[_ _ ->] Hw'].
  split; [apply between_indexes; [done|]; apply (wf_commit _ Hw')|].
  apply Forall_forall. intros e He. by apply (between_entry_at _ _ _ _ Hw') in He as [_ ?].
Qed.

(** C19: A node never goes back: its term, commit index and snapshot index never
    decrease, within a term it never changes its vote, and no entry at or below the
    commit index ever changes. *)
Theorem node_never_goes_back op n u n' : wf (core n) -> op_ok op (core n) -> run_op op n = (Ok u, n') ->
  advances (core n) (core n').
Proof.
  intros Hw Hop Hrun. destruct (run_op_performs _ _ _ _ Hw Hop Hrun) as [[Hacts _ _] _]. by eapply acts_advances.
Qed.

(** ** Examples *)

(** A cluster of one: the node elects itself when its first election timeout passes. *)
Definition solo : Config := mkConfig 1 [1] 10 20 2 10 7 0 0 0.

Definition boot (cf : Config) : Node :=
  match New cf (mkHard 0 0) [] [] with
  | Ok n => n
  | _ => mkNode cf Follower 0 0 0 zeroSnapshot [] 0 (mkMembership [] [] 0) (mkMembership [] [] 0) 0 0 0 0 0 ∅ ∅ ∅ ∅ None None 0 0
  end.

Definition solo_leader : Node := Nat.iter 20 (fun n => (Tick n).2) (boot solo).

Definition solo_core : Core :=
  let m := mkMembership [1] [] 0 in
  mkCore 1 m Leader 1 1 zeroSnapshot [mkEntry 1 1 []] 1 m {[1 := true]} {[1 := 2]} {[1 := 1]} true.

Lemma solo_leader_core : core solo_leader = solo_core.
Proof. vm_compute. reflexivity. Qed.

Lemma solo_voters_ok : voters_ok [1].
Proof. repeat constructor; done. Qed.

Lemma solo_wf : wf solo_core.
Proof.
  assert (memb_ok (mkMembership [1] [] 0)) as Hm by (split; [apply solo_voters_ok|by left]).
  assert (forall v p, 0 <= v -> 0 <= at0 {[1 := v]} p <= v) as Hat.
  { intros v p Hv. unfold at0. destruct (decide (p = 1)) as [->|]; [rewrite lookup_singleton_eq|rewrite lookup_singleton_ne by done]; simpl; lia. }
  constructor; try done.
  - intros [|i] e; simpl; intros [= <-]. simpl. lia.
  - repeat constructor. simpl. lia.
  - intros _ p. apply (Hat 1). lia.
  - intros _ p. apply (Hat 2). lia.
Qed.

Lemma solo_leader_wf : wf (core solo_leader).
Proof. rewrite solo_leader_core. apply solo_wf. Qed.

Definition one_command : NodeOp := OpPropose [Byte.x61].

Lemma one_command_ok : op_ok one_command (core solo_leader).
Proof. rewrite solo_leader_core. by vm_compute. Qed.

Definition one_result : Update * Node :=
  match run_op one_command solo_leader with (Ok u, n') => (u, n') | (_, n') => (noUpdate, n') end.

Lemma one_command_runs : run_op one_command solo_leader = (Ok one_result.1, one_result.2).
Proof. vm_compute. reflexivity. Qed.

Lemma operations_preserve_wf_witness : wf (core one_result.2).
Proof.
  pose proof (operations_preserve_wf one_command solo_leader solo_leader_wf one_command_ok) as H.
  rewrite one_command_runs in H. exact H.
Defined.

Lemma restart_recovers_witness : exists r,
  let d := persist one_result.1 (dur (core solo_leader)) in
  New solo (d_hard d) (d_log d) [d_snap d] = Ok r /\ core r = restarted 0 (core one_result.2).
Proof.
  refine (proj2 (restart_recovers one_command solo_leader one_result.1 one_result.2 solo solo_leader_wf one_command_ok
    one_command_runs _ _ _ _)); try (vm_compute; reflexivity). by vm_compute.
Defined.

Lemma commits_delivered_in_order_witness :
  e_index <$> u_committed one_result.1 = seqZ 2 1 /\ map e_data (u_committed one_result.1) = [[Byte.x61]].
Proof.
  split; [|vm_compute; reflexivity].
  exact (proj1 (commits_delivered_in_order one_command solo_leader one_result.1 one_result.2 solo_leader_wf one_command_ok
    one_command_runs)).
Defined.

Lemma node_never_goes_back_witness : commit solo_leader = 1 /\ commit one_result.2 = 2 /\
  entry_at (core one_result.2) 1 = entry_at (core solo_leader) 1.
Proof.
  split; [vm_compute; reflexivity|split; [vm_compute; reflexivity|]].
  apply (av_entries _ _ (node_never_goes_back one_command solo_leader one_result.1 one_result.2 solo_leader_wf one_command_ok
    one_command_runs)). by vm_compute.
Defined.

(** ** Bounds *)

(** The accounted size of entries. *)
Definition total_size (l : list Entry) : Z :=
  foldr (fun e n => Z.of_nat (length (e_data e)) + EntryOverheadBytes + n) 0 l.

Definition append_limit (n : Node) : Z :=
  if c_maxAppendBytes (cfg n) =? 0 then defaultMaxAppendBytes else c_maxAppendBytes (cfg n).

Lemma total_size_nonneg l : 0 <= total_size l.
Proof. induction l as [|e l IH]; simpl; [done|]. unfold EntryOverheadBytes. lia. Qed.

Lemma total_size_cons e l : total_size (e :: l) = Z.of_nat (length (e_data e)) + 32 + total_size l.
Proof. done. Qed.

(** After the first entry, cappedEntries takes entries as long as they fit. *)
Lemma capped_to_greedy limit from l : forall to size, from < to -> 0 <= from -> 0 <= size <= 2 ^ 63 -> limit <= 2 ^ 62 ->
  Forall (fun e => Z.of_nat (length (e_data e)) <= 2 ^ 62) l -> to + Z.of_nat (length l) < 2 ^ 64 ->
  exists k, capped_to limit from to size l = to + Z.of_nat k /\ (k <= length l)%nat /\
    (k = O \/ size + total_size (take k l) <= limit) /\ (k = length l \/ limit < size + total_size (take (S k) l)).
Proof.
  induction l as [|e l IH]; intros to size Hft Hf Hs Hlim HF Hto; cbn [capped_to length].
  { exists O. split_and!; [lia|done|by left|by left]. }
  apply Forall_cons in HF as [He HF]. simpl in Hto. unfold EntryOverheadBytes. cbv zeta.
  rewrite (proj2 (Z.ltb_lt _ _)) by done. rewrite (u64_small (Z.of_nat _ + 32)), !u64_small by lia. cbn [andb].
  destruct (Z.ltb_spec limit (size + (Z.of_nat (length (e_data e)) + 32))) as [Hgt|Hle].
  - exists O. split_and!; [lia|lia|by left|]. right. rewrite firstn_cons, total_size_cons, take_0. simpl. lia.
  - destruct (IH (to + 1) (size + (Z.of_nat (length (e_data e)) + 32))) as (k & E & Hk & Hfit & Hmax); try done; try lia.
    exists (S k). rewrite ?firstn_cons, !total_size_cons. split_and!; [lia|lia|right|].
    + destruct Hfit as [-> |Hfit]; [rewrite take_0; simpl|]; lia.
    + destruct Hmax as [-> |Hmax]; [by left|right]. lia.
Qed.

(** CappedEntries ships the longest run of entries from [from] whose accounted
    size fits the configured limit, and always at least one entry. *)
Theorem cappedEntries_bounds n from : wf (core n) -> k_last (core n) + 1 < 2 ^ 64 ->
  s_index (snapshot n) < from <= k_last (core n) -> append_limit n <= 2 ^ 62 ->
  Forall (fun e => Z.of_nat (length (e_data e)) <= 2 ^ 62) (log n) ->
  let l := drop (Z.to_nat (from - s_index (snapshot n) - 1)) (log n) in
  exists k, cappedEntries n from = take k l /\ (1 <= k <= length l)%nat /\
    (k = 1%nat \/ total_size (take k l) <= append_limit n) /\ (k = length l \/ append_limit n < total_size (take (S k) l)).
Proof.
  intros Hw Hroom Hfrom Hlim HF l. pose proof (wf_snap _ Hw) as [Hs _]. simpl in Hs.
  assert (k_last (core n) = s_index (snapshot n) + Z.of_nat (length (log n))) as El by done.
  assert (Z.of_nat (length l) = k_last (core n) - from + 1) as Hlen by (unfold l; rewrite length_drop; lia).
  apply (Forall_drop _ (Z.to_nat (from - s_index (snapshot n) - 1))) in HF. fold l in HF.
  unfold cappedEntries. rewrite lastIndex_core by done. rewrite (proj2 (Z.leb_gt _ _)), (proj2 (Z.ltb_ge _ _)) by lia. cbn [orb].
  fold (append_limit n) l. destruct l as [|e l'] eqn:Hl; [simpl in Hlen; lia|]. rewrite <- Hl in *.
  destruct (capped_to_greedy (append_limit n) from l' (from + 1) (Z.of_nat (length (e_data e)) + 32)) as (k & E & Hk & Hfit & Hmax);
    try lia; try (rewrite Hl in HF; by inv HF); [rewrite Hl in HF; inv HF; lia|rewrite Hl in Hlen; simpl in Hlen; lia|].
  assert (capped_to (append_limit n) from from 0 l = from + 1 + Z.of_nat k) as Ec.
  { rewrite Hl. cbn [capped_to]. rewrite Z.ltb_irrefl. cbn [andb]. unfold EntryOverheadBytes. rewrite Hl in HF. inv HF.
    rewrite Z.add_0_l, (u64_small (Z.of_nat _ + 32)), !u64_small by lia; exact E. }
  cbv zeta. rewrite Ec. exists (S k). assert (length l = S (length l')) as Hl' by (by rewrite Hl).
  rewrite entriesBetween_slice by (done || lia). split_and!.
  - unfold slice, l. f_equal. lia.
  - lia.
  - lia.
  - destruct Hfit as [-> |Hfit]; [by left|right]. rewrite Hl, firstn_cons, total_size_cons. lia.
  - destruct Hmax as [-> |Hmax]; [by left|right]. rewrite Hl, firstn_cons, total_size_cons. lia.
Qed.

Lemma solo_log_small : Forall (fun e => Z.of_nat (length (e_data e)) <= 2 ^ 62) (log solo_leader).
Proof.
  assert (forall n, core n = solo_core -> log n = [mkEntry 1 1 []]) as E by (intros n Hn; exact (f_equal k_log Hn)).
  rewrite (E solo_leader solo_leader_core).
  constructor; [simpl; lia|constructor].
Qed.

Lemma cappedEntries_bounds_witness : exists k,
  cappedEntries solo_leader 1 = take k (drop (Z.to_nat (1 - s_index (snapshot solo_leader) - 1)) (log solo_leader)) /\ (1 <= k)%nat.
Proof.
  assert (k_last (core solo_leader) = 1 /\ s_index (snapshot solo_leader) = 0 /\ append_limit solo_leader = 2 ^ 20) as (E1 & E2 & E3)
    by (vm_compute; auto).
  destruct (cappedEntries_bounds solo_leader 1 solo_leader_wf) as (k & E & Hk & _); [lia|lia|lia|exact solo_log_small|].
  exists k. split; [exact E|lia].
Defined.

Lemma reset_eq n : (resetElectionTimer n).2 =
  with_electionTimeout
    (s64 (c_ElectionTickMin (cfg n) + s64 (next_random (random n) mod u64 (c_ElectionTickMax (cfg n) - c_ElectionTickMin (cfg n)))))
    (with_random (next_random (random n)) (with_electionElapsed 0 n)).
Proof. reflexivity. Qed.

(** A new election timeout is at least ElectionTickMin and below ElectionTickMax
    for every configuration New accepts and every state of the random generator. *)
Lemma reset_timeout n : validate (cfg n) = None -> c_ElectionTickMax (cfg n) < 2 ^ 63 ->
  let n' := (resetElectionTimer n).2 in
  c_ElectionTickMin (cfg n) <= electionTimeout n' < c_ElectionTickMax (cfg n) /\ electionElapsed n' = 0.
Proof.
  intros Hv Hmax. assert (0 < c_ElectionTickMin (cfg n) < c_ElectionTickMax (cfg n)) as Hr.
  { unfold validate in Hv. repeat case_match; simplify_eq. bool_hyps. lia. }
  cbv zeta. rewrite reset_eq. generalize (next_random (random n)). intros r. nsimpl. split; [|reflexivity].
  rewrite (u64_small (c_ElectionTickMax _ - _)) by lia.
  pose proof (Z.mod_pos_bound r (c_ElectionTickMax (cfg n) - c_ElectionTickMin (cfg n)) ltac:(lia)) as Hm.
  rewrite (s64_small (_ mod _)) by lia. rewrite s64_small; lia.
Qed.

(** ** Silence *)

Definition trio : Config := mkConfig 1 [1; 2; 3] 10 20 2 10 7 0 0 0.

Definition ticks (k : nat) (n : Node) : Node := Nat.iter k (fun n => (Tick n).2) n.

(** A voter that does not lead only counts until its election timeout. *)
Lemma tick_waits n : role n <> Leader -> isVoter n (c_ID (cfg n)) = true -> 0 <= electionElapsed n -> electionTimeout n < 2 ^ 63 ->
  electionElapsed n + 1 < electionTimeout n -> Tick n = (Ok noUpdate, with_electionElapsed (electionElapsed n + 1) n).
Proof.
  intros Hr Hv H0 Hm Hlt. unfold Tick, mbind, M_bind, get, gets, id. rewrite bool_decide_false by done. rewrite Hv. cbn [negb].
  unfold modify. rewrite s64_small by lia. cbn [electionTimeout electionElapsed with_electionElapsed].
  by rewrite (proj2 (Z.leb_gt _ _)) by done.
Qed.

Lemma ticks_wait k n : role n <> Leader -> isVoter n (c_ID (cfg n)) = true -> 0 <= electionElapsed n -> electionTimeout n < 2 ^ 63 ->
  electionElapsed n + Z.of_nat k < electionTimeout n -> ticks k n = with_electionElapsed (electionElapsed n + Z.of_nat k) n.
Proof.
  intros Hr Hv H0 Hm. induction k as [|k IH]; intros Hlt.
  - rewrite Z.add_0_r. by destruct n.
  - rewrite Nat2Z.inj_succ in *. change (ticks (S k) n) with (Tick (ticks k n)).2. rewrite IH by lia.
    rewrite tick_waits; [|done|done|cbn; lia|done|cbn; lia]. cbn [snd electionElapsed with_electionElapsed].
    rewrite <- Z.add_assoc, Z.add_1_r. reflexivity.
Qed.

Lemma reset_timer_ok n : resetElectionTimer n = (Ok tt, (resetElectionTimer n).2).
Proof. reflexivity. Qed.

(** C26: a voter that hears nothing campaigns. A node that does not lead, votes, and needs
    others for a quorum counts its ticks without any other effect until its election
    timeout, which is below ElectionTickMax; at that tick it becomes a pre-candidate, asks
    every other voter for a pre-vote of the next term, and starts a new timeout within
    the configured bounds. *)
Theorem silent_voter_campaigns n : validate (cfg n) = None -> c_ElectionTickMax (cfg n) < 2 ^ 63 ->
  role n <> Leader -> isVoter n (c_ID (cfg n)) = true -> HasQuorum n {[c_ID (cfg n)]} = false ->
  0 <= electionElapsed n < electionTimeout n -> electionTimeout n < c_ElectionTickMax (cfg n) ->
  exists k, Z.of_nat k < c_ElectionTickMax (cfg n) /\
  (forall j, (j < k)%nat -> (Tick (ticks j n)).1 = Ok noUpdate) /\
  exists u n', Tick (ticks k n) = (Ok u, n') /\ role n' = PreCandidate /\
    u_messages u = campaign_messages MsgPreVote (u64 (term n + 1)) n /\
    c_ElectionTickMin (cfg n) <= electionTimeout n' < c_ElectionTickMax (cfg n) /\ electionElapsed n' = 0.
Proof.
  intros Hval Hmax Hr Hv Hq H0 Ht. set (k := Z.to_nat (electionTimeout n - electionElapsed n - 1)). exists k. split; [lia|]. split.
  - intros j Hj. rewrite ticks_wait by (done || lia). rewrite tick_waits; [done|done|done|cbn; lia|cbn; lia|cbn; lia].
  - rewrite ticks_wait by (done || lia). set (n1 := with_electionElapsed _ n).
    unfold Tick, mbind, M_bind, get, gets, id. rewrite bool_decide_false by done. change (isVoter n1 _) with (isVoter n (c_ID (cfg n))). rewrite Hv.
    cbn [negb]. unfold modify. cbn [electionTimeout electionElapsed with_electionElapsed n1]. rewrite s64_small by lia.
    rewrite (proj2 (Z.leb_le _ _)) by lia. set (n2 := with_electionElapsed _ _). unfold startPreVote, mbind, M_bind, get, gets, id, modify.
    set (n3 := with_votes _ _). destruct (reset_timeout n3 Hval Hmax) as [Hto He]. rewrite (reset_timer_ok n3).
    set (n4 := (resetElectionTimer n3).2) in *. change (HasQuorum n4 _) with (HasQuorum n {[c_ID (cfg n)]}). rewrite Hq.
    eexists _, n4. split; [reflexivity|]. split_and!; [done|done|apply Hto|apply Hto|done].
Qed.

Lemma silent_voter_campaigns_witness : let n := boot trio in exists k, Z.of_nat k < 20 /\
  (forall j, (j < k)%nat -> (Tick (ticks j n)).1 = Ok noUpdate) /\
  exists u n', Tick (ticks k n) = (Ok u, n') /\ role n' = PreCandidate /\
    u_messages u = campaign_messages MsgPreVote (u64 (term n + 1)) n /\ 10 <= electionTimeout n' < 20 /\ electionElapsed n' = 0.
Proof. refine (silent_voter_campaigns (boot trio) _ _ _ _ _ _ _); by vm_compute. Defined.

End Api.
