(* ===== verification/RaftInv.v ===== *)
(** * Why a cluster of nodes agrees

    The invariant of a cluster whose voters are fixed, and that every protocol action
    of every node preserves it. The invariant is stated with history the nodes do not
    keep: the whole log of each node (also the part a snapshot replaced), the log of the
    leader of each term, the log of each voter when it voted, and what each node has
    acknowledged in each term. *)

From S2P Require Import Prelude GoStd Fs Json Membership RaftTypes RaftNode RaftCore.

Module Inv.
Import Membership Raft Node Core.

(** ** Logs as lists that start at index 1 *)

(** The term of the entry at an index; 0 where there is none. *)
Definition tm (l : list Entry) (i : Z) : Z :=
  if i <=? 0 then 0 else match l !! Z.to_nat (i - 1) with Some e => e_term e | None => 0 end.

Definition lastTerm (l : list Entry) : Z := tm l (Z.of_nat (length l)).

Definition plain_entry (e : Entry) : Prop := hasMembershipPrefix (e_data e) = false.

(** A log: numbered from 1, terms positive, at most [t] and never falling. *)
Record good (t : Z) (l : list Entry) : Prop := {
  good_log : log_ok 0 t l;
  good_terms : StronglySorted Z.le (e_term <$> l);
  good_plain : Forall plain_entry l
}.

Lemma tm_nat l k e : l !! k = Some e -> tm l (Z.of_nat k + 1) = e_term e.
Proof.
  intros H. unfold tm. rewrite (proj2 (Z.leb_gt _ _)) by lia. replace (Z.to_nat _) with k by lia. by rewrite H.
Qed.

Lemma tm_pos l i : tm l i <> 0 -> 0 < i <= Z.of_nat (length l) /\ exists e, l !! Z.to_nat (i - 1) = Some e /\ e_term e = tm l i.
Proof.
  unfold tm. destruct (Z.leb_spec i 0) as [|Hi]; [done|]. destruct (l !! Z.to_nat (i - 1)) as [e|] eqn:E; [|done].
  intros _. apply lookup_lt_Some in E as Hlt. split; [lia|]. by exists e.
Qed.

Lemma tm_prefix l l' i : l `prefix_of` l' -> i <= Z.of_nat (length l) -> tm l' i = tm l i.
Proof.
  intros [k ->] Hi. unfold tm. destruct (Z.leb_spec i 0); [done|]. by rewrite lookup_app_l by lia.
Qed.

Lemma good_mono t t' l : good t l -> t <= t' -> good t' l.
Proof. intros [] ?. constructor; [|done|done]. by eapply log_ok_mono. Qed.

Lemma good_nil t : good t [].
Proof. constructor; [apply log_ok_nil|constructor|constructor]. Qed.

Lemma good_prefix t l l' : good t l' -> l `prefix_of` l' -> good t l.
Proof.
  intros [H1 H2 H3] [k ->]. rewrite fmap_app in H2. apply StronglySorted_app in H2 as (_ & H2 & _).
  apply Forall_app in H3 as [H3 _]. constructor; [|done|done]. intros i e Hi. apply H1. by apply lookup_app_l_Some.
Qed.

(** Terms never fall along a log. *)
Lemma good_tm_le t l i j : good t l -> i <= j <= Z.of_nat (length l) -> tm l i <= tm l j.
Proof.
  intros [Hl Hs _] Hij. unfold tm at 1. destruct (Z.leb_spec i 0) as [Hi|Hi].
  { unfold tm. destruct (Z.leb_spec j 0); [done|]. destruct (l !! _) as [e|] eqn:E; [|done]. destruct (Hl _ _ E). lia. }
  destruct (l !! Z.to_nat (i - 1)) as [e|] eqn:E; [|apply lookup_ge_None in E; lia].
  destruct (lookup_lt_is_Some_2 l (Z.to_nat (j - 1))) as [e' E']; [lia|].
  replace j with (Z.of_nat (Z.to_nat (j - 1)) + 1) by lia. rewrite (tm_nat _ _ _ E').
  destruct (decide (i = j)) as [->|]; [by simplify_eq|].
  eapply (sorted_lookup Z.le (e_term <$> l) (Z.to_nat (i - 1)) (Z.to_nat (j - 1))); [done| | |lia];
    rewrite list_lookup_fmap; [by rewrite E|by rewrite E'].
Qed.

Lemma good_tm_bound t l i : good t l -> 0 <= t -> 0 <= tm l i <= t.
Proof.
  intros [Hl _ _] Ht. unfold tm. destruct (_ <=? _); [lia|]. destruct (l !! _) as [e|] eqn:E; [|lia]. destruct (Hl _ _ E). lia.
Qed.

Lemma lastTerm_0 t l : good t l -> lastTerm l = 0 -> l = [].
Proof.
  intros [Hl _ _] H. destruct l as [|e l] using rev_ind; [done|]. exfalso. unfold lastTerm in H.
  rewrite length_app in H. simpl in H. replace (Z.of_nat (length l + 1)) with (Z.of_nat (length l) + 1) in H by lia.
  rewrite (tm_nat _ _ e) in H by (by rewrite lookup_app_r, Nat.sub_diag by lia).
  destruct (Hl (length l) e); [by rewrite lookup_app_r, Nat.sub_diag by lia|]. lia.
Qed.

(** Two prefixes of one list are comparable. *)
Lemma prefix_same {A} (l l1 l2 : list A) : l1 `prefix_of` l -> l2 `prefix_of` l -> (length l1 <= length l2)%nat -> l1 `prefix_of` l2.
Proof.
  intros H1 H2 Hlen. destruct (prefix_weak_total l1 l2 l H1 H2) as [|H]; [done|].
  assert (l2 = l1) as ->; [|done]. apply prefix_length_eq; done.
Qed.

Lemma prefix_same_eq {A} (l l1 l2 : list A) : l1 `prefix_of` l -> l2 `prefix_of` l -> length l1 = length l2 -> l1 = l2.
Proof. intros H1 H2 Hlen. apply prefix_length_eq; [|lia]. eapply prefix_same; [exact H1|exact H2|lia]. Qed.

Lemma take_prefix {A} k (l : list A) : take k l `prefix_of` l.
Proof. exists (drop k l). by rewrite take_drop. Qed.

Lemma take_prefix_of {A} k (l l' : list A) : l `prefix_of` l' -> (k <= length l)%nat -> take k l' = take k l.
Proof. intros [r ->] Hk. by rewrite take_app_le by lia. Qed.

Lemma prefix_take {A} k (l l' : list A) : l `prefix_of` l' -> take k l `prefix_of` take k l'.
Proof. intros [r ->]. rewrite take_app. eexists. reflexivity. Qed.

(** ** History *)

Record Ghost := mkGhost {
  g_full : Z -> list Entry;                            (** the whole log of a node *)
  g_lead : Z -> option (Z * list Entry);               (** by term: its leader and the leader's log *)
  g_vote : Z -> Z -> option (Z * list Entry * bool);   (** by term and voter: the candidate, the voter's log
                                                           then, and whether the term had no leader yet *)
  g_ack : Z -> Z -> nat -> Prop                        (** by term and node: the length of the leader's log it has *)
}.

Section cluster.
Context (m0 : Membership).

(** Every entry comes with the log of the leader of its term up to it. *)
Definition matching (g : Ghost) (l : list Entry) : Prop :=
  forall k e, l !! k = Some e -> exists j lg, g_lead g (e_term e) = Some (j, lg) /\ take (S k) l `prefix_of` lg.

Definition quorum_acked (g : Ghost) (t : Z) (k : nat) : Prop :=
  exists f, hasQuorum m0 f = true /\ forall v, f v = true -> g_ack g t v k.

(** Committed by the leader of a term up to [t]: its quorum has an entry of its term. *)
Definition committed (g : Ghost) (t : Z) (l : list Entry) : Prop :=
  l = [] \/ exists t0 j lg k, t0 <= t /\ g_lead g t0 = Some (j, lg) /\ (0 < k <= length lg)%nat /\
    tm lg (Z.of_nat k) = t0 /\ quorum_acked g t0 k /\ l `prefix_of` take k lg.

(** A leader of a later term, below [hi], does not have [l]. *)
Definition lost (g : Ghost) (t hi : Z) (l : list Entry) : Prop :=
  exists t' j lg, t < t' < hi /\ g_lead g t' = Some (j, lg) /\ ~ l `prefix_of` lg.

(** The comparison of a vote. *)
Definition upToDate (cl vl : list Entry) : Prop :=
  lastTerm vl < lastTerm cl \/ (lastTerm vl = lastTerm cl /\ (length vl <= length cl)%nat).

(** A core keeps the end of a whole log. *)
Record rep (c : Core) (l : list Entry) : Prop := {
  rep_log : k_log c = drop (Z.to_nat (s_index (k_snap c))) l;
  rep_len : s_index (k_snap c) <= Z.of_nat (length l);
  rep_term : s_term (k_snap c) = tm l (s_index (k_snap c))
}.

Record node_ok (g : Ghost) (i : Z) (c : Core) : Prop := {
  n_id : k_id c = i;
  n_wf : wf c;
  n_memb : k_memb c = m0 /\ k_base c = m0 /\ k_init c = m0 /\ (0 < s_index (k_snap c) -> s_membership (k_snap c) = m0);
  n_rep : rep c (g_full g i);
  n_good : good (k_term c) (g_full g i);
  n_matching : matching g (g_full g i);
  n_commit : committed g (k_term c) (take (Z.to_nat (k_commit c)) (g_full g i));
  n_voted : k_voted c <> 0 -> exists l b, g_vote g (k_term c) i = Some (k_voted c, l, b);
  n_votes : forall t j l b, g_vote g t i = Some (j, l, b) -> t <= k_term c /\ (t = k_term c -> k_voted c = j);
  n_candidate : k_role c = Candidate ->
    (exists b, g_vote g (k_term c) i = Some (i, g_full g i, b)) /\
    (forall v, at_false (k_votes c) v = true -> exists l b, g_vote g (k_term c) v = Some (i, l, b)) /\
    (forall l, g_lead g (k_term c) <> Some (i, l));
  n_leader : k_role c = Leader ->
    g_lead g (k_term c) = Some (i, g_full g i) /\
    (forall p, 0 < at0 (k_match c) p -> g_ack g (k_term c) p (Z.to_nat (at0 (k_match c) p)))
}.

(** The leader of a term was elected by a quorum and only added to its log. *)
Record lead_ok (cs : gmap Z Core) (g : Ghost) (t j : Z) (lg : list Entry) : Prop := {
  l_node : exists c, cs !! j = Some c /\ t <= k_term c;
  l_good : good t lg;
  l_matching : matching g lg;
  l_votes : exists f, hasQuorum m0 f = true /\ forall v, f v = true -> exists vl, g_vote g t v = Some (j, vl, true);
  l_own : exists cl b, g_vote g t j = Some (j, cl, b) /\ cl `prefix_of` lg
}.

Record vote_ok (g : Ghost) (t v j : Z) (vl : list Entry) (b : bool) : Prop := {
  v_pos : 0 < j /\ 0 < t;
  v_good : good (t - 1) vl;
  v_matching : matching g vl;
  v_candidate : exists cl b', g_vote g t j = Some (j, cl, b') /\ upToDate cl vl;
  v_late : b = false -> g_lead g t <> None
}.

(** What was acknowledged stays, unless a leader of a later term lacks it. *)
Record ack_ok (cs : gmap Z Core) (g : Ghost) (t v : Z) (k : nat) : Prop := {
  a_down : forall k', (k' <= k)%nat -> g_ack g t v k';
  a_node : exists c j lg, cs !! v = Some c /\ t <= k_term c /\ g_lead g t = Some (j, lg) /\ (k <= length lg)%nat /\
    (take k lg `prefix_of` g_full g v \/ lost g t (k_term c + 1) (take k lg));
  a_votes : forall t' j' vl j lg, g_vote g t' v = Some (j', vl, true) -> t < t' -> g_lead g t = Some (j, lg) ->
    take k lg `prefix_of` vl \/ lost g t t' (take k lg)
}.

(** What a message in the network says. *)
Definition message_ok (g : Ghost) (m : Message) : Prop :=
  0 < m_from m /\
  match m_type m with
  | MsgPreVote | MsgPreVoteResponse => True
  | MsgVote => exists cl b, g_vote g (m_term m) (m_from m) = Some (m_from m, cl, b) /\
      m_logIndex m = Z.of_nat (length cl) /\ m_logTerm m = lastTerm cl
  | MsgVoteResponse => m_reject m = false -> exists vl b, g_vote g (m_term m) (m_from m) = Some (m_to m, vl, b)
  | MsgAppend => exists lg pre, g_lead g (m_term m) = Some (m_from m, lg) /\ Z.of_nat (length pre) = m_logIndex m /\
      lastTerm pre = m_logTerm m /\ pre ++ m_entries m `prefix_of` lg /\ m_leaderCommit m <= Z.of_nat (length lg) /\
      committed g (m_term m) (take (Z.to_nat (m_leaderCommit m)) lg)
  | MsgAppendResponse | MsgSnapshotResponse => m_reject m = false -> g_ack g (m_term m) (m_from m) (Z.to_nat (m_logIndex m))
  | MsgSnapshot => exists s lg, m_snapshot m = Some s /\ g_lead g (m_term m) = Some (m_from m, lg) /\
      0 <= s_index s /\ 0 <= s_term s <= m_term m /\
      (0 < s_index s -> s_membership s = m0 /\ exists pre, Z.of_nat (length pre) = s_index s /\ lastTerm pre = s_term s /\
         pre `prefix_of` lg /\ committed g (m_term m) pre)
  end.

Record Inv (cs : gmap Z Core) (net : list Message) (g : Ghost) : Prop := {
  i_nodes : forall i c, cs !! i = Some c -> node_ok g i c;
  i_leads : forall t j lg, g_lead g t = Some (j, lg) -> lead_ok cs g t j lg;
  i_votes : forall t v j vl b, g_vote g t v = Some (j, vl, b) -> vote_ok g t v j vl b;
  i_acks : forall t v k, g_ack g t v k -> ack_ok cs g t v k;
  i_net : Forall (message_ok g) net
}.
(** ** Consequences of the invariant *)

Lemma rep_last c l : rep c l -> wf c -> k_last c = Z.of_nat (length l).
Proof. intros [E L _] Hw. destruct (wf_snap _ Hw) as [Hs _]. unfold k_last. rewrite E, length_drop. lia. Qed.

Lemma rep_termAt c l i : rep c l -> wf c -> s_index (k_snap c) <= i -> k_termAt c i = tm l i.
Proof.
  intros [E L T] Hw Hi. destruct (wf_snap _ Hw) as [Hs _]. unfold k_termAt. destruct (Z.leb_spec i (s_index (k_snap c))) as [H|H].
  - assert (i = s_index (k_snap c)) as -> by lia. by rewrite Z.eqb_refl.
  - unfold tm. rewrite (proj2 (Z.leb_gt _ _)) by lia. rewrite E, lookup_drop. 
    by replace (Z.to_nat (s_index (k_snap c)) + Z.to_nat (i - s_index (k_snap c) - 1))%nat with (Z.to_nat (i - 1)) by lia.
Qed.

Lemma rep_holds c l i t : rep c l -> wf c -> holds c i t -> t <> 0 -> tm l i = t.
Proof.
  intros Hr Hw [Hi Ht] Hne. rewrite <- Ht. symmetry. apply rep_termAt; [done|done|].
  rewrite <- Ht in Hne. by apply k_termAt_pos in Hne as [? _].
Qed.

Lemma matching_tm g l i : matching g l -> tm l i <> 0 ->
  exists j lg, g_lead g (tm l i) = Some (j, lg) /\ take (Z.to_nat i) l `prefix_of` lg.
Proof.
  intros Hm Hne. destruct (tm_pos _ _ Hne) as (Hi & e & He & Et). destruct (Hm _ _ He) as (j & lg & Hl & Hp).
  exists j, lg. rewrite <- Et. split; [done|]. by replace (Z.to_nat i) with (S (Z.to_nat (i - 1))) by lia.
Qed.

Lemma matching_prefix g l l' : matching g l' -> l `prefix_of` l' -> matching g l.
Proof.
  intros Hm Hp k e Hk. pose proof (prefix_lookup_Some _ _ _ _ Hk Hp) as Hk'. destruct (Hm _ _ Hk') as (j & lg & Hl & Hlg).
  exists j, lg. split; [done|]. apply lookup_lt_Some in Hk. by rewrite <- (take_prefix_of (S k) l l') by (done || lia).
Qed.

(** Log matching: logs with an entry of one term at one index agree up to it. *)
Lemma log_matching g l1 l2 i : matching g l1 -> matching g l2 -> tm l1 i = tm l2 i -> tm l1 i <> 0 ->
  take (Z.to_nat i) l1 = take (Z.to_nat i) l2.
Proof.
  intros H1 H2 E Hne. destruct (matching_tm _ _ _ H1 Hne) as (j & lg & L1 & P1).
  rewrite E in Hne, L1. destruct (matching_tm _ _ _ H2 Hne) as (j' & lg' & L2 & P2). simplify_eq.
  rewrite <- E in Hne. destruct (tm_pos _ _ Hne) as [B1 _]. rewrite E in Hne. destruct (tm_pos _ _ Hne) as [B2 _].
  eapply prefix_same_eq; [exact P1|exact P2|]. rewrite !length_take. lia.
Qed.

(** An entry of a leader's committed run is of a term up to the leader's. *)
Lemma prefix_last_le t lg k cl : good t lg -> (k <= length lg)%nat -> cl `prefix_of` take k lg -> lastTerm cl <= tm lg (Z.of_nat k).
Proof.
  intros Hg Hk Hp. pose proof (prefix_length _ _ Hp) as Hlen. rewrite length_take in Hlen. unfold lastTerm.
  rewrite <- (tm_prefix cl lg); [|by etrans; [|apply take_prefix]|lia]. eapply good_tm_le; [done|lia].
Qed.

Section facts.
Context {cs : gmap Z Core} {net : list Message} {g : Ghost} (HI : Inv cs net g).

(** The voter that has what was committed and voted for the new leader. *)
Lemma leader_step t j lg k t' j' lg' : g_lead g t = Some (j, lg) -> (0 < k <= length lg)%nat -> tm lg (Z.of_nat k) = t ->
  quorum_acked g t k -> g_lead g t' = Some (j', lg') -> t < t' ->
  (forall t'' j'' lg'', t < t'' < t' -> g_lead g t'' = Some (j'', lg'') -> take k lg `prefix_of` lg'') ->
  take k lg `prefix_of` lg'.
Proof.
  intros Hl Hk Ht (f & Hf & Hack) Hl' Htt IH.
  destruct (l_votes _ _ _ _ _ (i_leads _ _ _ HI _ _ _ Hl')) as (f' & Hf' & Hv).
  destruct (hasQuorum_overlap _ _ _ Hf Hf') as (v & _ & Hfv & Hfv'). destruct (Hv v Hfv') as [vl Hvl].
  destruct (a_votes _ _ _ _ _ (i_acks _ _ _ HI _ _ _ (Hack v Hfv)) _ _ _ _ _ Hvl Htt Hl) as [Hpv|(t'' & j'' & lg'' & Hb & Hl'' & Hn)];
    [|by destruct Hn; eapply IH].
  pose proof (i_votes _ _ _ HI _ _ _ _ _ Hvl) as Hvo. destruct (v_candidate _ _ _ _ _ _ Hvo) as (cl & b' & Hcl & Hup).
  destruct (l_own _ _ _ _ _ (i_leads _ _ _ HI _ _ _ Hl')) as (cl' & b'' & Hcl' & Hpc). simplify_eq.
  etrans; [|exact Hpc]. pose proof (i_votes _ _ _ HI _ _ _ _ _ Hcl) as Hco.
  pose proof (l_good _ _ _ _ _ (i_leads _ _ _ HI _ _ _ Hl)) as Hg.
  assert (0 < tm lg (Z.of_nat k)) as Hpos.
  { destruct (lookup_lt_is_Some_2 lg (k - 1)) as [e He]; [lia|]. pose proof (tm_nat _ _ _ He) as E.
    replace (Z.of_nat (k - 1) + 1) with (Z.of_nat k) in E by lia. rewrite E. destruct (good_log _ _ Hg _ _ He). lia. }
  pose proof (prefix_length _ _ Hpv) as Hlv. rewrite length_take in Hlv.
  assert (tm lg (Z.of_nat k) <= lastTerm vl) as Hvt.
  { rewrite (tm_prefix (take k lg) lg), <- (tm_prefix (take k lg) vl) by (try apply take_prefix; try done; rewrite length_take; lia).
    eapply good_tm_le; [apply Hvo|lia]. }
  assert (lastTerm cl < t') as Hct.
  { unfold lastTerm. pose proof (good_tm_bound _ _ (Z.of_nat (length cl)) (v_good _ _ _ _ _ _ Hco)). destruct (v_pos _ _ _ _ _ _ Hvo). lia. }
  assert (tm lg (Z.of_nat k) <= lastTerm cl) as Hcv by (destruct Hup as [|[]]; lia).
  destruct (matching_tm g cl (Z.of_nat (length cl)) (v_matching _ _ _ _ _ _ Hco)) as (jc & lgc & Hlc & Hpc'); [unfold lastTerm in *; lia|].
  rewrite Nat2Z.id, firstn_all in Hpc'. fold (lastTerm cl) in Hlc.
  destruct (decide (lastTerm cl = tm lg (Z.of_nat k))) as [Eq|Ne].
  - rewrite Eq in Hlc. simplify_eq. destruct Hup as [|[Eu Hlen]]; [lia|].
    eapply prefix_same; [apply take_prefix|done|]. rewrite length_take. lia.
  - assert (take k lg `prefix_of` lgc) as Hc by (eapply IH; [|exact Hlc]; lia).
    destruct (decide (k <= length cl)%nat).
    + eapply prefix_same; [exact Hc|done|]. rewrite length_take. lia.
    + assert (cl `prefix_of` take k lg) as Hcp by (eapply prefix_same; [exact Hpc'|exact Hc|rewrite length_take; lia]).
      pose proof (prefix_last_le _ _ _ _ Hg (proj2 Hk) Hcp). lia.
Qed.

(** Leader completeness: the leader of a later term has everything committed before. *)
Lemma leader_complete t j lg k : g_lead g t = Some (j, lg) -> (0 < k <= length lg)%nat -> tm lg (Z.of_nat k) = t ->
  quorum_acked g t k -> forall t' j' lg', t <= t' -> g_lead g t' = Some (j', lg') -> take k lg `prefix_of` lg'.
Proof.
  intros Hl Hk Ht Hq.
  assert (forall n t' j' lg', t <= t' -> t' <= t + Z.of_nat n -> g_lead g t' = Some (j', lg') -> take k lg `prefix_of` lg') as H.
  { induction n as [|n IH]; intros t' j' lg' H1 H2 Hl'.
    - assert (t' = t) as -> by lia. simplify_eq. apply take_prefix.
    - destruct (decide (t' = t)) as [->|]; [simplify_eq; apply take_prefix|].
      eapply leader_step; try done; [lia|]. intros t'' j'' lg'' Hb. apply IH; lia. }
  intros t' j' lg' Htt. apply (H (Z.to_nat (t' - t))); lia.
Qed.

Lemma committed_lead t l t' j lg : committed g t l -> g_lead g t' = Some (j, lg) -> t <= t' -> l `prefix_of` lg.
Proof.
  intros [-> |(t0 & j0 & lg0 & k & Ht & Hl & Hk & Hkt & Hq & Hp)] Hl' Htt; [apply prefix_nil|].
  etrans; [exact Hp|]. eapply leader_complete; [exact Hl|done|done|done| |exact Hl']. lia.
Qed.

(** What is committed anywhere is a prefix of one log. *)
Lemma committed_comparable t1 l1 t2 l2 : committed g t1 l1 -> committed g t2 l2 -> l1 `prefix_of` l2 \/ l2 `prefix_of` l1.
Proof.
  intros H1 H2. destruct H1 as [-> |(t & j & lg & k & Ht & Hl & Hk & Hkt & Hq & Hp)]; [left; apply prefix_nil|].
  destruct H2 as [-> |(t' & j' & lg' & k' & Ht' & Hl' & Hk' & Hkt' & Hq' & Hp')]; [right; apply prefix_nil|].
  assert (exists l, take k lg `prefix_of` l /\ take k' lg' `prefix_of` l) as (l & Hp1 & Hp2).
  { destruct (Z.le_ge_cases t t').
    - exists lg'. split; [by eapply leader_complete|apply take_prefix].
    - exists lg. split; [apply take_prefix|by eapply leader_complete]. }
  eapply prefix_weak_total; [by etrans|by etrans].
Qed.

Lemma quorum_unique t j j' f f' :
  hasQuorum m0 f = true -> (forall v, f v = true -> exists l b, g_vote g t v = Some (j, l, b)) ->
  hasQuorum m0 f' = true -> (forall v, f' v = true -> exists l b, g_vote g t v = Some (j', l, b)) -> j = j'.
Proof.
  intros Hf Hv Hf' Hv'. destruct (hasQuorum_overlap _ _ _ Hf Hf') as (v & _ & H1 & H2).
  destruct (Hv v H1) as (l & b & E), (Hv' v H2) as (l' & b' & E'). congruence.
Qed.

End facts.

(** ** Growing history *)

Record extends (g g' : Ghost) : Prop := {
  x_lead : forall t j lg, g_lead g t = Some (j, lg) ->
    exists r, g_lead g' t = Some (j, lg ++ r) /\ Forall (fun e => e_term e = t) r;
  x_vote : forall t v x, g_vote g t v = Some x -> g_vote g' t v = Some x;
  x_ack : forall t v k, g_ack g t v k -> g_ack g' t v k
}.

Lemma good_le t l : good t l -> Forall (fun e => e_term e <= t) l.
Proof. intros [Hl _ _]. apply Forall_lookup. intros i e Hi. destruct (Hl i e Hi). lia. Qed.

(** Entries of a later term do not complete a prefix of earlier terms. *)
Lemma prefix_not_grown t t' l lg r : Forall (fun e => e_term e <= t) l -> t < t' -> Forall (fun e => e_term e = t') r ->
  l `prefix_of` lg ++ r -> l `prefix_of` lg.
Proof.
  intros Hl Ht Hr Hp. destruct (decide (length l <= length lg)%nat) as [Hlen|Hlen].
  - eapply prefix_same; [exact Hp|by apply prefix_app_r|done].
  - exfalso. destruct (lookup_lt_is_Some_2 l (length lg)) as [e He]; [lia|].
    pose proof (prefix_lookup_Some _ _ _ _ He Hp) as He'. rewrite lookup_app_r in He' by lia.
    rewrite Forall_lookup in Hl, Hr. specialize (Hl _ _ He). specialize (Hr _ _ He'). simpl in *. lia.
Qed.

Section extends.
Context {g g' : Ghost} (X : extends g g').

Lemma x_matching l : matching g l -> matching g' l.
Proof.
  intros Hm k e Hk. destruct (Hm k e Hk) as (j & lg & Hl & Hp). destruct (x_lead _ _ X _ _ _ Hl) as (r & Hl' & _).
  exists j, (lg ++ r). split; [done|]. by apply prefix_app_r.
Qed.

Lemma x_committed t t' l : committed g t l -> t <= t' -> committed g' t' l.
Proof.
  intros [-> |(t0 & j & lg & k & Ht & Hl & Hk & Hkt & (f & Hf & Ha) & Hp)] Htt; [by left|right].
  destruct (x_lead _ _ X _ _ _ Hl) as (r & Hl' & _). exists t0, j, (lg ++ r), k. rewrite length_app.
  split_and!; [lia|done|lia|lia| | |].
  - rewrite (tm_prefix lg); [done|by apply prefix_app_r|lia].
  - exists f. split; [done|]. intros v Hv. apply (x_ack _ _ X), Ha, Hv.
  - by rewrite take_app_le by lia.
Qed.

Lemma x_lost t hi hi' l : lost g t hi l -> hi <= hi' -> Forall (fun e => e_term e <= t) l -> lost g' t hi' l.
Proof.
  intros (t' & j & lg & Ht & Hl & Hn) Hhi HF. destruct (x_lead _ _ X _ _ _ Hl) as (r & Hl' & Hr).
  exists t', j, (lg ++ r). split_and!; [lia|lia|done|]. intros Hp. apply Hn. eapply prefix_not_grown; [done| |done|done]. lia.
Qed.

Lemma x_message m : message_ok g m -> message_ok g' m.
Proof.
  unfold message_ok. intros [Hf Hm]. split; [done|]. destruct (m_type m); try done.
  - destruct Hm as (cl & b & Hv & ?). exists cl, b. split; [by apply (x_vote _ _ X)|done].
  - intros Hr. destruct (Hm Hr) as (vl & b & Hv). exists vl, b. by apply (x_vote _ _ X).
  - destruct Hm as (lg & pre & Hl & Hlen & Hlt & Hp & Hlc & Hc). destruct (x_lead _ _ X _ _ _ Hl) as (r & Hl' & _).
    exists (lg ++ r), pre. split_and!; try done; [by apply prefix_app_r|rewrite length_app; lia|].
    rewrite take_app_le by lia. by eapply x_committed.
  - intros Hr. by apply (x_ack _ _ X), Hm.
  - destruct Hm as (s & lg & Hs & Hl & Hi & Ht & Hc). destruct (x_lead _ _ X _ _ _ Hl) as (r & Hl' & _).
    exists s, (lg ++ r). split_and!; try done; [lia|lia|]. intros Hpos. destruct (Hc Hpos) as (Hmb & pre & Hlen & Hlt & Hp & Hcm).
    split; [done|]. exists pre. split_and!; try done; [by apply prefix_app_r|by eapply x_committed].
  - intros Hr. by apply (x_ack _ _ X), Hm.
Qed.

End extends.

Lemma committed_prefix g t l l' : committed g t l -> l' `prefix_of` l -> committed g t l'.
Proof.
  intros [-> |(t0 & j & lg & k & H)] Hp; [left; by apply prefix_nil_inv|right]. exists t0, j, lg, k.
  destruct H as (? & ? & ? & ? & ? & Hp'). split_and!; try done; try lia. by etrans.
Qed.

Lemma extends_refl g g' : g_lead g' = g_lead g -> g_vote g' = g_vote g -> (forall t v k, g_ack g t v k -> g_ack g' t v k) -> extends g g'.
Proof.
  intros E1 E2 E3. constructor; rewrite ?E1, ?E2; try done. intros t j lg Hl. exists []. by rewrite app_nil_r.
Qed.

Lemma extends_trans g g' g'' : extends g g' -> extends g' g'' -> extends g g''.
Proof.
  intros [L V A] [L' V' A']. constructor; auto. intros t j lg Hl. destruct (L _ _ _ Hl) as (r & Hl' & Hr).
  destruct (L' _ _ _ Hl') as (r' & Hl'' & Hr'). exists (r ++ r'). rewrite app_assoc. split; [done|]. by apply Forall_app.
Qed.

(** ** Steps of one node *)

(** What a step of node [i] from [c] to [c'] may do to the history. *)
Record steps_ok (cs : gmap Z Core) (i : Z) (c c' : Core) (g g' : Ghost) : Prop := {
  s_ext : extends g g';
  s_term_le : k_term c <= k_term c';
  s_node : node_ok g' i c';
  s_others : forall j, j <> i -> g_full g' j = g_full g j;
  s_lead : forall t j lg, g_lead g' t = Some (j, lg) ->
    g_lead g t = Some (j, lg) \/ (j = i /\ lead_ok (<[i := c']> cs) g' t j lg);
  s_vote : forall t v j vl b, g_vote g' t v = Some (j, vl, b) ->
    g_vote g t v = Some (j, vl, b) \/
    (v = i /\ k_term c <= t /\ vote_ok g' t v j vl b /\ (b = true -> vl = g_full g i /\ (g_lead g t = None \/ k_term c < t)));
  s_ack : forall t v k, g_ack g' t v k ->
    g_ack g t v k \/
    (v = i /\ t = k_term c' /\ k_term c' = k_term c /\ g_vote g' = g_vote g /\ (forall k', (k' <= k)%nat -> g_ack g' t v k') /\
     exists j lg, g_lead g' t = Some (j, lg) /\ (k <= length lg)%nat /\ take k lg `prefix_of` g_full g' i);
  s_kept : forall t k j lg, g_ack g t i k -> g_lead g t = Some (j, lg) -> (k <= length lg)%nat -> take k lg `prefix_of` g_full g i ->
    take k lg `prefix_of` g_full g' i \/ lost g' t (k_term c' + 1) (take k lg)
}.

Lemma node_ok_others g g' i j c : extends g g' -> node_ok g j c -> j <> i -> g_full g' j = g_full g j ->
  (forall t l lg, g_lead g' t = Some (l, lg) -> g_lead g t = Some (l, lg) \/ l = i) ->
  (forall t v l vl b, g_vote g' t v = Some (l, vl, b) -> g_vote g t v = Some (l, vl, b) \/ v = i) ->
  node_ok g' j c.
Proof.
  intros X [] Hne Ef HL HV. constructor; rewrite ?Ef; try done.
  - by eapply x_matching.
  - by eapply x_committed.
  - intros Hv. destruct (n_voted0 Hv) as (l & b & E). exists l, b. by apply (x_vote _ _ X).
  - intros t l vl b Hv. destruct (HV _ _ _ _ _ Hv) as [Hv'|]; [by eapply n_votes0|done].
  - intros Hr. destruct (n_candidate0 Hr) as ((b & E) & Hvs & Hl). split_and!.
    + exists b. by apply (x_vote _ _ X).
    + intros v Hv. destruct (Hvs v Hv) as (l & b' & E'). exists l, b'. by apply (x_vote _ _ X).
    + intros l Hl'. destruct (HL _ _ _ Hl') as [Hl''|]; [by apply (Hl l)|done].
  - intros Hr. destruct (n_leader0 Hr) as [Hl Ha]. split; [|intros p Hp; by apply (x_ack _ _ X), Ha].
    destruct (x_lead _ _ X _ _ _ Hl) as (r & Hl' & _). destruct (HL _ _ _ Hl') as [Hl''|]; [|done]. congruence.
Qed.

Lemma lead_ok_mono cs g g' i c c' t j lg : extends g g' -> cs !! i = Some c -> k_term c <= k_term c' ->
  lead_ok cs g t j lg -> lead_ok (<[i := c']> cs) g' t j lg.
Proof.
  intros X Hc Ht [(cj & Hj & Hjt) ? Hm (f & Hf & Hv) (cl & b & Hcl & Hp)]. constructor; try done.
  - destruct (decide (j = i)) as [->|]; [exists c'|exists cj].
    + rewrite lookup_insert_eq. simplify_eq. split; [done|lia].
    + by rewrite lookup_insert_ne by done.
  - by eapply x_matching.
  - exists f. split; [done|]. intros v Hfv. destruct (Hv v Hfv) as [vl E]. exists vl. by apply (x_vote _ _ X).
  - exists cl, b. split; [by apply (x_vote _ _ X)|done].
Qed.

Lemma vote_ok_mono g g' t v j vl b : extends g g' -> vote_ok g t v j vl b -> vote_ok g' t v j vl b.
Proof.
  intros X [? ? Hm (cl & b' & Hcl & Hu) Hl]. constructor; try done.
  - by eapply x_matching.
  - exists cl, b'. split; [by apply (x_vote _ _ X)|done].
  - intros Hb. specialize (Hl Hb). destruct (g_lead g t) as [[j' lg]|] eqn:E; [|done].
    destruct (x_lead _ _ X _ _ _ E) as (r & -> & _). done.
Qed.

Lemma take_le t k lg : good t lg -> Forall (fun e => e_term e <= t) (take k lg).
Proof. intros Hg. apply Forall_take. by apply good_le. Qed.

Lemma ack_ok_old cs net g i c c' g' t v k : Inv cs net g -> cs !! i = Some c -> steps_ok cs i c c' g g' ->
  g_ack g t v k -> ack_ok (<[i := c']> cs) g' t v k.
Proof.
  intros HI Hc S Ha. destruct S as [X Ht _ Hoth _ HV _ Hkept].
  destruct (i_acks _ _ _ HI _ _ _ Ha) as [Hdown (cv & j & lg & Hcv & Htv & Hl & Hk & Hhas) Hvotes].
  destruct (x_lead _ _ X _ _ _ Hl) as (r & Hl' & _). pose proof (take_le t k lg (l_good _ _ _ _ _ (i_leads _ _ _ HI _ _ _ Hl))) as Hle.
  assert (take k (lg ++ r) = take k lg) as Etake by (by rewrite take_app_le by lia).
  constructor.
  - intros k' Hk'. by apply (x_ack _ _ X), Hdown.
  - destruct (decide (v = i)) as [->|Hne].
    + simplify_eq. exists c', j, (lg ++ r). rewrite lookup_insert_eq, Etake, length_app. split_and!; [done|lia|done|lia|].
      destruct Hhas as [Hp|Hlost]; [by eapply Hkept|right]. eapply x_lost; [done|done|lia|done].
    + exists cv, j, (lg ++ r). rewrite lookup_insert_ne, Etake, length_app, Hoth by done. split_and!; [done|lia|done|lia|].
      destruct Hhas as [Hp|Hlost]; [by left|right]. by eapply x_lost.
  - intros t' j' vl j2 lg2 Hv Htt Hl2. simplify_eq. rewrite Etake.
    destruct (HV _ _ _ _ _ Hv) as [Hv'|(-> & Htc & _ & Hnew)].
    + destruct (Hvotes _ _ _ _ _ Hv' Htt Hl) as [|Hlost]; [by left|right]. by eapply x_lost.
    + destruct (Hnew eq_refl) as [-> Hnone]. simplify_eq. destruct Hhas as [|(t'' & jl & lgl & Hb & Hll & Hn)]; [by left|right].
      eapply (x_lost X _ t'); [|done|done]. exists t'', jl, lgl. split_and!; [lia| |done|done].
      destruct Hnone as [Hnone|]; [|lia]. destruct (decide (t'' = t')) as [->|]; [congruence|lia].
Qed.

Lemma inv_step cs net g i c c' g' ms : Inv cs net g -> cs !! i = Some c -> steps_ok cs i c c' g g' ->
  Forall (message_ok g') ms -> Inv (<[i := c']> cs) (net ++ ms) g'.
Proof.
  intros HI Hc S Hms. pose proof S as [X Ht Hnode Hoth HL HV HA _]. constructor.
  - intros j cj Hj. destruct (decide (j = i)) as [->|Hne].
    + rewrite lookup_insert_eq in Hj. by simplify_eq.
    + rewrite lookup_insert_ne in Hj by done. eapply node_ok_others; [done|by eapply i_nodes|done|auto| |].
      * intros t l lg Hl. destruct (HL _ _ _ Hl) as [|[-> _]]; auto.
      * intros t v l vl b Hv. destruct (HV _ _ _ _ _ Hv) as [|[-> _]]; auto.
  - intros t j lg Hl. destruct (HL _ _ _ Hl) as [Hl'|[_ ?]]; [|done]. eapply lead_ok_mono; [done|done|done|by eapply i_leads].
  - intros t v j vl b Hv. destruct (HV _ _ _ _ _ Hv) as [Hv'|(_ & _ & ? & _)]; [|done].
    eapply vote_ok_mono; [done|by eapply i_votes].
  - intros t v k Ha. destruct (HA _ _ _ Ha) as [Ha'|(-> & -> & Et & Ev & Hdown & j & lg & Hl & Hk & Hp)]; [by eapply ack_ok_old|].
    constructor; [done| |].
    + exists c', j, lg. rewrite lookup_insert_eq. split_and!; [done|lia|done|done|by left].
    + intros t' j' vl j2 lg2 Hv Htt _. rewrite Ev in Hv.
      destruct (n_votes _ _ _ (i_nodes _ _ _ HI _ _ Hc) _ _ _ _ Hv) as [? _]. lia.
  - apply Forall_app. split; [|done]. eapply Forall_impl; [apply (i_net _ _ _ HI)|]. intros m. by apply x_message.
Qed.

(** A step that adds nothing to the history. *)
Lemma inv_same cs net g i c c' ms : Inv cs net g -> cs !! i = Some c -> k_term c <= k_term c' -> node_ok g i c' ->
  Forall (message_ok g) ms -> Inv (<[i := c']> cs) (net ++ ms) g.
Proof.
  intros HI Hc Ht Hn Hms. eapply inv_step; [done|done| |done].
  constructor; auto. by apply extends_refl.
Qed.

End cluster.

End Inv.
