(* ===== verification/RaftSteps.v ===== *)
(** * Every protocol action keeps the cluster's invariant *)

From S2P Require Import Prelude GoStd Fs Json Membership RaftTypes RaftNode RaftCore RaftInv.

Module Steps.
Import Membership Raft Node Core Inv.

Section actions.
Context (m0 : Membership) (Hm0 : memb_ok m0) (HJ0 : JointVoters m0 = []) (HI0 : Index m0 = 0).

Notation node_ok := (node_ok m0).
Notation Inv := (Inv m0).
Notation committed := (committed m0).
Notation message_ok := (message_ok m0).

(** ** Actions that do not touch the log *)

Lemma node_ok_quiet g i c c' : node_ok g i c -> wf c' ->
  (k_id c', k_init c', k_term c', k_voted c', k_snap c', k_log c', k_commit c', k_memb c')
  = (k_id c, k_init c, k_term c, k_voted c, k_snap c, k_log c, k_commit c, k_memb c) ->
  (k_role c' = Candidate -> k_role c = Candidate /\
     forall v, at_false (k_votes c') v = true -> at_false (k_votes c) v = true \/ exists l b, g_vote g (k_term c) v = Some (i, l, b)) ->
  (k_role c' = Leader -> k_role c = Leader /\
     forall p, 0 < at0 (k_match c') p -> at0 (k_match c') p = at0 (k_match c) p \/ g_ack g (k_term c) p (Z.to_nat (at0 (k_match c') p))) ->
  node_ok g i c'.
Proof.
  intros [Hid Hw Hm [R1 R2 R3] Hg Hmt Hc Hv Hvs Hcand Hlead] Hw' [= E1 E2 E3 E4 E5 E6 E7 E8] HC HL.
  assert (k_base c' = k_base c) as Eb by (unfold k_base; by rewrite E2, E5).
  constructor; rewrite ?E1, ?E2, ?E3, ?E4, ?E7, ?E8, ?Eb, ?E5; try done.
  - constructor; rewrite ?E5, ?E6; done.
  - intros Hr. destruct (HC Hr) as [Hr' Hv']. destruct (Hcand Hr') as (H1 & H2 & H3). split_and!; try done.
    intros v Hvv. destruct (Hv' v Hvv) as [|]; [by apply H2|done].
  - intros Hr. destruct (HL Hr) as [Hr' Hp']. destruct (Hlead Hr') as [H1 H2]. split; [done|].
    intros p Hp. destruct (Hp' p Hp) as [Ep|]; [|done]. rewrite Ep in *. by apply H2.
Qed.

Lemma committed_mono g t t' l : committed g t l -> t <= t' -> committed g t' l.
Proof. intros Hc Ht. eapply x_committed; [|done|done]. by apply extends_refl. Qed.

Lemma node_ok_adopt g i c t : node_ok g i c -> wf (adopt t c) -> k_term c < t -> node_ok g i (adopt t c).
Proof.
  intros [Hid Hw Hm [R1 R2 R3] Hg Hmt Hc Hv Hvs Hcand Hlead] Hw' Ht. constructor; try done.
  - eapply good_mono; [done|]. simpl. lia.
  - eapply committed_mono; [done|]. simpl. lia.
  - intros t' j l b Hv'. destruct (Hvs _ _ _ _ Hv') as [H _]. simpl. lia.
Qed.

Lemma node_ok_commit g i c k : node_ok g i c -> wf (w_commit k c) ->
  committed g (k_term c) (take (Z.to_nat k) (g_full g i)) -> node_ok g i (w_commit k c).
Proof. intros [Hid Hw Hm [R1 R2 R3] Hg Hmt Hc Hv Hvs Hcand Hlead] Hw' Hc'. by constructor. Qed.

(** A restart forgets the role and lowers the commit index. *)
Lemma node_ok_restart g i c c' : node_ok g i c -> wf c' ->
  (k_id c', k_init c', k_term c', k_voted c', k_snap c', k_log c', k_memb c')
  = (k_id c, k_init c, k_term c, k_voted c, k_snap c, k_log c, k_memb c) ->
  k_role c' = Follower -> committed g (k_term c) (take (Z.to_nat (k_commit c')) (g_full g i)) -> node_ok g i c'.
Proof.
  intros [Hid Hw Hm [R1 R2 R3] Hg Hmt Hc Hv Hvs Hcand Hlead] Hw' [= E1 E2 E3 E4 E5 E6 E8] Hr Hc'.
  assert (k_base c' = k_base c) as Eb by (unfold k_base; by rewrite E2, E5).
  constructor; rewrite ?E1, ?E2, ?E3, ?E4, ?E8, ?Eb, ?E5; try done; try congruence.
  constructor; rewrite ?E5, ?E6; done.
Qed.

(** ** Snapshots *)

Lemma rep_install c l s m : rep c l -> wf c -> s_index (k_snap c) < s_index s <= Z.of_nat (length l) ->
  tm l (s_index s) = s_term s -> rep (install s m c) l.
Proof.
  intros R Hw Hs Ht. pose proof R as [R1 R2 R3]. destruct (wf_snap _ Hw) as [Hs0 _].
  constructor; unfold install; ksimpl; [|lia|done]. unfold suffix.
  rewrite (rep_last _ _ R Hw), (rep_termAt _ _ _ R Hw), Ht, Z.eqb_refl, andb_true_r by lia.
  destruct (Z.ltb_spec (s_index s) (Z.of_nat (length l))) as [Hlt|Hge].
  - rewrite R1, drop_drop. f_equal. lia.
  - rewrite drop_ge by lia. done.
Qed.

Lemma node_ok_install g i c s m : node_ok g i c -> wf (install s m c) -> m = m0 -> s_membership s = m0 ->
  s_index (k_snap c) < s_index s <= Z.of_nat (length (g_full g i)) -> tm (g_full g i) (s_index s) = s_term s ->
  committed g (k_term c) (take (Z.to_nat (Z.max (k_commit c) (s_index s))) (g_full g i)) ->
  node_ok g i (install s m c).
Proof.
  intros N Hw' -> Es Hs Ht Hc'. destruct N as [Hid Hw (Hm & Hb & Hi & _) R Hg Hmt Hc Hv Hvs Hcand Hlead].
  destruct (wf_snap _ Hw) as [Hs0 _]. constructor; try done; [|by apply rep_install].
  split_and!; [done| |done|done]. rewrite k_base_install; [done|lia|by rewrite Es].
Qed.

Lemma plain_base g i c k : node_ok g i c -> conf (k_base c) (take k (k_log c)) = Ok m0.
Proof.
  intros N. destruct (n_memb _ _ _ _ N) as (_ & -> & _). apply conf_plain. apply Forall_take.
  rewrite (rep_log _ _ (n_rep _ _ _ _ N)). apply Forall_drop, (good_plain _ _ (n_good _ _ _ _ N)).
Qed.

(** ** A follower's log against its leader's *)

Lemma lastTerm_snoc l e : lastTerm (l ++ [e]) = e_term e.
Proof.
  unfold lastTerm. rewrite length_app. simpl. replace (Z.of_nat (length l + 1)) with (Z.of_nat (length l) + 1) by lia.
  apply tm_nat. by rewrite lookup_app_r, Nat.sub_diag by lia.
Qed.

(** A log that has the last entry of [q] has all of [q]. *)
Lemma agree_upto g t c l q : rep c l -> wf c -> matching g l -> matching g q -> good t q ->
  holds c (Z.of_nat (length q)) (lastTerm q) -> take (length q) l = q.
Proof.
  intros R Hw Hl Hq Hg Hh. destruct (decide (lastTerm q = 0)) as [E|E].
  { apply (lastTerm_0 t) in E as ->; [|done]. done. }
  pose proof (rep_holds _ _ _ _ R Hw Hh E) as Ht.
  pose proof (log_matching g l q (Z.of_nat (length q)) Hl Hq Ht ltac:(by rewrite Ht)) as H.
  rewrite Nat2Z.id, firstn_all in H. done.
Qed.

Lemma holds_last c pre es t : log_ok (Z.of_nat (length pre)) t es -> holds c (Z.of_nat (length pre)) (lastTerm pre) ->
  Forall (fun e => holds c (e_index e) (e_term e)) es -> holds c (Z.of_nat (length (pre ++ es))) (lastTerm (pre ++ es)).
Proof.
  intros Hl Hh HF. destruct es as [|e es _] using rev_ind; [by rewrite app_nil_r|].
  apply Forall_app in HF as [_ HF]. apply Forall_cons in HF as [He _].
  rewrite app_assoc, lastTerm_snoc. destruct (Hl (length es) e) as [Ei _]; [by rewrite lookup_app_r, Nat.sub_diag by lia|].
  rewrite Ei in He. rewrite !length_app in *. simpl. by replace (Z.of_nat (length pre + length es + 1)) with
    (Z.of_nat (length pre) + Z.of_nat (length es) + 1) by lia.
Qed.

Section follower.
Context {cs : gmap Z Core} {net : list Message} {g : Ghost} (HI : Inv cs net g) {i : Z} {c : Core} (Hc : cs !! i = Some c).

Let N : node_ok g i c := i_nodes _ _ _ _ HI i c Hc.

Lemma lead_facts t j lg : g_lead g t = Some (j, lg) -> good t lg /\ matching g lg.
Proof. intros Hl. destruct (i_leads _ _ _ _ HI _ _ _ Hl). done. Qed.

(** A prefix of a leader's log whose last entry the node has. *)
Lemma agree_lead t j lg q : g_lead g t = Some (j, lg) -> q `prefix_of` lg -> holds c (Z.of_nat (length q)) (lastTerm q) ->
  take (length q) (g_full g i) = q.
Proof.
  intros Hl Hq Hh. destruct (lead_facts _ _ _ Hl) as [Hg Hm].
  eapply (agree_upto g t c); [apply N|apply N|apply N|by eapply matching_prefix|by eapply good_prefix|done].
Qed.

(** Replacing the log by [q], a part of the leader's log, keeps what was acknowledged
    if nothing both logs have is cut off. *)
Lemma kept_or_lost q t j lg : g_lead g (k_term c) = Some (j, lg) -> q `prefix_of` lg ->
  (forall P, P `prefix_of` lg -> P `prefix_of` g_full g i -> P `prefix_of` q) ->
  forall k j' lg', g_ack g t i k -> g_lead g t = Some (j', lg') -> (k <= length lg')%nat -> take k lg' `prefix_of` g_full g i ->
  take k lg' `prefix_of` q \/ lost g t (k_term c + 1) (take k lg').
Proof.
  intros Hl Hq Hcut k j' lg' Ha Hl' Hk Hp. destruct (a_node _ _ _ _ _ (i_acks _ _ _ _ HI _ _ _ Ha)) as (c' & _ & _ & Hc' & Ht & _).
  simplify_eq. destruct (decide (take k lg' `prefix_of` lg)) as [Hin|Hout]; [left; by apply Hcut|right].
  destruct (decide (t = k_term c)) as [->|]; [simplify_eq; destruct Hout; apply take_prefix|].
  exists (k_term c), j, lg. split_and!; [lia|lia|done|done].
Qed.

(** Replacing the log of a follower. *)
Definition upd {A} (f : Z -> A) (i : Z) (x : A) : Z -> A := fun j => if decide (j = i) then x else f j.

Definition set_full (q : list Entry) : Ghost := mkGhost (upd (g_full g) i q) (g_lead g) (g_vote g) (g_ack g).

Lemma inv_relog c' q j lg : wf c' -> k_role c' = Follower ->
  (k_id c', k_init c', k_term c', k_voted c') = (k_id c, k_init c, k_term c, k_voted c) ->
  k_memb c' = m0 -> k_base c' = m0 -> (0 < s_index (k_snap c') -> s_membership (k_snap c') = m0) -> rep c' q ->
  g_lead g (k_term c) = Some (j, lg) -> q `prefix_of` lg ->
  committed g (k_term c) (take (Z.to_nat (k_commit c')) q) ->
  (forall P, P `prefix_of` lg -> P `prefix_of` g_full g i -> P `prefix_of` q) ->
  Inv (<[i := c']> cs) net (set_full q).
Proof.
  intros Hw' Hr [= E1 E2 E3 E4] Em Eb Esm R Hl Hq Hcm Hcut. rewrite <- (app_nil_r net).
  destruct (lead_facts _ _ _ Hl) as [Hg Hm]. pose proof N as [Hid Hw Hmb _ _ _ _ Hv Hvs _ _].
  assert (extends g (set_full q)) as X by (by apply extends_refl).
  assert (g_full (set_full q) i = q) as Ef by (unfold set_full, upd; simpl; by rewrite decide_True).
  eapply inv_step; [done|done| |constructor]. constructor; try done; auto.
  - lia.
  - constructor; rewrite ?Ef, ?E1, ?E2, ?E3, ?E4; try done; try congruence.
    + split_and!; [done|done| |done]. by destruct Hmb as (_ & _ & -> & _).
    + by eapply good_prefix.
    + by eapply (matching_prefix g).
  - intros j' Hne. unfold set_full, upd; simpl. by rewrite decide_False.
  - intros t k j' lg' Ha Hl' Hk Hp. rewrite Ef, E3. by eapply kept_or_lost.
Qed.

(** An append of the leader of the term, stored. *)
Lemma inv_store m old rest keep m' : m ∈ net -> m_type m = MsgAppend -> m_term m = k_term c -> k_role c = Follower ->
  entries_ok m -> holds c (m_logIndex m) (m_logTerm m) -> m_entries m = old ++ rest ->
  Forall (fun e => holds c (e_index e) (e_term e)) old ->
  s_index (k_snap c) + Z.of_nat keep = m_logIndex m + Z.of_nat (length old) ->
  k_commit c <= s_index (k_snap c) + Z.of_nat keep <= k_last c ->
  keep = length (k_log c) \/ (exists e, head rest = Some e /\ k_termAt c (e_index e) <> e_term e) ->
  conf (k_base c) (take keep (k_log c) ++ rest) = Ok m' ->
  let c' := w_memb m' (w_log (take keep (k_log c) ++ rest) c) in wf c' ->
  exists g', extends g g' /\ Inv (<[i := c']> cs) net g'.
Proof.
  intros Hin Hty Ht Hr [Hlog _] Hh Ees Hold Hkeep Hkc Hcut Hconf c' Hw'.
  pose proof (proj1 (Forall_forall _ _) (i_net _ _ _ _ HI) m Hin) as [_ Hm]. rewrite Hty in Hm.
  destruct Hm as (lg & pre & Hl & Hlen & Hlt & Hp & _). rewrite Ht in Hl. rewrite <- Hlen, <- Hlt in Hh.
  pose proof N as [_ Hw (Emb & Ebase & Einit & Esnap) R Hg Hmt Hcm _ _ _ _]. pose proof (rep_last _ _ R Hw) as El.
  assert (pre ++ old `prefix_of` lg) as Hpo by (etrans; [|exact Hp]; rewrite Ees, app_assoc; by eexists).
  assert (take (length (pre ++ old)) (g_full g i) = pre ++ old) as Eag.
  { eapply agree_lead; [exact Hl|done|]. eapply holds_last; [|done|done]. rewrite Hlen, Ees in *. by apply log_ok_app in Hlog as [? _]. }
  rewrite Ees, app_assoc in Hp. exists (set_full ((pre ++ old) ++ rest)). split; [by apply extends_refl|].
  destruct (wf_snap _ Hw) as [Hs0 _]. pose proof (wf_commit _ Hw) as Hcw.
  assert (Z.of_nat (length (pre ++ old)) = s_index (k_snap c) + Z.of_nat keep) as Hlpo by (rewrite length_app; lia).
  assert (Forall plain_entry rest) as Hplain.
  { destruct (lead_facts _ _ _ Hl) as [Hgl _]. pose proof (good_plain _ _ (good_prefix _ _ _ Hgl Hp)) as HF. by apply Forall_app in HF as [_ ?]. }
  eapply inv_relog; try done.
  - assert (m' = m0) as ->; [|done]. rewrite conf_app, (plain_base g i) in Hconf by done. rewrite bind_ok, conf_plain in Hconf by done. by injection Hconf.
  - rewrite <- Eag at 1. destruct R as [R1 R2 R3]. constructor; unfold c'; ksimpl; [|rewrite !length_app, length_take; lia|].
    + rewrite R1, drop_app_le by (rewrite length_take; lia). f_equal. rewrite take_drop_commute. do 2 f_equal. lia.
    + rewrite R3. rewrite (tm_prefix (take (length (pre ++ old)) (g_full g i)) (_ ++ rest)) by (try (by eexists); rewrite length_take; lia).
      apply tm_prefix; [apply take_prefix|rewrite length_take; lia].
  - rewrite take_app_le by (unfold c'; ksimpl; lia). rewrite <- Eag. eapply committed_prefix; [exact Hcm|]. unfold c'; ksimpl.
    rewrite take_take, Nat.min_l by lia. reflexivity.
  - intros P HP1 HP2. destruct (decide (length P <= length ((pre ++ old) ++ rest))%nat) as [Hle|Hgt];
      [eapply prefix_same; [exact HP1|exact Hp|done]|].
    exfalso. pose proof (prefix_length _ _ HP2) as HlP. rewrite (length_app _ rest) in Hgt.
    destruct Hcut as [Ek|(e & Hhd & Hne)]; [unfold k_last in *; lia|]. apply Hne.
    destruct rest as [|e' rest]; [done|]. injection Hhd as ->.
    assert (((pre ++ old) ++ e :: rest) !! length (pre ++ old) = Some e) as He by (by rewrite lookup_app_r, Nat.sub_diag by lia).
    destruct (lookup_lt_is_Some_2 P (length (pre ++ old))) as [e' He']; [lia|].
    pose proof (prefix_lookup_Some _ _ _ _ He Hp) as H1. pose proof (prefix_lookup_Some _ _ _ _ He' HP1) as H2.
    pose proof (prefix_lookup_Some _ _ _ _ He' HP2) as H3. simplify_eq.
    destruct (Hlog (length old) e) as [Ei _]; [by rewrite Ees, lookup_app_r, Nat.sub_diag by lia|].
    rewrite (rep_termAt _ _ _ R Hw) by lia. rewrite <- (tm_nat _ _ _ H3). f_equal. lia.
Qed.

Lemma net_ok m : m ∈ net -> message_ok g m.
Proof. intros Hin. exact (proj1 (Forall_forall _ _) (i_net _ _ _ _ HI) m Hin). Qed.

(** What a matching append proves of the follower's log. *)
Lemma matches_agree m : m ∈ net -> m_type m = MsgAppend -> m_term m = k_term c -> entries_ok m -> matches c m ->
  exists j lg, g_lead g (k_term c) = Some (j, lg) /\ 0 <= lastNew m <= Z.of_nat (length lg) /\
    take (Z.to_nat (lastNew m)) lg = take (Z.to_nat (lastNew m)) (g_full g i) /\
    (m_leaderCommit m <= Z.of_nat (length lg) /\ committed g (k_term c) (take (Z.to_nat (m_leaderCommit m)) lg)).
Proof.
  intros Hin Hty Ht [Hlog _] [Hh HF]. pose proof (net_ok m Hin) as [_ Hm]. rewrite Hty in Hm.
  destruct Hm as (lg & pre & Hl & Hlen & Hlt & Hp & Hlc & Hc'). rewrite Ht in Hl, Hc'. rewrite <- Hlen, <- Hlt in Hh. rewrite <- Hlen in Hlog.
  exists (m_from m), lg. pose proof (prefix_length _ _ Hp) as HL. unfold lastNew. rewrite length_app in HL.
  replace (Z.to_nat _) with (length (pre ++ m_entries m)) by (rewrite length_app; lia).
  split_and!; [done|lia|lia| |done|done].
  rewrite (agree_lead (k_term c) (m_from m) lg) by (try done; by eapply holds_last).
  rewrite (take_prefix_of _ _ _ Hp) by lia. apply firstn_all.
Qed.

Lemma inv_learn m k : m ∈ net -> m_type m = MsgAppend -> m_term m = k_term c -> entries_ok m -> matches c m ->
  k <= Z.min (m_leaderCommit m) (lastNew m) -> wf (w_commit k c) -> Inv (<[i := w_commit k c]> cs) net g.
Proof.
  intros Hin Hty Ht He Hma Hk Hw'. rewrite <- (app_nil_r net). eapply inv_same; [done|done|simpl; lia| |constructor].
  apply node_ok_commit; [done|done|]. destruct (matches_agree m) as (j & lg & Hl & HL & E & Hlc & Hcm); try done.
  eapply committed_prefix; [exact Hcm|]. apply (f_equal (take (Z.to_nat k))) in E. rewrite !take_take, !Nat.min_l in E by lia.
  rewrite <- E. apply prefix_same with lg; [apply take_prefix|apply take_prefix|]. rewrite !length_take. lia.
Qed.

(** Acknowledging what the log has. *)
Definition add_ack (n : nat) : Ghost :=
  mkGhost (g_full g) (g_lead g) (g_vote g) (fun t v k => g_ack g t v k \/ (t = k_term c /\ v = i /\ (k <= n)%nat)).

Lemma add_ack_extends n : extends g (add_ack n).
Proof. apply extends_refl; try done; simpl; auto. Qed.

Lemma inv_ack n j lg m : g_lead g (k_term c) = Some (j, lg) -> (n <= length lg)%nat -> take n lg `prefix_of` g_full g i ->
  message_ok (add_ack n) m -> Inv (<[i := c]> cs) (net ++ [m]) (add_ack n).
Proof.
  intros Hl Hn Hp Hm. pose proof (add_ack_extends n) as X.
  eapply inv_step; [done|done| |by constructor]. constructor; try done; auto.
  - eapply (node_ok_others _ g _ (i + 1)); [done|done|lia|done|auto|auto].
  - intros t v k [|(-> & -> & Hk)]; [by left|right]. split_and!; try done.
    + intros k' Hk'. right. split_and!; [done|done|lia].
    + exists j, lg. split_and!; [done|lia|]. simpl. etrans; [|exact Hp].
      apply prefix_same with lg; [apply take_prefix|apply take_prefix|]. rewrite !length_take. lia.
Qed.

(** A snapshot of the leader of the term, installed. *)
Lemma inv_install m s s' m' : m ∈ net -> m_type m = MsgSnapshot -> m_term m = k_term c -> k_role c = Follower ->
  m_snapshot m = Some s -> s' = s \/ (Voters (s_membership s) = [] /\ s' = with_s_membership (k_init c) s) ->
  s_index (k_snap c) < s_index s -> 0 < s_term s ->
  (s_index s <= k_commit c -> k_termAt c (s_index s) = s_term s) ->
  conf (s_membership s') (suffix s' c) = Ok m' -> wf (install s' m' c) ->
  exists g', extends g g' /\ Inv (<[i := install s' m' c]> cs) net g'.
Proof.
  intros Hin Hty Ht Hr Hs Hs' Hsi Hst Hcm Hconf Hw'.
  pose proof (net_ok m Hin) as [_ Hm]. rewrite Hty in Hm. destruct Hm as (s1 & lg & E & Hl & _ & _ & Hpre). simplify_eq.
  pose proof N as [_ Hw (Emb & Ebase & Einit & Esnap) R Hg Hmt Hc' _ _ _ _]. destruct (wf_snap _ Hw) as [Hs0 _].
  destruct Hpre as (Esm & pre & Hlen & Hlt & Hp & Hpc); [lia|]. rewrite Ht in Hl, Hpc.
  assert (s' = s) as -> by (destruct Hs' as [|[E _]]; [done|]; destruct Hm0 as [[Hne _] _]; rewrite Esm in E; done).
  pose proof (rep_last _ _ R Hw) as El. pose proof (wf_commit _ Hw) as Hwc. destruct (lead_facts _ _ _ Hl) as [Hgl Hml].
  assert (m' = m0) as ->.
  { rewrite Esm, conf_plain in Hconf; [by injection Hconf|]. unfold suffix. destruct (_ && _); [|constructor].
    rewrite (rep_log _ _ R). apply Forall_drop, Forall_drop, (good_plain _ _ Hg). }
  destruct (decide (s_index s <= k_last c /\ k_termAt c (s_index s) = s_term s)) as [[Hle Hma]|Hno].
  - exists g. split; [by apply extends_refl|]. rewrite <- (app_nil_r net). eapply inv_same; [done|done|simpl; lia| |constructor].
    pose proof Hma as Hma'. rewrite (rep_termAt _ _ _ R Hw) in Hma by lia. apply node_ok_install; try done; [lia|].
    destruct (Z.max_spec (k_commit c) (s_index s)) as [[? ->]|[? ->]]; [|done].
    assert (take (length pre) (g_full g i) = pre) as Eag.
    { eapply agree_lead; [exact Hl|done|]. rewrite Hlen, Hlt. by split. }
    replace (Z.to_nat (s_index s)) with (length pre) by lia. by rewrite Eag.
  - assert (k_commit c < s_index s) as Hgt by (destruct (decide (s_index s <= k_commit c)); [destruct Hno; split; [lia|auto]|lia]).
    assert (suffix s c = []) as Esuf.
    { unfold suffix. destruct (Z.ltb_spec (s_index s) (k_last c)); [|done]. destruct (Z.eqb_spec (k_termAt c (s_index s)) (s_term s)); [|done].
      destruct Hno. split; [lia|done]. }
    exists (set_full pre). split; [by apply extends_refl|]. eapply inv_relog; try done.
    + rewrite k_base_install; [done|lia|by rewrite Esm].
    + constructor; unfold install; ksimpl; [|lia|by rewrite <- Hlt, <- Hlen]. rewrite Esuf, drop_ge by lia. done.
    + simpl. replace (Z.to_nat _) with (length pre) by lia. by rewrite firstn_all.
    + intros P HP1 HP2. destruct (decide (length P <= length pre)%nat) as [HlP|HlP]; [eapply prefix_same; [exact HP1|exact Hp|done]|].
      exfalso. apply Hno. assert (pre `prefix_of` g_full g i) as Hpf.
      { etrans; [|exact HP2]. eapply prefix_same; [exact Hp|exact HP1|lia]. }
      pose proof (prefix_length _ _ Hpf). split; [lia|]. rewrite (rep_termAt _ _ _ R Hw) by lia.
      rewrite (tm_prefix _ _ _ Hpf) by lia. by rewrite <- Hlt, <- Hlen.
Qed.

Lemma inv_compact s : s_index (k_snap c) < s_index s <= k_commit c -> k_termAt c (s_index s) = s_term s ->
  conf (k_base c) (take (Z.to_nat (s_index s - s_index (k_snap c))) (k_log c)) = Ok (s_membership s) ->
  wf (install s (k_memb c) c) -> Inv (<[i := install s (k_memb c) c]> cs) net g.
Proof.
  intros Hs Ht Hconf Hw'. rewrite <- (app_nil_r net). eapply inv_same; [done|done|simpl; lia| |constructor].
  pose proof N as [_ Hw (Emb & Ebase & Einit & Esnap) R Hg Hmt Hc' _ _ _ _]. pose proof (wf_commit _ Hw) as Hwc.
  pose proof (rep_last _ _ R Hw) as El. rewrite (plain_base g i) in Hconf by done. injection Hconf as Em.
  apply node_ok_install; try done; [lia|by rewrite <- (rep_termAt _ _ _ R Hw) by lia|]. by rewrite Z.max_l by lia.
Qed.

(** Voting, for another node or for oneself. *)
Definition add_vote (t j : Z) : Ghost :=
  mkGhost (g_full g) (g_lead g)
    (fun t' v => if decide (t' = t /\ v = i)
                 then Some (j, g_full g i, match g_lead g t with None => true | Some _ => false end) else g_vote g t' v)
    (g_ack g).

Lemma add_vote_new t j : g_vote (add_vote t j) t i
  = Some (j, g_full g i, match g_lead g t with None => true | Some _ => false end).
Proof. simpl. by rewrite decide_True. Qed.

Lemma add_vote_extends t j : g_vote g t i = None -> extends g (add_vote t j).
Proof.
  intros Hnone. constructor; simpl; auto; [intros t' j' lg Hl; exists []; by rewrite app_nil_r|].
  intros t' v x Hx. rewrite decide_False; [done|]. intros [-> ->]. congruence.
Qed.

Lemma inv_vote c' t j cl b' : wf c' -> g_vote g t i = None -> k_term c <= t -> k_term c' = t -> k_voted c' = j -> 0 < j -> 0 < t ->
  (k_id c', k_init c', k_snap c', k_log c', k_commit c', k_memb c')
  = (k_id c, k_init c, k_snap c, k_log c, k_commit c, k_memb c) ->
  good (t - 1) (g_full g i) -> g_vote g t j = Some (j, cl, b') \/ (j = i /\ cl = g_full g i) -> upToDate cl (g_full g i) ->
  k_role c' <> Leader -> (k_role c' = Candidate -> j = i /\ k_votes c' = {[i := true]} /\ k_term c < t) ->
  Inv (<[i := c']> cs) net (add_vote t j).
Proof.
  intros Hw' Hnone Hct Et Ej Hj Ht [= E1 E2 E5 E6 E7 E8] Hgood Hcl Hup HnL HC. rewrite <- (app_nil_r net).
  pose proof N as [Hid Hw Hmb R Hg Hmt Hcm Hv Hvs _ _]. pose proof R as [R1 R2 R3].
  pose proof (add_vote_extends t j Hnone) as X.
  assert (k_base c' = k_base c) as Eb by (unfold k_base; by rewrite E2, E5).
  eapply inv_step; [done|done| |constructor]. constructor; try done; auto; [lia| |].
  - constructor; rewrite ?E1, ?E2, ?Et, ?Ej, ?E7, ?E8, ?Eb, ?E5; try done.
    + constructor; rewrite ?E5, ?E6; done.
    + eapply good_mono; [done|]. simpl. lia.
    + eapply committed_mono; [exact Hcm|done].
    + intros _. do 2 eexists. apply add_vote_new.
    + intros t' j' l b. simpl. case_decide as Hd; [destruct Hd as [-> _]; intros [= -> _ _]; split; [lia|done]|].
      intros Hv'. destruct (Hvs _ _ _ _ Hv') as [H1 H2]. split; [lia|]. intros ->. congruence.
    + intros Hr. destruct (HC Hr) as (-> & Evs & Hlt). split_and!.
      * eexists. apply add_vote_new.
      * intros v. rewrite Evs. unfold at_false. destruct (decide (v = i)) as [->|]; [intros _; do 2 eexists; apply add_vote_new|].
        by rewrite lookup_singleton_ne.
      * intros l Hl. destruct (l_node _ _ _ _ _ _ (i_leads _ _ _ _ HI _ _ _ Hl)) as (c2 & Hc2 & ?). simplify_eq. lia.
  - intros t' v j' vl b. simpl. case_decide as Hd; [destruct Hd as [-> ->]|by left]. intros [= <- <- <-]. right.
    split_and!; [done|lia| |intros Hb; split; [done|left; by destruct (g_lead g t)]].
    constructor; try done.
    + destruct Hcl as [Hcl|[-> ->]]; [exists cl, b'; split; [by apply (x_vote _ _ X)|done]|]. do 2 eexists. split; [apply add_vote_new|done].
    + simpl. by destruct (g_lead g t).
Qed.

(** A leader's log grows; the first entries make it the leader of its term. *)
Definition add_lead (l : list Entry) : Ghost :=
  mkGhost (upd (g_full g) i (g_full g i ++ l))
    (fun t => if decide (t = k_term c) then Some (i, g_full g i ++ l) else g_lead g t) (g_vote g)
    (fun t v k => g_ack g t v k \/ (t = k_term c /\ v = i /\ (k <= length (g_full g i ++ l))%nat)).

Definition leads_term : Prop :=
  g_lead g (k_term c) = Some (i, g_full g i) \/
  (g_lead g (k_term c) = None /\ (exists b, g_vote g (k_term c) i = Some (i, g_full g i, b)) /\
   exists f, hasQuorum m0 f = true /\ forall v, f v = true -> exists vl, g_vote g (k_term c) v = Some (i, vl, true)).

Lemma add_lead_extends l : leads_term -> Forall (fun e => e_term e = k_term c) l -> extends g (add_lead l).
Proof.
  intros HL HF. constructor; simpl; auto. intros t j lg Hl. case_decide as E; [subst t|exists []; by rewrite app_nil_r].
  destruct HL as [HL|[HL _]]; [|congruence]. simplify_eq. by exists l.
Qed.

Lemma grown_good l : log_ok (k_last c) (k_term c) l -> Forall (fun e => e_term e = k_term c) l -> Forall plain_entry l ->
  good (k_term c) (g_full g i ++ l).
Proof.
  intros Hl Ht Hp. pose proof N as [_ Hw _ R [G1 G2 G3] _ _ _ _ _ _]. rewrite (rep_last _ _ R Hw) in Hl. constructor.
  - by apply log_ok_app.
  - rewrite fmap_app. apply StronglySorted_app. rewrite Forall_forall in Ht. split_and!; [|done|].
    + intros a b Ha Hb. apply list_elem_of_fmap in Ha as (ea & -> & [ka Ha]%list_elem_of_lookup), Hb as (eb & -> & Hb).
      rewrite (Ht eb Hb). destruct (G1 _ _ Ha). lia.
    + clear -Ht. induction l as [|e l IH]; [constructor|]. simpl. constructor; [apply IH; intros; apply Ht; set_solver|].
      apply Forall_fmap, Forall_forall. intros e' He'. simpl. rewrite (Ht e), (Ht e'); [lia|set_solver|set_solver].
  - by apply Forall_app.
Qed.

Lemma grown_matching l : leads_term -> Forall (fun e => e_term e = k_term c) l -> matching (add_lead l) (g_full g i ++ l).
Proof.
  intros HL Ht k e Hk. destruct (decide (e_term e = k_term c)) as [E|E].
  { exists i, (g_full g i ++ l). simpl. rewrite decide_True by done. split; [done|apply take_prefix]. }
  apply lookup_app_Some in Hk as [Hk|[_ Hk]].
  - destruct (n_matching _ _ _ _ N k e Hk) as (j & lg & Hl & Hp). exists j, lg. simpl. rewrite decide_False by done.
    apply lookup_lt_Some in Hk. by rewrite take_app_le by lia.
  - rewrite Forall_lookup in Ht. by specialize (Ht _ _ Hk).
Qed.

Lemma grown_lead_ok c' l : k_term c' = k_term c -> leads_term -> good (k_term c) (g_full g i ++ l) ->
  Forall (fun e => e_term e = k_term c) l -> lead_ok m0 (<[i := c']> cs) (add_lead l) (k_term c) i (g_full g i ++ l).
Proof.
  intros Et HL Hg Ht. constructor; [exists c'; rewrite lookup_insert_eq; split; [done|lia]|done|by apply grown_matching| |].
  - destruct HL as [HL|(_ & _ & HL)]; [|done]. by destruct (i_leads _ _ _ _ HI _ _ _ HL).
  - destruct HL as [HL|(_ & (b & HL) & _)].
    + destruct (l_own _ _ _ _ _ _ (i_leads _ _ _ _ HI _ _ _ HL)) as (cl & b & Hv & Hp). exists cl, b. split; [done|by apply prefix_app_r].
    + exists (g_full g i), b. split; [done|by apply prefix_app_r].
Qed.

Lemma inv_grow c' l : wf c' -> k_role c' = Leader ->
  (k_id c', k_init c', k_term c', k_voted c', k_snap c', k_commit c', k_memb c')
  = (k_id c, k_init c, k_term c, k_voted c, k_snap c, k_commit c, k_memb c) ->
  k_log c' = k_log c ++ l -> leads_term ->
  log_ok (k_last c) (k_term c) l -> Forall (fun e => e_term e = k_term c) l -> Forall plain_entry l ->
  (forall p, 0 < at0 (k_match c') p -> g_ack g (k_term c) p (Z.to_nat (at0 (k_match c') p)) \/
     (p = i /\ at0 (k_match c') p <= k_last c + Z.of_nat (length l))) ->
  Inv (<[i := c']> cs) net (add_lead l).
Proof.
  intros Hw' Hr [= E1 E2 E3 E4 E5 E7 E8] E6 HL Hlog Ht Hpl Hmatch. rewrite <- (app_nil_r net).
  pose proof N as [Hid Hw Hmb R Hg Hmt Hcm Hv Hvs _ _]. pose proof R as [R1 R2 R3]. pose proof (rep_last _ _ R Hw) as El.
  pose proof (add_lead_extends l HL Ht) as X. pose proof (grown_good l Hlog Ht Hpl) as Hg'.
  assert (g_full (add_lead l) i = g_full g i ++ l) as Ef by (simpl; unfold upd; by rewrite decide_True).
  assert (g_lead (add_lead l) (k_term c) = Some (i, g_full g i ++ l)) as Egl by (simpl; by rewrite decide_True).
  assert (k_base c' = k_base c) as Eb by (unfold k_base; by rewrite E2, E5).
  pose proof (wf_commit _ Hw) as Hwc. destruct (wf_snap _ Hw) as [Hs0 _].
  eapply inv_step; [done|done| |constructor]. constructor; try done; auto; [lia| | | | |].
  - constructor; rewrite ?E1, ?E2, ?E3, ?E4, ?E7, ?E8, ?Eb, ?Ef, ?E5; try done; try congruence.
    + constructor; rewrite ?E5, ?E6; [by rewrite R1, drop_app_le by lia|rewrite length_app; lia|].
      rewrite R3. symmetry. apply tm_prefix; [by apply prefix_app_r|lia].
    + by apply grown_matching.
    + rewrite take_app_le by lia. by eapply x_committed.
    + intros _. split; [done|]. intros p Hp. destruct (Hmatch p Hp) as [|[-> Hle]]; [by left|right]. split_and!; [done|done|].
      rewrite length_app. lia.
  - intros j Hne. simpl. unfold upd. by rewrite decide_False.
  - intros t j lg. simpl. case_decide as Ed; [subst t|by left]. intros [= <- <-]. right. split; [done|by apply grown_lead_ok].
  - intros t v k [|(-> & -> & Hk)]; [by left|right]. rewrite E3. split_and!; try done.
    + intros k' Hk'. right. split_and!; [done|done|lia].
    + exists i, (g_full g i ++ l). rewrite Ef. split_and!; [done|done|apply take_prefix].
  - intros t k j lg _ _ _ Hp. left. rewrite Ef. by apply prefix_app_r.
Qed.

(** ** Messages *)

Lemma vote_request_ok m : sendable Quiet c m -> m_type m = MsgVote -> message_ok g m.
Proof.
  intros [Hf Hs] Hty. rewrite Hty in Hs. destruct Hs as (Hr & Ht & Hli & Hlt). pose proof N as [Hid Hw _ R _ _ _ _ _ Hcand _].
  split; [rewrite Hf; apply (wf_id _ Hw)|]. rewrite Hty, Hf, Hid, Ht. destruct (Hcand Hr) as ((b & Hv) & _).
  exists (g_full g i), b. split_and!; [done|by rewrite Hli, (rep_last _ _ R Hw)|].
  pose proof (wf_commit _ Hw). rewrite Hlt, (rep_termAt _ _ _ R Hw), (rep_last _ _ R Hw) by lia. done.
Qed.

Lemma append_ok m : sendable Quiet c m -> m_type m = MsgAppend -> message_ok g m.
Proof.
  intros [Hf Hs] Hty. rewrite Hty in Hs. destruct Hs as (Hr & Ht & Hlc & Hli & Hlt & k & Hes).
  pose proof N as [Hid Hw _ R _ _ Hcm _ _ _ Hlead]. destruct (wf_snap _ Hw) as [Hs0 _]. pose proof (wf_commit _ Hw) as Hwc.
  split; [rewrite Hf; apply (wf_id _ Hw)|]. rewrite Hty, Hf, Hid, Ht. destruct (Hlead Hr) as [Hl _].
  rewrite (rep_last _ _ R Hw) in *. set (n := Z.to_nat (m_logIndex m)).
  exists (g_full g i), (take n (g_full g i)). assert (length (take n (g_full g i)) = n) as Hn by (rewrite length_take; lia).
  split_and!; [done|lia| | |lia|by rewrite Hlc].
  - unfold lastTerm. rewrite Hn. rewrite <- (tm_prefix _ _ _ (take_prefix n (g_full g i))) by lia.
    rewrite Hlt, (rep_termAt _ _ _ R Hw) by lia. f_equal. lia.
  - rewrite Hes, (rep_log _ _ R), drop_drop. replace (Z.to_nat _ + Z.to_nat _)%nat with n by lia.
    rewrite <- (take_drop n (g_full g i)) at 3. apply prefix_app, take_prefix.
Qed.

Lemma snapshot_ok m : sendable Quiet c m -> m_type m = MsgSnapshot -> message_ok g m.
Proof.
  intros [Hf Hs] Hty. rewrite Hty in Hs. destruct Hs as (Hr & Ht & Hsn).
  pose proof N as [Hid Hw (_ & _ & _ & Esm) R _ _ Hcm _ _ _ Hlead]. destruct (wf_snap _ Hw) as (Hs0 & Hs1 & _). pose proof (wf_commit _ Hw) as Hwc.
  split; [rewrite Hf; apply (wf_id _ Hw)|]. rewrite Hty, Hf, Hid, Ht. destruct (Hlead Hr) as [Hl _].
  rewrite (rep_last _ _ R Hw) in *. set (n := Z.to_nat (s_index (k_snap c))).
  exists (k_snap c), (g_full g i). split_and!; [done|done|lia|lia|lia|]. intros Hpos. split; [auto|].
  assert (length (take n (g_full g i)) = n) as Hn by (rewrite length_take; lia). exists (take n (g_full g i)).
  split_and!; [lia| |apply take_prefix|].
  - unfold lastTerm. rewrite Hn. rewrite <- (tm_prefix _ _ _ (take_prefix n (g_full g i))) by lia.
    rewrite (rep_term _ _ R). f_equal. lia.
  - eapply committed_prefix; [exact Hcm|]. eapply prefix_same; [apply take_prefix|apply take_prefix|]. rewrite !length_take. lia.
Qed.

Lemma inv_send inp m : sendable inp c m -> (forall m', inp = Received m' -> m' ∈ net) ->
  exists g', extends g g' /\ Inv (<[i := c]> cs) (net ++ [m]) g'.
Proof.
  intros Hs Hinp. pose proof N as [Hid Hw Hmb R Hg Hmt Hcm Hv _ _ _]. pose proof Hs as [Hf Hs'].
  assert (0 < m_from m) as Hpos by (rewrite Hf; apply (wf_id _ Hw)).
  assert (message_ok g m -> exists g', extends g g' /\ Inv (<[i := c]> cs) (net ++ [m]) g') as Hsame.
  { intros Hm. exists g. split; [by apply extends_refl|]. eapply inv_same; [done|done|done|done|by constructor]. }
  destruct (m_type m) eqn:Hty.
  - apply Hsame. split; [done|]. by rewrite Hty.
  - apply Hsame. split; [done|]. by rewrite Hty.
  - apply Hsame, vote_request_ok; [|done]. split; [done|]. by rewrite Hty.
  - apply Hsame. split; [done|]. rewrite Hty. intros Hr. destruct (Hs' Hr) as (Ht & Hto & m1 & Hi1 & Hf1).
    destruct (net_ok m1 (Hinp _ Hi1)) as [H1 _]. rewrite Hf, Hid, Ht, Hto. apply Hv. rewrite <- Hto. lia.
  - apply Hsame, append_ok; [|done]. split; [done|]. by rewrite Hty.
  - destruct (m_reject m) eqn:Hr; [apply Hsame; split; [done|]; rewrite Hty; congruence|].
    destruct (Hs' eq_refl) as (Ht & _ & m1 & Hi1 & Hty1 & Ht1 & _ & He & Hma & Hli).
    destruct (matches_agree m1) as (j & lg & Hl & HL & E & _); try done; [by apply Hinp|].
    exists (add_ack (Z.to_nat (lastNew m1))). split; [apply add_ack_extends|]. eapply inv_ack; [exact Hl|lia|rewrite E; apply take_prefix|].
    split; [done|]. rewrite Hty. intros _. right. rewrite Hli. split_and!; [done|congruence|done].
  - apply Hsame, snapshot_ok; [|done]. split; [done|]. by rewrite Hty.
  - destruct (m_reject m) eqn:Hr; [apply Hsame; split; [done|]; rewrite Hty; congruence|].
    destruct (Hs' eq_refl) as (Ht & _ & Hli & m1 & Hi1 & Hty1 & Ht1).
    destruct (net_ok m1 (Hinp _ Hi1)) as [_ H1]. rewrite Hty1 in H1. destruct H1 as (_ & lg & _ & Hl & _). rewrite Ht1 in Hl.
    destruct (wf_snap _ Hw) as [Hs0 _]. pose proof (wf_commit _ Hw) as Hwc. pose proof (rep_last _ _ R Hw) as El.
    assert (take (Z.to_nat (k_commit c)) (g_full g i) `prefix_of` lg) as Hp by (by eapply committed_lead).
    assert (take (Z.to_nat (s_index (k_snap c))) lg = take (Z.to_nat (s_index (k_snap c))) (g_full g i)) as E.
    { rewrite (take_prefix_of _ _ _ Hp) by (rewrite length_take; lia). rewrite take_take. f_equal. lia. }
    pose proof (prefix_length _ _ Hp) as Hlen. rewrite length_take in Hlen.
    exists (add_ack (Z.to_nat (s_index (k_snap c)))). split; [apply add_ack_extends|]. eapply inv_ack; [exact Hl|lia|rewrite E; apply take_prefix|].
    split; [done|]. rewrite Hty. intros _. right. rewrite Hli. split_and!; [done|congruence|done].
Qed.

(** ** All actions *)

Lemma good_lower t t' l : good t l -> lastTerm l <= t' -> good t' l.
Proof.
  intros Hg Hle. pose proof Hg as [G1 G2 G3]. constructor; [|done|done]. intros k e Hk. destruct (G1 k e Hk) as [Ei Et].
  split; [done|]. pose proof (lookup_lt_Some _ _ _ Hk). rewrite <- (tm_nat _ _ _ Hk) in *.
  pose proof (good_tm_le _ _ (Z.of_nat k + 1) (Z.of_nat (length l)) Hg). unfold lastTerm in Hle. lia.
Qed.

Lemma inv_quiet c' : wf c' ->
  (k_id c', k_init c', k_term c', k_voted c', k_snap c', k_log c', k_commit c', k_memb c')
  = (k_id c, k_init c, k_term c, k_voted c, k_snap c, k_log c, k_commit c, k_memb c) ->
  (k_role c' = Candidate -> k_role c = Candidate /\
     forall v, at_false (k_votes c') v = true -> at_false (k_votes c) v = true \/ exists l b, g_vote g (k_term c) v = Some (i, l, b)) ->
  (k_role c' = Leader -> k_role c = Leader /\
     forall p, 0 < at0 (k_match c') p -> at0 (k_match c') p = at0 (k_match c) p \/ g_ack g (k_term c) p (Z.to_nat (at0 (k_match c') p))) ->
  Inv (<[i := c']> cs) net g.
Proof.
  intros Hw' E HC HL. rewrite <- (app_nil_r net). eapply inv_same; [done|done| |by eapply node_ok_quiet|constructor].
  injection E as _ _ -> _ _ _ _ _. done.
Qed.

Lemma inv_elect : k_term c + 1 < 2 ^ 64 -> exists g', extends g g' /\ Inv (<[i := elect c]> cs) net g'.
Proof.
  intros Ht. pose proof N as [Hid Hw Hmb R Hg Hmt Hcm Hv Hvs _ _]. pose proof (wf_id _ Hw) as Hpos. pose proof (wf_term _ Hw) as Htp.
  assert (g_vote g (k_term c + 1) i = None) as Hnone.
  { destruct (g_vote g (k_term c + 1) i) as [[[j l] b]|] eqn:E; [|done]. destruct (Hvs _ _ _ _ E). lia. }
  exists (add_vote (k_term c + 1) i). split; [by apply add_vote_extends|]. eapply (inv_vote _ _ _ (g_full g i) true).
  - eapply act_wf; [by apply (act_elect Quiet)|done].
  - done.
  - lia.
  - done.
  - done.
  - lia.
  - lia.
  - done.
  - by replace (k_term c + 1 - 1) with (k_term c) by lia.
  - by right.
  - right. split; [done|lia].
  - done.
  - intros _. simpl. rewrite Hid. split_and!; [done|done|lia].
Qed.

Lemma inv_granted m : m ∈ net -> m_type m = MsgVote -> m_term m = k_term c -> k_voted c = 0 \/ k_voted c = m_from m ->
  k_role c <> Candidate -> k_role c <> Leader -> k_upToDate c (m_logIndex m) (m_logTerm m) = true ->
  wf (w_voted (m_from m) c) -> exists g', extends g g' /\ Inv (<[i := w_voted (m_from m) c]> cs) net g'.
Proof.
  intros Hin Hty Ht Hv HnC HnL Hup Hw'. pose proof (net_ok m Hin) as [Hpos Hm]. rewrite Hty in Hm.
  destruct Hm as (cl & b & Hcl & Hli & Hlt). rewrite Ht in Hcl. pose proof N as [Hid Hw Hmb R Hg Hmt Hcm Hvd Hvs _ _].
  destruct (decide (k_voted c = m_from m)) as [E|E].
  { exists g. split; [by apply extends_refl|]. apply inv_quiet; [done|simpl; by rewrite E|done|done]. }
  destruct Hv as [Hv|]; [|done].
  assert (g_vote g (k_term c) i = None) as Hnone.
  { destruct (g_vote g (k_term c) i) as [[[j l] b']|] eqn:E'; [|done]. destruct (Hvs _ _ _ _ E') as [_ H].
    destruct (v_pos _ _ _ _ _ _ (i_votes _ _ _ _ HI _ _ _ _ _ E')). specialize (H eq_refl). lia. }
  exists (add_vote (k_term c) (m_from m)). split; [by apply add_vote_extends|].
  pose proof (i_votes _ _ _ _ HI _ _ _ _ _ Hcl) as Hvo. pose proof (v_good _ _ _ _ _ _ Hvo) as Hgc. destruct (v_pos _ _ _ _ _ _ Hvo) as [_ Htp].
  pose proof (wf_commit _ Hw) as Hwc.
  assert (upToDate cl (g_full g i)) as Hu.
  { unfold k_upToDate in Hup. rewrite Hli, Hlt, (rep_termAt _ _ _ R Hw), (rep_last _ _ R Hw) in Hup by lia. fold (lastTerm (g_full g i)) in Hup.
    apply orb_true_iff in Hup as [Hup|Hup]; [left; lia|]. right. lia. }
  eapply (inv_vote _ _ _ cl b); try done; try lia.
  - eapply good_lower; [done|]. pose proof (good_tm_bound _ _ (Z.of_nat (length cl)) Hgc ltac:(lia)) as Hb. fold (lastTerm cl) in Hb.
    destruct Hu as [|[]]; lia.
  - by left.
Qed.

Lemma inv_lead nx : k_role c = Candidate -> hasQuorum (k_memb c) (at_false (k_votes c)) = true -> k_last c + 1 < 2 ^ 64 ->
  wf (lead nx c) -> exists g', extends g g' /\ Inv (<[i := lead nx c]> cs) net g'.
Proof.
  intros Hr Hq Hlast Hw'. pose proof N as [Hid Hw (Emb & _) R Hg Hmt Hcm Hv Hvs Hcand _]. rewrite Emb in Hq.
  destruct (Hcand Hr) as (Hself & Hvotes & Hnl). destruct (wf_self _ Hw (or_introl Hr)) as [_ Htp].
  assert (g_lead g (k_term c) = None) as Hnone.
  { destruct (g_lead g (k_term c)) as [[j lg]|] eqn:E; [|done]. exfalso.
    destruct (l_votes _ _ _ _ _ _ (i_leads _ _ _ _ HI _ _ _ E)) as (f & Hf & Hfv).
    assert (i = j) as <-; [|by apply (Hnl lg)]. eapply (quorum_unique m0 (g := g) (k_term c)); [exact Hq|done|exact Hf|].
    intros v Hvv. destruct (Hfv v Hvv) as [vl ?]. eauto. }
  assert (leads_term) as HL.
  { right. split_and!; [done|done|]. exists (at_false (k_votes c)). split; [done|]. intros v Hvv.
    destruct (Hvotes v Hvv) as (vl & b & E). exists vl. destruct b; [done|].
    by destruct (v_late _ _ _ _ _ _ (i_votes _ _ _ _ HI _ _ _ _ _ E) eq_refl). }
  exists (add_lead [noop c]). split; [apply add_lead_extends; [done|by repeat constructor]|]. apply inv_grow; try done.
  - intros [|k] e [= <-]. simpl. lia.
  - by repeat constructor.
  - constructor; [done|constructor].
  - intros p. simpl. rewrite Hid. destruct (decide (p = i)) as [->|Hne].
    + unfold at0. rewrite lookup_singleton_eq. simpl. intros _. right. split; [done|lia].
    + unfold at0. rewrite lookup_singleton_ne by done. simpl. lia.
Qed.

Lemma inv_append l m : k_role c = Leader -> log_ok (k_last c) (k_term c) l -> Forall (fun e => e_term e = k_term c) l ->
  conf (k_memb c) l = Ok m -> Forall plain_entry l -> wf (grow l m c) -> exists g', extends g g' /\ Inv (<[i := grow l m c]> cs) net g'.
Proof.
  intros Hr Hl Ht Hconf Hp Hw'. pose proof N as [Hid Hw (Emb & _) R Hg Hmt Hcm Hv Hvs _ Hlead]. destruct (Hlead Hr) as [Hl' Ha].
  rewrite conf_plain in Hconf by done. injection Hconf as <-. exists (add_lead l).
  split; [apply add_lead_extends; [by left|done]|]. apply inv_grow; try done; [by left|].
  intros p. simpl. rewrite at0_insert, Hid. case_decide as E; [subst p; intros _; right; split; [done|lia]|].
  intros Hpos. left. by apply Ha.
Qed.

Lemma inv_commit k : k_role c = Leader -> k_commit c < k <= k_last c -> k_termAt c k = k_term c ->
  hasQuorum (k_memb c) (fun id => k <=? at0 (k_match c) id) = true -> wf (w_commit k c) -> Inv (<[i := w_commit k c]> cs) net g.
Proof.
  intros Hr Hk Ht Hq Hw'. rewrite <- (app_nil_r net). eapply inv_same; [done|done|simpl; lia| |constructor].
  pose proof N as [Hid Hw (Emb & _) R Hg Hmt Hcm Hv Hvs _ Hlead]. destruct (Hlead Hr) as [Hl Ha]. rewrite Emb in Hq.
  pose proof (rep_last _ _ R Hw) as El. pose proof (wf_commit _ Hw) as Hwc. destruct (wf_snap _ Hw) as [Hs0 _].
  apply node_ok_commit; [done|done|]. right. exists (k_term c), i, (g_full g i), (Z.to_nat k).
  rewrite (rep_termAt _ _ _ R Hw) in Ht by lia. split_and!; [done|done|lia|lia|by rewrite Z2Nat.id by lia| |done].
  exists (fun id => k <=? at0 (k_match c) id). split; [done|]. intros v Hkv. bool_hyps.
  eapply a_down; [eapply i_acks; [exact HI|apply Ha; lia]|lia].
Qed.

End follower.

(** What a node may react to: not a change of the voters, and only messages sent to it. *)
Definition input_ok (inp : Input) (net : list Message) (i : Z) : Prop :=
  match inp with Quiet => True | Received m => m ∈ net /\ m_to m = i | Reconfigure => False end.

Lemma act_inv cs net g i c inp ms c' : Inv cs net g -> cs !! i = Some c -> input_ok inp net i -> act inp c ms c' ->
  exists g', extends g g' /\ Inv (<[i := c']> cs) (net ++ ms) g'.
Proof.
  intros HI Hc Hin H. pose proof (i_nodes _ _ _ _ HI _ _ Hc) as N. pose proof (n_wf _ _ _ _ N) as Hw.
  pose proof (act_wf _ _ _ _ H Hw) as Hw'. destruct H; subst; simpl in Hin; rewrite ?app_nil_r.
  - exists g. split; [by apply extends_refl|]. rewrite <- (app_nil_r net). eapply inv_same; [done|done|simpl; lia|apply node_ok_adopt; [done|done|lia]|constructor].
  - exists g. split; [by apply extends_refl|]. by eapply inv_quiet.
  - exists g. split; [by apply extends_refl|]. by eapply inv_quiet.
  - exists g. split; [by apply extends_refl|]. eapply inv_quiet; try done; simpl; congruence.
  - by eapply inv_elect.
  - destruct Hin as [Hin _]. by eapply inv_granted.
  - destruct Hin as [Hin Hto]. exists g. split; [by apply extends_refl|]. eapply inv_quiet; try done; simpl; [|congruence]. intros _. split; [done|].
    intros v. unfold at_false. destruct (decide (v = m_from m)) as [->|Hne]; [rewrite lookup_insert_eq|rewrite lookup_insert_ne by done; by left].
    simpl. intros Hrej%negb_true_iff. right. destruct (net_ok HI m Hin) as [_ Hm]. rewrite H0 in Hm. destruct (Hm Hrej) as (vl & b & Hv).
    rewrite H1, Hto in Hv. eauto.
  - by eapply inv_lead.
  - eapply inv_append; try done. destruct H4 as [|[HJ| ->]]; [done| |done]. destruct HJ. destruct (n_memb _ _ _ _ N) as (-> & _). done.
  - exists g. split; [by apply extends_refl|]. eapply inv_quiet; try done; simpl; [|intros ?; split; [done|by left]]. intros ?. split; [done|by left].
  - destruct Hin as [Hin _]. exists g. split; [by apply extends_refl|]. eapply inv_quiet; try done; simpl; [congruence|]. intros _. split; [done|].
    intros p. rewrite at0_insert. case_decide as E; [subst p|by left]. intros Hpos. right.
    destruct (net_ok HI m Hin) as [_ Hm].
    assert (g_ack g (m_term m) (m_from m) (Z.to_nat (m_logIndex m))) as Ha by (destruct H0 as [E|E]; rewrite E in Hm; by apply Hm).
    rewrite <- H2. eapply a_down; [by eapply i_acks|lia].
  - exists g. split; [by apply extends_refl|]. by eapply inv_commit.
  - destruct Hin as [Hin _]. by eapply inv_store.
  - destruct Hin as [Hin _]. exists g. split; [by apply extends_refl|]. eapply inv_learn; try done. lia.
  - destruct Hin as [Hin _]. eapply inv_install; try done; lia.
  - exists g. split; [by apply extends_refl|]. by eapply inv_compact.
  - eapply inv_send; [done|done|done|]. intros m' ->. by destruct Hin.
Qed.

Lemma acts_inv cs net g i c inp ms c' : Inv cs net g -> cs !! i = Some c -> input_ok inp net i -> acts inp c ms c' ->
  exists g', extends g g' /\ Inv (<[i := c']> cs) (net ++ ms) g'.
Proof.
  intros HI Hc Hin H. revert cs net g HI Hc Hin. induction H as [c|c ms c' ms' c'' Ha H IH]; intros cs net g HI Hc Hin.
  - exists g. split; [by apply extends_refl|]. by rewrite app_nil_r, insert_id.
  - destruct (act_inv _ _ _ _ _ _ _ _ HI Hc Hin Ha) as (g1 & X1 & HI1).
    destruct (IH (<[i := c']> cs) (net ++ ms) g1) as (g2 & X2 & HI2); [done|by rewrite lookup_insert_eq| |].
    + destruct inp; try done. destruct Hin. split; [set_solver|done].
    + exists g2. split; [by eapply extends_trans|]. by rewrite insert_insert_eq, <- app_assoc in HI2.
Qed.

End actions.

End Steps.
