(* ===== verification/RaftCluster.v ===== *)
(** * A cluster of nodes

    Nodes of internal/raft behind a network that loses, delays, reorders and repeats
    messages, and hosts that crash and restart. In every execution in which the voters do not change, a term has one
    leader, logs that agree on an entry agree before it, a leader has everything
    committed before its term, and all nodes deliver the same entry at an index. *)

From S2P Require Import Prelude GoStd Fs Json Membership RaftTypes RaftNode RaftCore RaftRefine RaftHandlers RaftOps RaftApi.
From S2P Require Import RaftInv RaftSteps.

Module Cluster.
Import Membership Raft Node Core Refine Handlers Ops Api Inv Steps.

(** The nodes, and every message ever sent: delivery does not remove a message. *)
Record Cluster := mkCluster { nodes : gmap Z Node; net : list Message }.

Section executions.
Context (voters : list Z).

(** A configuration for node [i] with the cluster's voters. *)
Definition config_of (i : Z) (cf : Config) : Prop :=
  validate cf = None /\ c_ID cf = i /\ 0 < i < 2 ^ 64 /\ normalizeVoters (c_Peers cf) = Ok voters.

(** The numbers of a message are 64-bit numbers with room for another entry. *)
Record fits (m : Message) : Prop := {
  ft_term : 0 <= m_term m < 2 ^ 64;
  ft_logIndex : 0 <= m_logIndex m < 2 ^ 64;
  ft_hint : 0 <= m_rejectHint m < 2 ^ 64;
  ft_entries : Forall (fun e => 0 <= e_term e) (m_entries m);
  ft_last : lastNew m + 1 < 2 ^ 64;
  ft_snapshot : forall s, m_snapshot m = Some s -> 0 <= s_index s < 2 ^ 64 /\
    Forall (fun id => 0 <= id < 2 ^ 64) (Voters (s_membership s) ++ JointVoters (s_membership s))
}.

(** The operations of an execution: messages come from the network to their addressee,
    clients propose commands that are not membership commands, and nobody changes the
    voters. *)
Definition allowed (net : list Message) (i : Z) (n : Node) (op : NodeOp) : Prop :=
  room (core n) /\
  match op with
  | OpStep m => m ∈ net /\ m_to m = i /\ fits m
  | OpPropose data => hasMembershipPrefix data = false
  | OpProposeBatch data =>
      k_last (core n) + Z.of_nat (length data) + 1 < 2 ^ 64 /\ Forall (fun d => hasMembershipPrefix d = false) data
  | OpProposeMembership _ => False
  | _ => True
  end.

Definition sent (r : res Update) : list Message := match r with Ok u => u_messages u | _ => [] end.

(** A host stores an update before it sends the update's messages, so a crash in between
    is a restart from the state before the operation. *)
Inductive step : Cluster -> Cluster -> Prop :=
| step_op s i n op r n' :
    nodes s !! i = Some n -> allowed (net s) i n op -> run_op op n = (r, n') ->
    step s (mkCluster (<[i := n']> (nodes s)) (net s ++ sent r))
| step_restart s i n cf n' :
    nodes s !! i = Some n -> config_of i cf -> s_index (snapshot n) <= c_AppliedIndex cf <= commit n ->
    New cf (d_hard (dur (core n))) (d_log (dur (core n))) [d_snap (dur (core n))] = Ok n' ->
    step s (mkCluster (<[i := n']> (nodes s)) (net s)).

Definition initial (s : Cluster) : Prop :=
  net s = [] /\
  forall i n, nodes s !! i = Some n -> exists cf, config_of i cf /\ c_AppliedIndex cf = 0 /\ New cf (mkHard 0 0) [] [] = Ok n.

Definition reachable (s : Cluster) : Prop := exists s0, initial s0 /\ rtc step s0 s.

(** ** The invariant holds in every execution *)

Context (Hvoters : voters_ok voters).

Notation m0 := (mkMembership voters [] 0).
Definition cores (s : Cluster) : gmap Z Core := core <$> nodes s.
Notation holds_inv s g := (Inv.Inv m0 (cores s) (net s) g).

Lemma memb_ok_voters : memb_ok m0.
Proof. split; [done|by left]. Qed.

Definition empty_history : Ghost := mkGhost (fun _ => []) (fun _ => None) (fun _ _ => None) (fun _ _ _ => False).

Lemma fresh_core i cf n : config_of i cf -> c_AppliedIndex cf = 0 -> New cf (mkHard 0 0) [] [] = Ok n -> core n = fresh i voters.
Proof.
  intros (Hv & Hid & Hi & Hn) Ha HN. pose proof (fresh_wf i voters Hi Hvoters) as Hw.
  destruct (New_spec cf (fresh i voters) Hw Hv Hid Hn) as (n' & HN' & E); [rewrite Ha; done|].
  assert (Ok n = Ok n') as [= ->] by (rewrite <- HN, <- HN'; reflexivity). by rewrite E, Ha.
Qed.

Lemma initial_inv s : initial s -> holds_inv s empty_history.
Proof.
  intros [Hnet Hn]. constructor; try done; [|by rewrite Hnet].
  intros i c Hc. unfold cores in Hc. apply lookup_fmap_Some in Hc as (n & Ec & Hc). destruct (Hn i n Hc) as (cf & Hcf & Ha & HN).
  rewrite (fresh_core i cf n) in Ec by done. subst c. destruct Hcf as (_ & _ & Hi & _).
  constructor; try done; [by apply fresh_wf|apply good_nil|by left].
Qed.

Lemma allowed_ok s g i n op : holds_inv s g -> allowed (net s) i n op -> op_ok op (core n) /\ input_ok (op_input op) (net s) i.
Proof.
  intros HI [Hroom Ha]. destruct op; simpl in *; try (split; [split; tauto|done]).
  destruct Ha as (Hin & Hto & []). split; [|done]. split; [done|]. split; [|done]. constructor; try done.
  intros s1 Hty Hs. destruct (ft_snapshot0 s1 Hs) as [Hi Hv]. destruct (net_ok m0 HI m Hin) as [_ Hm]. rewrite Hty in Hm.
  destruct Hm as (s2 & lg & Hs2 & _ & _ & Ht & _). simplify_eq. done.
Qed.

Lemma cores_insert s i n' l : cores (mkCluster (<[i := n']> (nodes s)) l) = <[i := core n']> (cores s).
Proof. unfold cores. simpl. apply fmap_insert. Qed.

Lemma cores_lookup s i n : nodes s !! i = Some n -> cores s !! i = Some (core n).
Proof. intros H. unfold cores. by rewrite lookup_fmap, H. Qed.

Lemma op_inv s g i n op r n' : holds_inv s g -> nodes s !! i = Some n -> allowed (net s) i n op -> run_op op n = (r, n') ->
  let s' := mkCluster (<[i := n']> (nodes s)) (net s ++ sent r) in exists g', extends g g' /\ holds_inv s' g'.
Proof.
  intros HI Hn Ha Hrun s'. pose proof (cores_lookup _ _ _ Hn) as Hc. pose proof (n_wf _ _ _ _ (i_nodes _ _ _ _ HI _ _ Hc)) as Hw.
  destruct (allowed_ok _ _ _ _ _ HI Ha) as [Hop Hin]. pose proof (run_op_spec op n Hw Hop) as H. unfold tries, runs in H.
  rewrite Hrun in H. unfold s'. rewrite cores_insert. destruct r as [u|e| |]; try done.
  - destruct H as [Hacts _ _]. eapply acts_inv; try done. apply memb_ok_voters.
  - subst n'. exists g. split; [by apply extends_refl|]. simpl. by rewrite app_nil_r, insert_id.
Qed.

Lemma restart_inv s g i n cf n' : holds_inv s g -> nodes s !! i = Some n -> config_of i cf ->
  s_index (snapshot n) <= c_AppliedIndex cf <= commit n ->
  New cf (d_hard (dur (core n))) (d_log (dur (core n))) [d_snap (dur (core n))] = Ok n' ->
  holds_inv (mkCluster (<[i := n']> (nodes s)) (net s)) g.
Proof.
  intros HI Hn (Hv & Hid & _ & Hp) Ha HN. pose proof (cores_lookup _ _ _ Hn) as Hc. pose proof (i_nodes _ _ _ _ HI _ _ Hc) as N.
  pose proof (n_wf _ _ _ _ N) as Hw. pose proof (wf_commit _ Hw) as Hwc. destruct (n_memb _ _ _ _ N) as (_ & _ & Ei & _).
  assert (s_index (k_snap (core n)) <= c_AppliedIndex cf <= k_last (core n)) as Ha' by (simpl in *; lia).
  destruct (New_spec cf (core n) Hw Hv) as (n2 & HN2 & E); [by rewrite Hid, (n_id _ _ _ _ N)|by rewrite Ei|done|].
  rewrite HN in HN2. injection HN2 as <-. rewrite cores_insert, E. simpl. rewrite <- (app_nil_r (net s)). eapply inv_same; [done|done|simpl; lia| |constructor].
  eapply node_ok_restart; [done|by apply restarted_wf|done|done|].
  eapply committed_prefix; [apply (n_commit _ _ _ _ N)|]. simpl.
  eapply prefix_same; [apply take_prefix|apply take_prefix|]. rewrite !length_take. lia.
Qed.

Lemma step_inv s s' g : holds_inv s g -> step s s' -> exists g', extends g g' /\ holds_inv s' g'.
Proof.
  intros HI H. destruct H as [s i n op r n' Hn Ha Hrun|s i n cf n' Hn Hcf Ha HN].
  - by eapply op_inv.
  - exists g. split; [by apply extends_refl|]. by eapply restart_inv.
Qed.

Lemma steps_inv s s' g : holds_inv s g -> rtc step s s' -> exists g', extends g g' /\ holds_inv s' g'.
Proof.
  intros HI H. revert g HI. induction H as [s|s s1 s2 H _ IH]; intros g HI; [exists g; split; [by apply extends_refl|done]|].
  destruct (step_inv _ _ _ HI H) as (g1 & X1 & HI1). destruct (IH g1 HI1) as (g2 & X2 & HI2). exists g2. split; [by eapply extends_trans|done].
Qed.

Lemma reachable_inv s : reachable s -> exists g, holds_inv s g.
Proof.
  intros (s0 & Hi & Hs). destruct (steps_inv _ _ _ (initial_inv _ Hi) Hs) as (g & _ & HI). by exists g.
Qed.

(** ** Agreement *)

Lemma entry_at_full g i c x : node_ok m0 g i c -> s_index (k_snap c) < x -> entry_at c x = g_full g i !! Z.to_nat (x - 1).
Proof.
  intros N Hx. destruct (wf_snap _ (n_wf _ _ _ _ N)) as [Hs _]. unfold entry_at. rewrite (proj2 (Z.leb_gt _ _)) by lia.
  rewrite (rep_log _ _ (n_rep _ _ _ _ N)), lookup_drop. f_equal. lia.
Qed.

Lemma entry_at_some g i c x e : node_ok m0 g i c -> entry_at c x = Some e ->
  0 <= s_index (k_snap c) < x /\ g_full g i !! Z.to_nat (x - 1) = Some e.
Proof.
  intros N He. destruct (wf_snap _ (n_wf _ _ _ _ N)) as [Hs _].
  assert (s_index (k_snap c) < x) as Hx by (unfold entry_at in He; destruct (Z.leb_spec x (s_index (k_snap c))); [done|lia]).
  split; [lia|]. by rewrite <- (entry_at_full g i c x N Hx).
Qed.

(** The committed part of a node's log holds what the node has at a committed index. *)
Lemma committed_entry g i c x e : node_ok m0 g i c -> x <= k_commit c -> entry_at c x = Some e ->
  0 < x /\ take (Z.to_nat (k_commit c)) (g_full g i) !! Z.to_nat (x - 1) = Some e.
Proof.
  intros N Hx He. destruct (entry_at_some _ _ _ _ _ N He) as [Hs Hl]. split; [lia|]. by rewrite lookup_take_lt by lia.
Qed.

Lemma committed_agree s g g1 i n s' j n' x e e' : holds_inv s g -> extends g g1 -> holds_inv s' g1 ->
  nodes s !! i = Some n -> nodes s' !! j = Some n' -> x <= commit n -> x <= commit n' ->
  entry_at (core n) x = Some e -> entry_at (core n') x = Some e' -> e = e'.
Proof.
  intros HI X HI1 Hn Hn' Hx Hx' He He'.
  pose proof (i_nodes _ _ _ _ HI _ _ (cores_lookup _ _ _ Hn)) as N. pose proof (i_nodes _ _ _ _ HI1 _ _ (cores_lookup _ _ _ Hn')) as N'.
  destruct (committed_entry _ _ _ _ _ N Hx He) as [_ H1]. destruct (committed_entry _ _ _ _ _ N' Hx' He') as [_ H2].
  pose proof (x_committed m0 X _ _ _ (n_commit _ _ _ _ N) (Z.le_refl _)) as C1.
  destruct (committed_comparable m0 HI1 _ _ _ _ C1 (n_commit _ _ _ _ N')) as [Hp|Hp].
  - pose proof (prefix_lookup_Some _ _ _ _ H1 Hp). congruence.
  - pose proof (prefix_lookup_Some _ _ _ _ H2 Hp). congruence.
Qed.

(** C4: Election safety: in every execution with fixed voters (messages lost, delayed,
    reordered and repeated, hosts crashing and restarting), a term has at most one leader. *)
Theorem election_safety s i j n n' : reachable s -> nodes s !! i = Some n -> nodes s !! j = Some n' ->
  role n = Leader -> role n' = Leader -> term n = term n' -> i = j.
Proof.
  intros Hs Hn Hn' Hr Hr' Ht. destruct (reachable_inv _ Hs) as [g HI].
  destruct (n_leader _ _ _ _ (i_nodes _ _ _ _ HI _ _ (cores_lookup _ _ _ Hn)) Hr) as [Hl _].
  destruct (n_leader _ _ _ _ (i_nodes _ _ _ _ HI _ _ (cores_lookup _ _ _ Hn')) Hr') as [Hl' _].
  simpl in *. rewrite Ht in Hl. congruence.
Qed.

(** Log matching: if two nodes hold entries of one term at one index, their logs
    agree at every smaller index that both still hold. *)
Theorem logs_match s i j n n' x e e' y : reachable s -> nodes s !! i = Some n -> nodes s !! j = Some n' ->
  entry_at (core n) x = Some e -> entry_at (core n') x = Some e' -> e_term e = e_term e' ->
  s_index (snapshot n) < y <= x -> s_index (snapshot n') < y -> entry_at (core n) y = entry_at (core n') y.
Proof.
  intros Hs Hn Hn' He He' Ht Hy Hy'. destruct (reachable_inv _ Hs) as [g HI].
  pose proof (i_nodes _ _ _ _ HI _ _ (cores_lookup _ _ _ Hn)) as N. pose proof (i_nodes _ _ _ _ HI _ _ (cores_lookup _ _ _ Hn')) as N'.
  destruct (entry_at_some _ _ _ _ _ N He) as [Hs1 H1]. destruct (entry_at_some _ _ _ _ _ N' He') as [Hs2 H2]. simpl in *.
  rewrite (entry_at_full g i), (entry_at_full g j) by (done || (simpl; lia)).
  pose proof (tm_nat _ _ _ H1) as T1. pose proof (tm_nat _ _ _ H2) as T2. replace (Z.of_nat (Z.to_nat (x - 1)) + 1) with x in * by lia.
  destruct (good_log _ _ (n_good _ _ _ _ N) _ _ H1) as [_ Hpos].
  pose proof (log_matching g _ _ x (n_matching _ _ _ _ N) (n_matching _ _ _ _ N') ltac:(congruence) ltac:(lia)) as E.
  apply (f_equal (.!! Z.to_nat (y - 1))) in E. by rewrite !lookup_take_lt in E by lia.
Qed.

(** C5: Leader completeness: whatever a node has committed, now or earlier in the
    execution, is in the log (or the snapshot) of every leader of that or a later term. *)
Theorem leader_completeness s s' i j n n' x e : reachable s -> rtc step s s' -> nodes s !! i = Some n -> nodes s' !! j = Some n' ->
  role n' = Leader -> term n <= term n' -> x <= commit n -> entry_at (core n) x = Some e ->
  x <= k_last (core n') /\ (s_index (snapshot n') < x -> entry_at (core n') x = Some e).
Proof.
  intros Hs Hss Hn Hn' Hr Ht Hx He. destruct (reachable_inv _ Hs) as [g HI]. destruct (steps_inv _ _ _ HI Hss) as (g1 & X & HI1).
  pose proof (i_nodes _ _ _ _ HI _ _ (cores_lookup _ _ _ Hn)) as N. pose proof (i_nodes _ _ _ _ HI1 _ _ (cores_lookup _ _ _ Hn')) as N'.
  destruct (committed_entry _ _ _ _ _ N Hx He) as [Hpos H1]. destruct (n_leader _ _ _ _ N' Hr) as [Hl _].
  pose proof (x_committed m0 X _ _ _ (n_commit _ _ _ _ N) (Z.le_refl _)) as C1.
  pose proof (committed_lead m0 HI1 _ _ _ _ _ C1 Hl Ht) as Hp. pose proof (prefix_lookup_Some _ _ _ _ H1 Hp) as H2. split.
  - rewrite (rep_last _ _ (n_rep _ _ _ _ N') (n_wf _ _ _ _ N')). apply lookup_lt_Some in H2. lia.
  - intros Hsn. by rewrite (entry_at_full g1 j).
Qed.

(** C2: State machine safety: any two entries with one index that nodes hand to their
    applications, at any time, before or after restarts, are the same entry. *)
Theorem delivered_entries_agree s i n op u n1 s2 j n2 op' u' n3 e e' : reachable s ->
  nodes s !! i = Some n -> allowed (net s) i n op -> run_op op n = (Ok u, n1) ->
  rtc step (mkCluster (<[i := n1]> (nodes s)) (net s ++ u_messages u)) s2 ->
  nodes s2 !! j = Some n2 -> allowed (net s2) j n2 op' -> run_op op' n2 = (Ok u', n3) ->
  e ∈ u_committed u -> e' ∈ u_committed u' -> e_index e = e_index e' -> e = e'.
Proof.
  intros Hs Hn Ha Hrun Hss Hn2 Ha' Hrun' He He' Hi. destruct (reachable_inv _ Hs) as [g HI].
  destruct (op_inv _ _ _ _ _ _ _ HI Hn Ha Hrun) as (g1 & _ & HI1). destruct (steps_inv _ _ _ HI1 Hss) as (g2 & X2 & HI2).
  destruct (op_inv _ _ _ _ _ _ _ HI2 Hn2 Ha' Hrun') as (g3 & X3 & HI3).
  pose proof (n_wf _ _ _ _ (i_nodes _ _ _ _ HI _ _ (cores_lookup _ _ _ Hn))) as Hw.
  pose proof (n_wf _ _ _ _ (i_nodes _ _ _ _ HI2 _ _ (cores_lookup _ _ _ Hn2))) as Hw2.
  destruct (run_op_performs _ _ _ _ Hw (proj1 (allowed_ok _ _ _ _ _ HI Ha)) Hrun) as [[_ _ Ec] Hw1].
  destruct (run_op_performs _ _ _ _ Hw2 (proj1 (allowed_ok _ _ _ _ _ HI2 Ha')) Hrun') as [[_ _ Ec'] Hw3].
  rewrite Ec in He. rewrite Ec' in He'. apply between_entry_at in He as [Hr He], He' as [Hr' He']; [|done|done].
  eapply (committed_agree _ g1 g3 i n1 _ j n3 (e_index e)); [exact HI1|by eapply extends_trans|exact HI3| | | | | |].
  - apply lookup_insert_eq.
  - apply lookup_insert_eq.
  - lia.
  - lia.
  - done.
  - by rewrite Hi.
Qed.

End executions.

(** ** Running executions *)

(** A schedule: a node's time passes, a message of the network is delivered, a client
    proposes, a host restarts. *)
Inductive Event := EvTick (i : Z) | EvDeliver (k : nat) | EvPropose (i : Z) (data : bytes) | EvRestart (i : Z) (cf : Config).

Definition u64_b (z : Z) : bool := (0 <=? z) && (z <? 2 ^ 64).

Definition fits_b (m : Message) : bool :=
  u64_b (m_term m) && u64_b (m_logIndex m) && u64_b (m_rejectHint m) && forallb (fun e => 0 <=? e_term e) (m_entries m) &&
  (lastNew m + 1 <? 2 ^ 64) &&
  match m_snapshot m with
  | None => true
  | Some s => u64_b (s_index s) && forallb u64_b (Voters (s_membership s) ++ JointVoters (s_membership s))
  end.

Definition room_b (n : Node) : bool := (k_term (core n) + 1 <? 2 ^ 64) && (k_last (core n) + 2 <? 2 ^ 64).

Definition event_op (s : Cluster) (ev : Event) : option (Z * NodeOp) :=
  match ev with
  | EvTick i => Some (i, OpTick)
  | EvDeliver k => m ← net s !! k; if fits_b m then Some (m_to m, OpStep m) else None
  | EvPropose i data => if hasMembershipPrefix data then None else Some (i, OpPropose data)
  | EvRestart _ _ => None
  end.

Definition restart_event (voters : list Z) (s : Cluster) (ev : Event) : option Cluster :=
  match ev with
  | EvRestart i cf =>
      n ← nodes s !! i;
      if bool_decide (validate cf = None) && (c_ID cf =? i) && u64_b i && (0 <? i) &&
         match normalizeVoters (c_Peers cf) with Ok l => bool_decide (l = voters) | _ => false end &&
         (s_index (snapshot n) <=? c_AppliedIndex cf) && (c_AppliedIndex cf <=? commit n)
      then match New cf (d_hard (dur (core n))) (d_log (dur (core n))) [d_snap (dur (core n))] with
           | Ok n' => Some (mkCluster (<[i := n']> (nodes s)) (net s))
           | _ => None
           end
      else None
  | _ => None
  end.

Definition exec1 (voters : list Z) (s : Cluster) (ev : Event) : option Cluster :=
  match event_op s ev with
  | Some (i, op) =>
      n ← nodes s !! i;
      if room_b n then let r := run_op op n in Some (mkCluster (<[i := r.2]> (nodes s)) (net s ++ sent r.1)) else None
  | None => restart_event voters s ev
  end.

Definition exec (voters : list Z) (s : Cluster) (l : list Event) : option Cluster :=
  foldl (fun o ev => s ← o; exec1 voters s ev) (Some s) l.

Lemma fits_b_ok m : fits_b m = true -> fits m.
Proof.
  unfold fits_b. rewrite !andb_true_iff. unfold u64_b. intros (((((H1 & H2) & H3) & H4) & H5) & H6). bool_hyps.
  constructor; try lia.
  - rewrite forallb_forall in H4. apply Forall_forall. intros e He. apply list_elem_of_In, H4 in He. lia.
  - intros s Es. rewrite Es in H6. apply andb_true_iff in H6 as [Hi Hv]. bool_hyps. split; [lia|]. rewrite forallb_forall in Hv.
    apply Forall_forall. intros id Hid. apply list_elem_of_In, Hv in Hid. bool_hyps. lia.
Qed.

Lemma exec1_step voters s ev s' : exec1 voters s ev = Some s' -> step voters s s'.
Proof.
  unfold exec1. destruct (event_op s ev) as [[i op]|] eqn:E.
  - intros H. apply bind_Some in H as (n & Hn & H). destruct (room_b n) eqn:Hr; [|done]. injection H as <-.
    destruct (run_op op n) as [r n'] eqn:Hrun. simpl. eapply step_op; [done| |done].
    unfold room_b in Hr. bool_hyps. split; [split; lia|]. destruct ev as [i'|k|i' data|]; simpl in E; simplify_eq; try done.
    + apply bind_Some in E as (m & Hm & E). destruct (fits_b m) eqn:Hf; [|done]. simplify_eq.
      split_and!; [by eapply list_elem_of_lookup_2|done|by apply fits_b_ok].
    + destruct (hasMembershipPrefix data) eqn:Hd; [done|]. by simplify_eq.
  - destruct ev as [| | |i cf]; try done. simpl. intros H. apply bind_Some in H as (n & Hn & H).
    destruct (_ && _) eqn:Hb; [|done]. destruct (New _ _ _ _) as [n'| | |] eqn:HN; try done. injection H as <-.
    unfold u64_b in Hb. rewrite !andb_true_iff in Hb. destruct Hb as ((((((Hv & Hid) & Hu) & Hi) & Hp) & Ha1) & Ha2). bool_hyps.
    destruct (normalizeVoters (c_Peers cf)) as [l| | |] eqn:Hnv; try done. apply bool_decide_eq_true in Hp as ->.
    eapply step_restart; [done| | |done]; [|lia]. split_and!; [done|done|lia|lia|done].
Qed.

Lemma exec_steps voters l : forall s s', exec voters s l = Some s' -> rtc (step voters) s s'.
Proof.
  unfold exec. induction l as [|ev l IH]; intros s s' H; simpl in H; [by simplify_eq|].
  destruct (exec1 voters s ev) as [s1|] eqn:E.
  - eapply rtc_l; [by eapply exec1_step|]. by apply IH.
  - exfalso. clear -H. induction l as [|ev' l IH]; simpl in H; [done|auto].
Qed.

(** ** An execution of three nodes *)

Definition three (i : Z) : Config := mkConfig i [1; 2; 3] 10 20 2 10 (i + 6) 0 0 0.

Definition three_nodes : Cluster := mkCluster {[1 := boot (three 1); 2 := boot (three 2); 3 := boot (three 3)]} [].

(** Node 1 times out, wins node 2's pre-vote and vote, and sends its first entry, which
    node 2 stores; then node 1 hears of it and commits, and tells node 2. *)
Definition campaign : list Event := repeat (EvTick 1) 16 ++ (EvDeliver <$> [0; 2; 3; 5; 6])%nat.

Definition after (l : list Event) : Cluster := default three_nodes (exec [1; 2; 3] three_nodes l).
Definition node_of (s : Cluster) (i : Z) : Node := default (boot solo) (nodes s !! i).
Definition message_of (s : Cluster) (k : nat) : Message :=
  default (mkMessage MsgPreVote 0 0 0 0 0 [] 0 false 0 0 None OriginOther) (net s !! k).

Definition elected : Cluster := after campaign.
Definition outcome (s : Cluster) (i : Z) (k : nat) : Update * Node :=
  match run_op (OpStep (message_of s k)) (node_of s i) with (Ok u, n) => (u, n) | (_, n) => (noUpdate, n) end.
Definition told_leader : Cluster :=
  mkCluster (<[1 := (outcome elected 1 8).2]> (nodes elected)) (net elected ++ u_messages (outcome elected 1 8).1).

Lemma three_voters_ok : voters_ok [1; 2; 3].
Proof. split; [done|]. split; [repeat constructor|]. repeat (constructor; [lia|]). constructor. Qed.

Lemma three_config i : i ∈ [1; 2; 3] -> config_of [1; 2; 3] i (three i).
Proof. intros Hi. set_unfold in Hi. destruct Hi as [->|[->|[->|[]]]]; split_and!; try done; by vm_compute. Qed.

Lemma three_initial : initial [1; 2; 3] three_nodes.
Proof.
  split; [done|]. intros i n Hn. assert (i ∈ [1; 2; 3] /\ n = boot (three i)) as [Hi ->].
  { simpl in Hn. destruct (decide (i = 1)) as [->|]; [rewrite lookup_insert_eq in Hn; simplify_eq; set_solver|].
    rewrite lookup_insert_ne in Hn by done. destruct (decide (i = 2)) as [->|]; [rewrite lookup_insert_eq in Hn; simplify_eq; set_solver|].
    rewrite lookup_insert_ne in Hn by done. apply lookup_singleton_Some in Hn as [<- <-]. set_solver. }
  exists (three i). split_and!; [by apply three_config|done|].
  set_unfold in Hi. destruct Hi as [->|[->|[->|[]]]]; vm_compute; reflexivity.
Qed.

Lemma elected_exec : exec [1; 2; 3] three_nodes campaign = Some elected.
Proof. vm_compute. reflexivity. Qed.

Lemma elected_reachable : reachable [1; 2; 3] elected.
Proof. exists three_nodes. split; [apply three_initial|]. eapply exec_steps. apply elected_exec. Qed.

Lemma elected_facts : nodes elected !! 1 = Some (node_of elected 1) /\ nodes elected !! 2 = Some (node_of elected 2) /\
  role (node_of elected 1) = Leader /\ entry_at (core (node_of elected 1)) 1 = Some (mkEntry 1 1 []) /\
  entry_at (core (node_of elected 2)) 1 = Some (mkEntry 1 1 []).
Proof. vm_compute. auto. Qed.

Lemma deliver_ok s i k : net s !! k = Some (message_of s k) -> fits_b (message_of s k) = true -> m_to (message_of s k) = i ->
  room_b (node_of s i) = true -> allowed (net s) i (node_of s i) (OpStep (message_of s k)).
Proof.
  intros Hm Hf Hi Hr. unfold room_b in Hr. bool_hyps. split; [split; lia|].
  split_and!; [by eapply list_elem_of_lookup_2|done|by apply fits_b_ok].
Qed.

Lemma leader_told : run_op (OpStep (message_of elected 8)) (node_of elected 1) = (Ok (outcome elected 1 8).1, (outcome elected 1 8).2).
Proof. vm_compute. reflexivity. Qed.

Lemma follower_told : run_op (OpStep (message_of told_leader 9)) (node_of told_leader 2) = (Ok (outcome told_leader 2 9).1, (outcome told_leader 2 9).2).
Proof. vm_compute. reflexivity. Qed.

Lemma leader_allowed : allowed (net elected) 1 (node_of elected 1) (OpStep (message_of elected 8)).
Proof. apply deliver_ok; vm_compute; reflexivity. Qed.

Lemma follower_allowed : allowed (net told_leader) 2 (node_of told_leader 2) (OpStep (message_of told_leader 9)).
Proof. apply deliver_ok; vm_compute; reflexivity. Qed.

Lemma election_safety_witness : role (node_of elected 1) = Leader /\ 1 = 1.
Proof.
  destruct elected_facts as (Hn & _ & Hr & _). split; [exact Hr|].
  exact (election_safety [1; 2; 3] three_voters_ok elected 1 1 _ _ elected_reachable Hn Hn Hr Hr eq_refl).
Defined.

Lemma elected_snapshots : s_index (snapshot (node_of elected 1)) < 1 <= 1 /\ s_index (snapshot (node_of elected 2)) < 1.
Proof.
  assert (s_index (snapshot (node_of elected 1)) = 0 /\ s_index (snapshot (node_of elected 2)) = 0) as [-> ->]; [vm_compute; auto|lia].
Qed.

Lemma logs_match_witness : entry_at (core (node_of elected 1)) 1 = entry_at (core (node_of elected 2)) 1.
Proof.
  destruct elected_facts as (Hn1 & Hn2 & _ & He1 & He2). destruct elected_snapshots as [Hs1 Hs2].
  exact (logs_match [1; 2; 3] three_voters_ok elected 1 2 (node_of elected 1) (node_of elected 2) 1 (mkEntry 1 1 []) (mkEntry 1 1 []) 1
    elected_reachable Hn1 Hn2 He1 He2 eq_refl Hs1 Hs2).
Defined.

Lemma told_facts : nodes told_leader !! 1 = Some (node_of told_leader 1) /\ nodes told_leader !! 2 = Some (node_of told_leader 2) /\
  role (node_of told_leader 1) = Leader /\ term (node_of told_leader 1) = 1 /\ commit (node_of told_leader 1) = 1 /\
  entry_at (core (node_of told_leader 1)) 1 = Some (mkEntry 1 1 []).
Proof. vm_compute. auto 6. Qed.

Lemma told_reachable : reachable [1; 2; 3] told_leader.
Proof.
  destruct elected_reachable as (s0 & Hi & Hs). exists s0. split; [exact Hi|]. eapply rtc_r; [exact Hs|].
  destruct elected_facts as (Hn & _). exact (step_op [1; 2; 3] elected 1 _ _ _ _ Hn leader_allowed leader_told).
Qed.

Lemma leader_completeness_witness : 1 <= k_last (core (node_of told_leader 1)).
Proof.
  destruct told_facts as (Hn & _ & Hr & Ht & Hc & He).
  refine (proj1 (leader_completeness [1; 2; 3] three_voters_ok told_leader told_leader 1 1 _ _ 1 _ told_reachable (rtc_refl _ _)
    Hn Hn Hr _ _ He)).
  - reflexivity.
  - by rewrite Hc.
Defined.

Lemma delivered_entries_agree_witness :
  u_committed (outcome elected 1 8).1 = [mkEntry 1 1 []] /\ u_committed (outcome told_leader 2 9).1 = [mkEntry 1 1 []] /\
  mkEntry 1 1 [] = mkEntry 1 1 [].
Proof.
  assert (u_committed (outcome elected 1 8).1 = [mkEntry 1 1 []]) as E1 by (vm_compute; reflexivity).
  assert (u_committed (outcome told_leader 2 9).1 = [mkEntry 1 1 []]) as E2 by (vm_compute; reflexivity).
  split; [exact E1|split; [exact E2|]]. destruct elected_facts as (Hn1 & _). destruct told_facts as (_ & Hn2 & _).
  assert (mkEntry 1 1 [] ∈ u_committed (outcome elected 1 8).1) as H1 by (rewrite E1; by left).
  assert (mkEntry 1 1 [] ∈ u_committed (outcome told_leader 2 9).1) as H2 by (rewrite E2; by left).
  exact (delivered_entries_agree [1; 2; 3] three_voters_ok elected 1 (node_of elected 1) (OpStep (message_of elected 8))
    (outcome elected 1 8).1 (outcome elected 1 8).2 told_leader 2 (node_of told_leader 2) (OpStep (message_of told_leader 9))
    (outcome told_leader 2 9).1 (outcome told_leader 2 9).2 (mkEntry 1 1 []) (mkEntry 1 1 []) elected_reachable
    Hn1 leader_allowed leader_told (rtc_refl (step [1; 2; 3]) told_leader) Hn2 follower_allowed follower_told H1 H2 eq_refl).
Defined.

End Cluster.
