(* ===== verification/Lagging.v ===== *)
(** * A follower behind its leader

    src/internal/raft/node.go: the exchange of handleAppend and handleAppendResponse between
    a leader that has heard nothing of a follower's latest entries and the follower, which has
    compacted them. The follower refuses every append that starts behind its snapshot, and
    the leader answers every refusal with another one. *)

From S2P Require Import Prelude GoStd Fs Json Membership RaftTypes RaftNode RaftCore RaftRefine RaftHandlers RaftOps RaftApi RaftInv RaftCluster.

Module Lagging.
Import Membership Raft Node Core Refine Handlers Ops Api Cluster.

(** A node handles a message and answers with one message. *)
Definition answer (m : Message) (n : Node) : option (Message * Node) :=
  match Step m n with (Ok u, n') => match u_messages u with [m'] => Some (m', n') | _ => None end | _ => None end.

(** The follower handles an append, and the leader its answer. *)
Definition round (x : Message * Node * Node) : option (Message * Node * Node) :=
  let '(m, leader, follower) := x in
  r ← answer m follower; r' ← answer r.1 leader; Some (r'.1, r'.2, r.2).

Fixpoint rounds (k : nat) (x : Message * Node * Node) : option (Message * Node * Node) :=
  match k with O => Some x | S k' => x' ← round x; rounds k' x' end.

(** ** What the leader sends *)

Lemma malformed_entries_none m l : forall i previous, 0 <= m_logIndex m + i -> m_logIndex m + i + Z.of_nat (length l) < 2 ^ 64 ->
  log_ok (m_logIndex m + i) (m_term m) l -> terms_ok previous l -> Forall (fun e => Z.of_nat (length (e_data e)) <= MaxEntryBytes) l ->
  malformed_entries m i previous l = [].
Proof.
  induction l as [|e l IH]; intros i previous Hi Hl Hok Ht Hd; [done|]. cbn [malformed_entries length] in *. cbv zeta.
  apply Forall_cons in Hd as [He Hd]. destruct (Hok 0%nat e eq_refl) as [Ei Et]. unfold terms_ok in Ht. rewrite fmap_cons in Ht.
  apply StronglySorted_inv in Ht as [Ht Hp]. apply Forall_cons in Hp as [Hp _].
  rewrite u64_small by lia. rewrite (proj2 (Z.eqb_eq (e_index e) _)) by lia. rewrite (proj2 (Z.eqb_neq (e_term e) _)) by lia.
  rewrite (proj2 (Z.ltb_ge MaxEntryBytes _)) by lia. rewrite (proj2 (Z.ltb_ge (m_term m) _)) by lia. rewrite (proj2 (Z.ltb_ge (e_term e) _)) by lia.
  rewrite andb_false_r. cbn [negb]. apply IH; [lia|lia| |done|done].
  rewrite Z.add_assoc. apply (log_ok_drop _ _ 1 (e :: l)) in Hok; [|cbn; lia]. exact Hok.
Qed.

Lemma sorted_suffix (t : Z) (l : list Z) j : StronglySorted Z.le (t :: l) -> (j <= length l)%nat ->
  exists x, (t :: l) !! j = Some x /\ StronglySorted Z.le (x :: drop j l).
Proof.
  intros Hs Hj. destruct (lookup_lt_is_Some_2 (t :: l) j) as [x Hx]; [cbn; lia|]. exists x. split; [done|].
  rewrite <- (take_drop_middle _ _ _ Hx) in Hs. apply StronglySorted_app_1_r in Hs. exact Hs.
Qed.

(** The entries from [next] on continue the entry before them. *)
Lemma terms_from c next : wf c -> s_index (k_snap c) < next <= k_last c + 1 ->
  terms_ok (k_termAt c (next - 1)) (drop (Z.to_nat (next - s_index (k_snap c) - 1)) (k_log c)).
Proof.
  intros Hw Hn. unfold k_last in Hn. pose proof (wf_terms _ Hw) as Ht. unfold terms_ok in *. set (j := Z.to_nat _).
  destruct (sorted_suffix _ _ j Ht) as (x & Hx & Hs); [rewrite length_fmap; lia|]. rewrite fmap_drop. replace (k_termAt c (next - 1)) with x; [done|].
  unfold k_termAt. destruct (Z.leb_spec (next - 1) (s_index (k_snap c))) as [Hle|Hgt].
  - assert (next - 1 = s_index (k_snap c)) as -> by lia. rewrite Z.eqb_refl. assert (j = 0%nat) as Hj by lia. rewrite Hj in Hx. by injection Hx.
  - destruct j as [|j'] eqn:Ej; [lia|]. change ((e_term <$> k_log c) !! j' = Some x) in Hx. rewrite list_lookup_fmap in Hx.
    replace (Z.to_nat (next - 1 - s_index (k_snap c) - 1)) with j' by lia. destruct (k_log c !! j') as [e|]; [by injection Hx|done].
Qed.

Lemma termAt_pos c i : wf c -> 0 < i -> s_index (k_snap c) <= i <= k_last c -> 0 < k_termAt c i.
Proof.
  intros Hw H0 Hi. unfold k_last in Hi. unfold k_termAt. destruct (Z.leb_spec i (s_index (k_snap c))) as [Hle|Hgt].
  - assert (i = s_index (k_snap c)) as -> by lia. rewrite Z.eqb_refl. destruct (wf_snap _ Hw) as (_ & H1 & H2).
    assert (s_term (k_snap c) <> 0) by (intros E; apply H2 in E; lia). lia.
  - destruct (lookup_lt_is_Some_2 (k_log c) (Z.to_nat (i - s_index (k_snap c) - 1))) as [e He]; [lia|]. rewrite He. by destruct (wf_log _ Hw _ _ He) as [_ [? _]].
Qed.

(** ** What the follower answers *)

(** An append that starts behind a snapshot: at an entry the snapshot covers, or at the
    start of the log with an entry the snapshot covers. *)
Definition starts_behind (s : Snapshot) (m : Message) : Prop :=
  (0 < m_logIndex m < s_index s /\ m_logTerm m <> 0) \/
  (m_logIndex m = 0 /\ m_logTerm m = 0 /\ exists e l, m_entries m = e :: l /\ 0 < e_index e < s_index s /\ e_term e <> 0).

Definition refusal_hint (n : Node) (m : Message) : Z := if m_logIndex m =? 0 then u64 (commit n + 1) else m_logIndex m.

Lemma lower_hint_stays n t fuel hint : hint <= s_index (snapshot n) -> 0 <= s_index (snapshot n) -> s_index (snapshot n) + 1 < 2 ^ 64 -> lower_hint n t fuel hint = hint.
Proof.
  intros Hh H0 H1. destruct fuel as [|fuel]; [done|]. cbn [lower_hint]. rewrite u64_small by lia. by rewrite (proj2 (Z.ltb_ge _ _)) by lia.
Qed.

Lemma covered_term n i : wf (core n) -> 0 < i < s_index (snapshot n) -> termAt n i = 0.
Proof.
  intros Hw Hi. unfold termAt. rewrite (proj2 (Z.eqb_neq i 0)), (proj2 (Z.eqb_neq i _)), (proj2 (Z.leb_le i _)) by lia. done.
Qed.

(** The message comes from the leader the node follows, and is well formed. *)
Record from_leader (n : Node) (m : Message) : Prop := {
  fl_type : m_type m = MsgAppend;
  fl_from : leaderID n = m_from m;
  fl_other : m_from m <> c_ID (cfg n);
  fl_to : m_to m = c_ID (cfg n);
  fl_term : m_term m = term n;
  fl_peer : isCommunicationPeer n (m_from m) = true;
  fl_formed : malformedAppend m = []
}.

(** A follower that hears of its leader. *)
Definition renewed (n : Node) : Node := (resetElectionTimer (with_leaderID (leaderID n) n)).2.

Lemma renewed_same n : core (renewed n) = core n /\ cfg (renewed n) = cfg n /\ leaderID (renewed n) = leaderID n /\
  (forall i, termAt (renewed n) i = termAt n i) /\ lastIndex (renewed n) = lastIndex n /\ snapshot (renewed n) = snapshot n /\
  term (renewed n) = term n /\ commit (renewed n) = commit n.
Proof. done. Qed.

Lemma handleAppend_follows n m : role n = Follower -> leaderID n = m_from m -> handleAppend m n =
  (if (lastIndex n <? m_logIndex m) || negb (termAt n (m_logIndex m) =? m_logTerm m) then
     mret (add_messages [reject_append n (m_from m)
       (if m_logIndex m <=? lastIndex n then lower_hint (renewed n) (termAt n (m_logIndex m)) (length (log n)) (m_logIndex m) else u64 (lastIndex n + 1))] noUpdate)
   else
     match scan_entries (renewed n) (m_entries m) with
     | ScanMatched => finish_append m noUpdate
     | ScanCommitted => mret (add_messages [reject_append n (m_from m) (u64 (commit n + 1))] noUpdate)
     | ScanNew truncate rest => store_entries m truncate rest noUpdate
     end) (renewed n).
Proof.
  intros Hr Hf. unfold renewed. rewrite Hf. unfold handleAppend. unfold mbind at 1, M_bind at 1, get, gets, id. rewrite Hf, Z.eqb_refl, bool_decide_true by done.
  reflexivity.
Qed.

Lemma handleAppend_refuses n m : wf (core n) -> k_last (core n) + 1 < 2 ^ 64 -> role n = Follower -> from_leader n m -> starts_behind (snapshot n) m ->
  handleAppend m n = (Ok (add_messages [reject_append n (m_from m) (refusal_hint n m)] noUpdate), renewed n).
Proof.
  intros Hw Hroom Hr [] Hb. pose proof (wf_snap _ Hw) as [Hs _]. pose proof (wf_commit _ Hw) as Hc. pose proof (lastIndex_core _ Hw) as El.
  destruct (renewed_same n) as (_ & _ & _ & Et' & El' & Es' & _ & Ec').
  cbn in Hs, Hc. unfold k_last in Hc, Hroom, El. cbn in Hc, Hroom, El. rewrite handleAppend_follows by done. unfold refusal_hint.
  destruct Hb as [[Hi Ht]|(Hi & Ht & e & l & He & Hei & Het)].
  - rewrite (covered_term n (m_logIndex m)) by done. rewrite (proj2 (Z.eqb_neq 0 _)), orb_true_r by done. rewrite (proj2 (Z.leb_le _ _)) by lia.
    rewrite lower_hint_stays by (rewrite Es'; lia). by rewrite (proj2 (Z.eqb_neq _ 0)) by lia.
  - rewrite Hi, Ht, He. rewrite (proj2 (Z.ltb_ge _ _)) by lia. change (termAt n 0) with 0. cbn [scan_entries Z.eqb negb orb].
    rewrite Et', El', Ec'. rewrite (covered_term n (e_index e)) by done.
    rewrite (proj2 (Z.leb_le (e_index e) (lastIndex n))), (proj2 (Z.eqb_neq 0 _)), (proj2 (Z.leb_le _ (commit n))) by lia. done.
Qed.

(** Before the dispatch: a message of the node's term from a peer. *)
Lemma Step_dispatch m n : m_to m = c_ID (cfg n) -> isCommunicationPeer n (m_from m) = true -> m_from m <> c_ID (cfg n) ->
  m_term m = term n -> (m_type m = MsgAppend -> malformedAppend m = []) ->
  Step m n = (u ← dispatch m; mret (merge noUpdate u)) n.
Proof.
  intros Hto Hp Ho Ht Hf. unfold Step. unfold mbind at 1, M_bind at 1, get, gets, id. rewrite Hto, Z.eqb_refl, andb_false_r, Hp, Ht, Z.ltb_irrefl.
  rewrite (proj2 (Z.eqb_neq _ _)) by done. cbn [negb orb]. cbv zeta.
  assert ((if bool_decide (m_type m = MsgAppend) then malformedAppend m else []) = []) as -> by (case_bool_decide; auto).
  cbn [length Nat.eqb negb]. rewrite !andb_false_r. reflexivity.
Qed.

(** The follower's answer. *)
Lemma follower_answers n m : wf (core n) -> k_last (core n) + 1 < 2 ^ 64 -> role n = Follower -> from_leader n m -> starts_behind (snapshot n) m ->
  answer m n = Some (reject_append n (m_from m) (refusal_hint n m), renewed n).
Proof.
  intros Hw Hroom Hr Hm Hb. pose proof (handleAppend_refuses n m Hw Hroom Hr Hm Hb) as Hh. destruct Hm. unfold answer.
  rewrite Step_dispatch by done. unfold dispatch, mbind, M_bind, get, gets, id. rewrite fl_type0, Hh. done.
Qed.

(** ** What the leader makes of a refusal *)

(** The append for peer [p] from the entry [next] on. *)
Definition append_to (l : Node) (p next context : Z) (origin : MessageOrigin) : Message :=
  mkMessage MsgAppend (c_ID (cfg l)) p (term l) (next - 1) (termAt l (next - 1)) (cappedEntries l next) (commit l) false 0 context None origin.

(** The leader has another next index for [p], and is the same otherwise. *)
Record resends (p next : Z) (l l' : Node) : Prop := {
  rs_core : core l' = w_next (<[p := next]> (nextIndex l)) (core l);
  rs_cfg : cfg l' = cfg l;
  rs_peers q : isCommunicationPeer l' q = isCommunicationPeer l q;
  rs_append q i context origin : append_to l' q i context origin = append_to l q i context origin
}.

Lemma allocated_spec l : allocated l = true -> exists o a, outstanding l = Some o /\ outstandingAge l = Some a.
Proof. unfold allocated. destruct (outstanding l), (outstandingAge l); try done. eauto. Qed.

Lemma appendMessage_sends l p context origin : allocated l = true -> at_nil (outstanding l) p = 0 ->
  0 <= s_index (snapshot l) < at0 (nextIndex l) p -> exists l', appendMessage p context origin l = (Ok (append_to l p (at0 (nextIndex l) p) context origin), l') /\
    core l' = core l /\ cfg l' = cfg l /\ (forall q, isCommunicationPeer l' q = isCommunicationPeer l q) /\
    (forall q i context origin, append_to l' q i context origin = append_to l q i context origin).
Proof.
  intros Ha Ho Hn. destruct (allocated_spec l Ha) as (o & a & Eo & Ea). unfold appendMessage. unfold mbind at 1, M_bind at 1, get, gets, id. cbv zeta.
  rewrite (proj2 (Z.eqb_neq (at0 (nextIndex l) p) 0)), (proj2 (Z.leb_gt _ _)) by lia. rewrite Ho. cbn [Z.eqb negb]. fold (append_to l p (at0 (nextIndex l) p) context origin).
  destruct (last _) as [e|]; [|by eexists]. unfold set_outstanding, set_age, mbind, M_bind, get, gets, id, modify. rewrite Eo. cbn [outstandingAge with_outstanding].
  rewrite Ea. eexists. split; [reflexivity|]. split; [|done]. unfold core at 2. rewrite Ha. reflexivity.
Qed.

(** The next index after a refusal. *)
Definition next_after (l : Node) (p hint : Z) : Z :=
  let next := at0 (nextIndex l) p in
  let next := if (0 <? hint) && (hint <? next) then hint else if 1 <? next then next - 1 else next in
  Z.max 1 (Z.max next (u64 (at0 (matchIndex l) p + 1))).

Lemma leader_answers l r : role l = Leader -> allocated l = true -> m_type r = MsgAppendResponse -> m_reject r = true -> m_to r = c_ID (cfg l) ->
  m_from r <> c_ID (cfg l) -> m_term r = term l -> isCommunicationPeer l (m_from r) = true -> 0 <= s_index (snapshot l) < next_after l (m_from r) (m_rejectHint r) ->
  exists l', answer r l = Some (append_to l (m_from r) (next_after l (m_from r) (m_rejectHint r)) (m_context r) OriginAckResend, l') /\
    resends (m_from r) (next_after l (m_from r) (m_rejectHint r)) l l'.
Proof.
  intros Hr Ha Hty Hrej Hto Ho Ht Hp Hn. destruct (allocated_spec l Ha) as (o & a & Eo & Ea). set (p := m_from r) in *. set (next := next_after _ _ _) in *.
  set (l2 := with_outstanding (Some (<[p := 0]> o)) (with_nextIndex (<[p := next]> (nextIndex l)) (with_recentActive (<[p := true]> (recentActive l)) l))).
  assert (at0 (nextIndex l2) p = next) as En by (unfold at0, l2; cbn; by rewrite lookup_insert_eq).
  assert (allocated l2 = true) as Ha2 by (unfold allocated, l2; cbn; by rewrite Ea).
  destruct (appendMessage_sends l2 p (m_context r) OriginAckResend Ha2) as (l' & E & Hc & Hcfg & Hpe & Hap).
  { unfold at_nil, at0, l2. cbn. by rewrite lookup_insert_eq. } { rewrite En. exact Hn. }
  exists l'. split.
  - unfold answer. rewrite Step_dispatch; [|done|done|done|done|by rewrite Hty]. unfold dispatch, mbind at 1, M_bind at 1, get, gets, id. unfold mbind at 1, M_bind at 1. rewrite Hty.
    assert (handleAppendResponse r l = (m ← appendMessage p (m_context r) OriginAckResend; mret (mkUpdate None 0 [] [m] [] false None [])) l2) as ->.
    { unfold handleAppendResponse. unfold mbind at 1, M_bind at 1, get, gets, id. rewrite bool_decide_true, Ht, Z.eqb_refl, Hrej by done. cbn [negb orb].
      unfold set_active, set_next, set_outstanding, mbind at 1 2 3, M_bind at 1 2 3, modify, get, gets, id. cbn [outstanding with_nextIndex with_recentActive].
      unfold mbind at 1, M_bind at 1. cbn [outstanding with_nextIndex with_recentActive]. rewrite Eo. reflexivity. }
    unfold mbind, M_bind. rewrite E, En. reflexivity.
  - split; [|by rewrite Hcfg|intros q; by rewrite Hpe|intros; by rewrite Hap]. rewrite Hc. unfold core at 2. rewrite Ha. unfold core. rewrite Ha2. reflexivity.
Qed.

(** ** The exchange *)

(** The leader is to send the follower entries that the follower's snapshot covers: it still
    has them, and has heard of none of them from the follower. *)
Record behind (l f : Node) : Prop := {
  bh_leader : wf (core l);
  bh_leads : role l = Leader;
  bh_room : k_last (core l) + 1 < 2 ^ 64;
  bh_small : Forall (fun e => Z.of_nat (length (e_data e)) <= MaxEntryBytes) (log l);
  bh_limit : append_limit l <= 2 ^ 62;
  bh_follower : wf (core f);
  bh_follows : role f = Follower /\ leaderID f = c_ID (cfg l) /\ term f = term l /\ c_ID (cfg f) <> c_ID (cfg l);
  bh_froom : k_last (core f) + 1 < 2 ^ 64;
  bh_peers : isCommunicationPeer l (c_ID (cfg f)) = true /\ isCommunicationPeer f (c_ID (cfg l)) = true;
  bh_covered : 2 <= s_index (snapshot f) <= k_last (core l);
  bh_kept : s_index (snapshot l) <= at0 (matchIndex l) (c_ID (cfg f));
  bh_next : at0 (matchIndex l) (c_ID (cfg f)) < at0 (nextIndex l) (c_ID (cfg f)) <= s_index (snapshot f)
}.

(** The message the leader has for the follower. *)
Definition offers (l f : Node) (m : Message) : Prop :=
  exists context origin, m = append_to l (c_ID (cfg f)) (at0 (nextIndex l) (c_ID (cfg f))) context origin.

Section exchange.
Context (l f : Node) (Hb : behind l f).
Let p := c_ID (cfg f).
Let next := at0 (nextIndex l) p.

Lemma next_bounds : 0 <= s_index (snapshot l) <= at0 (matchIndex l) p /\ at0 (matchIndex l) p < next <= s_index (snapshot f) /\ next <= k_last (core l).
Proof. destruct Hb. pose proof (wf_snap _ bh_leader0) as [Hs _]. cbn in Hs. unfold next, p. lia. Qed.

Lemma offer_entries : exists k, cappedEntries l next = take k (drop (Z.to_nat (next - s_index (snapshot l) - 1)) (log l)) /\ (1 <= k)%nat.
Proof.
  destruct Hb, next_bounds as (H1 & H2 & H3). destruct (cappedEntries_bounds l next bh_leader0 bh_room0) as (k & E & Hk & _); [lia|done| |].
  { eapply Forall_impl; [exact bh_small0|]. unfold MaxEntryBytes. intros e. cbv beta. lia. }
  exists k. split; [exact E|lia].
Qed.

Lemma offer_from_leader context origin : from_leader f (append_to l p next context origin).
Proof.
  pose proof Hb as []. destruct next_bounds as (H1 & H2 & H3), bh_follows0 as (Hr & Hl & Ht & Ho), bh_peers0 as [Hp1 Hp2].
  split; try done. unfold malformedAppend. destruct offer_entries as (k & E & _). cbn [m_entries append_to m_logTerm]. rewrite E.
  set (j := Z.to_nat _). pose proof bh_leader0 as Hw. rewrite termAt_core by done.
  assert (j <= length (log l))%nat as Hj by (unfold k_last in H3; cbn in H3; lia).
  assert (length (take k (drop j (log l))) <= length (log l) - j)%nat as Hlen by (rewrite length_take, length_drop; lia).
  unfold k_last in bh_room0. cbn in bh_room0. pose proof (wf_snap _ Hw) as [Hs _]. cbn in Hs.
  apply malformed_entries_none; cbn [m_logIndex m_term append_to]; [lia|lia| | |by apply Forall_take, Forall_drop].
  - apply log_ok_take. replace (next - 1 + 0) with (s_index (k_snap (core l)) + Z.of_nat j) by (cbn; lia). apply log_ok_drop; [apply (wf_log _ Hw)|done].
  - pose proof (terms_from (core l) next Hw ltac:(cbn; lia)) as Hts. unfold terms_ok in *. change (k_log (core l)) with (log l) in Hts.
    change (Z.to_nat (next - s_index (k_snap (core l)) - 1)) with j in Hts. rewrite fmap_take. rewrite <- (take_drop k (e_term <$> drop j (log l))), app_comm_cons in Hts.
    by apply StronglySorted_app_1_l in Hts.
Qed.

Lemma offer_behind context origin : starts_behind (snapshot f) (append_to l p next context origin).
Proof.
  pose proof Hb as []. destruct next_bounds as (H1 & H2 & H3). unfold starts_behind. cbn [m_logIndex m_logTerm m_entries append_to]. rewrite termAt_core by done.
  destruct (decide (next = 1)) as [E1|]; [right|left].
  - rewrite E1. split_and!; [done|by rewrite <- termAt_core|]. destruct offer_entries as (k & E & Hk). rewrite <- E1, E.
    replace (Z.to_nat _) with 0%nat by lia. rewrite drop_0. destruct (log l) as [|e es] eqn:El.
    { unfold k_last in H3. cbn in H3. rewrite El in H3. cbn in H3. lia. }
    destruct k as [|k]; [lia|]. exists e, (take k es). split; [done|]. destruct (wf_log _ bh_leader0 0%nat e) as [Hi Ht]; [cbn; by rewrite El|]. cbn in Hi. lia.
  - split; [lia|]. pose proof (termAt_pos (core l) (next - 1) bh_leader0). cbn in *. lia.
Qed.

(** One round: the follower is as before, the leader has the same or a lower next index. *)
Lemma round_behind context origin : exists m' l', round (append_to l p next context origin, l, f) = Some (m', l', renewed f) /\
  behind l' (renewed f) /\ offers l' (renewed f) m' /\ core l' = w_next (nextIndex l') (core l).
Proof.
  pose proof Hb as []. destruct next_bounds as (H1 & H2 & H3). pose proof bh_follows0 as (Hr & Hl & Ht & Ho). pose proof bh_peers0 as [Hp1 Hp2].
  set (m := append_to l p next context origin). set (hint := refusal_hint f m). set (next' := next_after l p hint).
  assert (at0 (matchIndex l) p < next' <= next) as Hn'.
  { unfold next', next_after. fold next. pose proof (wf_commit _ bh_follower0) as Hc. cbn in Hc. unfold k_last in *. cbn in bh_froom0, bh_room0, H3, bh_covered0, Hc.
    rewrite u64_small by lia. unfold hint, refusal_hint, m. cbn [m_logIndex append_to]. destruct (Z.eqb_spec (next - 1) 0).
    - rewrite (u64_small (commit f + 1)) by lia. rewrite (proj2 (Z.ltb_lt 0 _)), (proj2 (Z.ltb_ge _ next)), (proj2 (Z.ltb_ge 1 next)) by lia. cbn [andb]. lia.
    - rewrite (proj2 (Z.ltb_lt 0 _)), (proj2 (Z.ltb_lt _ next)) by lia. cbn [andb]. lia. }
  pose proof (follower_answers f m bh_follower0 bh_froom0 Hr (offer_from_leader context origin) (offer_behind context origin)) as Ef.
  destruct (leader_answers l (reject_append f (m_from m) hint)) as (l' & El & [Hc Hcfg Hpe Hap]); try done.
  { apply (wf_alloc _ bh_leader0 bh_leads0). } { change (0 <= s_index (snapshot l) < next'). lia. }
  change (m_from (reject_append f (m_from m) hint)) with p in *. change (m_rejectHint (reject_append f (m_from m) hint)) with hint in *. fold next' in El, Hc.
  exists (append_to l p next' 0 OriginAckResend), l'. pose proof Hc as Hc'. unfold core at 1, w_next in Hc'. injection Hc' as Ei Einit Ero Ete Evo Esn Elo Eco Eme Evt Ene Ema Eal.
  assert (at0 (nextIndex l') p = next') as En by (unfold at0; rewrite Ene; by rewrite lookup_insert_eq).
  split; [unfold round, mbind, option_bind; fold m; rewrite Ef; cbn [fst snd]; fold hint; rewrite El; done|]. split.
  - destruct (renewed_same f) as (Rc & Rcfg & Rl & _ & _ & Rs & Rt & _).
    assert (wf (core l')) as Hw'.
    { rewrite Hc. destruct bh_leader0. split; cbn; try done. intros Hx q. unfold at0. destruct (decide (q = p)) as [->|]; [rewrite lookup_insert_eq|rewrite lookup_insert_ne by done; exact (wf_next0 Hx q)].
      unfold k_last in *. cbn in *. lia. }
    assert (k_last (core l') = k_last (core l)) as Ek by (by rewrite Hc).
    split; rewrite ?Ek, ?Rc, ?Rcfg, ?Rl, ?Rs, ?Rt, ?Hcfg, ?Ero, ?Ete, ?Esn, ?Elo, ?Ema; try done.
    + unfold append_limit in *. by rewrite Hcfg.
    + by rewrite Hpe.
    + fold p. rewrite En. lia.
  - split; [|rewrite Hc, Ene; done]. exists 0, OriginAckResend. destruct (renewed_same f) as (_ & -> & _). fold p. by rewrite En, Hap.
Qed.
End exchange.

(** C39: A follower that compacted its log before its leader heard of it refuses for as
    long as the two exchange appends. Take a leader and a follower of its term, where the
    follower's snapshot covers entries (two at least, all of them in the leader's log) of
    which the leader has heard nothing, and which it would send next. The follower answers
    the append with a refusal, since its snapshot has no terms for the entries it covers,
    and the leader answers the refusal with the next append. After any number k of such
    rounds the follower refuses the append as before; the follower's log, snapshot and
    commit index are the same, and the leader's state is but for the index it sends from,
    which is still behind the follower's snapshot: the match index does not move, although
    the follower has everything it is sent. *)
Theorem compacted_follower_refuses l f m k : behind l f -> offers l f m ->
  exists m' l' f' r, rounds k (m, l, f) = Some (m', l', f') /\ answer m' f' = Some r /\ m_reject r.1 = true /\
    core f' = core f /\ core l' = w_next (nextIndex l') (core l) /\ behind l' f' /\ offers l' f' m'.
Proof.
  revert l f m. induction k as [|k IH]; intros l f m Hb Hm; cbn [rounds]; destruct Hm as (context & origin & ->).
  - pose proof (follower_answers f _ (bh_follower _ _ Hb) (bh_froom _ _ Hb) (proj1 (bh_follows _ _ Hb)) (offer_from_leader l f Hb context origin)
      (offer_behind l f Hb context origin)) as Ha. eexists _, _, _, _. split; [reflexivity|]. split; [exact Ha|]. split_and!; try done. by exists context, origin.
  - destruct (round_behind l f Hb context origin) as (m1 & l1 & E & Hb1 & Hm1 & Hc). destruct (IH l1 (renewed f) m1 Hb1 Hm1) as (m' & l' & f' & r & E' & H1 & H2 & H3 & H4 & H5).
    exists m', l', f', r. rewrite E. split; [exact E'|]. split_and!; [done|done|by rewrite H3|by rewrite H4, Hc|apply H5|apply H5].
Qed.

(** ** A follower that compacts before it is heard *)

(** Node 1 commits two entries with node 3; node 2 stores both, but its answers are
    lost. Node 2 then compacts its log, and node 1 sends the entries again. *)
Definition unheard : list Event :=
  repeat (EvTick 1) 16 ++ (EvDeliver <$> [0; 2; 3; 5; 7; 8; 6; 10; 12])%nat ++ [EvPropose 1 []] ++
  (EvDeliver <$> [13; 14])%nat ++ repeat (EvTick 1) 5 ++ [EvDeliver 21] ++ repeat (EvTick 1) 5.

Definition lagging : Cluster := after unheard.
Definition compacted : Node := (CreateSnapshot 2 [] (node_of lagging 2)).2.

Lemma reachable_wf s i n : reachable [1; 2; 3] s -> nodes s !! i = Some n -> wf (core n).
Proof.
  intros Hr Hn. destruct (reachable_inv [1; 2; 3] three_voters_ok s Hr) as [g HI]. exact (Inv.n_wf _ _ _ _ (Inv.i_nodes _ _ _ _ HI _ _ (cores_lookup _ _ _ Hn))).
Qed.

Lemma lagging_exec : exec [1; 2; 3] three_nodes unheard = Some lagging.
Proof. vm_compute. reflexivity. Qed.

Lemma lagging_reachable : reachable [1; 2; 3] lagging.
Proof. exists three_nodes. split; [apply three_initial|]. eapply exec_steps. apply lagging_exec. Qed.

Lemma lagging_nodes : nodes lagging !! 1 = Some (node_of lagging 1) /\ nodes lagging !! 2 = Some (node_of lagging 2).
Proof. split; vm_compute; reflexivity. Qed.

Definition compaction : Update := match run_op (OpCreateSnapshot 2 []) (node_of lagging 2) with (Ok u, _) => u | _ => noUpdate end.

Lemma compacted_runs : run_op (OpCreateSnapshot 2 []) (node_of lagging 2) = (Ok compaction, compacted).
Proof. vm_compute. reflexivity. Qed.

Lemma compaction_ok : op_ok (OpCreateSnapshot 2 []) (core (node_of lagging 2)).
Proof. vm_compute. auto. Qed.

Lemma compacted_wf : wf (core compacted).
Proof.
  exact (proj2 (run_op_performs (OpCreateSnapshot 2 []) (node_of lagging 2) compaction compacted
    (reachable_wf lagging 2 (node_of lagging 2) lagging_reachable (proj2 lagging_nodes)) compaction_ok compacted_runs)).
Qed.

Lemma lagging_behind : behind (node_of lagging 1) compacted.
Proof.
  constructor.
  - exact (reachable_wf lagging 1 (node_of lagging 1) lagging_reachable (proj1 lagging_nodes)).
  - vm_compute. reflexivity.
  - vm_compute. reflexivity.
  - apply (bool_decide_unpack _). vm_compute. exact I.
  - vm_compute. discriminate.
  - exact compacted_wf.
  - vm_compute. repeat (split; [reflexivity|]). discriminate.
  - vm_compute. reflexivity.
  - split; vm_compute; reflexivity.
  - vm_compute. split; discriminate.
  - vm_compute. discriminate.
  - vm_compute. split; [reflexivity|discriminate].
Qed.

(** Five rounds, or as many as one likes. *)
Lemma compacted_follower_refuses_witness : exists m' l' f' r,
  rounds 5 (message_of lagging 27, node_of lagging 1, compacted) = Some (m', l', f') /\ answer m' f' = Some r /\ m_reject r.1 = true /\
  core f' = core compacted /\ core l' = w_next (nextIndex l') (core (node_of lagging 1)) /\ behind l' f' /\ offers l' f' m'.
Proof.
  assert (offers (node_of lagging 1) compacted (message_of lagging 27)) as Ho by (exists 0, OriginHeartbeat; vm_compute; reflexivity).
  exact (compacted_follower_refuses (node_of lagging 1) compacted (message_of lagging 27) 5 lagging_behind Ho).
Defined.
End Lagging.
