(* ===== verification/RaftRead.v ===== *)
(** * Linearizable reads

    A leader confirms a read by a quorum that answers a probe sent after the read began.
    Shown: in every execution of the cluster the commit index the leader then has is at
    least what any node had committed at any time before the read began. The ingredient
    besides the invariant of RaftInv: no node knows more of what a term committed than the
    leader of that term. *)

From S2P Require Import Prelude GoStd Fs Json Membership RaftTypes RaftNode RaftCore RaftRefine RaftHandlers RaftOps RaftApi.
From S2P Require Import RaftInv RaftSteps RaftCluster.

Module Read.
Import Membership Raft Node Core Refine Handlers Ops Api Inv Steps Cluster.

(** ** What an action does to the leadership and the commit index *)

(** A node that leads after an action led before, in the same term, or was just elected. *)
Lemma act_leader inp c ms c' : act inp c ms c' -> wf c -> k_role c' = Leader ->
  k_term c' = k_term c /\ (k_role c = Leader /\ k_commit c <= k_commit c' \/ k_role c = Candidate).
Proof.
  intros H Hw Hr. pose proof (av_commit _ _ (act_advances _ _ _ _ Hw H)) as Hc. destruct H; cbn in *; try congruence; try (split; [done|]; by left); try (split; [done|]; by right).
Qed.

(** Where a new commit index comes from: a quorum of the leader, or a message. *)
Definition told (inp : Input) (x : Z) : Prop := exists m, inp = Received m /\
  (m_type m = MsgAppend /\ x <= m_leaderCommit m \/ exists s, m_type m = MsgSnapshot /\ m_snapshot m = Some s /\ x = s_index s).

Lemma act_commits inp c ms c' : act inp c ms c' -> k_commit c' <= k_commit c \/ told inp (k_commit c') \/
  k_role c = Leader /\ k_termAt c (k_commit c') = k_term c /\ c' = w_commit (k_commit c') c.
Proof.
  intros H. destruct H as [| | | | | | | | | | |c i Hl Hi Ht Hq| |c m i Hm Hty Hmt Hr He Hmat Hi|c m s s' m' Hm Hty Hmt Hr Hs Hs'| |]; cbn; try (left; lia).
  - right; right. done.
  - right; left. exists m. split; [done|]. left. split; [done|lia].
  - assert (s_index s' = s_index s) as E by (by destruct Hs' as [->|[_ ->]]). rewrite E.
    destruct (Z.le_gt_cases (s_index s) (k_commit c)) as [Hle|Hgt]; [left; lia|right; left].
    exists m. split; [done|]. right. exists s. split_and!; [done|done|lia].
Qed.

(** ** No node knows more of a term than its leader *)

Section leaders.
Context (m0 : Membership) (Hm0 : memb_ok m0) (HJ0 : JointVoters m0 = []) (HI0 : Index m0 = 0).
Notation node_ok := (node_ok m0).
Notation Inv := (Inv m0).
Notation committed := (committed m0).

(** Committed by the leader of a term. *)
Definition committed_at (g : Ghost) (t : Z) (l : list Entry) : Prop :=
  exists j lg k, g_lead g t = Some (j, lg) /\ (0 < k <= length lg)%nat /\ tm lg (Z.of_nat k) = t /\ quorum_acked m0 g t k /\ l `prefix_of` take k lg.

Lemma committed_split g t l : committed g t l <-> l = [] \/ exists t0, t0 <= t /\ committed_at g t0 l.
Proof.
  split; intros [->|H]; [by left| |by left|]; right.
  - destruct H as (t0 & j & lg & k & H). exists t0. split; [tauto|]. exists j, lg, k. tauto.
  - destruct H as (t0 & Ht & j & lg & k & H). exists t0, j, lg, k. tauto.
Qed.

Lemma x_committed_at g g' t l : extends g g' -> committed_at g t l -> committed_at g' t l.
Proof.
  intros X (j & lg & k & Hl & Hk & Ht & (f & Hf & Ha) & Hp). destruct (x_lead _ _ X _ _ _ Hl) as (r & Hl' & _).
  exists j, (lg ++ r), k. rewrite length_app. split_and!; [done|lia|lia| | |].
  - rewrite (tm_prefix lg); [done|by apply prefix_app_r|lia].
  - exists f. split; [done|]. intros v Hv. apply (x_ack _ _ X), Ha, Hv.
  - by rewrite take_app_le by lia.
Qed.

(** The leader [c] has committed up to [x], or the leader of another term has. *)
Definition known (g : Ghost) (c : Core) (x : Z) : Prop :=
  x <= k_commit c \/ exists t l, t <> k_term c /\ committed_at g t l /\ Z.of_nat (length l) = x.

Lemma known_le g c x y : known g c x -> y <= x -> 0 <= k_commit c -> known g c y.
Proof.
  intros [Hx|(t & l & Ht & (j & lg & k & Hl & Hk & Hkt & Hq & Hp) & <-)] Hy Hc; [left; lia|]. destruct (Z.le_gt_cases y 0); [left; lia|].
  right. exists t, (take (Z.to_nat y) l). split; [done|]. split; [|rewrite length_take; lia]. exists j, lg, k.
  split_and!; try done; try lia. by etrans; [apply take_prefix|].
Qed.

Lemma known_mono g g' c c' x : extends g g' -> k_term c' = k_term c -> k_commit c <= k_commit c' -> known g c x -> known g' c' x.
Proof.
  intros X Et Hc [Hx|(t & l & Ht & Hl & Hx)]; [left; lia|right]. exists t, l. rewrite Et. split_and!; try done. by eapply x_committed_at.
Qed.

(** Every leader knows the commit index of every node and of every message. *)
Record informed (cs : gmap Z Core) (net : list Message) (g : Ghost) (c : Core) : Prop := {
  in_nodes : forall j c', cs !! j = Some c' -> known g c (k_commit c');
  in_appends : forall m, m ∈ net -> m_type m = MsgAppend -> known g c (m_leaderCommit m);
  in_snapshots : forall m s, m ∈ net -> m_type m = MsgSnapshot -> m_snapshot m = Some s -> known g c (s_index s)
}.

Definition leaders_informed (cs : gmap Z Core) (net : list Message) (g : Ghost) : Prop :=
  forall i c, cs !! i = Some c -> k_role c = Leader -> informed cs net g c.

Lemma commit_nonneg g i c : node_ok g i c -> 0 <= k_commit c.
Proof. intros N. destruct (wf_snap _ (n_wf _ _ _ _ N)) as [? _]. pose proof (wf_commit _ (n_wf _ _ _ _ N)). lia. Qed.

(** The committed part of a node's log. *)
Lemma commit_list g i c : node_ok g i c -> k_commit c = 0 \/
  exists t l, t <= k_term c /\ committed_at g t l /\ Z.of_nat (length l) = k_commit c /\ l `prefix_of` g_full g i.
Proof.
  intros N. pose proof (commit_nonneg _ _ _ N) as H0. pose proof (wf_commit _ (n_wf _ _ _ _ N)) as [_ Hc].
  rewrite (rep_last _ _ (n_rep _ _ _ _ N) (n_wf _ _ _ _ N)) in Hc.
  destruct (proj1 (committed_split _ _ _) (n_commit _ _ _ _ N)) as [E|(t & Ht & Hl)].
  - left. apply (f_equal length) in E. rewrite length_take in E. simpl in E. lia.
  - right. exists t, (take (Z.to_nat (k_commit c)) (g_full g i)). split_and!; [done|done|rewrite length_take; lia|apply take_prefix].
Qed.

(** When a node is elected, no leader of its term has committed anything. *)
Lemma elected_informed cs net net' g g' i c c' : Inv cs net g -> extends g g' -> Inv (<[i := c']> cs) net' g' ->
  cs !! i = Some c -> k_role c = Candidate -> k_role c' = Leader -> k_term c' = k_term c -> informed cs net g' c'.
Proof.
  intros HI X HI' Hc Hr Hr' Ht. pose proof (i_nodes _ _ _ _ HI _ _ Hc) as N.
  pose proof (i_nodes _ _ _ _ HI' i c' ltac:(by rewrite lookup_insert_eq)) as N'. pose proof (commit_nonneg _ _ _ N') as H0.
  assert (forall j lg, g_lead g (k_term c) <> Some (j, lg)) as Hnone.
  { intros j lg Hl. destruct (x_lead _ _ X _ _ _ Hl) as (r & Hl' & _). destruct (n_leader _ _ _ _ N' Hr') as [Hl2 _]. rewrite Ht in Hl2.
    destruct (n_candidate _ _ _ _ N Hr) as (_ & _ & Hn). assert (j = i) as -> by congruence. by destruct (Hn lg). }
  assert (forall t l, committed_at g t l -> known g' c' (Z.of_nat (length l))) as Hk.
  { intros t l Hl. right. exists t, l. split_and!; [|by eapply x_committed_at|done]. rewrite Ht. intros ->. destruct Hl as (j & lg & k & Hl & _). by destruct (Hnone j lg). }
  assert (forall t l, committed g t l -> known g' c' (Z.of_nat (length l))) as Hk'.
  { intros t l [->|(t0 & _ & Hl)]%committed_split; [left; simpl; lia|by eapply Hk]. }
  split.
  - intros j cj Hj. destruct (commit_list _ _ _ (i_nodes _ _ _ _ HI _ _ Hj)) as [->|(t & l & _ & Hl & <- & _)]; [by left|by eapply Hk].
  - intros m Hm Hty. destruct (net_ok m0 HI m Hm) as [_ Hmo]. rewrite Hty in Hmo. destruct Hmo as (lg & pre & _ & _ & _ & _ & Hlen & Hcm).
    apply Hk' in Hcm. rewrite length_take in Hcm. eapply known_le; [exact Hcm|lia|done].
  - intros m s Hm Hty Hs. destruct (net_ok m0 HI m Hm) as [_ Hmo]. rewrite Hty in Hmo. destruct Hmo as (s2 & lg & Hs2 & _ & Hi & _ & Hpre). simplify_eq.
    destruct (decide (s_index s = 0)) as [->|]; [by left|]. destruct (Hpre ltac:(lia)) as (_ & pre & <- & _ & _ & Hcm). by eapply Hk'.
Qed.

Lemma informed_mono cs net g g' c c' : extends g g' -> k_term c' = k_term c -> k_commit c <= k_commit c' -> informed cs net g c -> informed cs net g' c'.
Proof. intros X Et Hc [H1 H2 H3]. split; intros; eapply known_mono; eauto. Qed.

Lemma one_leader cs net g i j c c' : Inv cs net g -> cs !! i = Some c -> cs !! j = Some c' -> k_role c = Leader -> k_role c' = Leader ->
  k_term c = k_term c' -> i = j.
Proof.
  intros HI Hc Hc' Hr Hr' Ht. destruct (n_leader _ _ _ _ (i_nodes _ _ _ _ HI _ _ Hc) Hr) as [Hl _].
  destruct (n_leader _ _ _ _ (i_nodes _ _ _ _ HI _ _ Hc') Hr') as [Hl' _]. rewrite Ht in Hl. congruence.
Qed.

Lemma act_sends inp c ms c' m : act inp c ms c' -> m ∈ ms -> c' = c /\ sendable inp c m.
Proof. intros H Hm. destruct H; try (by apply not_elem_of_nil in Hm). by apply list_elem_of_singleton in Hm as ->. Qed.

(** A leader that commits an entry of its term commits it as the leader of that term. *)
Lemma own_commit cs net g i c : Inv cs net g -> cs !! i = Some c -> k_role c = Leader -> k_termAt c (k_commit c) = k_term c ->
  exists l, committed_at g (k_term c) l /\ Z.of_nat (length l) = k_commit c.
Proof.
  intros HI Hc Hr Ht. pose proof (i_nodes _ _ _ _ HI _ _ Hc) as N. pose proof (n_wf _ _ _ _ N) as Hw. pose proof (wf_commit _ Hw) as Hcm.
  destruct (wf_self _ Hw (or_intror Hr)) as [_ Hpos]. rewrite (rep_termAt c _ _ (n_rep _ _ _ _ N) Hw) in Ht by lia.
  destruct (commit_list _ _ _ N) as [E|(t & l & Hle & Hl & Hlen & Hp)].
  { rewrite E in Ht. unfold tm in Ht. simpl in Ht. lia. }
  exists l. split; [|done]. replace (k_term c) with t; [done|]. destruct Hl as (j & lg & k & Hl & Hk & Hkt & Hq & Hpk).
  pose proof (prefix_last_le _ _ _ _ (l_good _ _ _ _ _ _ (i_leads _ _ _ _ HI _ _ _ Hl)) (proj2 Hk) Hpk) as Hlast.
  unfold lastTerm in Hlast. rewrite Hlen, <- (tm_prefix l (g_full g i)) in Hlast by (done || lia). lia.
Qed.

Lemma act_informed cs net g g' a inp c ms c' : Inv cs net g -> leaders_informed cs net g -> cs !! a = Some c -> input_ok inp net a ->
  act inp c ms c' -> extends g g' -> Inv (<[a := c']> cs) (net ++ ms) g' -> leaders_informed (<[a := c']> cs) (net ++ ms) g'.
Proof.
  intros HI HL Hc Hin H X HI' i ci Hi Hr. pose proof (commit_nonneg _ _ _ (i_nodes _ _ _ _ HI' _ _ Hi)) as H0.
  pose proof (n_wf _ _ _ _ (i_nodes _ _ _ _ HI _ _ Hc)) as Hw.
  assert (informed cs net g' ci) as Hold.
  { destruct (decide (i = a)) as [->|Hne].
    - rewrite lookup_insert_eq in Hi. injection Hi as <-. destruct (act_leader _ _ _ _ H Hw Hr) as [Et [[Hr0 Hcm]|Hr0]].
      + by eapply informed_mono; [exact X|exact Et|exact Hcm|by apply (HL a)].
      + by eapply elected_informed.
    - rewrite lookup_insert_ne in Hi by done. by eapply informed_mono; [exact X|done|done|by apply (HL i)]. }
  assert (known g' ci (k_commit c')) as Hc'.
  { destruct (act_commits _ _ _ _ H) as [Hle|[(m & -> & Hm)|(Hlead & Ht & E)]].
    - eapply known_le; [by apply (in_nodes _ _ _ _ Hold a c)|done|done].
    - destruct Hin as [Hin _]. destruct Hm as [[Hty Hle]|(s & Hty & Hs & ->)]; [|by eapply in_snapshots].
      eapply known_le; [by apply (in_appends _ _ _ _ Hold m)|done|done].
    - destruct (decide (i = a)) as [->|Hne]; [rewrite lookup_insert_eq in Hi; injection Hi as <-; by left|].
      assert (k_role c' = Leader /\ k_termAt c' (k_commit c') = k_term c') as [Hr' Ht'] by (rewrite E; by split).
      assert (<[a := c']> cs !! a = Some c') as Ha by (by rewrite lookup_insert_eq).
      destruct (own_commit _ _ _ _ _ HI' Ha Hr' Ht') as (l & Hl & Hlen). right. exists (k_term c'), l. split_and!; try done.
      intros Et. apply Hne. by eapply (one_leader _ _ _ i a _ _ HI'). }
  split.
  - intros j cj Hj. destruct (decide (j = a)) as [->|Hne]; [rewrite lookup_insert_eq in Hj; by injection Hj as <-|].
    rewrite lookup_insert_ne in Hj by done. by eapply in_nodes.
  - intros m [Hm|Hm]%elem_of_app Hty; [by eapply in_appends|]. destruct (act_sends _ _ _ _ _ H Hm) as [-> [_ Hs]]. rewrite Hty in Hs.
    by destruct Hs as (_ & _ & -> & _).
  - intros m s [Hm|Hm]%elem_of_app Hty Hs; [by eapply in_snapshots|]. destruct (act_sends _ _ _ _ _ H Hm) as [-> [_ Hsend]]. rewrite Hty in Hsend.
    destruct Hsend as (_ & _ & E). rewrite Hs in E. injection E as ->. eapply known_le; [exact Hc'|apply (wf_commit _ Hw)|done].
Qed.

(** ** Sequences of actions *)

Lemma acts_informed cs net g i c inp ms c' : Inv cs net g -> leaders_informed cs net g -> cs !! i = Some c -> input_ok inp net i -> acts inp c ms c' ->
  exists g', extends g g' /\ Inv (<[i := c']> cs) (net ++ ms) g' /\ leaders_informed (<[i := c']> cs) (net ++ ms) g' /\
    (k_role c' = Leader -> g_lead g (k_term c') <> None -> k_role c = Leader /\ k_term c = k_term c' /\ k_commit c <= k_commit c').
Proof.
  intros HI HL Hc Hin H. revert cs net g HI HL Hc Hin. induction H as [c|c ms c1 ms' c2 Ha H IH]; intros cs net g HI HL Hc Hin.
  - exists g. split; [by apply extends_refl|]. rewrite app_nil_r, insert_id by done. done.
  - destruct (act_inv _ Hm0 HJ0 HI0 _ _ _ _ _ _ _ _ HI Hc Hin Ha) as (g1 & X1 & HI1). pose proof (act_informed _ _ _ _ _ _ _ _ _ HI HL Hc Hin Ha X1 HI1) as HL1.
    destruct (IH (<[i := c1]> cs) (net ++ ms) g1) as (g2 & X2 & HI2 & HL2 & Hlead); [done|done|by rewrite lookup_insert_eq| |].
    + destruct inp; try done. destruct Hin. split; [set_solver|done].
    + exists g2. rewrite insert_insert_eq, <- app_assoc in HI2, HL2. split_and!; [by eapply extends_trans|done|done|].
      intros Hr Hl. destruct (g_lead g (k_term c2)) as [[j lg]|] eqn:El; [|done]. destruct (x_lead _ _ X1 _ _ _ El) as (r & El1 & _).
      destruct Hlead as (Hr1 & Et1 & Hc1); [done|by rewrite El1|]. pose proof (i_nodes _ _ _ _ HI _ _ Hc) as N.
      destruct (act_leader _ _ _ _ Ha (n_wf _ _ _ _ N) Hr1) as [Et [[Hr0 Hcm]|Hr0]]; [split_and!; [done|congruence|lia]|].
      exfalso. destruct (n_candidate _ _ _ _ N Hr0) as (_ & _ & Hn). rewrite <- Et, Et1 in Hn.
      destruct (n_leader _ _ _ _ (i_nodes _ _ _ _ HI1 i c1 ltac:(by rewrite lookup_insert_eq)) Hr1) as [Hl1 _]. rewrite Et1 in Hl1.
      apply (Hn lg). rewrite El. congruence.
Qed.

(** An acknowledgement is of the term its sender is in. *)
Lemma acts_responses inp c ms c' m : wf c -> acts inp c ms c' -> m ∈ ms -> m_type m = MsgAppendResponse -> m_reject m = false ->
  m_from m = k_id c /\ k_term c <= m_term m.
Proof.
  intros Hw H Hm Hty Hrej. induction H as [c|c ms c1 ms' c2 Ha H IH]; [by apply not_elem_of_nil in Hm|].
  pose proof (act_advances _ _ _ _ Hw Ha) as Hadv. apply elem_of_app in Hm as [Hm|Hm].
  - destruct (act_sends _ _ _ _ _ Ha Hm) as [-> [Hf Hs]]. rewrite Hty in Hs. destruct (Hs Hrej) as (-> & _). done.
  - destruct (IH ltac:(by eapply act_wf) Hm) as [-> Ht]. split; [apply (av_id _ _ Hadv)|]. pose proof (av_term _ _ Hadv). lia.
Qed.
End leaders.

(** ** Executions *)

Section executions.
Context (voters : list Z) (Hvoters : voters_ok voters).
Notation m0 := (mkMembership voters [] 0).
Notation holds_inv s g := (Inv.Inv m0 (cores s) (net s) g).
Notation informed_in s g := (leaders_informed m0 (cores s) (net s) g).
Notation step := (step voters).

(** A leader of [s'] whose term had a leader in the history [g] of [s] led in [s] already. *)
Definition led_before (s : Cluster) (g : Ghost) (s' : Cluster) : Prop := forall i n',
  nodes s' !! i = Some n' -> role n' = Leader -> g_lead g (term n') <> None ->
  exists n, nodes s !! i = Some n /\ role n = Leader /\ term n = term n' /\ commit n <= commit n'.

Lemma led_before_refl s g : led_before s g s.
Proof. intros i n Hn Hr _. exists n. done. Qed.

Lemma restart_core s g i n cf n' : holds_inv s g -> nodes s !! i = Some n -> config_of voters i cf ->
  s_index (snapshot n) <= c_AppliedIndex cf <= commit n ->
  New cf (d_hard (dur (core n))) (d_log (dur (core n))) [d_snap (dur (core n))] = Ok n' -> core n' = restarted (c_AppliedIndex cf) (core n).
Proof.
  intros HI Hn (Hv & Hid & _ & Hp) Ha HN. pose proof (i_nodes _ _ _ _ HI _ _ (cores_lookup _ _ _ Hn)) as N. pose proof (n_wf _ _ _ _ N) as Hw.
  destruct (n_memb _ _ _ _ N) as (_ & _ & Ei & _). pose proof (wf_commit _ Hw) as Hwc.
  destruct (New_spec cf (core n) Hw Hv) as (n2 & HN2 & E); [by rewrite Hid, (n_id _ _ _ _ N)|by rewrite Ei|simpl in *; lia|].
  rewrite HN in HN2. by injection HN2 as <-.
Qed.

Lemma restart_informed s g i n cf n' : holds_inv s g -> informed_in s g -> nodes s !! i = Some n -> config_of voters i cf ->
  s_index (snapshot n) <= c_AppliedIndex cf <= commit n ->
  New cf (d_hard (dur (core n))) (d_log (dur (core n))) [d_snap (dur (core n))] = Ok n' ->
  let s' := mkCluster (<[i := n']> (nodes s)) (net s) in informed_in s' g /\ led_before s g s'.
Proof.
  intros HI HL Hn Hcf Ha HN s'. pose proof (restart_core _ _ _ _ _ _ HI Hn Hcf Ha HN) as E. pose proof (cores_lookup _ _ _ Hn) as Hc. split.
  - intros j cj Hj Hr. unfold s' in Hj. rewrite cores_insert in Hj. destruct (decide (j = i)) as [->|Hne].
    { rewrite lookup_insert_eq, E in Hj. injection Hj as <-. done. }
    rewrite lookup_insert_ne in Hj by done. destruct (HL j cj Hj Hr) as [H1 H2 H3]. split; [|exact H2|exact H3].
    intros k ck Hk. unfold s' in Hk. rewrite cores_insert in Hk. destruct (decide (k = i)) as [->|Hne']; [|rewrite lookup_insert_ne in Hk by done; by eapply H1].
    rewrite lookup_insert_eq, E in Hk. injection Hk as <-. eapply known_le; [by apply (H1 i (core n))|simpl; lia|].
    by eapply commit_nonneg, (i_nodes _ _ _ _ HI).
  - intros j nj Hj Hr _. unfold s' in Hj. simpl in Hj. destruct (decide (j = i)) as [->|Hne].
    + rewrite lookup_insert_eq in Hj. injection Hj as <-. apply (f_equal k_role) in E. simpl in E. congruence.
    + rewrite lookup_insert_ne in Hj by done. exists nj. done.
Qed.

Lemma step_informed s s' g : holds_inv s g -> informed_in s g -> step s s' ->
  exists g', extends g g' /\ holds_inv s' g' /\ informed_in s' g' /\ led_before s g s'.
Proof.
  intros HI HL H. destruct H as [s i n op r n' Hn Ha Hrun|s i n cf n' Hn Hcf Ha HN].
  - pose proof (cores_lookup _ _ _ Hn) as Hc. pose proof (n_wf _ _ _ _ (i_nodes _ _ _ _ HI _ _ Hc)) as Hw.
    destruct (allowed_ok _ _ _ _ _ _ HI Ha) as [Hop Hin]. pose proof (run_op_spec op n Hw Hop) as H. unfold tries, runs in H.
    rewrite Hrun in H. rewrite cores_insert. destruct r as [u|e| |]; try done.
    + destruct H as [Hacts _ _].
      destruct (acts_informed m0 (memb_ok_voters _ Hvoters) eq_refl eq_refl _ _ _ _ _ _ _ _ HI HL Hc Hin Hacts) as (g' & X & HI' & HL' & Hlead).
      exists g'. split_and!; try done. intros j nj Hj Hr Hl. simpl in Hj. destruct (decide (j = i)) as [->|Hne].
      * rewrite lookup_insert_eq in Hj. injection Hj as <-. exists n. split; [done|]. by apply Hlead.
      * rewrite lookup_insert_ne in Hj by done. by exists nj.
    + subst n'. exists g. cbn [sent net]. rewrite app_nil_r, insert_id by done. split_and!; [by apply extends_refl|done|done|].
      rewrite insert_id by done. intros j nj Hj Hr _. by exists nj.
  - exists g. split; [by apply extends_refl|]. split; [by eapply restart_inv|]. by eapply restart_informed.
Qed.

Lemma steps_informed s s' g : holds_inv s g -> informed_in s g -> rtc step s s' ->
  exists g', extends g g' /\ holds_inv s' g' /\ informed_in s' g' /\ led_before s g s'.
Proof.
  intros HI HL H. revert g HI HL. induction H as [s|s s1 s2 H _ IH]; intros g HI HL.
  { exists g. split_and!; [by apply extends_refl|done|done|apply led_before_refl]. }
  destruct (step_informed _ _ _ HI HL H) as (g1 & X1 & HI1 & HL1 & Hb1). destruct (IH g1 HI1 HL1) as (g2 & X2 & HI2 & HL2 & Hb2).
  exists g2. split_and!; [by eapply extends_trans|done|done|]. intros i n' Hn' Hr Hl. destruct (g_lead g (term n')) as [[j lg]|] eqn:El; [|done].
  destruct (x_lead _ _ X1 _ _ _ El) as (r & El1 & _). destruct (Hb2 i n' Hn' Hr ltac:(by rewrite El1)) as (n1 & Hn1 & Hr1 & Ht1 & Hc1).
  destruct (Hb1 i n1 Hn1 Hr1 ltac:(by rewrite Ht1, El)) as (n & Hn & Hr0 & Ht0 & Hc0). exists n. split_and!; [done|done|congruence|lia].
Qed.

Lemma initial_informed s : initial voters s -> informed_in s empty_history.
Proof.
  intros [Hnet Hn] i c Hc Hr. unfold cores in Hc. apply lookup_fmap_Some in Hc as (n & <- & Hc). destruct (Hn i n Hc) as (cf & Hcf & Ha & HN).
  rewrite (fresh_core voters Hvoters i cf n) in Hr by done. done.
Qed.

(** What a node acknowledges later is of a term it has now or later. *)
Lemma later_responses s s' g v n m : holds_inv s g -> rtc step s s' -> nodes s !! v = Some n -> m ∈ net s' ->
  m_type m = MsgAppendResponse -> m_reject m = false -> m_from m = v -> m ∈ net s \/ term n <= m_term m.
Proof.
  intros HI H. revert g n HI. induction H as [s|s s1 s2 H Hs IH]; intros g n HI Hn Hm Hty Hrej Hfrom; [by left|].
  destruct (step_inv _ Hvoters _ _ _ HI H) as (g1 & _ & HI1).
  destruct H as [s i ni op r ni' Hni Ha Hrun|s i ni cf ni' Hni Hcf Ha HN].
  - pose proof (cores_lookup _ _ _ Hni) as Hc. pose proof (i_nodes _ _ _ _ HI _ _ Hc) as N. pose proof (n_wf _ _ _ _ N) as Hw.
    pose proof (run_op_spec op ni Hw (proj1 (allowed_ok _ _ _ _ _ _ HI Ha))) as H. unfold tries, runs in H. rewrite Hrun in H.
    assert (forall u, r = Ok u -> acts (op_input op) (core ni) (u_messages u) (core ni')) as Hacts by (intros u ->; apply H).
    assert (term ni <= term ni') as Hmono.
    { destruct r as [u|e| |]; [|by subst|done..]. apply (av_term _ _ (acts_advances _ _ _ _ Hw (Hacts u eq_refl))). }
    assert (exists n1, <[i := ni']> (nodes s) !! v = Some n1 /\ term n <= term n1) as (n1 & Hn1 & Hle).
    { destruct (decide (v = i)) as [->|Hne]; [exists ni'|exists n; by rewrite lookup_insert_ne by done].
      rewrite lookup_insert_eq. split; [done|]. congruence. }
    destruct (IH g1 n1) as [[Hin|Hin]%elem_of_app|Hin]; try done; [by left| |right; lia].
    destruct r as [u|e| |]; try (by apply not_elem_of_nil in Hin).
    destruct (acts_responses _ _ _ _ _ Hw (Hacts u eq_refl) Hin Hty Hrej) as [Hf Ht]. rewrite (n_id _ _ _ _ N) in Hf.
    right. assert (ni = n) as -> by congruence. done.
  - assert (exists n1, <[i := ni']> (nodes s) !! v = Some n1 /\ term n <= term n1) as (n1 & Hn1 & Hle).
    { destruct (decide (v = i)) as [->|Hne]; [exists ni'|exists n; by rewrite lookup_insert_ne by done].
      rewrite lookup_insert_eq. split; [done|]. pose proof (f_equal k_term (restart_core _ _ _ _ _ _ HI Hni Hcf Ha HN)) as E. change (term ni' = term ni) in E.
      assert (ni = n) as <- by congruence. lia. }
    destruct (IH g1 n1) as [?|?]; try done; [by left|right; lia].
Qed.

(** What the leader of a term knows when it has committed an entry of its term: it has
    committed everything that was committed in this or an earlier term. *)
Lemma leader_knows s g i n x : holds_inv s g -> informed_in s g -> nodes s !! i = Some n -> role n = Leader -> termAt n (commit n) = term n ->
  known m0 g (core n) x -> x <= commit n \/ exists t l, term n < t /\ committed_at m0 g t l /\ Z.of_nat (length l) = x.
Proof.
  intros HI HL Hn Hr Ht [Hx|(t & l & Hne & Hl & Hx)]; [by left|]. destruct (Z.lt_ge_cases (term n) t) as [Hlt|Hge]; [right; eauto|left].
  pose proof (cores_lookup _ _ _ Hn) as Hc. pose proof (i_nodes _ _ _ _ HI _ _ Hc) as N. pose proof (n_wf _ _ _ _ N) as Hw. pose proof (wf_commit _ Hw) as Hcm.
  destruct (n_leader _ _ _ _ N Hr) as [Hlead _]. pose proof (rep_last _ _ (n_rep _ _ _ _ N) Hw) as Elast.
  assert (tm (g_full g i) (commit n) = term n) as Htc.
  { rewrite <- (rep_termAt (core n) _ _ (n_rep _ _ _ _ N) Hw) by apply Hcm. by rewrite <- termAt_core by done. }
  destruct Hl as (j & lg & k & Hl & Hk & Hkt & Hq & Hp). pose proof (leader_complete m0 HI _ _ _ _ Hl Hk Hkt Hq _ _ _ Hge Hlead) as Hpre.
  pose proof (prefix_last_le _ _ _ _ (l_good _ _ _ _ _ _ (i_leads _ _ _ _ HI _ _ _ Hl)) (proj2 Hk) Hp) as Hlast.
  assert (l `prefix_of` g_full g i) as Hlf by (by etrans). pose proof (prefix_length _ _ Hlf) as Hlen.
  unfold lastTerm in Hlast. rewrite <- (tm_prefix l (g_full g i)) in Hlast by (done || lia).
  destruct (Z.le_gt_cases x (commit n)) as [?|Hgt]; [done|exfalso].
  pose proof (good_tm_le _ _ (commit n) (Z.of_nat (length l)) (n_good _ _ _ _ N) ltac:(lia)) as Hmono. simpl in *. lia.
Qed.

(** A voter of [acks] is the reader itself, or it answered the probe. *)
Definition confirmed (s : Cluster) (i t ctx : Z) (acks : gset Z) : Prop := forall v, v ∈ acks -> v = i \/
  exists m, m ∈ net s /\ m_type m = MsgAppendResponse /\ m_reject m = false /\ m_from m = v /\ m_term m = t /\ m_context m = ctx.

(** C6: Linearizable reads. In an execution with fixed voters, a leader starts a read with a
    probe whose context no acknowledgement of its term has used. Later, still leader of
    the same term, it has acknowledgements of the probe from a quorum. Then its commit
    index, up to which the read is answered, covers everything that any node had committed
    at any time before the read began, and at every such index it has the same entry. *)
Theorem read_is_current s0 s i n ctx u n1 s2 n2 acks j nj : reachable voters s0 -> rtc step s0 s ->
  nodes s0 !! j = Some nj -> nodes s !! i = Some n -> room (core n) -> ReadProbe ctx n = (Ok u, n1) ->
  (forall m, m ∈ net s -> m_type m = MsgAppendResponse -> m_context m = ctx -> m_term m <> term n) ->
  rtc step (mkCluster (<[i := n1]> (nodes s)) (net s ++ u_messages u)) s2 ->
  nodes s2 !! i = Some n2 -> role n2 = Leader -> term n2 = term n -> HasQuorum n2 acks = true -> confirmed s2 i (term n) ctx acks ->
  commit nj <= commit n2 /\
  forall x e, x <= commit nj -> entry_at (core nj) x = Some e -> s_index (snapshot n2) < x -> entry_at (core n2) x = Some e.
Proof.
  intros (si & Hinit & Hs0) Hs Hnj Hn Hroom Hread Hfresh Hs2 Hn2 Hr2 Ht2 Hq Hacks.
  destruct (steps_informed _ _ _ (initial_inv _ Hvoters _ Hinit) (initial_informed _ Hinit) Hs0) as (g0 & _ & HI & HL & _).
  destruct (steps_informed _ _ _ HI HL Hs) as (g1 & X1 & HI1 & HL1 & Hb1).
  assert (step s (mkCluster (<[i := n1]> (nodes s)) (net s ++ u_messages u))) as Hprobe by (by apply (step_op voters s i n (OpReadProbe ctx) (Ok u) n1)).
  pose proof (rtc_l _ _ _ _ Hprobe Hs2) as Hs12. destruct (steps_informed _ _ _ HI1 HL1 Hs12) as (g2 & X2 & HI2 & HL2 & Hb2).
  pose proof (cores_lookup _ _ _ Hn) as Hc. pose proof (i_nodes _ _ _ _ HI1 _ _ Hc) as N.
  pose proof (ReadProbe_spec Quiet ctx n (n_wf _ _ _ _ N)) as Hspec. unfold proposes, runs in Hspec. rewrite Hread in Hspec. destruct Hspec as (Hr & Ht & _).
  destruct (n_leader _ _ _ _ N Hr) as [Hlead _]. destruct (Hb2 i n2 Hn2 Hr2) as (n' & Hn' & _ & _ & Hcm); [rewrite Ht2; change (term n) with (k_term (core n)); by rewrite Hlead|].
  rewrite Hn in Hn'. injection Hn' as <-.
  assert (known m0 g1 (core n) (commit nj)) as Hk.
  { destruct (commit_list _ _ _ _ (i_nodes _ _ _ _ HI _ _ (cores_lookup _ _ _ Hnj))) as [E|(t & l & _ & Hl & Hlen & _)].
    { left. simpl in *. rewrite E. apply (commit_nonneg _ _ _ _ N). }
    destruct (decide (t = term n)) as [->|Hne]; [|right; exists t, l; split_and!; [done|by eapply x_committed_at|done]].
    destruct (Hb1 i n Hn Hr) as (ni & Hni & Hri & Hti & Hci); [destruct Hl as (? & ? & ? & -> & _); done|].
    apply (known_mono _ g0 _ (core ni)); [exact X1|by symmetry|exact Hci|]. by apply (in_nodes _ _ _ _ _ (HL i _ (cores_lookup _ _ _ Hni) Hri) j (core nj)), cores_lookup. }
  assert (commit nj <= commit n2) as Hle.
  { destruct (leader_knows _ _ _ _ _ HI1 HL1 Hn Hr Ht Hk) as [?|(t & l & Hlt & (j' & lg & k & _ & _ & _ & (f & Hf & Ha) & _) & _)]; [lia|exfalso].
    pose proof (i_nodes _ _ _ _ HI2 _ _ (cores_lookup _ _ _ Hn2)) as N2. destruct (n_memb _ _ _ _ N2) as (Em & _).
    unfold HasQuorum in Hq. change (membership n2) with (k_memb (core n2)) in Hq. rewrite Em in Hq.
    destruct (hasQuorum_overlap _ _ _ Hf Hq) as (v & _ & Hfv & Hv). apply bool_decide_eq_true in Hv.
    destruct (a_node _ _ _ _ _ (i_acks _ _ _ _ HI1 _ _ _ (Ha v Hfv))) as (cv & _ & _ & Hcv & Htv & _).
    unfold cores in Hcv. apply lookup_fmap_Some in Hcv as (nv & <- & Hnv). simpl in Htv.
    destruct (Hacks v Hv) as [->|(m & Hm & Hty & Hrej & Hfrom & Hmt & Hctx)]; [rewrite Hn in Hnv; injection Hnv as <-; lia|].
    destruct (later_responses _ _ _ _ _ _ HI1 Hs12 Hnv Hm Hty Hrej Hfrom) as [Hold|?]; [|lia]. by apply (Hfresh m). }
  split; [done|]. intros x e Hx He Hsn. pose proof (i_nodes _ _ _ _ HI2 _ _ (cores_lookup _ _ _ Hn2)) as N2.
  destruct (committed_entry _ _ _ _ _ _ (i_nodes _ _ _ _ HI _ _ (cores_lookup _ _ _ Hnj)) Hx He) as [Hpos _].
  destruct (entry_at (core n2) x) as [e'|] eqn:E2.
  - f_equal. symmetry. eapply (committed_agree voters s0 g0 g2); [exact HI|by eapply extends_trans|exact HI2|exact Hnj|exact Hn2|done|lia|done|done].
  - exfalso. rewrite (entry_at_full _ _ _ _ _ N2) in E2 by (simpl; lia). apply lookup_ge_None in E2.
    pose proof (wf_commit _ (n_wf _ _ _ _ N2)) as Hwc. rewrite (rep_last _ _ (n_rep _ _ _ _ N2) (n_wf _ _ _ _ N2)) in Hwc. simpl in *. lia.
Qed.
End executions.

(** ** Example *)

(** Node 1 of three leads and has committed its first entry; it probes, and node 2 answers. *)
Definition asking : Update * Node := match ReadProbe 5 (node_of told_leader 1) with (Ok u, n) => (u, n) | (_, n) => (noUpdate, n) end.
Definition asked : Cluster := mkCluster (<[1 := asking.2]> (nodes told_leader)) (net told_leader ++ u_messages asking.1).
Definition answered : Cluster := default asked (exec [1; 2; 3] asked [EvDeliver 11]).

Lemma answered_exec : exec [1; 2; 3] asked [EvDeliver 11] = Some answered.
Proof. vm_compute. reflexivity. Qed.

Lemma asking_runs : ReadProbe 5 (node_of told_leader 1) = (Ok asking.1, asking.2).
Proof. vm_compute. reflexivity. Qed.

Lemma answered_facts : nodes answered !! 1 = Some (node_of answered 1) /\ role (node_of answered 1) = Leader /\
  term (node_of answered 1) = term (node_of told_leader 1) /\ HasQuorum (node_of answered 1) {[1; 2]} = true /\
  net answered !! 13%nat = Some (message_of answered 13) /\ m_type (message_of answered 13) = MsgAppendResponse /\
  m_reject (message_of answered 13) = false /\ m_from (message_of answered 13) = 2 /\
  m_term (message_of answered 13) = term (node_of told_leader 1) /\ m_context (message_of answered 13) = 5.
Proof. vm_compute. auto 12. Qed.

Lemma unused : forall m, m ∈ net told_leader -> m_type m = MsgAppendResponse -> m_context m = 5 -> m_term m <> term (node_of told_leader 1).
Proof.
  assert (forallb (fun m => negb (m_context m =? 5)) (net told_leader) = true) as H by (vm_compute; reflexivity).
  intros m Hm _ E. rewrite forallb_forall in H. apply list_elem_of_In, H in Hm. rewrite E in Hm. discriminate Hm.
Qed.

Lemma read_is_current_witness : commit (node_of told_leader 1) = 1 /\ commit (node_of told_leader 1) <= commit (node_of answered 1).
Proof.
  destruct told_facts as (Hn & _ & _ & _ & Hc & _). destruct answered_facts as (Hn2 & Hr2 & Ht2 & Hq & Hm & Hty & Hrej & Hfrom & Hmt & Hctx).
  split; [exact Hc|].
  refine (proj1 (read_is_current [1; 2; 3] three_voters_ok told_leader told_leader 1 (node_of told_leader 1) 5 asking.1 asking.2 answered
    (node_of answered 1) {[1; 2]} 1 (node_of told_leader 1) told_reachable (rtc_refl _ _) Hn Hn _ asking_runs unused
    (exec_steps _ _ _ _ answered_exec) Hn2 Hr2 Ht2 Hq _)).
  - vm_compute. split; reflexivity.
  - intros v Hv. apply elem_of_union in Hv as [->%elem_of_singleton| ->%elem_of_singleton]; [by left|right].
    exists (message_of answered 13). exact (conj (list_elem_of_lookup_2 _ _ _ Hm) (conj Hty (conj Hrej (conj Hfrom (conj Hmt Hctx))))).
Defined.
End Read.
