(* ===== verification/Raftstore.v ===== *)
(** * The stable store of raft

    internal/raftstore: the term and vote in a JSON file, the log as checksummed
    records appended to a file, and the newest snapshot in a file of its own. A snapshot
    is published by a rename, then the log is rewritten to what follows it. *)

From S2P Require Import Prelude GoStd Fs Json Manifest Membership RaftTypes RaftNode RaftCore.

Module Raftstore.
Import Json Membership Raft Core.

Definition hardStateFile : bytes := str "HARDSTATE".
Definition snapshotFile : bytes := str "SNAPSHOT".
Definition logFile : bytes := str "raft.log".
Definition hardTmp : bytes := str ".HARDSTATE.tmp".
Definition snapshotTmp : bytes := str ".SNAPSHOT.tmp".
Definition logTmp : bytes := str ".raft.log.tmp".
Definition maxEntryData : Z := MaxEntryBytes.
Definition maxSnapshotData : Z := 64 * 2 ^ 30.

(** ** Encodings *)

(** Index, term, length, data and the checksum of all of these. *)
Definition entry_header (e : Entry) : bytes :=
  PutUint64 (e_index e) ++ PutUint64 (e_term e) ++ PutUint32 (Z.of_nat (length (e_data e))).
Definition entry_body (e : Entry) : bytes := entry_header e ++ e_data e.
Definition encodeEntry (e : Entry) : bytes := entry_body e ++ PutUint32 (ChecksumIEEE (entry_body e)).

Definition hard_json (h : HardState) : json :=
  JObj [(str "Term", JNum (dec (hs_term h))); (str "VotedFor", JNum (dec (hs_votedFor h)))].
Definition hard_bytes (h : HardState) : bytes := print Compact 0 (hard_json h) ++ [byte_of_Z 10].

Definition set_hard_field (h : HardState) (kv : bytes * json) : option HardState :=
  let '(k, v) := kv in
  if same_name k (str "Term") then n ← store_num parse_uint v (hs_term h); Some (mkHard n (hs_votedFor h)) else
  if same_name k (str "VotedFor") then n ← store_num parse_uint v (hs_votedFor h); Some (mkHard (hs_term h) n) else
  Some h.

Fixpoint set_hard_fields (h : HardState) (l : list (bytes * json)) : option HardState :=
  match l with [] => Some h | kv :: l' => h' ← set_hard_field h kv; set_hard_fields h' l' end.

Definition unmarshal_hard (data : bytes) : option HardState :=
  v ← parse data;
  match v with JObj l => set_hard_fields (mkHard 0 0) l | JNull => Some (mkHard 0 0) | _ => None end.

(** json.Marshal of a membership: "joint_voters" and "index" are left out when empty. *)
Definition membership_json (m : Membership) : json :=
  JObj ([(str "voters", slice_json (Voters m))] ++
        (if (length (JointVoters m) =? 0)%nat then [] else [(str "joint_voters", voters_json (JointVoters m))]) ++
        (if Index m =? 0 then [] else [(str "index", JNum (dec (Index m)))])).
Definition membership_bytes (m : Membership) : bytes := print Compact 0 (membership_json m).

Definition set_membership_field (m : Membership) (kv : bytes * json) : option Membership :=
  let '(k, v) := kv in
  if same_name k (str "voters") then l ← store_uints v; Some (mkMembership l (JointVoters m) (Index m)) else
  if same_name k (str "joint_voters") then l ← store_uints v; Some (mkMembership (Voters m) l (Index m)) else
  if same_name k (str "index") then n ← store_num parse_uint v (Index m); Some (mkMembership (Voters m) (JointVoters m) n) else
  Some m.

Fixpoint set_membership_fields (m : Membership) (l : list (bytes * json)) : option Membership :=
  match l with [] => Some m | kv :: l' => m' ← set_membership_field m kv; set_membership_fields m' l' end.

Definition unmarshal_membership (data : bytes) : option Membership :=
  v ← parse data;
  match v with
  | JObj l => set_membership_fields zeroMembership l
  | JNull => Some zeroMembership
  | _ => None
  end.

(** ** Reading the log *)

(** The loop of readLog on the bytes from [pos] on; it stops before the first record
    that is incomplete, invalid or out of sequence. *)
Fixpoint read_log (fuel : nat) (snapshotIndex : Z) (rest : bytes) (pos : nat) (previous : Z)
    (entries : list Entry) (offsets : list nat) : list Entry * list nat * nat :=
  match fuel with
  | O => (entries, offsets, pos)
  | S fuel' =>
      if (length rest <? 20)%nat then (entries, offsets, pos) else
      let header := take 20 rest in
      let index := get_be (slice 0 8 header) in
      let tm := get_be (slice 8 16 header) in
      let len := get_be (slice 16 20 header) in
      if (maxEntryData <? len) || (tm =? 0) || (negb (previous =? 0) && negb (index =? u64 (previous + 1)))
      then (entries, offsets, pos) else
      if (previous =? 0) && negb (index =? 1) && negb (index =? u64 (snapshotIndex + 1)) then (entries, offsets, pos) else
      let n := Z.to_nat len in
      let left := drop 20 rest in
      if (length left <? n + 4)%nat then (entries, offsets, pos) else
      let stored := get_be (slice n (n + 4) left) in
      if negb (ChecksumIEEE (header ++ take n left) =? stored) then (entries, offsets, pos) else
      let size := (20 + (n + 4))%nat in
      if snapshotIndex <? index
      then read_log fuel' snapshotIndex (drop size rest) (pos + size) index (entries ++ [mkEntry index tm (take n left)]) (offsets ++ [pos])
      else read_log fuel' snapshotIndex (drop size rest) (pos + size) index entries offsets
  end.

Definition readLog (snapshotIndex : Z) (content : bytes) : list Entry * list nat * nat :=
  read_log (S (length content)) snapshotIndex content 0 0 [] [].

(** ** The snapshot file *)

(** Index, term and data length, the data, the membership with its length, and the
    checksum of all of these. *)
Definition snapshot_header (s : Snapshot) (size : Z) : bytes := PutUint64 (s_index s) ++ PutUint64 (s_term s) ++ PutUint64 size.

(** The metadata in a snapshot file, the size and the checksum of its data. *)
Definition inspect (content : bytes) : res (Snapshot * Z * Z) :=
  let size := Z.of_nat (length content) in
  if size <? 28 then Err "raft snapshot is truncated" else
  let index := get_be (slice 0 8 content) in
  let tm := get_be (slice 8 16 content) in
  let len := get_be (slice 16 24 content) in
  if (index =? 0) || (tm =? 0) || (maxSnapshotData <? len) || (size - 28 <? len)
  then Err "raft snapshot header is invalid" else
  let baseEnd := Z.to_nat (24 + len) in
  membership ← (if size =? 24 + len + 4 then Ok zeroMembership else
    if size <? 24 + len + 8 then Err "raft snapshot membership is truncated" else
    let membershipLen := get_be (slice baseEnd (baseEnd + 4) content) in
    if (2 ^ 20 <? membershipLen) || negb (size =? 24 + len + 4 + membershipLen + 4)
    then Err "raft snapshot membership length is invalid" else
    match unmarshal_membership (slice (baseEnd + 4) (baseEnd + 4 + Z.to_nat membershipLen) content) with
    | Some m => Ok m
    | None => Err "decode snapshot membership"
    end);
  if negb (ChecksumIEEE (take (length content - 4) content) =? get_be (drop (length content - 4) content))
  then Err "raft snapshot checksum mismatch" else
  Ok (mkSnapshot index tm [] membership, len, ChecksumIEEE (slice 24 baseEnd content)).

Definition inspectSnapshot : M World (Snapshot * Z * Z) :=
  content ← os_Open snapshotFile;
  match content with
  | None => mret (zeroSnapshot, 0, 0)
  | Some content => Manifest.or_close (sys "stat" id) ;; ignore f_Close ;; of_res (inspect content)
  end.

Definition file_of (name : bytes) : M (nat * World) bytes := gets (fun s => default [] (files s.2 !! name)).
Definition world {A} (m : M World A) : M (nat * World) A := zoom snd (fun w s => (s.1, w)) m.

(** What the caller writes: buffers, and an error of its own after them. *)
Record Source := mkSource { chunks : list bytes; source_error : option string }.

(** boundedSnapshotWriter: refuse a buffer that would exceed the limit. *)
Fixpoint write_chunks (written : Z) (l : list bytes) : M (nat * World) unit :=
  match l with
  | [] => mret tt
  | b :: l' =>
      if maxSnapshotData - written <? Z.of_nat (length b) then raise "snapshot exceeds limit" else
      f_Write snapshotTmp b ;; write_chunks (written + Z.of_nat (length b)) l'
  end.

(** The temporary snapshot file, up to the sync. The state is the offset of the open
    file. *)
Definition write_snapshot (s : Snapshot) (src : Source) : M (nat * World) (Z * Z) :=
  f_Write snapshotTmp (snapshot_header s 0) ;;
  world f_Seek ;;
  write_chunks 0 (chunks src) ;;
  match source_error src with
  | Some e => raise e
  | None =>
      world f_Seek ;;
      let size := Z.of_nat (length (concat (chunks src))) in
      world (sys_write snapshotTmp 0 (snapshot_header s size)) ;;
      world f_Seek ;;
      f_Write snapshotTmp (PutUint32 (Z.of_nat (length (membership_bytes (s_membership s))))) ;;
      f_Write snapshotTmp (membership_bytes (s_membership s)) ;;
      world f_Seek ;;
      content ← file_of snapshotTmp;
      world f_Seek ;;
      f_Write snapshotTmp (PutUint32 (ChecksumIEEE content)) ;;
      world f_Sync ;;
      mret (size, ChecksumIEEE (concat (chunks src)))
  end.

Definition syncDir : M World unit :=
  sys "open dir" id ;; e ← try_err f_Sync; ignore f_Close ;; match e with Some e => raise e | None => mret tt end.

Definition storeSnapshotStream (s : Snapshot) (src : Source) : M World (Z * Z) :=
  os_Create snapshotTmp ;;
  r ← catch (fun w => let '(r, (_, w')) := write_snapshot s src (0%nat, w) in (r, w'))
        (fun e => ignore f_Close ;; ignore (os_Remove snapshotTmp) ;; raise e);
  catch (f_Close ;; os_Rename snapshotTmp snapshotFile) (fun e => ignore (os_Remove snapshotTmp) ;; raise e) ;;
  syncDir ;;
  mret r.

(** ** Hard state *)

Definition loadHardState : M World HardState :=
  data ← os_Open hardStateFile;
  match data with
  | None => mret (mkHard 0 0)
  | Some data => of_res (match unmarshal_hard data with Some h => Ok h | None => Err "decode raft hard state" end)
  end.

Definition storeHardState (h : HardState) : M World unit :=
  os_Create hardTmp ;;
  catch (Manifest.or_close (sys_write hardTmp 0 (hard_bytes h)) ;;
         Manifest.or_close f_Sync ;;
         f_Close ;;
         os_Rename hardTmp hardStateFile)
    (fun e => ignore (os_Remove hardTmp) ;; raise e) ;;
  syncDir.

(** ** The store *)

Record Store := mkStore {
  entries : list Entry;
  offsets : list nat;
  hard : HardState;
  snapshot : Snapshot;
  snapshotSize : Z;
  snapshotChecksum : Z;
  position : nat    (** of the open log file *)
}.

Definition St : Type := Store * World.

Definition fs {A} (m : M World A) : M St A := zoom snd (fun w s => (s.1, w)) m.
Definition get : M St Store := gets fst.
Definition put (f : Store -> Store) : M St unit := modify (fun s => (f s.1, s.2)).

Definition set_log (es : list Entry) (offs : list nat) (pos : nat) (s : Store) : Store :=
  mkStore es offs (hard s) (snapshot s) (snapshotSize s) (snapshotChecksum s) pos.
Definition set_hard (h : HardState) (s : Store) : Store :=
  mkStore (entries s) (offsets s) h (snapshot s) (snapshotSize s) (snapshotChecksum s) (position s).
Definition set_snapshot (sn : Snapshot) (size sum : Z) (s : Store) : Store :=
  mkStore (entries s) (offsets s) (hard s) sn size sum (position s).
Definition set_position (pos : nat) (s : Store) : Store := set_log (entries s) (offsets s) pos s.

(** A call on the open log file, which moves its offset. *)
Definition on_log {A} (m : M (nat * World) A) : M St A :=
  zoom (fun s => (position s.1, s.2)) (fun pw s => (set_position pw.1 s.1, pw.2)) m.

Definition Open : M World Store :=
  sys "mkdir" id ;;
  h ← loadHardState;
  meta ← inspectSnapshot;
  os_OpenCreate logFile ;;
  Manifest.or_close f_Seek ;;
  content ← gets (fun w => default [] (files w !! logFile));
  let log := readLog (s_index meta.1.1) content in
  Manifest.or_close (f_Truncate logFile log.2) ;;
  Manifest.or_close f_Seek ;;
  mret (mkStore log.1.1 log.1.2 h meta.1.1 meta.1.2 meta.2 log.2).

Definition SnapshotMetadata (s : Store) : Snapshot := snapshot s.
Definition Load (s : Store) : HardState * list Entry := (hard s, entries s).

(** The data of the durable snapshot, its size and checksum. *)
Definition OpenSnapshot (index : Z) : M St (bytes * Z * Z) :=
  s ← get;
  if (index =? 0) || negb (index =? s_index (snapshot s)) then raise "raft snapshot is not durable" else
  content ← fs (os_Open snapshotFile);
  match content with
  | None => raise "open raft snapshot"
  | Some content => mret (slice 24 (24 + Z.to_nat (snapshotSize s)) content, snapshotSize s, snapshotChecksum s)
  end.

Definition LoadSnapshot : M St Snapshot :=
  s ← get;
  if s_index (snapshot s) =? 0 then mret (snapshot s) else
  catch (r ← OpenSnapshot (s_index (snapshot s)); ignore (fs f_Close) ;;
         mret (mkSnapshot (s_index (snapshot s)) (s_term (snapshot s)) r.1.1 (s_membership (snapshot s))))
    (fun _ => mret zeroSnapshot).

Definition truncate (from : Z) : M St unit :=
  s ← get;
  let first := u64 (s_index (snapshot s) + 1) in
  let last := u64 (s_index (snapshot s) + Z.of_nat (length (entries s))) in
  if (from <? first) || (u64 (last + 1) <? from) then raise "invalid raft truncation index" else
  if from =? u64 (last + 1) then mret tt else
  let k := Z.to_nat (from - first) in
  match offsets s !! k with
  | None => of_res Panic
  | Some offset =>
      fs (f_Truncate logFile offset) ;;
      fs f_Seek ;;
      put (set_log (take k (entries s)) (take k (offsets s)) offset) ;;
      fs f_Sync
  end.

Fixpoint append_entries (l : list Entry) : M St unit :=
  match l with
  | [] => mret tt
  | e :: l' =>
      s ← get;
      let want := u64 (s_index (snapshot s) + Z.of_nat (length (entries s)) + 1) in
      if negb (e_index e =? want) || (e_term e =? 0) then raise "append raft entry" else
      if maxEntryData <? Z.of_nat (length (e_data e)) then raise "raft entry exceeds limit" else
      fs f_Seek ;;
      on_log (f_Write logFile (encodeEntry e)) ;;
      put (fun s' => set_log (entries s' ++ [e]) (offsets s' ++ [position s]) (position s') s') ;;
      append_entries l'
  end.

Definition append (l : list Entry) : M St unit := append_entries l ;; fs f_Sync.

(** The temporary log file; the state is its offset. *)
Fixpoint write_entries (l : list Entry) : M (nat * World) unit :=
  match l with [] => mret tt | e :: l' => f_Write logTmp (encodeEntry e) ;; write_entries l' end.

(** The offsets of records written one after the other from [pos]. *)
Fixpoint offsets_from (pos : nat) (l : list Entry) : list nat :=
  match l with [] => [] | e :: l' => pos :: offsets_from (pos + length (encodeEntry e)) l' end.

Definition write_log (l : list Entry) : M World unit :=
  os_Create logTmp ;;
  catch (Manifest.or_close (fun w => let '(r, (_, w')) := write_entries l (0%nat, w) in (r, w')) ;;
         Manifest.or_close f_Sync ;;
         f_Close ;;
         f_Close ;;
         os_Rename logTmp logFile)
    (fun e => ignore (os_Remove logTmp) ;; raise e) ;;
  syncDir ;;
  content ← os_Open logFile;
  match content with None => raise "reopen compacted raft log" | Some _ => mret tt end.

Definition rewriteLog (l : list Entry) : M St unit :=
  fs (write_log l) ;;
  put (set_log l (offsets_from 0 l) 0) ;;
  fs f_Seek ;;
  size ← fs (gets (fun w => length (default [] (files w !! logFile))));
  put (set_position size).

Definition installSnapshot (sn : Snapshot) (src : Source) : M St unit :=
  if (s_index sn =? 0) || (s_term sn =? 0) then raise "invalid raft snapshot" else
  s ← get;
  let base := s_index (snapshot s) in
  if s_index sn <=? base then mret tt else
  keepSuffix ← of_res (if s_index sn <=? u64 (base + Z.of_nat (length (entries s)))
                       then match entries s !! Z.to_nat (s_index sn - base - 1) with
                            | Some e => Ok (e_term e =? s_term sn)
                            | None => Panic
                            end
                       else Ok false);
  let suffix := if (keepSuffix : bool) then drop (Z.to_nat (s_index sn - base)) (entries s) else [] in
  r ← fs (storeSnapshotStream sn src);
  rewriteLog suffix ;;
  put (set_snapshot (mkSnapshot (s_index sn) (s_term sn) [] (s_membership sn)) r.1 r.2).

(** io.Copy from a byte reader: one write, none for no data. *)
Definition data_source (data : bytes) : Source := mkSource (if (length data =? 0)%nat then [] else [data]) None.

Definition storeSnapshot (sn : Snapshot) : M World unit := storeSnapshotStream sn (data_source (s_data sn)) ;; mret tt.

Definition persist_update (u : Update) (writeData : option Source) : M St unit :=
  match u_hardState u with
  | Some h => fs (storeHardState h) ;; put (set_hard h)
  | None => mret tt
  end ;;
  match u_snapshot u with
  | Some sn => installSnapshot sn (default (data_source (s_data sn)) writeData)
  | None => mret tt
  end ;;
  (if u_truncateFrom u =? 0 then mret tt else truncate (u_truncateFrom u)) ;;
  (if (length (u_entries u) =? 0)%nat then mret tt else append (u_entries u)).

Definition Persist (u : Update) : M St unit := persist_update u None.

Definition PersistSnapshot (u : Update) (writeData : option Source) : M St unit :=
  match u_snapshot u, writeData with
  | Some _, Some _ => persist_update u writeData
  | _, _ => raise "streamed snapshot persistence requires metadata and a writer"
  end.

Definition Close : M St unit := fs f_Sync ;; fs f_Close.

(** ** Reading back a log *)

Record entry_valid (e : Entry) : Prop := {
  ev_index : 0 < e_index e < 2 ^ 64;
  ev_term : 0 < e_term e < 2 ^ 64;
  ev_data : Z.of_nat (length (e_data e)) <= maxEntryData
}.

Definition encode_all (l : list Entry) : bytes := concat (encodeEntry <$> l).

Lemma encode_all_app l1 l2 : encode_all (l1 ++ l2) = encode_all l1 ++ encode_all l2.
Proof. unfold encode_all. by rewrite fmap_app, concat_app. Qed.

Lemma encode_all_cons e l : encode_all (e :: l) = encodeEntry e ++ encode_all l.
Proof. done. Qed.

Lemma length_entry_header e : length (entry_header e) = 20%nat.
Proof. unfold entry_header. by rewrite !length_app, !length_PutUint64, length_PutUint32. Qed.

Lemma length_encodeEntry e : length (encodeEntry e) = (24 + length (e_data e))%nat.
Proof. unfold encodeEntry, entry_body. rewrite !length_app, length_entry_header, length_PutUint32. lia. Qed.

Lemma entry_fields e : entry_valid e ->
  get_be (slice 0 8 (entry_header e)) = e_index e /\ get_be (slice 8 16 (entry_header e)) = e_term e /\
  get_be (slice 16 20 (entry_header e)) = Z.of_nat (length (e_data e)).
Proof.
  intros [Hi Ht Hd]. unfold maxEntryData, MaxEntryBytes in Hd. unfold entry_header. split_and!.
  - rewrite slice_app_0 by (by rewrite length_PutUint64). apply get_put_u64. lia.
  - rewrite slice_app_mid; [apply get_put_u64; lia|by rewrite length_PutUint64|by rewrite length_PutUint64].
  - rewrite app_assoc, <- (app_nil_r (PutUint32 _)), slice_app_mid; [apply get_put_u32; lia| |];
      rewrite ?length_app, ?length_PutUint64, ?length_PutUint32; done.
Qed.


(** The index of a record is the one readLog expects after [previous]. *)
Definition next_index (idx previous i : Z) : Prop :=
  if previous =? 0 then i = 1 \/ i = idx + 1 else i = previous + 1.

Lemma read_log_step fuel idx e rest pos previous es offs :
  entry_valid e -> next_index idx previous (e_index e) ->
  0 <= idx -> 0 <= previous ->
  read_log (S fuel) idx (encodeEntry e ++ rest) pos previous es offs
  = read_log fuel idx rest (pos + length (encodeEntry e)) (e_index e)
      (if idx <? e_index e then es ++ [e] else es) (if idx <? e_index e then offs ++ [pos] else offs).
Proof.
  intros Hv Hn Hi Hp. pose proof (entry_fields e Hv) as (F1 & F2 & F3). destruct Hv as [H1 H2 H3].
  cbn [read_log]. rewrite length_app, length_encodeEntry.
  destruct (Nat.ltb_spec (24 + length (e_data e) + length rest) 20); [lia|].
  unfold encodeEntry, entry_body. rewrite <- !app_assoc.
  rewrite take_app_exact, drop_app_exact by (by rewrite length_entry_header). rewrite F1, F2, F3.
  rewrite (proj2 (Z.ltb_ge _ _)) by done. rewrite (proj2 (Z.eqb_neq (e_term e) 0)) by lia. simpl orb.
  assert (negb (previous =? 0) && negb (e_index e =? u64 (previous + 1)) = false) as ->.
  { unfold next_index in Hn. destruct (Z.eqb_spec previous 0); [done|]. simpl. rewrite u64_small by lia.
    apply negb_false_iff, Z.eqb_eq. lia. }
  assert ((previous =? 0) && negb (e_index e =? 1) && negb (e_index e =? u64 (idx + 1)) = false) as ->.
  { unfold next_index in Hn. destruct (previous =? 0); [|done]. destruct (Z.eqb_spec (e_index e) 1); [done|].
    destruct Hn as [?|Hn]; [done|]. rewrite u64_small by lia. rewrite (proj2 (Z.eqb_eq _ _)) by done. done. }
  rewrite Nat2Z.id. set (c := PutUint32 _). assert (length c = 4%nat) as Hc by apply length_PutUint32.
  rewrite !length_app, Hc. destruct (Nat.ltb_spec (length (e_data e) + (4 + length rest)) (length (e_data e) + 4)); [lia|].
  rewrite take_app_length, slice_app_mid by (done || lia).
  assert (get_be c = ChecksumIEEE (entry_header e ++ e_data e)) as -> by apply crc_roundtrip.
  rewrite Z.eqb_refl. simpl negb. cbv iota.
  replace (drop (20 + (length (e_data e) + 4)) (entry_header e ++ e_data e ++ c ++ rest)) with rest.
  2:{ rewrite !app_assoc. rewrite drop_app_exact; [done|]. rewrite !length_app, length_entry_header, Hc. lia. }
  replace (mkEntry (e_index e) (e_term e) (e_data e)) with e by (by destruct e).
  replace (24 + length (e_data e))%nat with (20 + (length (e_data e) + 4))%nat by lia.
  by destruct (idx <? e_index e).
Qed.

(** A record cut short ends the log. *)
Lemma read_log_torn fuel idx e k pos previous es offs :
  entry_valid e -> (k < length (encodeEntry e))%nat ->
  read_log fuel idx (take k (encodeEntry e)) pos previous es offs = (es, offs, pos).
Proof.
  intros Hv Hk. destruct fuel as [|fuel]; [done|]. pose proof (entry_fields e Hv) as (F1 & F2 & F3). cbn [read_log].
  rewrite length_take, Nat.min_l by lia. destruct (Nat.ltb_spec k 20); [done|].
  assert (take 20 (take k (encodeEntry e)) = entry_header e) as ->.
  { rewrite take_take, Nat.min_l by lia. unfold encodeEntry, entry_body. rewrite <- app_assoc.
    apply take_app_exact. by rewrite length_entry_header. }
  rewrite F1, F2, F3. destruct (_ || _ || _); [done|]. destruct (_ && _ && _); [done|].
  rewrite length_encodeEntry in Hk. rewrite Nat2Z.id, length_drop, length_take, length_encodeEntry.
  match goal with |- context [(?a <? ?b)%nat] => destruct (Nat.ltb_spec a b); [done|lia] end.
Qed.

(** Valid records with consecutive indexes from [i] on. *)
Fixpoint chain (i : Z) (l : list Entry) : Prop :=
  match l with [] => True | e :: l' => entry_valid e /\ e_index e = i /\ chain (i + 1) l' end.

Lemma chain_app i l1 l2 : chain i (l1 ++ l2) <-> chain i l1 /\ chain (i + Z.of_nat (length l1)) l2.
Proof.
  revert i. induction l1 as [|e l1 IH]; intros i; simpl.
  - rewrite Z.add_0_r. tauto.
  - rewrite IH. replace (i + 1 + Z.of_nat (length l1)) with (i + Z.of_nat (S (length l1))) by lia. tauto.
Qed.

Lemma chain_take i k l : chain i l -> chain i (take k l).
Proof. intros H. rewrite <- (take_drop k l), chain_app in H. apply H. Qed.

Lemma chain_drop i k l : chain i l -> (k <= length l)%nat -> chain (i + Z.of_nat k) (drop k l).
Proof. intros H Hk. rewrite <- (take_drop k l), chain_app, length_take, Nat.min_l in H by done. apply H. Qed.

Lemma chain_lookup i l j e : chain i l -> l !! j = Some e -> entry_valid e /\ e_index e = i + Z.of_nat j.
Proof.
  revert i j. induction l as [|x l IH]; intros i j H Hj; [done|]. destruct H as (Hv & Hx & H). destruct j as [|j].
  - injection Hj as ->. split; [done|lia].
  - destruct (IH _ _ H Hj). split; [done|lia].
Qed.

(** The loop skips the records up to the snapshot and takes those after it. *)
Lemma read_log_skip fuel idx i l rest pos previous es offs :
  chain i l -> 0 <= idx -> 0 <= previous -> next_index idx previous i -> 0 < i -> i + Z.of_nat (length l) <= idx + 1 ->
  read_log (length l + fuel) idx (encode_all l ++ rest) pos previous es offs
  = read_log fuel idx rest (pos + length (encode_all l)) (if l then previous else i + Z.of_nat (length l) - 1) es offs.
Proof.
  revert i pos previous. induction l as [|e l IH]; intros i pos previous H Hi Hp Hn H0 Hl.
  { simpl. by rewrite Nat.add_0_r. }
  destruct H as (Hv & He & H). subst i. rewrite encode_all_cons, <- app_assoc. cbn [length plus].
  rewrite read_log_step by done. simpl in Hl. rewrite (proj2 (Z.ltb_ge _ _)) by lia.
  rewrite (IH (e_index e + 1)); try done; try lia.
  2:{ unfold next_index. by rewrite (proj2 (Z.eqb_neq _ _)) by lia. }
  rewrite length_app, Nat.add_assoc. f_equal. destruct l; simpl; lia.
Qed.

Lemma read_log_take fuel idx i l rest pos previous es offs :
  chain i l -> 0 <= idx -> 0 <= previous -> next_index idx previous i -> idx < i ->
  read_log (length l + fuel) idx (encode_all l ++ rest) pos previous es offs
  = read_log fuel idx rest (pos + length (encode_all l)) (if l then previous else i + Z.of_nat (length l) - 1)
      (es ++ l) (offs ++ offsets_from pos l).
Proof.
  revert i pos previous es offs. induction l as [|e l IH]; intros i pos previous es offs H Hi Hp Hn H0.
  { simpl. by rewrite Nat.add_0_r, !app_nil_r. }
  destruct H as (Hv & He & H). subst i. rewrite encode_all_cons, <- app_assoc. cbn [length plus offsets_from].
  rewrite read_log_step by done. rewrite (proj2 (Z.ltb_lt _ _)) by lia.
  rewrite (IH (e_index e + 1)); try done; try lia.
  2:{ unfold next_index. by rewrite (proj2 (Z.eqb_neq _ _)) by lia. }
  rewrite length_app, Nat.add_assoc, <- !app_assoc. f_equal. destruct l; simpl; lia.
Qed.

(** Bytes at which the loop ends. *)
Definition stops (tail : bytes) : Prop := forall fuel idx pos previous es offs,
  read_log fuel idx tail pos previous es offs = (es, offs, pos).

Lemma stops_nil : stops [].
Proof. by intros [] **. Qed.

Lemma stops_torn e k : entry_valid e -> (k < length (encodeEntry e))%nat -> stops (take k (encodeEntry e)).
Proof. intros Hv Hk fuel **. by apply read_log_torn. Qed.

Lemma encode_all_length_ge l : (length l <= length (encode_all l))%nat.
Proof.
  induction l as [|e l IH]; [done|]. rewrite encode_all_cons, length_app, length_encodeEntry. simpl. lia.
Qed.

(** A log file: records the snapshot covers, those after it, and a torn tail. *)
Lemma readLog_all idx i pre l tail :
  chain i (pre ++ l) -> i = 1 \/ i = idx + 1 -> 0 <= idx -> (l = [] -> i + Z.of_nat (length pre) <= idx + 1) ->
  (l <> [] -> i + Z.of_nat (length pre) = idx + 1) -> stops tail ->
  readLog idx (encode_all pre ++ encode_all l ++ tail)
  = (l, offsets_from (length (encode_all pre)) l, length (encode_all (pre ++ l))).
Proof.
  intros H Hi Hidx Hl0 Hl1 Ht. rewrite chain_app in H. destruct H as [Hp Hl]. unfold readLog.
  rewrite encode_all_app, length_app. pose proof (encode_all_length_ge pre). pose proof (encode_all_length_ge l).
  rewrite !length_app. destruct l as [|e l'] eqn:El.
  - replace (S _) with (length pre + S (length (encode_all pre) - length pre + length tail))%nat by (simpl; lia).
    rewrite (read_log_skip _ _ i); try done; [|lia|by apply Hl0].
    change (encode_all [] ++ tail) with tail. rewrite Ht. by rewrite Nat.add_0_r.
  - rewrite <- El in *. specialize (Hl1 ltac:(by subst)).
    replace (S _) with (length pre + (length l + S (length (encode_all pre) - length pre + (length (encode_all l) - length l)
      + length tail)))%nat by lia.
    rewrite (read_log_skip _ _ i); try done; [|lia|lia].
    rewrite (read_log_take _ _ (i + Z.of_nat (length pre)) l); try done; [destruct pre; simpl in *; lia| |lia].
    unfold next_index. destruct pre as [|p pre]; simpl in *; [destruct Hi; lia|].
    rewrite (proj2 (Z.eqb_neq _ _)) by lia. lia.
Qed.

(** ** Reading back the hard state and a snapshot *)

Definition hard_ok (h : HardState) : Prop := 0 <= hs_term h < 2 ^ 64 /\ 0 <= hs_votedFor h < 2 ^ 64.

Lemma set_term h n : 0 <= n < 2 ^ 64 -> set_hard_field h (str "Term", JNum (dec n)) = Some (mkHard n (hs_votedFor h)).
Proof. intros Hn. unfold set_hard_field. simpl store_num. rewrite parse_uint_dec by done. reflexivity. Qed.

Lemma set_votedFor h n : 0 <= n < 2 ^ 64 -> set_hard_field h (str "VotedFor", JNum (dec n)) = Some (mkHard (hs_term h) n).
Proof. intros Hn. unfold set_hard_field. simpl store_num. rewrite parse_uint_dec by done. reflexivity. Qed.

Lemma unmarshal_hard_bytes h : hard_ok h -> unmarshal_hard (hard_bytes h) = Some h.
Proof.
  intros [Ht Hv]. unfold unmarshal_hard, hard_bytes. rewrite parse_print, some_bind.
  - unfold hard_json. cbn [set_hard_fields]. rewrite set_term, some_bind, set_votedFor by done. by destruct h.
  - apply nums_JObj. repeat (apply Forall_cons; split); cbn [snd nums_ok]; try (apply num_ok_dec; lia). constructor.
Qed.

(** The numbers of a membership fit, and the file's length field for it is accepted. *)
Definition memb_storable (m : Membership) : Prop :=
  Forall (fun id => 0 <= id < 2 ^ 64) (Voters m) /\ Forall (fun id => 0 <= id < 2 ^ 64) (JointVoters m) /\
  0 <= Index m < 2 ^ 64 /\ Z.of_nat (length (membership_bytes m)) <= 2 ^ 20.

Lemma set_voters m l : Forall (fun id => 0 <= id < 2 ^ 64) l ->
  set_membership_field m (str "voters", slice_json l) = Some (mkMembership l (JointVoters m) (Index m)).
Proof.
  intros Hl. unfold set_membership_field. rewrite (eq_refl : same_name (str "voters") (str "voters") = true).
  unfold slice_json. destruct l as [|i l]; [done|]. by rewrite store_uints_voters.
Qed.

Lemma set_joint m l : Forall (fun id => 0 <= id < 2 ^ 64) l ->
  set_membership_field m (str "joint_voters", voters_json l) = Some (mkMembership (Voters m) l (Index m)).
Proof.
  intros Hl. unfold set_membership_field. rewrite (eq_refl : same_name (str "joint_voters") (str "voters") = false).
  rewrite (eq_refl : same_name (str "joint_voters") (str "joint_voters") = true). by rewrite store_uints_voters.
Qed.

Lemma set_index m n : 0 <= n < 2 ^ 64 ->
  set_membership_field m (str "index", JNum (dec n)) = Some (mkMembership (Voters m) (JointVoters m) n).
Proof. intros Hn. unfold set_membership_field. simpl store_num. rewrite parse_uint_dec by done. reflexivity. Qed.

Lemma unmarshal_membership_bytes m : memb_storable m -> unmarshal_membership (membership_bytes m) = Some m.
Proof.
  intros (Hv & Hj & Hi & _). unfold unmarshal_membership, membership_bytes. rewrite parse_print_alone, some_bind.
  - destruct m as [v j i]; cbn [Voters JointVoters Index] in *. unfold membership_json; cbn [Voters JointVoters Index].
    destruct j as [|x j], (Z.eqb_spec i 0) as [->|]; cbn [length Nat.eqb app set_membership_fields];
      rewrite set_voters by done; rewrite some_bind; cbn [Voters JointVoters Index zeroMembership];
      rewrite ?set_joint, ?some_bind by done; rewrite ?set_index by done; done.
  - unfold membership_json. apply nums_JObj. repeat (apply Forall_app; split).
    + constructor; [|constructor]. cbn [snd]. unfold slice_json. destruct (Voters m) as [|x l]; [done|]. by apply nums_ok_voters.
    + destruct (JointVoters m) as [|x l]; [constructor|]. constructor; [|constructor]. by apply nums_ok_voters.
    + destruct (_ =? 0); [constructor|]. constructor; [|constructor]. apply num_ok_dec. lia.
Qed.

(** The content of a complete snapshot file. *)
Definition snapshot_body (s : Snapshot) (data : bytes) : bytes :=
  snapshot_header s (Z.of_nat (length data)) ++ data ++
  PutUint32 (Z.of_nat (length (membership_bytes (s_membership s)))) ++ membership_bytes (s_membership s).
Definition snapshot_bytes (s : Snapshot) (data : bytes) : bytes :=
  snapshot_body s data ++ PutUint32 (ChecksumIEEE (snapshot_body s data)).

Record snapshot_ok (s : Snapshot) (data : bytes) : Prop := {
  so_index : 0 < s_index s < 2 ^ 64;
  so_term : 0 < s_term s < 2 ^ 64;
  so_memb : memb_storable (s_membership s);
  so_data : Z.of_nat (length data) <= maxSnapshotData
}.

Definition metadata (s : Snapshot) : Snapshot := mkSnapshot (s_index s) (s_term s) [] (s_membership s).

Lemma length_snapshot_header s n : length (snapshot_header s n) = 24%nat.
Proof. unfold snapshot_header. by rewrite !length_app, !length_PutUint64. Qed.

Lemma snapshot_fields s n rest : 0 < s_index s < 2 ^ 64 -> 0 < s_term s < 2 ^ 64 -> 0 <= n < 2 ^ 64 ->
  let c := snapshot_header s n ++ rest in
  get_be (slice 0 8 c) = s_index s /\ get_be (slice 8 16 c) = s_term s /\ get_be (slice 16 24 c) = n.
Proof.
  intros Hi Ht Hn. cbv zeta. unfold snapshot_header. rewrite <- !app_assoc. split_and!.
  - rewrite slice_app_0 by (by rewrite length_PutUint64). apply get_put_u64. lia.
  - rewrite slice_app_mid; [apply get_put_u64; lia|by rewrite length_PutUint64|by rewrite length_PutUint64].
  - rewrite app_assoc, slice_app_mid; [apply get_put_u64; lia| |]; by rewrite ?length_app, !length_PutUint64.
Qed.

Lemma inspect_bytes s data : snapshot_ok s data ->
  inspect (snapshot_bytes s data) = Ok (metadata s, Z.of_nat (length data), ChecksumIEEE data).
Proof.
  intros [Hi Ht Hm Hd]. pose proof (unmarshal_membership_bytes _ Hm) as Eu. destruct Hm as (_ & _ & _ & Hml).
  set (mb := membership_bytes (s_membership s)) in *. set (n := Z.of_nat (length data)).
  assert (0 <= n < 2 ^ 64) as Hn by (unfold maxSnapshotData, n in *; lia).
  assert (length (snapshot_body s data) = 28 + length data + length mb)%nat as Lb.
  { unfold snapshot_body. rewrite !length_app, length_snapshot_header, length_PutUint32. fold mb. lia. }
  assert (length (snapshot_bytes s data) = 32 + length data + length mb)%nat as Ls.
  { unfold snapshot_bytes. rewrite length_app, Lb, length_PutUint32. lia. }
  assert (snapshot_bytes s data = snapshot_header s n ++ data ++ PutUint32 (Z.of_nat (length mb)) ++ mb ++
    PutUint32 (ChecksumIEEE (snapshot_body s data))) as Eb.
  { unfold snapshot_bytes, snapshot_body at 1. fold mb n. by rewrite <- !app_assoc. }
  destruct (snapshot_fields s n (data ++ PutUint32 (Z.of_nat (length mb)) ++ mb ++
    PutUint32 (ChecksumIEEE (snapshot_body s data))) Hi Ht Hn) as (F1 & F2 & F3). rewrite <- Eb in F1, F2, F3.
  unfold inspect. rewrite F1, F2, F3, Ls. rewrite (proj2 (Z.ltb_ge _ 28)) by lia.
  rewrite !(proj2 (Z.eqb_neq _ 0)) by lia. rewrite (proj2 (Z.ltb_ge maxSnapshotData n)) by done.
  rewrite (proj2 (Z.ltb_ge _ n)) by (unfold n; lia). cbn [orb].
  rewrite (proj2 (Z.eqb_neq _ (24 + n + 4))) by (unfold n; lia). rewrite (proj2 (Z.ltb_ge _ (24 + n + 8))) by (unfold n; lia).
  replace (Z.to_nat (24 + n)) with (24 + length data)%nat by (unfold n; lia).
  assert (get_be (slice (24 + length data) (24 + length data + 4) (snapshot_bytes s data)) = Z.of_nat (length mb)) as ->.
  { rewrite Eb, app_assoc, slice_app_mid; [apply get_put_u32; lia| |]; rewrite ?length_app, length_snapshot_header, ?length_PutUint32; lia. }
  rewrite (proj2 (Z.ltb_ge _ _)) by done. rewrite (proj2 (Z.eqb_eq _ (24 + n + 4 + _ + 4))) by (unfold n; lia). cbn [orb negb].
  rewrite Nat2Z.id.
  assert (slice (24 + length data + 4) (24 + length data + 4 + length mb) (snapshot_bytes s data) = mb) as ->.
  { apply (slice_eq (snapshot_header s n ++ data ++ PutUint32 (Z.of_nat (length mb))) _
      (PutUint32 (ChecksumIEEE (snapshot_body s data)))); [by rewrite Eb, <- !app_assoc| |];
      rewrite !length_app, length_snapshot_header, length_PutUint32; lia. }
  rewrite Eu. unfold mbind at 1, res_bind at 1. cbv beta iota.
  replace (32 + length data + length mb - 4)%nat with (length (snapshot_body s data)) by lia.
  unfold snapshot_bytes at 1 2. rewrite take_app_length, drop_app_length, crc_roundtrip, Z.eqb_refl. cbn [negb].
  unfold metadata. do 2 f_equal. rewrite Eb, slice_app_mid; [done| |]; rewrite length_snapshot_header; done.
Qed.

End Raftstore.
