(* ===== verification/Stable.v ===== *)
(** * The stable store across crashes

    What the files of internal/raftstore hold at every moment of an update, at a
    failing call and at a crash, and what Open makes of them: the durable state before
    the update, the one after it, or one in between, whose log is a prefix of the new
    one. *)

From S2P Require Import Prelude GoStd Fs Json Manifest Membership RaftTypes RaftNode RaftCore Raftstore.

Module Stable.
Import Membership Raft Core Raftstore.

(** ** Publishing a file *)

(** A condition on the files that does not look at one of them. *)
Definition ignores (tmp : bytes) (J : gmap bytes bytes -> Prop) : Prop :=
  forall fs fs', (forall n, n <> tmp -> fs' !! n = fs !! n) -> J fs -> J fs'.

Section publish.
Context (J : gmap bytes bytes -> Prop) (w0 : World).

Lemma ignores_insert tmp c fs : ignores tmp J -> J fs -> J (<[tmp := c]> fs).
Proof. intros Hi. apply Hi. intros n Hn. by rewrite lookup_insert_ne. Qed.

Lemma ignores_delete tmp fs : ignores tmp J -> J fs -> J (delete tmp fs).
Proof. intros Hi. apply Hi. intros n Hn. by rewrite lookup_delete_ne. Qed.

Lemma syncDir_safe w (Q : unit -> World -> Prop) :
  follows w0 w -> J (files w) -> (forall w', files w' = files w -> follows w0 w' -> Q tt w') -> safe J w0 syncDir w Q.
Proof.
  intros Hf HJ HQ. apply safe_bind, safe_nop; [done|done|]. intros w1 E1 Hf1 _ HJ1.
  apply safe_bind, safe_try_err.
  - apply safe_nop; [done|done|]. intros w2 E2 Hf2 _ HJ2. apply safe_bind, safe_ignore_nop; [done|done|].
    intros w3 E3 Hf3 _ HJ3. apply safe_ret; [done|done|]. apply HQ; [by rewrite E3, E2, E1|done].
  - intros e w2 Hf2 HJ2 Hc _ _. apply safe_bind, safe_ignore_nop; [done|done|]. intros w3 E3 Hf3 _ HJ3.
    by apply safe_raise.
Qed.

(** Closing a file on an error. *)
Lemma or_close_safe {A : Type} (m : M World A) w (Q : A -> World -> Prop) :
  safe J w0 m w Q -> safe J w0 (Manifest.or_close m) w Q.
Proof.
  intros H. apply safe_catch; [done|]. intros e w' Hf HJ Hc. apply safe_bind, safe_ignore_nop; [done|done|].
  intros w2 E2 Hf2 _ HJ2. by apply safe_raise.
Qed.

(** Removing the temporary file on an error. *)
Lemma or_remove_safe {A : Type} tmp (m : M World A) w (Q : A -> World -> Prop) : ignores tmp J ->
  safe J w0 m w Q -> safe J w0 (catch m (fun e => ignore (os_Remove tmp) ;; raise e)) w Q.
Proof.
  intros Hi H. apply safe_catch; [done|]. intros e w' Hf HJ Hc.
  apply safe_bind, safe_ignore_Remove; [done|done|by apply ignores_delete| |].
  - intros w2 E2 Hf2 _ HJ2. by apply safe_raise.
  - intros w2 E2 Hf2 _ _ HJ2. by apply safe_raise.
Qed.

(** The end of a publication: close, then rename. *)
Lemma close_rename_safe tmp name data fs w (Q : unit -> World -> Prop) :
  tmp <> name -> follows w0 w -> J (files w) -> files w = <[tmp := data]> fs ->
  J (<[name := data]> (delete tmp fs)) ->
  (forall w', files w' = <[name := data]> (delete tmp fs) -> follows w0 w' -> Q tt w') ->
  safe J w0 (f_Close ;; os_Rename tmp name) w Q.
Proof.
  intros Hne Hf HJ E HJ' HQ. apply safe_bind, safe_nop; [done|done|]. intros w1 E1 Hf1 _ HJ1.
  assert (files w1 = <[tmp := data]> fs) as E' by (by rewrite E1).
  assert (<[name := data]> (delete tmp (files w1)) = <[name := data]> (delete tmp fs)) as Ed by (by rewrite E', delete_insert_eq).
  apply (safe_os_Rename _ _ _ Hf1 HJ1 _ _ data); [by rewrite E', lookup_insert_eq|by rewrite Ed|]. by rewrite Ed.
Qed.
End publish.

(** ** Computations on a state beside the files *)

(** [safe] for a computation that also changes a state of its own: the offset of an open
    file, or the store. *)
Definition secure {T A : Type} (J : gmap bytes bytes -> Prop) (w0 : World) (m : M (T * World) A) (s : T * World)
    (Q : A -> T * World -> Prop) : Prop :=
  runs m s (fun a s' => follows w0 s'.2 /\ J (files s'.2) /\ Q a s')
    (fun s' => follows w0 s'.2 /\ J (files s'.2) /\ can_fail w0) (fun s' => J (files s'.2) /\ can_crash w0).

Section secure.
Context {T : Type} (J : gmap bytes bytes -> Prop) (w0 : World).
Implicit Types s : T * World.

Lemma secure_ret {A : Type} (a : A) s (Q : A -> T * World -> Prop) :
  follows w0 s.2 -> J (files s.2) -> Q a s -> secure J w0 (mret a) s Q.
Proof. done. Qed.

Lemma secure_bind {A B : Type} (m : M (T * World) A) (f : A -> M (T * World) B) s Q :
  secure J w0 m s (fun a s' => follows w0 s'.2 -> J (files s'.2) -> secure J w0 (f a) s' Q) ->
  secure J w0 (m ≫= f) s Q.
Proof. intros H. apply runs_bind. eapply runs_mono; [exact H| |done|done]. naive_solver. Qed.

Lemma secure_gets {A : Type} (f : T * World -> A) s (Q : A -> T * World -> Prop) :
  follows w0 s.2 -> J (files s.2) -> Q (f s) s -> secure J w0 (gets f) s Q.
Proof. done. Qed.

Lemma secure_modify (f : T -> T) s (Q : unit -> T * World -> Prop) :
  follows w0 s.2 -> J (files s.2) -> Q tt (f s.1, s.2) -> secure J w0 (modify (fun s => (f s.1, s.2))) s Q.
Proof. done. Qed.

Lemma secure_of_res {A : Type} (r : res A) a s (Q : A -> T * World -> Prop) :
  follows w0 s.2 -> J (files s.2) -> r = Ok a -> Q a s -> secure J w0 (of_res r) s Q.
Proof. by intros ? ? ->. Qed.

Lemma secure_mono {A : Type} (J' : gmap bytes bytes -> Prop) (m : M (T * World) A) s (Q Q' : A -> T * World -> Prop) :
  secure J' w0 m s Q -> (forall fs, J' fs -> J fs) ->
  (forall a s', follows w0 s'.2 -> J' (files s'.2) -> Q a s' -> Q' a s') -> secure J w0 m s Q'.
Proof. intros H HJ HQ. eapply runs_mono; [exact H|..]; naive_solver. Qed.

(** A computation on the files only. *)
Lemma secure_zoom {A : Type} (m : M World A) s (Q : A -> T * World -> Prop) :
  safe J w0 m s.2 (fun a w' => Q a (s.1, w')) -> secure J w0 (zoom snd (fun w s => (s.1, w)) m) s Q.
Proof. intros H. apply runs_zoom. eapply runs_mono; [exact H|..]; naive_solver. Qed.
End secure.

(** Writing to an open file, the offset of which is the state. *)
Lemma secure_f_Write J w0 name data pos w (Q : unit -> nat * World -> Prop) :
  follows w0 w -> (forall k, J (write_bytes name pos (take k data) (files w))) ->
  (forall w', files w' = write_bytes name pos data (files w) -> follows w0 w' -> Q tt ((pos + length data)%nat, w')) ->
  secure J w0 (f_Write name data) (pos, w) Q.
Proof.
  intros Hf HJ HQ. pose proof (HJ (length data)) as Hall. rewrite take_ge in Hall by lia.
  apply f_Write_run; simpl.
  - intros w' Hf' E. assert (follows w0 w') by (by etrans). rewrite E. auto.
  - intros k p w' Hf' Hc E. rewrite E. split_and!; [by etrans|done|eauto with lsm].
  - intros k p w' Hc E. rewrite E. eauto with lsm.
Qed.

(** A computation with an open file of its own. *)
Lemma secure_open {A : Type} J w0 (m : M (nat * World) A) w (Q : A -> World -> Prop) :
  secure J w0 m (0%nat, w) (fun a s => Q a s.2) ->
  safe J w0 (fun w => let '(r, (_, w')) := m (0%nat, w) in (r, w')) w Q.
Proof.
  unfold secure, safe, runs. destruct (m (0%nat, w)) as [[a|e| |] [p w']]; simpl; done.
Qed.

Lemma secure_append J w0 name c data w (Q : unit -> nat * World -> Prop) :
  follows w0 w -> files w !! name = Some c -> (forall k, J (<[name := c ++ take k data]> (files w))) ->
  (forall w', files w' = <[name := c ++ data]> (files w) -> follows w0 w' -> Q tt (length (c ++ data), w')) ->
  secure J w0 (f_Write name data) (length c, w) Q.
Proof.
  intros Hf E HJ HQ. apply secure_f_Write; [done|..].
  - intros k. by rewrite (write_bytes_append _ _ _ _ E).
  - intros w'. rewrite (write_bytes_append _ _ _ _ E), <- length_app. apply HQ.
Qed.

(** Writing a temporary file: what J says of the others stays. *)
Section temporary.
Context (J : gmap bytes bytes -> Prop) (w0 : World) (tmp : bytes) (fs : gmap bytes bytes).
Context (Htmp : ignores tmp J) (HJ : J fs).

Lemma tmp_J c : J (<[tmp := c]> fs).
Proof. by apply ignores_insert. Qed.

Lemma secure_tmp c data w (Q : unit -> nat * World -> Prop) :
  follows w0 w -> files w = <[tmp := c]> fs ->
  (forall w', files w' = <[tmp := c ++ data]> fs -> follows w0 w' -> Q tt (length (c ++ data), w')) ->
  secure J w0 (f_Write tmp data) (length c, w) Q.
Proof.
  intros Hf E HQ. apply secure_append; [done|by rewrite E, lookup_insert_eq|..].
  - intros k. rewrite E, insert_insert_eq. apply tmp_J.
  - intros w'. rewrite E, insert_insert_eq. apply HQ.
Qed.

(** A call on the temporary file that changes no content. *)
Lemma secure_tmp_nop what c pos w (Q : unit -> nat * World -> Prop) :
  follows w0 w -> files w = <[tmp := c]> fs ->
  (forall w', files w' = <[tmp := c]> fs -> follows w0 w' -> Q tt (pos, w')) ->
  secure J w0 (world (sys what id)) (pos, w) Q.
Proof.
  intros Hf E HQ. apply secure_zoom, safe_nop; [done|simpl; rewrite E; apply tmp_J|].
  intros w' E' Hf'. apply HQ; [by rewrite E', <- E|done].
Qed.
End temporary.

Lemma storeHardState_safe J w0 w h (Q : unit -> World -> Prop) :
  follows w0 w -> J (files w) -> ignores hardTmp J ->
  J (<[hardStateFile := hard_bytes h]> (delete hardTmp (files w))) ->
  (forall w', files w' = <[hardStateFile := hard_bytes h]> (delete hardTmp (files w)) -> follows w0 w' -> Q tt w') ->
  safe J w0 (storeHardState h) w Q.
Proof.
  intros Hf HJ Hi HJ' HQ. unfold storeHardState.
  apply safe_bind, safe_sys; [done|done|by apply ignores_insert|]. intros w1 E1 Hf1 _ HJ1.
  assert (forall d, write_bytes hardTmp 0 d (files w1) = <[hardTmp := d]> (files w)) as Hw.
  { intros d. rewrite E1. unfold write_bytes. rewrite alter_insert_eq. by rewrite (splice_end d [] : splice 0 d [] = _). }
  apply safe_bind, or_remove_safe; [done|]. apply safe_bind, or_close_safe, safe_write; [done|done|..].
  { intros k. rewrite Hw. by apply ignores_insert. }
  rewrite Hw. intros w2 E2 Hf2 _ HJ2. apply safe_bind, or_close_safe, safe_nop; [done|done|]. intros w3 E3 Hf3 _ HJ3.
  eapply close_rename_safe; [|done|done|by rewrite E3, E2|done|]; [discriminate|]. intros w4 E4 Hf4 _ HJ4.
  apply syncDir_safe; [done|done|]. intros w5 E5 Hf5. apply HQ; [by rewrite E5|done].
Qed.

Lemma write_chunks_secure J w0 fs c l written w (Q : unit -> nat * World -> Prop) :
  ignores snapshotTmp J -> J fs -> follows w0 w -> files w = <[snapshotTmp := c]> fs ->
  written + Z.of_nat (length (concat l)) <= maxSnapshotData ->
  (forall w', files w' = <[snapshotTmp := c ++ concat l]> fs -> follows w0 w' -> Q tt (length (c ++ concat l), w')) ->
  secure J w0 (write_chunks written l) (length c, w) Q.
Proof.
  intros Hi HJ. revert c written w. induction l as [|b l IH]; intros c written w Hf E Hl HQ; cbn [write_chunks concat] in *.
  - rewrite app_nil_r in HQ. apply secure_ret; [done|simpl; rewrite E; by apply ignores_insert|]. by apply HQ.
  - rewrite length_app in Hl. rewrite (proj2 (Z.ltb_ge _ _)) by lia.
    apply secure_bind, (secure_tmp J w0 snapshotTmp fs Hi HJ); [done|done|]. intros w' E' Hf' _ _.
    apply IH; [done|done|lia|]. by rewrite <- app_assoc.
Qed.

Lemma write_snapshot_secure J w0 fs sn src w (Q : Z * Z -> nat * World -> Prop) :
  ignores snapshotTmp J -> J fs -> follows w0 w -> files w = <[snapshotTmp := []]> fs ->
  source_error src = None -> Z.of_nat (length (concat (chunks src))) <= maxSnapshotData ->
  let data := concat (chunks src) in
  (forall p w', files w' = <[snapshotTmp := snapshot_bytes sn data]> fs -> follows w0 w' ->
     Q (Z.of_nat (length data), ChecksumIEEE data) (p, w')) ->
  secure J w0 (write_snapshot sn src) (0%nat, w) Q.
Proof.
  intros Hi HJ Hf E Hs Hl data HQ. unfold write_snapshot. fold data. rewrite Hs.
  apply secure_bind, (secure_tmp J w0 _ fs Hi HJ []); [done|done|]. rewrite app_nil_l. intros w1 E1 Hf1 _ HJ1.
  apply secure_bind, (secure_tmp_nop J w0 _ fs Hi HJ) with (1 := Hf1) (2 := E1). intros w2 E2 Hf2 _ _.
  apply secure_bind, (write_chunks_secure J w0 fs); [done|done|done|done|done|]. fold data. intros w3 E3 Hf3 _ _.
  apply secure_bind, (secure_tmp_nop J w0 _ fs Hi HJ) with (1 := Hf3) (2 := E3). intros w4 E4 Hf4 _ HJ4.
  assert (forall d, write_bytes snapshotTmp 0 d (files w4) = <[snapshotTmp := splice 0 d (snapshot_header sn 0 ++ data)]> fs) as Hw.
  { intros d. rewrite E4. unfold write_bytes. by rewrite alter_insert_eq. }
  apply secure_bind, secure_zoom, safe_write; [done|done|..].
  { intros k. simpl. rewrite Hw. by apply ignores_insert. }
  simpl. rewrite Hw. replace (splice 0 _ _) with (snapshot_header sn (Z.of_nat (length data)) ++ data).
  2:{ unfold splice. rewrite take_0, app_nil_l. f_equal. }
  intros w5 E5 Hf5 _ _.
  replace (length (snapshot_header sn 0 ++ data)) with (length (snapshot_header sn (Z.of_nat (length data)) ++ data))
    by (by rewrite !length_app, !length_snapshot_header).
  apply secure_bind, (secure_tmp_nop J w0 _ fs Hi HJ) with (1 := Hf5) (2 := E5). intros w6 E6 Hf6 _ _.
  apply secure_bind, (secure_tmp J w0 _ fs Hi HJ); [done|done|]. intros w7 E7 Hf7 _ _.
  apply secure_bind, (secure_tmp J w0 _ fs Hi HJ); [done|done|]. rewrite <- !app_assoc.
  fold (snapshot_body sn data). intros w8 E8 Hf8 _ _.
  apply secure_bind, (secure_tmp_nop J w0 _ fs Hi HJ) with (1 := Hf8) (2 := E8). intros w9 E9 Hf9 _ HJ9.
  apply secure_bind, secure_gets; [done|done|]. intros _ _. simpl. rewrite E9, lookup_insert_eq. cbn [default].
  apply secure_bind, (secure_tmp_nop J w0 _ fs Hi HJ) with (1 := Hf9) (2 := E9). intros w10 E10 Hf10 _ _.
  apply secure_bind, (secure_tmp J w0 _ fs Hi HJ); [done|done|]. fold (snapshot_bytes sn data). intros w11 E11 Hf11 _ _.
  apply secure_bind, (secure_tmp_nop J w0 _ fs Hi HJ) with (1 := Hf11) (2 := E11). intros w12 E12 Hf12 _ HJ12.
  apply secure_ret; [done|done|]. by apply HQ.
Qed.

Lemma storeSnapshotStream_safe J w0 sn src w (Q : Z * Z -> World -> Prop) :
  let data := concat (chunks src) in
  let new := <[snapshotFile := snapshot_bytes sn data]> (delete snapshotTmp (files w)) in
  follows w0 w -> J (files w) -> ignores snapshotTmp J -> J new ->
  source_error src = None -> Z.of_nat (length data) <= maxSnapshotData ->
  (forall w', files w' = new -> follows w0 w' -> Q (Z.of_nat (length data), ChecksumIEEE data) w') ->
  safe J w0 (storeSnapshotStream sn src) w Q.
Proof.
  intros data new Hf HJ Hi HJ' Hs Hl HQ. unfold storeSnapshotStream.
  apply safe_bind, safe_sys; [done|done|by apply ignores_insert|]. intros w1 E1 Hf1 _ HJ1.
  apply safe_bind, safe_catch.
  - apply secure_open, (write_snapshot_secure J w0 (files w)); try done. simpl. fold data. intros _ w2 E2 Hf2 _ HJ2.
    apply safe_bind, or_remove_safe; [done|]. eapply close_rename_safe; [|done|done|done|done|]; [discriminate|].
    intros w3 E3 Hf3 _ HJ3. apply safe_bind, syncDir_safe; [done|done|]. intros w4 E4 Hf4 _ HJ4.
    apply safe_ret; [done|done|]. apply HQ; [by rewrite E4|done].
  - intros e w2 Hf2 HJ2 Hc. apply safe_bind, safe_ignore_nop; [done|done|]. intros w3 E3 Hf3 _ HJ3.
    apply safe_bind, safe_ignore_Remove; [done|done|by apply ignores_delete| |].
    + intros w4 E4 Hf4 _ HJ4. by apply safe_raise.
    + intros w4 E4 Hf4 _ _ HJ4. by apply safe_raise.
Qed.

Lemma write_entries_secure J w0 fs c l w (Q : unit -> nat * World -> Prop) :
  ignores logTmp J -> J fs -> follows w0 w -> files w = <[logTmp := c]> fs ->
  (forall p w', files w' = <[logTmp := c ++ encode_all l]> fs -> follows w0 w' -> Q tt (p, w')) ->
  secure J w0 (write_entries l) (length c, w) Q.
Proof.
  intros Hi HJ. revert c w. induction l as [|e l IH]; intros c w Hf E HQ; cbn [write_entries].
  - apply secure_ret; [done|simpl; rewrite E; by apply ignores_insert|]. apply HQ; [|done]. by rewrite E, app_nil_r.
  - apply secure_bind, (secure_tmp J w0 logTmp fs Hi HJ); [done|done|]. intros w' E' Hf' _ _.
    apply IH; [done|done|]. intros p w''. rewrite <- app_assoc. apply HQ.
Qed.

Lemma write_log_safe J w0 l w (Q : unit -> World -> Prop) :
  let new := <[logFile := encode_all l]> (delete logTmp (files w)) in
  follows w0 w -> J (files w) -> ignores logTmp J -> J new ->
  (forall w', files w' = new -> follows w0 w' -> Q tt w') -> safe J w0 (write_log l) w Q.
Proof.
  intros new Hf HJ Hi HJ' HQ. unfold write_log.
  apply safe_bind, safe_sys; [done|done|by apply ignores_insert|]. intros w1 E1 Hf1 _ HJ1.
  apply safe_bind, or_remove_safe; [done|].
  apply safe_bind, or_close_safe, secure_open, (write_entries_secure J w0 (files w) []); [done..|].
  rewrite app_nil_l. intros p w2 E2 Hf2 _ HJ2. apply safe_bind, or_close_safe, safe_nop; [done|done|].
  intros w3 E3 Hf3 _ HJ3. apply safe_bind, safe_nop; [done|done|]. intros w4 E4 Hf4 _ HJ4.
  eapply close_rename_safe; [|done|done|by rewrite E4, E3|done|]; [discriminate|]. intros w5 E5 Hf5 _ HJ5.
  apply safe_bind, syncDir_safe; [done|done|]. intros w6 E6 Hf6 _ HJ6. apply safe_bind, safe_os_Open; [done|done|].
  intros w7 E7 Hf7 _ HJ7. rewrite E6, E5, lookup_insert_eq. apply safe_ret; [done|done|].
  apply HQ; [by rewrite E7, E6|done].
Qed.

(** ** What the files hold *)

(** The log file: records the snapshot covers (left by a crash before the log was
    rewritten), those after it, and bytes at which reading ends. *)
Definition log_file (idx : Z) (l : list Entry) (pre : list Entry) (tail : bytes) (c : bytes) : Prop :=
  c = encode_all pre ++ encode_all l ++ tail /\ chain (idx + 1 - Z.of_nat (length pre)) (pre ++ l) /\
  (pre = [] \/ Z.of_nat (length pre) = idx) /\ stops tail.

Definition hard_file (h : HardState) (c : option bytes) : Prop :=
  match c with None => h = mkHard 0 0 | Some c => c = hard_bytes h /\ hard_ok h end.

Definition snapshot_file (s : Snapshot) (c : option bytes) : Prop :=
  match c with None => s = zeroSnapshot | Some c => c = snapshot_bytes s (s_data s) /\ snapshot_ok s (s_data s) end.

(** The files of a directory from which a durable state is recovered. *)
Record recovers (fs : gmap bytes bytes) (d : Durable) : Prop := {
  rc_hard : hard_file (d_hard d) (fs !! hardStateFile);
  rc_snap : snapshot_file (d_snap d) (fs !! snapshotFile);
  rc_log : exists pre tail, log_file (s_index (d_snap d)) (d_log d) pre tail (default [] (fs !! logFile))
}.

(** The store in memory, in step with its files. *)
Record holds (s : Store) (fs : gmap bytes bytes) (d : Durable) : Prop := {
  ho_files : recovers fs d;
  ho_hard : hard s = d_hard d;
  ho_snap : snapshot s = metadata (d_snap d);
  ho_size : snapshotSize s = Z.of_nat (length (s_data (d_snap d)));
  ho_sum : s_index (d_snap d) <> 0 -> snapshotChecksum s = ChecksumIEEE (s_data (d_snap d));
  ho_log : entries s = d_log d;
  ho_file : exists pre, fs !! logFile = Some (encode_all pre ++ encode_all (d_log d)) /\
    log_file (s_index (d_snap d)) (d_log d) pre [] (encode_all pre ++ encode_all (d_log d)) /\
    offsets s = offsets_from (length (encode_all pre)) (d_log d) /\
    position s = length (encode_all pre ++ encode_all (d_log d))
}.

(** ** Open *)

Lemma snapshot_file_index s c : snapshot_file s c -> 0 <= s_index s < 2 ^ 64.
Proof. destruct c as [c|]; [intros [_ []]; lia|]. intros ->. simpl. lia. Qed.

Lemma log_file_read idx l pre tail c : 0 <= idx -> log_file idx l pre tail c ->
  readLog idx c = (l, offsets_from (length (encode_all pre)) l, length (encode_all pre ++ encode_all l)).
Proof.
  intros Hi (-> & Hc & Hp & Ht). rewrite <- encode_all_app. eapply readLog_all; [done|..]; try done; try lia.
  destruct Hp as [-> | Hp]; [right; simpl; lia|left; lia].
Qed.

Lemma recovers_log fs d c : recovers fs d -> (exists pre tail, log_file (s_index (d_snap d)) (d_log d) pre tail c) ->
  recovers (<[logFile := c]> fs) d.
Proof.
  intros [H1 H2 _] Hl. split; [by rewrite lookup_insert_ne by discriminate|by rewrite lookup_insert_ne by discriminate|].
  by rewrite lookup_insert_eq.
Qed.

Lemma loadHardState_safe J w0 w h (Q : HardState -> World -> Prop) :
  follows w0 w -> J (files w) -> hard_file h (files w !! hardStateFile) ->
  (forall w', files w' = files w -> follows w0 w' -> Q h w') -> safe J w0 loadHardState w Q.
Proof.
  intros Hf HJ Hh HQ. apply safe_bind, safe_os_Open; [done|done|]. intros w1 E1 Hf1 _ HJ1.
  destruct (files w !! hardStateFile) as [c|]; simpl in Hh.
  - destruct Hh as [-> Hh]. rewrite unmarshal_hard_bytes by done. apply (safe_of_res _ _ _ Hf1 HJ1 _ h); auto.
  - subst h. apply safe_ret; auto.
Qed.

Lemma inspectSnapshot_safe J w0 w s (Q : Snapshot * Z * Z -> World -> Prop) :
  follows w0 w -> J (files w) -> snapshot_file s (files w !! snapshotFile) ->
  (forall sum w', files w' = files w -> follows w0 w' -> (s_index s <> 0 -> sum = ChecksumIEEE (s_data s)) ->
     Q (metadata s, Z.of_nat (length (s_data s)), sum) w') -> safe J w0 inspectSnapshot w Q.
Proof.
  intros Hf HJ Hs HQ. apply safe_bind, safe_os_Open; [done|done|]. intros w1 E1 Hf1 _ HJ1.
  destruct (files w !! snapshotFile) as [c|]; simpl in Hs.
  - destruct Hs as [-> Hs]. apply safe_bind, or_close_safe, safe_nop; [done|done|]. intros w2 E2 Hf2 _ HJ2.
    apply safe_bind, safe_ignore_nop; [done|done|]. intros w3 E3 Hf3 _ HJ3.
    eapply safe_of_res; [done|done|by apply inspect_bytes|]. apply HQ; [by rewrite E3, E2|done|done].
  - subst s. apply safe_ret; [done|done|]. by apply (HQ 0).
Qed.

Lemma store_Open_safe w0 w d : follows w0 w -> recovers (files w) d ->
  safe (fun fs => recovers fs d) w0 Open w (fun s w' => holds s (files w') d).
Proof.
  intros Hf HR. apply safe_bind, safe_nop; [done|done|]. intros w1 E1 Hf1 _ HR1.
  apply safe_bind. eapply loadHardState_safe; [done|done|apply (rc_hard _ _ HR1)|]. intros w2 E2 Hf2 _ HR2.
  apply safe_bind. eapply inspectSnapshot_safe; [done|done|apply (rc_snap _ _ HR2)|]. intros sum w3 E3 Hf3 Hsum _ HR3.
  cbn [fst snd]. pose proof (snapshot_file_index _ _ (rc_snap _ _ HR3)) as Hidx.
  destruct (rc_log _ _ HR3) as (pre & tail & Hlog). set (c := default [] (files w3 !! logFile)) in *.
  assert (recovers (<[logFile := c]> (files w3)) d) as HRc by (apply recovers_log; eauto).
  assert (match files w3 !! logFile with Some _ => files w3 | None => <[logFile := []]> (files w3) end = <[logFile := c]> (files w3)) as Eo.
  { unfold c. destruct (files w3 !! logFile) as [c'|] eqn:E; [by rewrite insert_id|done]. }
  apply safe_bind, safe_sys; [done|done|simpl; by rewrite Eo|]. rewrite Eo. intros w4 E4 Hf4 _ HR4.
  apply safe_bind, or_close_safe, safe_nop; [done|done|]. intros w5 E5 Hf5 _ HR5. rewrite E4 in E5.
  apply safe_bind, safe_gets; [done|done|]. intros _ _. rewrite E5, lookup_insert_eq. cbn [default id].
  change (s_index (metadata (d_snap d))) with (s_index (d_snap d)).
  rewrite (log_file_read _ _ _ _ _ (proj1 Hidx) Hlog). cbn [fst snd].
  set (c' := encode_all pre ++ encode_all (d_log d)).
  assert (take (length c') c ++ replicate (length c' - length c) x00 = c') as Ht.
  { destruct Hlog as (-> & _). rewrite app_assoc. fold c'. rewrite take_app_length.
    replace (_ - _)%nat with 0%nat by (rewrite length_app; lia). apply app_nil_r. }
  assert (log_file (s_index (d_snap d)) (d_log d) pre [] c') as Hlog'.
  { destruct Hlog as (_ & ? & ? & _). unfold c'. split; [by rewrite app_nil_r|]. split_and!; [done|done|apply stops_nil]. }
  apply safe_bind, or_close_safe, safe_sys; [done|done|..].
  all: rewrite E5, alter_insert_eq, Ht. { apply recovers_log; [done|eauto]. }
  intros w6 E6 Hf6 _ HR6. apply safe_bind, or_close_safe, safe_nop; [done|done|]. intros w7 E7 Hf7 _ HR7.
  apply safe_ret; [done|done|]. split; simpl; try done.
  exists pre. split_and!; [by rewrite E7, E6, lookup_insert_eq|done|done|done].
Qed.

(** ** Appending *)

Definition with_log (l : list Entry) (d : Durable) : Durable := mkDurable (d_hard d) (d_snap d) l.

Lemma offsets_from_app p l1 l2 : offsets_from p (l1 ++ l2) = offsets_from p l1 ++ offsets_from (p + length (encode_all l1)) l2.
Proof.
  revert p. induction l1 as [|e l1 IH]; intros p; simpl; [by rewrite Nat.add_0_r|].
  rewrite IH. by rewrite encode_all_cons, length_app, Nat.add_assoc.
Qed.

Lemma length_offsets_from p l : length (offsets_from p l) = length l.
Proof. revert p. induction l; intros p; simpl; auto. Qed.

(** A log file whose tail is a torn record, or to which a record was added. *)
Lemma log_file_tail idx l pre c tail : log_file idx l pre [] c -> stops tail -> log_file idx l pre tail (c ++ tail).
Proof. intros (-> & Hc & Hp & _) Ht. split; [by rewrite app_nil_r, app_assoc|done]. Qed.

Lemma log_file_add idx l pre c e : log_file idx l pre [] c ->
  entry_valid e -> e_index e = idx + Z.of_nat (length l) + 1 -> log_file idx (l ++ [e]) pre [] (c ++ encodeEntry e).
Proof.
  intros (-> & Hc & Hp & Ht) He Hi. split; [by rewrite encode_all_app, !app_nil_r, <- !app_assoc, encode_all_cons, app_nil_r|].
  split; [|done]. rewrite app_assoc, chain_app. split; [done|]. simpl. rewrite length_app. split_and!; [done|lia|done].
Qed.

Lemma recovers_with_log fs d l c : recovers fs d ->
  (exists pre tail, log_file (s_index (d_snap d)) l pre tail c) -> recovers (<[logFile := c]> fs) (with_log l d).
Proof.
  intros [H1 H2 _] Hl. split; simpl; [by rewrite lookup_insert_ne by discriminate|by rewrite lookup_insert_ne by discriminate|].
  by rewrite lookup_insert_eq.
Qed.

(** The store after its log file was changed. *)
Lemma holds_log s fs d pre l : holds s fs d ->
  let c := encode_all pre ++ encode_all l in
  log_file (s_index (d_snap d)) l pre [] c ->
  holds (set_log l (offsets_from (length (encode_all pre)) l) (length c) s) (<[logFile := c]> fs) (with_log l d).
Proof.
  intros [H1 H2 H3 H4 H5 H6 H7] c Hc. split; simpl; try done.
  - apply recovers_with_log; [done|eauto].
  - exists pre. split_and!; [by rewrite lookup_insert_eq|done|done|done].
Qed.

Lemma secure_on_log {A : Type} J w0 (m : M (nat * World) A) (st : St) (Q : A -> St -> Prop) :
  secure J w0 m (position st.1, st.2) (fun a pw => Q a (set_position pw.1 st.1, pw.2)) -> secure J w0 (on_log m) st Q.
Proof. intros H. apply runs_zoom. eapply runs_mono; [exact H|..]; naive_solver. Qed.

Lemma with_log_id d : with_log (d_log d) d = d.
Proof. by destruct d. Qed.

(** One record: a write cut short leaves the old log. *)
Lemma append_entry_secure J w0 e l s w d (Q : unit -> St -> Prop) : follows w0 w -> holds s (files w) d ->
  entry_valid e -> e_index e = s_index (d_snap d) + Z.of_nat (length (d_log d)) + 1 ->
  (forall fs, recovers fs d \/ recovers fs (with_log (d_log d ++ [e]) d) -> J fs) ->
  (forall s' w', follows w0 w' -> holds s' (files w') (with_log (d_log d ++ [e]) d) -> secure J w0 (append_entries l) (s', w') Q) ->
  secure J w0 (append_entries (e :: l)) (s, w) Q.
Proof.
  intros Hf HH Hv Hi HJ HQ. cbn [append_entries]. assert (J (files w)) as HJ0 by (apply HJ; left; apply HH).
  pose proof (snapshot_file_index _ _ (rc_snap _ _ (ho_files _ _ _ HH))) as Hidx. pose proof Hv as [H1 H2 H3].
  apply secure_bind, secure_gets; [done|done|]. intros _ _. cbn [fst].
  rewrite (ho_snap _ _ _ HH), (ho_log _ _ _ HH). change (s_index (metadata (d_snap d))) with (s_index (d_snap d)).
  rewrite u64_small by lia. rewrite Hi, Z.eqb_refl, (proj2 (Z.eqb_neq _ 0)) by lia. cbn [negb orb].
  rewrite (proj2 (Z.ltb_ge _ _)) by done.
  apply secure_bind, secure_zoom, safe_nop; [done|done|]. cbn [fst snd]. intros w1 E1 Hf1 _ HJ1.
  destruct (ho_file _ _ _ HH) as (pre & Hfile & Hlog & Hoff & Hpos). set (c := encode_all pre ++ encode_all (d_log d)) in *.
  assert (log_file (s_index (d_snap d)) (d_log d ++ [e]) pre [] (c ++ encodeEntry e)) as Hlog' by (apply log_file_add; done).
  apply secure_bind, secure_on_log. cbn [fst snd]. rewrite Hpos. apply secure_append; [done|by rewrite E1| |].
  { intros k. rewrite E1. apply HJ. destruct (Nat.lt_ge_cases k (length (encodeEntry e))) as [Hk|Hk].
    - left. rewrite <- (with_log_id d). apply recovers_with_log; [apply HH|]. exists pre, (take k (encodeEntry e)).
      by apply log_file_tail, stops_torn.
    - right. rewrite take_ge by done. apply recovers_with_log; [apply HH|]. by exists pre, []. }
  intros w2 E2 Hf2 _ HJ2. apply secure_bind, secure_modify; [done|done|]. intros _ _. apply HQ; [done|]. unfold set_position, set_log. cbn.
  assert (encode_all pre ++ encode_all (d_log d ++ [e]) = c ++ encodeEntry e) as Ec.
  { unfold c. rewrite encode_all_app, encode_all_cons. change (encode_all []) with (@nil byte). by rewrite app_nil_r, app_assoc. }
  pose proof (holds_log s (files w) d pre (d_log d ++ [e]) HH) as HH'. cbv zeta in HH'. rewrite Ec, offsets_from_app in HH'.
  rewrite E2, E1. specialize (HH' Hlog'). rewrite (ho_log _ _ _ HH), Hoff.
  rewrite <- length_app in HH'. exact HH'.
Qed.

Lemma append_entries_secure J w0 l s w d : follows w0 w -> holds s (files w) d ->
  chain (s_index (d_snap d) + Z.of_nat (length (d_log d)) + 1) l ->
  (forall k fs, recovers fs (with_log (d_log d ++ take k l) d) -> J fs) ->
  secure J w0 (append_entries l) (s, w) (fun _ st => holds st.1 (files st.2) (with_log (d_log d ++ l) d)).
Proof.
  revert s w d. induction l as [|e l IH]; intros s w d Hf HH Hc HJ.
  { rewrite app_nil_r, with_log_id. apply secure_ret; [done| |done]. apply (HJ 0%nat).
    rewrite app_nil_r, with_log_id. apply HH. }
  destruct Hc as (Hv & Hi & Hc). apply (append_entry_secure J w0 e l s w d); [done|done|done|done|..].
  - intros fs [H|H]; [apply (HJ 0%nat)|apply (HJ 1%nat)]; [by rewrite app_nil_r, with_log_id|].
    by change (take 1 (e :: l)) with (e :: take 0 l); rewrite take_0.
  - intros s' w' Hf' HH'. change (e :: l) with ([e] ++ l). rewrite app_assoc.
    apply (IH s' w' (with_log (d_log d ++ [e]) d)); [done|done|simpl; rewrite length_app; simpl|].
    + rewrite Nat2Z.inj_add, Z.add_assoc. exact Hc.
    + intros k fs. simpl. rewrite <- app_assoc. apply (HJ (S k)).
Qed.

Lemma append_secure J w0 l s w d : follows w0 w -> holds s (files w) d ->
  chain (s_index (d_snap d) + Z.of_nat (length (d_log d)) + 1) l ->
  (forall k fs, recovers fs (with_log (d_log d ++ take k l) d) -> J fs) ->
  secure J w0 (append l) (s, w) (fun _ st => holds st.1 (files st.2) (with_log (d_log d ++ l) d)).
Proof.
  intros Hf HH Hc HJ. apply secure_bind. eapply secure_mono; [by apply append_entries_secure|done|].
  intros _ [s' w'] Hf' HJ' HH' _ _. apply secure_zoom, safe_nop; [done|done|]. cbn [fst snd]. intros w'' E Hf''.
  by rewrite E.
Qed.

(** ** Truncating *)

Lemma offsets_from_lookup p l k : (k < length l)%nat -> offsets_from p l !! k = Some (p + length (encode_all (take k l)))%nat.
Proof.
  revert p k. induction l as [|e l IH]; intros p k Hk; [simpl in Hk; lia|]. destruct k as [|k].
  - simpl. by rewrite Nat.add_0_r.
  - cbn [offsets_from take]. simpl. rewrite IH by (simpl in Hk; lia). rewrite encode_all_cons, length_app. f_equal. lia.
Qed.

Lemma offsets_from_take p l k : take k (offsets_from p l) = offsets_from p (take k l).
Proof. revert p k. induction l as [|e l IH]; intros p [|k]; simpl; try done. by rewrite IH. Qed.

Lemma log_file_take idx l pre c k : log_file idx l pre [] c ->
  log_file idx (take k l) pre [] (encode_all pre ++ encode_all (take k l)).
Proof.
  intros (-> & Hc & Hp & Ht). split; [by rewrite app_nil_r|]. split; [|done].
  rewrite chain_app in *. split; [apply Hc|]. apply chain_take, Hc.
Qed.

(** The entries a truncation keeps. *)
Definition kept (from : Z) (d : Durable) : list Entry :=
  if from =? 0 then d_log d else take (Z.to_nat (from - s_index (d_snap d) - 1)) (d_log d).

Lemma truncate_secure J w0 from s w d : follows w0 w -> holds s (files w) d ->
  s_index (d_snap d) < from <= s_index (d_snap d) + Z.of_nat (length (d_log d)) + 1 ->
  s_index (d_snap d) + Z.of_nat (length (d_log d)) + 1 < 2 ^ 64 ->
  (forall fs, recovers fs d \/ recovers fs (with_log (kept from d) d) -> J fs) ->
  secure J w0 (truncate from) (s, w) (fun _ st => holds st.1 (files st.2) (with_log (kept from d) d)).
Proof.
  intros Hf HH Hr Hb HJ. assert (J (files w)) as HJ0 by (apply HJ; left; apply HH).
  pose proof (snapshot_file_index _ _ (rc_snap _ _ (ho_files _ _ _ HH))) as Hidx.
  unfold truncate. apply secure_bind, secure_gets; [done|done|]. intros _ _. cbn [fst].
  rewrite (ho_snap _ _ _ HH), (ho_log _ _ _ HH). change (s_index (metadata (d_snap d))) with (s_index (d_snap d)).
  cbv zeta. rewrite (u64_small (_ + Z.of_nat _)) by lia. rewrite !u64_small by lia.
  rewrite !(proj2 (Z.ltb_ge _ _)) by lia. cbn [orb]. unfold kept. rewrite (proj2 (Z.eqb_neq from 0)) by lia.
  destruct (Z.eqb_spec from (s_index (d_snap d) + Z.of_nat (length (d_log d)) + 1)) as [->|Hne].
  { rewrite take_ge by lia. rewrite with_log_id. by apply secure_ret. }
  set (k := Z.to_nat (from - s_index (d_snap d) - 1)) in *. replace (Z.to_nat (from - (s_index (d_snap d) + 1))) with k by lia.
  destruct (ho_file _ _ _ HH) as (pre & Hfile & Hlog & Hoff & Hpos).
  rewrite Hoff, offsets_from_lookup by lia. rewrite <- length_app. set (c := encode_all pre ++ encode_all (take k (d_log d))).
  assert (alter (fun x => take (length c) x ++ replicate (length c - length x) x00) logFile (files w) = <[logFile := c]> (files w)) as Ea.
  { rewrite <- (insert_id _ _ _ Hfile), alter_insert_eq, insert_insert_eq. f_equal.
    rewrite <- (take_drop k (d_log d)) at 1 2. rewrite encode_all_app, app_assoc. fold c. rewrite take_app_length.
    replace (_ - _)%nat with 0%nat by (rewrite length_app; lia). apply app_nil_r. }
  pose proof (log_file_take _ _ _ _ k Hlog) as Hlog'. fold c in Hlog'.
  pose proof (holds_log s (files w) d pre (take k (d_log d)) HH Hlog') as HH'. fold c in HH'.
  apply secure_bind, secure_zoom, safe_sys; [done|done|cbn [snd]; rewrite Ea; apply HJ; right; unfold kept|].
  { rewrite (proj2 (Z.eqb_neq from 0)) by lia. apply HH'. }
  cbn [fst snd]. rewrite Ea. intros w1 E1 Hf1 _ HJ1.
  apply secure_bind, secure_zoom, safe_nop; [done|done|]. cbn [fst snd]. intros w2 E2 Hf2 _ HJ2.
  apply secure_bind, secure_modify; [done|done|]. cbn [fst snd]. intros _ _.
  apply secure_zoom, safe_nop; [done|done|]. cbn [fst snd]. intros w3 E3 Hf3.
  rewrite E3, E2, E1, offsets_from_take. apply HH'.
Qed.

(** ** Installing a snapshot *)

Lemma recovers_ext fs fs' d : recovers fs d ->
  (forall n, n ∈ [hardStateFile; snapshotFile; logFile] -> fs' !! n = fs !! n) -> recovers fs' d.
Proof. intros [H1 H2 H3] Hn. split; rewrite Hn by set_solver; done. Qed.

Lemma rewriteLog_secure J w0 l s w (Q : unit -> St -> Prop) :
  let new := <[logFile := encode_all l]> (delete logTmp (files w)) in
  follows w0 w -> J (files w) -> ignores logTmp J -> J new ->
  (forall w', files w' = new -> follows w0 w' -> Q tt (set_log l (offsets_from 0 l) (length (encode_all l)) s, w')) ->
  secure J w0 (rewriteLog l) (s, w) Q.
Proof.
  intros new Hf HJ Hi HJ' HQ. apply secure_bind, secure_zoom, write_log_safe; [done|done|done|done|]. cbn [fst snd]. fold new.
  intros w1 E1 Hf1 _ HJ1. apply secure_bind, secure_modify; [done|done|]. cbn [fst snd]. intros _ _.
  apply secure_bind, secure_zoom, safe_nop; [done|done|]. cbn [fst snd]. intros w2 E2 Hf2 _ HJ2.
  apply secure_bind, secure_zoom, safe_gets; [done|done|]. cbn [fst snd]. intros _ _.
  apply secure_modify; [done|done|]. cbn [fst snd]. rewrite E2, E1. unfold new. rewrite lookup_insert_eq.
  apply HQ; [by rewrite E2|done].
Qed.

Definition with_data (data : bytes) (s : Snapshot) : Snapshot := mkSnapshot (s_index s) (s_term s) data (s_membership s).

(** What a snapshot leaves of the log. *)
Definition suffix_of (sn : Snapshot) (d : Durable) : list Entry :=
  match d_log d !! Z.to_nat (s_index sn - s_index (d_snap d) - 1) with
  | Some e => if e_term e =? s_term sn then drop (Z.to_nat (s_index sn - s_index (d_snap d))) (d_log d) else []
  | None => []
  end.

Lemma d_install_eq sn d : s_index (d_snap d) < s_index sn -> d_install sn d = mkDurable (d_hard d) sn (suffix_of sn d).
Proof.
  intros H. unfold d_install, suffix_of. rewrite (proj2 (Z.leb_gt _ _)) by done. destruct (_ !! _) as [e|]; [|done].
  by destruct (_ =? _).
Qed.

Lemma chain_eq i j l : chain i l -> i = j -> chain j l.
Proof. by intros ? <-. Qed.

(** The files once snapshot and log are both replaced. *)
Lemma suffix_of_chain sn d pre c : s_index (d_snap d) < s_index sn -> log_file (s_index (d_snap d)) (d_log d) pre [] c ->
  log_file (s_index sn) (suffix_of sn d) [] [] (encode_all (suffix_of sn d)).
Proof.
  intros Hi (_ & Hc & _). split; [by rewrite app_nil_r|]. split; [|split; [by left|apply stops_nil]].
  rewrite app_nil_l. unfold suffix_of. destruct (d_log d !! _) as [e|] eqn:E; [|done]. destruct (_ =? _); [|done].
  apply lookup_lt_Some in E. rewrite chain_app in Hc. destruct Hc as [_ Hc].
  apply (chain_drop _ (Z.to_nat (s_index sn - s_index (d_snap d)))) in Hc; [|lia].
  apply (chain_eq _ _ _ Hc). simpl. lia.
Qed.

(** The condition on the files between the two publications of an installation. *)
Definition published (sn : Snapshot) (fs0 fs : gmap bytes bytes) : Prop :=
  fs !! hardStateFile = fs0 !! hardStateFile /\ fs !! logFile = fs0 !! logFile /\
  fs !! snapshotFile = Some (snapshot_bytes sn (s_data sn)).

Lemma installSnapshot_secure J w0 sn src s w d :
  let sn' := with_data (concat (chunks src)) sn in
  follows w0 w -> holds s (files w) d -> snapshot_ok sn' (s_data sn') -> source_error src = None ->
  s_index (d_snap d) + Z.of_nat (length (d_log d)) < 2 ^ 64 ->
  ignores snapshotTmp J -> ignores logTmp J ->
  (forall fs, recovers fs d \/ (s_index (d_snap d) < s_index sn /\ published sn' (files w) fs) \/ recovers fs (d_install sn' d) -> J fs) ->
  secure J w0 (installSnapshot sn src) (s, w) (fun _ st => holds st.1 (files st.2) (d_install sn' d)).
Proof.
  intros sn' Hf HH Hok Hsrc Hb Hi1 Hi2 HJ. assert (J (files w)) as HJ0 by (apply HJ; left; apply HH).
  pose proof Hok as [H1 H2 H3 H4]. cbn [sn' with_data s_index s_term s_data] in *. unfold installSnapshot.
  pose proof (snapshot_file_index _ _ (rc_snap _ _ (ho_files _ _ _ HH))) as Hidx.
  rewrite !(proj2 (Z.eqb_neq _ 0)) by lia. cbn [orb]. apply secure_bind, secure_gets; [done|done|]. intros _ _. cbn [fst].
  rewrite (ho_snap _ _ _ HH), (ho_log _ _ _ HH). change (s_index (metadata (d_snap d))) with (s_index (d_snap d)).
  destruct (Z.leb_spec (s_index sn) (s_index (d_snap d))) as [Hle|Hlt].
  { unfold d_install. cbn [sn' with_data s_index]. rewrite (proj2 (Z.leb_le _ _)) by done. by apply secure_ret. }
  rewrite u64_small by lia. rewrite d_install_eq in * by done.
  apply secure_bind, (secure_of_res _ _ _ (match d_log d !! Z.to_nat (s_index sn - s_index (d_snap d) - 1) with
    | Some e => e_term e =? s_term sn | None => false end)); [done|done|..].
  { destruct (Z.leb_spec (s_index sn) (s_index (d_snap d) + Z.of_nat (length (d_log d)))).
    - destruct (lookup_lt_is_Some_2 (d_log d) (Z.to_nat (s_index sn - s_index (d_snap d) - 1))) as [e ->]; [lia|done].
    - by rewrite lookup_ge_None_2 by lia. }
  intros _ _. replace (if _ : bool then drop _ _ else []) with (suffix_of sn' d).
  2:{ unfold suffix_of. cbn [sn' with_data s_index s_term]. destruct (d_log d !! _) as [e|]; [|done]. by destruct (_ =? _). }
  destruct (ho_file _ _ _ HH) as (pre & Hfile & Hlog & Hoff & Hpos).
  pose proof (suffix_of_chain sn' d pre _ Hlt Hlog) as Hsuf.
  apply secure_bind, secure_zoom, storeSnapshotStream_safe; [done|done|done| |done|done|].
  { apply HJ. right; left. split; [done|]. cbn [snd]. split_and!; rewrite ?lookup_insert_eq, ?lookup_insert_ne, ?lookup_delete_ne by discriminate; done. }
  cbn [fst snd]. intros w1 E1 Hf1 _ HJ1.
  assert (forall fs, fs !! hardStateFile = files w1 !! hardStateFile -> fs !! snapshotFile = files w1 !! snapshotFile ->
    fs !! logFile = Some (encode_all (suffix_of sn' d)) -> recovers fs (mkDurable (d_hard d) sn' (suffix_of sn' d))) as HR.
  { intros fs Eh Es El. split; cbn [d_hard d_snap d_log]; rewrite ?Eh, ?Es, ?E1.
    - rewrite lookup_insert_ne, lookup_delete_ne by discriminate. apply HH.
    - rewrite lookup_insert_eq. split; [done|exact Hok].
    - rewrite El. eauto. }
  apply secure_bind, rewriteLog_secure; [done|done|done|..].
  { apply HJ. right; right. apply HR; [..|by rewrite lookup_insert_eq];
      by rewrite lookup_insert_ne, lookup_delete_ne by discriminate. }
  intros w2 E2 Hf2 _ HJ2. apply secure_modify; [done|done|]. cbn [fst snd].
  split; cbn [set_snapshot set_log hard snapshot snapshotSize snapshotChecksum entries offsets position d_hard d_snap d_log];
    try done; [|apply HH|].
  - apply HR; rewrite E2; [..|by rewrite lookup_insert_eq];
      by rewrite lookup_insert_ne, lookup_delete_ne by discriminate.
  - exists []. by rewrite E2, lookup_insert_eq.
Qed.

(** ** Persisting an update *)

(** The update with the data of its snapshot as the writer supplies it. *)
Definition source_of (writeData : option Source) (sn : Snapshot) : Source := default (data_source (s_data sn)) writeData.
Definition streamed (writeData : option Source) (u : Update) : Update :=
  mkUpdate (u_hardState u) (u_truncateFrom u) (u_entries u) (u_messages u) (u_committed u) (u_roleChanged u)
    ((fun sn => with_data (concat (chunks (source_of writeData sn))) sn) <$> u_snapshot u) (u_droppedAppend u).

Definition after_hard (u : Update) (d : Durable) : Durable :=
  match u_hardState u with Some h => mkDurable h (d_snap d) (d_log d) | None => d end.
Definition after_snap (u : Update) (d : Durable) : Durable :=
  match u_snapshot u with Some sn => d_install sn (after_hard u d) | None => after_hard u d end.
(** The durable state when [k] of the new entries are written. *)
Definition after_entries (k : nat) (u : Update) (d : Durable) : Durable :=
  with_log (kept (u_truncateFrom u) (after_snap u d) ++ take k (u_entries u)) (after_snap u d).

Lemma persist_eq u d : persist u d = with_log (kept (u_truncateFrom u) (after_snap u d) ++ u_entries u) (after_snap u d).
Proof. done. Qed.

(** What a crash can leave of an update. *)
Definition crash_state (u : Update) (d d' : Durable) : Prop :=
  d' = d \/ d' = after_hard u d \/ d' = after_snap u d \/ exists k, d' = after_entries k u d.

Definition d_last (d : Durable) : Z := s_index (d_snap d) + Z.of_nat (length (d_log d)).

(** The updates a store accepts: numbers that fit, a truncation within the log, entries
    that continue it. *)
Record update_ok (u : Update) (d : Durable) : Prop := {
  uo_hard : forall h, u_hardState u = Some h -> hard_ok h;
  uo_snap : forall sn, u_snapshot u = Some sn -> snapshot_ok sn (s_data sn);
  uo_last : d_last d < 2 ^ 64;
  uo_room : d_last (after_snap u d) + 1 < 2 ^ 64;
  uo_from : u_truncateFrom u = 0 \/
    s_index (d_snap (after_snap u d)) < u_truncateFrom u <= d_last (after_snap u d) + 1;
  uo_entries : chain (s_index (d_snap (after_snap u d)) + Z.of_nat (length (kept (u_truncateFrom u) (after_snap u d))) + 1) (u_entries u)
}.

(** A snapshot that is ignored, or the first one, taken of the store's own log. *)
Definition clean_install (u : Update) (d : Durable) : Prop :=
  forall sn, u_snapshot u = Some sn -> s_index sn <= s_index (d_snap d) \/
    s_index (d_snap d) = 0 /\ exists e, d_log d !! Z.to_nat (s_index sn - 1) = Some e /\ e_term e = s_term sn.

Lemma after_hard_same u d : d_snap (after_hard u d) = d_snap d /\ d_log (after_hard u d) = d_log d.
Proof. unfold after_hard. by destruct (u_hardState u). Qed.

(** With a clean installation the files are recoverable also between its publications. *)
Lemma published_recovers sn s fs0 fs d : holds s fs0 d -> snapshot_ok sn (s_data sn) -> s_index (d_snap d) < s_index sn ->
  s_index (d_snap d) = 0 -> (exists e, d_log d !! Z.to_nat (s_index sn - 1) = Some e /\ e_term e = s_term sn) ->
  published sn fs0 fs -> recovers fs (d_install sn d).
Proof.
  intros HH Hok Hlt H0 (e & He & Ht) (E1 & E2 & E3). rewrite d_install_eq by done.
  destruct (ho_file _ _ _ HH) as (pre & Hfile & (_ & Hc & Hp & _) & _).
  assert (pre = []) as -> by (destruct Hp as [?|Hp]; [done|]; destruct pre; [done|simpl in Hp; lia]).
  assert (suffix_of sn d = drop (Z.to_nat (s_index sn)) (d_log d)) as Es.
  { unfold suffix_of. rewrite H0, Z.sub_0_r, He, Ht, Z.eqb_refl. done. }
  rewrite H0 in Hc. apply lookup_lt_Some in He. split; cbn [d_hard d_snap d_log].
  - rewrite E1. apply HH.
  - rewrite E3. done.
  - rewrite E2, Hfile. cbn [default id]. exists (take (Z.to_nat (s_index sn)) (d_log d)), []. split.
    + change (encode_all [] ++ ?x) with x. by rewrite Es, app_nil_r, <- encode_all_app, take_drop.
    + rewrite Es, take_drop, length_take, Nat.min_l by lia. split_and!; [|right; lia|apply stops_nil].
      apply (chain_eq _ _ _ Hc). simpl. lia.
Qed.

Definition crash_safe (u : Update) (d : Durable) (fs : gmap bytes bytes) : Prop :=
  clean_install u d -> exists d', crash_state u d d' /\ recovers fs d'.

Lemma crash_safe_ignores u d tmp : tmp ∉ [hardStateFile; snapshotFile; logFile] -> ignores tmp (crash_safe u d).
Proof.
  intros Ht fs fs' Hn H Hc. destruct (H Hc) as (d' & Hd & HR). exists d'. split; [done|].
  eapply recovers_ext; [done|]. intros n Hin. apply Hn. by intros ->.
Qed.

Lemma temporary_names : Forall (fun tmp => tmp ∉ [hardStateFile; snapshotFile; logFile]) [hardTmp; snapshotTmp; logTmp].
Proof. repeat constructor; apply (bool_decide_unpack _); by vm_compute. Qed.

Lemma crash_safe_tmp u d tmp : tmp ∈ [hardTmp; snapshotTmp; logTmp] -> ignores tmp (crash_safe u d).
Proof. intros Ht. apply crash_safe_ignores. pose proof temporary_names as HF. rewrite Forall_forall in HF. by apply HF. Qed.

Lemma crash_safe_of u d d' fs : crash_state u d d' -> recovers fs d' -> crash_safe u d fs.
Proof. intros H1 H2 _. by exists d'. Qed.

Section persisting.
Context (u : Update) (d : Durable) (w0 : World) (Hu : update_ok u d).

Lemma persist_hard s w : follows w0 w -> holds s (files w) d ->
  secure (crash_safe u d) w0
    (match u_hardState u with Some h => fs (storeHardState h) ;; put (set_hard h) | None => mret tt end) (s, w)
    (fun _ st => holds st.1 (files st.2) (after_hard u d)).
Proof.
  intros Hf HH. pose proof (uo_hard _ _ Hu) as Hh. unfold after_hard.
  assert (crash_safe u d (files w)) as HJ0 by (eapply crash_safe_of; [by left|apply HH]).
  destruct (u_hardState u) as [h|] eqn:Eu; [|by apply secure_ret]. specialize (Hh h eq_refl).
  assert (recovers (<[hardStateFile := hard_bytes h]> (delete hardTmp (files w))) (mkDurable h (d_snap d) (d_log d))) as HR.
  { destruct HH as [[_ H2 H3] _ _ _ _ _ _]. split; cbn [d_hard d_snap d_log]; [by rewrite lookup_insert_eq|..];
      by rewrite lookup_insert_ne, lookup_delete_ne by discriminate. }
  apply secure_bind, secure_zoom, storeHardState_safe; [done|done|apply crash_safe_tmp; by left| |].
  { eapply crash_safe_of; [|exact HR]. right; left. unfold after_hard. by rewrite Eu. }
  cbn [fst snd]. intros w1 E1 Hf1 _ HJ1. apply secure_modify; [done|done|]. cbn [fst snd].
  destruct HH as [_ _ H3 H4 H5 H6 (pre & H7 & H8)].
  split; cbn [set_hard hard snapshot snapshotSize snapshotChecksum entries offsets position d_hard d_snap d_log]; try done.
  - by rewrite E1.
  - exists pre. by rewrite E1, lookup_insert_ne, lookup_delete_ne by discriminate.
Qed.

Lemma persist_snap s w u0 wd : u = streamed wd u0 -> (forall src, wd = Some src -> source_error src = None) ->
  follows w0 w -> holds s (files w) (after_hard u d) ->
  secure (crash_safe u d) w0
    (match u_snapshot u0 with Some sn => installSnapshot sn (default (data_source (s_data sn)) wd) | None => mret tt end) (s, w)
    (fun _ st => holds st.1 (files st.2) (after_snap u d)).
Proof.
  intros -> Hsrc Hf HH. pose proof (uo_snap _ _ Hu) as Hs. unfold after_snap. cbn [streamed u_snapshot] in *.
  destruct (after_hard_same (streamed wd u0) d) as [Es El]. pose proof (uo_last _ _ Hu) as Hl. unfold d_last in Hl.
  assert (crash_safe (streamed wd u0) d (files w)) as HJ0 by (eapply crash_safe_of; [by right; left|apply HH]).
  destruct (u_snapshot u0) as [sn|] eqn:Eu; [|by apply secure_ret]. cbn [fmap option_fmap option_map] in *.
  specialize (Hs _ eq_refl). set (sn' := with_data _ sn) in *.
  apply (installSnapshot_secure _ w0 sn (source_of wd sn)); [done|done|exact Hs| |by rewrite Es, El|apply crash_safe_tmp; by right; left|apply crash_safe_tmp; by do 2 right; left|].
  { unfold source_of. destruct wd as [src|]; [by apply Hsrc|done]. }
  intros fs [H|[H|H]]; [by eapply crash_safe_of; [right; left|exact H]| |].
  - destruct H as [Hgt H]. rewrite Es in Hgt. intros Hc. destruct (Hc sn') as [?|[H0 (e & He & Ht)]]; [by cbn [streamed u_snapshot]; rewrite Eu|simpl in *; lia|].
    exists (after_snap (streamed wd u0) d). split; [by right; right; left|].
    unfold after_snap. cbn [streamed u_snapshot]. rewrite Eu. cbn [fmap option_fmap option_map].
    eapply published_recovers; [exact HH|exact Hs|by rewrite Es|by rewrite Es|rewrite El; by exists e|exact H].
  - eapply crash_safe_of; [|exact H]. right; right; left. unfold after_snap. cbn [streamed u_snapshot]. by rewrite Eu.
Qed.

Lemma persist_truncate s w : follows w0 w -> holds s (files w) (after_snap u d) ->
  secure (crash_safe u d) w0 (if u_truncateFrom u =? 0 then mret tt else truncate (u_truncateFrom u)) (s, w)
    (fun _ st => holds st.1 (files st.2) (after_entries 0 u d)).
Proof.
  intros Hf HH. unfold after_entries. rewrite take_0, app_nil_r. pose proof (uo_room _ _ Hu) as Hr. unfold d_last in Hr.
  assert (crash_safe u d (files w)) as HJ0 by (eapply crash_safe_of; [by right; right; left|apply HH]).
  destruct (Z.eqb_spec (u_truncateFrom u) 0) as [E|E].
  { apply secure_ret; [done|done|]. unfold kept. rewrite E, Z.eqb_refl. by rewrite with_log_id. }
  destruct (uo_from _ _ Hu) as [?|Hfrom]; [done|]. unfold d_last in Hfrom. apply truncate_secure; try done.
  intros fs [H|H]; eapply crash_safe_of; try exact H; right; right; [by left|right]. exists 0%nat.
  unfold after_entries. by rewrite take_0, app_nil_r.
Qed.

Lemma persist_entries s w : follows w0 w -> holds s (files w) (after_entries 0 u d) ->
  secure (crash_safe u d) w0 (if (length (u_entries u) =? 0)%nat then mret tt else append (u_entries u)) (s, w)
    (fun _ st => holds st.1 (files st.2) (persist u d)).
Proof.
  intros Hf HH. rewrite persist_eq. unfold after_entries in HH. rewrite take_0, app_nil_r in HH.
  assert (crash_safe u d (files w)) as HJ0.
  { eapply crash_safe_of; [|apply HH]. right; right; right. exists 0%nat. unfold after_entries. by rewrite take_0, app_nil_r. }
  pose proof (uo_entries _ _ Hu) as Hc. destruct (u_entries u) as [|e l] eqn:E; [by apply secure_ret; rewrite ?app_nil_r|].
  change (length (e :: l) =? 0)%nat with false. rewrite <- E in *.
  apply (append_secure _ _ _ _ _ (with_log (kept (u_truncateFrom u) (after_snap u d)) (after_snap u d))); try done.
  intros k fs H. eapply crash_safe_of; [|exact H]. right; right; right. by exists k.
Qed.
End persisting.

Lemma persist_secure u0 wd s w d : let u := streamed wd u0 in
  (forall src, wd = Some src -> source_error src = None) -> holds s (files w) d -> update_ok u d ->
  secure (crash_safe u d) w (persist_update u0 wd) (s, w) (fun _ st => holds st.1 (files st.2) (persist u d)).
Proof.
  intros u Hsrc HH Hu. unfold persist_update. apply secure_bind.
  eapply secure_mono; [by apply (persist_hard u d w Hu s w)|done|]. intros _ [s1 w1] Hf1 _ HH1 _ _.
  apply secure_bind. eapply secure_mono; [by apply (persist_snap u d w Hu s1 w1 u0 wd)|done|]. intros _ [s2 w2] Hf2 _ HH2 _ _.
  apply secure_bind. eapply secure_mono; [by apply (persist_truncate u d w Hu s2 w2)|done|]. intros _ [s3 w3] Hf3 _ HH3 _ _.
  by apply (persist_entries u d w Hu).
Qed.

Lemma streamed_none u : streamed None u = u.
Proof.
  unfold streamed, source_of. destruct u as [? ? ? ? ? ? [sn|] ?]; cbn; [|done]. do 2 f_equal.
  unfold with_data. destruct sn as [i t data m]; cbn. f_equal. destruct data; [done|]. cbn. by rewrite app_nil_r.
Qed.

(** Open on these files returns a store for this state, whatever fails; an Open that
    fails or crashes can be repeated. *)
Definition reopens (fs : gmap bytes bytes) (d : Durable) : Prop := forall fates,
  safe (fun fs' => recovers fs' d) (mkWorld fs fates) Open (mkWorld fs fates) (fun s w' => holds s (files w') d).

Lemma recovers_reopens fs d : recovers fs d -> reopens fs d.
Proof. intros HR fates. by apply store_Open_safe. Qed.

(** C9: Persist applies an update to the stable store and to its files, and fails
    only if a call on the files fails. When a failing call or a crash interrupts it, Open
    on what is left finds one of the states the update passes through: the old one, the
    one with the new term and vote, the one with the snapshot installed too, or the
    truncated log with some of the new entries. A snapshot must be the first one the
    store takes of its own log for this. *)
Theorem persist_survives_crash u wd s w d : let v := streamed wd u in
  (forall src, wd = Some src -> source_error src = None) -> holds s (files w) d -> update_ok v d -> clean_install v d ->
  match persist_update u wd (s, w) with
  | (Ok _, (s', w')) => holds s' (files w') (persist v d) /\ reopens (files w') (persist v d)
  | (Err _, (_, w')) => can_fail w /\ exists d', crash_state v d d' /\ reopens (files w') d'
  | (Crash, (_, w')) => exists d', crash_state v d d' /\ reopens (files w') d'
  | (Panic, _) => False
  end.
Proof.
  intros v Hsrc HH Hu Hc. pose proof (persist_secure u wd s w d Hsrc HH Hu) as H. fold v in H. unfold secure, runs in H.
  destruct (persist_update u wd (s, w)) as [[[]|e| |] [s' w']]; cbn [fst snd] in H; [| |done|].
  - destruct H as (_ & _ & H). split; [done|]. apply recovers_reopens, H.
  - destruct H as (_ & HJ & Hf). split; [done|]. destruct (HJ Hc) as (d' & ? & ?). eauto using recovers_reopens.
  - destruct H as (HJ & _). destruct (HJ Hc) as (d' & ? & ?). eauto using recovers_reopens.
Qed.

(** ** Loading *)

Lemma snapshot_data s data : slice 24 (24 + length data) (snapshot_bytes s data) = data.
Proof.
  apply (slice_eq (snapshot_header s (Z.of_nat (length data))) data
    (PutUint32 (Z.of_nat (length (membership_bytes (s_membership s)))) ++ membership_bytes (s_membership s) ++
     PutUint32 (ChecksumIEEE (snapshot_body s data)))); [|by rewrite length_snapshot_header..].
  unfold snapshot_bytes, snapshot_body at 1. by rewrite <- !app_assoc.
Qed.

Lemma LoadSnapshot_eq s F d : holds s F d ->
  LoadSnapshot (s, mkWorld F []) = (Ok (d_snap d), (s, mkWorld F [])).
Proof.
  intros HH. pose proof (rc_snap _ _ (ho_files _ _ _ HH)) as Hsn. unfold LoadSnapshot, mbind, M_bind, get, gets. cbn [fst].
  rewrite (ho_snap _ _ _ HH). destruct (F !! snapshotFile) as [c|] eqn:Ec; simpl in Hsn; [|by rewrite Hsn].
  destruct Hsn as [-> [Hi _ _ _]]. change (s_index (metadata (d_snap d))) with (s_index (d_snap d)).
  rewrite (proj2 (Z.eqb_neq (s_index _) 0)) by lia. unfold catch, OpenSnapshot, mbind, M_bind, get, gets. cbn [fst].
  rewrite (ho_snap _ _ _ HH). change (s_index (metadata (d_snap d))) with (s_index (d_snap d)).
  rewrite (proj2 (Z.eqb_neq (s_index _) 0)) by lia. rewrite Z.eqb_refl. cbn [negb orb].
  change (fs (os_Open snapshotFile) (s, mkWorld F [])) with (Ok (F !! snapshotFile), (s, mkWorld F [])).
  rewrite Ec, (ho_size _ _ _ HH), Nat2Z.id, snapshot_data. cbn. by destruct (d_snap d).
Qed.

(** What was persisted is loaded: after an update and a restart, Load returns
    the term, vote and log of the updated state, SnapshotMetadata the index, term and
    membership of its snapshot, and LoadSnapshot the snapshot with its data. *)
Theorem persist_reopen_load u s w d : holds s (files w) d -> update_ok u d -> faultless w ->
  let d' := persist u d in
  exists s' w', Persist u (s, w) = (Ok tt, (s', w')) /\
  exists s2 w2, Open (mkWorld (files w') []) = (Ok s2, w2) /\
    Load s2 = (d_hard d', d_log d') /\ SnapshotMetadata s2 = metadata (d_snap d') /\
    LoadSnapshot (s2, mkWorld (files w2) []) = (Ok (d_snap d'), (s2, mkWorld (files w2) [])).
Proof.
  intros HH Hu Hw d'. pose proof (persist_secure u None s w d) as H. rewrite streamed_none in H.
  specialize (H ltac:(done) HH Hu). fold d' in H. unfold Persist. unfold secure, runs in H.
  destruct (persist_update u None (s, w)) as [[[]|e| |] [s' w']]; cbn [fst snd] in H; [|..].
  2:{ destruct H as (_ & _ & Hf). by apply faultless_cannot_fail in Hf. }
  2:{ done. }
  2:{ destruct H as [_ Hc]. by apply faultless_cannot_crash in Hc. }
  exists s', w'. split; [done|]. destruct H as (_ & _ & HH').
  pose proof (recovers_reopens _ _ (ho_files _ _ _ HH') []) as HO. unfold safe, runs in HO.
  destruct (Open (mkWorld (files w') [])) as [[s2|e| |] w2].
  2:{ destruct HO as (_ & _ & [k Hk]). by apply not_elem_of_nil in Hk. }
  2:{ done. }
  2:{ destruct HO as (_ & [k Hk]). by apply not_elem_of_nil in Hk. }
  exists s2, w2. destruct HO as (_ & _ & HH2). split_and!; [done| |apply HH2|by apply LoadSnapshot_eq].
  unfold Load. by rewrite (ho_hard _ _ _ HH2), (ho_log _ _ _ HH2).
Qed.

(** ** An installation that is interrupted *)

(** The update of a snapshot alone, and a store whose process crashes at a call. *)
Definition compacting (sn : Snapshot) : Update := mkUpdate None 0 [] [] [] false (Some sn) [].
Definition crashing (calls : nat) (st : St) : St := (st.1, mkWorld (files st.2) (replicate calls Fine ++ [Crashes 0])).

(** Without faults, Open reads what the files hold. *)
Lemma Open_reads F h sn : hard_file h (F !! hardStateFile) -> snapshot_file sn (F !! snapshotFile) ->
  exists s w, Open (mkWorld F []) = (Ok s, w) /\ hard s = h /\ snapshot s = metadata sn /\
    entries s = (readLog (s_index sn) (default [] (F !! logFile))).1.1.
Proof.
  intros Hh Hs. set (w0 := mkWorld F []).
  assert (safe (fun _ => True) w0 Open w0 (fun s _ => hard s = h /\ snapshot s = metadata sn /\
    entries s = (readLog (s_index sn) (default [] (F !! logFile))).1.1)) as HO.
  { apply safe_bind, safe_nop; [done|done|]. intros w1 E1 Hf1 _ _.
    apply safe_bind. apply (loadHardState_safe _ _ _ h); [done|done|by rewrite E1|]. intros w2 E2 Hf2 _ _.
    apply safe_bind. apply (inspectSnapshot_safe _ _ _ sn); [done|done|by rewrite E2, E1|]. intros sum w3 E3 Hf3 _ _ _. cbn [fst snd].
    apply safe_bind, safe_sys; [done|done|done|]. intros w4 E4 Hf4 _ _.
    apply safe_bind, or_close_safe, safe_nop; [done|done|]. intros w5 E5 Hf5 _ _. apply safe_bind, safe_gets; [done|done|]. intros _ _.
    assert (default [] (files w5 !! logFile) = default [] (F !! logFile)) as ->.
    { rewrite E5, E4, E3, E2, E1. cbn [w0 files]. destruct (F !! logFile) as [c|] eqn:El; [by rewrite El|by rewrite lookup_insert_eq]. }
    apply safe_bind, or_close_safe, safe_sys; [done|done|done|]. intros w6 _ Hf6 _ _.
    apply safe_bind, or_close_safe, safe_nop; [done|done|]. intros w7 _ Hf7 _ _. by apply safe_ret. }
  unfold safe, runs in HO. destruct (Open w0) as [[s2|e| |] w'].
  - destruct HO as (_ & _ & H). by exists s2, w'.
  - destruct HO as (_ & _ & [k Hk]). by apply not_elem_of_nil in Hk.
  - done.
  - destruct HO as (_ & [k Hk]). by apply not_elem_of_nil in Hk.
Qed.

(** A log whose first record is neither the first of all nor the one after the snapshot. *)
Lemma readLog_gap idx e rest : entry_valid e -> e_index e <> 1 -> e_index e <> idx + 1 -> 0 <= idx -> idx + 1 < 2 ^ 64 ->
  readLog idx (encodeEntry e ++ rest) = ([], [], 0%nat).
Proof.
  intros Hv H1 H2 H0 Hi. pose proof (entry_fields e Hv) as (F1 & F2 & F3). destruct Hv as [Hv1 Hv2 Hv3]. unfold readLog. cbn [read_log].
  rewrite length_app, length_encodeEntry. destruct (Nat.ltb_spec (24 + length (e_data e) + length rest) 20); [lia|].
  assert (take 20 (encodeEntry e ++ rest) = entry_header e) as ->.
  { unfold encodeEntry, entry_body. rewrite <- !app_assoc. apply take_app_exact. by rewrite length_entry_header. }
  rewrite F1, F2, F3. rewrite (proj2 (Z.ltb_ge _ _)) by done. rewrite (proj2 (Z.eqb_neq (e_term e) 0)) by lia. cbn [orb andb negb Z.eqb].
  rewrite u64_small, (proj2 (Z.eqb_neq _ 1)), (proj2 (Z.eqb_neq _ (idx + 1))) by lia. done.
Qed.

(** The log file from its start: all entries, or those behind the snapshot. *)
Definition found (sn : Snapshot) (pre : list Entry) (d : Durable) : list Entry :=
  if decide (Z.of_nat (length pre) = s_index (d_snap d)) then drop (Z.to_nat (s_index sn - s_index (d_snap d))) (d_log d) else [].

Lemma published_found sn pre d : log_file (s_index (d_snap d)) (d_log d) pre [] (encode_all pre ++ encode_all (d_log d)) ->
  0 <= s_index (d_snap d) < s_index sn -> s_index sn + 1 < 2 ^ 64 ->
  (readLog (s_index sn) (encode_all pre ++ encode_all (d_log d))).1.1 = found sn pre d.
Proof.
  intros (_ & Hc & Hp & _) Hi Hb. unfold found. case_decide as Hl.
  - rewrite <- encode_all_app. set (l := pre ++ d_log d) in *. set (k := Z.to_nat (s_index sn)).
    replace (encode_all l) with (encode_all (take k l) ++ encode_all (drop k l) ++ []) by (by rewrite app_nil_r, <- encode_all_app, take_drop).
    rewrite (readLog_all _ 1); [|rewrite take_drop; by apply (chain_eq _ _ _ Hc); lia|by left|lia|rewrite length_take; lia| |apply stops_nil].
    + cbn [fst]. unfold l. rewrite drop_app_ge by lia. f_equal. lia.
    + intros Hne. rewrite length_take. destruct (Nat.le_gt_cases (length l) k) as [Hk|Hk]; [by rewrite drop_ge in Hne|lia].
  - destruct Hp as [->|Hp]; [|done]. cbn in Hl, Hc. change (encode_all []) with (@nil byte). rewrite app_nil_l.
    destruct (d_log d) as [|e l]; [done|]. destruct Hc as (Hv & He & _). rewrite encode_all_cons, readLog_gap; [done|done|lia|lia|lia|lia].
Qed.

(** All calls up to the rename succeed; the next one does not happen. *)
Definition publication_calls (sn : Snapshot) : nat := if s_data sn then 14 else 15.

Lemma snapshot_written sn F l : Z.of_nat (length (s_data sn)) <= maxSnapshotData -> exists r p,
  write_snapshot sn (data_source (s_data sn)) (0%nat, mkWorld (<[snapshotTmp := []]> F) (replicate (publication_calls sn - 3) Fine ++ l)) =
  (Ok r, (p, mkWorld (<[snapshotTmp := snapshot_bytes sn (s_data sn)]> F) l)).
Proof.
  intros Hd. set (w := mkWorld _ _). assert (exists r p F', write_snapshot sn (data_source (s_data sn)) (0%nat, w) = (Ok r, (p, mkWorld F' l))) as (r & p & F' & E).
  { unfold w, publication_calls, write_snapshot, data_source. destruct (s_data sn) as [|b data] eqn:Es.
    - eexists _, _, _. reflexivity.
    - change (if (length (b :: data) =? 0)%nat then [] else [b :: data]) with [b :: data]. cbn [chunks write_chunks].
      rewrite (proj2 (Z.ltb_ge _ _)) by lia. eexists _, _, _. reflexivity. }
  exists r, p. rewrite E. do 3 f_equal.
  assert (secure (fun _ => True) w (write_snapshot sn (data_source (s_data sn))) (0%nat, w) (fun _ st => files st.2 = <[snapshotTmp := snapshot_bytes sn (s_data sn)]> F)) as Hw.
  { assert (concat (chunks (data_source (s_data sn))) = s_data sn) as Ec by (unfold data_source; destruct (s_data sn); cbn; by rewrite ?app_nil_r).
    apply (write_snapshot_secure _ _ F); try done; rewrite Ec; [done|]. intros p' w' E' _. exact E'. }
  unfold secure, runs in Hw. rewrite E in Hw. apply Hw.
Qed.

Lemma install_interrupted sn s w d : holds s (files w) d -> snapshot_ok sn (s_data sn) -> s_index (d_snap d) < s_index sn -> d_last d < 2 ^ 64 ->
  Persist (compacting sn) (crashing (publication_calls sn) (s, w)) =
  (Crash, (s, mkWorld (<[snapshotFile := snapshot_bytes sn (s_data sn)]> (delete snapshotTmp (files w))) [])).
Proof.
  intros HH Hok Hlt Hl. pose proof Hok as [H1 H2 H3 H4]. unfold d_last in Hl. set (n := publication_calls sn).
  assert (n = (1 + (n - 3 + 2))%nat) as En by (unfold n, publication_calls; by destruct (s_data sn)).
  assert (storeSnapshotStream sn (data_source (s_data sn)) (mkWorld (files w) (replicate n Fine ++ [Crashes 0])) =
    (Crash, mkWorld (<[snapshotFile := snapshot_bytes sn (s_data sn)]> (delete snapshotTmp (files w))) [])) as Es.
  { rewrite En, !replicate_add, <- !app_assoc. cbn [replicate app]. destruct (snapshot_written sn (files w) (replicate 2 Fine ++ [Crashes 0])) as (r & p & Ew); [lia|].
    fold n in Ew. unfold storeSnapshotStream. unfold mbind at 1, M_bind at 1. unfold os_Create, sys, next_fate at 1. cbn [fates files set_files].
    unfold mbind at 1, M_bind at 1, catch at 1. cbn [replicate app] in Ew. unfold set_files at 1. cbn [files fates]. rewrite Ew. unfold catch at 1, mbind, M_bind, f_Close, os_Rename, sys, next_fate.
    cbn [fates files]. unfold set_files at 1 2 3. cbn [files fates]. unfold id at 1. rewrite lookup_insert_eq.
    rewrite <- (delete_insert_eq (files w) snapshotTmp (snapshot_bytes sn (s_data sn))). reflexivity. }
  unfold Persist, persist_update, crashing, compacting. cbn [u_hardState u_snapshot fst snd default]. unfold mbind at 1, M_bind at 1. cbn [mret M_ret].
  assert (installSnapshot sn (data_source (s_data sn)) (s, mkWorld (files w) (replicate n Fine ++ [Crashes 0])) =
    (Crash, (s, mkWorld (<[snapshotFile := snapshot_bytes sn (s_data sn)]> (delete snapshotTmp (files w))) []))) as Ei.
  { unfold installSnapshot. rewrite !(proj2 (Z.eqb_neq _ 0)) by lia. cbn [orb]. unfold mbind at 1, M_bind at 1, get, gets. cbn [fst].
    pose proof (snapshot_file_index _ _ (rc_snap _ _ (ho_files _ _ _ HH))) as Hidx. rewrite (ho_snap _ _ _ HH), (ho_log _ _ _ HH).
    change (s_index (metadata (d_snap d))) with (s_index (d_snap d)). rewrite (proj2 (Z.leb_gt _ _)) by done. rewrite u64_small by lia.
    set (k := if s_index sn <=? _ then _ else _). assert (exists b, k = Ok b) as [b ->].
    { unfold k. destruct (Z.leb_spec (s_index sn) (s_index (d_snap d) + Z.of_nat (length (d_log d)))); [|by eexists].
      destruct (lookup_lt_is_Some_2 (d_log d) (Z.to_nat (s_index sn - s_index (d_snap d) - 1))) as [e ->]; [lia|by eexists]. }
    unfold mbind at 1, M_bind at 1. cbn [of_res]. unfold mbind at 1, M_bind at 1, fs, zoom. cbn [fst snd]. by rewrite Es. }
  unfold mbind at 1, M_bind at 1. cbn [default]. by rewrite Ei.
Qed.

Lemma install_leaves sn s w d fts : holds s (files w) d -> snapshot_ok sn (s_data sn) -> s_index (d_snap d) < s_index sn -> d_last d < 2 ^ 64 ->
  let fs := files (Persist (compacting sn) (s, mkWorld (files w) fts)).2.2 in
  recovers fs d \/ recovers fs (mkDurable (d_hard d) sn (suffix_of sn d)) \/ published sn (files w) fs.
Proof.
  intros HH Hok Hlt Hl.
  set (J := fun fs => recovers fs d \/ recovers fs (mkDurable (d_hard d) sn (suffix_of sn d)) \/ published sn (files w) fs).
  assert (forall tmp, tmp ∈ [hardTmp; snapshotTmp; logTmp] -> ignores tmp J) as Hi.
  { intros tmp Ht fs fs' Hn HJ. pose proof temporary_names as HF. rewrite Forall_forall in HF. specialize (HF tmp Ht).
    assert (forall n, n ∈ [hardStateFile; snapshotFile; logFile] -> fs' !! n = fs !! n) as He by (intros n Hin; apply Hn; by intros ->).
    destruct HJ as [H|[H|(H1 & H2 & H3)]]; [left; by eapply recovers_ext|right; left; by eapply recovers_ext|right; right].
    split_and!; rewrite He by set_solver; done. }
  assert (with_data (concat (chunks (data_source (s_data sn)))) sn = sn) as Ed.
  { unfold with_data, data_source. destruct sn as [i t data m]. cbn. destruct data; cbn; by rewrite ?app_nil_r. }
  assert (secure J (mkWorld (files w) fts) (Persist (compacting sn)) (s, mkWorld (files w) fts) (fun _ _ => True)) as Hs.
  { assert (J (files w)) as HJ0 by (left; apply HH). unfold Persist, persist_update. cbn [u_hardState u_snapshot u_truncateFrom u_entries compacting default].
    apply secure_bind, secure_ret; [done|done|]. intros _ _. apply secure_bind.
    eapply secure_mono; [apply (installSnapshot_secure J (mkWorld (files w) fts) sn (data_source (s_data sn)) s (mkWorld (files w) fts) d); rewrite ?Ed; try done; try (apply Hi; set_solver)|done|].
    - intros fs [H|[[_ H]|H]]; [by left|by right; right|right; left; by rewrite d_install_eq in H].
    - intros _ [s1 w1] Hf1 HJ1 _ _ _. apply secure_bind, secure_ret; [done|done|]. intros _ _. by apply secure_ret. }
  unfold secure, runs in Hs. destruct (Persist _ _) as [[[]|e| |] [s1 w1]]; cbn [fst snd] in *; [apply Hs|apply Hs|done|apply Hs].
Qed.

(** C37: What an interrupted installation of a snapshot leaves. Take any store and a snapshot
    newer than the one it has, and let Persist install it, under any schedule of failing
    calls and crashes. (1) The files it leaves are those of the old state, those of the new
    state, or hold the new snapshot with the old log ([published]). (2) The last does happen:
    a crash right after the rename of the snapshot file leaves it. (3) Open then returns a
    store with the new snapshot, and with the log [found]: if the log file still has all
    records from entry 1 on, the entries behind the snapshot, whether or not their
    predecessor has the snapshot's term; if the log file starts behind the old snapshot, no
    entries at all. The installation keeps the entries behind the snapshot if and only if
    the entry at its index has its term ([suffix_of]), so after (3) persisted entries are
    lost in the second case, and entries that contradict the snapshot are kept in the
    first. *)
Theorem interrupted_install sn s w d :
  holds s (files w) d -> snapshot_ok sn (s_data sn) -> s_index (d_snap d) < s_index sn -> s_index sn + 1 < 2 ^ 64 -> d_last d < 2 ^ 64 ->
  (forall fts, let fs := files (Persist (compacting sn) (s, mkWorld (files w) fts)).2.2 in
     recovers fs d \/ recovers fs (mkDurable (d_hard d) sn (suffix_of sn d)) \/ published sn (files w) fs) /\
  (exists calls st, Persist (compacting sn) (crashing calls (s, w)) = (Crash, st) /\ published sn (files w) (files st.2)) /\
  (exists pre, files w !! logFile = Some (encode_all pre ++ encode_all (d_log d)) /\ (pre = [] \/ Z.of_nat (length pre) = s_index (d_snap d)) /\
     forall fs, published sn (files w) fs -> exists s2 w2, Open (mkWorld fs []) = (Ok s2, w2) /\
       hard s2 = d_hard d /\ SnapshotMetadata s2 = metadata sn /\ entries s2 = found sn pre d).
Proof.
  intros HH Hok Hlt Hb Hl. pose proof (snapshot_file_index _ _ (rc_snap _ _ (ho_files _ _ _ HH))) as Hidx. split_and!.
  - intros fts. by apply install_leaves.
  - exists (publication_calls sn). eexists. split; [by apply (install_interrupted sn s w d)|]. cbn [snd files].
    split_and!; rewrite ?lookup_insert_eq, ?lookup_insert_ne, ?lookup_delete_ne by discriminate; done.
  - destruct (ho_file _ _ _ HH) as (pre & Hfile & Hlog & _). exists pre. split; [done|]. split; [apply Hlog|]. intros fs (E1 & E2 & E3).
    destruct (Open_reads fs (d_hard d) sn) as (s2 & w2 & E & Eh & Es & Ee); [rewrite E1; apply HH|by rewrite E3|].
    exists s2, w2. split_and!; [done|done|done|]. rewrite Ee, E2, Hfile. cbn [default id]. apply published_found; [done|lia|done].
Qed.

(** ** Examples *)

Definition empty : Durable := mkDurable (mkHard 0 0) zeroSnapshot [].
Definition no_store : Store := mkStore [] [] (mkHard 0 0) zeroSnapshot 0 0 0.
Definition result (r : res Store * World) : St := match r with (Ok s, w) => (s, w) | (_, w) => (no_store, w) end.

(** Open on an empty directory. *)
Definition first : St := result (Open (mkWorld ∅ [])).

Lemma first_holds : holds first.1 (files first.2) empty.
Proof.
  assert (recovers ∅ empty) as HR.
  { split; rewrite lookup_empty; [done|done|]. exists [], []. split; [done|]. split; [done|]. split; [by left|apply stops_nil]. }
  pose proof (recovers_reopens _ _ HR []) as H. unfold safe, runs in H.
  replace (Open (mkWorld ∅ [])) with (Ok first.1, first.2) in H by (vm_compute; reflexivity). apply H.
Qed.

Definition entry (i t : Z) : Entry := mkEntry i t (str "x").
Definition three_voters : Membership := mkMembership [1; 2; 3] [] 0.
Definition snap (i t : Z) : Snapshot := mkSnapshot i t (str "state") three_voters.
Definition appending (h : HardState) (l : list Entry) : Update := mkUpdate (Some h) 0 l [] [] false None [].

Definition one_entry : Update := appending (mkHard 1 2) [entry 1 1].

Lemma one_entry_ok : update_ok one_entry empty.
Proof.
  assert (entry_valid (entry 1 1)) as He by (split; [simpl; lia|simpl; lia|vm_compute; congruence]).
  split; [|done|done|done|by left|].
  - intros h [= <-]. split; simpl; lia.
  - by split.
Qed.

(** The crash cuts the record short: the new term and vote are kept, the log is empty. *)
Definition torn_world : World := mkWorld (files first.2) (replicate 9 Fine ++ [Crashes 7]).

Lemma persist_survives_crash_witness :
  (persist_update one_entry None (first.1, torn_world)).1 = Crash /\
  exists d', crash_state one_entry empty d' /\ reopens (files (persist_update one_entry None (first.1, torn_world)).2.2) d'.
Proof.
  assert ((persist_update one_entry None (first.1, torn_world)).1 = Crash) as E by (vm_compute; reflexivity).
  split; [exact E|].
  pose proof (persist_survives_crash one_entry None first.1 torn_world empty ltac:(discriminate) first_holds one_entry_ok
    ltac:(discriminate)) as H.
  destruct (persist_update one_entry None (first.1, torn_world)) as [r [s' w']]. simpl in E. subst r. exact H.
Defined.

Lemma persist_reopen_load_witness :
  exists s' w', Persist one_entry (first.1, first.2) = (Ok tt, (s', w')) /\
  exists s2 w2, Open (mkWorld (files w') []) = (Ok s2, w2) /\ Load s2 = (mkHard 1 2, [entry 1 1]).
Proof.
  destruct (persist_reopen_load one_entry first.1 first.2 empty first_holds one_entry_ok ltac:(vm_compute; constructor))
    as (s' & w' & E & s2 & w2 & E2 & El & _).
  exists s', w'. split; [exact E|]. exists s2, w2. split; [exact E2|exact El].
Defined.

(** ** An installation interrupted between its two publications *)

(** The store after an update that every call lets through, and what a restart finds. *)
Definition after (u : Update) (st : St) : St := (Persist u st).2.
Definition restart (st : St) : St := result (Open (mkWorld (files st.2) [])).
Definition view (st : St) : Z * list (Z * Z) :=
  (s_index (snapshot st.1), (fun e => (e_index e, e_term e)) <$> entries st.1).

Definition three_entries : St := after (appending (mkHard 1 0) [entry 1 1; entry 2 1; entry 3 1]) first.
Definition compacted : St := after (compacting (snap 1 1)) three_entries.
Definition compacted_state : Durable := mkDurable (mkHard 1 0) (snap 1 1) [entry 2 1; entry 3 1].

Lemma after_holds u st d s w : holds st.1 (files st.2) d -> update_ok u d -> faultless st.2 -> Persist u st = (Ok tt, (s, w)) -> holds s (files w) (persist u d).
Proof.
  intros HH Hu Hw E. destruct st as [s0 w0]. pose proof (persist_secure u None s0 w0 d) as H. rewrite streamed_none in H.
  specialize (H ltac:(done) HH Hu). unfold secure, runs, Persist in *. rewrite E in H. apply H.
Qed.

Lemma snap_ok i t : 0 < i < 2 ^ 64 -> 0 < t < 2 ^ 64 -> snapshot_ok (snap i t) (s_data (snap i t)).
Proof.
  intros Hi Ht. split; [done|done| |vm_compute; discriminate]. split; [repeat constructor; cbn; lia|]. split; [constructor|].
  split; [cbn; lia|vm_compute; discriminate].
Qed.

Lemma valid_entry i t : 0 < i < 2 ^ 64 -> 0 < t < 2 ^ 64 -> entry_valid (entry i t).
Proof. intros Hi Ht. split; [done|done|vm_compute; discriminate]. Qed.

Lemma compacted_holds : holds compacted.1 (files compacted.2) compacted_state.
Proof.
  assert (holds three_entries.1 (files three_entries.2) (mkDurable (mkHard 1 0) zeroSnapshot [entry 1 1; entry 2 1; entry 3 1])) as H1.
  { apply (after_holds (appending (mkHard 1 0) [entry 1 1; entry 2 1; entry 3 1]) first empty); [apply first_holds| |by vm_compute; constructor|vm_compute; reflexivity].
    split; [intros h [= <-]; split; cbn; lia|done|done|done|by left|]. cbn. split_and!; try done; apply valid_entry; lia. }
  apply (after_holds (compacting (snap 1 1)) three_entries _ compacted.1 compacted.2) in H1; [exact H1| |by vm_compute; constructor|vm_compute; reflexivity].
  split; [done|intros sn [= <-]; apply snap_ok; lia|done|done|by left|done].
Qed.

(** A second snapshot, of index 2: after the crash the store comes back without entry 3,
    which the installation keeps. *)
Lemma interrupted_install_witness :
  suffix_of (snap 2 1) compacted_state = [entry 3 1] /\
  exists calls st s2 w2, Persist (compacting (snap 2 1)) (crashing calls (compacted.1, compacted.2)) = (Crash, st) /\
    Open (mkWorld (files st.2) []) = (Ok s2, w2) /\ SnapshotMetadata s2 = metadata (snap 2 1) /\ entries s2 = [].
Proof.
  split; [vm_compute; reflexivity|].
  destruct (interrupted_install (snap 2 1) compacted.1 compacted.2 compacted_state compacted_holds (snap_ok 2 1 ltac:(lia) ltac:(lia)) ltac:(cbn; lia) ltac:(cbn; lia) ltac:(vm_compute; reflexivity))
    as (_ & (calls & st & E & Hp) & (pre & Hf & _ & Ho)).
  destruct (Ho _ Hp) as (s2 & w2 & E2 & _ & Hs & He). exists calls, st, s2, w2. split; [exact E|]. split; [exact E2|]. split; [exact Hs|].
  assert (pre = []) as ->; [|rewrite He; vm_compute; reflexivity].
  assert (files compacted.2 !! logFile = Some (encode_all (d_log compacted_state))) as Hf' by (vm_compute; reflexivity).
  rewrite Hf' in Hf. injection Hf as Hf. apply (f_equal length) in Hf. rewrite length_app in Hf. destruct pre as [|e l]; [done|].
  pose proof (encode_all_length_ge (e :: l)) as Hl. cbn [length] in Hl. lia.
Defined.

(** A snapshot beyond the log: the restart leaves the old records in the file and appends
    after them; the next restart stops at the gap, and entry 6, for which Persist had
    returned, is gone. *)
Lemma stale_records_lose_entry :
  let st := restart (after (compacting (snap 5 2)) (crashing 15 three_entries)) in
  let u := appending (mkHard 2 0) [entry 6 2] in
  view st = (5, []) /\ (Persist u st).1 = Ok tt /\ view (after u st) = (5, [(6, 2)]) /\ view (restart (after u st)) = (5, []).
Proof. vm_compute. done. Qed.

End Stable.
