(* ===== verification/Runtime.v ===== *)
(** * The raft runtime

    internal/raftnode/runtime.go: one event loop owns the node, the stable store and the
    state machine. A handler is a computation on the state of the loop; the channels on
    which clients wait for answers are numbers, and what is sent on them is recorded in
    order. Events queue up between the turns of the loop; a drain inside a turn reads what
    is queued. The goroutine that hands messages to the transport is [transmit]. *)

From S2P Require Import Prelude GoStd Fs Json Membership RaftTypes RaftNode RaftCore RaftRefine RaftHandlers RaftOps RaftApi Raftstore.

(** ** What the loop needs of its parts *)

(** The interface StableStore. A writer callback and a reader are what they write or
    read: chunks and an error after them. The reader OpenSnapshot returns is its content
    with the size and the checksum. *)
Class StableStore (S : Type) := {
  store_Persist : Raft.Update -> M S unit;
  store_PersistSnapshot : Raft.Update -> Raftstore.Source -> M S unit;
  store_OpenSnapshot : Z -> M S (bytes * Z * Z);
  store_CloseReader : M S unit;
  store_Close : M S unit
}.

(** The interface StateMachine. *)
Class StateMachine (T : Type) := {
  machine_Apply : Z -> bytes -> M T unit;
  machine_AppliedIndex : T -> Z;
  machine_WriteSnapshot : T -> Raftstore.Source * Z;
  machine_RestoreSnapshot : Z -> Z -> bytes -> M T unit;
  machine_Close : M T unit
}.

Module Runtime.
Import Membership Raft Node Core Raftstore.

(** ** Events and answers *)

Notation chan := nat (only parsing).

Inductive event :=
| proposalEvent (data : bytes) (result : chan)
| membershipEvent (voters : list Z) (result : chan)
| messageEvent (message : Message) (snapshotData : option Source) (result : chan)
| statusEvent (result : chan)
| readEvent (result : chan)
| stopEvent (result : chan).

Inductive answer :=
| proposalResult (index term : Z) (err : option string)
| errorResult (err : option string)
| statusResult (status : Status)
| readResult (index : Z) (err : option string).

Record pendingRead := mkRead { results : list chan; acks : gset Z }.

Definition maxBatchEntries : Z := 256.
Definition maxBatchBytes : Z := 2 ^ 20.

Section runtime.
Context {S T : Type} `{!StableStore S} `{!StateMachine T}.

Record Runtime := mkRuntime {
  node : Node;
  store : S;
  machine : T;
  events : list event;
  capacity : nat;               (** of the event queue *)
  deferred : list event;
  outgoing : list Message;
  pending : gmap Z chan;
  pendingReads : gmap Z pendingRead;
  nextReadContext : Z;
  change : option (list Z * chan);   (** the pending membership change *)
  snapshotThreshold : Z;
  answers : list (chan * answer);
  stopped : bool
}.

Definition with_node x r := mkRuntime x (store r) (machine r) (events r) (capacity r) (deferred r) (outgoing r) (pending r)
  (pendingReads r) (nextReadContext r) (change r) (snapshotThreshold r) (answers r) (stopped r).
Definition with_store x r := mkRuntime (node r) x (machine r) (events r) (capacity r) (deferred r) (outgoing r) (pending r)
  (pendingReads r) (nextReadContext r) (change r) (snapshotThreshold r) (answers r) (stopped r).
Definition with_machine x r := mkRuntime (node r) (store r) x (events r) (capacity r) (deferred r) (outgoing r) (pending r)
  (pendingReads r) (nextReadContext r) (change r) (snapshotThreshold r) (answers r) (stopped r).
Definition with_events x r := mkRuntime (node r) (store r) (machine r) x (capacity r) (deferred r) (outgoing r) (pending r)
  (pendingReads r) (nextReadContext r) (change r) (snapshotThreshold r) (answers r) (stopped r).
Definition with_deferred x r := mkRuntime (node r) (store r) (machine r) (events r) (capacity r) x (outgoing r) (pending r)
  (pendingReads r) (nextReadContext r) (change r) (snapshotThreshold r) (answers r) (stopped r).
Definition with_outgoing x r := mkRuntime (node r) (store r) (machine r) (events r) (capacity r) (deferred r) x (pending r)
  (pendingReads r) (nextReadContext r) (change r) (snapshotThreshold r) (answers r) (stopped r).
Definition with_pending x r := mkRuntime (node r) (store r) (machine r) (events r) (capacity r) (deferred r) (outgoing r) x
  (pendingReads r) (nextReadContext r) (change r) (snapshotThreshold r) (answers r) (stopped r).
Definition with_reads x r := mkRuntime (node r) (store r) (machine r) (events r) (capacity r) (deferred r) (outgoing r) (pending r)
  x (nextReadContext r) (change r) (snapshotThreshold r) (answers r) (stopped r).
Definition with_context x r := mkRuntime (node r) (store r) (machine r) (events r) (capacity r) (deferred r) (outgoing r) (pending r)
  (pendingReads r) x (change r) (snapshotThreshold r) (answers r) (stopped r).
Definition with_change x r := mkRuntime (node r) (store r) (machine r) (events r) (capacity r) (deferred r) (outgoing r) (pending r)
  (pendingReads r) (nextReadContext r) x (snapshotThreshold r) (answers r) (stopped r).
Definition with_answers x r := mkRuntime (node r) (store r) (machine r) (events r) (capacity r) (deferred r) (outgoing r) (pending r)
  (pendingReads r) (nextReadContext r) (change r) (snapshotThreshold r) x (stopped r).
Definition with_stopped x r := mkRuntime (node r) (store r) (machine r) (events r) (capacity r) (deferred r) (outgoing r) (pending r)
  (pendingReads r) (nextReadContext r) (change r) (snapshotThreshold r) (answers r) x.

(** A call of the node, the store or the machine. *)
Definition on_node {A} (m : M Node A) : M Runtime A := zoom node with_node m.
Definition on_store {A} (m : M S A) : M Runtime A := zoom store with_store m.
Definition on_machine {A} (m : M T A) : M Runtime A := zoom machine with_machine m.
Definition get : M Runtime Runtime := gets id.

(** A call of the node whose error is a value. *)
Definition attempt {A} (m : M Node A) : M Runtime (string + A) := fun r =>
  match m (node r) with
  | (Ok a, n') => (Ok (inr a), with_node n' r)
  | (Err e, n') => (Ok (inl e), with_node n' r)
  | (Panic, n') => (Panic, with_node n' r)
  | (Crash, n') => (Crash, with_node n' r)
  end.

(** [fmt.Errorf("what: %w", err)]. *)
Definition wrap {A} (what : string) (m : M Runtime A) : M Runtime A := catch m (fun e => raise (what ++ ": " ++ e)).

Definition respond (ch : chan) (a : answer) : M Runtime unit := modify (fun r => with_answers (answers r ++ [(ch, a)]) r).

(** pendingRead.complete *)
Definition complete (read : pendingRead) (a : answer) : M Runtime unit := mfold (fun ch => respond ch a) (results read).

(** ** Carrying out an update *)

(** Restoring the machine from the snapshot just persisted. *)
Definition restore_snapshot (u : Update) : M Runtime unit := r ← get;
  match u_snapshot u with
  | Some s =>
      if machine_AppliedIndex (machine r) <? s_index s then
        reader ← wrap "open state snapshot" (on_store (store_OpenSnapshot (s_index s)));
        let '(content, size, _) := reader in
        restoreErr ← try_err (on_machine (machine_RestoreSnapshot (s_index s) size content));
        closeErr ← try_err (on_store store_CloseReader);
        match restoreErr, closeErr with
        | Some e, _ => raise ("restore state snapshot: " ++ e)
        | None, Some e => raise ("close state snapshot: " ++ e)
        | None, None => mret tt
        end
      else mret tt
  | None => mret tt
  end.

Definition send (ms : list Message) : M Runtime unit := modify (fun r => with_outgoing (outgoing r ++ ms) r).

(** Answering the proposal that waits at an index. *)
Definition answer_waiter (index term : Z) : M Runtime unit := r ← get;
  match pending r !! index with
  | Some ch => respond ch (proposalResult index term None) ;; modify (fun r => with_pending (delete index (pending r)) r)
  | None => mret tt
  end.

Definition apply_committed (entry : Entry) : M Runtime unit := r ← get;
  let applied := machine_AppliedIndex (machine r) in
  if e_index entry <=? applied then answer_waiter (e_index entry) (e_term entry) else
  if negb (e_index entry =? u64 (applied + 1)) then raise "commit apply gap" else
  match IsMembershipEntry (e_data entry) with
  | (_, Some e) => raise ("decode committed entry: " ++ e)
  | (membership, None) =>
      wrap "apply committed entry" (on_machine (machine_Apply (e_index entry) (if membership then [] else e_data entry))) ;;
      answer_waiter (e_index entry) (e_term entry)
  end.

(** Compacting the log once enough entries were applied since the last snapshot. *)
Definition take_snapshot : M Runtime unit := r ← get;
  let applied := machine_AppliedIndex (machine r) in
  let base := st_SnapshotIndex (status (node r)) in
  if (0 <? snapshotThreshold r) && (base <? applied) && (snapshotThreshold r <=? applied - base) then
    u ← wrap "compact raft log" (on_node (CreateSnapshot applied []));
    let '(source, index) := machine_WriteSnapshot (machine r) in
    let source := match source_error source with
                  | None => if index =? applied then source else mkSource (chunks source) (Some "state snapshot index changed"%string)
                  | Some _ => source
                  end in
    wrap "persist raft snapshot" (on_store (store_PersistSnapshot u source))
  else mret tt.

Definition sameVoters (a b : list Z) : bool :=
  (length a =? length b)%nat && bool_decide (merge_sort Z.le a = merge_sort Z.le b).

Definition resolveMembership : M Runtime unit := r ← get;
  match change r with
  | None => mret tt
  | Some (voters, ch) =>
      let current := st_Membership (status (node r)) in
      if negb (length (JointVoters current) =? 0)%nat || (machine_AppliedIndex (machine r) <? Index current) ||
         negb (sameVoters (Voters current) voters) then mret tt else
      respond ch (proposalResult (Index current) 0 None) ;;
      modify (with_change None)
  end.

(** The error for everyone who waits: the membership change, the proposals, the reads. *)
Definition dismiss (cause : string) : M Runtime unit := r ← get;
  match change r with
  | Some (_, ch) => respond ch (proposalResult 0 0 (Some cause)) ;; modify (with_change None)
  | None => mret tt
  end ;;
  mfold (fun '(index, ch) => respond ch (proposalResult index 0 (Some cause))) (map_to_list (pending r)) ;;
  mfold (fun '(_, read) => complete read (readResult 0 (Some cause))) (map_to_list (pendingReads r)).

(** The clients of a node that is no longer leader. *)
Definition step_down (u : Update) : M Runtime unit := r ← get;
  if u_roleChanged u && negb (bool_decide (st_Role (status (node r)) = Leader)) then
    dismiss ErrNotLeader ;;
    modify (with_pending ∅) ;;
    modify (with_reads ∅)
  else mret tt.

Definition processUpdateWithSnapshot (u : Update) (snapshotData : option Source) : M Runtime unit :=
  wrap "persist raft update"
    (match u_snapshot u, snapshotData with
     | Some _, Some source => on_store (store_PersistSnapshot u source)
     | _, _ => on_store (store_Persist u)
     end) ;;
  restore_snapshot u ;;
  send (u_messages u) ;;
  mfold apply_committed (u_committed u) ;;
  take_snapshot ;;
  resolveMembership ;;
  step_down u.

Definition processUpdate (u : Update) : M Runtime unit := processUpdateWithSnapshot u None.

(** ** Proposals *)

Definition proposalBytes (data : bytes) : Z :=
  if MaxEntryBytes <? Z.of_nat (length data) then 0 else Z.of_nat (length data) + EntryOverheadBytes.

(** The loop of drainProposals over what is queued: the batch, the other events, and
    what is left in the queue. [limit] bounds the events read. *)
Fixpoint drain_proposals (limit : nat) (queue : list event) (batch : list (bytes * chan)) (size : Z) (others : list event)
    : list (bytes * chan) * list event * list event :=
  match limit with
  | O => (batch, others, queue)
  | Datatypes.S limit' =>
      if (Z.of_nat (length batch) <? maxBatchEntries) && (size <? maxBatchBytes) then
        match queue with
        | [] => (batch, others, queue)
        | proposalEvent data ch :: queue' =>
            if maxBatchBytes <? size + proposalBytes data then (batch, others ++ [proposalEvent data ch], queue')
            else drain_proposals limit' queue' (batch ++ [(data, ch)]) (size + proposalBytes data) others
        | other :: queue' => drain_proposals limit' queue' batch size (others ++ [other])
        end
      else (batch, others, queue)
  end.

Definition drainProposals (data : bytes) (ch : chan) : M Runtime (list (bytes * chan) * list event) := r ← get;
  let '(batch, others, queue) := drain_proposals (capacity r) (events r) [(data, ch)] (proposalBytes data) [] in
  modify (with_events queue) ;;
  mret (batch, others).

(** Each proposal waits at its index; one that is too large is answered at once. *)
Fixpoint register (batch : list (bytes * chan)) (indexes : list Z) : M Runtime unit :=
  match batch, indexes with
  | (_, ch) :: batch', index :: indexes' =>
      (if index =? 0 then respond ch (proposalResult 0 0 (Some ErrEntryTooLarge))
       else modify (fun r => with_pending (<[index := ch]> (pending r)) r)) ;;
      register batch' indexes'
  | [], _ => mret tt
  | _ :: _, [] => of_res Panic
  end.

Definition proposeBatch (batch : list (bytes * chan)) : M Runtime unit :=
  result ← attempt (ProposeBatch (batch.*1));
  match result with
  | inr (indexes, u) =>
      register batch indexes ;;
      if (length (u_entries u) =? 0)%nat then mret tt else processUpdate u
  | inl e => mfold (fun '(_, ch) => respond ch (proposalResult 0 0 (Some e))) batch
  end.

(** ** Reads *)

(** The reads at the head of the deferred events. *)
Fixpoint leading_reads (deferred : list event) : list chan * list event :=
  match deferred with
  | readEvent ch :: deferred' => let '(reads, rest) := leading_reads deferred' in (ch :: reads, rest)
  | _ => ([], deferred)
  end.

(** The loop over what is queued: the reads, the other events, what is left. *)
Fixpoint queued_reads (limit : nat) (queue : list event) (reads : list chan) (others : list event)
    : list chan * list event * list event :=
  match limit, queue with
  | Datatypes.S limit', readEvent ch :: queue' => queued_reads limit' queue' (reads ++ [ch]) others
  | Datatypes.S limit', other :: queue' => queued_reads limit' queue' reads (others ++ [other])
  | _, _ => (reads, others, queue)
  end.

Definition collectReads (ch : chan) : M Runtime (list chan) := r ← get;
  match deferred r with
  | _ :: _ =>
      let '(reads, rest) := leading_reads (deferred r) in
      modify (with_deferred rest) ;; mret (ch :: reads)
  | [] =>
      let '(reads, others, queue) := queued_reads (capacity r) (events r) [ch] [] in
      modify (with_events queue) ;; modify (with_deferred others) ;; mret reads
  end.

Definition handle_read (ch : chan) : M Runtime unit :=
  reads ← collectReads ch;
  r ← get;
  let read := mkRead reads {[st_ID (status (node r))]} in
  let contextID := u64 (nextReadContext r + 1) in
  modify (with_context contextID) ;;
  result ← attempt (ReadProbe contextID);
  match result with
  | inl e => complete read (readResult 0 (Some e))
  | inr u =>
      modify (fun r => with_reads (<[contextID := read]> (pendingReads r)) r) ;;
      processUpdate u ;;
      r ← get;
      if HasQuorum (node r) (acks read) then
        complete read (readResult (st_CommitIndex (status (node r))) None) ;;
        modify (fun r => with_reads (delete contextID (pendingReads r)) r)
      else mret tt
  end.

Definition acknowledgeRead (message : Message) : M Runtime unit := r ← get;
  match pendingReads r !! m_context message with
  | None => mret tt
  | Some read =>
      if negb (bool_decide (st_Role (status (node r)) = Leader)) || negb (m_term message =? st_Term (status (node r))) then mret tt else
      let read := mkRead (results read) ({[m_from message]} ∪ acks read) in
      modify (fun r => with_reads (<[m_context message := read]> (pendingReads r)) r) ;;
      if negb (HasQuorum (node r) (acks read)) then mret tt else
      let index := st_CommitIndex (status (node r)) in
      if machine_AppliedIndex (machine r) <? index then mret tt else
      complete read (readResult index None) ;;
      modify (fun r => with_reads (delete (m_context message) (pendingReads r)) r)
  end.

(** ** Appends *)

Definition appendLoad (m : Message) : Z * Z :=
  (Z.of_nat (length (m_entries m)), foldr (fun e n => Z.of_nat (length (e_data e)) + EntryOverheadBytes + n) 0 (m_entries m)).

Fixpoint drain_appends (limit : nat) (from : Z) (queue : list event) (group : list (Message * chan)) (count size : Z) (others : list event)
    : list (Message * chan) * list event * list event :=
  match limit with
  | O => (group, others, queue)
  | Datatypes.S limit' =>
      if (count <? maxBatchEntries) && (size <? maxBatchBytes) then
        match queue with
        | [] => (group, others, queue)
        | messageEvent m None ch :: queue' =>
            if negb (bool_decide (m_type m = MsgAppend)) || negb (m_from m =? from)
            then drain_appends limit' from queue' group count size (others ++ [messageEvent m None ch]) else
            let '(c, b) := appendLoad m in
            if (maxBatchEntries <? count + c) || (maxBatchBytes <? size + b) then (group, others ++ [messageEvent m None ch], queue')
            else drain_appends limit' from queue' (group ++ [(m, ch)]) (count + c) (size + b) others
        | other :: queue' => drain_appends limit' from queue' group count size (others ++ [other])
        end
      else (group, others, queue)
  end.

Definition drainAppends (m : Message) (ch : chan) : M Runtime (list (Message * chan) * list event) := r ← get;
  let '(count, size) := appendLoad m in
  let '(group, others, queue) := drain_appends (capacity r) (m_from m) (events r) [(m, ch)] count size [] in
  modify (with_events queue) ;;
  mret (group, others).

Definition respond_all (chs : list chan) (a : answer) : M Runtime unit := mfold (fun ch => respond ch a) chs.

(** Persisting what was merged; those that wait for it get its error. *)
Definition flush (merged : Update) (waiting : list chan) : M Runtime unit :=
  if (length waiting =? 0)%nat then mret tt else
  e ← try_err (processUpdate merged);
  respond_all waiting (errorResult e) ;;
  match e with Some e => raise e | None => mret tt end.

(** An update that only appends, commits and answers. *)
Definition mergeable (u : Update) : bool :=
  match u_hardState u, u_snapshot u with None, None => (u_truncateFrom u =? 0) && negb (u_roleChanged u) | _, _ => false end.

Definition merge_append (merged u : Update) : Update :=
  mkUpdate (u_hardState merged) (u_truncateFrom merged) (u_entries merged ++ u_entries u) (u_messages merged ++ u_messages u)
    (u_committed merged ++ u_committed u) (u_roleChanged merged) (u_snapshot merged) (u_droppedAppend merged).

Fixpoint step_appends (group : list (Message * chan)) (merged : Update) (waiting : list chan) : M Runtime unit :=
  match group with
  | [] => flush merged waiting
  | (m, ch) :: group' =>
      u ← on_node (Step m);
      if mergeable u then step_appends group' (merge_append merged u) (waiting ++ [ch]) else
      catch (flush merged waiting) (fun e => respond_all (ch :: group'.*2) (errorResult (Some e)) ;; raise e) ;;
      e ← try_err (processUpdate u);
      respond ch (errorResult e) ;;
      match e with
      | Some e => respond_all (group'.*2) (errorResult (Some e)) ;; raise e
      | None => step_appends group' noUpdate []
      end
  end.

Definition stepAppends (group : list (Message * chan)) : M Runtime unit := step_appends group noUpdate [].

(** ** The loop *)

Definition closeResources : M Runtime (option string) :=
  first ← try_err (on_machine machine_Close);
  second ← try_err (on_store store_Close);
  mret (match first with Some e => Some e | None => second end).

(** The loop ends with an error: everyone who waits gets it. *)
Definition fail (cause : string) : M Runtime unit :=
  dismiss cause ;;
  modify (with_reads ∅) ;;
  closeResources ;;
  modify (with_stopped true).

Definition handle_membership (voters : list Z) (ch : chan) : M Runtime unit :=
  result ← attempt (ProposeMembership voters);
  match result with
  | inl e => respond ch (proposalResult 0 0 (Some e))
  | inr (index, u) =>
      r ← get;
      if index <=? st_CommitIndex (status (node r)) then respond ch (proposalResult index 0 None) else
      modify (with_change (Some (voters, ch))) ;;
      processUpdate u
  end.

Definition handle_message (m : Message) (data : option Source) (ch : chan) : M Runtime unit :=
  u ← on_node (Step m);
  e ← try_err (processUpdateWithSnapshot u data);
  match e with
  | None => if bool_decide (m_type m = MsgAppendResponse) && negb (m_reject m) && negb (m_context m =? 0)
            then acknowledgeRead m else mret tt
  | Some _ => mret tt
  end ;;
  respond ch (errorResult e) ;;
  match e with Some e => raise e | None => mret tt end.

Definition handle (ev : event) : M Runtime unit := r ← get;
  match ev with
  | proposalEvent data ch =>
      match deferred r with
      | [] => drained ← drainProposals data ch; modify (with_deferred drained.2) ;; proposeBatch drained.1
      | _ => proposeBatch [(data, ch)]
      end
  | membershipEvent voters ch => handle_membership voters ch
  | messageEvent m data ch =>
      match data, deferred r with
      | None, [] =>
          if bool_decide (m_type m = MsgAppend) then
            drained ← drainAppends m ch; modify (with_deferred drained.2) ;; stepAppends drained.1
          else handle_message m data ch
      | _, _ => handle_message m data ch
      end
  | statusEvent ch => respond ch (statusResult (status (node r)))
  | readEvent ch => handle_read ch
  | stopEvent ch => e ← closeResources; respond ch (errorResult e) ;; modify (with_stopped true)
  end.

(** What moves a runtime: a tick, the next event, and clients that queue requests while
    there is room. *)
Inductive turn := TurnTick | TurnEvent | Submit (ev : event).

Definition guarded (m : M Runtime unit) : M Runtime unit := catch m fail.

Definition run (t : turn) : M Runtime unit := r ← get;
  if stopped r then mret tt else
  match t with
  | Submit ev => if (length (events r) <? capacity r)%nat then modify (with_events (events r ++ [ev])) else mret tt
  | TurnEvent =>
      match deferred r, events r with
      | ev :: rest, _ => modify (with_deferred rest) ;; guarded (handle ev)
      | [], ev :: rest => modify (with_events rest) ;; guarded (handle ev)
      | [], [] => mret tt
      end
  | TurnTick =>
      match deferred r with
      | [] => guarded (u ← on_node Tick; processUpdate u)
      | _ => mret tt
      end
  end.

(** Start: the loop before its first turn. *)
Definition Start (tickPositive : bool) (queueSize threshold : Z) (n : Node) (s : S) (m : T) : res Runtime :=
  if negb tickPositive then Err "raft runtime tick interval must be positive" else
  let size := if queueSize <=? 0 then 256 else queueSize in
  Ok (mkRuntime n s m [] (Z.to_nat size) [] [] ∅ ∅ 0 None threshold [] false).

(** What the sending goroutine hands to the transport for a message of the queue: the
    message, and for a snapshot the content, size and checksum of the durable one. A
    snapshot that is no longer durable is not sent. *)
Definition transmit (m : Message) : M S (option (Message * option (bytes * Z * Z))) :=
  if negb (bool_decide (m_type m = MsgSnapshot)) then mret (Some (m, None)) else
  match m_snapshot m with
  | None => mret None
  | Some s => catch (reader ← store_OpenSnapshot (s_index s); ignore store_CloseReader ;; mret (Some (m, Some reader))) (fun _ => mret None)
  end.

End runtime.
End Runtime.
