(* ===== verification/Loop.v ===== *)
(** * The promises of the runtime

    What holds of every turn of the event loop in Runtime: a request is answered at most
    once, and the batches it makes respect their limits and lose no event. A store and a
    machine in memory run the loop in examples; one of them is an execution in which a
    leader that was deposed acknowledges a write that is lost. *)

From S2P Require Import Prelude GoStd Fs Json Membership RaftTypes RaftNode RaftCore RaftRefine RaftHandlers RaftOps RaftApi RaftCluster Raftstore Stable Runtime.

Module Loop.
Import Raftstore Stable Membership Raft Node Core Cluster Runtime.

(** ** Who waits for an answer *)

Definition event_chan (ev : event) : chan :=
  match ev with
  | proposalEvent _ ch | membershipEvent _ ch | messageEvent _ _ ch | statusEvent ch | readEvent ch | stopEvent ch => ch
  end.

(** Lists of channels are compared as multisets. *)
#[local] Instance app_submseteq {A} : Proper (submseteq ==> submseteq ==> submseteq) (@app A).
Proof. intros l1 l2 H k1 k2 H'. by apply submseteq_app. Qed.

Section answers.
Context {S T : Type} `{!StableStore S} `{!StateMachine T}.
Implicit Types r : @Runtime S T.

Definition read_chans (m : gmap Z pendingRead) : list chan := concat (results <$> (map_to_list m).*2).
Definition change_chans (c : option (list Z * chan)) : list chan := match c with Some (_, ch) => [ch] | None => [] end.

(** The channels the loop will still answer; a loop that ended answered all but those of
    the events it never read. *)
Definition waiters r : list chan := (map_to_list (pending r)).*2 ++ read_chans (pendingReads r) ++ change_chans (change r).
Definition queued r : list chan := event_chan <$> events r ++ deferred r.
Definition account r : list chan := (answers r).*1 ++ queued r ++ (if stopped r then [] else waiters r).

(** [spends L m L']: m, holding the channels L, answers or stores some of them and leaves
    the rest, L', to its caller; no channel appears twice. *)
Definition settled {A} (L : list chan) r (o : res A * Runtime) (L' : A -> list chan) : Prop :=
  match o with
  | (Ok a, r') => L' a ++ account r' ⊆+ L ++ account r /\ stopped r' = false
  | (Err _, r') => account r' ⊆+ L ++ account r /\ stopped r' = false
  | _ => True
  end.
Definition spends {A} (L : list chan) (m : M Runtime A) (L' : A -> list chan) : Prop :=
  forall r, stopped r = false -> settled L r (m r) L'.

(** Going on from a state with its account. *)
Lemma settled_from {A} L1 r1 L r (m : M Runtime A) L' :
  spends L1 m L' -> stopped r1 = false -> L1 ++ account r1 ⊆+ L ++ account r -> settled L r (m r1) L'.
Proof.
  intros Hm Hs HL. specialize (Hm r1 Hs). unfold settled in *. destruct (m r1) as [[a|e| |] r2]; try done; destruct Hm as [H Hs2];
    (split; [by etrans|done]).
Qed.

Lemma spends_ret {A} L (a : A) : spends L (mret a) (fun _ => L).
Proof. intros r Hr. by split. Qed.

Lemma spends_bind {A B} L (m : M Runtime A) (f : A -> M Runtime B) L1 L2 :
  spends L m L1 -> (forall a, spends (L1 a) (f a) L2) -> spends L (m ≫= f) L2.
Proof.
  intros Hm Hf r Hr. specialize (Hm r Hr). unfold mbind, M_bind. destruct (m r) as [[a|e| |] r1]; try done.
  destruct Hm as [H1 Hs]. specialize (Hf a r1 Hs). destruct (f a r1) as [[b|e| |] r2]; try done; destruct Hf as [H2 Hs2];
    (split; [by etrans|done]).
Qed.

(** Channels not involved. *)
Lemma spends_frame {A} F L (m : M Runtime A) L' : spends L m L' -> spends (F ++ L) m (fun a => F ++ L' a).
Proof.
  intros H r Hr. specialize (H r Hr). unfold settled in *; destruct (m r) as [[a|e| |] r1]; try done; destruct H as [H Hs]; (split; [|done]).
  - rewrite <- !app_assoc. by apply submseteq_skips_l.
  - rewrite <- app_assoc. etrans; [exact H|]. by apply submseteq_inserts_l.
Qed.

Lemma spends_weaken {A} L L1 (m : M Runtime A) L' L1' :
  spends L m L' -> L ⊆+ L1 -> (forall a, L1' a ⊆+ L' a) -> spends L1 m L1'.
Proof.
  intros H HL HL' r Hr. specialize (H r Hr). unfold settled in *; destruct (m r) as [[a|e| |] r1]; try done; destruct H as [H Hs]; (split; [|done]).
  - etrans; [by apply submseteq_skips_r, HL'|]. etrans; [exact H|]. by apply submseteq_skips_r.
  - etrans; [exact H|]. by apply submseteq_skips_r.
Qed.

(** ** Parts of the state a computation leaves alone *)

Section leaves.
Context {X : Type} (f : @Runtime S T -> X).

Definition leaves {A} (m : M (@Runtime S T) A) : Prop := forall r, f (m r).2 = f r.

Lemma leaves_ret {A} (a : A) : leaves (mret a).
Proof. done. Qed.
Lemma leaves_raise {A} e : leaves (raise e : M Runtime A).
Proof. done. Qed.
Lemma leaves_modify g : (forall r, f (g r) = f r) -> leaves (modify g).
Proof. intros H r. apply H. Qed.

Lemma leaves_bind {A B} (m : M Runtime A) (k : A -> M Runtime B) : leaves m -> (forall a, leaves (k a)) -> leaves (m ≫= k).
Proof.
  intros Hm Hk r. specialize (Hm r). unfold mbind, M_bind. destruct (m r) as [[a|e| |] r1]; cbn in *; try done. by rewrite (Hk a r1).
Qed.

Lemma leaves_catch {A} (m : M Runtime A) h : leaves m -> (forall e, leaves (h e)) -> leaves (catch m h).
Proof.
  intros Hm Hh r. specialize (Hm r). unfold catch. destruct (m r) as [[a|e| |] r1]; cbn in *; try done. by rewrite (Hh e r1).
Qed.

Lemma leaves_wrap {A} what (m : M Runtime A) : leaves m -> leaves (wrap what m).
Proof. intros Hm. apply leaves_catch; [done|]. intros e. apply leaves_raise. Qed.

Lemma leaves_try_err {A} (m : M Runtime A) : leaves m -> leaves (try_err m).
Proof. intros Hm r. specialize (Hm r). unfold try_err. by destruct (m r) as [[a|e| |] r1]. Qed.

Lemma leaves_get {A} (k : Runtime -> M Runtime A) : (forall r, leaves (k r)) -> leaves (get ≫= k).
Proof. intros H r. apply H. Qed.

Lemma leaves_mfold {A} (g : A -> M Runtime unit) l : (forall x, leaves (g x)) -> leaves (mfold g l).
Proof. intros H. induction l as [|x l IH]; [apply leaves_ret|]. apply leaves_bind; [apply H|done]. Qed.

(** A part that is not of the node, the store or the machine. *)
Context (Hn : forall n r, f (with_node n r) = f r) (Hst : forall s r, f (with_store s r) = f r) (Hm : forall t r, f (with_machine t r) = f r).
Context (Ho : forall l r, f (with_outgoing l r) = f r).

Lemma leaves_node {A} (m : M Node A) : leaves (on_node m).
Proof. intros r. unfold on_node, zoom. destruct (m (node r)). apply Hn. Qed.
Lemma leaves_attempt {A} (m : M Node A) : leaves (attempt m).
Proof. intros r. unfold attempt. destruct (m (node r)) as [[] ?]; apply Hn. Qed.
Lemma leaves_store {A} (m : M S A) : leaves (on_store m).
Proof. intros r. unfold on_store, zoom. destruct (m (store r)). apply Hst. Qed.
Lemma leaves_machine {A} (m : M T A) : leaves (on_machine m).
Proof. intros r. unfold on_machine, zoom. destruct (m (machine r)). apply Hm. Qed.

Lemma leaves_restore u : leaves (restore_snapshot u).
Proof.
  apply leaves_get. intros r. destruct (u_snapshot u) as [s|]; [|apply leaves_ret]. destruct (_ <? _); [|apply leaves_ret].
  apply leaves_bind; [apply leaves_wrap, leaves_store|]. intros [[content size] sum].
  apply leaves_bind; [apply leaves_try_err, leaves_machine|]. intros e1. apply leaves_bind; [apply leaves_try_err, leaves_store|].
  intros e2. destruct e1, e2; apply leaves_raise || apply leaves_ret.
Qed.

Lemma leaves_take_snapshot : leaves take_snapshot.
Proof.
  apply leaves_get. intros r. cbv zeta. destruct (_ && _ && _); [|apply leaves_ret].
  apply leaves_bind; [apply leaves_wrap, leaves_node|]. intros u.
  destruct (machine_WriteSnapshot _) as [src i]. apply leaves_wrap, leaves_store.
Qed.

Lemma leaves_persist u data : leaves (wrap "persist raft update"
  (match u_snapshot u, data with Some _, Some source => on_store (store_PersistSnapshot u source) | _, _ => on_store (store_Persist u) end)).
Proof. apply leaves_wrap. destruct (u_snapshot u), data; apply leaves_store. Qed.

(** Nor of the answers. *)
Context (Hp : forall p r, f (with_pending p r) = f r) (Ha : forall l r, f (with_answers l r) = f r).

Lemma leaves_respond ch a : leaves (respond ch a).
Proof. apply leaves_modify. intros r. apply Ha. Qed.

Lemma leaves_answer_waiter i t : leaves (answer_waiter i t).
Proof.
  apply leaves_get. intros r. destruct (pending r !! i); [|apply leaves_ret].
  apply leaves_bind; [apply leaves_respond|intros _; by apply leaves_modify].
Qed.

Lemma leaves_apply e : leaves (apply_committed e).
Proof.
  apply leaves_get. intros r. cbv zeta. destruct (_ <=? _); [apply leaves_answer_waiter|].
  destruct (negb _); [apply leaves_raise|]. destruct (IsMembershipEntry _) as [b [e'|]]; [apply leaves_raise|].
  apply leaves_bind; [apply leaves_wrap, leaves_machine|intros _; apply leaves_answer_waiter].
Qed.

Context (Hc : forall c r, f (with_change c r) = f r).

Lemma leaves_resolve : leaves resolveMembership.
Proof.
  apply leaves_get. intros r. destruct (change r) as [[v ch]|]; [|apply leaves_ret]. cbv zeta. destruct (_ || _); [apply leaves_ret|].
  apply leaves_bind; [apply leaves_respond|intros _; by apply leaves_modify].
Qed.

Lemma leaves_complete rd a : leaves (complete rd a).
Proof. apply leaves_mfold. intros ch. apply leaves_respond. Qed.

Lemma leaves_dismiss e : leaves (dismiss e).
Proof.
  apply leaves_get. intros r. apply leaves_bind; [|intros _; apply leaves_bind].
  - destruct (change r) as [[v ch]|]; [|apply leaves_ret]. apply leaves_bind; [apply leaves_respond|intros _; by apply leaves_modify].
  - apply leaves_mfold. intros [i ch]. apply leaves_respond.
  - intros _. apply leaves_mfold. intros [i rd]. apply leaves_complete.
Qed.
End leaves.

Definition books r : list chan * bool := (account r, stopped r).

Lemma spends_quiet {A} (m : M Runtime A) L : leaves books m -> spends L m (fun _ => L).
Proof.
  intros H r Hr. specialize (H r). unfold books, settled in *. destruct (m r) as [[a|e| |] r1]; simpl in *; try done;
    injection H as Ha Hs; rewrite Ha, Hs; (split; [|done]); [done|by apply submseteq_inserts_l].
Qed.

(** Errors as values, and handlers. *)
Lemma spends_try_err {A} (m : M Runtime A) L : spends [] m (fun _ => []) -> spends L (try_err m) (fun _ => L).
Proof.
  intros H r Hr. specialize (H r Hr). unfold try_err. unfold settled in *; destruct (m r) as [[a|e| |] r1]; try done; destruct H as [H Hs];
    (split; [by apply submseteq_skips_l|done]).
Qed.

Lemma spends_catch {A} L F (m : M Runtime A) h :
  spends L m (fun _ => []) -> (forall e, spends F (h e) (fun _ => F)) -> spends (F ++ L) (catch m h) (fun _ => F).
Proof.
  intros Hm Hh r Hr. specialize (Hm r Hr). unfold catch. unfold settled in *; destruct (m r) as [[a|e| |] r1]; try done; destruct Hm as [H Hs].
  - split; [|done]. rewrite <- app_assoc. by apply submseteq_skips_l.
  - specialize (Hh e r1 Hs). assert (F ++ account r1 ⊆+ (F ++ L) ++ account r) by (rewrite <- app_assoc; by apply submseteq_skips_l).
    destruct (h e r1) as [[b|e'| |] r2]; try done; destruct Hh as [H2 Hs2]; (split; [by etrans|done]).
Qed.

Lemma spends_raise {A} L e L' : spends L (raise e : M Runtime A) L'.
Proof. intros r Hr. split; [by apply submseteq_inserts_l|done]. Qed.

(** ** Answering *)

Lemma spends_respond ch a : spends [ch] (respond ch a) (fun _ => []).
Proof.
  intros r Hr. split; [|done]. unfold account, queued, waiters. cbn. rewrite fmap_app. cbn. rewrite <- app_assoc. cbn.
  by rewrite <- Permutation_middle.
Qed.

Lemma spends_mfold {A} (f : A -> M Runtime unit) (L : A -> list chan) l :
  (forall x, spends (L x) (f x) (fun _ => [])) -> spends (concat (L <$> l)) (mfold f l) (fun _ => []).
Proof.
  intros H. induction l as [|x l IH]; [apply spends_ret|]. cbn [mfold fmap list_fmap concat].
  eapply spends_bind; [|intros a; exact IH].
  eapply spends_weaken; [apply (spends_frame (concat (L <$> l))), H|by rewrite (Permutation_app_comm (L x))|].
  intros ?. cbv beta. by rewrite app_nil_r.
Qed.

Lemma spends_respond_all chs a : spends chs (respond_all chs a) (fun _ => []).
Proof.
  eapply spends_weaken; [apply (spends_mfold _ (fun ch => [ch])); intros ch; apply spends_respond| |done].
  induction chs as [|ch chs IH]; [done|]. cbn. by apply submseteq_skip.
Qed.

Lemma spends_complete rd a : spends (results rd) (complete rd a) (fun _ => []).
Proof. apply spends_respond_all. Qed.

(** ** The channels in the maps *)

Lemma chans_insert (m : gmap Z chan) i ch : (map_to_list (<[i := ch]> m)).*2 ⊆+ ch :: (map_to_list m).*2.
Proof.
  rewrite <- insert_delete_eq, map_to_list_insert by apply lookup_delete_eq. cbn. apply submseteq_skip.
  destruct (m !! i) as [x|] eqn:E; [|by rewrite delete_id].
  rewrite <- (map_to_list_delete m i x E). cbn. by apply submseteq_cons.
Qed.

Lemma chans_delete (m : gmap Z chan) i ch : m !! i = Some ch -> ch :: (map_to_list (delete i m)).*2 ≡ₚ (map_to_list m).*2.
Proof. intros E. by rewrite <- (map_to_list_delete m i ch E). Qed.

Lemma read_chans_insert m i rd : read_chans (<[i := rd]> m) ⊆+ results rd ++ read_chans m.
Proof.
  unfold read_chans. rewrite <- insert_delete_eq, map_to_list_insert by apply lookup_delete_eq. cbn. apply submseteq_skips_l.
  destruct (m !! i) as [x|] eqn:E; [|by rewrite delete_id].
  rewrite <- (map_to_list_delete m i x E). cbn. by apply submseteq_inserts_l.
Qed.

Lemma read_chans_delete m i rd : m !! i = Some rd -> results rd ++ read_chans (delete i m) ≡ₚ read_chans m.
Proof. intros E. unfold read_chans. by rewrite <- (map_to_list_delete m i rd E). Qed.

(** ** An update *)

Lemma spends_answer_waiter index tm : spends [] (answer_waiter index tm) (fun _ => []).
Proof.
  intros r Hr. unfold answer_waiter, mbind, M_bind, get, gets, id. destruct (pending r !! index) as [ch|] eqn:E; [|by split].
  cbn. split; [|done]. unfold account, queued, waiters. cbn. rewrite Hr, fmap_app, <- (chans_delete _ _ _ E). cbn.
  rewrite <- app_assoc. cbn. solve_submseteq.
Qed.

Lemma spends_resolve : spends [] resolveMembership (fun _ => []).
Proof.
  intros r Hr. unfold resolveMembership, mbind, M_bind, get, gets, id. destruct (change r) as [[voters ch]|] eqn:E; [|by split].
  destruct (_ || _); [by split|]. cbn. split; [|done]. unfold account, queued, waiters. cbn. rewrite Hr, E, fmap_app. cbn.
  rewrite app_nil_r. solve_submseteq.
Qed.

(** Answering a list of channels leaves everything else. *)
Lemma mfold_respond {A} (g : A -> M Runtime unit) (f : A -> list (chan * answer)) l r :
  (forall x r, g x r = (Ok tt, with_answers (answers r ++ f x) r)) ->
  mfold g l r = (Ok tt, with_answers (answers r ++ concat (f <$> l)) r).
Proof.
  intros Hg. revert r. induction l as [|x l IH]; intros r; cbn [mfold fmap list_fmap concat].
  - rewrite app_nil_r. by destruct r.
  - unfold mbind, M_bind. rewrite Hg, IH. cbn. by rewrite app_assoc.
Qed.

Lemma complete_eq rd a r : complete rd a r = (Ok tt, with_answers (answers r ++ ((fun ch => (ch, a)) <$> results rd)) r).
Proof.
  unfold complete. rewrite (mfold_respond _ (fun ch => [(ch, a)])) by done. do 3 f_equal.
  induction (results rd) as [|ch l IH]; [done|]. cbn. by rewrite IH.
Qed.

(** The answers to everyone who waits, as step_down and fail send them. *)
Definition dismissals (e : string) r : list (chan * answer) :=
  ((fun ch => (ch, proposalResult 0 0 (Some e))) <$> change_chans (change r)) ++
  concat ((fun '(index, ch) => [(ch, proposalResult index 0 (Some e))]) <$> map_to_list (pending r)) ++
  concat ((fun '(_, rd) => (fun ch => (ch, readResult 0 (Some e))) <$> results rd) <$> map_to_list (pendingReads r)).

Lemma fst_pair (a : answer) (l : list chan) : ((fun ch => (ch, a)) <$> l).*1 = l.
Proof. induction l as [|ch l IH]; [done|]. cbn. by rewrite IH. Qed.

Lemma dismissals_chans e r : (dismissals e r).*1 ≡ₚ waiters r.
Proof.
  unfold dismissals, waiters, read_chans. rewrite !fmap_app, fst_pair.
  replace ((concat _).*1) with ((map_to_list (pending r)).*2).
  2:{ induction (map_to_list (pending r)) as [|[i ch] l IH]; [done|]. cbn. by rewrite IH. }
  replace ((concat _).*1) with (concat (results <$> (map_to_list (pendingReads r)).*2)).
  2:{ induction (map_to_list (pendingReads r)) as [|[i rd] l IH]; [done|]. cbn. by rewrite fmap_app, fst_pair, IH. }
  solve_Permutation.
Qed.

Lemma dismiss_eq e r : dismiss e r = (Ok tt, with_change None (with_answers (answers r ++ dismissals e r) r)).
Proof.
  unfold dismiss, mbind, M_bind, get, gets, id.
  assert ((match change r with
    | Some (_, ch) => respond ch (proposalResult 0 0 (Some e)) ;; modify (with_change None)
    | None => mret tt
    end) r = (Ok tt, with_change None
      (with_answers (answers r ++ ((fun ch => (ch, proposalResult 0 0 (Some e))) <$> change_chans (change r))) r))) as Hc.
  { destruct (change r) as [[v ch]|] eqn:E; cbn; [done|]. rewrite app_nil_r. destruct r; cbn in *. by subst. }
  unfold mbind, M_bind in Hc. rewrite Hc.
  rewrite (mfold_respond _ (fun '(index, ch) => [(ch, proposalResult index 0 (Some e))])) by (by intros [i ch] r0).
  rewrite (mfold_respond _ (fun '(_, rd) => (fun ch => (ch, readResult 0 (Some e))) <$> results rd))
    by (intros [i rd] r0; apply complete_eq).
  unfold dismissals. destruct r. cbn. by rewrite !app_assoc.
Qed.

Lemma spends_step_down u : spends [] (step_down u) (fun _ => []).
Proof.
  intros r Hr. unfold step_down, mbind, M_bind, get, gets, id. destruct (_ && _); [|by split]. rewrite dismiss_eq. cbn.
  split; [|done]. unfold account, queued, waiters at 1, read_chans at 1. cbn.
  rewrite Hr, fmap_app, dismissals_chans, !map_to_list_empty. cbn. rewrite app_nil_r. solve_submseteq.
Qed.

Lemma spends_get {A} L (f : Runtime -> M Runtime A) L' : (forall r, spends L (f r) L') -> spends L (get ≫= f) L'.
Proof. intros H r Hr. by apply H. Qed.

Lemma spends_seq {A B} L (m : M Runtime A) (k : A -> M Runtime B) L' :
  spends [] m (fun _ => []) -> (forall a, spends L (k a) L') -> spends L (m ≫= k) L'.
Proof.
  intros Hm Hk. eapply (spends_bind _ _ _ (fun _ => L)); [|done].
  eapply spends_weaken; [apply (spends_frame L), Hm|by rewrite app_nil_r|]. intros a. cbv beta. by rewrite app_nil_r.
Qed.

Lemma spends_apply e : spends [] (apply_committed e) (fun _ => []).
Proof.
  apply spends_get. intros r. cbv zeta. destruct (_ <=? _); [apply spends_answer_waiter|]. destruct (negb _); [apply spends_raise|].
  destruct (IsMembershipEntry _) as [b [e'|]]; [apply spends_raise|].
  apply spends_seq; [|intros _; apply spends_answer_waiter].
  by apply spends_quiet, leaves_wrap, leaves_machine.
Qed.

Lemma spends_update u data : spends [] (processUpdateWithSnapshot u data) (fun _ => []).
Proof.
  unfold processUpdateWithSnapshot. apply spends_seq; [|intros _].
  { by apply spends_quiet, leaves_persist. }
  apply spends_seq; [by apply spends_quiet, leaves_restore|intros _]. apply spends_seq; [by apply spends_quiet, leaves_modify|intros _].
  apply spends_seq; [|intros _].
  { eapply spends_weaken; [apply (spends_mfold _ (fun _ => [])), spends_apply| |done].
    induction (u_committed u); [done|]. by cbn. }
  apply spends_seq; [by apply spends_quiet, leaves_take_snapshot|intros _]. apply spends_seq; [apply spends_resolve|intros _].
  apply spends_step_down.
Qed.

(** ** Proposals *)

Lemma spends_register batch indexes : spends (batch.*2) (register batch indexes) (fun _ => []).
Proof.
  revert indexes. induction batch as [|[data ch] batch IH]; intros indexes; [apply spends_ret|].
  destruct indexes as [|index indexes]; [by intros r Hr|]. cbn [register fmap list_fmap snd].
  apply (spends_bind _ _ _ (fun _ => batch.*2)); [|intros _; apply IH].
  eapply spends_weaken; [apply (spends_frame (batch.*2) [ch])| |].
  - destruct (index =? 0); [apply spends_respond|]. intros r Hr. split; [|done]. unfold account, queued, waiters. cbn. rewrite Hr.
    rewrite chans_insert. solve_submseteq.
  - by rewrite (Permutation_app_comm (batch.*2)).
  - intros ?. cbv beta. by rewrite app_nil_r.
Qed.

Lemma spends_propose batch : spends (batch.*2) (proposeBatch batch) (fun _ => []).
Proof.
  eapply spends_bind; [by apply spends_quiet, leaves_attempt|]. intros [e|[indexes u]].
  - eapply spends_weaken; [apply (spends_mfold _ (fun '(_, ch) => [ch])); intros [d ch]; apply spends_respond| |done].
    induction batch as [|[d ch] batch IH]; [done|]. cbn. by apply submseteq_skip.
  - eapply spends_bind; [apply spends_register|]. intros ?. destruct (_ =? _)%nat; [apply spends_ret|apply spends_update].
Qed.

Lemma drain_proposals_chans limit queue batch size others batch' others' queue' :
  drain_proposals limit queue batch size others = (batch', others', queue') ->
  batch'.*2 ++ (event_chan <$> others') ++ (event_chan <$> queue') ≡ₚ batch.*2 ++ (event_chan <$> others) ++ (event_chan <$> queue).
Proof.
  revert queue batch size others. induction limit as [|limit IH]; intros queue batch size others; cbn [drain_proposals].
  { by intros [= <- <- <-]. }
  destruct (_ && _); [|by intros [= <- <- <-]].
  destruct queue as [|[data ch| | | | |] queue]; [by intros [= <- <- <-]|..].
  1: destruct (_ <? _); [intros [= <- <- <-]; rewrite fmap_app; cbn; solve_Permutation|].
  all: intros H; rewrite (IH _ _ _ _ H), fmap_app; cbn; solve_Permutation.
Qed.

(** ** Appends *)

Lemma drain_appends_chans limit from queue group count size others group' others' queue' :
  drain_appends limit from queue group count size others = (group', others', queue') ->
  group'.*2 ++ (event_chan <$> others') ++ (event_chan <$> queue') ≡ₚ group.*2 ++ (event_chan <$> others) ++ (event_chan <$> queue).
Proof.
  revert queue group count size others. induction limit as [|limit IH]; intros queue group count size others; cbn [drain_appends].
  { by intros [= <- <- <-]. }
  destruct (_ && _); [|by intros [= <- <- <-]].
  destruct queue as [|[|  |m [d|] ch| | |] queue]; [by intros [= <- <- <-]|..].
  4: destruct (_ || _); [|destruct (appendLoad m) as [c b]; destruct (_ || _)].
  5: intros [= <- <- <-]; rewrite fmap_app; cbn; solve_Permutation.
  all: intros H; rewrite (IH _ _ _ _ _ H), fmap_app; cbn; solve_Permutation.
Qed.

Lemma spends_flush merged waiting : spends waiting (flush merged waiting) (fun _ => []).
Proof.
  unfold flush. destruct (_ =? _)%nat eqn:E.
  { apply Nat.eqb_eq, length_zero_iff_nil in E as ->. apply spends_ret. }
  eapply spends_bind; [apply spends_try_err, spends_update|]. intros e.
  eapply spends_bind; [apply spends_respond_all|]. intros ?. destruct e; [apply spends_raise|apply spends_ret].
Qed.

Lemma spends_step_appends group : forall merged waiting,
  spends (waiting ++ group.*2) (step_appends group merged waiting) (fun _ => []).
Proof.
  induction group as [|[m ch] group IH]; intros merged waiting; cbn [step_appends fmap list_fmap snd].
  { rewrite app_nil_r. apply spends_flush. }
  eapply spends_bind; [by apply spends_quiet, leaves_node|]. intros u. destruct (mergeable u).
  { eapply spends_weaken; [apply IH| |done]. by rewrite <- app_assoc. }
  eapply (spends_bind _ _ _ (fun _ => ch :: group.*2)).
  { eapply spends_weaken; [apply (spends_catch waiting (ch :: group.*2)); [apply spends_flush|]| |done].
    - intros e. eapply spends_bind; [apply (spends_respond_all (ch :: group.*2))|]. intros ?. apply spends_raise.
    - by rewrite Permutation_app_comm. }
  intros ?. eapply spends_bind; [apply spends_try_err, spends_update|]. intros e.
  apply (spends_bind _ _ _ (fun _ => group.*2)).
  { eapply spends_weaken; [apply (spends_frame (group.*2) [ch]), spends_respond| |].
    - by rewrite Permutation_app_comm.
    - intros ?. cbv beta. by rewrite app_nil_r. }
  intros ?. destruct e as [e|]; [|apply IH].
  eapply spends_bind; [apply spends_respond_all|]. intros ?. apply spends_raise.
Qed.

(** ** Reads *)

Lemma leading_reads_chans l reads rest : leading_reads l = (reads, rest) -> reads ++ (event_chan <$> rest) ≡ₚ event_chan <$> l.
Proof.
  revert reads rest. induction l as [|[| | | |ch|] l IH]; intros reads rest; cbn [leading_reads]; try (by intros [= <- <-]).
  destruct (leading_reads l) as [rs rt]. intros [= <- <-]. cbn. by rewrite (IH _ _ eq_refl).
Qed.

Lemma queued_reads_chans limit queue reads others reads' others' queue' :
  queued_reads limit queue reads others = (reads', others', queue') ->
  reads' ++ (event_chan <$> others') ++ (event_chan <$> queue') ≡ₚ reads ++ (event_chan <$> others) ++ (event_chan <$> queue).
Proof.
  revert queue reads others. induction limit as [|limit IH]; intros queue reads others; cbn [queued_reads].
  { by intros [= <- <- <-]. }
  destruct queue as [|[| | | |ch|] queue]; [by intros [= <- <- <-]|..];
    intros H; rewrite (IH _ _ _ H), ?fmap_app; cbn; solve_Permutation.
Qed.

Lemma spends_collect ch : spends [ch] (collectReads ch) (fun reads => reads).
Proof.
  intros r Hr. unfold collectReads, mbind, M_bind, get, gets, id. destruct (deferred r) as [|ev l] eqn:E.
  - destruct (queued_reads _ _ _ _) as [[reads others] queue] eqn:Eq. cbn. split; [|done].
    apply queued_reads_chans in Eq. cbn in Eq. unfold account, queued. cbn. rewrite Hr, E, app_nil_r, fmap_app. cbn.
    transitivity ((reads ++ (event_chan <$> others) ++ (event_chan <$> queue)) ++ (answers r).*1 ++ waiters r); [solve_submseteq|].
    rewrite Eq. solve_submseteq.
  - destruct (leading_reads _) as [reads rest] eqn:Eq. cbn [modify mret M_ret]. split; [|done].
    apply leading_reads_chans in Eq. unfold account, queued. cbn [answers events deferred stopped with_deferred pending pendingReads change waiters].
    rewrite Hr, E, !fmap_app, <- Eq. solve_submseteq.
Qed.
Lemma spends_bind_val {A B} (P : A -> Prop) L (m : M Runtime A) (f : A -> M Runtime B) L1 L2 :
  spends L m L1 -> (forall r a r', m r = (Ok a, r') -> P a) -> (forall a, P a -> spends (L1 a) (f a) L2) -> spends L (m ≫= f) L2.
Proof.
  intros Hm HP Hf r Hr. specialize (Hm r Hr). unfold mbind, M_bind. destruct (m r) as [[a|e| |] r1] eqn:E; try done.
  destruct Hm as [H1 Hs]. by apply (settled_from (L1 a)); [apply Hf, (HP r a r1)|..].
Qed.

Lemma ReadProbe_role ctx r u r' : attempt (ReadProbe ctx) r = (Ok (inr u), r') -> u_roleChanged u = false.
Proof.
  unfold attempt, ReadProbe, mbind, M_bind, Node.get, gets, id. destruct (negb _); [done|]. destruct (_ || _); [done|].
  destruct (collect _ _ _) as [[ms|e| |] n]; try done. by intros [= <- <-].
Qed.

(** An update without a change of role leaves the reads. *)
Lemma update_leaves_reads u data : u_roleChanged u = false -> leaves pendingReads (processUpdateWithSnapshot u data).
Proof.
  intros Hu. unfold processUpdateWithSnapshot. apply leaves_bind; [by apply leaves_persist|intros _].
  apply leaves_bind; [by apply leaves_restore|intros _]. apply leaves_bind; [by apply leaves_modify|intros _].
  apply leaves_bind; [by apply leaves_mfold; intros e; apply leaves_apply|intros _].
  apply leaves_bind; [by apply leaves_take_snapshot|intros _]. apply leaves_bind; [by apply leaves_resolve|intros _].
  apply leaves_get. intros r. rewrite Hu. apply leaves_ret.
Qed.

(** Answering a read that is in the map, and taking it out. *)
Lemma settled_answer_read i rd rd' a L r0 r :
  pendingReads r !! i = Some rd -> results rd' = results rd -> stopped r = false -> account r ⊆+ L ++ account r0 ->
  settled L r0 ((complete rd' a ;; modify (fun r => with_reads (delete i (pendingReads r)) r)) r) (fun _ => []).
Proof.
  intros E Hrd Hs Ha. unfold mbind, M_bind. rewrite complete_eq. cbn. split; [|done]. etrans; [|exact Ha].
  unfold account, queued, waiters. cbn. rewrite Hs, fmap_app, fst_pair, Hrd, <- (read_chans_delete _ _ _ E). solve_submseteq.
Qed.

Lemma spends_handle_read ch : spends [ch] (handle_read ch) (fun _ => []).
Proof.
  unfold handle_read. eapply spends_bind; [apply spends_collect|]. intros reads. cbv beta. apply spends_get. intros r0. cbv zeta.
  eapply spends_bind; [by apply spends_quiet, leaves_modify|]. intros ?.
  eapply (spends_bind_val (fun o => forall u, o = inr u -> u_roleChanged u = false)); [by apply spends_quiet, leaves_attempt| |].
  { intros r o r' H u ->. by eapply ReadProbe_role. }
  intros [e|u] Hu; [apply spends_complete|]. specialize (Hu u eq_refl). cbv beta. intros r Hr. set (c := u64 _). set (rd := mkRead reads _).
  unfold mbind at 1, M_bind at 1, modify. set (r1 := with_reads _ r). assert (account r1 ⊆+ reads ++ account r) as H1.
  { unfold account, queued, waiters, r1. cbn. rewrite Hr, read_chans_insert. cbn. solve_submseteq. }
  unfold mbind at 1, M_bind at 1. unfold processUpdate. pose proof (spends_update u None r1 Hr) as H2.
  pose proof (update_leaves_reads u None Hu r1) as H3. destruct (processUpdateWithSnapshot u None r1) as [[[]|e| |] r2]; cbn in H3; try done.
  2:{ destruct H2 as [H2 Hs]. split; [|done]. by etrans. }
  destruct H2 as [H2 Hs]. cbn in H2. unfold mbind at 1, M_bind at 1, get, gets, id. destruct (HasQuorum _ _).
  - eapply settled_answer_read; [rewrite H3; apply lookup_insert_eq|done|done|by etrans].
  - split; [cbn; by etrans|done].
Qed.

Lemma spends_acknowledge m : spends [] (acknowledgeRead m) (fun _ => []).
Proof.
  intros r Hr. unfold acknowledgeRead, mbind at 1, M_bind at 1, get, gets, id. destruct (pendingReads r !! m_context m) as [rd|] eqn:E; [|by split].
  destruct (_ || _); [by split|]. cbv zeta. set (rd' := mkRead _ _). unfold mbind at 1, M_bind at 1, modify. set (r1 := with_reads _ r).
  assert (account r1 ⊆+ [] ++ account r) as H1.
  { unfold account, queued, waiters, r1. cbn. rewrite Hr. do 3 apply submseteq_skips_l. apply submseteq_skips_r.
    rewrite <- insert_delete_eq. unfold read_chans. rewrite map_to_list_insert by apply lookup_delete_eq. cbn.
    by rewrite <- (map_to_list_delete (pendingReads r) _ rd E). }
  destruct (negb _); [by split|]. destruct (_ <? _); [by split|].
  by eapply settled_answer_read; [apply lookup_insert_eq|..].
Qed.
(** ** A turn *)

Lemma spends_handle_membership voters ch : spends [ch] (handle_membership voters ch) (fun _ => []).
Proof.
  eapply spends_bind; [by apply spends_quiet, leaves_attempt|]. intros [e|[index u]]; [apply spends_respond|].
  apply spends_get. intros r0. destruct (_ <=? _); [apply spends_respond|]. apply (spends_bind _ _ _ (fun _ => [])); [|intros _; apply spends_update].
  intros r Hr. split; [|done]. unfold account, queued, waiters. cbn. rewrite Hr. solve_submseteq.
Qed.

Lemma spends_handle_message m data ch : spends [ch] (handle_message m data ch) (fun _ => []).
Proof.
  eapply spends_bind; [by apply spends_quiet, leaves_node|]. intros u. eapply spends_bind; [apply spends_try_err, spends_update|]. intros e.
  apply spends_seq; [destruct e as [e|]; [apply spends_ret|]; destruct (_ && _); [apply spends_acknowledge|apply spends_ret]|intros _].
  eapply spends_bind; [apply spends_respond|]. intros ?. destruct e; [apply spends_raise|apply spends_ret].
Qed.

(** A drain moves events from the queue to the batch and to the deferred ones. *)
Lemma settled_drained {A B} (m : M Runtime A) (batch : list (B * chan)) others queue ch r :
  spends (batch.*2) m (fun _ => []) -> stopped r = false -> deferred r = [] ->
  batch.*2 ++ (event_chan <$> others) ++ (event_chan <$> queue) ≡ₚ [ch] ++ (event_chan <$> events r) ->
  settled [ch] r (m (with_deferred others (with_events queue r))) (fun _ => []).
Proof.
  intros Hm Hr Hd Hp. eapply settled_from; [exact Hm|done|]. unfold account, queued. cbn. rewrite Hr, Hd, app_nil_r, fmap_app.
  transitivity ((batch.*2 ++ (event_chan <$> others) ++ (event_chan <$> queue)) ++ (answers r).*1 ++ waiters r); [solve_submseteq|].
  rewrite Hp. cbn. solve_submseteq.
Qed.

Definition stops (ev : event) : bool := match ev with stopEvent _ => true | _ => false end.

Lemma spends_handle ev : stops ev = false -> spends [event_chan ev] (handle ev) (fun _ => []).
Proof.
  intros Hev r Hr. unfold handle, mbind at 1, M_bind at 1, get, gets, id. destruct ev as [data ch|voters ch|m data ch|ch|ch|ch]; [..|done].
  - destruct (deferred r) as [|ev l] eqn:E; [|by apply spends_propose].
    unfold drainProposals, mbind, M_bind, get, gets, id. destruct (drain_proposals _ _ _ _ _) as [[batch others] queue] eqn:Ed.
    eapply settled_drained; [apply spends_propose|done|done|]. by rewrite (drain_proposals_chans _ _ _ _ _ _ _ _ Ed).
  - by apply spends_handle_membership.
  - destruct data as [d|]; [by apply spends_handle_message|]. destruct (deferred r) as [|ev l] eqn:E; [|by apply spends_handle_message].
    destruct (bool_decide _); [|by apply spends_handle_message].
    unfold drainAppends, mbind, M_bind, get, gets, id. destruct (appendLoad m) as [c b].
    destruct (drain_appends _ _ _ _ _ _ _) as [[group others] queue] eqn:Ed.
    eapply settled_drained; [apply (spends_step_appends _ _ [])|done|done|]. by rewrite (drain_appends_chans _ _ _ _ _ _ _ _ _ _ Ed).
  - by apply spends_respond.
  - by apply spends_handle_read.
Qed.

Definition heard r : list chan * list chan := ((answers r).*1, queued r).

Lemma close_leaves r : heard (closeResources r).2 = heard r.
Proof.
  assert (leaves heard closeResources) as H; [|apply H]. apply leaves_bind; [by apply leaves_try_err, leaves_machine|]. intros e1.
  apply leaves_bind; [by apply leaves_try_err, leaves_store|]. intros e2. apply leaves_ret.
Qed.

(** A loop that ends with an error answers everyone who waits. *)
Lemma fail_account e r r' : stopped r = false -> fail e r = (Ok tt, r') -> account r' ≡ₚ account r.
Proof.
  intros Hr. unfold fail, mbind, M_bind. rewrite dismiss_eq. unfold modify at 1. set (r1 := with_reads ∅ _).
  pose proof (close_leaves r1) as Hc. destruct (closeResources r1) as [[o|e'| |] r2]; [|done..]. intros [= <-]. cbn in Hc.
  injection Hc as Ha Hq. unfold account. cbn. rewrite Hr. fold (queued r2). replace (queued (with_stopped true r2)) with (queued r2) by done.
  rewrite Ha, Hq. cbn. rewrite app_nil_r, fmap_app, dismissals_chans. unfold queued, r1. cbn. solve_Permutation.
Qed.

Lemma guarded_account L (m : M Runtime unit) r0 r r' :
  spends L m (fun _ => []) -> stopped r = false -> L ++ account r ⊆+ account r0 -> guarded m r = (Ok tt, r') -> account r' ⊆+ account r0.
Proof.
  intros Hm Hr H0. specialize (Hm r Hr). unfold guarded, catch. destruct (m r) as [[[]|e| |] r1]; [| |done..]; destruct Hm as [H Hs].
  - intros [= <-]. by etrans.
  - intros Hf. rewrite (fail_account _ _ _ Hs Hf). by etrans.
Qed.

Definition submitted (t : turn) : list chan := match t with Submit ev => [event_chan ev] | _ => [] end.

Lemma handle_account ev r0 r r' :
  stopped r = false -> event_chan ev :: account r ⊆+ account r0 -> guarded (handle ev) r = (Ok tt, r') -> account r' ⊆+ account r0.
Proof.
  intros Hr H0. destruct (stops ev) eqn:E; [|by eapply guarded_account; [apply spends_handle|..]]. destruct ev as [| | | | |ch]; [done..|].
  unfold guarded, catch, handle, mbind, M_bind, get, gets, id. pose proof (close_leaves r) as Hc.
  destruct (closeResources r) as [[o|e'| |] r2] eqn:Ec; [|exfalso|done..].
  - intros [= <-]. cbn in Hc. injection Hc as Ha Hq. etrans; [|exact H0]. unfold account. cbn. rewrite Hr, fmap_app, Ha. unfold queued in *. cbn.
    rewrite Hq. solve_submseteq.
  - revert Ec. unfold closeResources, try_err, mbind, M_bind. destruct (on_machine _ r) as [[] ra]; [| |done..]; destruct (on_store _ ra) as [[] rb]; done.
Qed.

Lemma run_account t r r' : run t r = (Ok tt, r') -> account r' ⊆+ submitted t ++ account r.
Proof.
  unfold run, mbind at 1, M_bind at 1, get, gets, id. destruct (stopped r) eqn:Hr; [intros [= <-]; by apply submseteq_inserts_l|].
  destruct t as [| |ev]; cbn [submitted app].
  - destruct (deferred r) as [|ev l]; [|by intros [= <-]]. apply (guarded_account []); [|done|done].
    eapply spends_bind; [by apply spends_quiet, leaves_node|]. intros u. apply spends_update.
  - assert (forall ev r1, stopped r1 = false -> event_chan ev :: account r1 ≡ₚ account r -> guarded (handle ev) r1 = (Ok tt, r') -> account r' ⊆+ account r) as Hh.
    { intros ev r1 H1 H2. apply handle_account; [done|]. by rewrite H2. }
    destruct (deferred r) as [|ev l] eqn:Ed; [destruct (events r) as [|ev l] eqn:Ee; [by intros [= <-]|]|]; (apply Hh; [done|]);
      unfold account, queued, waiters; cbn; rewrite ?Ed, ?Ee, ?fmap_app; cbn; solve_Permutation.
  - destruct (_ <? _)%nat; intros [= <-]; [|by apply submseteq_cons]. unfold account, queued, waiters. cbn. rewrite Hr, !fmap_app. cbn. solve_submseteq.
Qed.

(** C12: over any sequence of turns of a started loop (ticks, handled events, requests queued
    meanwhile, the loop failing or being stopped included), when no two requests bring
    the same answer channel, no channel is answered twice, and only channels of requests
    that were queued are answered. The channels have room for one value, so the loop
    never blocks on an answer. *)
Theorem answers_at_most_once tickPositive size threshold n s m (r0 : @Runtime S T) ts r' :
  Start tickPositive size threshold n s m = Ok r0 -> NoDup (concat (submitted <$> ts)) -> mfold run ts r0 = (Ok tt, r') ->
  NoDup ((answers r').*1) /\ (answers r').*1 ⊆ concat (submitted <$> ts).
Proof.
  intros H0 Hnd Hrun. assert (account r' ⊆+ concat (submitted <$> ts)) as Ha.
  { replace (concat _) with (concat (submitted <$> ts) ++ account r0).
    2:{ unfold Start in H0. destruct (negb _); [done|]. injection H0 as <-. apply app_nil_r. }
    clear H0 Hnd. revert r0 Hrun. induction ts as [|t ts IH]; intros r0; cbn [mfold fmap list_fmap concat]; [by intros [= <-]|].
    unfold mbind at 1, M_bind at 1. destruct (run t r0) as [[[]|e| |] r1] eqn:E; [|done..]. intros Hrun.
    rewrite (IH _ Hrun), (run_account _ _ _ E). solve_submseteq. }
  unfold account in Ha. assert ((answers r').*1 ⊆+ concat (submitted <$> ts)) as Hs by (etrans; [by apply submseteq_inserts_r|exact Ha]).
  split; [|intros x Hx; by eapply elem_of_submseteq]. apply submseteq_Permutation in Hs as [k Hk]. rewrite Hk in Hnd. by apply NoDup_app in Hnd as [??].
Qed.
(** ** Who is answered when an entry is committed *)

Definition mail (r : @Runtime S T) : list (chan * answer) * gmap Z chan := (answers r, pending r).

(** The answers to those who wait at the indexes of entries. *)
Definition acknowledgements (waiting : gmap Z chan) (l : list Entry) : list (chan * answer) :=
  omap (fun e => (fun ch => (ch, proposalResult (e_index e) (e_term e) None)) <$> waiting !! e_index e) l.

Lemma acknowledgements_delete i waiting l : i ∉ e_index <$> l -> acknowledgements (delete i waiting) l = acknowledgements waiting l.
Proof.
  unfold acknowledgements. induction l as [|e l IH]; [done|]. rewrite fmap_cons, not_elem_of_cons. intros [Hi Hl]. specialize (IH Hl).
  cbn. rewrite lookup_delete_ne by congruence. cbn in IH. by rewrite IH.
Qed.

Lemma answer_waiter_mail i t r : exists r', answer_waiter i t r = (Ok tt, r') /\
  mail r' = (answers r ++ option_list ((fun ch => (ch, proposalResult i t None)) <$> pending r !! i), delete i (pending r)).
Proof.
  unfold answer_waiter, mbind, M_bind, get, gets, id. destruct (pending r !! i) as [ch|] eqn:E; cbn; (eexists; split; [reflexivity|]); [done|].
  unfold mail. by rewrite app_nil_r, delete_id.
Qed.

(** An entry is carried out, its waiter answered; or there is an error, and no answer. *)
Lemma apply_mail e r : let '(o, r') := apply_committed e r in
  mail r' = (answers r ++ acknowledgements (pending r) [e], delete (e_index e) (pending r)) \/ o <> Ok tt /\ mail r' = mail r.
Proof.
  assert (acknowledgements (pending r) [e] = option_list ((fun ch => (ch, proposalResult (e_index e) (e_term e) None)) <$> pending r !! e_index e)) as ->
    by (cbn; by destruct (pending r !! e_index e)).
  unfold apply_committed. unfold mbind at 1, M_bind at 1, get, gets, id. cbv zeta.
  destruct (_ <=? _). { destruct (answer_waiter_mail (e_index e) (e_term e) r) as (r' & -> & Hr). by left. }
  destruct (negb _); [by right|]. destruct (IsMembershipEntry _) as [b [e'|]]; [by right|].
  unfold mbind, M_bind. set (m := wrap _ _). assert (mail (m r).2 = mail r) as Hm by (by apply leaves_wrap, leaves_machine).
  destruct (m r) as [[[]|err| |] r1]; [|by right..]. injection Hm as Ha Hp.
  destruct (answer_waiter_mail (e_index e) (e_term e) r1) as (r' & -> & Hr). left. by rewrite <- Ha, <- Hp.
Qed.

Lemma applies_mail l : forall r, NoDup (e_index <$> l) -> let '(o, r') := mfold apply_committed l r in
  exists k, answers r' = answers r ++ acknowledgements (pending r) (take k l) /\ (o = Ok tt -> k = length l).
Proof.
  induction l as [|e l IH]; intros r Hl; cbn [mfold]; [exists 0%nat; by rewrite app_nil_r|]. apply NoDup_cons in Hl as [He Hl].
  unfold mbind, M_bind. pose proof (apply_mail e r) as H. destruct (apply_committed e r) as [o r1]. destruct H as [H|[Ho H]]; injection H as Ha Hp.
  - assert (forall k, answers r1 ++ acknowledgements (pending r1) (take k l) = answers r ++ acknowledgements (pending r) (take (Datatypes.S k) (e :: l))) as Hk.
    { intros k. rewrite Ha, Hp, acknowledgements_delete, <- app_assoc; [|intros Hi; apply He; rewrite fmap_take in Hi; by eapply subseteq_take].
      cbn. by destruct (pending r !! e_index e). }
    destruct o as [[]|err| |]; [|exists 1%nat; (split; [|done]); rewrite <- (Hk 0%nat); cbn; by rewrite app_nil_r..].
    specialize (IH r1 Hl). destruct (mfold apply_committed l r1) as [o r']. destruct IH as (k & Hr & Hok). exists (Datatypes.S k).
    rewrite Hr. split; [apply Hk|]. intros E. cbn. by rewrite (Hok E).
  - destruct o as [[]|err| |]; [done|..]; exists 0%nat; cbn; by rewrite app_nil_r.
Qed.

(** What only adds answers. *)
Definition adds {A} (m : M Runtime A) : Prop := forall r, exists rest, answers (m r).2 = answers r ++ rest.

Lemma adds_leaves {A} (m : M Runtime A) : leaves answers m -> adds m.
Proof. intros H r. exists []. by rewrite H, app_nil_r. Qed.

Lemma adds_bind {A B} (m : M Runtime A) (k : A -> M Runtime B) : adds m -> (forall a, adds (k a)) -> adds (m ≫= k).
Proof.
  intros Hm Hk r. unfold mbind, M_bind. destruct (Hm r) as [l1 H1]. destruct (m r) as [[a|e| |] r1]; cbn in *; eauto.
  destruct (Hk a r1) as [l2 H2]. exists (l1 ++ l2). by rewrite H2, H1, app_assoc.
Qed.

Lemma adds_resolve : adds resolveMembership.
Proof.
  intros r. unfold resolveMembership, mbind, M_bind, get, gets, id. destruct (change r) as [[v ch]|]; [|exists []; by rewrite app_nil_r].
  cbv zeta. destruct (_ || _); [exists []; by rewrite app_nil_r|]. by eexists.
Qed.

Lemma adds_step_down u : adds (step_down u).
Proof.
  intros r. unfold step_down, mbind, M_bind, get, gets, id. destruct (_ && _); [|exists []; by rewrite app_nil_r]. rewrite dismiss_eq. by eexists.
Qed.

Lemma update_mail u data r : NoDup (e_index <$> u_committed u) -> let '(o, r') := processUpdateWithSnapshot u data r in
  exists k rest, answers r' = answers r ++ acknowledgements (pending r) (take k (u_committed u)) ++ rest /\
    (o = Ok tt -> k = length (u_committed u)).
Proof.
  intros Hu. assert (forall r r' : Runtime, mail r' = mail r -> exists k rest, answers r' = answers r ++ acknowledgements (pending r) (take k (u_committed u)) ++ rest) as Hnone.
  { intros r0 r' [= Ha _]. exists 0%nat, []. by rewrite Ha, app_nil_r. }
  unfold processUpdateWithSnapshot. unfold mbind at 1, M_bind at 1.
  set (m1 := wrap _ _). assert (mail (m1 r).2 = mail r) as H1 by (by apply leaves_persist). destruct (m1 r) as [[[]|e| |] r1]; cbn in H1;
    [|destruct (Hnone _ _ H1) as (k & rest & ?); exists k, rest; by split..].
  unfold mbind at 1, M_bind at 1. assert (mail (restore_snapshot u r1).2 = mail r) as H2 by (rewrite <- H1; by apply leaves_restore).
  destruct (restore_snapshot u r1) as [[[]|e| |] r2]; cbn in H2; [|destruct (Hnone _ _ H2) as (k & rest & ?); exists k, rest; by split..].
  unfold mbind at 1, M_bind at 1, send, modify. set (r3 := with_outgoing _ r2).
  assert (answers r3 = answers r /\ pending r3 = pending r) as [Ha Hp] by (by injection H2).
  unfold mbind at 1, M_bind at 1. pose proof (applies_mail (u_committed u) r3 Hu) as H4. destruct (mfold apply_committed (u_committed u) r3) as [o r4].
  destruct H4 as (k & H4 & Hk). rewrite Ha, Hp in H4.
  destruct o as [[]|e| |]; [|exists k, []; rewrite app_nil_r; by split..].
  set (m5 := take_snapshot ≫= _). assert (adds m5) as Hm5.
  { apply adds_bind; [by apply adds_leaves, leaves_take_snapshot|intros _]. apply adds_bind; [apply adds_resolve|intros _; apply adds_step_down]. }
  destruct (Hm5 r4) as [rest Hr]. destruct (m5 r4) as [o r5]. exists k, rest. cbn in Hr. rewrite Hr, H4, <- app_assoc. split; [done|]. intros _. by apply Hk.
Qed.

(** C38: A proposal is answered by its index alone. When the loop carries out an update with
    committed entries, everyone who waits at the index of one of them is told that their
    proposal was committed, with the term of the entry: whatever command the entry holds,
    and before the loop looks at whether the node still leads. If the loop does not come to
    the end of the update, this holds of the entries up to where it stopped. So a leader
    that was deposed, and takes over from its successor another entry at the index of a
    proposal of its own, reports that proposal, which is lost, as committed; the witness is
    such a run of a started loop. *)
Theorem waiter_answered_by_index u data r : NoDup (e_index <$> u_committed u) ->
  exists k rest, answers (processUpdateWithSnapshot u data r).2 = answers r ++ acknowledgements (pending r) (take k (u_committed u)) ++ rest /\
    ((processUpdateWithSnapshot u data r).1 = Ok tt -> k = length (u_committed u)).
Proof. intros Hu. pose proof (update_mail u data r Hu) as H. by destruct (processUpdateWithSnapshot u data r). Qed.
End answers.

(** ** Batches *)

Definition is_proposal (ev : event) : option (bytes * chan) := match ev with proposalEvent data ch => Some (data, ch) | _ => None end.
Definition batchBytes (batch : list (bytes * chan)) : Z := foldr (fun p n => proposalBytes p.1 + n) 0 batch.

#[local] Arguments batchBytes : simpl never.

Lemma batchBytes_cons data ch batch : batchBytes ((data, ch) :: batch) = proposalBytes data + batchBytes batch.
Proof. done. Qed.

Lemma batchBytes_nil : batchBytes [] = 0.
Proof. done. Qed.

(** What a drain took from the queue: the batch it adds to, the other events, and perhaps
    a last proposal that does not fit. *)
Record drained (limit : nat) (queue : list event) (batch : list (bytes * chan)) (size : Z) (taken last rest : list event) : Prop := {
  dr_queue : queue = taken ++ last ++ rest;
  dr_limit : (length (taken ++ last) <= limit)%nat;
  dr_count : Z.of_nat (length batch) <= maxBatchEntries -> Z.of_nat (length (batch ++ omap is_proposal taken)) <= maxBatchEntries;
  dr_size : omap is_proposal taken = [] \/ size + batchBytes (omap is_proposal taken) <= maxBatchBytes;
  dr_last : last = [] \/ exists data ch, last = [proposalEvent data ch] /\ maxBatchBytes < size + batchBytes (omap is_proposal taken) + proposalBytes data;
  dr_full : last <> [] \/ rest = [] \/ length taken = limit \/ maxBatchEntries <= Z.of_nat (length (batch ++ omap is_proposal taken)) \/
    maxBatchBytes <= size + batchBytes (omap is_proposal taken)
}.

Lemma proposalBytes_nonneg data : 0 <= proposalBytes data.
Proof. unfold proposalBytes, EntryOverheadBytes. destruct (_ <? _); lia. Qed.

Lemma batchBytes_nonneg batch : 0 <= batchBytes batch.
Proof.
  induction batch as [|[data ch] batch IH]; [done|]. pose proof (proposalBytes_nonneg data).
  rewrite batchBytes_cons. lia.
Qed.

Lemma drain_proposals_split limit : forall queue batch size others batch' others' rest,
  drain_proposals limit queue batch size others = (batch', others', rest) ->
  exists taken last, drained limit queue batch size taken last rest /\ batch' = batch ++ omap is_proposal taken /\
    others' = others ++ filter (fun ev => is_proposal ev = None) taken ++ last.
Proof.
  induction limit as [|limit IH]; intros queue batch size others batch' others' rest; cbn [drain_proposals].
  { intros [= <- <- <-]. exists [], []. cbn. rewrite !app_nil_r. split_and!; try done. split; cbn; auto. by rewrite app_nil_r. }
  destruct (_ && _) eqn:E; bool_hyps.
  2:{ intros [= <- <- <-]. exists [], []. cbn. rewrite !app_nil_r. split_and!; try done. split; cbn; rewrite ?app_nil_r, ?batchBytes_nil; auto with lia. }
  assert (forall ev queue', is_proposal ev = None -> queue = ev :: queue' -> drain_proposals limit queue' batch size (others ++ [ev]) = (batch', others', rest) ->
    exists taken last, drained (S limit) queue batch size taken last rest /\ batch' = batch ++ omap is_proposal taken /\
      others' = others ++ filter (fun ev => is_proposal ev = None) taken ++ last) as Hother.
  { intros ev queue' Hev -> Hd. destruct (IH _ _ _ _ _ _ _ Hd) as (taken & last & [] & -> & ->). exists (ev :: taken), last. cbn [omap list_omap].
    rewrite Hev, filter_cons_True by done. rewrite <- !app_assoc. split_and!; try done. split; cbn; rewrite ?Hev; try done; [by rewrite dr_queue0|lia|].
    destruct dr_full0 as [?|[?|[?|?]]]; auto with lia. }
  destruct queue as [|[data ch| | | | |] queue]; [|destruct (Z.ltb_spec maxBatchBytes (size + proposalBytes data))|..].
  - intros [= <- <- <-]. exists [], []. cbn. rewrite !app_nil_r. split_and!; try done. split; cbn; rewrite ?app_nil_r, ?batchBytes_nil; auto with lia.
  - intros [= <- <- <-]. exists [], [proposalEvent data ch]. cbn. rewrite !app_nil_r. split_and!; try done.
    split; cbn; rewrite ?app_nil_r, ?batchBytes_nil; auto with lia. right. exists data, ch. split; [done|lia].
  - intros Hd. destruct (IH _ _ _ _ _ _ _ Hd) as (taken & last & [] & -> & ->). exists (proposalEvent data ch :: taken), last. cbn.
    rewrite <- app_assoc. split_and!; try done. rewrite length_app in *. cbn in *. split; cbn; rewrite ?length_app, ?batchBytes_cons in *; cbn in *; try lia.
    + by rewrite dr_queue0.
    + right. destruct dr_size0 as [->|]; rewrite ?batchBytes_nil; lia.
    + destruct dr_last0 as [?|(d & c & ? & ?)]; [by left|right]. exists d, c. split; [done|lia].
    + destruct dr_full0 as [?|[?|[?|[?|?]]]]; auto 10 with lia.
  - by apply Hother.
  - by apply Hother.
  - by apply Hother.
  - by apply Hother.
  - by apply Hother.
Qed.

(** C30: drainProposals reads a prefix of the queue, at most as many events as the queue can
    hold. The proposals of the prefix make the batch, in order behind the first one; all
    other events are returned in order, behind them at most one proposal that would take
    the batch over its byte limit. The batch has at most maxBatchEntries proposals and,
    unless it is the first alone, at most maxBatchBytes bytes. It stops only at such a
    proposal, at the end of the queue, at the read limit, or with a full batch. *)
Theorem drainProposals_batch {S T} data ch (r : @Runtime S T) : exists batch others r' taken last,
  drainProposals data ch r = (Ok (batch, others), r') /\ events r = taken ++ last ++ events r' /\
  (length (taken ++ last) <= capacity r)%nat /\
  batch = (data, ch) :: omap is_proposal taken /\ others = filter (fun ev => is_proposal ev = None) taken ++ last /\
  Z.of_nat (length batch) <= maxBatchEntries /\ (batch = [(data, ch)] \/ batchBytes batch <= maxBatchBytes) /\
  (last = [] \/ exists d c, last = [proposalEvent d c] /\ maxBatchBytes < batchBytes batch + proposalBytes d) /\
  (last <> [] \/ events r' = [] \/ length taken = capacity r \/ maxBatchEntries <= Z.of_nat (length batch) \/ maxBatchBytes <= batchBytes batch).
Proof.
  unfold drainProposals, mbind, M_bind, get, gets, id. destruct (drain_proposals _ _ _ _ _) as [[batch others] rest] eqn:E.
  apply drain_proposals_split in E as (taken & last & [] & -> & ->). cbn [app length] in *.
  eexists _, _, _, taken, last. split; [reflexivity|]. rewrite batchBytes_cons. cbn. split_and!; try done.
  - by apply dr_count0.
  - destruct dr_size0 as [->|]; [by left|by right].
Qed.

(** ** A store and a machine in memory *)

(** The store keeps what it is told; the machine keeps the commands it applied, one
    after the other. *)
#[global] Instance memory_store : StableStore Durable := {
  store_Persist u := modify (persist u);
  store_PersistSnapshot u source :=
    match source_error source with
    | None => modify (persist (streamed (Some source) u))
    | Some e => raise e
    end;
  store_OpenSnapshot index := d ← gets id;
    if s_index (d_snap d) =? index then mret (s_data (d_snap d), Z.of_nat (length (s_data (d_snap d))), 0)
    else raise "stable raft snapshot is missing";
  store_CloseReader := mret tt;
  store_Close := mret tt
}.

#[global] Instance memory_machine : StateMachine (Z * bytes) := {
  machine_Apply index data := modify (fun '(_, content) => (index, content ++ data));
  machine_AppliedIndex := fst;
  machine_WriteSnapshot '(index, content) := (mkSource [content] None, index);
  machine_RestoreSnapshot index _ content := modify (fun _ => (index, content));
  machine_Close := mret tt
}.

(** The first leader of three nodes, its election entry committed and applied. *)
Definition leader : Node := node_of (after (campaign ++ [EvDeliver 8])) 1.

Lemma answers_at_most_once_witness :
  let ts := [Submit (proposalEvent (str "a") 1); Submit (readEvent 2); Submit (statusEvent 3); TurnEvent; TurnEvent; TurnEvent; Submit (stopEvent 4); TurnEvent] in
  exists r0 r', Start true 4 0 leader (dur (core leader)) (1, []) = Ok r0 /\ mfold run ts r0 = (Ok tt, r') /\ (answers r').*1 = [3%nat; 4%nat] /\
  NoDup ((answers r').*1) /\ (answers r').*1 ⊆ concat (submitted <$> ts).
Proof.
  intros ts. eexists _, _. split; [vm_compute; reflexivity|]. split; [vm_compute; reflexivity|]. split; [vm_compute; reflexivity|].
  refine (answers_at_most_once true 4 0 leader (dur (core leader)) (1, []) _ ts _ _ _ _).
  - vm_compute. reflexivity.
  - repeat (constructor; [set_solver|]). constructor.
  - vm_compute. reflexivity.
Defined.

(** ** An acknowledged write that is lost *)

(** Node 1 leads and takes a command, which reaches no one; node 2 is elected by node 3,
    commits its own entry at the same index, and tells node 1. *)
Definition lost_schedule : list Event :=
  campaign ++ [EvDeliver 8; EvPropose 1 (str "lost")] ++ repeat (EvTick 2) 20 ++ (EvDeliver <$> [13; 14; 16; 17; 19; 20; 21; 22])%nat ++ repeat (EvTick 2) 6.

Definition overwrite : Message := message_of (after lost_schedule) 29.

(** What the loop of node [i] is given in an execution: its ticks, and an event on a channel
    of its own for every message it gets and every command it is to propose. *)
Fixpoint turns_of (i : Z) (s : Cluster) (l : list Event) (ch : chan) : list turn :=
  match l with
  | [] => []
  | ev :: l' =>
      match event_op s ev with
      | Some (j, op) => if j =? i then
          match op with
          | Api.OpTick => [TurnTick]
          | Api.OpStep m => [Submit (messageEvent m None ch); TurnEvent]
          | Api.OpPropose data => [Submit (proposalEvent data ch); TurnEvent]
          | _ => []
          end else []
      | None => []
      end ++ turns_of i (default s (exec1 [1; 2; 3] s ev)) l' (S ch)
  end.

(** The loop of node 1, from its start until just before it hears of the other entry. *)
Definition fresh_loop : @Runtime Durable (Z * bytes) := mkRuntime (Api.boot (three 1)) (dur (core (Api.boot (three 1)))) (0, []) [] 4 [] [] ∅ ∅ 0 None 0 [] false.
Definition lost_turns : list turn := turns_of 1 three_nodes lost_schedule 0.
#[local] Notation waiting_loop := (mfold run lost_turns fresh_loop).2.
#[local] Notation deposed := (outcome (after lost_schedule) 1 29).
#[local] Notation told_loop := (with_node deposed.2 waiting_loop).
#[local] Notation answered_loop := (processUpdateWithSnapshot deposed.1 None told_loop).

Lemma lost_run : Start true 4 0 (Api.boot (three 1)) (dur (core (Api.boot (three 1)))) (0, []) = Ok fresh_loop /\
  exec [1; 2; 3] three_nodes lost_schedule = Some (after lost_schedule) /\
  net (after lost_schedule) !! 29%nat = Some overwrite /\ m_to overwrite = 1 /\ node waiting_loop = node_of (after lost_schedule) 1.
Proof. split_and!; vm_compute; exact eq_refl. Qed.

(** Node 1 answers the client of the command "lost", on channel 22, with success at index 2;
    entry 2 is the empty entry of node 2, and all the machine applied. *)
Lemma waiter_answered_by_index_witness :
  pending told_loop = {[2 := 22%nat]} /\ u_committed deposed.1 = [mkEntry 2 2 []] /\
  acknowledgements {[2 := 22%nat]} [mkEntry 2 2 []] = [(22%nat, proposalResult 2 2 None)] /\
  (exists k rest, answers answered_loop.2 = answers told_loop ++ acknowledgements (pending told_loop) (take k (u_committed deposed.1)) ++ rest /\
     k = length (u_committed deposed.1)) /\
  machine answered_loop.2 = (2, []).
Proof.
  split; [vm_compute; exact eq_refl|]. split; [vm_compute; exact eq_refl|]. split; [vm_compute; exact eq_refl|].
  split; [|vm_compute; exact eq_refl].
  assert (answered_loop.1 = Ok tt) as Ho by (vm_compute; exact eq_refl).
  assert (NoDup (e_index <$> u_committed deposed.1)) as Hn by (vm_compute; apply NoDup_singleton).
  pose proof (waiter_answered_by_index deposed.1 None told_loop Hn) as (k & rest & Ha & Hk).
  exists k, rest. exact (conj Ha (Hk Ho)).
Defined.

End Loop.
