(* ===== verification/InStep.v ===== *)
(** * Node, store and machine in step

    What the event loop of Runtime promises of its three parts: between two turns the
    stable store holds what the node relies on, the state machine has applied what the
    node committed, and messages leave only after what they promise is durable. The
    promises are proved against the laws of a store and of a machine, which the store of
    Raftstore and the ones in memory satisfy. *)

From S2P Require Import Prelude GoStd Fs Json Membership RaftTypes RaftNode RaftCore RaftRefine RaftHandlers RaftOps RaftApi RaftCluster Raftstore Stable Runtime Loop.

(** ** The contracts *)

(** A store keeps a durable state; [storable] says which updates it can write, and
    [fallible] that a call may fail. *)
Class StoreLaws (S : Type) `{!StableStore S} := {
  keeps : S -> Core.Durable -> Prop;
  storable : option Raftstore.Source -> Raft.Update -> Core.Durable -> Prop;
  fallible : S -> Prop;
  persist_keeps u s d : keeps s d -> storable None u d ->
    depends fallible (store_Persist u) s (fun _ s' => keeps s' (Core.persist u d));
  persist_snapshot_keeps u src s d : keeps s d -> is_Some (Raft.u_snapshot u) -> storable (Some src) u d ->
    depends fallible (store_PersistSnapshot u src) s (fun _ s' => keeps s' (Core.persist (Stable.streamed (Some src) u) d));
  open_keeps s d : keeps s d -> 0 < Raft.s_index (Core.d_snap d) ->
    depends fallible (store_OpenSnapshot (Raft.s_index (Core.d_snap d))) s (fun '(content, size, _) s' => keeps s' d /\
      content = Raft.s_data (Core.d_snap d) /\ size = Z.of_nat (length content));
  close_reader_keeps s d : keeps s d -> depends fallible store_CloseReader s (fun _ s' => keeps s' d);
  store_close_runs s : runs store_Close s (fun _ _ => True) (fun _ => True) (fun _ => True)
}.

(** A call that fails only if [bad] holds, and leaves a state with [left] if it fails. *)
Definition fails_to {S A} (bad left : S -> Prop) (m : M S A) (s : S) (Q : A -> S -> Prop) : Prop :=
  runs m s (fun a s' => Q a s' /\ (bad s' -> bad s)) (fun s' => bad s /\ left s') (fun _ => True).

(** A machine has contents, which a command changes and a snapshot replaces; [accepts] and
    [loadable] say which commands and which snapshots it can take in its state, [writable]
    that it can write a snapshot, and [closable] that it can be closed. *)
Class MachineLaws (T : Type) `{!StateMachine T} := {
  mstate : Type;
  sound : T -> Prop;
  mfallible : T -> Prop;
  contents : T -> mstate;
  perform : Z -> bytes -> mstate -> mstate;
  load : bytes -> mstate;
  accepts : Z -> bytes -> T -> Prop;
  loadable : Z -> bytes -> T -> Prop;
  writable : T -> Prop;
  closable : T -> Prop;
  sound_closable t : sound t -> closable t;
  apply_runs i c t : sound t -> accepts i c t -> i = machine_AppliedIndex t + 1 ->
    fails_to mfallible closable (machine_Apply i c) t (fun _ t' =>
      sound t' /\ machine_AppliedIndex t' = i /\ contents t' = perform i c (contents t));
  restore_runs i content t : sound t -> loadable i content t -> machine_AppliedIndex t < i ->
    fails_to mfallible closable (machine_RestoreSnapshot i (Z.of_nat (length content)) content) t (fun _ t' =>
      sound t' /\ machine_AppliedIndex t' = i /\ contents t' = load content);
  write_snapshot_runs t : sound t -> writable t -> 0 < machine_AppliedIndex t -> let '(src, i) := machine_WriteSnapshot t in
    Raftstore.source_error src = None /\ i = machine_AppliedIndex t /\ load (concat (Raftstore.chunks src)) = contents t;
  machine_close_runs t : closable t -> runs machine_Close t (fun _ _ => True) (fun _ => True) (fun _ => True)
}.

Module InStep.
Import Raftstore Stable Membership Raft Node Core Refine Handlers Ops Api Cluster Runtime Loop.

Lemma depends_eq {S A} (bad : S -> Prop) (m : M S A) s Q : depends bad m s Q -> depends bad m s (fun a s' => Q a s' /\ m s = (Ok a, s')).
Proof. unfold depends, runs. by destruct (m s) as [[a|e| |] s']; [intros [? ?]|..]. Qed.

Lemma fails_to_eq {S A} (bad left : S -> Prop) (m : M S A) s Q : fails_to bad left m s Q -> fails_to bad left m s (fun a s' => Q a s' /\ m s = (Ok a, s')).
Proof. unfold fails_to, runs. by destruct (m s) as [[a|e| |] s']; [intros [? ?]|..]. Qed.

(** ** Durable states up to the data of the snapshot *)

(** The node keeps no snapshot data; the store does. *)
Definition sans (d : Durable) : Durable := mkDurable (d_hard d) (with_data [] (d_snap d)) (d_log d).

Lemma sans_install sn sn' d d' : with_data [] sn = with_data [] sn' -> sans d = sans d' -> sans (d_install sn d) = sans (d_install sn' d').
Proof.
  destruct sn, sn', d as [h [] l], d' as [h' [] l']. unfold sans, with_data, d_install. cbn. intros [= -> -> ->] [= -> -> -> -> ->].
  by destruct (_ <=? _).
Qed.

Lemma sans_persist src u d d' : sans d = sans d' -> sans (persist (streamed src u) d) = sans (persist u d').
Proof.
  intros H. rewrite !persist_eq. assert (sans (after_snap (streamed src u) d) = sans (after_snap u d')) as Ha.
  { assert (sans (after_hard u d) = sans (after_hard u d')) as Hh.
    { unfold after_hard. destruct (u_hardState u); [|done]. destruct d as [? [] ?], d' as [? [] ?]. unfold sans, with_data in *. cbn in *. by simplify_eq. }
    unfold after_snap. cbn [streamed u_snapshot]. destruct (u_snapshot u) as [sn|]; cbn; [|exact Hh]. by apply sans_install. }
  cbn [streamed u_truncateFrom u_entries]. revert Ha. generalize (after_snap (streamed src u) d), (after_snap u d').
  intros [h [] l] [h' [] l']. unfold sans, with_log, kept, with_data. cbn. by intros [= -> -> -> -> ->].
Qed.

(** ** What a store still owes a node *)

(** A durable state [d] and what is applied, [c], which the update [u] takes to the state
    of the node [n]. *)
Record owes (d : Durable) (c : Z) (u : Update) (n : Node) : Prop := {
  ow_wf : wf (core n);
  ow_snap : 0 <= s_index (d_snap d) <= c;
  ow_last : c <= d_last d;
  ow_commit : c <= commit n;
  ow_dur : sans (dur (core n)) = sans (persist u d);
  ow_del : u_committed u = between c (commit n) (core n)
}.

Lemma sans_persist_plain u d d' : sans d = sans d' -> sans (persist u d) = sans (persist u d').
Proof. intros H. rewrite <- (streamed_none u) at 1. by apply sans_persist. Qed.

Lemma persist_none d : persist noUpdate d = d.
Proof. destruct d. unfold persist. simpl. by rewrite app_nil_r. Qed.

Lemma sans_last d d' : sans d = sans d' -> d_last d = d_last d'.
Proof. destruct d as [? [] ?], d' as [? [] ?]. unfold sans, with_data, d_last. cbn. by intros [= -> -> -> -> ->]. Qed.

Lemma sans_index d d' : sans d = sans d' -> s_index (d_snap d) = s_index (d_snap d').
Proof. exact (f_equal (fun d => s_index (d_snap d)) (x := sans d) (y := sans d')). Qed.

(** A node whose state is stored owes what its next operation says. *)
Lemma performs_owes inp n u n' d : wf (core n) -> performs inp n u n' -> sans d = sans (dur (core n)) -> owes d (commit n) u n'.
Proof.
  intros Hw Hp Hd. pose proof (performs_wf _ _ _ _ Hp Hw) as Hw'. destruct Hp as [Ha Hdur Hc].
  pose proof (av_commit _ _ (acts_advances _ _ _ _ Hw Ha)). pose proof (wf_commit _ Hw) as Hcm. pose proof (wf_snap _ Hw) as [Hs _].
  pose proof (sans_index _ _ Hd) as Hi. pose proof (sans_last _ _ Hd) as Hl. simpl in *. unfold d_last, k_last in *. simpl in *.
  constructor; try done; [lia|unfold d_last; lia|]. rewrite Hdur. by apply sans_persist_plain.
Qed.

Lemma owes_nothing n d : wf (core n) -> sans d = sans (dur (core n)) -> owes d (commit n) noUpdate n.
Proof. intros Hw Hd. apply (performs_owes Quiet); [done|by apply performs_none|done]. Qed.

(** With nothing owed, everything committed is applied. *)
Lemma owes_none d c n : owes d c noUpdate n -> commit n = c /\ sans d = sans (dur (core n)).
Proof.
  intros [Hw Hs Hl Hc Hd Hdel]. rewrite persist_none in Hd. split; [|done]. pose proof (wf_commit _ Hw) as Hcm.
  pose proof (between_indexes c (commit n) (core n) Hw ltac:(apply Hcm)) as H. rewrite <- Hdel in H. cbv zeta in H.
  pose proof (sans_index _ _ Hd) as Hi. simpl in *. apply (f_equal length) in H. rewrite length_seqZ in H. simpl in H. lia.
Qed.

(** Where the snapshot of the updated state comes from. *)
Lemma persist_snap_index u d : let i := s_index (d_snap (persist u d)) in
  match u_snapshot u with
  | None => i = s_index (d_snap d)
  | Some s => i = s_index s \/ s_index s <= i /\ i = s_index (d_snap d)
  end.
Proof.
  cbv zeta. rewrite persist_eq. simpl. unfold after_snap. pose proof (proj1 (after_hard_same u d)) as E.
  destruct (u_snapshot u) as [s|]; [|by rewrite E]. unfold d_install. rewrite E.
  destruct (Z.leb_spec (s_index s) (s_index (d_snap d))); simpl; [rewrite E|]; auto.
Qed.

Lemma owes_snapshot d c u n src : owes d c u n -> s_index (d_snap (persist (streamed src u) d)) = s_index (snapshot n).
Proof. intros Ho. symmetry. rewrite (sans_index _ _ (sans_persist src u d d eq_refl)). exact (sans_index _ _ (ow_dur _ _ _ _ Ho)). Qed.

(** A snapshot of the update is installed, or was not beyond what is applied. *)
Lemma owes_installs d c u n s : owes d c u n -> u_snapshot u = Some s -> s_index (snapshot n) = s_index s \/ s_index s <= c /\ s_index (snapshot n) <= c.
Proof.
  intros Ho Es. pose proof (persist_snap_index u d) as H. cbv zeta in H. rewrite Es in H.
  rewrite <- (owes_snapshot _ _ _ _ None Ho), streamed_none. destruct (ow_snap _ _ _ _ Ho). lia.
Qed.

Lemma owes_keeps_snapshot d c u n : owes d c u n -> u_snapshot u = None -> s_index (snapshot n) = s_index (d_snap d).
Proof.
  intros Ho Es. pose proof (persist_snap_index u d) as H. cbv zeta in H. rewrite Es in H.
  by rewrite <- (owes_snapshot _ _ _ _ None Ho), streamed_none.
Qed.

(** *** Merged updates *)

Lemma persist_merge_append u v d : mergeable v = true -> persist (merge_append u v) d = persist v (persist u d).
Proof.
  unfold mergeable. destruct (u_hardState v) eqn:Eh, (u_snapshot v) eqn:Es; try done. intros [Hm%Z.eqb_eq _]%andb_true_iff.
  unfold persist, merge_append. cbn [u_hardState u_snapshot u_truncateFrom u_entries]. rewrite Eh, Es, Hm. cbn. by rewrite app_assoc.
Qed.

Lemma slice_slice {A} (i j k : nat) (l : list A) : (i <= j <= k)%nat -> slice i j l ++ slice j k l = slice i k l.
Proof.
  intros H. unfold slice. replace (drop j l) with (drop (j - i) (drop i l)) by (rewrite drop_drop; f_equal; lia).
  rewrite <- (take_drop (j - i) (take (k - i) (drop i l))). f_equal.
  - rewrite take_take. f_equal. lia.
  - rewrite skipn_firstn_comm. f_equal. lia.
Qed.

Lemma owes_merge d c u inp n v n' : owes d c u n -> u_snapshot u = None -> performs inp n v n' -> mergeable v = true -> owes d c (merge_append u v) n'.
Proof.
  intros Ho Hu Hp Hm. pose proof (ow_wf _ _ _ _ Ho) as Hw. pose proof (performs_wf _ _ _ _ Hp Hw) as Hw'. destruct Hp as [Ha Hdur Hdel].
  pose proof (av_commit _ _ (acts_advances _ _ _ _ Hw Ha)) as Hav. simpl in Hav. pose proof (owes_keeps_snapshot _ _ _ _ Ho Hu) as Hs.
  destruct Ho as [_ Hs0 Hl Hc Hd Hdel0]. constructor; [done|done|done|lia| |].
  - rewrite persist_merge_append, Hdur by done. by apply sans_persist_plain.
  - cbn [merge_append u_committed]. rewrite Hdel0, Hdel. pose proof (wf_commit _ Hw) as Hcm. pose proof (wf_commit _ Hw') as Hcm'. simpl in Hcm, Hcm'.
    assert (snapshot n' = snapshot n /\ exists es, log n' = log n ++ es) as [Esn [es El]].
    { pose proof (f_equal d_snap Hdur) as E1. pose proof (f_equal d_log Hdur) as E2. revert E1 E2. rewrite persist_eq. unfold mergeable in Hm.
      unfold after_snap, after_hard. destruct (u_hardState v), (u_snapshot v); try done. apply andb_true_iff in Hm as [Hm%Z.eqb_eq _].
      unfold kept. rewrite Hm. cbn. eauto. }
    rewrite (between_slice (core n)), !(between_slice (core n')) by (done || (cbn; rewrite ?Esn; lia)). cbn. rewrite Esn, El.
    rewrite <- (slice_slice (Z.to_nat (c - s_index (snapshot n))) (Z.to_nat (commit n - s_index (snapshot n)))
      (Z.to_nat (commit n' - s_index (snapshot n)))) by lia. f_equal. unfold slice, k_last in *. cbn in *.
    rewrite drop_app_le by lia. rewrite take_app_le; [done|]. rewrite length_drop. lia.
Qed.

(** *** Compacting a log that owes an update *)

(** An update that changes nothing up to an index. *)
Definition late (v : Update) (c : Z) : Prop := u_snapshot v = None /\ (u_truncateFrom v = 0 \/ c < u_truncateFrom v).

Definition compaction (s : Snapshot) : Update := mkUpdate None 0 [] [] [] false (Some s) [].

(** The entry a snapshot ends with is in the log. *)
Definition ends_in (s : Snapshot) (d : Durable) : Prop :=
  s_index (d_snap d) < s_index s /\ exists e, d_log d !! Z.to_nat (s_index s - s_index (d_snap d) - 1) = Some e /\ e_term e = s_term s.

Lemma persist_compaction s d : ends_in s d ->
  persist (compaction s) d = mkDurable (d_hard d) s (drop (Z.to_nat (s_index s - s_index (d_snap d))) (d_log d)).
Proof.
  intros (Hi & e & He & Ht). unfold persist, compaction, d_install. cbn [u_hardState u_snapshot u_truncateFrom u_entries].
  rewrite (proj2 (Z.leb_gt _ _)) by done. rewrite He, Ht, Z.eqb_refl. cbn. by rewrite app_nil_r.
Qed.

Lemma compaction_commutes s v d : late v (s_index s) -> ends_in s (persist v d) -> s_index s <= d_last d ->
  persist (compaction s) (persist v d) = persist v (persist (compaction s) d).
Proof.
  intros [Hs Ht] Hin Hl. rewrite (persist_compaction s (persist v d)) by done. destruct Hin as (Hi & e & He & Hte).
  rewrite persist_eq in *. unfold after_snap in *. rewrite Hs in *. destruct (after_hard_same v d) as [E1 E2].
  unfold kept in *. cbn [Stable.with_log d_snap d_log d_hard] in *. rewrite E1, E2 in *. unfold d_last in Hl.
  assert (d_log d !! Z.to_nat (s_index s - s_index (d_snap d) - 1) = Some e) as Hed.
  { rewrite lookup_app_l in He.
    - destruct (_ =? 0) eqn:E0; [done|]. bool_hyps. by apply lookup_take_Some in He as [? _].
    - destruct (_ =? 0) eqn:E0; bool_hyps; rewrite ?length_take; lia. }
  rewrite persist_compaction by (split; [done|by exists e]).
  unfold persist, after_hard. rewrite Hs. destruct (u_hardState v); cbn [d_hard d_snap d_log]; f_equal.
  all: destruct (_ =? 0) eqn:E0; bool_hyps; [rewrite drop_app_le by lia; done|].
  all: rewrite drop_app_le by (rewrite length_take; lia); rewrite skipn_firstn_comm; do 2 f_equal; lia.
Qed.

Lemma ends_in_sans s d d' : sans d = sans d' -> ends_in s d -> ends_in s d'.
Proof. destruct d as [? [] ?], d' as [? [] ?]. unfold sans, with_data, ends_in. cbn. by intros [= -> -> -> -> ->]. Qed.

Lemma owes_compact d c v n s n' src : owes d c v n -> late v c -> performs Quiet n (compaction s) n' -> commit n' = commit n ->
  s_index s = c -> s_index (snapshot n) < c -> s_term s = k_termAt (core n) c -> s_term s <> 0 ->
  owes (persist (streamed src (compaction s)) d) c v n'.
Proof.
  intros Ho Hv Hp Ecm Hi Hlt Ht Ht0. pose proof (performs_wf _ _ _ _ Hp (ow_wf _ _ _ _ Ho)) as Hw'. destruct Hp as [_ Hdur _].
  destruct Ho as [Hw Hs Hl Hc Hd Hdel].
  assert (ends_in s (dur (core n))) as Hin.
  { split; [cbn; lia|]. unfold k_termAt in Ht. cbn in *. rewrite (proj2 (Z.leb_gt _ _)) in Ht by lia. rewrite Hi.
    destruct (log n !! _) as [e|]; [by exists e|]. congruence. }
  pose proof (ends_in_sans _ _ _ Hd Hin) as Hin'.
  assert (sans (persist (streamed src (compaction s)) d) = sans (persist (compaction s) d)) as Es by (by apply sans_persist).
  assert (ends_in s d) as Hind.
  { destruct Hin' as (Hb & e & He & Hte). pose proof (persist_snap_index v d) as Hx. cbv zeta in Hx. destruct Hv as [Hv1 Hv2]. rewrite Hv1 in Hx.
    rewrite Hx in *. split; [done|]. exists e. split; [|done]. rewrite persist_eq in He. unfold after_snap in He. rewrite Hv1 in He.
    destruct (after_hard_same v d) as [E1 E2]. unfold kept, d_last in *. cbn [Stable.with_log d_log] in He. rewrite E1, E2 in He.
    rewrite lookup_app_l in He by (destruct (_ =? 0) eqn:E0; bool_hyps; rewrite ?length_take; lia).
    destruct (_ =? 0) eqn:E0; [done|]. by apply lookup_take_Some in He as [? _]. }
  pose proof (persist_compaction s d Hind) as Ep. constructor; [done| | |by rewrite Ecm| |].
  - rewrite (sans_index _ _ Es), Ep. cbn. lia.
  - rewrite (sans_last _ _ Es), Ep. unfold d_last in *. cbn. rewrite length_drop. lia.
  - rewrite Hdur, (sans_persist_plain _ _ _ Hd), compaction_commutes by (done || (by rewrite Hi) || lia). symmetry. by apply sans_persist_plain.
  - rewrite Hdel, Ecm. pose proof (wf_commit _ Hw) as Hcm. pose proof (wf_commit _ Hw') as Hcm'. rewrite (persist_compaction s _ Hin) in Hdur.
    pose proof (f_equal d_snap Hdur : snapshot n' = s) as Esn. pose proof (f_equal d_log Hdur) as El. cbn in El, Hcm, Hcm'.
    rewrite !between_slice by (done || (cbn; rewrite ?Esn; lia)). cbn. rewrite Esn, El. unfold slice. rewrite drop_drop, Hi.
    f_equal; [|f_equal]; lia.
Qed.

(** *** Appends *)

Lemma finish_append_keeps m u n : does (finish_append m u) n (fun u' _ => u_snapshot u' = u_snapshot u /\ u_truncateFrom u' = u_truncateFrom u).
Proof. unfold finish_append. step_get. cbv zeta. destruct (commit n <? _); by unfold does, runs. Qed.

Lemma store_entries_keeps m tr rest u n : u_snapshot u = None -> u_truncateFrom u = 0 ->
  does (store_entries m tr rest u) n (fun u' _ => u_snapshot u' = None /\ (u_truncateFrom u' = 0 \/ tr = Some (u_truncateFrom u'))).
Proof.
  intros Hs Ht. unfold store_entries. step_get. cbv zeta. step_mod.
  set (u' := mkUpdate _ _ _ _ _ _ _ _). set (n1 := with_log _ n).
  assert (forall n, does (finish_append m u') n (fun u2 _ => u_snapshot u2 = None /\ (u_truncateFrom u2 = 0 \/ tr = Some (u_truncateFrom u2)))) as Hf.
  { intros n2. eapply does_mono; [apply finish_append_keeps|]. intros u2 _ [-> ->]. split; [done|]. cbn. destruct tr; [by right|by left]. }
  apply does_if; intros E; [|apply Hf]. unfold does, runs, mbind, M_bind, try_err.
  destruct (rebuildMembership n1) as [[[]|e| |] n2] eqn:Er; [apply Hf| |exfalso..].
  - split; [done|by left].
  - revert Er. rewrite rebuild_eq. destruct (conf_cases (k_base (core n1)) (log n1)) as [[? ->]|[? ->]]; done.
  - revert Er. rewrite rebuild_eq. destruct (conf_cases (k_base (core n1)) (log n1)) as [[? ->]|[? ->]]; done.
Qed.

Lemma handleAppend_late m n : wf (core n) -> does (handleAppend m) n (fun u _ => late u (commit n)).
Proof.
  intros Hw. unfold handleAppend. step_get. apply follow_sender_spec; [done|]. intros u n1 Hp [[Ht Hs] _] Ec Hw1 _ _ _ _. step_get.
  assert (late u (commit n)) as Hl by (split; [done|by left]).
  apply does_if; intros E; [by apply does_ret|]. destruct (scan_entries n1 (m_entries m)) as [| |tr rest] eqn:Esc.
  - eapply does_mono; [apply finish_append_keeps|]. intros u2 _ [E1 E2]. unfold late. by rewrite E1, E2.
  - by apply does_ret.
  - eapply does_mono; [by apply store_entries_keeps|]. intros u2 _ [Hs2 Ht2]. split; [done|]. destruct Ht2 as [?|Etr]; [by left|].
    right. rewrite <- Ec. subst tr. clear -Esc. induction (m_entries m) as [|e l IH]; cbn [scan_entries] in Esc; [done|].
    destruct (_ <=? lastIndex n1); [|done]. destruct (_ =? _); [auto|]. destruct (_ <=? commit n1) eqn:E; [done|]. bool_hyps. by injection Esc as <- _.
Qed.

Lemma Step_late m n u n' : wf (core n) -> op_ok (OpStep m) (core n) -> m_type m = MsgAppend -> Step m n = (Ok u, n') -> late u (commit n).
Proof.
  intros Hw [[Hr1 Hr2] [Hm Hl]] Hty. assert (does (Step m) n (fun u _ => late u (commit n))) as H.
  2:{ intros E. unfold does, runs in H. by rewrite E in H. }
  assert (forall u, u_snapshot u = None -> u_truncateFrom u = 0 -> late u (commit n)) as Hlate by (intros u' ? ?; split; [done|by left]).
  unfold Step. step_get. apply does_if; intros E1; [apply does_ret; by apply Hlate|].
  apply does_if; intros E2; [apply does_ret; by apply Hlate|]. cbv zeta.
  apply does_if; intros E3; [step_mod; apply does_ret; by apply Hlate|].
  apply does_if; intros E4; [step_mod; apply does_ret; by apply Hlate|]. apply does_if; intros E5; [apply does_ret; by apply Hlate|].
  eapply (does_bind _ _ _ (fun u n1 => plain u /\ commit n1 = commit n /\ wf (core n1))).
  { apply does_if; intros E6; [|by apply does_ret]. bool_hyps.
    eapply does_bind; [apply (becomeFollower_spec (Received m) n (m_term m)); [done|right; destruct (mo_term _ Hm); lia]|].
    intros u1 n1 (Ec & Hp & Hb & _). apply does_ret. rewrite merge_noUpdate_l. split_and!; [done| |by eapply performs_wf].
    rewrite (proj2 (Z.ltb_lt _ _)) in Ec by done. exact (f_equal k_commit Ec). }
  intros u1 n1 ([Ht Hs] & Ec & Hw1). unfold dispatch. rewrite Hty. eapply does_bind; [by apply handleAppend_late|].
  intros u2 n2 [Hs2 Ht2]. apply does_ret. split; cbn; [by rewrite Hs2, Hs|]. rewrite <- Ec, Ht. destruct (u_truncateFrom u2 =? 0) eqn:E; bool_hyps; tauto.
Qed.

Section step.
Context {S T : Type} `{!StableStore S} `{!StateMachine T} `{!StoreLaws S} `{!MachineLaws T}.
Implicit Types r : @Runtime S T.

Definition bad r : Prop := fallible (store r) \/ mfallible (machine r).

(** [works P m r Q]: the computation ends well with [Q], or it fails and [P] holds, which
    the causes of failure imply; the machine can be closed in both cases. *)
Definition works (P : Prop) {A} (m : M Runtime A) r (Q : A -> Runtime -> Prop) : Prop :=
  (bad r -> P) -> closable (machine r) ->
  runs m r (fun a r' => Q a r' /\ (bad r' -> P) /\ closable (machine r')) (fun r' => P /\ closable (machine r')) (fun _ => True).

Section rules.
Context (P : Prop).

Lemma works_bind {A B} (m : M Runtime A) (k : A -> M Runtime B) r Q :
  works P m r (fun a r' => works P (k a) r' Q) -> works P (m ≫= k) r Q.
Proof. intros H HP Hc. apply runs_bind. eapply runs_mono; [by apply H| |done|done]. intros a r' (Hk & Hb & Hc'). by apply Hk. Qed.

Lemma works_mono {A} (m : M Runtime A) r (Q Q' : A -> Runtime -> Prop) : works P m r Q -> (forall a r', Q a r' -> Q' a r') -> works P m r Q'.
Proof. intros H HQ HP Hc. eapply runs_mono; [by apply H| |done|done]. naive_solver. Qed.

Lemma works_ret {A} (a : A) r (Q : A -> Runtime -> Prop) : Q a r -> works P (mret a) r Q.
Proof. by intros ? ?. Qed.

Lemma works_raise {A} e r (Q : A -> Runtime -> Prop) : P -> works P (raise e) r Q.
Proof. by intros ? ?. Qed.

Lemma works_get {A} (f : Runtime -> M Runtime A) r Q : works P (f r) r Q -> works P (get ≫= f) r Q.
Proof. done. Qed.

Lemma works_catch {A} (m : M Runtime A) h r Q : works P m r Q -> (forall e r', P -> works P (h e) r' Q) -> works P (catch m h) r Q.
Proof.
  intros H Hh HP Hc. apply runs_catch. eapply runs_mono; [by apply H|done| |done]. intros r' [HP' Hc'] e. by apply Hh.
Qed.

Lemma works_wrap {A} what (m : M Runtime A) r Q : works P m r Q -> works P (wrap what m) r Q.
Proof. intros H. apply works_catch; [done|]. intros e r'. apply works_raise. Qed.

Lemma works_try_err {A} (m : M Runtime A) r Q :
  works P m r (fun _ => Q None) -> (forall e r', P -> Q (Some e) r') -> works P (try_err m) r Q.
Proof. intros H HQ HP Hc. apply runs_try_err. eapply runs_mono; [by apply H|done| |done]. intros r' [HP' Hc'] e. auto. Qed.

Lemma works_store {A} (m : M S A) r Q : depends fallible m (store r) (fun a s => Q a (with_store s r)) -> works P (on_store m) r Q.
Proof.
  intros H HP Hc. apply runs_zoom. unfold bad in *. eapply runs_mono; [exact H| | |done].
  - intros a s [HQ Hf]. cbn. tauto.
  - intros s Hf. tauto.
Qed.

Lemma works_machine {A} (m : M T A) r Q :
  fails_to mfallible closable m (machine r) (fun a t => Q a (with_machine t r) /\ sound t) -> works P (on_machine m) r Q.
Proof.
  intros H HP Hc. apply runs_zoom. unfold bad in *. eapply runs_mono; [exact H| | |done].
  - intros a s [[HQ Ht%sound_closable] Hf]. cbn. tauto.
  - intros s [Hf Hc']. cbn. tauto.
Qed.

Lemma works_node {A} (m : M Node A) r Q : does m (node r) (fun a n => Q a (with_node n r)) -> works P (on_node m) r Q.
Proof. intros H HP Hc. apply runs_zoom. by eapply runs_mono; [exact H|..]. Qed.

Lemma works_attempt {A} (m : M Node A) r (Q : string + A -> Runtime -> Prop) R : proposes m (node r) R ->
  (forall e, Q (inl e) (with_node (node r) r)) -> (forall a n, R a n -> Q (inr a) (with_node n r)) -> works P (attempt m) r Q.
Proof.
  intros H He Ha HP Hc. unfold proposes, runs in H. unfold runs, attempt. destruct (m (node r)) as [[a|e| |] n]; try done; subst; split; auto.
Qed.

Lemma works_leaves {A X} (f : Runtime -> X) (m : M Runtime A) r Q :
  leaves f m -> works P m r (fun a r' => f r' = f r -> Q a r') -> works P m r Q.
Proof. intros Hl H HP Hc. specialize (Hl r). specialize (H HP Hc). unfold runs in *. destruct (m r) as [[a|e| |] r']; naive_solver. Qed.

(** ** Computations that involve no part *)

Definition parts r : Node * S * T * list Message := (node r, store r, machine r, outgoing r).
Definition idle {A} (m : M Runtime A) : Prop := forall r, exists a r', m r = (Ok a, r') /\ parts r' = parts r.

Lemma idle_works {A} (m : M Runtime A) r (Q : A -> Runtime -> Prop) : idle m -> (forall a r', parts r' = parts r -> Q a r') -> works P m r Q.
Proof.
  intros Hm HQ HP Hc. destruct (Hm r) as (a & r' & E & Hp). unfold runs. rewrite E. split; [auto|].
  unfold parts in Hp. injection Hp as _ Hs Ht _. unfold bad in *. by rewrite Hs, Ht.
Qed.

Lemma idle_ret {A} (a : A) : idle (mret a).
Proof. intros r. by exists a, r. Qed.
Lemma idle_modify g : (forall r, parts (g r) = parts r) -> idle (modify g).
Proof. intros H r. by exists tt, (g r). Qed.
Lemma idle_get {A} (f : Runtime -> M Runtime A) : (forall r, idle (f r)) -> idle (get ≫= f).
Proof. intros H r. apply H. Qed.

Lemma idle_bind {A B} (m : M Runtime A) (k : A -> M Runtime B) : idle m -> (forall a, idle (k a)) -> idle (m ≫= k).
Proof.
  intros Hm Hk r. destruct (Hm r) as (a & r1 & E1 & P1). destruct (Hk a r1) as (b & r2 & E2 & P2).
  exists b, r2. unfold mbind, M_bind. rewrite E1, E2. split; [done|congruence].
Qed.

Lemma idle_mfold {A} (f : A -> M Runtime unit) l : (forall x, idle (f x)) -> idle (mfold f l).
Proof. intros H. induction l as [|x l IH]; [apply idle_ret|]. apply idle_bind; [apply H|done]. Qed.

Lemma idle_respond ch a : idle (respond ch a).
Proof. by apply idle_modify. Qed.
Lemma idle_complete rd a : idle (complete rd a).
Proof. apply idle_mfold. intros ch. apply idle_respond. Qed.

Lemma idle_answer_waiter i t : idle (answer_waiter i t).
Proof.
  apply idle_get. intros r. destruct (pending r !! i); [|apply idle_ret].
  apply idle_bind; [apply idle_respond|intros _; by apply idle_modify].
Qed.

Lemma idle_resolve : idle resolveMembership.
Proof.
  apply idle_get. intros r. destruct (change r) as [[v ch]|]; [|apply idle_ret]. cbv zeta. destruct (_ || _); [apply idle_ret|].
  apply idle_bind; [apply idle_respond|intros _; by apply idle_modify].
Qed.

Lemma idle_step_down u : idle (step_down u).
Proof.
  apply idle_get. intros r0. destruct (_ && _); [|apply idle_ret]. apply idle_bind; [intros r; rewrite dismiss_eq; by eexists _, _|intros _].
  apply idle_bind; [by apply idle_modify|intros _; by apply idle_modify].
Qed.

End rules.

(** ** Carrying out an update *)

(** The data a snapshot of the update is stored with. *)
Definition source_for (u : Update) (data : option Source) : option Source := match u_snapshot u with Some _ => data | None => None end.

(** The store keeps [d], the machine has applied the log up to [c]; [u] is still to be
    carried out. *)
Definition due (d : Durable) (c : Z) (u : Update) r : Prop :=
  keeps (store r) d /\ owes d c u (node r) /\ sound (machine r) /\ machine_AppliedIndex (machine r) = c.

Definition in_step r : Prop := exists d, due d (commit (node r)) noUpdate r.

(** The machine when the entries are applied: restored from the snapshot if it was
    behind it. *)
Definition restored (c : Z) (d : Durable) (x : mstate) : mstate :=
  if c <? s_index (d_snap d) then load (s_data (d_snap d)) else x.

(** What an entry does to the contents of the machine: a configuration is applied as an
    empty command. *)
Definition apply_entry (x : mstate) (e : Entry) : mstate :=
  perform (e_index e) (if (IsMembershipEntry (e_data e)).1 then [] else e_data e) x.

(** The calls on the machine: restoring it, if it is behind the snapshot of [d], and applying
    the entries; and that it can take them, and write a snapshot of what they lead to. *)
Definition machine_command (e : Entry) : bytes := if (IsMembershipEntry (e_data e)).1 then [] else e_data e.
Definition apply_entries (es : list Entry) : M T unit := mfold (fun e => machine_Apply (e_index e) (machine_command e)) es.
Definition carry (d : Durable) (es : list Entry) : M T unit := fun t =>
  ((if machine_AppliedIndex t <? s_index (d_snap d)
    then machine_RestoreSnapshot (s_index (d_snap d)) (Z.of_nat (length (s_data (d_snap d)))) (s_data (d_snap d)) else mret tt) ;; apply_entries es) t.

Fixpoint takes_entries (es : list Entry) (t : T) : Prop :=
  match es with
  | [] => writable t
  | e :: es' => accepts (e_index e) (machine_command e) t /\ forall t', machine_Apply (e_index e) (machine_command e) t = (Ok tt, t') -> takes_entries es' t'
  end.
Definition takes (d : Durable) (es : list Entry) (t : T) : Prop :=
  if machine_AppliedIndex t <? s_index (d_snap d) then
    loadable (s_index (d_snap d)) (s_data (d_snap d)) t /\
    forall t', machine_RestoreSnapshot (s_index (d_snap d)) (Z.of_nat (length (s_data (d_snap d)))) (s_data (d_snap d)) t = (Ok tt, t') -> takes_entries es t'
  else takes_entries es t.

(** A statement about a node, the state its store keeps, its machine, the messages it has
    sent and those it owes, which everything a turn does preserves: operations the caller
    [admits], carrying out an update whose snapshot is [carried], and compacting the log. *)
Record Watch := {
  watched : Node -> Durable -> T -> list Message -> list Message -> Prop;
  admits : NodeOp -> option Source -> Prop;
  carried : Update -> option Source -> Prop;
  carried_plain u src : u_snapshot u = None -> carried u src;
  watch_core n n' d t out p : core n' = core n -> watched n d t out p -> watched n' d t out p;
  watch_op op data n u n' d t out p : watched n d t out p -> wf (core n) -> op_ok op (core n) -> admits op data ->
    run_op op n = (Ok u, n') -> watched n' d t out (p ++ u_messages u) /\ carried u (source_for u data);
  watch_done n d t out p q u src k t' : watched n d t out (p ++ q) -> carried u src -> wf (core n) -> sound t ->
    let d1 := persist (streamed src u) d in
    s_index (d_snap d) <= machine_AppliedIndex t <= k -> k <= commit n ->
    u_committed u = between (machine_AppliedIndex t) k (core n) -> with_data [] (d_snap d1) = with_data [] (snapshot n) ->
    takes d1 (u_committed u) t -> carry d1 (u_committed u) t = (Ok tt, t') -> watched n d1 t' (out ++ p) q;
  watch_compact n d t out p u n' src : watched n d t out p -> wf (core n) -> k_last (core n) + 1 < 2 ^ 64 -> machine_AppliedIndex t <= commit n ->
    CreateSnapshot (machine_AppliedIndex t) [] n = (Ok u, n') -> load (concat (chunks src)) = contents t ->
    s_index (snapshot n) < machine_AppliedIndex t -> watched n' (persist (streamed (Some src) u) d) t out p
}.

Context (W : Watch).

(** The state after the log was perhaps compacted at [c]. *)
Definition may_compact (c : Z) (d : Durable) (n : Node) (d' : Durable) (n' : Node) : Prop :=
  d' = d /\ n' = n \/ exists u src, CreateSnapshot c [] n = (Ok u, n') /\ source_error src = None /\ d' = persist (streamed (Some src) u) d.

(** The store can write the update, and the log compacted after it, and the machine can take
    what the update brings. *)
Definition update_fits (data : option Source) (u : Update) (d : Durable) (c : Z) (n : Node) (t : T) : Prop :=
  k_last (core n) + 1 < 2 ^ 64 /\ storable (source_for u data) u d /\ takes (persist (streamed (source_for u data) u) d) (u_committed u) t /\
  forall u2 n2 src, CreateSnapshot c [] n = (Ok u2, n2) -> source_error src = None ->
    storable (Some src) u2 (persist (streamed (source_for u data) u) d).

Section update.
Context (P : Prop).

Lemma works_persist u data d r : keeps (store r) d -> storable (source_for u data) u d ->
  works P (wrap "persist raft update" (match u_snapshot u, data with
    | Some _, Some source => on_store (store_PersistSnapshot u source)
    | _, _ => on_store (store_Persist u)
    end)) r (fun _ r' => keeps (store r') (persist (streamed (source_for u data) u) d)).
Proof.
  intros Hk Hs. apply works_wrap. unfold source_for in *.
  destruct (u_snapshot u) as [sn|] eqn:Es; [destruct data as [src|]|]; rewrite ?streamed_none in *; apply works_store.
  - by apply persist_snapshot_keeps; [..|by eexists|].
  - by apply persist_keeps.
  - by apply persist_keeps.
Qed.

Lemma works_restore u src d c n r es : let d1 := persist (streamed src u) d in
  owes d c u n -> keeps (store r) d1 -> sound (machine r) -> machine_AppliedIndex (machine r) = c -> takes d1 es (machine r) ->
  works P (restore_snapshot u) r (fun _ r' => keeps (store r') d1 /\ sound (machine r') /\
    machine_AppliedIndex (machine r') = Z.max c (s_index (snapshot n)) /\ contents (machine r') = restored c d1 (contents (machine r)) /\
    takes_entries es (machine r') /\ carry d1 es (machine r) = apply_entries es (machine r')).
Proof.
  intros d1 Ho Hk Ht Ha Htk. apply works_get. pose proof (owes_snapshot _ _ _ _ src Ho) as Ei. fold d1 in Ei. clearbody d1.
  assert (s_index (snapshot n) <= c -> keeps (store r) d1 /\ sound (machine r) /\
    machine_AppliedIndex (machine r) = Z.max c (s_index (snapshot n)) /\ contents (machine r) = restored c d1 (contents (machine r)) /\
    takes_entries es (machine r) /\ carry d1 es (machine r) = apply_entries es (machine r)) as Hskip.
  { intros Hle. unfold restored, takes, carry in *. rewrite Ha in *. rewrite (proj2 (Z.ltb_ge _ _)) in * by lia. split_and!; [done|done|lia|done|done|done]. }
  destruct (u_snapshot u) as [s|] eqn:Es.
  2:{ apply works_ret, Hskip. rewrite (owes_keeps_snapshot _ _ _ _ Ho Es). apply (ow_snap _ _ _ _ Ho). }
  destruct (owes_installs _ _ _ _ _ Ho Es) as [Hi|[Hle1 Hle2]].
  2:{ rewrite Ha, (proj2 (Z.ltb_ge _ _)) by lia. by apply works_ret, Hskip. }
  rewrite Ha. destruct (Z.ltb_spec c (s_index s)); [|apply works_ret, Hskip; lia].
  rewrite <- Hi, <- Ei. destruct (ow_snap _ _ _ _ Ho).
  apply works_bind, works_wrap, works_store. eapply runs_mono; [by apply (open_keeps (store r) d1); [done|lia]| |done|done].
  intros [[content size] sum] s1 [(Hk1 & -> & ->) Hf]. split; [|done].
  intros HP _. unfold bad in HP. cbn in HP. apply runs_bind, runs_try_err, runs_zoom.
  unfold takes in Htk. rewrite Ha, (proj2 (Z.ltb_lt c (s_index (d_snap d1)))) in Htk by lia. destruct Htk as [Hld Htk].
  eapply runs_mono; [apply fails_to_eq, restore_runs; [done|done|cbn; lia]| | |done].
  - intros [] t [[(Ht1 & Ha1 & Hx1) Hrun] Hf1]. pose proof (sound_closable t Ht1) as Hc1. apply runs_bind, runs_try_err, runs_zoom.
    eapply runs_mono; [by apply (close_reader_keeps s1 d1)| | |done].
    + intros _ s2 [Hk2 Hf2]. split; [|unfold bad; cbn; tauto]. cbn. unfold restored, carry. rewrite Ha, (proj2 (Z.ltb_lt c (s_index (d_snap d1)))) by lia.
      split_and!; [done|done|lia|done|by apply Htk|]. cbn in Hrun. unfold mbind, M_bind. by rewrite Hrun.
    + intros s2 Hb e. cbn in *. tauto.
  - intros t [Hb Hc1] e. apply runs_bind, runs_try_err, runs_zoom. eapply runs_mono; [by apply (close_reader_keeps s1 d1)| | |done].
    + intros _ s2 _. split; [apply HP; by right|done].
    + intros s2 _ e2. split; [apply HP; by right|done].
Qed.

Lemma works_apply e r : sound (machine r) -> accepts (e_index e) (machine_command e) (machine r) -> e_index e = machine_AppliedIndex (machine r) + 1 -> 0 < e_index e < 2 ^ 64 ->
  (IsMembershipEntry (e_data e)).2 = None ->
  works P (apply_committed e) r (fun _ r' => sound (machine r') /\ machine_AppliedIndex (machine r') = e_index e /\
    contents (machine r') = apply_entry (contents (machine r)) e /\ machine_Apply (e_index e) (machine_command e) (machine r) = (Ok tt, machine r')).
Proof.
  intros Ht Hacc Hi Hb Hm. apply works_get. cbv zeta. rewrite (proj2 (Z.leb_gt _ _)) by lia.
  rewrite u64_small, <- Hi, Z.eqb_refl by lia. cbn [negb]. unfold apply_entry, machine_command in *. destruct (IsMembershipEntry (e_data e)) as [b [?|]]; [done|].
  apply works_bind, works_wrap, works_machine. eapply runs_mono; [by apply fails_to_eq, apply_runs| |done|done]. intros [] t [[(H1 & H2 & H3) Hrun] Hf].
  split; [split; [|done]|done]. apply idle_works; [apply idle_answer_waiter|]. intros _ r' Hp. injection Hp as _ _ ->. done.
Qed.

Lemma works_apply_all es r : sound (machine r) -> takes_entries es (machine r) -> 0 <= machine_AppliedIndex (machine r) ->
  e_index <$> es = seqZ (machine_AppliedIndex (machine r) + 1) (Z.of_nat (length es)) ->
  machine_AppliedIndex (machine r) + Z.of_nat (length es) < 2 ^ 64 -> Forall (fun e => (IsMembershipEntry (e_data e)).2 = None) es ->
  works P (mfold apply_committed es) r (fun _ r' => sound (machine r') /\
    machine_AppliedIndex (machine r') = machine_AppliedIndex (machine r) + Z.of_nat (length es) /\
    contents (machine r') = foldl apply_entry (contents (machine r)) es /\ apply_entries es (machine r) = (Ok tt, machine r') /\
    writable (machine r')).
Proof.
  revert r. induction es as [|e es IH]; intros r Ht Htk H0 Hi Hb Hm; cbn [mfold foldl length].
  { apply works_ret. split_and!; [done|lia|done|done|done]. }
  destruct Htk as [Hacc Htk].
  cbn [length fmap list_fmap] in Hi, Hb. rewrite seqZ_cons in Hi by lia. injection Hi as Hi Hes. inversion Hm; subst.
  apply works_bind. eapply works_mono; [apply works_apply; [done|done|done|lia|done]|]. intros _ r1 (Ht1 & Ha1 & Hx1 & Hrun1).
  eapply works_mono; [apply IH; [done|by apply Htk|lia| |lia|done]|].
  - rewrite Hes, Ha1, Hi. f_equal; lia.
  - intros _ r2 (Ht2 & Ha2 & Hx2 & Hrun2 & Hwr). rewrite Hx2, Hx1. split_and!; [done|lia|done| |done].
    unfold apply_entries in *. cbn [mfold]. unfold mbind at 1, M_bind at 1. by rewrite Hrun1.
Qed.

(** Everything the update delivers is applied, and the machine is where the node's commit
    index is. *)
Lemma works_committed u d c n r : owes d c u n -> sound (machine r) -> takes_entries (u_committed u) (machine r) -> machine_AppliedIndex (machine r) = Z.max c (s_index (snapshot n)) ->
  works P (mfold apply_committed (u_committed u)) r (fun _ r' => sound (machine r') /\ machine_AppliedIndex (machine r') = commit n /\
    contents (machine r') = foldl apply_entry (contents (machine r)) (u_committed u) /\ apply_entries (u_committed u) (machine r) = (Ok tt, machine r') /\
    writable (machine r')).
Proof.
  intros [Hw Hs Hl Hc _ Hdel] Ht Htk Ha. pose proof (wf_commit _ Hw) as Hcm. pose proof (wf_last _ Hw) as Hlast. cbn in Hcm.
  pose proof (between_indexes c (commit n) (core n) Hw ltac:(apply Hcm)) as Hix. cbv zeta in Hix.
  rewrite <- Hdel in Hix. change (k_snap (core n)) with (snapshot n) in *.
  pose proof (f_equal length Hix) as Hlen. rewrite length_fmap, length_seqZ in Hlen.
  eapply works_mono; [apply works_apply_all; [done|done|lia| |lia|]|].
  - rewrite Hix, Ha. f_equal; lia.
  - rewrite Hdel. apply Forall_forall. intros e [_ He]%list_elem_of_filter. eapply conf_decodes; [exact (wf_memb _ Hw)|done].
  - intros _ r' (? & Ha' & ? & ? & ?). split_and!; [done|lia|done|done|done].
Qed.

Lemma works_take_snapshot d c v r p : due d c v r -> watched W (node r) d (machine r) (outgoing r) p -> writable (machine r) -> late v c -> k_last (core (node r)) + 1 < 2 ^ 64 ->
  (forall u n src, CreateSnapshot c [] (node r) = (Ok u, n) -> source_error src = None -> storable (Some src) u d) ->
  works P take_snapshot r (fun _ r' => exists d', due d' c v r' /\ may_compact c d (node r) d' (node r') /\ machine r' = machine r /\
    watched W (node r') d' (machine r') (outgoing r') p).
Proof.
  intros (Hk & Ho & Ht & Ha) HG Hwr Hv Hroom Hfit. apply works_get. cbv zeta.
  destruct (_ && _ && _) eqn:E. 2:{ apply works_ret. exists d. split_and!; [done|by left|done|done]. }
  rewrite !andb_true_iff in E. destruct E as ((_ & E) & _). bool_hyps. cbn in E. rewrite Ha in *. apply works_bind, works_wrap, works_node.
  pose proof (ow_wf _ _ _ _ Ho) as Hw. pose proof (ow_commit _ _ _ _ Ho) as Hcm.
  pose proof (CreateSnapshot_works Quiet c [] (node r) Hw Hroom ltac:(lia)) as H. unfold does, runs in *.
  destruct (CreateSnapshot c [] (node r)) as [[u|e| |] n'] eqn:Ec; [|done..]. destruct H as (Hp & Ecm & s & -> & Hsi & Hst & Hs0).
  pose proof (write_snapshot_runs (machine r) Ht Hwr ltac:(pose proof (wf_snap _ Hw) as [? _]; cbn in *; lia)) as Hs. destruct (machine_WriteSnapshot (machine r)) as [src i].
  destruct Hs as (Hs & -> & Hld). rewrite Hs, Ha, Z.eqb_refl. apply works_wrap, works_store.
  eapply runs_mono; [apply (persist_snapshot_keeps _ src (store r) d); [done|by eexists|by eapply Hfit]| |done|done].
  intros _ s' [Hk' Hf]. split; [|done]. eexists. split_and!; [|right; by eexists _, _|done|].
  - split_and!; [exact Hk'| |done|done]. cbn. by eapply owes_compact.
  - cbn. rewrite <- Ha in Ec. eapply (watch_compact W); [exact HG|done|done|lia|exact Ec|done|cbn; lia].
Qed.

Lemma between_take c lo hi : wf c -> s_index (k_snap c) <= hi ->
  between lo hi c = filter (fun e => lo < e_index e <= hi) (take (Z.to_nat (hi - s_index (k_snap c))) (k_log c)).
Proof.
  intros Hw Hhi. pose proof (wf_log _ Hw) as Hl. unfold between.
  rewrite <- (take_drop (Z.to_nat (hi - s_index (k_snap c))) (k_log c)) at 1. rewrite filter_app, (filter_Forall_none _ (drop _ _)); [by rewrite app_nil_r|].
  apply Forall_lookup. intros i e Hi. rewrite lookup_drop in Hi. destruct (Hl _ _ Hi). lia.
Qed.

(** What an update delivers is still in the log of a node that has gone on. *)
Lemma delivered_now d c u n v n' src : owes d c u n -> owes (persist (streamed src u) d) (commit n) v n' -> late v (commit n) ->
  u_committed u = between c (commit n) (core n') /\ with_data [] (d_snap (persist (streamed src u) d)) = with_data [] (snapshot n').
Proof.
  intros Ho Ho' [Hs Ht]. set (d1 := persist (streamed src u) d) in *. pose proof (ow_dur _ _ _ _ Ho) as E. pose proof (ow_dur _ _ _ _ Ho') as E'.
  assert (sans (dur (core n)) = sans d1) as E1 by (rewrite E; symmetry; by apply sans_persist). clearbody d1.
  pose proof (wf_commit _ (ow_wf _ _ _ _ Ho)) as Hc. pose proof (wf_commit _ (ow_wf _ _ _ _ Ho')) as Hc'. pose proof (ow_commit _ _ _ _ Ho') as Hle.
  assert (with_data [] (snapshot n') = with_data [] (d_snap d1)) as Esn.
  { apply (f_equal d_snap) in E'. rewrite persist_eq in E'. unfold after_snap in E'. rewrite Hs in E'.
    change (with_data [] (snapshot n') = with_data [] (d_snap (after_hard v d1))) in E'. by rewrite (proj1 (after_hard_same v d1)) in E'. }
  split; [|done]. rewrite (ow_del _ _ _ _ Ho). cbn in Hc, Hc'.
  assert (s_index (snapshot n') = s_index (snapshot n)) as Ei.
  { apply (f_equal s_index) in Esn. apply (f_equal (fun d => s_index (d_snap d))) in E1. cbn in *. congruence. }
  assert (log n' = kept (u_truncateFrom v) d1 ++ u_entries v) as El'.
  { apply (f_equal d_log) in E'. rewrite persist_eq in E'. unfold after_snap in E'. rewrite Hs in E'. unfold kept in *. cbn in E'.
    destruct (after_hard_same v d1) as [F1 F2]. by rewrite F1, F2 in E'. }
  assert (log n = d_log d1) as El by (apply (f_equal d_log) in E1; exact E1).
  assert (s_index (d_snap d1) = s_index (snapshot n)) as Ed by (apply (f_equal s_index) in Esn; cbn in Esn; congruence).
  assert (take (Z.to_nat (commit n - s_index (snapshot n))) (log n') = take (Z.to_nat (commit n - s_index (snapshot n))) (log n)) as Etk.
  { rewrite El', El. unfold kept. unfold k_last in *. cbn in *. rewrite El in Hc. destruct (Z.eqb_spec (u_truncateFrom v) 0).
    - rewrite take_app_le by lia. done.
    - destruct Ht as [?|Ht]; [done|]. rewrite take_app_le by (rewrite length_take; lia). rewrite take_take. f_equal. lia. }
  rewrite !between_take by (apply Ho || apply Ho' || (cbn; lia)). cbn. by rewrite Ei, Etk.
Qed.

Lemma works_send ms r Q : Q tt (with_outgoing (outgoing r ++ ms) r) -> works P (send ms) r Q.
Proof. by intros ? ?. Qed.

Lemma works_update data u n v d r p : let d1 := persist (streamed (source_for u data) u) d in let c := machine_AppliedIndex (machine r) in
  keeps (store r) d -> owes d c u n -> owes d1 (commit n) v (node r) -> late v (commit n) -> sound (machine r) ->
  watched W (node r) d (machine r) (outgoing r) (u_messages u ++ p) -> carried W u (source_for u data) ->
  update_fits data u d (commit n) (node r) (machine r) ->
  works P (processUpdateWithSnapshot u data) r (fun _ r' => exists d', due d' (commit n) v r' /\
    may_compact (commit n) d1 (node r) d' (node r') /\
    contents (machine r') = foldl apply_entry (restored c d1 (contents (machine r))) (u_committed u) /\
    carry d1 (u_committed u) (machine r) = (Ok tt, machine r') /\ watched W (node r') d' (machine r') (outgoing r') p).
Proof.
  intros d1 c Hk Ho Hv Hlate Ht HG Hca (Hroom & Hs & Htk & Hfit). fold d1 in Htk. fold d1 in Hfit. unfold processUpdateWithSnapshot.
  apply works_bind. eapply (works_leaves _ (fun r => (node r, machine r, outgoing r))); [by apply leaves_persist|].
  eapply works_mono; [by eapply works_persist|]. fold d1. intros ? r1 Hk1 [= En1 Et1 Eo1].
  apply works_bind. eapply (works_leaves _ (fun r => (node r, outgoing r))); [by apply leaves_restore|].
  eapply works_mono; [eapply (works_restore u (source_for u data) d c n r1 (u_committed u)); [exact Ho|exact Hk1|by rewrite Et1|by rewrite Et1|by rewrite Et1]|].
  fold d1. intros ? r2 (Hk2 & Ht2 & Ha2 & Hx2 & Htk2 & Hc2) [= En2 Eo2]. rewrite Et1 in Hx2, Hc2. apply works_bind, works_send.
  set (r3 := with_outgoing _ r2). apply works_bind.
  eapply (works_leaves _ (fun r => (node r, store r, outgoing r))); [by apply leaves_mfold; intros e; apply leaves_apply|].
  eapply works_mono; [apply (works_committed u d c n); done|]. intros ? r4 (Ht4 & Ha4 & Hx4 & Hc4 & Hwr4) [= En4 Es4 Eo4].
  change (machine r3) with (machine r2) in *. rewrite Hx2 in Hx4. rewrite <- Hc2 in Hc4.
  assert (node r4 = node r) as En by (rewrite En4; cbn; congruence). assert (outgoing r4 = outgoing r ++ u_messages u) as Eo by (rewrite Eo4; cbn; congruence).
  destruct (delivered_now _ _ _ _ _ _ _ Ho Hv Hlate) as [Edel Esnap]. fold d1 in Esnap. destruct (ow_snap _ _ _ _ Ho). pose proof (ow_commit _ _ _ _ Ho).
  pose proof (watch_done W (node r) d (machine r) (outgoing r) (u_messages u) p u (source_for u data) (commit n) (machine r4) HG Hca (ow_wf _ _ _ _ Hv) Ht
    ltac:(fold c; lia) (ow_commit _ _ _ _ Hv) Edel Esnap Htk Hc4) as HG4. fold d1 in HG4. rewrite <- En, <- Eo in HG4.
  apply works_bind. eapply works_mono; [apply (works_take_snapshot d1 (commit n) v r4 p); rewrite ?En; try done|].
  { split_and!; [by rewrite Es4|by rewrite En|done|done]. }
  { by rewrite En in HG4. }
  intros ? r5 (d2 & (Hk5 & Ho5 & Ht5 & Ha5) & Hmc & Et5 & HG5). apply works_bind, idle_works; [apply idle_resolve|]. intros _ r6 Hp6.
  apply idle_works; [apply idle_step_down|]. intros _ r7 Hp7. rewrite Hp6 in Hp7. injection Hp7 as En7 Es7 Et7 Eo7.
  exists d2. rewrite En in Hmc. unfold due. rewrite En7, Es7, Et7, Eo7, Et5, Hx4 in *. rewrite <- Hc4. split_and!; try done.
Qed.

End update.

(** *** Sending *)

(** The call that makes an update durable. *)
Definition persisted (u : Update) (data : option Source) (s s1 : S) : Prop :=
  match u_snapshot u, data with
  | Some _, Some source => store_PersistSnapshot u source s
  | _, _ => store_Persist u s
  end = (Ok tt, s1).

Lemma bind_outcome {A B} (m : M (@Runtime S T) A) (k : A -> M Runtime B) r :
  (exists a, (m r).1 = Ok a /\ (m ≫= k) r = k a (m r).2) \/ ((m ≫= k) r).2 = (m r).2 /\ is_ok ((m ≫= k) r).1 = false.
Proof. unfold mbind, M_bind. destruct (m r) as [[a|e| |] r1]; [left; by exists a|by right..]. Qed.

(** In every outcome the messages of an update are queued only once it is durable. *)
Lemma send_after_persist u data r r' o : processUpdateWithSnapshot u data r = (o, r') ->
  outgoing r' = outgoing r /\ is_ok o = false \/ outgoing r' = outgoing r ++ u_messages u /\ exists s1, persisted u data (store r) s1.
Proof.
  intros Er. replace r' with (processUpdateWithSnapshot u data r).2 by (by rewrite Er).
  replace o with (processUpdateWithSnapshot u data r).1 by (by rewrite Er). clear Er r' o. unfold processUpdateWithSnapshot.
  match goal with |- context [wrap ?w ?m] => set (m1 := wrap w m) end.
  assert (outgoing (m1 r).2 = outgoing r) as L1 by (by apply leaves_persist).
  destruct (bind_outcome m1 (fun _ => restore_snapshot u ;; send (u_messages u) ;; mfold apply_committed (u_committed u) ;;
    take_snapshot ;; resolveMembership ;; step_down u) r) as [([] & E & ->)|[-> ->]]; [|by left].
  assert (exists s1, persisted u data (store r) s1) as Hp.
  { revert E. unfold m1, wrap, catch, persisted, on_store, zoom. destruct (u_snapshot u), data;
      match goal with |- context [?m (store r)] => destruct (m (store r)) as [[[]|e| |] s1] end; intros E; try done; eauto. }
  rewrite <- L1. generalize (m1 r).2. clear L1 E m1. intros r1.
  assert (outgoing (restore_snapshot u r1).2 = outgoing r1) as L2 by (by apply leaves_restore).
  destruct (bind_outcome (restore_snapshot u) (fun _ => send (u_messages u) ;; mfold apply_committed (u_committed u) ;;
    take_snapshot ;; resolveMembership ;; step_down u) r1) as [([] & _ & ->)|[-> ->]]; [|by left].
  right. split; [|done]. rewrite <- L2. generalize (restore_snapshot u r1).2. intros r2.
  set (r3 := with_outgoing (outgoing r2 ++ u_messages u) r2).
  change (outgoing ((mfold apply_committed (u_committed u) ;; take_snapshot ;; resolveMembership ;; step_down u) r3).2 = outgoing r3).
  refine (leaves_bind outgoing _ _ _ _ r3).
  { by apply leaves_mfold; intros e; apply leaves_apply. }
  intros _. apply leaves_bind; [by apply leaves_take_snapshot|intros _]. apply leaves_bind; [by apply leaves_resolve|intros _].
  apply leaves_get. intros r4. destruct (_ && _); [|apply leaves_ret]. apply leaves_bind; [by apply leaves_dismiss|intros _].
  apply leaves_bind; [by apply leaves_modify|intros _; by apply leaves_modify].
Qed.

Lemma due_in_step d n r : due d (commit n) noUpdate r -> in_step r.
Proof. intros (Hk & Ho & Ht & Ha). destruct (owes_none _ _ _ Ho) as [Ec _]. exists d. unfold due. by rewrite Ec. Qed.

(** ** A turn *)

Definition op_fits (op : NodeOp) (data : option Source) (d : Durable) (n : Node) (t : T) : Prop :=
  op_ok op (core n) /\ admits W op data /\ forall u n', run_op op n = (Ok u, n') -> update_fits data u d (commit n') n' t.

(** The appends of a group: those merged so far are [merged]. *)
Fixpoint group_fits (group : list (Message * chan)) (merged : Update) (d : Durable) (n : Node) (t : T) : Prop :=
  match group with
  | [] => update_fits None merged d (commit n) n t
  | (m, _) :: group' => m_type m = MsgAppend /\ op_ok (OpStep m) (core n) /\ admits W (OpStep m) None /\ forall u n', Step m n = (Ok u, n') ->
      if mergeable u then group_fits group' (merge_append merged u) d n' t else
      update_fits None merged d (commit n) n' t /\
      forall d1 n1 t1, may_compact (commit n) (persist merged d) n' d1 n1 -> carry (persist merged d) (u_committed merged) t = (Ok tt, t1) ->
      update_fits None u d1 (commit n1) n1 t1 /\
      forall d2 n2 t2, may_compact (commit n1) (persist u d1) n1 d2 n2 -> carry (persist u d1) (u_committed u) t1 = (Ok tt, t2) ->
      group_fits group' noUpdate d2 n2 t2
  end.

(** The batch of a proposal and the group of an append, as the handlers collect them. *)
Definition batch_of (data : bytes) (ch : chan) r : list (bytes * chan) :=
  match deferred r with [] => (drain_proposals (capacity r) (events r) [(data, ch)] (proposalBytes data) []).1.1 | _ => [(data, ch)] end.
Definition group_of (m : Message) (ch : chan) r : list (Message * chan) :=
  let '(count, size) := appendLoad m in (drain_appends (capacity r) (m_from m) (events r) [(m, ch)] count size []).1.1.

Definition event_fits (ev : event) (d : Durable) r : Prop :=
  match ev with
  | proposalEvent data ch => op_fits (OpProposeBatch ((batch_of data ch r).*1)) None d (node r) (machine r)
  | membershipEvent voters _ => op_fits (OpProposeMembership voters) None d (node r) (machine r)
  | messageEvent m data ch =>
      match data, deferred r with
      | None, [] => if bool_decide (m_type m = MsgAppend) then group_fits (group_of m ch r) noUpdate d (node r) (machine r)
                    else op_fits (OpStep m) None d (node r) (machine r)
      | _, _ => op_fits (OpStep m) data d (node r) (machine r)
      end
  | readEvent _ => op_fits (OpReadProbe (u64 (nextReadContext r + 1))) None d (node r) (machine r)
  | statusEvent _ | stopEvent _ => True
  end.

(** A loop that owes an update, watched; and one that owes nothing. *)
Definition ready (d : Durable) (c : Z) (u : Update) r : Prop :=
  due d c u r /\ watched W (node r) d (machine r) (outgoing r) (u_messages u).
Definition quiescent r : Prop := exists d, ready d (commit (node r)) noUpdate r.

Lemma due_quiescent d n r : due d (commit n) noUpdate r -> watched W (node r) d (machine r) (outgoing r) [] -> quiescent r.
Proof. intros (Hk & Ho & Ht & Ha) HG. destruct (owes_none _ _ _ Ho) as [Ec _]. exists d. unfold ready, due. by rewrite Ec. Qed.

Section handlers.
Context (P : Prop).

Lemma idle_acknowledge m : idle (acknowledgeRead m).
Proof.
  apply idle_get. intros r. destruct (pendingReads r !! _) as [rd|]; [|apply idle_ret]. destruct (_ || _); [apply idle_ret|]. cbv zeta.
  apply idle_bind; [by apply idle_modify|intros _]. destruct (negb _); [apply idle_ret|]. destruct (_ <? _); [apply idle_ret|].
  apply idle_bind; [apply idle_complete|intros _; by apply idle_modify].
Qed.

(** An operation of the node, then its update. *)
Lemma works_op op u n data d r r1 : ready d (commit n) noUpdate r -> node r = n -> op_fits op data d n (machine r) -> run_op op n = (Ok u, node r1) ->
  store r1 = store r -> machine r1 = machine r -> outgoing r1 = outgoing r -> works P (processUpdateWithSnapshot u data) r1 (fun _ r' => quiescent r').
Proof.
  intros [(Hk & Ho & Ht & Ha) HG] En (Hop & Had & Hfit) Hrun Es Et Eo. subst n. pose proof (ow_wf _ _ _ _ Ho) as Hw. destruct (owes_none _ _ _ Ho) as [_ Hd].
  destruct (run_op_performs _ _ _ _ Hw Hop Hrun) as [Hp Hw']. pose proof (performs_owes _ _ _ _ d Hw Hp Hd) as Ho1.
  destruct (watch_op W op data _ _ _ _ _ _ _ HG Hw Hop Had Hrun) as [HG1 Hca].
  eapply works_mono; [apply (works_update P data u (node r1) noUpdate d r1 []); rewrite ?Es, ?Et, ?Eo, ?Ha, ?app_nil_r; try done|].
  - apply owes_nothing; [done|]. rewrite (ow_dur _ _ _ _ Ho1). by apply sans_persist.
  - split; [done|by left].
  - by apply Hfit.
  - intros _ r' (d' & Hdue & _ & _ & _ & HG'). by eapply due_quiescent.
Qed.

(** A node that did not move. *)
Lemma quiescent_parts d r r' : ready d (commit (node r)) noUpdate r -> core (node r') = core (node r) -> store r' = store r -> machine r' = machine r ->
  outgoing r' = outgoing r -> quiescent r'.
Proof.
  intros [(Hk & Ho & Ht & Ha) HG] En Es Et Eo. destruct (owes_none _ _ _ Ho) as [_ Hd]. exists d. unfold ready, due. rewrite Es, Et, Eo.
  split_and!; [done| |done|by rewrite Ha; symmetry; exact (f_equal k_commit En)|by eapply watch_core]. apply owes_nothing; rewrite En; [apply Ho|done].
Qed.

Lemma works_on_op op r : wf (core (node r)) -> op_ok op (core (node r)) -> (op = OpTick \/ exists m, op = OpStep m) ->
  works P (on_node (run_op op)) r (fun u r1 => run_op op (node r) = (Ok u, node r1) /\ store r1 = store r /\ machine r1 = machine r /\ outgoing r1 = outgoing r).
Proof.
  intros Hw [Hroom Hop] Hk. apply works_node. assert (does (run_op op) (node r) (fun _ _ => True)) as H.
  { destruct Hk as [->|[m ->]]; [eapply does_mono; [by apply (Tick_spec Quiet)|done]|].
    destruct Hop. eapply does_mono; [by apply Step_spec|done]. }
  unfold does, runs in *. destruct (run_op op (node r)) as [[u|e| |] n]; done.
Qed.

Lemma works_tick d r : ready d (commit (node r)) noUpdate r -> op_fits OpTick None d (node r) (machine r) ->
  works P (u ← on_node Tick; processUpdate u) r (fun _ r' => quiescent r').
Proof.
  intros Hdue Hfit. pose proof Hdue as [(_ & Ho & _) _]. apply works_bind.
  eapply works_mono; [apply (works_on_op OpTick); [apply Ho|apply Hfit|by left]|]. intros u r1 (Hrun & Es & Et & Eo). by eapply works_op.
Qed.

Lemma works_message m data ch d r : ready d (commit (node r)) noUpdate r -> op_fits (OpStep m) data d (node r) (machine r) ->
  works P (handle_message m data ch) r (fun _ r' => quiescent r').
Proof.
  intros Hdue Hfit. pose proof Hdue as [(_ & Ho & _) _]. apply works_bind.
  eapply works_mono; [apply (works_on_op (OpStep m)); [apply Ho|apply Hfit|by right; exists m]|]. intros u r1 (Hrun & Es & Et & Eo).
  assert (forall r1 r2, quiescent r1 -> parts r2 = parts r1 -> quiescent r2) as Hp.
  { intros r2 r3 (d2 & H2) [= E1 E2 E3 E4]. eapply quiescent_parts; [exact H2|by rewrite E1|done|done|done]. }
  apply works_bind, works_try_err.
  - eapply works_mono; [by eapply works_op|]. intros ? r2 Hr2. apply works_bind. apply idle_works.
    { destruct (_ && _); [|apply idle_ret]. apply idle_acknowledge. }
    intros _ r3 Hp3. apply works_bind, idle_works; [apply idle_respond|]. intros _ r4 Hp4. apply works_ret. eapply Hp; [exact Hr2|congruence].
  - intros e r2 HP. apply works_bind, works_ret, works_bind, idle_works; [apply idle_respond|]. intros _ r3 _. by apply works_raise.
Qed.



Lemma ready_parts d c u r r' : parts r' = parts r -> ready d c u r -> ready d c u r'.
Proof. intros [= E1 E2 E3 E4]. unfold ready, due. by rewrite E1, E2, E3, E4. Qed.

Lemma proposes_eq {A} (m : M Node A) n R : proposes m n R -> proposes m n (fun a n' => R a n' /\ m n = (Ok a, n')).
Proof. unfold proposes, runs. destruct (m n) as [[a|e| |] n']; done. Qed.

Lemma length_indexes data i t : length (assign i t data).1 = length data.
Proof.
  revert i. induction data as [|c data IH]; intros i; [done|]. cbn [assign]. destruct (_ <? _).
  - specialize (IH i). destruct (assign i t data). cbn in *. lia.
  - specialize (IH (i + 1)). destruct (assign (i + 1) t data). cbn in *. lia.
Qed.

Lemma idle_register batch indexes : length indexes = length batch -> idle (register batch indexes).
Proof.
  revert indexes. induction batch as [|[data ch] batch IH]; intros [|i indexes]; cbn; try done; [intros _; apply idle_ret|]. intros [= Hl].
  apply idle_bind; [destruct (_ =? _); [apply idle_respond|by apply idle_modify]|]. intros _. by apply IH.
Qed.

Lemma works_propose batch d r : ready d (commit (node r)) noUpdate r -> op_fits (OpProposeBatch (batch.*1)) None d (node r) (machine r) ->
  works P (proposeBatch batch) r (fun _ r' => quiescent r').
Proof.
  intros Hdue Hfit. pose proof Hdue as [(_ & Ho & _) _]. pose proof Hfit as [[_ [Hop1 Hop2]] _]. apply works_bind.
  eapply works_attempt; [apply proposes_eq, (ProposeBatch_spec Quiet); [apply Ho|done|done]| |].
  - intros e. apply idle_works; [apply idle_mfold; intros [? ?]; apply idle_respond|]. intros _ r' [= E1 E2 E3 E4].
    eapply quiescent_parts; [exact Hdue|by rewrite E1|done|done|done].
  - intros [indexes u] n' [(_ & Hix & _ & Hq) Hrun]. cbn [fst snd] in *. apply works_bind, idle_works.
    { apply idle_register. by rewrite Hix, length_indexes, length_fmap. }
    intros _ r1 [= E1 E2 E3 E4]. destruct (_ =? _)%nat eqn:E.
    + apply works_ret. bool_hyps. apply length_zero_iff_nil in E. eapply quiescent_parts; [exact Hdue|by rewrite E1; apply Hq|done|done|done].
    + eapply (works_op (OpProposeBatch (batch.*1))); [exact Hdue|done|done| |done|done|done]. cbn. unfold mbind, M_bind. by rewrite Hrun, E1.
Qed.

Lemma works_membership voters ch d r : ready d (commit (node r)) noUpdate r -> op_fits (OpProposeMembership voters) None d (node r) (machine r) ->
  works P (handle_membership voters ch) r (fun _ r' => quiescent r').
Proof.
  intros Hdue Hfit. pose proof Hdue as [(_ & Ho & _) _]. pose proof Hfit as [[_ [Hop1 Hop2]] _]. apply works_bind.
  eapply works_attempt; [apply proposes_eq, ProposeMembership_spec; [apply Ho|done|done]| |].
  - intros e. apply idle_works; [apply idle_respond|]. intros _ r' [= E1 E2 E3 E4]. eapply quiescent_parts; [exact Hdue|by rewrite E1|done|done|done].
  - intros [index u] n' [(_ & _ & Hq) Hrun]. cbn [fst snd] in *. apply works_get. destruct (Z.leb_spec index (st_CommitIndex (status (node (with_node n' r))))).
    + apply idle_works; [apply idle_respond|]. intros _ r' [= E1 E2 E3 E4]. eapply quiescent_parts; [exact Hdue|by rewrite E1; apply Hq|done|done|done].
    + apply works_bind, idle_works; [by apply idle_modify|]. intros _ r1 [= E1 E2 E3 E4].
      eapply (works_op (OpProposeMembership voters)); [exact Hdue|done|done| |done|done|done]. cbn. unfold mbind, M_bind. by rewrite Hrun, E1.
Qed.

Lemma works_read ch d r : ready d (commit (node r)) noUpdate r -> op_fits (OpReadProbe (u64 (nextReadContext r + 1))) None d (node r) (machine r) ->
  works P (handle_read ch) r (fun _ r' => quiescent r').
Proof.
  intros Hdue Hfit. apply works_bind. eapply (works_leaves _ nextReadContext).
  { apply leaves_get. intros r0. destruct (deferred r0).
    - destruct (queued_reads _ _ _ _) as [[? ?] ?]. apply leaves_bind; [by apply leaves_modify|intros _].
      apply leaves_bind; [by apply leaves_modify|intros _; apply leaves_ret].
    - destruct (leading_reads _). apply leaves_bind; [by apply leaves_modify|intros _; apply leaves_ret]. }
  apply idle_works.
  { apply idle_get. intros r0. destruct (deferred r0).
    - destruct (queued_reads _ _ _ _) as [[? ?] ?]. apply idle_bind; [by apply idle_modify|intros _].
      apply idle_bind; [by apply idle_modify|intros _; apply idle_ret].
    - destruct (leading_reads _). apply idle_bind; [by apply idle_modify|intros _; apply idle_ret]. }
  intros reads r1 Hp1 Ec1. apply works_get. cbv zeta. rewrite Ec1. set (c := u64 _) in *.
  apply works_bind, idle_works; [by apply idle_modify|]. intros _ r2 Hp2. rewrite Hp1 in Hp2.
  pose proof (ready_parts _ _ _ _ _ Hp2 Hdue) as Hdue2. injection Hp2 as En2 Es2 Et2 Eo2. rewrite <- En2, <- Et2 in Hfit. rewrite <- En2 in Hdue2. pose proof Hdue2 as [(_ & Ho & _) _].
  apply works_bind. eapply works_attempt; [apply proposes_eq, (ReadProbe_spec Quiet), Ho| |].
  - intros e. apply idle_works; [apply idle_complete|]. intros _ r' [= E1 E2 E3 E4]. eapply quiescent_parts; [exact Hdue2|by rewrite E1|done|done|done].
  - intros u n' [_ Hrun]. apply works_bind, idle_works; [by apply idle_modify|]. intros _ r3 [= E1 E2 E3 E4]. apply works_bind.
    eapply works_mono; [eapply (works_op (OpReadProbe c)); [exact Hdue2|done|done|by rewrite E1|done|done|done]|]. intros ? r4 (d4 & H4).
    apply works_get. assert (forall r5, parts r5 = parts r4 -> quiescent r5) as Hp.
    { intros r5 [= F1 F2 F3 F4]. eapply quiescent_parts; [exact H4|by rewrite F1|done|done|done]. }
    destruct (HasQuorum _ _); [|by apply works_ret, Hp]. apply idle_works; [|by intros _].
    apply idle_bind; [apply idle_complete|intros _; by apply idle_modify].
Qed.



Lemma source_for_none u : source_for u None = None.
Proof. unfold source_for. by destruct (u_snapshot u). Qed.

(** Flushing what was merged, while the node is already ahead by [v]. *)
Lemma works_flush merged waiting d c n v r p : keeps (store r) d -> owes d c merged n -> owes (persist merged d) (commit n) v (node r) ->
  late v (commit n) -> sound (machine r) -> machine_AppliedIndex (machine r) = c -> update_fits None merged d (commit n) (node r) (machine r) ->
  (waiting = [] -> merged = noUpdate) -> u_snapshot merged = None -> watched W (node r) d (machine r) (outgoing r) (u_messages merged ++ p) ->
  works P (flush merged waiting) r (fun _ r' => exists d', due d' (commit n) v r' /\ may_compact (commit n) (persist merged d) (node r) d' (node r') /\
    carry (persist merged d) (u_committed merged) (machine r) = (Ok tt, machine r') /\ watched W (node r') d' (machine r') (outgoing r') p).
Proof.
  intros Hk Ho Hv Hl Ht Ha Hfit Hw Hns HG. unfold flush. destruct (_ =? _)%nat eqn:E.
  { bool_hyps. apply length_zero_iff_nil in E. rewrite (Hw E), persist_none in *. destruct (owes_none _ _ _ Ho) as [Ec _].
    apply works_ret. exists d. split; [split_and!; try done; congruence|]. split; [by left|]. split; [|done]. unfold carry. rewrite (proj2 (Z.ltb_ge _ _)); [done|].
    rewrite Ha. apply (ow_snap _ _ _ _ Ho). }
  apply works_bind, works_try_err.
  - pose proof (works_update P None merged n v d r p) as H. cbv zeta in H. rewrite source_for_none, streamed_none, Ha in H.
    eapply works_mono; [by apply H; try done; apply carried_plain|]. intros ? r1 (d1 & H1 & H2 & _ & H3 & HG1).
    apply works_bind, idle_works; [apply idle_mfold; intros ch; apply idle_respond|]. intros _ r2 Hp. apply works_ret. exists d1.
    unfold due in *. injection Hp as -> -> -> ->. done.
  - intros e r1 HP. apply works_bind, idle_works; [apply idle_mfold; intros ch; apply idle_respond|]. intros _ r2 _. by apply works_raise.
Qed.

Lemma works_group group : forall merged waiting d c r, ready d c merged r -> u_snapshot merged = None -> (waiting = [] -> merged = noUpdate) ->
  group_fits group merged d (node r) (machine r) -> works P (step_appends group merged waiting) r (fun _ r' => quiescent r').
Proof.
  assert (forall u, late noUpdate u) as Hno by (intros u; split; [done|by left]).
  induction group as [|[m ch] group IH]; intros merged waiting d c r [(Hk & Ho & Ht & Ha) HG] Hs Hw Hfit; cbn [step_appends].
  { eapply works_mono; [eapply (works_flush merged waiting d c (node r) noUpdate r []); rewrite ?app_nil_r; try done|].
    - apply owes_nothing; [apply Ho|]. symmetry. apply (ow_dur _ _ _ _ Ho).
    - intros ? r' (d' & H' & _ & _ & HG'). by eapply due_quiescent. }
  destruct Hfit as (Hty & Hop & Had & Hfit). pose proof (ow_wf _ _ _ _ Ho) as Hwf. apply works_bind.
  eapply works_mono; [apply (works_on_op (OpStep m)); [done|done|by right; exists m]|]. intros u r1 (Hrun & Es & Et & Eo). cbn [run_op] in Hrun.
  specialize (Hfit _ _ Hrun). rewrite <- Et in Hfit. destruct (run_op_performs (OpStep m) _ _ _ Hwf Hop Hrun) as [Hp Hw1].
  destruct (watch_op W (OpStep m) None _ _ _ _ _ _ _ HG Hwf Hop Had Hrun) as [HG1 Hca]. rewrite <- Eo in HG1. destruct (mergeable u) eqn:Em.
  { eapply IH; [|done|by destruct waiting|exact Hfit]. unfold ready, due. rewrite Es, Et. split_and!; [done|by eapply owes_merge|done|done|done]. }
  destruct Hfit as [Hf1 Hf2]. rewrite Et in Hf1.
  assert (owes (persist merged d) (commit (node r)) u (node r1)) as Hv.
  { eapply performs_owes; [done|exact Hp|]. symmetry. apply (ow_dur _ _ _ _ Ho). }
  apply works_bind. eapply works_catch.
  2:{ intros e r2 HP. apply works_bind, idle_works; [apply idle_mfold; intros ch'; apply idle_respond|]. intros _ r3 _. by apply works_raise. }
  eapply works_mono; [apply (works_flush merged waiting d c (node r) u r1 (u_messages u)); rewrite ?Es, ?Et; try done; by eapply Step_late|].
  intros ? r2 (d1 & (Hk2 & Ho2 & Ht2 & Ha2) & Hmc & Hc2 & HG2). destruct (Hf2 _ _ _ Hmc Hc2) as [Hf3 Hf4]. apply works_bind, works_try_err.
  - pose proof (works_update P None u (node r2) noUpdate d1 r2 []) as H. cbv zeta in H. rewrite source_for_none in Hca. rewrite source_for_none, streamed_none, Ha2 in H.
    eapply works_mono; [apply H; try done|].
    { apply owes_nothing; [apply Ho2|]. symmetry. apply (ow_dur _ _ _ _ Ho2). }
    { by rewrite app_nil_r. }
    intros ? r3 (d2 & H3 & Hmc2 & _ & Hc3 & HG3). apply works_bind, idle_works; [apply idle_respond|]. intros _ r4 Hp4.
    eapply IH; [eapply ready_parts; [exact Hp4|by split]|done|done|]. injection Hp4 as -> _ -> _. by apply Hf4.
  - intros e r3 HP. apply works_bind, idle_works; [apply idle_respond|]. intros _ r4 _.
    apply works_bind, idle_works; [apply idle_mfold; intros ch'; apply idle_respond|]. intros _ r5 _. by apply works_raise.
Qed.



Lemma works_handle ev d r : stops ev = false -> ready d (commit (node r)) noUpdate r -> event_fits ev d r ->
  works P (handle ev) r (fun _ r' => quiescent r').
Proof.
  intros Hs Hdue Hfit. assert (quiescent r) as Hr by (by exists d). apply works_get.
  destruct ev as [data ch|voters ch|m data ch|ch|ch|ch]; [..|done]; cbn [event_fits] in Hfit.
  - unfold batch_of in Hfit. destruct (deferred r); [|by eapply works_propose].
    apply works_bind. unfold drainProposals. apply works_get. destruct (drain_proposals _ _ _ _ _) as [[batch others] queue].
    apply works_bind, idle_works; [by apply idle_modify|]. intros _ r1 Hp1. apply works_ret, works_bind, idle_works; [by apply idle_modify|].
    intros _ r2 Hp2. rewrite Hp1 in Hp2. pose proof (ready_parts _ _ _ _ _ Hp2 Hdue) as Hdue2. injection Hp2 as E2 _ Et2 _. rewrite <- E2, <- Et2 in Hfit. rewrite <- E2 in Hdue2.
    by eapply works_propose.
  - by eapply works_membership.
  - destruct data as [src|]; [by eapply works_message|]. destruct (deferred r); [|by eapply works_message].
    destruct (bool_decide _); [|by eapply works_message]. unfold group_of in Hfit.
    apply works_bind. unfold drainAppends. apply works_get. destruct (appendLoad m) as [count size].
    destruct (drain_appends _ _ _ _ _ _ _) as [[group others] queue].
    apply works_bind, idle_works; [by apply idle_modify|]. intros _ r1 Hp1. apply works_ret, works_bind, idle_works; [by apply idle_modify|].
    intros _ r2 Hp2. rewrite Hp1 in Hp2. pose proof (ready_parts _ _ _ _ _ Hp2 Hdue) as Hdue2. injection Hp2 as E2 _ Et2 _. rewrite <- E2, <- Et2 in Hfit. rewrite <- E2 in Hdue2.
    by eapply (works_group group noUpdate []).
  - apply idle_works; [apply idle_respond|]. intros _ r' [= E1 E2 E3 E4]. eapply quiescent_parts; [exact Hdue|by rewrite E1|done|done|done].
  - by eapply works_read.
Qed.
End handlers.

Lemma close_runs r : closable (machine r) -> runs closeResources r (fun _ _ => True) (fun _ => False) (fun _ => True).
Proof.
  intros Hc. apply runs_bind, runs_try_err, runs_zoom. eapply runs_mono; [by apply machine_close_runs| | |done]; [intros a1 r1 _|intros r1 _ e1].
  all: apply runs_bind, runs_try_err, runs_zoom; eapply runs_mono; [apply store_close_runs| | |done]; done.
Qed.

(** A handler that fails ends the loop. *)
Lemma guarded_runs (m : M Runtime unit) r r1 (Q : Runtime -> Prop) : works (bad r) m r1 (fun _ => Q) -> parts r1 = parts r -> closable (machine r) ->
  runs (guarded m) r1 (fun _ r' => Q r' \/ stopped r' = true /\ bad r) (fun _ => False) (fun _ => True).
Proof.
  intros Hm Hp Hc. apply runs_catch. eapply runs_mono; [apply Hm| | |done].
  - unfold bad. injection Hp as _ -> -> _. done.
  - by injection Hp as _ _ -> _.
  - intros _ r' [? _]. by left.
  - intros r' [Hb Hc'] e. unfold fail. apply runs_bind. unfold runs at 1. rewrite dismiss_eq. apply runs_bind, runs_modify, runs_bind.
    eapply runs_mono; [by apply close_runs| |done|done]. intros o r2 _. right. done.
Qed.

Definition turn_fits (t : turn) (d : Durable) r : Prop :=
  match t with
  | Submit _ => True
  | TurnTick => op_fits OpTick None d (node r) (machine r)
  | TurnEvent =>
      match deferred r, events r with
      | ev :: rest, _ => event_fits ev d (with_deferred rest r)
      | [], ev :: rest => event_fits ev d (with_events rest r)
      | [], [] => True
      end
  end.

(** The next event asks the loop to stop. *)
Definition asked (t : turn) r : Prop := t = TurnEvent /\ exists ch, head (deferred r ++ events r) = Some (stopEvent ch).

(** Every turn keeps what is watched, besides what the loop promises itself. *)
Lemma turn_watched t d r : ready d (commit (node r)) noUpdate r -> turn_fits t d r ->
  runs (run t) r (fun _ r' => quiescent r' \/ stopped r' = true /\ (bad r \/ asked t r)) (fun _ => False) (fun _ => True).
Proof.
  intros Hdue Hfit. assert (quiescent r) as Hr by (by exists d).
  pose proof Hdue as [(_ & _ & Hc%sound_closable & _) _].
  assert (forall r', parts r' = parts r -> quiescent r') as Hsame.
  { intros r' [= E1 E2 E3 E4]. eapply quiescent_parts; [exact Hdue|by rewrite E1|done|done|done]. }
  assert (forall ev r1, parts r1 = parts r -> event_fits ev d r1 -> t = TurnEvent -> head (deferred r ++ events r) = Some ev ->
    runs (guarded (handle ev)) r1 (fun _ r' => quiescent r' \/ stopped r' = true /\ (bad r \/ asked t r)) (fun _ => False) (fun _ => True)) as Hev.
  { intros ev r1 Hp Hf -> Hh. pose proof Hp as [= E1 E2 E3 E4]. destruct (stops ev) eqn:Es.
    - destruct ev as [| | | | |ch]; [done..|]. apply runs_catch. unfold handle. apply runs_bind. unfold runs at 1. cbn [get gets]. apply runs_bind.
      eapply runs_mono; [apply close_runs; by rewrite E3| |done|done]. intros o r2 _. right. split; [done|]. right. split; [done|by exists ch].
    - eapply runs_mono; [apply (guarded_runs _ r r1 quiescent)| |done|done]; [|done|done|naive_solver].
      eapply works_handle; [done| |exact Hf]. rewrite E1. by eapply ready_parts. }
  unfold run. apply runs_bind. unfold runs at 1. cbn [get gets]. unfold id. destruct (stopped r); [by left|]. destruct t as [| |ev].
  - destruct (deferred r); [|by left]. eapply runs_mono; [apply (guarded_runs _ r r quiescent)| |done|done]; [|done|done|naive_solver]. by eapply works_tick.
  - cbn in Hfit. destruct (deferred r) as [|ev rest] eqn:Ed; [destruct (events r) as [|ev rest] eqn:Ee; [by left|]|].
    + apply runs_bind, runs_modify. by apply Hev; rewrite ?Ed, ?Ee.
    + apply runs_bind, runs_modify. by apply Hev; rewrite ?Ed.
  - destruct (_ <? _)%nat; [|by left]. left. by apply Hsame.
Qed.

End step.
Arguments Watch T {_ _}.

(** ** The promises of the loop *)

Section plain.
Context {S T : Type} `{!StableStore S} `{!StateMachine T} `{!StoreLaws S} `{!MachineLaws T}.
Implicit Types r : @Runtime S T.

(** Watching nothing. *)
Definition unwatched : Watch T.
Proof.
  by refine {| watched _ _ _ _ _ := True; admits _ _ := True; carried _ _ := True |}.
Defined.

(** C10: carrying out the update of a node's operation. When store and machine are in step
    with the node before it, processUpdateWithSnapshot ends with all three in step again:
    the store holds the node's new durable state, the messages are queued behind those
    before, and the machine was restored from the snapshot if it was behind it and then
    given the newly committed entries, each once and in order, up to the node's commit
    index. It fails only if a call on the store or on the machine may fail, it never
    panics, and in every outcome the messages are queued only after the store returned
    from making the update durable. *)
Theorem update_carried_out op n u data r d :
  wf (core n) -> op_ok op (core n) -> run_op op n = (Ok u, node r) ->
  keeps (store r) d -> sans d = sans (dur (core n)) -> sound (machine r) -> machine_AppliedIndex (machine r) = commit n ->
  update_fits data u d (commit (node r)) (node r) (machine r) ->
  let d1 := persist (streamed (source_for u data) u) d in
  let '(o, r') := processUpdateWithSnapshot u data r in
  match o with
  | Ok _ => in_step r' /\ outgoing r' = outgoing r ++ u_messages u /\
      contents (machine r') = foldl apply_entry (restored (commit n) d1 (contents (machine r))) (u_committed u)
  | Err _ => bad r
  | Panic => False
  | Crash => True
  end /\
  (outgoing r' = outgoing r \/ outgoing r' = outgoing r ++ u_messages u /\ exists s1, persisted u data (store r) s1).
Proof.
  intros Hw Hop Hrun Hk Hd Ht Ha Hfit d1. destruct (run_op_performs _ _ _ _ Hw Hop Hrun) as [Hp Hw'].
  pose proof (performs_owes _ _ _ _ d Hw Hp Hd) as Ho. rewrite <- Ha in Ho.
  assert (owes d1 (commit (node r)) noUpdate (node r)) as Hv.
  { apply owes_nothing; [done|]. rewrite (ow_dur _ _ _ _ Ho). by apply sans_persist. }
  pose proof (works_update unwatched (bad r) data u (node r) noUpdate d r [] Hk Ho Hv ltac:(split; [done|by left]) Ht I I Hfit ltac:(done) (sound_closable _ Ht)) as H.
  fold d1 in H. rewrite Ha in H. unfold runs in H. destruct (processUpdateWithSnapshot u data r) as [o r'] eqn:E.
  apply send_after_persist in E. split; [|tauto]. destruct o as [[]|e| |]; [|apply H|done..].
  destruct H as [(d' & Hdue & _ & Hx & _) _]. split_and!; [by eapply due_in_step|by destruct E as [[_ ?]|[? _]]|done].
Qed.

(** C11: every turn of the loop (a tick, the next event with whatever it drains and merges,
    a request being queued) keeps node, stable store and state machine in step, provided
    the numbers fit, the store can write what the node's operations produce and the
    machine can take what they commit. The loop ends only when it is asked to or when a call on the store or on the machine may fail;
    it neither panics nor ends with an error of its own. *)
Theorem turn_keeps_step t d r : due d (commit (node r)) noUpdate r -> turn_fits unwatched t d r ->
  runs (run t) r (fun _ r' => in_step r' \/ stopped r' = true /\ (bad r \/ asked t r)) (fun _ => False) (fun _ => True).
Proof.
  intros Hdue Hfit. eapply runs_mono; [apply (turn_watched unwatched t d r); [by split|done]| |done|done].
  intros _ r' [(d' & Hd & _)|?]; [left; by exists d'|by right].
Qed.

End plain.

(** ** The contracts hold *)

#[global] Instance memory_store_laws : StoreLaws Durable.
Proof.
  refine (Build_StoreLaws Durable _ (fun s d => s = d) (fun src _ _ => forall x, src = Some x -> source_error x = None) (fun _ => False) _ _ _ _ _).
  - by intros u s d -> _.
  - intros u src s d -> _ Hs. cbn. by rewrite Hs.
  - intros s d -> _. unfold depends, runs, store_OpenSnapshot, memory_store, mbind, M_bind, gets, id. by rewrite Z.eqb_refl.
  - by intros s d ->.
  - done.
Defined.

#[global] Instance memory_machine_laws : MachineLaws (Z * bytes).
Proof.
  refine (Build_MachineLaws (Z * bytes) _ bytes (fun _ => True) (fun _ => False) snd (fun _ c x => x ++ c) id
    (fun _ _ _ => True) (fun _ _ _ => True) (fun _ => True) (fun _ => True) _ _ _ _ _).
  - done.
  - by intros i c [a x] _ _ _.
  - by intros i content t _ _ _.
  - intros [a x] _ _ _. cbn. by rewrite app_nil_r.
  - done.
Defined.

(** The store of Raftstore, on its files. *)
#[global] Instance file_store : StableStore Raftstore.St := {
  store_Persist := Raftstore.Persist;
  store_PersistSnapshot u source := Raftstore.PersistSnapshot u (Some source);
  store_OpenSnapshot := Raftstore.OpenSnapshot;
  store_CloseReader := Raftstore.fs f_Close;
  store_Close := Raftstore.Close
}.

Lemma secure_depends {A} J (m : M Raftstore.St A) s w (Q : A -> Raftstore.St -> Prop) :
  secure J w m (s, w) Q -> depends (fun st => can_fail st.2) m (s, w) Q.
Proof.
  intros H. eapply runs_mono; [exact H| | |done].
  - intros a [s' w'] (Hf & _ & HQ). split; [done|]. intros [k Hk]. exists k. cbn in *. destruct Hf as [l Hl]. rewrite Hl. set_solver.
  - intros [s' w'] (_ & _ & Hf). exact Hf.
Qed.

Lemma file_close_runs st : runs Raftstore.Close st (fun _ _ => True) (fun _ => True) (fun _ => True).
Proof.
  destruct st as [s w]. assert (secure (fun _ => True) w Raftstore.Close (s, w) (fun _ _ => True)) as H.
  { apply secure_bind, secure_zoom, safe_nop; [done|done|]. intros w1 _ Hf1 _ _. by apply secure_zoom, safe_nop. }
  by eapply runs_mono; [exact H|..].
Qed.

Lemma open_snapshot_secure s w d : Stable.holds s (files w) d -> s_index (d_snap d) <> 0 ->
  secure (fun _ => True) w (Raftstore.OpenSnapshot (s_index (d_snap d))) (s, w) (fun '(content, size, _) st =>
    Stable.holds st.1 (files st.2) d /\ content = s_data (d_snap d) /\ size = Z.of_nat (length content)).
Proof.
  intros HH Hi. pose proof (rc_snap _ _ (ho_files _ _ _ HH)) as Hsn. apply secure_bind, secure_gets; [done|done|]. intros _ _. cbn [fst].
  rewrite (ho_snap _ _ _ HH). change (s_index (metadata (d_snap d))) with (s_index (d_snap d)).
  rewrite (proj2 (Z.eqb_neq (s_index _) 0)), Z.eqb_refl by lia. cbn [negb orb].
  destruct (files w !! snapshotFile) as [content|] eqn:Ec; cbn in Hsn; [|by rewrite Hsn in Hi]. destruct Hsn as [-> _].
  apply secure_bind, secure_zoom, safe_os_Open; [done|done|]. intros w1 E1 Hf1 _ _. cbn [fst snd]. rewrite Ec.
  apply secure_ret; [done|done|]. cbn [fst snd]. rewrite E1. split; [done|]. rewrite (ho_size _ _ _ HH), Nat2Z.id, snapshot_data. done.
Qed.

#[global] Instance file_store_laws : StoreLaws Raftstore.St.
Proof.
  refine (Build_StoreLaws Raftstore.St _ (fun st d => Stable.holds st.1 (files st.2) d)
    (fun src u d => (forall x, src = Some x -> source_error x = None) /\ update_ok (streamed src u) d) (fun st => can_fail st.2) _ _ _ _ _).
  - intros u [s w] d Hk [_ Hu]. pose proof (persist_secure u None s w d ltac:(done) Hk Hu) as H. rewrite streamed_none in H.
    by eapply secure_depends.
  - intros u src [s w] d Hk [sn Hsn] [Hs Hu]. pose proof (persist_secure u (Some src) s w d Hs Hk Hu) as H.
    cbn. unfold Raftstore.PersistSnapshot. rewrite Hsn. by eapply secure_depends.
  - intros [s w] d Hk Hi. eapply secure_depends. apply open_snapshot_secure; [done|lia].
  - intros [s w] d Hk. apply (secure_depends (fun _ => True)). apply secure_zoom, safe_nop; [done|done|]. intros w1 E1 _. cbn. by rewrite E1.
  - apply file_close_runs.
Defined.

(** ** Examples *)

(** The loop of a cluster of one, its election entry applied, with a command queued. *)
Definition solo_loop : @Runtime Durable (Z * bytes) :=
  mkRuntime solo_leader (dur (core solo_leader)) (1, []) [proposalEvent (str "a") 7] 4 [] [] ∅ ∅ 0 None 1 [] false.

Lemma solo_due : due (dur (core solo_leader)) (commit (node solo_loop)) noUpdate solo_loop.
Proof.
  split; [exact eq_refl|]. split; [apply (owes_nothing solo_leader); [apply solo_leader_wf|exact eq_refl]|]. split; [exact I|].
  vm_compute. reflexivity.
Qed.

Lemma memory_takes_entries es (t : Z * bytes) : takes_entries es t.
Proof. revert t. induction es as [|e es IH]; intros t; [done|]. split; [done|]. intros t' _. apply IH. Qed.

Lemma memory_takes d es (t : Z * bytes) : takes d es t.
Proof. unfold takes. destruct (_ <? _); [split; [done|intros t' _]|]; apply memory_takes_entries. Qed.

Lemma memory_fits (u : Update) d c n (t : Z * bytes) : k_last (core n) + 1 < 2 ^ 64 -> update_fits (S := Durable) None u d c n t.
Proof. intros H. split_and!; [done|rewrite source_for_none; by intros x|apply memory_takes|]. intros u2 n2 src _ Hs x [= <-]. done. Qed.

Lemma solo_fits : turn_fits unwatched TurnEvent (dur (core solo_leader)) solo_loop.
Proof.
  change (op_fits (S := Durable) unwatched (OpProposeBatch [str "a"]) None (dur (core solo_leader)) solo_leader (1, [])). split_and!; [|done|].
  - rewrite solo_leader_core. split; [vm_compute; split; reflexivity|]. split; [vm_compute; reflexivity|]. repeat constructor.
  - intros u n' E. apply memory_fits. apply (f_equal (fun x => k_last (core x.2))) in E. cbn [snd] in E. rewrite <- E. vm_compute. reflexivity.
Qed.

Lemma turn_keeps_step_witness :
  runs (run TurnEvent) solo_loop (fun _ r' => in_step r' \/ stopped r' = true /\ (bad solo_loop \/ asked TurnEvent solo_loop))
    (fun _ => False) (fun _ => True) /\
  let r' := (run TurnEvent solo_loop).2 in
  answers r' = [(7%nat, proposalResult 2 1 None)] /\ machine r' = (2, str "a") /\ s_index (snapshot (node r')) = 2 /\ stopped r' = false.
Proof.
  split; [exact (turn_keeps_step TurnEvent _ solo_loop solo_due solo_fits)|]. vm_compute. repeat split.
Defined.

(** The same loop, its node stepped by the command. *)
Definition stepped : @Runtime Durable (Z * bytes) := with_node one_result.2 solo_loop.

Lemma update_carried_out_witness :
  let '(o, r') := processUpdateWithSnapshot one_result.1 None stepped in
  match o with
  | Ok _ => in_step r' /\ outgoing r' = outgoing stepped ++ u_messages one_result.1 /\
      contents (machine r') = foldl apply_entry (restored (commit solo_leader)
        (persist (streamed (source_for one_result.1 None) one_result.1) (dur (core solo_leader))) (contents (machine stepped)))
        (u_committed one_result.1)
  | Err _ => bad stepped
  | Panic => False
  | Crash => True
  end /\
  (outgoing r' = outgoing stepped \/
   outgoing r' = outgoing stepped ++ u_messages one_result.1 /\ exists s1, persisted one_result.1 None (store stepped) s1).
Proof.
  refine (update_carried_out one_command solo_leader one_result.1 None stepped (dur (core solo_leader)) solo_leader_wf one_command_ok
    one_command_runs eq_refl eq_refl I _ _); [vm_compute; reflexivity|]. apply memory_fits. vm_compute. reflexivity.
Defined.

End InStep.
