(* ===== verification/Grpc.v ===== *)
(** * The gRPC transport

    internal/raftgrpc: the conversion of raft messages to and from the generated protobuf
    types, the stream of chunks a snapshot travels in, and the cache of connections to
    peers. gRPC itself is a parameter: what a connection does with a message or a chunk. *)

From S2P Require Import Prelude GoStd Fs Json Membership RaftTypes.

Module Grpc.
Import Membership Raft.

(** ** Messages *)

(** The numbers of the constants of MessageType. *)
Definition type_number (t : MessageType) : Z :=
  match t with
  | MsgPreVote => 0
  | MsgPreVoteResponse => 1
  | MsgVote => 2
  | MsgVoteResponse => 3
  | MsgAppend => 4
  | MsgAppendResponse => 5
  | MsgSnapshot => 6
  | MsgSnapshotResponse => 7
  end.

Definition type_of (number : Z) : option MessageType :=
  match number with
  | 0 => Some MsgPreVote
  | 1 => Some MsgPreVoteResponse
  | 2 => Some MsgVote
  | 3 => Some MsgVoteResponse
  | 4 => Some MsgAppend
  | 5 => Some MsgAppendResponse
  | 6 => Some MsgSnapshot
  | 7 => Some MsgSnapshotResponse
  | _ => None
  end.

Record LogEntry := mkLogEntry { le_index : Z; le_term : Z; le_data : bytes }.

(** The generated RaftMessage; its entries are pointers. *)
Record RaftMessage := mkRaftMessage {
  p_type : Z;
  p_from : Z;
  p_to : Z;
  p_term : Z;
  p_logIndex : Z;
  p_logTerm : Z;
  p_entries : list (option LogEntry);
  p_leaderCommit : Z;
  p_reject : bool;
  p_rejectHint : Z;
  p_context : Z
}.

Definition ToProto (m : Message) : RaftMessage :=
  mkRaftMessage (type_number (m_type m)) (m_from m) (m_to m) (m_term m) (m_logIndex m) (m_logTerm m)
    ((fun e => Some (mkLogEntry (e_index e) (e_term e) (e_data e))) <$> m_entries m)
    (m_leaderCommit m) (m_reject m) (m_rejectHint m) (m_context m).

Fixpoint proto_entries (l : list (option LogEntry)) : res (list Entry) :=
  match l with
  | [] => Ok []
  | None :: _ => Err "nil raft log entry"
  | Some e :: l' => es ← proto_entries l'; Ok (mkEntry (le_index e) (le_term e) (le_data e) :: es)
  end.

Definition FromProto (message : option RaftMessage) : res Message :=
  match message with
  | None => Err "invalid raft message type"
  | Some p =>
      match type_of (p_type p) with
      | None => Err "invalid raft message type"
      | Some t =>
          es ← proto_entries (p_entries p);
          Ok (mkMessage t (p_from p) (p_to p) (p_term p) (p_logIndex p) (p_logTerm p) es
                (p_leaderCommit p) (p_reject p) (p_rejectHint p) (p_context p) None OriginOther)
      end
  end.

(** ** Receiving a snapshot *)

Definition SnapshotChunkBytes : Z := 2 ^ 20.
Definition MaxSnapshotBytes : Z := 64 * 2 ^ 30.

Record SnapshotChunk := mkChunk {
  sc_from : Z;
  sc_to : Z;
  sc_raftTerm : Z;
  sc_snapshotIndex : Z;
  sc_snapshotTerm : Z;
  sc_offset : Z;
  sc_totalSize : Z;
  sc_checksum : Z;
  sc_data : bytes;
  sc_voters : list Z;
  sc_jointVoters : list Z;
  sc_membershipIndex : Z
}.

Fixpoint equal_ids (a b : list Z) : bool :=
  match a, b with
  | x :: a', y :: b' => if negb (x =? y) then false else equal_ids a' b'
  | _, _ => true
  end.
Definition equalIDs (a b : list Z) : bool := if negb (length a =? length b)%nat then false else equal_ids a b.

(** What Recv returns before the end of the stream. *)
Inductive Received := RChunk (c : option SnapshotChunk) | RError (e : string).

#[global] Instance RChunk_inj : Inj eq eq RChunk.
Proof. by intros ? ? [=]. Qed.

(** The checks of a chunk's metadata: of the first one, and of the others against it. *)
Definition check_first (c : SnapshotChunk) : option string :=
  if (sc_from c =? 0) || (sc_to c =? 0) || (sc_raftTerm c =? 0) || (sc_snapshotIndex c =? 0) || (sc_snapshotTerm c =? 0)
  then Some "snapshot stream metadata must be positive"%string else
  if MaxSnapshotBytes <? sc_totalSize c then Some "snapshot exceeds the limit"%string else None.

Definition changed (c f : SnapshotChunk) : bool :=
  negb (sc_from c =? sc_from f) || negb (sc_to c =? sc_to f) || negb (sc_raftTerm c =? sc_raftTerm f) ||
  negb (sc_snapshotIndex c =? sc_snapshotIndex f) || negb (sc_snapshotTerm c =? sc_snapshotTerm f) ||
  negb (sc_totalSize c =? sc_totalSize f) || negb (sc_checksum c =? sc_checksum f) ||
  negb (sc_membershipIndex c =? sc_membershipIndex f) ||
  negb (equalIDs (sc_voters c) (sc_voters f)) || negb (equalIDs (sc_jointVoters c) (sc_jointVoters f)).

Definition check_metadata (first : option SnapshotChunk) (c : SnapshotChunk) : option string :=
  match first with
  | None => check_first c
  | Some f => if changed c f then Some "snapshot stream metadata changed between chunks"%string else None
  end.

Definition check_bounds (received : Z) (c : SnapshotChunk) : option string :=
  if negb (sc_offset c =? received) then Some "snapshot chunk offset"%string else
  if SnapshotChunkBytes <? Z.of_nat (length (sc_data c)) then Some "snapshot chunk exceeds the limit"%string else
  if u64 (sc_totalSize c - received) <? Z.of_nat (length (sc_data c)) then Some "snapshot chunk exceeds declared total size"%string else None.

(** The message a stream announces; the data goes to the writer. *)
Definition announced (f : SnapshotChunk) (data : bytes) : Message :=
  mkMessage MsgSnapshot (sc_from f) (sc_to f) (sc_raftTerm f) 0 0 [] 0 false 0 0
    (Some (mkSnapshot (sc_snapshotIndex f) (sc_snapshotTerm f) data
      (mkMembership (sc_voters f) (sc_jointVoters f) (sc_membershipIndex f)))) OriginOther.

Section receive.
Context {W : Type} (write : bytes -> M W unit).

(** io.Copy from a bytes.Reader: nothing is written for no data. *)
Definition copy (data : bytes) : M W unit := if (length data =? 0)%nat then mret tt else write data.

Fixpoint receive (l : list Received) (first : option SnapshotChunk) (received crc : Z) : M W Message :=
  match l with
  | [] =>
      match first with
      | None => raise "empty snapshot stream"
      | Some f =>
          if negb (received =? sc_totalSize f) then raise "snapshot stream ended early" else
          if negb (crc =? sc_checksum f) then raise "snapshot stream checksum mismatch" else
          mret (announced f [])
      end
  | RError e :: _ => raise ("receive snapshot chunk: " ++ e)
  | RChunk None :: _ => raise "nil snapshot chunk"
  | RChunk (Some c) :: l' =>
      match check_metadata first c with
      | Some e => raise e
      | None =>
          match check_bounds received c with
          | Some e => raise e
          | None =>
              catch (copy (sc_data c)) (fun e => raise ("write snapshot chunk: " ++ e)) ;;
              receive l' (Some (default c first)) (u64 (received + Z.of_nat (length (sc_data c)))) (crc32_update crc (sc_data c))
          end
      end
  end.

Definition ReceiveSnapshotTo (stream : list Received) : M W Message := receive stream None 0 0.
End receive.

(** Writes to a bytes.Buffer never fail. *)
Definition buffer_write (data : bytes) : M bytes unit := modify (fun b => b ++ data).

Definition ReceiveSnapshot (stream : list Received) : res Message :=
  match ReceiveSnapshotTo buffer_write stream [] with
  | (Ok m, data) =>
      match m_snapshot m with
      | Some s => Ok (mkMessage (m_type m) (m_from m) (m_to m) (m_term m) (m_logIndex m) (m_logTerm m) (m_entries m)
                        (m_leaderCommit m) (m_reject m) (m_rejectHint m) (m_context m)
                        (Some (mkSnapshot (s_index s) (s_term s) data (s_membership s))) (m_origin m))
      | None => Panic
      end
  | (Err e, _) => Err e
  | (Panic, _) => Panic
  | (Crash, _) => Crash
  end.

(** ** Sending *)

(** What is left in a reader, and an error that ends it in place of io.EOF. *)
Record Reader := mkReader { rest : bytes; read_error : option string }.

(** io.ReadFull of [n] bytes. *)
Definition ReadFull (n : Z) : M Reader bytes := fun r =>
  if n <=? Z.of_nat (length (rest r)) then (Ok (take (Z.to_nat n) (rest r)), mkReader (drop (Z.to_nat n) (rest r)) (read_error r))
  else (Err (default "unexpected EOF"%string (read_error r)), mkReader [] (read_error r)).

(** The read of one byte after the declared size finds the end. *)
Definition at_end : M Reader bool := fun r =>
  (Ok (match rest r, read_error r with [], None => true | _, _ => false end), mkReader (drop 1 (rest r)) (read_error r)).

(** Connections, numbered, and the stream of the InstallSnapshot call in progress. *)
Class Connections (E : Type) := {
  conn_New : bytes -> M E nat;
  conn_Close : nat -> M E unit;
  conn_Send : nat -> RaftMessage -> M E unit;
  conn_InstallSnapshot : nat -> M E unit;
  stream_Send : SnapshotChunk -> M E unit;
  stream_CloseAndRecv : M E unit
}.

Section send.
Context {E : Type} `{!Connections E}.

Definition on_reader {A} (m : M Reader A) : M (Reader * E) A := zoom fst (fun r s => (r, s.2)) m.
Definition on_wire {A} (m : M E A) : M (Reader * E) A := zoom snd (fun e s => (s.1, e)) m.

Definition snapshot_chunk (m : Message) (s : Snapshot) (offset size checksum : Z) (data : bytes) : SnapshotChunk :=
  mkChunk (m_from m) (m_to m) (m_term m) (s_index s) (s_term s) offset size checksum data
    (Voters (s_membership s)) (JointVoters (s_membership s)) (Index (s_membership s)).

(** The loop over the chunks; it ends within [fuel] turns. *)
Fixpoint send_chunks (fuel : nat) (m : Message) (s : Snapshot) (size checksum offset : Z) : M (Reader * E) unit :=
  if negb ((offset <? size) || ((size =? 0) && (offset =? 0))) then mret tt else
  match fuel with
  | O => of_res Panic
  | S fuel' =>
      let chunkSize := Z.min SnapshotChunkBytes (u64 (size - offset)) in
      data ← (if 0 <? chunkSize then catch (on_reader (ReadFull chunkSize)) (fun e => raise ("read snapshot chunk: " ++ e)) else mret []);
      catch (on_wire (stream_Send (snapshot_chunk m s offset size checksum data))) (fun e => raise ("send snapshot chunk: " ++ e)) ;;
      if size =? 0 then mret tt else send_chunks fuel' m s size checksum (u64 (offset + chunkSize))
  end.

Definition sendSnapshot (conn : nat) (m : Message) (size checksum : Z) : M (Reader * E) unit :=
  match m_snapshot m with
  | None => raise "snapshot message has no snapshot"
  | Some s =>
      if MaxSnapshotBytes <? size then raise "snapshot exceeds the limit" else
      on_wire (conn_InstallSnapshot conn) ;;
      send_chunks (S (Z.to_nat (size / SnapshotChunkBytes))) m s size checksum 0 ;;
      ended ← on_reader at_end;
      if negb ended then raise "snapshot source exceeds declared size" else
      catch (on_wire stream_CloseAndRecv) (fun e => raise ("finish snapshot stream: " ++ e))
  end.

(** ** The transport *)

Record Transport := mkTransport {
  addresses : gmap Z bytes;
  conns : gmap Z nat;
  clients : gmap Z nat;
  snapshotInFlight : gset Z
}.

Definition NewWithResolver : Transport := mkTransport ∅ ∅ ∅ ∅.

Definition staticResolve (peers : gmap Z bytes) (id : Z) : string + bytes :=
  let address := default [] (peers !! id) in
  if negb (id =? 0) && negb (length address =? 0)%nat then inr address else inl "unknown raft peer"%string.

Definition cache (id : Z) (address : bytes) (conn : nat) (t : Transport) : Transport :=
  mkTransport (<[id := address]> (addresses t)) (<[id := conn]> (conns t)) (<[id := conn]> (clients t)) (snapshotInFlight t).
Definition uncache (id : Z) (t : Transport) : Transport :=
  mkTransport (delete id (addresses t)) (delete id (conns t)) (delete id (clients t)) (snapshotInFlight t).
Definition with_flight (f : gset Z) (t : Transport) : Transport := mkTransport (addresses t) (conns t) (clients t) f.

Definition on_net {A} (m : M E A) : M (Transport * E) A := zoom snd (fun e s => (s.1, e)) m.
Definition update (f : Transport -> Transport) : M (Transport * E) unit := modify (fun s => (f s.1, s.2)).

(** The cached connection, if it goes to the address. *)
Definition cached (id : Z) (address : bytes) (t : Transport) : option nat :=
  match clients t !! id with
  | Some conn => if bool_decide (default [] (addresses t !! id) = address) then Some conn else None
  | None => None
  end.

(** The connection to a peer, at the address [resolver] gives for it. *)
Definition client (resolver : option (Z -> string + bytes)) (id : Z) : M (Transport * E) nat :=
  match resolver with
  | None => raise "raft transport has no peer resolver"
  | Some resolve =>
      match resolve id with
      | inl e => raise ("resolve raft peer: " ++ e)
      | inr address =>
          if (length address =? 0)%nat then raise "resolve raft peer: empty address" else
          t ← gets fst;
          match cached id address t with
          | Some conn => mret conn
          | None =>
              match conns t !! id with
              | Some conn => ignore (on_net (conn_Close conn)) ;; update (uncache id)
              | None => mret tt
              end ;;
              conn ← catch (on_net (conn_New address)) (fun e => raise ("dial raft peer: " ++ e));
              update (cache id address conn) ;;
              mret conn
          end
      end
  end.

Definition beginSnapshot (peer : Z) : M (Transport * E) bool :=
  t ← gets fst;
  if bool_decide (peer ∈ snapshotInFlight t) then mret false else
  update (with_flight ({[peer]} ∪ snapshotInFlight t)) ;; mret true.

Definition endSnapshot (peer : Z) : M (Transport * E) unit := update (fun t => with_flight (snapshotInFlight t ∖ {[peer]}) t).

(** [defer f()]: [f] runs however [m] ends, unless the process dies. *)
Definition deferring {S A} (m : M S A) (f : M S unit) : M S A := fun s =>
  match m s with
  | (Crash, s') => (Crash, s')
  | (r, s') => match f s' with (Ok _, s'') => (r, s'') | (Err e, s'') => (r, s'') | (Panic, s'') => (Panic, s'') | (Crash, s'') => (Crash, s'') end
  end.

Definition SendSnapshot (resolver : option (Z -> string + bytes)) (m : Message) (reader : Reader) (size checksum : Z) : M (Transport * E) unit :=
  begun ← beginSnapshot (m_to m);
  if negb begun then mret tt else
  deferring
    (conn ← client resolver (m_to m);
     on_net (fun e => let (r, s) := sendSnapshot conn m size checksum (reader, e) in (r, s.2)))
    (endSnapshot (m_to m)).

Definition Send (resolver : option (Z -> string + bytes)) (m : Message) : M (Transport * E) unit :=
  if bool_decide (m_type m = MsgSnapshot) then
    match m_snapshot m with
    | None => raise "snapshot message has no snapshot"
    | Some s => SendSnapshot resolver m (mkReader (s_data s) None) (Z.of_nat (length (s_data s))) (ChecksumIEEE (s_data s))
    end
  else
    conn ← client resolver (m_to m);
    on_net (conn_Send conn (ToProto m)).

(** The first error of closing the connections, which are then forgotten. *)
Fixpoint close_all (l : list nat) (first : option string) : M (Transport * E) (option string) :=
  match l with
  | [] => mret first
  | c :: l' => e ← try_err (on_net (conn_Close c)); close_all l' (match first with Some _ => first | None => e end)
  end.

Definition Close : M (Transport * E) unit :=
  t ← gets fst;
  first ← close_all (snd <$> map_to_list (conns t)) None;
  update (fun _ => NewWithResolver) ;;
  match first with Some e => raise e | None => mret tt end.

End send.

(** ** Conversion *)

Lemma type_of_number t : type_of (type_number t) = Some t.
Proof. by destruct t. Qed.

Lemma number_of_type z t : type_of z = Some t -> type_number t = z.
Proof. unfold type_of. repeat case_match; intros [= <-]; done. Qed.

Lemma proto_entries_of es :
  proto_entries ((fun e => Some (mkLogEntry (e_index e) (e_term e) (e_data e))) <$> es) = Ok es.
Proof. induction es as [|[] es IH]; [done|]. cbn [fmap list_fmap proto_entries]. by rewrite IH. Qed.

Lemma proto_entries_inv l : forall es, proto_entries l = Ok es ->
  l = (fun e => Some (mkLogEntry (e_index e) (e_term e) (e_data e))) <$> es.
Proof.
  induction l as [|[e|] l IH]; intros es H; cbn in H; [by injection H as <-| |done].
  destruct (proto_entries l) as [es'| | |]; try done. injection H as <-. cbn. rewrite <- (IH es') by done. by destruct e.
Qed.

(** What the wire keeps of a message. *)
Definition wire (m : Message) : Message :=
  mkMessage (m_type m) (m_from m) (m_to m) (m_term m) (m_logIndex m) (m_logTerm m) (m_entries m)
    (m_leaderCommit m) (m_reject m) (m_rejectHint m) (m_context m) None OriginOther.

(** FromProto accepts exactly what ToProto makes, and gives back the message without the
    snapshot and the origin. *)
Theorem FromProto_exact p m : FromProto (Some p) = Ok m <-> p = ToProto m /\ wire m = m.
Proof.
  split.
  - cbn [FromProto]. destruct (type_of _) as [t|] eqn:Et; [|done]. apply number_of_type in Et.
    destruct (proto_entries (p_entries p)) as [es| | |] eqn:Ee; intros [= <-].
    apply proto_entries_inv in Ee. split; [|done]. unfold ToProto. cbn. rewrite Et, <- Ee. by destruct p.
  - intros [-> <-]. unfold FromProto, ToProto. cbn [p_type wire m_type m_entries p_entries].
    by rewrite type_of_number, proto_entries_of.
Qed.

(** ** What a receiver accepts *)

(** The parts of a chunk that are the same in the whole stream. *)
Definition meta (c : SnapshotChunk) : SnapshotChunk :=
  mkChunk (sc_from c) (sc_to c) (sc_raftTerm c) (sc_snapshotIndex c) (sc_snapshotTerm c) 0 (sc_totalSize c) (sc_checksum c) []
    (sc_voters c) (sc_jointVoters c) (sc_membershipIndex c).

Definition whole (cs : list SnapshotChunk) : bytes := concat (sc_data <$> cs).

(** A stream that carries one snapshot of the declared size and checksum. *)
Record stream_ok (f : SnapshotChunk) (cs : list SnapshotChunk) : Prop := {
  so_first : head cs = Some f;
  so_ids : sc_from f <> 0 /\ sc_to f <> 0 /\ sc_raftTerm f <> 0 /\ sc_snapshotIndex f <> 0 /\ sc_snapshotTerm f <> 0;
  so_limit : sc_totalSize f <= MaxSnapshotBytes;
  so_same : Forall (fun c => meta c = meta f) cs;
  so_offsets : forall pre c post, cs = pre ++ c :: post -> sc_offset c = Z.of_nat (length (whole pre));
  so_chunks : Forall (fun c => Z.of_nat (length (sc_data c)) <= SnapshotChunkBytes) cs;
  so_total : sc_totalSize f = Z.of_nat (length (whole cs));
  so_sum : sc_checksum f = ChecksumIEEE (whole cs)
}.

Lemma equalIDs_eq a b : equalIDs a b = true <-> a = b.
Proof.
  assert (forall a b, length a = length b -> equal_ids a b = true <-> a = b) as H.
  { clear. induction a as [|x a IH]; intros [|y b]; try done. cbn. intros [= Hl].
    destruct (Z.eqb_spec x y); cbn; [|split; [done|congruence]]. rewrite IH by done. split; congruence. }
  unfold equalIDs. destruct (Nat.eqb_spec (length a) (length b)); cbn; [by apply H|]. split; [done|]. by intros ->.
Qed.

Lemma changed_meta c f : changed c f = false <-> meta c = meta f.
Proof.
  unfold changed. rewrite !orb_false_iff, !negb_false_iff, !Z.eqb_eq, !equalIDs_eq. split.
  - intros H. unfold meta. intuition congruence.
  - intros H. unfold meta in H. injection H as -> -> -> -> -> -> -> -> -> ->. tauto.
Qed.

Section accepts.
Context {W : Type} (write : bytes -> M W unit).

(** The chunks that follow when [first] came first and [received] bytes are there. *)
Fixpoint continues (first : option SnapshotChunk) (received : Z) (cs : list SnapshotChunk) : Prop :=
  match cs with
  | [] => exists f, first = Some f /\ received = sc_totalSize f
  | c :: cs' => check_metadata first c = None /\ sc_offset c = received /\ Z.of_nat (length (sc_data c)) <= SnapshotChunkBytes /\
      received + Z.of_nat (length (sc_data c)) <= sc_totalSize c /\
      continues (Some (default c first)) (received + Z.of_nat (length (sc_data c))) cs'
  end.

Definition writes (l : list bytes) : M W unit := mfold (copy write) l.

Lemma check_bounds_ok received c : 0 <= received <= sc_totalSize c -> sc_totalSize c <= MaxSnapshotBytes ->
  check_bounds received c = None <-> sc_offset c = received /\ Z.of_nat (length (sc_data c)) <= SnapshotChunkBytes /\
    received + Z.of_nat (length (sc_data c)) <= sc_totalSize c.
Proof.
  intros Hr Hm. unfold check_bounds, MaxSnapshotBytes in *. rewrite u64_small by lia.
  destruct (Z.eqb_spec (sc_offset c) received); cbn; [|split; [done|tauto]].
  destruct (Z.ltb_spec SnapshotChunkBytes (Z.of_nat (length (sc_data c)))); [split; [done|lia]|].
  destruct (Z.ltb_spec (sc_totalSize c - received) (Z.of_nat (length (sc_data c)))); split; (done || lia).
Qed.

Lemma copy_catch data (k : unit -> M W Message) w m w' :
  (catch (copy write data) (fun e => raise ("write snapshot chunk: " ++ e)) ≫= k) w = (Ok m, w') <->
  exists w1, copy write data w = (Ok tt, w1) /\ k tt w1 = (Ok m, w').
Proof.
  unfold mbind, M_bind, catch. destruct (copy write data w) as [[[]|e| |] w1]; cbn.
  - split; [eauto|]. intros (? & [= <-] & ?). done.
  - split; [done|]. by intros (? & ? & _).
  - split; [done|]. by intros (? & ? & _).
  - split; [done|]. by intros (? & ? & _).
Qed.

(** A negative size is never reached. *)
Lemma receive_negative l f : sc_totalSize f < 0 -> forall received crc w m w', 0 <= received ->
  receive write l (Some f) received crc w <> (Ok m, w').
Proof.
  intros Hf. induction l as [|[[c|]|e] l IH]; intros received crc w m w' Hr; cbn [receive]; try done.
  - rewrite (proj2 (Z.eqb_neq _ _)) by lia. done.
  - destruct (check_metadata _ _); [done|]. destruct (check_bounds _ _); [done|]. intros (w1 & _ & H)%copy_catch.
    eapply IH; [|exact H]. apply u64_range.
Qed.

Definition arrived (first : option SnapshotChunk) (received : Z) : Prop :=
  match first with None => received = 0 | Some f => 0 <= received <= sc_totalSize f /\ sc_totalSize f <= MaxSnapshotBytes end.

Lemma metadata_total first c received : check_metadata first c = None -> arrived first received -> 0 <= received /\
  sc_totalSize (default c first) = sc_totalSize c /\ sc_totalSize c <= MaxSnapshotBytes /\ (0 <= sc_totalSize c -> received <= sc_totalSize c).
Proof.
  destruct first as [f|]; cbn.
  - destruct (changed c f) eqn:E; [done|]. intros _ [? ?]. apply changed_meta in E. apply (f_equal sc_totalSize) in E. cbn in E. rewrite E. lia.
  - unfold check_first. destruct (_ || _); [done|]. destruct (Z.ltb_spec MaxSnapshotBytes (sc_totalSize c)); [done|]. intros _ ->. lia.
Qed.

Lemma crc32_update_nil crc : crc32_update crc [] = crc.
Proof. unfold crc32_update. cbn. by rewrite Z.lxor_assoc, Z.lxor_nilpotent, Z.lxor_0_r. Qed.

Lemma receive_iff l : forall first received crc w m w', arrived first received ->
  receive write l first received crc w = (Ok m, w') <->
  exists cs f, l = RChunk ∘ Some <$> cs /\ continues first received cs /\ over first (head cs) = Some f /\
    writes (sc_data <$> cs) w = (Ok tt, w') /\ crc32_update crc (whole cs) = sc_checksum f /\ m = announced f [].
Proof.
  induction l as [|[[c|]|e] l IH]; intros first received crc w m w' Ha; cbn [receive].
  - split.
    + destruct first as [f|]; [|done]. destruct (Z.eqb_spec received (sc_totalSize f)) as [E|E]; [|done].
      destruct (Z.eqb_spec crc (sc_checksum f)) as [Ec|Ec]; [|done]. intros [= <- <-]. exists [], f. cbn. split_and!; eauto.
      by rewrite crc32_update_nil.
    + intros ([|] & f & [=] & (f' & Ef & Hr) & Hov & Hw & Hc & ->). subst first. cbn in Hov. injection Hov as ->.
      rewrite Hr, Z.eqb_refl. cbn in Hw. injection Hw as ->. change (whole []) with (@nil byte) in Hc. rewrite crc32_update_nil in Hc.
      by rewrite Hc, Z.eqb_refl.
  - destruct (check_metadata first c) eqn:Em.
    { split; [done|]. intros ([|? cs] & f & [= <- ->] & Hc & _). destruct Hc. congruence. }
    destruct (metadata_total _ _ _ Em Ha) as (Hr & Ht & Hmax & Hle). split.
    + destruct (check_bounds received c) eqn:Eb; [done|]. intros (w1 & Hw1 & H)%copy_catch.
      destruct (decide (0 <= sc_totalSize c)) as [Hc|Hc]; [|exfalso; eapply (receive_negative l (default c first)); [..|exact H]; [lia|apply u64_range]].
      apply check_bounds_ok in Eb as (Ho & Hch & Hb); [|lia..]. unfold MaxSnapshotBytes in Hmax. rewrite u64_small in H by lia.
      apply IH in H as (cs & f & -> & Hcs & Hf & Hw & Hcrc & ->); [|cbn; unfold MaxSnapshotBytes; lia].
      exists (c :: cs), f. cbn [continues writes mfold fmap list_fmap]. split_and!; try done; [by destruct first| |].
      * unfold mbind, M_bind. by rewrite Hw1.
      * by rewrite <- Hcrc, crc32_update_app.
    + intros ([|c' cs] & f & [= <- ->] & (_ & Ho & Hch & Hb & Hcs) & Hf & Hw & Hcrc & ->).
      rewrite (proj2 (check_bounds_ok received c ltac:(lia) Hmax)) by done. apply copy_catch.
      cbn [writes mfold fmap list_fmap] in Hw. unfold mbind, M_bind in Hw. destruct (copy write (sc_data c) w) as [[[]|e| |] w1]; try done.
      exists w1. split; [done|]. unfold MaxSnapshotBytes in Hmax. rewrite u64_small by lia. apply IH; [cbn; unfold MaxSnapshotBytes; lia|].
      exists cs, f. split_and!; try done; [by destruct first|]. by rewrite crc32_update_app.
  - split; [done|]. by intros ([|] & f & [=] & _).
  - split; [done|]. by intros ([|] & f & [=] & _).
Qed.

Lemma whole_cons c cs : whole (c :: cs) = sc_data c ++ whole cs.
Proof. done. Qed.

Lemma offsets_cons received c cs :
  (forall pre x post, c :: cs = pre ++ x :: post -> sc_offset x = received + Z.of_nat (length (whole pre))) <->
  sc_offset c = received /\
  forall pre x post, cs = pre ++ x :: post -> sc_offset x = received + Z.of_nat (length (sc_data c)) + Z.of_nat (length (whole pre)).
Proof.
  split.
  - intros H. split; [rewrite (H [] c cs eq_refl); cbn; lia|]. intros pre x post ->.
    rewrite (H (c :: pre) x post eq_refl), whole_cons, length_app. lia.
  - intros [H1 H2] [|c' pre] x post [= <- ->]; [cbn; lia|]. rewrite (H2 pre x post eq_refl), whole_cons, length_app. lia.
Qed.

Lemma continues_rest f cs : forall received, continues (Some f) received cs <->
  Forall (fun c => meta c = meta f) cs /\
  (forall pre c post, cs = pre ++ c :: post -> sc_offset c = received + Z.of_nat (length (whole pre))) /\
  Forall (fun c => Z.of_nat (length (sc_data c)) <= SnapshotChunkBytes) cs /\
  received + Z.of_nat (length (whole cs)) = sc_totalSize f.
Proof.
  induction cs as [|c cs IH]; intros received.
  - split.
    + intros (? & [= <-] & ->). split_and!; [done| |done|cbn; lia]. by intros [|] ? ?.
    + intros (_ & _ & _ & H). exists f. split; [done|cbn in H; lia].
  - cbn [continues check_metadata default]. rewrite IH, offsets_cons, !Forall_cons, whole_cons, length_app.
    assert ((if changed c f then Some "snapshot stream metadata changed between chunks"%string else None) = None <-> meta c = meta f) as ->.
    { rewrite <- changed_meta. by destruct (changed c f). }
    assert (meta c = meta f -> sc_totalSize c = sc_totalSize f) as Hm by (intros H; by apply (f_equal sc_totalSize) in H).
    split; [intuition lia|]. intros ((H1 & H2) & (H3 & H4) & (H5 & H6) & H7). specialize (Hm H1). intuition lia.
Qed.

Lemma check_first_ok c : check_first c = None <->
  (sc_from c <> 0 /\ sc_to c <> 0 /\ sc_raftTerm c <> 0 /\ sc_snapshotIndex c <> 0 /\ sc_snapshotTerm c <> 0) /\ sc_totalSize c <= MaxSnapshotBytes.
Proof.
  unfold check_first. destruct (_ || _) eqn:E.
  - split; [done|]. rewrite !orb_true_iff, !Z.eqb_eq in E. tauto.
  - rewrite !orb_false_iff, !Z.eqb_neq in E. destruct (Z.ltb_spec MaxSnapshotBytes (sc_totalSize c)); split; (done || lia || tauto).
Qed.

Lemma stream_ok_iff f cs : stream_ok f cs <-> continues None 0 cs /\ head cs = Some f /\ ChecksumIEEE (whole cs) = sc_checksum f.
Proof.
  destruct cs as [|c cs].
  { split; [by intros []|]. by intros (_ & ? & _). }
  cbn [continues check_metadata default head]. rewrite continues_rest, check_first_ok. split.
  - intros [Hf Hids Hl Hs Ho Hch Ht Hsum]. injection Hf as ->. apply (offsets_cons 0) in Ho as [Ho1 Ho2].
    rewrite Forall_cons in Hs, Hch. rewrite whole_cons, length_app in Ht. intuition lia.
  - intros (((Hids & Hl) & Ho1 & Hc1 & Ht & Hs & Ho2 & Hch & Htot) & [= ->] & Hsum). constructor; try done; [by constructor| |by constructor|].
    + apply (offsets_cons 0). auto.
    + rewrite whole_cons, length_app. lia.
Qed.

(** Into any writer: every chunk was written in order. *)
Theorem ReceiveSnapshotTo_accepts stream w m w' : ReceiveSnapshotTo write stream w = (Ok m, w') <->
  exists cs f, stream = RChunk ∘ Some <$> cs /\ stream_ok f cs /\ writes (sc_data <$> cs) w = (Ok tt, w') /\ m = announced f [].
Proof.
  unfold ReceiveSnapshotTo. rewrite (receive_iff stream None 0 0 w m w' eq_refl). setoid_rewrite stream_ok_iff. cbn [over].
  unfold ChecksumIEEE. split; intros (cs & f & H); exists cs, f; tauto.
Qed.
End accepts.

Lemma buffer_writes l : forall b, writes buffer_write l b = (Ok tt, b ++ concat l).
Proof.
  induction l as [|d l IH]; intros b; [cbn; by rewrite app_nil_r|]. unfold writes in *. cbn [mfold concat].
  unfold mbind, M_bind, copy. destruct (Nat.eqb_spec (length d) 0) as [E|E].
  - apply nil_length_inv in E as ->. apply IH.
  - cbn. by rewrite IH, app_assoc.
Qed.

(** C25: The receiver of a snapshot accepts exactly the streams that carry one: at least one
    chunk, positive ids and terms, the same metadata in all chunks, consecutive offsets,
    at most 1 MiB in each, at most 64 GiB in total, and together the declared size and
    checksum. The message it then returns has that metadata and all the data. *)
Theorem ReceiveSnapshot_accepts stream m : ReceiveSnapshot stream = Ok m <->
  exists cs f, stream = RChunk ∘ Some <$> cs /\ stream_ok f cs /\ m = announced f (whole cs).
Proof.
  unfold ReceiveSnapshot. pose proof (ReceiveSnapshotTo_accepts buffer_write stream []) as H. split.
  - destruct (ReceiveSnapshotTo _ _ _) as [[m1|e| |] w1]; try done.
    destruct (proj1 (H m1 w1) eq_refl) as (cs & f & -> & Hok & Hw & ->). rewrite buffer_writes in Hw. injection Hw as <-.
    cbn. intros [= <-]. by exists cs, f.
  - intros (cs & f & -> & Hok & ->). rewrite (proj2 (H (announced f []) (whole cs))); [done|]. exists cs, f. by rewrite buffer_writes.
Qed.

(** ** What a sender sends *)

(** What connections promise: [live] are the open ones with the address they were made for,
    [sent] the chunks of the stream in progress, [posted] the messages sent; [shaky] says that a call may fail. *)
Class ConnectionLaws (E : Type) `{!Connections E} := {
  live : E -> gmap nat bytes;
  sent : E -> list SnapshotChunk;
  posted : E -> list (nat * RaftMessage);
  shaky : E -> Prop;
  New_runs a e : runs (conn_New a) e
    (fun c e' => live e !! c = None /\ live e' = <[c := a]> (live e) /\ posted e' = posted e /\ (shaky e' -> shaky e))
    (fun e' => live e' = live e /\ shaky e) (fun _ => True);
  Close_runs c e : runs (conn_Close c) e
    (fun _ e' => live e' = delete c (live e) /\ posted e' = posted e /\ (shaky e' -> shaky e))
    (fun e' => live e' = delete c (live e) /\ posted e' = posted e /\ shaky e) (fun _ => True);
  Send_runs c p e : runs (conn_Send c p) e
    (fun _ e' => live e' = live e /\ posted e' = posted e ++ [(c, p)] /\ (shaky e' -> shaky e))
    (fun e' => live e' = live e /\ shaky e) (fun _ => True);
  InstallSnapshot_runs c e : runs (conn_InstallSnapshot c) e
    (fun _ e' => live e' = live e /\ sent e' = [] /\ (shaky e' -> shaky e)) (fun e' => live e' = live e /\ shaky e) (fun _ => True);
  stream_Send_runs ch e : runs (stream_Send ch) e
    (fun _ e' => live e' = live e /\ sent e' = sent e ++ [ch] /\ (shaky e' -> shaky e)) (fun e' => live e' = live e /\ shaky e) (fun _ => True);
  CloseAndRecv_runs e : runs stream_CloseAndRecv e
    (fun _ e' => live e' = live e /\ sent e' = sent e /\ (shaky e' -> shaky e)) (fun e' => live e' = live e /\ shaky e) (fun _ => True)
}.

Section sending.
Context {E : Type} `{!Connections E} `{!ConnectionLaws E}.
Context (m : Message) (s : Snapshot) (size checksum : Z).

Let header : SnapshotChunk := snapshot_chunk m s 0 size checksum [].

(** Chunks that carry the beginning of the data. *)
Record partial (cs : list SnapshotChunk) : Prop := {
  pa_same : Forall (fun c => meta c = header) cs;
  pa_offsets : forall pre c post, cs = pre ++ c :: post -> sc_offset c = Z.of_nat (length (whole pre));
  pa_chunks : Forall (fun c => Z.of_nat (length (sc_data c)) <= SnapshotChunkBytes) cs
}.

Lemma whole_snoc cs c : whole (cs ++ [c]) = whole cs ++ sc_data c.
Proof. unfold whole. rewrite fmap_app, concat_app. cbn. by rewrite app_nil_r. Qed.

Lemma partial_snoc cs data : partial cs -> Z.of_nat (length data) <= SnapshotChunkBytes ->
  partial (cs ++ [snapshot_chunk m s (Z.of_nat (length (whole cs))) size checksum data]).
Proof.
  intros [H1 H2 H3] Hl. constructor; [by apply Forall_app; split; [|repeat constructor]| |by apply Forall_app; split; [|repeat constructor]].
  intros pre c post Hcs. destruct (decide (post = [])) as [->|Hp].
  - apply app_inj_tail in Hcs as [-> <-]. done.
  - destruct (exists_last Hp) as (post' & x & ->). rewrite app_comm_cons, app_assoc in Hcs. apply app_inj_tail in Hcs as [-> _]. by eapply H2.
Qed.

(** A read of a chunk, or the end of a source that is too short. *)
Lemma read_runs n r e : 0 <= n ->
  runs (if 0 <? n then catch (on_reader (E := E) (ReadFull n)) (fun e => raise ("read snapshot chunk: " ++ e)) else mret []) (r, e)
    (fun data st => Z.of_nat (length data) = n /\ data ++ rest st.1 = rest r /\ read_error st.1 = read_error r /\ st.2 = e)
    (fun st => Z.of_nat (length (rest r)) < n /\ st.2 = e) (fun _ => True).
Proof.
  intros Hn. destruct (Z.ltb_spec 0 n); [|apply runs_ret; cbn; split_and!; (done || lia)].
  apply runs_catch, runs_zoom. unfold runs, ReadFull. cbn. destruct (Z.leb_spec n (Z.of_nat (length (rest r)))); cbn; [|split; [lia|done]].
  rewrite length_take, take_drop. split_and!; (done || lia).
Qed.

Lemma send_chunks_runs fuel : forall cs r e, sent e = cs -> partial cs -> 0 <= size < 2 ^ 63 -> Z.of_nat (length (whole cs)) <= size ->
  size - Z.of_nat (length (whole cs)) <= Z.of_nat fuel * SnapshotChunkBytes -> (fuel <> O \/ 0 < size) ->
  runs (send_chunks fuel m s size checksum (Z.of_nat (length (whole cs)))) (r, e)
    (fun _ st => partial (sent st.2) /\ Z.of_nat (length (whole (sent st.2))) = size /\ (cs = [] -> sent st.2 <> []) /\
       whole (sent st.2) ++ rest st.1 = whole cs ++ rest r /\ read_error st.1 = read_error r /\
       live st.2 = live e /\ (shaky st.2 -> shaky e))
    (fun st => live st.2 = live e /\ (shaky e \/ Z.of_nat (length (whole cs ++ rest r)) < size)) (fun _ => True).
Proof.
  induction fuel as [|fuel IH]; intros cs r e Hs Hp Hsz Hle Hf H0; cbn [send_chunks].
  all: destruct (negb _) eqn:Eg; [apply runs_ret; cbn [fst snd]; rewrite Hs; apply negb_true_iff, orb_false_iff in Eg as [Eg1 Eg2]; bool_hyps; split_and!; try done; [lia|]; intros ->; change (length (whole [])) with O in *; destruct (Z.eqb_spec size 0); [subst|]; (done || lia)|].
  { exfalso. apply negb_false_iff, orb_true_iff in Eg as [?|?]; bool_hyps; lia. }
  cbv zeta. rewrite (u64_small (size - _)) by lia. set (n := Z.min _ _). assert (0 <= n <= SnapshotChunkBytes /\ n <= size - Z.of_nat (length (whole cs))) as Hn.
  { unfold n, SnapshotChunkBytes in *. lia. }
  apply runs_bind. eapply runs_mono; [apply read_runs; lia| | |done].
  2:{ intros st [Hlt E1]. rewrite E1. split; [done|]. right. rewrite length_app. lia. }
  intros data [r1 e0] (Hd & Hr & He & E1). cbn [fst snd] in *. subst e0. apply runs_bind, runs_catch, runs_zoom.
  eapply runs_mono; [apply stream_Send_runs| |intros e1 [? ?]; cbn; auto|done]. cbn [snd fst]. intros _ e1 (Hl & Hs1 & Hb).
  rewrite Hs in Hs1. pose proof (partial_snoc cs data Hp ltac:(lia)) as Hp1. pose proof (whole_snoc cs (snapshot_chunk m s (Z.of_nat (length (whole cs))) size checksum data)) as Hw.
  rewrite <- Hs1 in Hp1, Hw. cbn [sc_data snapshot_chunk] in Hw. destruct (Z.eqb_spec size 0) as [E0|E0].
  - apply runs_ret. cbn [fst snd]. rewrite Hw, length_app, <- app_assoc, Hr. split_and!; try done; [lia|]. rewrite Hs1. intros _ ?%(f_equal length). rewrite length_app in *. cbn in *. lia.
  - replace (u64 (Z.of_nat (length (whole cs)) + n)) with (Z.of_nat (length (whole (sent e1)))) by (rewrite u64_small, Hw, length_app; lia).
    eapply runs_mono; [apply (IH (sent e1) r1 e1); try done| | |done].
    + rewrite Hw, length_app. lia.
    + rewrite Hw, length_app. unfold n in *. unfold SnapshotChunkBytes in *. lia.
    + right. lia.
    + intros _ [r2 e2] (H1 & H2 & H3 & H4 & H5 & H6 & H7). cbn [fst snd] in *. rewrite Hw, <- app_assoc, Hr in H4. rewrite H5, H6, He, Hl.
      split_and!; try done; [|auto]. intros -> E2. rewrite E2 in H2. cbn in H2. lia.
    + intros [r2 e2] [H1 H2]. cbn [fst snd] in *. rewrite H1, Hl. split; [done|]. rewrite Hw, <- app_assoc, Hr in H2. destruct H2; auto.
Qed.

Lemma sendSnapshot_runs conn content fault e : m_snapshot m = Some s -> 0 <= size ->
  runs (sendSnapshot conn m size checksum) (mkReader content fault, e)
    (fun _ st => size = Z.of_nat (length content) /\ fault = None /\ size <= MaxSnapshotBytes /\ partial (sent st.2) /\
       whole (sent st.2) = content /\ sent st.2 <> [] /\ live st.2 = live e /\ (shaky st.2 -> shaky e))
    (fun st => live st.2 = live e /\ (shaky e \/ fault <> None \/ size <> Z.of_nat (length content) \/ MaxSnapshotBytes < size))
    (fun _ => True).
Proof.
  intros Hm Hsz. unfold sendSnapshot. rewrite Hm. destruct (Z.ltb_spec MaxSnapshotBytes size) as [Hb|Hb]; [apply runs_raise; auto|].
  apply runs_bind, runs_zoom. eapply runs_mono; [apply InstallSnapshot_runs| |intros e1 [? ?]; auto|done]. intros _ e1 (Hl1 & Hs1 & Hb1).
  cbn [fst snd]. apply runs_bind. pose proof (Z.mul_succ_div_gt size SnapshotChunkBytes ltac:(unfold SnapshotChunkBytes; lia)) as Hd.
  pose proof (Z.div_pos size SnapshotChunkBytes Hsz ltac:(unfold SnapshotChunkBytes; lia)).
  eapply runs_mono; [apply (send_chunks_runs _ [] (mkReader content fault) e1 Hs1)| | |done].
  - constructor; [done| |done]. by intros [|].
  - unfold MaxSnapshotBytes in Hb. lia.
  - cbn. lia.
  - cbn [whole fmap list_fmap concat length]. rewrite Nat2Z.inj_succ, Z2Nat.id, Z.mul_comm by done. lia.
  - by left.
  - intros _ [r2 e2] (Hp & Hlen & Hne & Hc & Hre & Hl2 & Hb2). cbn [fst snd rest read_error] in *. change (whole [] ++ content) with content in Hc.
    set (b := match rest r2, read_error r2 with [], None => true | _, _ => false end).
    match goal with |- runs (_ ≫= ?k) _ ?Q ?R ?T => change (runs (k b) (mkReader (drop 1 (rest r2)) (read_error r2), e2) Q R T) end.
    unfold b. destruct (match rest r2 with [] => match read_error r2 with None => true | _ => false end | _ => false end) eqn:Ee; cbn [negb].
    + destruct (rest r2) eqn:Er; [|done]. destruct (read_error r2) eqn:Ef; [done|]. rewrite app_nil_r in Hc.
      apply runs_catch, runs_zoom. eapply runs_mono; [apply CloseAndRecv_runs| | |done].
      * intros _ e3 (Hl3 & Hs3 & Hb3). cbn [fst snd] in *. rewrite Hs3, Hl3, Hl2, Hl1. subst content. split_and!; try done; auto.
      * intros e3 [Hl3 Hb3] e4. apply runs_raise. cbn [fst snd] in *. rewrite Hl3, Hl2, Hl1. auto.
    + apply runs_raise. cbn [snd]. rewrite Hl2, Hl1. split; [done|]. right. destruct (rest r2) eqn:Er; [|].
      * destruct (read_error r2); [|done]. left. congruence.
      * right. left. rewrite <- Hc, length_app. cbn. lia.
  - intros [r2 e2] [Hl2 Hx]. cbn [fst snd rest] in *. rewrite Hl2, Hl1. split; [done|]. change (whole [] ++ content) with content in Hx. destruct Hx; [auto|]. right. right. left. lia.
Qed.

(** The message a receiver rebuilds. *)
Definition delivered (data : bytes) : Message :=
  mkMessage MsgSnapshot (m_from m) (m_to m) (m_term m) 0 0 [] 0 false 0 0
    (Some (mkSnapshot (s_index s) (s_term s) data (s_membership s))) OriginOther.

Lemma partial_stream cs : partial cs -> cs <> [] -> size = Z.of_nat (length (whole cs)) -> size <= MaxSnapshotBytes ->
  m_from m <> 0 -> m_to m <> 0 -> m_term m <> 0 -> s_index s <> 0 -> s_term s <> 0 ->
  exists f, (stream_ok f cs <-> checksum = ChecksumIEEE (whole cs)) /\ head cs = Some f /\ announced f (whole cs) = delivered (whole cs).
Proof.
  intros [Hs Ho Hc] Hne Hsz Hmax H1 H2 H3 H4 H5. destruct cs as [|f cs]; [done|]. exists f.
  pose proof (Forall_inv Hs) as Hf. injection Hf as E1 E2 E3 E4 E5 E6 E7 E8 E9 E10. split_and!; [|done|].
  - split; [intros Hok; rewrite <- (so_sum _ _ Hok); congruence|]. intros Hsum. constructor; [done|by rewrite E1, E2, E3, E4, E5|by rewrite E6| |done|done|congruence|congruence].
    eapply Forall_impl; [exact Hs|]. cbv beta. intros c ->. symmetry. exact (Forall_inv Hs).
  - unfold announced, delivered. rewrite E1, E2, E3, E4, E5, E8, E9, E10. by destruct (s_membership s).
Qed.
End sending.

Section transport.
Context {E : Type} `{!Connections E} `{!ConnectionLaws E}.
Implicit Types (t : Transport) (e : E).

(** Sending a snapshot and receiving it. When sendSnapshot returns without an error, the
    source held exactly the declared size, and the chunks it sent are a stream from which
    the receiver rebuilds the message with all of the source's data if and only if the
    declared checksum is that of the data. It fails only if a call on the connection may
    fail, the source fails or is not of the declared size, or the size exceeds the limit;
    it always comes to an end. *)
Theorem snapshot_arrives conn m s size checksum content fault e :
  m_snapshot m = Some s -> 0 <= size -> m_from m <> 0 -> m_to m <> 0 -> m_term m <> 0 -> s_index s <> 0 -> s_term s <> 0 ->
  runs (sendSnapshot conn m size checksum) (mkReader content fault, e)
    (fun _ st => fault = None /\ size = Z.of_nat (length content) /\ forall m',
       ReceiveSnapshot (RChunk ∘ Some <$> sent st.2) = Ok m' <-> checksum = ChecksumIEEE content /\ m' = delivered m s content)
    (fun _ => shaky e \/ fault <> None \/ size <> Z.of_nat (length content) \/ MaxSnapshotBytes < size)
    (fun _ => True).
Proof.
  intros Hm Hsz H1 H2 H3 H4 H5. eapply runs_mono; [by apply (sendSnapshot_runs m s size checksum)| |intros st [_ ?]; done|done].
  intros _ st (Hc & Hf & Hmax & Hp & Hw & Hne & _). split_and!; [done|done|]. intros m'.
  destruct (partial_stream m s size checksum (sent st.2) Hp Hne ltac:(congruence) Hmax H1 H2 H3 H4 H5) as (f & Hok & Hh & Ha).
  rewrite Hw in *. rewrite ReceiveSnapshot_accepts. split.
  - intros (cs & f' & E1 & Hok' & ->). apply (inj (fmap (M := list) (RChunk ∘ Some))) in E1. subst cs.
    assert (f' = f) as -> by (apply so_first in Hok'; congruence). rewrite Hw, Ha. tauto.
  - intros [Hs ->]. exists (sent st.2), f. rewrite Hw, Ha. tauto.
Qed.

(** ** The cache of connections *)

(** Every peer in the cache has its own open connection, made for the address noted for it,
    and no other connection is open. *)
Record pool_ok t e : Prop := {
  po_clients : clients t = conns t;
  po_live id c : conns t !! id = Some c -> live e !! c = Some (default [] (addresses t !! id));
  po_own id id' c : conns t !! id = Some c -> conns t !! id' = Some c -> id = id';
  po_all c : is_Some (live e !! c) -> exists id, conns t !! id = Some c
}.

Lemma pool_live t e e' : live e' = live e -> pool_ok t e -> pool_ok t e'.
Proof. intros El [H1 H2 H3 H4]. constructor; try done; intros; rewrite El in *; eauto. Qed.

Lemma pool_uncache id c t e e' : pool_ok t e -> conns t !! id = Some c -> live e' = delete c (live e) -> pool_ok (uncache id t) e'.
Proof.
  intros [H1 H2 H3 H4] Hc El. constructor; cbn.
  - by rewrite H1.
  - intros id' c' [Hne Hc']%lookup_delete_Some. rewrite El, !lookup_delete_ne; [auto|done|]. intros <-. by destruct Hne; eapply H3.
  - intros id1 id2 c' [_ ?]%lookup_delete_Some [_ ?]%lookup_delete_Some. eauto.
  - intros c'. rewrite El. intros [a [Hne Ha]%lookup_delete_Some]. destruct (H4 c' ltac:(eauto)) as [id' Hid].
    exists id'. apply lookup_delete_Some. split; [|done]. intros ->. congruence.
Qed.

Lemma pool_cache id a c t e e' : pool_ok t e -> conns t !! id = None -> live e !! c = None -> live e' = <[c := a]> (live e) ->
  pool_ok (cache id a c t) e'.
Proof.
  intros [H1 H2 H3 H4] Hid Hc El.
  assert (forall id', conns t !! id' = Some c -> False) as Hnew by (intros id' Hid'; rewrite (H2 _ _ Hid') in Hc; done).
  constructor; cbn.
  - by rewrite H1.
  - intros id' c'. rewrite El. destruct (decide (id' = id)) as [->|Hne].
    + rewrite !lookup_insert_eq. intros [= <-]. by rewrite lookup_insert_eq.
    + rewrite !(lookup_insert_ne _ id id') by done. intros Hc'. rewrite lookup_insert_ne by (intros ->; eauto). auto.
  - intros id1 id2 c' [[<- <-]|[_ Hx1]]%lookup_insert_Some [[<- Ex]|[_ Hx2]]%lookup_insert_Some; try done; subst; eauto; exfalso; eauto.
  - intros c'. rewrite El. intros [x [[<- <-]|[Hne Hx]]%lookup_insert_Some]; [exists id; by rewrite lookup_insert_eq|].
    destruct (H4 c' ltac:(eauto)) as [id' Hid']. exists id'. rewrite lookup_insert_ne; [done|]. congruence.
Qed.

Lemma pool_flight f t e : pool_ok t e -> pool_ok (with_flight f t) e.
Proof. by intros []. Qed.

Lemma client_runs resolver id t e : pool_ok t e ->
  runs (client resolver id) (t, e)
    (fun c st => pool_ok st.1 st.2 /\ snapshotInFlight st.1 = snapshotInFlight t /\ posted st.2 = posted e /\ (shaky st.2 -> shaky e) /\
       exists resolve address, resolver = Some resolve /\ resolve id = inr address /\ live st.2 !! c = Some address)
    (fun st => pool_ok st.1 st.2 /\ snapshotInFlight st.1 = snapshotInFlight t) (fun _ => True).
Proof.
  intros Hp. unfold client. destruct resolver as [resolve|]; [|by apply runs_raise]. destruct (resolve id) as [err|address] eqn:Er; [by apply runs_raise|].
  destruct (Nat.eqb_spec (length address) 0); [by apply runs_raise|]. apply runs_bind, runs_gets. cbn [fst].
  destruct (cached id address t) as [c|] eqn:Ec.
  { apply runs_ret. cbn. split_and!; try done. exists resolve, address. split_and!; [done|done|]. unfold cached in Ec.
    destruct (clients t !! id) as [c'|] eqn:Et; [|done]. case_bool_decide as Ea; [|done]. injection Ec as ->.
    rewrite (po_clients _ _ Hp) in Et. by rewrite (po_live _ _ Hp _ _ Et), Ea. }
  apply runs_bind.
  assert (runs (match conns t !! id with Some conn => ignore (on_net (conn_Close conn)) ;; update (uncache id) | None => mret tt end) (t, e)
    (fun _ st => pool_ok st.1 st.2 /\ conns st.1 !! id = None /\ snapshotInFlight st.1 = snapshotInFlight t /\ posted st.2 = posted e /\ (shaky st.2 -> shaky e))
    (fun _ => False) (fun _ => True)) as H.
  { destruct (conns t !! id) as [c|] eqn:Et; [|by apply runs_ret]. apply runs_bind, runs_ignore, runs_zoom.
    assert (forall e', live e' = delete c (live e) -> posted e' = posted e -> (shaky e' -> shaky e) ->
      runs (update (uncache id)) (t, e') (fun _ st => pool_ok st.1 st.2 /\ conns st.1 !! id = None /\
        snapshotInFlight st.1 = snapshotInFlight t /\ posted st.2 = posted e /\ (shaky st.2 -> shaky e)) (fun _ => False) (fun _ => True)) as Hu.
    { intros e' El Hpo Hb. apply runs_modify. cbn. split_and!; [by eapply pool_uncache|by rewrite lookup_delete_eq|done|done|done]. }
    eapply runs_mono; [apply Close_runs| | |done]; intros; apply Hu; cbn in *; tauto. }
  eapply runs_mono; [exact H| |done|done]. clear H. intros _ [t1 e1] (Hp1 & Hn & Hf & Hpo & Hb1). cbn [fst snd] in *.
  apply runs_bind, runs_catch, runs_zoom. eapply runs_mono; [apply New_runs| | |done].
  - intros c e2 (Hc & El & Hpo2 & Hb2). cbn [fst snd] in *. apply runs_bind, runs_modify, runs_ret. cbn [fst snd].
    split_and!; [by eapply pool_cache|done|congruence|auto|].
    exists resolve, address. by rewrite El, lookup_insert_eq.
  - intros e2 [El _] err. apply runs_raise. cbn [fst snd] in *. split; [by eapply pool_live|done].
Qed.

Lemma deferring_runs {S A} (m : M S A) f s (Qok : A -> S -> Prop) (Qerr Qcrash : S -> Prop) :
  runs m s (fun a s' => runs f s' (fun _ => Qok a) (Qok a) Qcrash) (fun s' => runs f s' (fun _ => Qerr) Qerr Qcrash) Qcrash ->
  runs (deferring m f) s Qok Qerr Qcrash.
Proof. unfold runs, deferring. destruct (m s) as [[a|err| |] s']; try done; by destruct (f s') as [[[]|e2| |] s'']. Qed.

(** A snapshot is sent to a peer unless one is on its way; in the end none is, and the
    connections are in order. *)
Lemma SendSnapshot_runs resolver m reader size checksum t e : pool_ok t e -> 0 <= size ->
  let Q := fun st : Transport * E => pool_ok st.1 st.2 /\ snapshotInFlight st.1 = snapshotInFlight t in
  runs (SendSnapshot resolver m reader size checksum) (t, e) (fun _ => Q) Q (fun _ => True).
Proof.
  intros Hp Hsz Q. unfold SendSnapshot, beginSnapshot. apply runs_bind, runs_bind, runs_gets. cbn [fst].
  destruct (bool_decide _) eqn:Ef; [by apply runs_ret|]. bool_hyps. apply runs_bind, runs_modify, runs_ret. cbn [fst snd negb].
  apply deferring_runs. set (t1 := with_flight _ t).
  assert (forall t2 e2, pool_ok t2 e2 -> snapshotInFlight t2 = snapshotInFlight t1 ->
    runs (endSnapshot (m_to m)) (t2, e2) (fun _ => Q) Q (fun _ => True)) as Hend.
  { intros t2 e2 Hp2 Hf2. apply runs_modify. unfold Q. cbn [fst snd]. split; [by apply pool_flight|]. cbn. rewrite Hf2. cbn. set_solver. }
  apply runs_bind. eapply runs_mono; [apply (client_runs resolver (m_to m) t1 e); by apply pool_flight| | |done].
  2:{ intros [t2 e2] [Hp2 Hf2]. by apply Hend. }
  intros c [t2 e2] (Hp2 & Hf2 & _). cbn [fst snd] in *. apply runs_zoom. destruct (m_snapshot m) as [s|] eqn:Es.
  - pose proof (sendSnapshot_runs m s size checksum c (rest reader) (read_error reader) e2 Es Hsz) as H. destruct reader as [content fault].
    unfold runs in H |- *. cbn [rest read_error snd] in *. destruct (sendSnapshot _ _ _ _ _) as [[[]|err| |] [r3 e3]]; cbn [fst snd] in *; try done.
    + apply Hend; [|done]. eapply pool_live; [|done]. tauto.
    + apply Hend; [|done]. eapply pool_live; [|done]. tauto.
  - unfold runs, sendSnapshot. rewrite Es. cbn. by apply Hend.
Qed.

(** Send keeps the cache of connections in order in every outcome; when it succeeds, a
    message other than a snapshot was posted, converted, on a connection open to the
    address the resolver gives for the peer now. *)
Theorem Send_current resolver m t e : pool_ok t e ->
  runs (Send resolver m) (t, e)
    (fun _ st => pool_ok st.1 st.2 /\ snapshotInFlight st.1 = snapshotInFlight t /\
       (m_type m <> MsgSnapshot -> exists resolve address c, resolver = Some resolve /\ resolve (m_to m) = inr address /\
          live st.2 !! c = Some address /\ posted st.2 = posted e ++ [(c, ToProto m)]))
    (fun st => pool_ok st.1 st.2 /\ snapshotInFlight st.1 = snapshotInFlight t) (fun _ => True).
Proof.
  intros Hp. unfold Send. case_bool_decide as Et.
  - destruct (m_snapshot m) as [s|]; [|by apply runs_raise].
    eapply runs_mono; [apply SendSnapshot_runs; [done|lia]| |done|done]. intros _ st [? ?]. tauto.
  - apply runs_bind. eapply runs_mono; [by apply client_runs| |done|done].
    intros c [t1 e1] (Hp1 & Hf1 & Hpo & _ & resolve & a & H1 & H2 & H3). cbn [fst snd] in *. apply runs_zoom.
    eapply runs_mono; [apply Send_runs| | |done]; cbn [fst snd].
    + intros _ e2 (El & Hpo2 & _). split_and!; [by eapply pool_live|done|]. intros _. exists resolve, a, c. rewrite El, Hpo2, Hpo. done.
    + intros e2 (El & _). split; [by eapply pool_live|done].
Qed.

Lemma close_all_runs l : forall first t e, runs (close_all l first) (t, e)
  (fun _ st => forall c, live st.2 !! c = if bool_decide (c ∈ l) then None else live e !! c) (fun _ => False) (fun _ => True).
Proof.
  induction l as [|c l IH]; intros first t e; cbn [close_all].
  { apply runs_ret. intros c. by rewrite bool_decide_eq_false_2 by (apply not_elem_of_nil). }
  apply runs_bind, runs_try_err, runs_zoom.
  assert (forall e1 first1, live e1 = delete c (live e) -> runs (close_all l first1) (t, e1)
    (fun _ st => forall c', live st.2 !! c' = if bool_decide (c' ∈ c :: l) then None else live e !! c') (fun _ => False) (fun _ => True)) as H.
  { intros e1 first1 El. eapply runs_mono; [apply IH| |done|done]. intros ? st Hst c'. rewrite Hst, El.
    destruct (decide (c' = c)) as [Hc|Hne].
    - rewrite Hc, lookup_delete_eq, (bool_decide_eq_true_2 (c ∈ c :: l)) by set_solver. by case_match.
    - rewrite lookup_delete_ne by done. by rewrite (bool_decide_ext (c' ∈ l) (c' ∈ c :: l)) by set_solver. }
  eapply runs_mono; [apply Close_runs| | |done].
  - intros _ e1 (El & _). by apply H.
  - intros e1 (El & _) err. by apply H.
Qed.

(** Close leaves no connection open. *)
Theorem Close_closes_all t e : pool_ok t e ->
  let Q := fun st : Transport * E => st.1 = NewWithResolver /\ live st.2 = ∅ in
  runs Close (t, e) (fun _ => Q) Q (fun _ => True).
Proof.
  intros Hp Q. unfold Close. apply runs_bind, runs_gets. cbn [fst]. apply runs_bind. eapply runs_mono; [apply close_all_runs| |done|done].
  intros first [t1 e1] Hl. cbn [fst snd] in *. apply runs_bind, runs_modify. cbn [fst snd].
  assert (live e1 = ∅) as El.
  { apply map_eq. intros c. rewrite Hl, lookup_empty. case_bool_decide as Hc; [done|]. destruct (live e !! c) eqn:E1; [|done].
    destruct (po_all _ _ Hp c ltac:(eauto)) as [id Hid]. destruct Hc. apply list_elem_of_fmap. exists (id, c).
    split; [done|by apply elem_of_map_to_list]. }
  destruct first; [apply runs_raise|apply runs_ret]; by split.
Qed.
End transport.

(** ** A wire in memory *)

(** Connections are numbered as they are made; [wr_fates] says which of the next calls fail. *)
Record Wire := mkWire {
  wr_live : gmap nat bytes;
  wr_sent : list SnapshotChunk;
  wr_posted : list (nat * RaftMessage);
  wr_fates : list bool
}.

Definition wire_call {A} (a : A) (f : Wire -> Wire) : M Wire A := fun w =>
  let w1 := mkWire (wr_live w) (wr_sent w) (wr_posted w) (tail (wr_fates w)) in
  match wr_fates w with
  | false :: _ => (Err "unavailable", w1)
  | _ => (Ok a, f w1)
  end.

#[global] Instance wire_connections : Connections Wire := {|
  conn_New a w := let c := fresh (dom (wr_live w)) in
    wire_call c (fun w => mkWire (<[c := a]> (wr_live w)) (wr_sent w) (wr_posted w) (wr_fates w)) w;
  conn_Close c := (modify (fun w => mkWire (delete c (wr_live w)) (wr_sent w) (wr_posted w) (wr_fates w)) ;; wire_call tt id);
  conn_Send c p := wire_call tt (fun w => mkWire (wr_live w) (wr_sent w) (wr_posted w ++ [(c, p)]) (wr_fates w));
  conn_InstallSnapshot _ := wire_call tt (fun w => mkWire (wr_live w) [] (wr_posted w) (wr_fates w));
  stream_Send ch := wire_call tt (fun w => mkWire (wr_live w) (wr_sent w ++ [ch]) (wr_posted w) (wr_fates w));
  stream_CloseAndRecv := wire_call tt id
|}.

Lemma wire_call_runs {A} (a : A) f w (Qok : A -> Wire -> Prop) (Qerr Qcrash : Wire -> Prop) :
  (forall fs, (false ∈ fs -> false ∈ wr_fates w) -> Qok a (f (mkWire (wr_live w) (wr_sent w) (wr_posted w) fs))) ->
  (forall fs, false ∈ wr_fates w -> Qerr (mkWire (wr_live w) (wr_sent w) (wr_posted w) fs)) ->
  runs (wire_call a f) w Qok Qerr Qcrash.
Proof.
  intros Hok Herr. unfold runs, wire_call. destruct (wr_fates w) as [|[] fs]; cbn.
  - apply Hok. set_solver.
  - apply Hok. set_solver.
  - apply Herr. set_solver.
Qed.

#[global] Program Instance wire_laws : ConnectionLaws Wire := {|
  live := wr_live; sent := wr_sent; posted := wr_posted; shaky w := false ∈ wr_fates w
|}.
Next Obligation. intros a w. apply wire_call_runs; cbn; [|done]. intros fs Hf. split_and!; try done. apply not_elem_of_dom, is_fresh. Qed.
Next Obligation. intros c w. apply runs_bind, runs_modify, wire_call_runs; cbn; done. Qed.
Next Obligation. intros c p w. apply wire_call_runs; cbn; done. Qed.
Next Obligation. intros c w. apply wire_call_runs; cbn; done. Qed.
Next Obligation. intros ch w. apply wire_call_runs; cbn; done. Qed.
Next Obligation. intros w. apply wire_call_runs; cbn; done. Qed.

(** A snapshot of five bytes from node 1 to node 2. *)
Definition small_snapshot : Snapshot := mkSnapshot 9 3 [] (mkMembership [1; 2] [] 7).
Definition small_message : Message := mkMessage MsgSnapshot 1 2 4 0 0 [] 0 false 0 0 (Some small_snapshot) OriginOther.

Lemma snapshot_arrives_witness :
  let '(o, st) := sendSnapshot 0 small_message 5 (ChecksumIEEE (str "state")) (mkReader (str "state") None, mkWire ∅ [] [] []) in
  is_ok o = true /\ ReceiveSnapshot (RChunk ∘ Some <$> sent st.2) = Ok (delivered small_message small_snapshot (str "state")).
Proof.
  pose proof (snapshot_arrives 0 small_message small_snapshot 5 (ChecksumIEEE (str "state")) (str "state") None (mkWire ∅ [] [] [])
    eq_refl ltac:(lia) ltac:(done) ltac:(done) ltac:(done) ltac:(done) ltac:(done)) as H. unfold runs in H.
  assert (is_ok (sendSnapshot 0 small_message 5 (ChecksumIEEE (str "state")) (mkReader (str "state") None, mkWire ∅ [] [] [])).1 = true) as Hok
    by (vm_compute; reflexivity).
  destruct (sendSnapshot _ _ _ _ _) as [[[]|e| |] st]; try done. split; [done|]. destruct H as (_ & _ & H). apply H. done.
Defined.
End Grpc.
