(* ===== verification/Rpc.v ===== *)
(** * The service a node offers

    Requests, responses and error statuses of the KV service (api/lsmdb/v1), as the node
    (src/cluster/node.go) and the client (src/cluster/client.go) use them. *)

From S2P Require Import Prelude GoStd Fs Memtable Bloom Wal Sstable Heap Compact Json Manifest Db Recovery Reopen Durability Replica Snapshot Kvstate.

Module Rpc.

(** ** Statuses *)

(** The gRPC status codes the code distinguishes. *)
Inductive Code := Canceled | DeadlineExceeded | InvalidArgument | FailedPrecondition | Unavailable | Internal | OtherCode.
#[global] Instance Code_eq_dec : EqDecision Code.
Proof. solve_decision. Defined.

(** The details attached to a status: the leader a follower knows of. *)
Inductive Detail := NotLeader (leaderId : Z) (leaderAddress : bytes) | OtherDetail.

Record Status := mkStatus { code : Code; text : string; details : list Detail }.

(** ** Requests and responses *)

Record PutRequest := mkPut { put_key : bytes; put_value : bytes; put_client : bytes; put_seq : Z }.
Record DeleteRequest := mkDelete { del_key : bytes; del_client : bytes; del_seq : Z }.
Record WriteResponse := mkWritten { w_term : Z; w_logIndex : Z }.
Record GetResponse := mkGot { g_found : bool; g_value : bytes; g_readIndex : Z }.

Record StatusResponse := mkNodeStatus {
  ns_nodeId : Z;
  ns_role : bytes;
  ns_term : Z;
  ns_leaderId : Z;
  ns_commitIndex : Z;
  ns_appliedIndex : Z;
  ns_peers : list (Z * bytes);
  ns_snapshotIndex : Z;
  ns_retained : Z;
  ns_voters : list Z;
  ns_jointVoters : list Z
}.

Record ChangeResponse := mkChanged { ch_term : Z; ch_logIndex : Z }.

(** A call, with the type of its response. *)
Inductive request : Type -> Type :=
| CallPut (r : PutRequest) : request WriteResponse
| CallDelete (r : DeleteRequest) : request WriteResponse
| CallGet (key : bytes) : request GetResponse
| CallStatus : request StatusResponse
| CallChange (voters : list Z) : request ChangeResponse.

(** The command of a write. *)
Definition command_of {R} (q : request R) : option Kvstate.Command :=
  match q with
  | CallPut r => Some (Kvstate.mkCommand Kvstate.OPERATION_PUT (put_key r) (put_value r) (put_client r) (put_seq r))
  | CallDelete r => Some (Kvstate.mkCommand Kvstate.OPERATION_DELETE (del_key r) [] (del_client r) (del_seq r))
  | _ => None
  end.

End Rpc.
