(* ===== verification/Client.v ===== *)
(** * The client

    src/cluster/client.go: a client sends a request to the addresses it knows, one after the
    other and more than once, until a node answers; a write keeps its request number over
    all attempts. The cluster, the clock and the caller's context are a parameter: how a
    call is answered, and when the context ends. *)

From S2P Require Import Prelude GoStd Fs Memtable Bloom Wal Sstable Heap Compact Json Manifest Db Recovery Reopen Durability Replica Snapshot Kvstate Rpc.

Module Client.
Import Rpc.

(** ** The outside *)

Class Outside (E : Type) := {
  ctx_err : E -> option string;                              (** ctx.Err, once ctx is done *)
  dial : bytes -> E -> option string * E;                    (** grpc.NewClient *)
  hang_up : bytes -> E -> option string * E;                 (** ClientConn.Close *)
  rpc : forall R, bytes -> request R -> E -> (Status + R) * E;
  pause : E -> option string * E                             (** 25 ms, or the end of ctx *)
}.

(** Why an operation failed. *)
Inductive failure := FContext (e : string) | FDial (e : string) | FStatus (s : Status) | FRequest.

Record Client := mkClient {
  addresses : list bytes;
  clientID : bytes;
  sequence : Z;
  attempts : Z;
  conns : gset bytes;      (** the addresses with a cached connection *)
  leader : bytes
}.

Definition hex_digits (b : byte) : bytes := [Json.hex (Z_of_byte b / 16); Json.hex (Z_of_byte b mod 16)].

(** [random]: the 16 bytes of crypto/rand. *)
Definition NewClient (addrs : list bytes) (random : string + bytes) : string + Client :=
  if (length addrs =? 0)%nat then inl "at least one cluster address is required"%string else
  match random with
  | inl e => inl ("create client identity: " ++ e)%string
  | inr id => inr (mkClient addrs (concat (hex_digits <$> id)) 0 0 ∅ [])
  end.

Definition with_leader (a : bytes) (c : Client) : Client := mkClient (addresses c) (clientID c) (sequence c) (attempts c) (conns c) a.
Definition with_conns (s : gset bytes) (c : Client) : Client := mkClient (addresses c) (clientID c) (sequence c) (attempts c) s (leader c).
Definition with_attempts (n : Z) (c : Client) : Client := mkClient (addresses c) (clientID c) (sequence c) n (conns c) (leader c).
Definition with_sequence (n : Z) (c : Client) : Client := mkClient (addresses c) (clientID c) n (attempts c) (conns c) (leader c).

Definition orderedAddresses (c : Client) : list bytes :=
  (if (length (leader c) =? 0)%nat then [] else [leader c]) ++ filter (fun a => a <> leader c) (addresses c).

Fixpoint find_leader (l : list Detail) : bytes * bool :=
  match l with
  | [] => ([], false)
  | NotLeader _ address :: _ => (address, true)
  | OtherDetail :: l' => find_leader l'
  end.
Definition leaderHint (s : Status) : bytes * bool := find_leader (details s).

Section client.
Context {E : Type} `{!Outside E}.

(** The connection to an address, made when it is first used. *)
Definition client (address : bytes) : M (Client * E) (option string) := fun st =>
  if bool_decide (address ∈ conns st.1) then (Ok None, st) else
  match dial address st.2 with
  | (Some e, e') => (Ok (Some e), (st.1, e'))
  | (None, e') => (Ok None, (with_conns ({[address]} ∪ conns st.1) st.1, e'))
  end.

Definition call {R} (address : bytes) (q : request R) : M (Client * E) (Status + R) := fun st =>
  let (r, e) := rpc R address q st.2 in (Ok r, (with_attempts (u64 (attempts st.1 + 1)) st.1, e)).

Definition wait : M (Client * E) (option string) := fun st => let (r, e) := pause st.2 in (Ok r, (st.1, e)).
Definition setLeader (a : bytes) : M (Client * E) unit := modify (fun st => (with_leader a st.1, st.2)).

(** What a failed call means: give up, or go on with the addresses. *)
Definition gives_up (s : Status) : bool :=
  bool_decide (code s = InvalidArgument) || (bool_decide (code s = FailedPrecondition) && negb (leaderHint s).2).

Definition take_hint (s : Status) (addrs : list bytes) : M (Client * E) (list bytes) :=
  let hint := (leaderHint s).1 in
  if (length hint =? 0)%nat then mret addrs else
  setLeader hint ;; gets (fun st => orderedAddresses st.1).

(** The loop of retry; it ends within [fuel] turns. *)
Fixpoint retry_loop {R} (fuel : nat) (q : request R) (attempt : nat) (addrs : list bytes) (last : failure) : M (Client * E) (failure + R) :=
  if negb (attempt <? length addrs * 20)%nat then mret (inl last) else
  match fuel with
  | O => of_res Panic
  | S fuel' =>
      cancelled ← gets (fun st => ctx_err st.2);
      match cancelled with
      | Some e => mret (inl (FContext e))
      | None =>
          match addrs !! (attempt mod length addrs)%nat with
          | None => of_res Panic
          | Some address =>
              dialed ← client address;
              match dialed with
              | Some e => retry_loop fuel' q (S attempt) addrs (FDial e)
              | None =>
                  answer ← call address q;
                  match answer with
                  | inr response => setLeader address ;; mret (inr response)
                  | inl s =>
                      if gives_up s then mret (inl (FStatus s)) else
                      addrs' ← take_hint s addrs;
                      waited ← wait;
                      match waited with
                      | Some e => mret (inl (FContext e))
                      | None => retry_loop fuel' q (S attempt) addrs' (FStatus s)
                      end
                  end
              end
          end
      end
  end.

Definition retry {R} (q : request R) : M (Client * E) (failure + R) :=
  st ← gets id;
  retry_loop (S (length (addresses st.1)) * 20) q 0 (orderedAddresses st.1) FRequest.

(** c.sequence.Add(1) *)
Definition next_sequence : M (Client * E) Z :=
  modify (fun st => (with_sequence (u64 (sequence st.1 + 1)) st.1, st.2)) ;;
  gets (fun st => sequence st.1).

Definition Put (key value : bytes) : M (Client * E) (failure + WriteResponse) :=
  seq ← next_sequence;
  id ← gets (fun st => clientID st.1);
  retry (CallPut (mkPut key value id seq)).

Definition Delete (key : bytes) : M (Client * E) (failure + WriteResponse) :=
  seq ← next_sequence;
  id ← gets (fun st => clientID st.1);
  retry (CallDelete (mkDelete key id seq)).

Definition Get (key : bytes) : M (Client * E) (failure + GetResponse) := retry (CallGet key).

Definition ChangeMembership (voters : list Z) : M (Client * E) (failure + ChangeResponse) := retry (CallChange voters).

(** Status asks each address once. *)
Fixpoint status_loop (addrs : list bytes) (last : option failure) : M (Client * E) (option failure + StatusResponse) :=
  match addrs with
  | [] => mret (inl last)
  | address :: addrs' =>
      dialed ← client address;
      match dialed with
      | Some e => status_loop addrs' (Some (FDial e))
      | None => fun st =>
          match rpc _ address CallStatus st.2 with
          | (inr response, e) => (Ok (inr response), (st.1, e))
          | (inl s, e) => status_loop addrs' (Some (FStatus s)) (st.1, e)
          end
      end
  end.

Definition Status : M (Client * E) (option failure + StatusResponse) :=
  addrs ← gets (fun st => orderedAddresses st.1); status_loop addrs None.

Fixpoint hang_up_all (l : list bytes) (first : option string) : M (Client * E) (option string) :=
  match l with
  | [] => mret first
  | a :: l' => fun st => let (err, e) := hang_up a st.2 in hang_up_all l' (match first with Some _ => first | None => err end) (st.1, e)
  end.

Definition Close : M (Client * E) (option string) := st ← gets id; hang_up_all (elements (conns st.1)) None.

(** ** Retries end *)

(** What a request leaves alone: the addresses, the identity and the request number. *)
Definition identity (c : Client) : list bytes * bytes * Z := (addresses c, clientID c, sequence c).

Lemma ordered_length c : (length (orderedAddresses c) <= S (length (addresses c)))%nat.
Proof.
  unfold orderedAddresses. rewrite length_app. pose proof (length_filter (fun a => a <> leader c) (addresses c)).
  destruct (length (leader c) =? 0)%nat; cbn; lia.
Qed.

Lemma client_calls address st : exists r c e, client address st = (Ok r, (c, e)) /\ identity c = identity st.1 /\ attempts c = attempts st.1.
Proof.
  unfold client. case_bool_decide; [by destruct st; eexists _, _, _|]. destruct (dial address st.2) as [[err|] e]; by eexists _, _, _.
Qed.

Lemma take_hint_calls s addrs st : (length addrs <= S (length (addresses st.1)))%nat ->
  exists addrs' c, take_hint s addrs st = (Ok addrs', (c, st.2)) /\ identity c = identity st.1 /\ attempts c = attempts st.1 /\
    (length addrs' <= S (length (addresses st.1)))%nat.
Proof.
  intros Hl. unfold take_hint. cbv zeta. destruct (_ =? 0)%nat; [by destruct st; eexists _, _|].
  eexists _, _. split; [reflexivity|]. split_and!; try done. apply (ordered_length (with_leader _ st.1)).
Qed.

(** The number of calls made, from the counter. *)
Definition counted (n : nat) (a : Z) : Z := Nat.iter n (fun a => u64 (a + 1)) a.

Lemma counted_S n a : counted n (u64 (a + 1)) = counted (S n) a.
Proof. unfold counted. by rewrite Nat.iter_succ_r. Qed.

Lemma retry_loop_ends {R} (q : request R) fuel : forall attempt addrs last c e,
  (length addrs <= S (length (addresses c)))%nat -> (S (length (addresses c)) * 20 <= attempt + fuel)%nat ->
  exists r c' e' n, retry_loop fuel q attempt addrs last (c, e) = (Ok r, (c', e')) /\ identity c' = identity c /\
    (n <= fuel)%nat /\ attempts c' = counted n (attempts c).
Proof.
  induction fuel as [|fuel IH]; intros attempt addrs last c e Hl Hf; cbn [retry_loop].
  { destruct (Nat.ltb_spec attempt (length addrs * 20)); [lia|]. by exists (inl last), c, e, O. }
  destruct (Nat.ltb_spec attempt (length addrs * 20)) as [Hlt|]; cbn [negb]; [|exists (inl last), c, e, O; split_and!; (done || lia)].
  assert (forall r, exists r' c' e' n, (Ok r : res (failure + R), (c, e)) = (Ok r', (c', e')) /\ identity c' = identity c /\ (n <= S fuel)%nat /\
    attempts c' = counted n (attempts c)) as Hret by (intros r; exists r, c, e, O; split_and!; (done || lia)).
  unfold mbind at 1, M_bind at 1, gets at 1. cbn [fst snd]. destruct (ctx_err e) as [err|]; [apply Hret|].
  destruct (lookup_lt_is_Some_2 addrs (attempt mod length addrs)) as [address ->]; [apply Nat.mod_upper_bound; lia|].
  unfold mbind at 1, M_bind at 1. destruct (client_calls address (c, e)) as (dialed & c1 & e1 & -> & Hi1 & Ha1). cbn [fst snd] in *.
  assert (addresses c1 = addresses c) as Ead by (unfold identity in Hi1; congruence).
  destruct dialed as [err|].
  { destruct (IH (S attempt) addrs (FDial err) c1 e1) as (r & c2 & e2 & n & E1 & Hi2 & Hn & Ha2); [by rewrite Ead|rewrite Ead; lia|].
    exists r, c2, e2, n. rewrite E1, Hi2, Ha2, Ha1. split_and!; (done || lia). }
  unfold mbind at 1, M_bind at 1, call. cbn [fst snd]. destruct (rpc R address q e1) as [[s|response] e2] eqn:Er.
  2:{ eexists _, _, _, 1%nat. split; [reflexivity|]. cbn. rewrite Ha1. split_and!; [exact Hi1|lia|done]. }
  destruct (gives_up s).
  { eexists _, _, _, 1%nat. split; [reflexivity|]. cbn. rewrite Ha1. split_and!; [exact Hi1|lia|done]. }
  unfold mbind at 1, M_bind at 1. set (c2 := with_attempts _ c1).
  destruct (take_hint_calls s addrs (c2, e2)) as (addrs' & c3 & -> & Hi3 & Ha3 & Hl3); [cbn; by rewrite Ead|]. cbn [fst snd] in *.
  unfold mbind at 1, M_bind at 1, wait. cbn [fst snd]. destruct (pause e2) as [[err|] e3].
  { eexists _, _, _, 1%nat. split; [reflexivity|]. rewrite Ha3. cbn. rewrite Ha1. split_and!; [rewrite Hi3; exact Hi1|lia|done]. }
  assert (addresses c3 = addresses c) as Ead3 by (unfold identity in *; cbn in *; congruence).
  destruct (IH (S attempt) addrs' (FStatus s) c3 e3) as (r & c4 & e4 & n & E1 & Hi4 & Hn & Ha4); [cbn in Hl3; congruence|rewrite Ead3; lia|].
  exists r, c4, e4, (S n). rewrite E1, Hi4, Hi3, Ha4, Ha3. cbn [c2 with_attempts attempts]. rewrite Ha1, counted_S.
  split_and!; [done|exact Hi1|lia|done].
Qed.

Lemma retry_eq {R} (q : request R) c e :
  retry q (c, e) = retry_loop (S (length (addresses c)) * 20) q 0 (orderedAddresses c) FRequest (c, e).
Proof. reflexivity. Qed.

(** C28: A request ends, whatever the cluster, the clock and the context do: retry returns a
    result and never reads past the addresses; it makes at most 20 calls for each address
    and for the leader it was told of, and the identity and the request number of the
    client stay as they were. *)
Theorem retry_terminates {R} (q : request R) c e : exists r c' e' n, retry q (c, e) = (Ok r, (c', e')) /\
  identity c' = identity c /\ (n <= S (length (addresses c)) * 20)%nat /\ attempts c' = counted n (attempts c).
Proof. rewrite retry_eq. apply retry_loop_ends; [apply ordered_length|lia]. Qed.

End client.

(** ** A leader is found *)

Section leader.
Context {E : Type} `{!Outside E} {R : Type} (q : request R) (L : bytes) (calm : E -> Prop).

(** In a calm state the leader answers, and every other node names it or fails in a way that
    may pass; the context lasts and connections can be made. *)
Record led : Prop := {
  led_ctx e : calm e -> ctx_err e = None;
  led_dial a e : calm e -> (dial a e).1 = None /\ calm (dial a e).2;
  led_pause e : calm e -> (pause e).1 = None /\ calm (pause e).2;
  led_leader e : calm e -> (exists r, (rpc R L q e).1 = inr r) /\ calm (rpc R L q e).2;
  led_other a e : calm e -> a <> L -> calm (rpc R a q e).2 /\ exists s, (rpc R a q e).1 = inl s /\ gives_up s = false /\
    ((leaderHint s).1 = [] \/ (leaderHint s).1 = L)
}.

Hypothesis (Hled : led) (HL : L <> []).

Definition led_list (c : Client) : list bytes := L :: filter (fun a => a <> L) (addresses c).

Lemma ordered_led c : orderedAddresses (with_leader L c) = led_list c.
Proof.
  unfold orderedAddresses, led_list. cbn [leader with_leader addresses].
  destruct (Nat.eqb_spec (length L) 0) as [E0|E0]; [by apply nil_length_inv in E0|done].
Qed.

Lemma client_led a c e : calm e -> exists c' e', client a (c, e) = (Ok None, (c', e')) /\ calm e' /\ identity c' = identity c /\ attempts c' = attempts c.
Proof.
  intros He. unfold client. case_bool_decide as Hd; [by eexists _, _|]. destruct (led_dial Hled a e He) as [H1 H2]. cbn [fst snd].
  destruct (dial a e) as [[err|] e']; [done|]. by eexists _, _.
Qed.

Lemma loop_at_leader fuel attempt addrs last c e : calm e -> (attempt < length addrs * 20)%nat -> addrs !! (attempt mod length addrs)%nat = Some L ->
  exists r c' e', retry_loop (S fuel) q attempt addrs last (c, e) = (Ok (inr r), (c', e')) /\ leader c' = L /\ attempts c' = counted 1 (attempts c).
Proof.
  intros He Hlt Ha. cbn [retry_loop]. rewrite (proj2 (Nat.ltb_lt _ _) Hlt), Ha. cbn [negb]. unfold mbind at 1, M_bind at 1, gets. cbn [fst snd].
  rewrite (led_ctx Hled e He). unfold mbind at 1, M_bind at 1. destruct (client_led L c e He) as (c1 & e1 & -> & He1 & _ & Hat).
  unfold mbind at 1, M_bind at 1, call. cbn [fst snd]. destruct (led_leader Hled e1 He1) as [[r Hr] _].
  destruct (rpc R L q e1) as [answer e2]. cbn in Hr. subst answer. eexists _, _, _. split; [reflexivity|]. cbn. by rewrite Hat.
Qed.

Lemma loop_elsewhere fuel attempt addrs last c e a : calm e -> (attempt < length addrs * 20)%nat ->
  addrs !! (attempt mod length addrs)%nat = Some a -> a <> L ->
  exists addrs' last' c' e', retry_loop (S fuel) q attempt addrs last (c, e) = retry_loop fuel q (S attempt) addrs' last' (c', e') /\
    calm e' /\ addresses c' = addresses c /\ attempts c' = counted 1 (attempts c) /\ (addrs' = addrs \/ addrs' = led_list c).
Proof.
  intros He Hlt Ha Hne. cbn [retry_loop]. rewrite (proj2 (Nat.ltb_lt _ _) Hlt), Ha. cbn [negb]. unfold mbind at 1, M_bind at 1, gets at 1. cbn [fst snd].
  rewrite (led_ctx Hled e He). unfold mbind at 1, M_bind at 1. destruct (client_led a c e He) as (c1 & e1 & -> & He1 & Hi1 & Hat).
  unfold mbind at 1, M_bind at 1, call. cbn [fst snd]. destruct (led_other Hled a e1 He1 Hne) as (He2 & s & Hs & Hg & Hh).
  destruct (rpc R a q e1) as [answer e2]. cbn in Hs, He2. subst answer. rewrite Hg. unfold mbind at 1, M_bind at 1.
  assert (addresses c1 = addresses c) as Ead by (unfold identity in Hi1; congruence).
  set (c2 := with_attempts _ c1). assert (exists addrs' c3, take_hint s addrs (c2, e2) = (Ok addrs', (c3, e2)) /\ addresses c3 = addresses c /\
    attempts c3 = counted 1 (attempts c) /\ (addrs' = addrs \/ addrs' = led_list c)) as (addrs' & c3 & -> & H1 & H2 & H3).
  { unfold take_hint. cbv zeta. destruct Hh as [-> | ->]; cbn [length Nat.eqb].
    - eexists _, _. split; [reflexivity|]. cbn. rewrite Hat. auto.
    - destruct (Nat.eqb_spec (length L) 0) as [E0|E0]; [by apply nil_length_inv in E0|]. eexists _, _. split; [reflexivity|].
      cbn [fst]. rewrite ordered_led. unfold led_list. cbn. rewrite Hat, Ead. auto. }
  unfold mbind at 1, M_bind at 1, wait. cbn [fst snd]. destruct (led_pause Hled e2 He2) as [Hp1 Hp2]. destruct (pause e2) as [[err|] e3]; [done|].
  eexists _, _, _, _. split; [reflexivity|]. auto.
Qed.

Lemma led_list_same c c' : addresses c' = addresses c -> led_list c' = led_list c.
Proof. unfold led_list. by intros ->. Qed.

(** With the leader at the head, the attempts reach it. *)
Lemma hint_followed d : forall fuel attempt last c e, calm e -> (attempt + d = length (led_list c))%nat -> (0 < attempt)%nat -> (d < fuel)%nat ->
  exists r c' e', retry_loop fuel q attempt (led_list c) last (c, e) = (Ok (inr r), (c', e')) /\ leader c' = L /\ attempts c' = counted (S d) (attempts c).
Proof.
  induction d as [|d IH]; intros fuel attempt last c e He Hd H0 Hf; (destruct fuel as [|fuel]; [lia|]).
  - apply loop_at_leader; [done|unfold led_list in *; cbn [length] in *; lia|]. replace attempt with (length (led_list c)) by lia.
    by rewrite Nat.Div0.mod_same.
  - destruct (lookup_lt_is_Some_2 (led_list c) attempt ltac:(lia)) as [x Hx].
    destruct (loop_elsewhere fuel attempt (led_list c) last c e x) as (addrs' & last' & c1 & e1 & -> & He1 & Ead & Hat & Hl); [done|lia| | |].
    + rewrite Nat.mod_small by lia. done.
    + unfold led_list in Hx. destruct attempt as [|i]; [lia|]. cbn in Hx. apply list_elem_of_lookup_2 in Hx. by apply list_elem_of_filter in Hx as [? _].
    + assert (addrs' = led_list c1) as -> by (rewrite (led_list_same _ _ Ead); by destruct Hl).
      destruct (IH fuel (S attempt) last' c1 e1 He1) as (r & c' & e' & E1 & E2 & E3); [rewrite (led_list_same _ _ Ead); lia|lia|lia|].
      exists r, c', e'. rewrite E1, E3, Hat. split_and!; try done. apply counted_S.
Qed.

(** The nodes asked before the leader are not the leader. *)
Lemma asked_before k c : (forall i a, (i < k)%nat -> orderedAddresses c !! i = Some a -> a <> L) -> (k <= length (orderedAddresses c))%nat ->
  (k <= length (led_list c))%nat.
Proof.
  intros Hk Hl. assert (length (filter (fun a => a <> L) (take k (orderedAddresses c))) = k) as <-.
  { rewrite filter_all; [rewrite length_take; lia|]. intros a [i Hi]%list_elem_of_lookup.
    apply lookup_take_Some in Hi as [Hi ?]. eauto. }
  assert (forall l, (length (filter (fun a => a <> L) (take k l)) <= length (filter (fun a => a <> L) l))%nat) as H1.
  { intros l. rewrite <- (take_drop k l) at 2. rewrite filter_app, length_app. lia. }
  etrans; [apply H1|]. unfold orderedAddresses, led_list. rewrite filter_app, length_app.
  assert (length (filter (fun a => a <> L) (filter (fun a => a <> leader c) (addresses c))) <= length (filter (fun a => a <> L) (addresses c)))%nat.
  { rewrite list_filter_filter. apply sublist_length. clear. induction (addresses c) as [|x l IH]; [constructor|].
    rewrite !filter_cons. repeat case_decide; try tauto; by constructor. }
  cbn [length]. destruct (length (leader c) =? 0)%nat; [cbn; lia|]. pose proof (length_filter (fun a => a <> L) [leader c]) as H3. cbn [length] in H3. lia.
Qed.

Lemma first_round n : forall c0 p k fuel last c e, (k + n = p)%nat -> orderedAddresses c0 !! p = Some L ->
  (forall i a, (i < p)%nat -> orderedAddresses c0 !! i = Some a -> a <> L) -> addresses c = addresses c0 -> calm e ->
  (S (S (length (addresses c0))) <= k + fuel)%nat ->
  exists r c' e' m, retry_loop fuel q k (orderedAddresses c0) last (c, e) = (Ok (inr r), (c', e')) /\ leader c' = L /\
    (k + m <= S (S (length (addresses c0))))%nat /\ attempts c' = counted m (attempts c).
Proof.
  induction n as [|n IH]; intros c0 p k fuel last c e Hp HLp Hbefore Ead He Hf; pose proof (lookup_lt_Some _ _ _ HLp) as Hlt;
    pose proof (ordered_length c0) as Hol; (destruct fuel as [|fuel]; [lia|]).
  - replace p with k in * by lia. destruct (loop_at_leader fuel k (orderedAddresses c0) last c e) as (r & c' & e' & E1 & E2 & E3);
      [done|lia|by rewrite Nat.mod_small by lia|]. exists r, c', e', 1%nat. split_and!; (done || lia).
  - destruct (lookup_lt_is_Some_2 (orderedAddresses c0) k ltac:(lia)) as [x Hx].
    destruct (loop_elsewhere fuel k (orderedAddresses c0) last c e x) as (addrs' & last' & c1 & e1 & -> & He1 & Ead1 & Hat & Hl);
      [done|lia|by rewrite Nat.mod_small by lia|apply (Hbefore k); [lia|done]|]. destruct Hl as [-> | ->].
    + destruct (IH c0 p (S k) fuel last' c1 e1) as (r & c' & e' & m & E1 & E2 & E3 & E4); [lia|done|done|congruence|done|lia|].
      exists r, c', e', (S m). rewrite E1, E4, Hat. split_and!; try done; [lia|]. apply counted_S.
    + assert (led_list c = led_list c0) as E0 by (by apply led_list_same).
      assert (S k <= length (led_list c0))%nat as Hk by (apply asked_before; [intros i a Hi; apply Hbefore; lia|lia]).
      assert (length (led_list c0) <= S (length (addresses c0)))%nat as Hll.
      { unfold led_list. cbn [length]. pose proof (length_filter (fun a => a <> L) (addresses c0)). lia. }
      assert (led_list c1 = led_list c0) as E1 by (apply led_list_same; congruence). rewrite E0, <- E1.
      destruct (hint_followed (length (led_list c0) - S k) fuel (S k) last' c1 e1 He1) as (r & c' & e' & H1 & H2 & H3); [rewrite E1; lia|lia|lia|].
      exists r, c', e', (S (S (length (led_list c0) - S k))). rewrite H1, H3, Hat. split_and!; try done; [lia|]. apply counted_S.
Qed.

(** C27: A client finds the leader. Suppose the leader, known by its address or by the hint
    of an earlier answer, answers the request, every other node names it or fails in a way
    that may pass, and the context lasts. Then retry succeeds, after at most two calls more
    than the client has addresses, and remembers the leader. *)
Theorem retry_finds_leader c e : calm e -> L ∈ orderedAddresses c ->
  exists r c' e' n, retry q (c, e) = (Ok (inr r), (c', e')) /\ leader c' = L /\
    (n <= length (addresses c) + 2)%nat /\ attempts c' = counted n (attempts c).
Proof.
  intros He HLin. apply list_elem_of_lookup in HLin as [p0 Hp0].
  assert (exists p, orderedAddresses c !! p = Some L /\ forall i a, (i < p)%nat -> orderedAddresses c !! i = Some a -> a <> L) as (p & Hp & Hb).
  { induction (lt_wf p0) as [p _ IH]. destruct (decide (L ∈ take p (orderedAddresses c))) as [Hin|Hout].
    - apply list_elem_of_lookup in Hin as [i Hi]. apply lookup_take_Some in Hi as [Hi Hlt]. by apply (IH i).
    - exists p. split; [done|]. intros i a Hi Ha ->. apply Hout. apply list_elem_of_lookup. exists i. by apply lookup_take_Some. }
  rewrite retry_eq. destruct (first_round p c p 0 (S (length (addresses c)) * 20) FRequest c e) as (r & c' & e' & n & H1 & H2 & H3 & H4);
    [lia|done|done|done|done|lia|]. exists r, c', e', n. split_and!; (done || lia).
Qed.
End leader.

(** ** What takes effect *)

Section effects.
Import Kvstate.

(** The commands of a log that change the map, from a state on. *)
Fixpoint effective (s : Kv) (l : list Command) : list Command :=
  match l with
  | [] => []
  | c :: l' => if RequestSeq c <=? sessions s (ClientId c) then effective s l' else c :: effective (kv_apply s c) l'
  end.

Lemma kv_apply_stale s c : (RequestSeq c <=? sessions s (ClientId c)) = true -> kv_apply s c = s.
Proof. unfold kv_apply. by intros ->. Qed.

Lemma effective_app s l1 l2 : effective s (l1 ++ l2) = effective s l1 ++ effective (foldl kv_apply s l1) l2.
Proof.
  revert s. induction l1 as [|c l1 IH]; intros s; [done|]. cbn [app effective foldl].
  destruct (_ <=? _) eqn:E; [rewrite (kv_apply_stale s c E); apply IH|]. cbn [app]. by rewrite IH.
Qed.

Lemma effective_state s l : foldl kv_apply s (effective s l) = foldl kv_apply s l.
Proof.
  revert s. induction l as [|c l IH]; intros s; [done|]. cbn [effective foldl].
  destruct (_ <=? _) eqn:E; [|cbn [foldl]; by rewrite IH]. by rewrite (kv_apply_stale s c E), IH.
Qed.

Lemma effective_sub s l c : c ∈ effective s l -> c ∈ l.
Proof.
  revert s. induction l as [|x l IH]; intros s; [done|]. cbn [effective]. destruct (_ <=? _).
  - intros H. right. eauto.
  - intros [->|H]%elem_of_cons; [by left|right; eauto].
Qed.

Lemma session_apply s c cl : sessions (kv_apply s c) cl = if decide (cl = ClientId c) then Z.max (sessions s cl) (RequestSeq c) else sessions s cl.
Proof.
  unfold kv_apply. destruct (Z.leb_spec (RequestSeq c) (sessions s (ClientId c))); cbn; case_decide; subst; lia.
Qed.

(** Among the commands of one client, request numbers grow. *)
Definition before (c c' : Command) : Prop := RequestSeq c < RequestSeq c'.

Lemma effective_sorted me l : forall s, StronglySorted before (filter (fun c => ClientId c = me) (effective s l)) /\
  Forall (fun c => sessions s me < RequestSeq c) (filter (fun c => ClientId c = me) (effective s l)).
Proof.
  induction l as [|c l IH]; intros s; [by split; constructor|]. cbn [effective].
  destruct (Z.leb_spec (RequestSeq c) (sessions s (ClientId c))) as [?|Hlt]; [apply IH|]. destruct (IH (kv_apply s c)) as [H1 H2].
  assert (forall x, sessions (kv_apply s c) me < x -> sessions s me < x) as Hm by (intros x; rewrite session_apply; case_decide; lia).
  rewrite filter_cons. destruct (decide (ClientId c = me)) as [Hc|Hc].
  - split; constructor; try done.
    + eapply Forall_impl; [exact H2|]. intros c'. cbv beta. rewrite session_apply, decide_True by done. unfold before. lia.
    + by rewrite <- Hc.
    + eapply Forall_impl; [exact H2|]. cbv beta. auto.
  - split; [done|]. eapply Forall_impl; [exact H2|]. cbv beta. auto.
Qed.

(** The latest command of a client takes effect. *)
Lemma effective_latest s l c : c ∈ l -> sessions s (ClientId c) < RequestSeq c ->
  (forall c', c' ∈ l -> ClientId c' = ClientId c -> RequestSeq c' < RequestSeq c \/ c' = c) -> c ∈ effective s l.
Proof.
  revert s. induction l as [|x l IH]; intros s Hc Hs Hl; [by apply elem_of_nil in Hc|]. cbn [effective].
  destruct (decide (x = c)) as [->|Hne]; [rewrite (proj2 (Z.leb_gt _ _)) by done; by left|].
  assert (c ∈ l) as Hc' by (by apply elem_of_cons in Hc as [?|?]; [congruence|]).
  assert (forall c', c' ∈ l -> ClientId c' = ClientId c -> RequestSeq c' < RequestSeq c \/ c' = c) as Hl' by (intros; apply Hl; [by right|done]).
  destruct (_ <=? _); [by apply IH|]. right. apply IH; try done. rewrite session_apply. case_decide as Ex; [|done].
  destruct (Hl x ltac:(by left) (eq_sym Ex)); [lia|congruence].
Qed.

(** Sorted lists: a subset is a subsequence. *)
Lemma sorted_sublist (l2 : list Command) : forall l1, StronglySorted before l1 -> StronglySorted before l2 ->
  (forall c, c ∈ l1 -> c ∈ l2) -> l1 `sublist_of` l2.
Proof.
  induction l2 as [|y l2 IH]; intros l1 H1 H2 Hsub.
  { destruct l1 as [|x l1]; [constructor|]. specialize (Hsub x ltac:(by left)). by apply elem_of_nil in Hsub. }
  apply StronglySorted_inv in H2 as [H2 Hy]. rewrite Forall_forall in Hy. destruct l1 as [|x l1]; [apply sublist_nil_l|].
  apply StronglySorted_inv in H1 as [H1 Hx]. rewrite Forall_forall in Hx. pose proof (Hsub x ltac:(by left)) as Hxin.
  apply elem_of_cons in Hxin as [->|Hxin].
  - apply sublist_skip, IH; try done. intros c Hc. specialize (Hx c Hc). specialize (Hsub c ltac:(by right)).
    apply elem_of_cons in Hsub as [->|]; [unfold before in Hx; lia|done].
  - apply sublist_cons, IH; [by constructor; [|by apply Forall_forall]|done|]. intros c Hc.
    specialize (Hsub c Hc). apply elem_of_cons in Hsub as [->|]; [|done]. specialize (Hy x Hxin).
    apply elem_of_cons in Hc as [->|Hc]; [unfold before in Hy; lia|]. specialize (Hx y Hc). unfold before in *. lia.
Qed.
End effects.

(** ** A client of a cluster *)

(** What a client relies on: the cluster keeps a log of commands that only grows, and the
    commands of this client in it are ones it sent, any number of times and at any time
    later. An answer says nothing about the log: a deposed leader answers a write without
    an error when another command was committed at its index
    (see [Loop.waiter_answered_by_index]). *)
Class ClusterLaws (E : Type) `{!Outside E} (me : bytes) := {
  history : E -> list Kvstate.Command;
  issued : E -> list Kvstate.Command;
  honest : E -> Prop;
  history_issued e c : honest e -> c ∈ history e -> Kvstate.ClientId c = me -> c ∈ issued e;
  rpc_history R a (q : request R) e : honest e -> let '(r, e') := rpc R a q e in
    honest e' /\ history e `prefix_of` history e' /\ issued e' = issued e ++ option_list (command_of q);
  dial_history a e : honest e -> honest (dial a e).2 /\ history e `prefix_of` history (dial a e).2 /\ issued (dial a e).2 = issued e;
  pause_history e : honest e -> honest (pause e).2 /\ history e `prefix_of` history (pause e).2 /\ issued (pause e).2 = issued e
}.

(** What an application does with a client. *)
Inductive op := OPut (key value : bytes) | ODelete (key : bytes) | OGet (key : bytes).

Definition succeeded {R} (r : failure + R) : bool := match r with inr _ => true | inl _ => false end.

Section session.
Context {E : Type} `{!Outside E}.

Definition perform (o : op) : M (Client * E) bool :=
  match o with
  | OPut key value => r ← Put key value; mret (succeeded r)
  | ODelete key => r ← Delete key; mret (succeeded r)
  | OGet key => r ← Get key; mret (succeeded r)
  end.

(** One operation after the other, and whether each succeeded. *)
Fixpoint session (ops : list op) : M (Client * E) (list bool) :=
  match ops with
  | [] => mret []
  | o :: ops' => b ← perform o; bs ← session ops'; mret (b :: bs)
  end.
End session.

(** The command of an operation, when it gets the request number [n]. *)
Definition write_of (id : bytes) (n : Z) (o : op) : option Kvstate.Command :=
  match o with
  | OPut key value => Some (Kvstate.mkCommand Kvstate.OPERATION_PUT key value id n)
  | ODelete key => Some (Kvstate.mkCommand Kvstate.OPERATION_DELETE key [] id n)
  | OGet _ => None
  end.

(** The commands of the operations. *)
Fixpoint planned (id : bytes) (n : Z) (ops : list op) : list Kvstate.Command :=
  match ops with
  | [] => []
  | o :: ops' => match write_of id n o with Some c => c :: planned id (n + 1) ops' | None => planned id n ops' end
  end.

Section once.
Context {E : Type} `{!Outside E} (me : bytes) `{!ClusterLaws E me}.
Import Kvstate.

(** Time passed, in which at most the command [o] was sent. *)
Definition passes (o : option Command) (e e' : E) : Prop :=
  honest e' /\ history e `prefix_of` history e' /\ forall c, c ∈ issued e' -> c ∈ issued e \/ o = Some c.

Lemma passes_trans o e1 e2 e3 : passes o e1 e2 -> passes o e2 e3 -> passes o e1 e3.
Proof. intros (H1 & H2 & H3) (H4 & H5 & H6). split_and!; [done|by etrans|]. intros c Hc. destruct (H6 c Hc); auto. Qed.

Lemma passes_quiet o e e' : honest e' /\ history e `prefix_of` history e' /\ issued e' = issued e -> passes o e e'.
Proof. intros (? & ? & Hi). unfold passes. rewrite Hi. auto. Qed.

Lemma client_passes o a c e : honest e -> passes o e (client a (c, e)).2.2.
Proof.
  intros He. unfold client. case_bool_decide as Hd; [by apply passes_quiet|]. pose proof (dial_history a e He) as H. cbn [fst snd].
  destruct (dial a e) as [[err|] e']; by apply passes_quiet.
Qed.

Lemma retry_loop_passes {R} (q : request R) fuel : forall attempt addrs last c e, honest e ->
  passes (command_of q) e (retry_loop fuel q attempt addrs last (c, e)).2.2.
Proof.
  induction fuel as [|fuel IH]; intros attempt addrs last c e He; cbn [retry_loop]; (destruct (negb _); [by apply passes_quiet|]); [by apply passes_quiet|].
  unfold mbind at 1, M_bind at 1, gets at 1. cbn [fst snd].
  destruct (ctx_err e); [by apply passes_quiet|]. destruct (addrs !! _) as [address|]; [|by apply passes_quiet].
  unfold mbind at 1, M_bind at 1. pose proof (client_passes (command_of q) address c e He) as H1.
  destruct (client_calls address (c, e)) as (dialed & c1 & e1 & E1 & _). rewrite E1 in *. cbn [fst snd] in *.
  destruct dialed as [err|]; [eapply passes_trans; [exact H1|]; apply IH, H1|].
  unfold mbind at 1, M_bind at 1, call. cbn [fst snd]. pose proof (rpc_history R address q e1 (proj1 H1)) as H2.
  destruct (rpc R address q e1) as [answer e2]. destruct H2 as (H2 & H3 & H4).
  assert (passes (command_of q) e e2) as H6.
  { eapply passes_trans; [exact H1|]. split_and!; [done|done|]. intros cmd. rewrite H4. intros [?|Hc]%elem_of_app; [by left|right].
    destruct (command_of q); cbn in Hc; [|by apply elem_of_nil in Hc]. by apply list_elem_of_singleton in Hc as ->. }
  destruct answer as [s|response]; [|exact H6]. destruct (gives_up s); [done|]. unfold mbind at 1, M_bind at 1.
  assert (exists addrs' c3, take_hint s addrs (with_attempts (u64 (attempts c1 + 1)) c1, e2) = (Ok addrs', (c3, e2))) as (addrs' & c3 & ->).
  { unfold take_hint. cbv zeta. destruct (_ =? 0)%nat; by eexists _, _. }
  unfold mbind at 1, M_bind at 1, wait. cbn [fst snd]. pose proof (pause_history e2 H2) as H7.
  destruct (pause e2) as [[err|] e3]; cbn [fst snd] in *; (eapply passes_trans; [exact H6|]); [by apply passes_quiet|].
  eapply passes_trans; [by apply passes_quiet|]. apply IH, H7.
Qed.

Lemma retry_passes {R} (q : request R) c e : honest e -> exists r c' e', retry q (c, e) = (Ok r, (c', e')) /\ identity c' = identity c /\
  passes (command_of q) e e'.
Proof.
  intros He. destruct (retry_terminates q c e) as (r & c' & e' & n & Er & Hi & _). exists r, c', e'. split_and!; [exact Er|exact Hi|]. rewrite retry_eq in Er.
  pose proof (retry_loop_passes q (S (length (addresses c)) * 20) 0 (orderedAddresses c) FRequest c e He) as H. by rewrite Er in H.
Qed.

#[local] Opaque retry.

Lemma perform_write key value c e : perform (OPut key value) (c, e) =
  (r ← retry (CallPut (mkPut key value (clientID c) (u64 (sequence c + 1)))); mret (succeeded r)) (with_sequence (u64 (sequence c + 1)) c, e).
Proof. reflexivity. Qed.

Lemma perform_delete key c e : perform (ODelete key) (c, e) =
  (r ← retry (CallDelete (mkDelete key (clientID c) (u64 (sequence c + 1)))); mret (succeeded r)) (with_sequence (u64 (sequence c + 1)) c, e).
Proof. reflexivity. Qed.

(** The request number an operation uses up. *)
Definition numbers (o : op) : Z := match o with OGet _ => 0 | _ => 1 end.

Lemma perform_passes o c e : honest e -> clientID c = me -> 0 <= sequence c -> sequence c + 1 < 2 ^ 64 ->
  exists b c' e', perform o (c, e) = (Ok b, (c', e')) /\ clientID c' = me /\ sequence c' = sequence c + numbers o /\
    passes (write_of me (sequence c + 1) o) e e'.
Proof.
  intros He Hid H0 H1. assert (u64 (sequence c + 1) = sequence c + 1) as Hu by (apply u64_small; lia).
  assert (forall R (q : request R) c1, clientID c1 = me -> exists b c' e', (r ← retry q; mret (succeeded r)) (c1, e) = (Ok b, (c', e')) /\
    clientID c' = me /\ sequence c' = sequence c1 /\ passes (command_of q) e e') as H.
  { intros R q c1 Hc1. destruct (retry_passes q c1 e He) as (r & c' & e' & Er & Hi & Hp). exists (succeeded r), c', e'.
    unfold mbind, M_bind. rewrite Er. unfold identity in Hi. injection Hi as _ Hi1 Hi2. split_and!; (done || congruence). }
  destruct o as [key value|key|key].
  - rewrite perform_write, Hu, Hid.
    destruct (H _ (CallPut (mkPut key value me (sequence c + 1))) (with_sequence (sequence c + 1) c) Hid) as (b & c' & e' & H2). exists b, c', e'. exact H2.
  - rewrite perform_delete, Hu, Hid.
    destruct (H _ (CallDelete (mkDelete key me (sequence c + 1))) (with_sequence (sequence c + 1) c) Hid) as (b & c' & e' & H2). exists b, c', e'. exact H2.
  - destruct (H _ (CallGet key) c Hid) as (b & c' & e' & H2). exists b, c', e'. cbn [numbers]. rewrite Z.add_0_r. exact H2.
Qed.

Context (s0 : Kv).

(** The commands of the client that took effect. *)
Definition took (e : E) : list Command := filter (fun c => ClientId c = me) (effective s0 (history e)).

Lemma took_mono o e e' c : passes o e e' -> c ∈ took e -> c ∈ took e'.
Proof.
  intros (_ & [l Hl] & _). unfold took. rewrite Hl, effective_app, filter_app. intros Hc. apply elem_of_app. by left.
Qed.

(** The writes that are in the log when their operation returns. *)
Definition in_log (o : option Command) (e : E) : list Command := filter (fun c => c ∈ history e) (option_list o).

Fixpoint landed (ops : list op) (st : Client * E) : list Command :=
  match ops with
  | [] => []
  | o :: ops' => let st' := (perform o st).2 in in_log (write_of me (sequence st.1 + 1) o) st'.2 ++ landed ops' st'
  end.

(** What holds when the client has planned [P] and [A] got into the log in time. *)
Record known (P A : list Command) (n : Z) (e : E) : Prop := {
  kn_honest : honest e;
  kn_planned c : c ∈ P -> ClientId c = me /\ RequestSeq c < n;
  kn_issued c : c ∈ issued e -> c ∈ P;
  kn_took c : c ∈ A -> c ∈ took e
}.

Lemma known_step P A n o e e' : sessions s0 me < n -> known P A n e -> passes (write_of me n o) e e' ->
  known (P ++ option_list (write_of me n o)) (A ++ in_log (write_of me n o) e') (n + numbers o) e'.
Proof.
  intros Hs [H1 H2 H3 H4] Hp. pose proof Hp as (Hp1 & _ & Hp3).
  assert (forall c, write_of me n o = Some c -> ClientId c = me /\ RequestSeq c = n /\ numbers o = 1) as Hw
    by (intros c; destruct o; cbn; [intros [= <-]; done..|done]).
  assert (0 <= numbers o) as Hn by (by destruct o).
  assert (forall c, c ∈ P ++ option_list (write_of me n o) -> ClientId c = me /\ (RequestSeq c < n /\ c ∈ P \/ write_of me n o = Some c)) as HP.
  { intros c [Hc|Hc]%elem_of_app; [destruct (H2 c Hc); auto|]. destruct (write_of me n o) as [x|] eqn:Ex; cbn in Hc; [|by apply elem_of_nil in Hc].
    apply list_elem_of_singleton in Hc as ->. destruct (Hw x eq_refl). auto. }
  assert (forall c, c ∈ issued e' -> c ∈ P ++ option_list (write_of me n o)) as Hi.
  { intros c Hc. apply elem_of_app. destruct (Hp3 c Hc) as [?| ->]; [left; auto|right; by left]. }
  constructor; [done| |done|].
  - intros c Hc. destruct (HP c Hc) as [? [[? _]|Hx]]; [split; [done|lia]|]. destruct (Hw c Hx) as (? & ? & ?). split; [done|lia].
  - intros c [Hc|Hc]%elem_of_app; [eapply took_mono; eauto|]. apply list_elem_of_filter in Hc as [Hh Hc].
    destruct (write_of me n o) as [x|] eqn:Ex; cbn in Hc; [|by apply elem_of_nil in Hc]. apply list_elem_of_singleton in Hc as ->.
    destruct (Hw x eq_refl) as (Hcx & Hsx & _). apply list_elem_of_filter. split; [done|]. apply effective_latest; [done|by rewrite Hcx, Hsx|].
    intros c' Hc' Hcl. rewrite Hcx in Hcl. destruct (HP c' (Hi c' (history_issued e' c' Hp1 Hc' Hcl))) as [_ [[? _]|Hx]]; [lia|right; congruence].
Qed.

Lemma session_known ops : forall P A c e, clientID c = me -> 0 <= sequence c -> sessions s0 me <= 0 -> sequence c + Z.of_nat (length ops) < 2 ^ 64 ->
  known P A (sequence c + 1) e -> exists bs c' e' n, session ops (c, e) = (Ok bs, (c', e')) /\
    known (P ++ planned me (sequence c + 1) ops) (A ++ landed ops (c, e)) n e'.
Proof.
  induction ops as [|o ops IH]; intros P A c e Hid H0 Hs Hl Hk; cbn [session planned landed].
  { exists [], c, e, (sequence c + 1). by rewrite !app_nil_r. }
  cbn [length] in Hl. destruct (perform_passes o c e (kn_honest _ _ _ _ Hk) Hid H0 ltac:(lia)) as (b & c1 & e1 & E1 & Hid1 & Hs1 & Hp1).
  pose proof (known_step P A (sequence c + 1) o e e1 ltac:(lia) Hk Hp1) as Hk1. assert (0 <= numbers o <= 1) as Hn by (by destruct o).
  replace (sequence c + 1 + numbers o) with (sequence c1 + 1) in Hk1 by lia.
  destruct (IH _ _ c1 e1 Hid1 ltac:(lia) Hs ltac:(lia) Hk1) as (bs & c' & e' & n & E2 & Hk2). exists (b :: bs), c', e', n. split.
  { unfold mbind, M_bind. by rewrite E1, E2. }
  rewrite <- !app_assoc in Hk2. rewrite Hs1 in Hk2. rewrite E1. cbn [fst snd].
  destruct o; cbn [write_of numbers option_list] in *; [exact Hk2..|]. by rewrite Z.add_0_r in Hk2.
Qed.

Lemma planned_spec id ops : forall n, StronglySorted before (planned id n ops) /\ Forall (fun c => n <= RequestSeq c) (planned id n ops).
Proof.
  induction ops as [|o ops IH]; intros n; [by split; constructor|]. cbn [planned].
  destruct (write_of id n o) as [c|] eqn:Ec; [|apply IH]. assert (RequestSeq c = n) as Hc by (destruct o; by inversion Ec).
  destruct (IH (n + 1)) as [H1 H2]. split; constructor; try done; [|lia|]; (eapply Forall_impl; [exact H2|]); cbv beta; unfold before; intros; lia.
Qed.

Lemma landed_planned ops : forall c e, clientID c = me -> 0 <= sequence c -> sequence c + Z.of_nat (length ops) < 2 ^ 64 -> honest e ->
  landed ops (c, e) `sublist_of` planned me (sequence c + 1) ops.
Proof.
  induction ops as [|o ops IH]; intros c e Hid H0 Hl He; cbn [landed planned length] in *; [constructor|].
  destruct (perform_passes o c e He Hid H0 ltac:(lia)) as (b & c1 & e1 & -> & Hid1 & Hs1 & Hp1). cbn [fst snd].
  assert (0 <= numbers o <= 1) as Hn by (by destruct o). specialize (IH c1 e1 Hid1 ltac:(lia) ltac:(lia) (proj1 Hp1)). rewrite Hs1 in IH.
  assert (forall x, in_log (Some x) e1 = [x] \/ in_log (Some x) e1 = []) as Hx.
  { intros x. unfold in_log. change (option_list (Some x)) with [x]. rewrite filter_cons, filter_nil. case_decide; auto. }
  destruct o as [key value|key|key]; cbn [write_of numbers] in *; [..|by rewrite Z.add_0_r in IH];
    match goal with |- in_log (Some ?x) _ ++ _ `sublist_of` _ => destruct (Hx x) as [-> | ->]; cbn [app] end;
    (by apply sublist_skip) || (by apply sublist_cons).
Qed.

Lemma sorted_sublist_of (l1 l2 : list Command) : l1 `sublist_of` l2 -> StronglySorted before l2 -> StronglySorted before l1.
Proof.
  induction 1 as [|x l1 l2 Hs IH|x l1 l2 Hs IH]; intros H2; [done|..]; apply StronglySorted_inv in H2 as [H2 Hx]; [|auto].
  constructor; [auto|]. rewrite Forall_forall in *. intros c Hc. apply Hx. by eapply elem_of_sublist.
Qed.

(** C22: Every write of a client takes effect at most once, and exactly once if it is in the
    log when its operation returns. An application runs any operations on a new client, one
    after the other, against a cluster that may lose, repeat and delay its requests and give
    them any answers. Then the commands of the client that changed the replicated map are a
    subsequence of its writes, in the order of the operations, and contain every write that
    was in the log of the cluster when its Put or Delete returned; the map is the one these
    and the other clients' effective commands give. A write that was reported as
    successful without being in the log is not promised any effect. *)
Theorem client_writes_at_most_once ops c e : clientID c = me -> sequence c = 0 -> Z.of_nat (length ops) < 2 ^ 64 ->
  honest e -> issued e = [] -> sessions s0 me <= 0 ->
  exists bs c' e', session ops (c, e) = (Ok bs, (c', e')) /\
    landed ops (c, e) `sublist_of` took e' /\ took e' `sublist_of` planned me 1 ops /\
    foldl kv_apply s0 (history e') = foldl kv_apply s0 (effective s0 (history e')).
Proof.
  intros Hid Hseq Hl He Hi Hs. pose proof (landed_planned ops c e Hid ltac:(lia) ltac:(lia) He) as Hap.
  destruct (session_known ops [] [] c e Hid ltac:(lia) Hs ltac:(lia)) as (bs & c' & e' & n & E1 & [H1 H2 H3 H4]).
  { constructor; [done|by intros ? ?%elem_of_nil|rewrite Hi; by intros ? ?%elem_of_nil|by intros ? ?%elem_of_nil]. }
  rewrite Hseq in *. cbn [app] in *. change (0 + 1) with 1 in *. exists bs, c', e'.
  destruct (planned_spec me ops 1) as [Hps _]. destruct (effective_sorted me (history e') s0) as [Hts _]. split_and!; [done|..].
  - apply sorted_sublist; [by eapply sorted_sublist_of|done|done].
  - apply sorted_sublist; [done|done|]. intros x [Hx1 Hx2]%list_elem_of_filter. apply H3, history_issued; [done| |done]. by eapply effective_sub.
  - by rewrite effective_state.
Qed.
End once.

(** ** A cluster in memory *)

(** How a call is answered: carried out, carried out with the answer lost, or redirected. *)
Inductive reply := Answer | Lost | Redirect (hint : bytes).

Record Net := mkNet {
  n_log : list Kvstate.Command;
  n_sent : list Kvstate.Command;
  n_visited : list bytes;
  n_reply : nat -> bytes -> reply        (** by the number of the call and the address *)
}.

Definition net_response {R} (q : request R) : R :=
  match q with
  | CallPut _ => mkWritten 1 1
  | CallDelete _ => mkWritten 1 1
  | CallGet _ => mkGot false [] 0
  | CallStatus => mkNodeStatus 0 [] 0 0 0 0 [] 0 0 [] []
  | CallChange _ => mkChanged 1 1
  end.

Definition net_call {R} (a : bytes) (q : request R) (e : Net) : (Rpc.Status + R) * Net :=
  let w := option_list (command_of q) in
  let after log := mkNet log (n_sent e ++ w) (n_visited e ++ [a]) (n_reply e) in
  match n_reply e (length (n_visited e)) a with
  | Answer => (inr (net_response q), after (n_log e ++ w))
  | Lost => (inl (mkStatus Unavailable "" []), after (n_log e ++ w))
  | Redirect hint => (inl (mkStatus FailedPrecondition "node is not the Raft leader" [NotLeader 3 hint]), after (n_log e))
  end.

#[global] Instance net_outside : Outside Net := {|
  ctx_err _ := None; dial _ e := (None, e); hang_up _ e := (None, e); rpc R := @net_call R; pause e := (None, e)
|}.

#[global] Program Instance net_laws me : ClusterLaws Net me := {|
  history := n_log; issued := n_sent; honest e := forall c, c ∈ n_log e -> c ∈ n_sent e
|}.
Next Obligation. auto. Qed.
Next Obligation.
  intros me R a q e He. unfold rpc, net_outside, net_call. destruct (n_reply _ _ _); cbn; split_and!; try done; try (by apply prefix_app_r);
    set_solver.
Qed.
Next Obligation. done. Qed.
Next Obligation. done. Qed.

Definition node_a : bytes := str "a".
Definition node_b : bytes := str "b".
Definition node_c : bytes := str "c".
Definition three : Client := mkClient [node_a; node_b; node_c] (str "me") 0 0 ∅ [].

(** The first answer is lost; the write is in the log twice. *)
Definition flaky : Net := mkNet [] [] [] (fun n _ => match n with O => Lost | _ => Answer end).
Definition two_writes : list op := [OPut (str "k") (str "1"); OGet (str "k"); OPut (str "k") (str "2")].

Definition no_state : Kvstate.Kv := Kvstate.mkKv (fun _ => None) (fun _ => 0).

Lemma client_writes_at_most_once_witness : exists bs c' e', session two_writes (three, flaky) = (Ok bs, (c', e')) /\
  landed (str "me") two_writes (three, flaky) `sublist_of` took (str "me") no_state e' /\
  took (str "me") no_state e' `sublist_of` planned (str "me") 1 two_writes /\
  length (n_log e') = 3%nat /\ landed (str "me") two_writes (three, flaky) = planned (str "me") 1 two_writes.
Proof.
  destruct (client_writes_at_most_once (str "me") no_state two_writes three flaky eq_refl eq_refl ltac:(cbn; lia)
    ltac:(by intros c ?%elem_of_nil) eq_refl ltac:(done)) as (bs & c' & e' & E1 & H1 & H2 & _).
  assert (n_log (session two_writes (three, flaky)).2.2 = n_log e') as El by (by rewrite E1).
  exists bs, c', e'. split_and!; [exact E1|exact H1|exact H2|..]; [rewrite <- El|]; vm_compute; reflexivity.
Defined.

(** The third node leads, and the others say so. *)
Definition c_leads : nat -> bytes -> reply := fun _ a => if decide (a = node_c) then Answer else Redirect node_c.
Definition settled : Net := mkNet [] [] [] c_leads.

Lemma c_led {R} (q : request R) : led q node_c (fun e => n_reply e = c_leads).
Proof.
  constructor; try done; unfold rpc, net_outside, net_call; intros.
  - rewrite H. unfold c_leads. rewrite decide_True by done. split; [by eexists|done].
  - rewrite H. unfold c_leads. rewrite decide_False by done. split; [done|]. eexists. split; [done|]. split; [done|by right].
Qed.

Lemma retry_finds_leader_witness : exists r c' e' n, retry (CallGet (str "k")) (three, settled) = (Ok (inr r), (c', e')) /\
  leader c' = node_c /\ (n <= 5)%nat /\ attempts c' = counted n 0.
Proof.
  apply (retry_finds_leader (CallGet (str "k")) node_c (fun e => n_reply e = c_leads) (c_led _) ltac:(done) three settled eq_refl).
  apply (bool_decide_unpack _). vm_compute. exact I.
Defined.

(** A hint is not followed at once. A client that knows three nodes asks the first, which
    names the third as the leader; the client then asks the first again, and the second,
    before it asks the leader. *)
Theorem hint_tried_last :
  let '(r, (c, e)) := Put (str "k") (str "v") (three, settled) in
  n_visited e = [node_a; node_a; node_b; node_c] /\ attempts c = 4 /\ is_ok r = true.
Proof. vm_compute. auto. Qed.
End Client.
