(* ===== verification/Peers.v ===== *)
(** * Addresses of peers

    src/cluster/peers.go: a resolver maps a node ID to the address of the node. The static
    one holds a map, the fallback one asks another first, and the one with a file reads a
    JSON object of IDs and addresses again when its last reading is old enough; a file it
    cannot use leaves the last good directory in force. *)

From S2P Require Import Prelude GoStd Json.

(** ** strings.TrimSpace *)

Module GoStrings.

(** The UTF-8 encodings of Unicode's white space. *)
Definition spaces : list bytes := map (map byte_of_Z)
  [[9]; [10]; [11]; [12]; [13]; [32]; [194; 133]; [194; 160]; [225; 154; 128];
   [226; 128; 128]; [226; 128; 129]; [226; 128; 130]; [226; 128; 131]; [226; 128; 132]; [226; 128; 133]; [226; 128; 134];
   [226; 128; 135]; [226; 128; 136]; [226; 128; 137]; [226; 128; 138]; [226; 128; 168]; [226; 128; 169]; [226; 128; 175];
   [226; 129; 159]; [227; 128; 128]].

Fixpoint strip_prefix (p s : bytes) : option bytes :=
  match p, s with
  | [], _ => Some s
  | x :: p', y :: s' => if decide (x = y) then strip_prefix p' s' else None
  | _ :: _, [] => None
  end.

(** One space at the front, if there is one. *)
Fixpoint strip_one (l : list bytes) (s : bytes) : option bytes :=
  match l with
  | [] => None
  | p :: l' => match strip_prefix p s with Some s' => Some s' | None => strip_one l' s end
  end.

Fixpoint strip (fuel : nat) (l : list bytes) (s : bytes) : bytes :=
  match fuel with
  | O => s
  | S fuel' => match strip_one l s with Some s' => strip fuel' l s' | None => s end
  end.

Definition TrimLeft (s : bytes) : bytes := strip (length s) spaces s.
Definition TrimRight (s : bytes) : bytes := rev (strip (length s) (map (@rev byte) spaces) (rev s)).
Definition TrimSpace (s : bytes) : bytes := TrimRight (TrimLeft s).

End GoStrings.

Module Peers.
Import Json GoStrings.

(** What a resolver finds around it: the caller's context, the clock (in nanoseconds), the
    file, and the order in which range visits a map. *)
Class Surroundings (E : Type) := {
  ctx_err : E -> option string;
  now : E -> Z;
  read_file : bytes -> E -> string + bytes;
  map_order : E -> gmap bytes bytes -> list (bytes * bytes);
  map_order_all e m : map_order e m ≡ₚ map_to_list m
}.

(** A resolver may change its state, and time passes. *)
Definition Resolver (E : Type) : Type := Z -> E -> (string + bytes) * E.

Section resolvers.
Context {E : Type} `{!Surroundings E}.

(** ** Static and fallback *)

Definition static_Resolve (peers : gmap Z bytes) : Resolver E := fun id e =>
  let address := TrimSpace (default [] (peers !! id)) in
  if negb (id =? 0) && negb (length address =? 0)%nat then (inr address, e) else (inl "peer has no static address"%string, e).

Definition fallback_Resolve (primary : option (Resolver E)) (fallback : Resolver E) : Resolver E := fun id e =>
  match ctx_err e with
  | Some err => (inl err, e)
  | None =>
      match primary with
      | None => fallback id e
      | Some p =>
          match p id e with
          | (inr address, e') => (inr address, e')
          | (inl _, e') => match ctx_err e' with Some err => (inl err, e') | None => fallback id e' end
          end
      end
  end.

(** ** The directory in a file *)

(** json.Unmarshal into a map of strings: a later field of the same name wins. *)
Fixpoint set_fields (m : gmap bytes bytes) (l : list (bytes * json)) : option (gmap bytes bytes) :=
  match l with
  | [] => Some m
  | (k, v) :: l' => s ← store_string v; set_fields (<[k := s]> m) l'
  end.

Definition unmarshal_map (data : bytes) : option (gmap bytes bytes) :=
  v ← parse data;
  match v with JObj l => set_fields ∅ l | JNull => Some ∅ | _ => None end.

Definition entry_of (key value : bytes) : option (Z * bytes) :=
  id ← parse_uint (TrimSpace key);
  let address := TrimSpace value in
  if (id =? 0) || (length address =? 0)%nat then None else Some (id, address).

(** The loop over the fields, in the order they are visited. *)
Fixpoint add_entries (l : list (bytes * bytes)) (peers : gmap Z bytes) : option (gmap Z bytes) :=
  match l with
  | [] => Some peers
  | (key, value) :: l' => '(id, address) ← entry_of key value; add_entries l' (<[id := address]> peers)
  end.

Record FilePeerResolver := mkResolver {
  path : bytes;
  refresh : Z;
  lastRefresh : Z;
  peers : gmap Z bytes
}.

Definition refreshLocked (e : E) (r : FilePeerResolver) : option string * FilePeerResolver :=
  let r := mkResolver (path r) (refresh r) (now e) (peers r) in
  match read_file (path r) e with
  | inl err => (Some ("read peer directory: " ++ err)%string, r)
  | inr data =>
      match unmarshal_map data with
      | None => (Some "decode peer directory"%string, r)
      | Some raw =>
          match add_entries (map_order e raw) ∅ with
          | None => (Some "invalid peer directory entry"%string, r)
          | Some ps => (None, mkResolver (path r) (refresh r) (lastRefresh r) ps)
          end
      end
  end.

Definition NewFilePeerResolver (p : bytes) (every : Z) (e : E) : string + FilePeerResolver :=
  if (length (TrimSpace p) =? 0)%nat then inl "peer directory path is required"%string else
  let every := if every <=? 0 then 10 ^ 9 else every in
  match refreshLocked e (mkResolver p every 0 ∅) with
  | (Some err, _) => inl err
  | (None, r) => inr r
  end.

Definition Resolve (id : Z) (e : E) (r : FilePeerResolver) : (string + bytes) * FilePeerResolver :=
  if id =? 0 then (inl "peer ID must be positive"%string, r) else
  match ctx_err e with
  | Some err => (inl err, r)
  | None =>
      let r := if refresh r <=? now e - lastRefresh r then (refreshLocked e r).2 else r in
      let address := default [] (peers r !! id) in
      if (length address =? 0)%nat then (inl "peer is absent from directory"%string, r) else (inr address, r)
  end.

(** Calls at several times. *)
Fixpoint resolve_all (calls : list (Z * E)) (r : FilePeerResolver) : list (string + bytes) :=
  match calls with
  | [] => []
  | (id, e) :: calls' => let '(a, r') := Resolve id e r in a :: resolve_all calls' r'
  end.

(** ** What is resolved *)

(** The directory a file content means. *)
Definition directory (e : E) (data : bytes) : option (gmap Z bytes) :=
  raw ← unmarshal_map data; add_entries (map_order e raw) ∅.

(** The IDs of the entries that can be used. *)
Definition ids (l : list (bytes * bytes)) : list Z := omap (fun '(k, v) => fst <$> entry_of k v) l.

(** Entries with different IDs can be visited in any order. *)
Lemma add_entries_order l l' : l ≡ₚ l' -> NoDup (ids l) -> forall m, add_entries l m = add_entries l' m.
Proof.
  induction 1 as [|[k v] l l' Hl IH|[k v] [k' v'] l|l1 l2 l3 H1 IH1 H2 IH2]; intros Hn m; [done|..].
  - cbn [add_entries]. unfold ids in Hn. cbn [omap list_omap] in Hn. destruct (entry_of k v) as [[id a]|]; [|done].
    cbn in Hn |- *. apply IH. by apply NoDup_cons in Hn as [_ ?].
  - cbn [add_entries]. unfold ids in Hn. cbn [omap list_omap] in Hn.
    destruct (entry_of k v) as [[id a]|], (entry_of k' v') as [[id' a']|]; try done. cbn in Hn |- *.
    rewrite insert_insert_ne; [done|]. apply NoDup_cons in Hn as [Hn _]. intros ->. apply Hn. by left.
  - rewrite IH1 by done. apply IH2. eapply NoDup_Permutation_proper; [|exact Hn]. unfold ids. by rewrite H1.
Qed.

(** So the directory of a file that names no ID twice is not a matter of the order. *)
Lemma directory_order e data raw : unmarshal_map data = Some raw -> NoDup (ids (map_to_list raw)) ->
  directory e data = add_entries (map_to_list raw) ∅.
Proof.
  intros Hr Hn. unfold directory. rewrite Hr. cbn. symmetry. apply add_entries_order; [|done]. by rewrite map_order_all.
Qed.

Lemma refreshLocked_peers e r : let r' := (refreshLocked e r).2 in path r' = path r /\ refresh r' = refresh r /\ lastRefresh r' = now e /\
  peers r' = match read_file (path r) e with inr data => default (peers r) (directory e data) | inl _ => peers r end.
Proof.
  unfold refreshLocked, directory. cbv zeta. cbn [path]. destruct (read_file (path r) e) as [err|data]; [done|].
  destruct (unmarshal_map data) as [raw|]; [|done]. cbn. by destruct (add_entries _ _).
Qed.

(** The answer a directory gives. *)
Definition answer (d : gmap Z bytes) (id : Z) (e : E) : string + bytes :=
  if id =? 0 then inl "peer ID must be positive"%string else
  match ctx_err e with
  | Some err => inl err
  | None => match default [] (d !! id) with [] => inl "peer is absent from directory"%string | address => inr address end
  end.

Section fresh.
Context (T : Z) (d : gmap Z bytes).

(** Read before the time [T], or holding the directory [d]. *)
Definition fresh_at (r : FilePeerResolver) : Prop := lastRefresh r < T \/ peers r = d.

Lemma Resolve_fresh id e r : fresh_at r -> 0 < refresh r -> (T <= now e -> exists data, read_file (path r) e = inr data /\ directory e data = Some d) ->
  let '(a, r') := Resolve id e r in
  fresh_at r' /\ path r' = path r /\ refresh r' = refresh r /\ (T + refresh r <= now e -> a = answer d id e).
Proof.
  intros Hr Hpos Hf. unfold Resolve, answer. destruct (id =? 0); [done|]. destruct (ctx_err e); [done|]. cbv zeta.
  destruct (refreshLocked_peers e r) as (E1 & E2 & E3 & E4).
  set (r1 := if refresh r <=? now e - lastRefresh r then _ else _).
  assert (fresh_at r1 /\ path r1 = path r /\ refresh r1 = refresh r /\ (T + refresh r <= now e -> peers r1 = d)) as (H1 & H2 & H3 & H4).
  { unfold r1. destruct (Z.leb_spec (refresh r) (now e - lastRefresh r)) as [Hd|Hd].
    - rewrite E1, E2. assert (T <= now e -> peers (refreshLocked e r).2 = d) as Hp.
      { intros Ht. destruct (Hf Ht) as (data & Hd1 & Hd2). by rewrite E4, Hd1, Hd2. }
      assert (fresh_at (refreshLocked e r).2) as Hr1.
      { unfold fresh_at. rewrite E3. destruct (decide (T <= now e)); [right; auto|left; lia]. }
      split_and!; try done. intros Ht. apply Hp. lia.
    - split_and!; try done. intros Ht. destruct Hr; [lia|done]. }
  destruct (default [] (peers r1 !! id)) eqn:Ea; cbn; (split_and!; [done..|]); intros Ht; rewrite <- (H4 Ht), Ea; done.
Qed.
End fresh.

Lemma NewFilePeerResolver_state p every e r : NewFilePeerResolver p every e = inr r ->
  path r = p /\ 0 < refresh r /\ lastRefresh r = now e /\ exists data, read_file p e = inr data /\ directory e data = Some (peers r).
Proof.
  unfold NewFilePeerResolver. destruct (_ =? 0)%nat; [done|]. cbv zeta. set (every' := if every <=? 0 then _ else _).
  assert (0 < every') as Hpos by (unfold every'; destruct (Z.leb_spec every 0); lia).
  unfold refreshLocked. cbv zeta. cbn [path refresh lastRefresh]. destruct (read_file p e) as [err|data]; [done|].
  destruct (unmarshal_map data) as [raw|] eqn:Eu; [|done]. destruct (add_entries _ _) as [ps|] eqn:Ea; [|done]. intros [= <-].
  split_and!; try done. exists data. split; [done|]. unfold directory. by rewrite Eu.
Qed.

(** A resolver follows its file with a bounded delay. Whatever the file held before, if from
    a time T on every reading of it gives one directory, then every call made at least the
    refresh interval after T is answered from that directory. *)
Theorem directory_followed p every e0 r T d calls i id e : NewFilePeerResolver p every e0 = inr r ->
  (forall e, e ∈ e0 :: calls.*2 -> T <= now e -> exists data, read_file p e = inr data /\ directory e data = Some d) ->
  calls !! i = Some (id, e) -> T + refresh r <= now e ->
  resolve_all calls r !! i = Some (answer d id e).
Proof.
  intros Hnew Hf. destruct (NewFilePeerResolver_state _ _ _ _ Hnew) as (Hp & Hpos & Hlast & data & Hd1 & Hd2).
  assert (fresh_at T d r) as Hr.
  { unfold fresh_at. rewrite Hlast. destruct (decide (T <= now e0)) as [Ht|Ht]; [right|left; lia].
    destruct (Hf e0 ltac:(by left) Ht) as (data' & ? & ?). congruence. }
  assert (forall e, e ∈ calls.*2 -> T <= now e -> exists data, read_file p e = inr data /\ directory e data = Some d) as Hf' by (intros; apply Hf; [by right|done]).
  clear Hnew Hf Hlast data Hd1 Hd2. revert r i Hp Hpos Hr Hf'. induction calls as [|[id' e'] calls IH]; intros r i Hp Hpos Hr Hf; [done|].
  cbn [resolve_all]. pose proof (Resolve_fresh T d id' e' r Hr Hpos) as H. rewrite Hp in H. specialize (H (Hf e' ltac:(by left))).
  destruct (Resolve id' e' r) as [a r']. destruct H as (H1 & H2 & H3 & H4). destruct i as [|i]; cbn.
  - intros [= -> ->] Ht. by rewrite H4.
  - rewrite <- H3. apply IH; [congruence|congruence|done|]. intros e1 He1. apply Hf. by right.
Qed.

(** Readings that give no directory change nothing. *)
Theorem bad_directory_ignored calls r :
  (forall e, e ∈ calls.*2 -> match read_file (path r) e with inr data => directory e data = None | inl _ => True end) ->
  resolve_all calls r = (fun '(id, e) => answer (peers r) id e) <$> calls.
Proof.
  revert r. induction calls as [|[id e] calls IH]; intros r Hf; [done|]. cbn [resolve_all fmap list_fmap].
  assert (let '(a, r') := Resolve id e r in path r' = path r /\ peers r' = peers r /\ a = answer (peers r) id e) as H.
  { unfold Resolve, answer. destruct (id =? 0); [done|]. destruct (ctx_err e); [done|]. cbv zeta.
    destruct (refreshLocked_peers e r) as (E1 & _ & _ & E4). specialize (Hf e ltac:(by left)).
    assert (peers (refreshLocked e r).2 = peers r) as Ep by (rewrite E4; destruct (read_file (path r) e); [done|by rewrite Hf]).
    destruct (_ <=? _); rewrite ?Ep; destruct (default [] (peers r !! id)); cbn; split_and!; done. }
  destruct (Resolve id e r) as [a r']. destruct H as (H1 & H2 & ->). f_equal. rewrite IH, H2; [done|]. intros e1 He1. rewrite H1. apply Hf. by right.
Qed.

End resolvers.

(** ** A file that changes *)

(** A moment: the time and the content of the file. *)
#[global] Program Instance moments : Surroundings (Z * bytes) := {|
  ctx_err _ := None; now := fst; read_file _ e := inr e.2; map_order _ := map_to_list
|}.
Next Obligation. done. Qed.

Definition old_file : bytes := print Compact 0 (JObj [(str "1", JStr (str "old:7001"))]).
Definition new_file : bytes := print Compact 0 (JObj [(str " 1", JStr (str "new:7001 ")); (str "2", JStr (str "b:7002"))]).
Definition new_directory : gmap Z bytes := {[1 := str "new:7001"; 2 := str "b:7002"]}.

Definition three_calls : list (Z * (Z * bytes)) := [(1, (6, new_file)); (1, (15, new_file)); (3, (16, new_file))].

Lemma directory_followed_witness : exists r, NewFilePeerResolver (str "peers.json") 10 (0, old_file) = inr r /\
  resolve_all three_calls r !! 1%nat = Some (inr (str "new:7001")).
Proof.
  eexists. split; [reflexivity|].
  refine (directory_followed (str "peers.json") 10 (0, old_file) _ 5 new_directory three_calls 1 1 (15, new_file) eq_refl _ eq_refl _); [|by vm_compute].
  intros e He Ht. exists e.2. split; [done|].
  assert (e.2 = new_file) as ->; [|vm_compute; reflexivity].
  apply elem_of_cons in He as [->|He]; [cbn in Ht; lia|]. cbn in He. set_solver.
Defined.
End Peers.
