(* ===== verification/Startup.v ===== *)
(** * Starting a node

    src/cluster/node.go, StartNode: a node is put together from what its directories hold,
    the state machine, the stable store and the consensus core, and its event loop is
    started. Shown: whatever a crash left of an update in the stable store, the node that is
    started on it is again in step with its store and its machine. *)

From S2P Require Import Prelude GoStd Fs Db Json Membership RaftTypes RaftNode RaftCore RaftRefine RaftHandlers RaftOps RaftApi RaftCluster Raftstore Stable Runtime Loop InStep Peers.

Module Startup.
Import Raftstore Stable Membership Raft Node Core Refine Handlers Ops Api Runtime Loop InStep.

(** ** Updates either truncate or install *)

(** The values a computation on a node returns. *)
Definition gives {A} (P : A -> Prop) (m : M Node A) : Prop := forall n, match (m n).1 with Ok a => P a | _ => True end.

Lemma gives_ret {A} (P : A -> Prop) a : P a -> gives P (mret a).
Proof. by intros ? ?. Qed.
Lemma gives_raise {A} (P : A -> Prop) e : gives P (raise e).
Proof. by intros ?. Qed.
Lemma gives_get {A} (P : A -> Prop) (k : Node -> M Node A) : (forall n, gives P (k n)) -> gives P (Node.get ≫= k).
Proof. intros H n. apply H. Qed.
Lemma gives_bind {A B} (Q : A -> Prop) (P : B -> Prop) (m : M Node A) (k : A -> M Node B) :
  gives Q m -> (forall a, Q a -> gives P (k a)) -> gives P (m ≫= k).
Proof. intros Hm Hk n. specialize (Hm n). unfold mbind, M_bind. destruct (m n) as [[a|e| |] n']; try done. by apply Hk. Qed.
Lemma gives_any {A} (m : M Node A) : gives (fun _ => True) m.
Proof. intros n. by destruct (m n).1. Qed.

(** An update that truncates nothing; [plain] ones install nothing either. *)
Definition uncut (u : Update) : Prop := u_truncateFrom u = 0.

Ltac plain_step :=
  match goal with
  | |- gives _ (Node.get ≫= _) => apply gives_get; intros ?
  | |- gives _ (mret _) => apply gives_ret; unfold plain, uncut in *; cbn in *; destruct_and?;
      repeat match goal with H : u_truncateFrom _ = 0 |- _ => rewrite ?H; clear H | H : u_snapshot _ = None |- _ => rewrite ?H; clear H end;
      first [split; exact eq_refl|exact eq_refl]
  | |- gives _ (raise _) => apply gives_raise
  | |- gives _ (if ?b then _ else _) => destruct b
  | |- gives _ (match ?x with _ => _ end) => destruct x
  | |- gives _ (_ ≫= _) => first [eapply gives_bind; [solve [eauto with plain nocore]|intros ? ?] | eapply gives_bind; [apply gives_any|intros ? _]]
  | |- gives _ (let _ := _ in _) => cbv zeta
  | _ => solve [eauto with plain nocore]
  end.

Create HintDb plain.

Lemma becomeFollower_plain t l : gives plain (becomeFollower t l).
Proof. unfold becomeFollower. by repeat plain_step. Qed.
#[local] Hint Resolve becomeFollower_plain : plain.

Lemma refollow_plain (b : bool) t l : gives plain (if b then u ← becomeFollower t l; mret (merge noUpdate u) else mret noUpdate).
Proof. by repeat plain_step. Qed.
#[local] Hint Resolve refollow_plain : plain.

Lemma maybeCommit_plain : gives plain maybeCommit.
Proof. unfold maybeCommit. by repeat plain_step. Qed.
#[local] Hint Resolve maybeCommit_plain : plain.

Lemma becomeLeader_plain : gives plain becomeLeader.
Proof. unfold becomeLeader. by repeat plain_step. Qed.
#[local] Hint Resolve becomeLeader_plain : plain.

Lemma startElection_plain : gives plain startElection.
Proof. unfold startElection. by repeat plain_step. Qed.
#[local] Hint Resolve startElection_plain : plain.

Lemma startPreVote_plain : gives plain startPreVote.
Proof. unfold startPreVote. by repeat plain_step. Qed.
#[local] Hint Resolve startPreVote_plain : plain.

Lemma handlers_plain m : m_type m <> MsgAppend -> m_type m <> MsgSnapshot -> gives plain (dispatch m).
Proof.
  intros Hm Hs. unfold dispatch. apply gives_get. intros n. destruct (m_type m); try done.
  - unfold handlePreVoteResponse. by repeat plain_step.
  - unfold handleVote. by repeat plain_step.
  - unfold handleVoteResponse. by repeat plain_step.
  - unfold handleAppendResponse. by repeat plain_step.
  - unfold handleSnapshotResponse. by repeat plain_step.
Qed.
#[local] Hint Resolve handlers_plain : plain.

(** The snapshot an update installs is the one of the message. *)
Definition installs (m : Message) (u : Update) : Prop :=
  uncut u /\ forall s, u_snapshot u = Some s -> m_type m = MsgSnapshot /\ exists s', m_snapshot m = Some s' /\ s_index s = s_index s'.

Lemma plain_installs m u : plain u -> installs m u.
Proof. intros [Ht Hs]. split; [done|]. by rewrite Hs. Qed.

Lemma gives_mono {A} (P Q : A -> Prop) (m : M Node A) : gives P m -> (forall a, P a -> Q a) -> gives Q m.
Proof. intros H HPQ n. specialize (H n). destruct (m n).1; auto. Qed.

Lemma handleSnapshot_installs m : m_type m = MsgSnapshot -> gives (installs m) (handleSnapshot m).
Proof.
  intros Hm. unfold handleSnapshot. apply gives_get. intros n. destruct (m_snapshot m) as [s|] eqn:Es; [|apply gives_ret; by apply plain_installs].
  destruct (_ || _); [apply gives_ret; by apply plain_installs|]. eapply gives_bind; [apply refollow_plain|]. intros u [Ht Hs].
  assert (forall l, installs m (add_messages l u)) as Hadd by (intros l; by apply plain_installs).
  assert (forall s, gives (installs m) (accept_snapshot m s u)) as Hskip by (intros s'; apply gives_get; intros n1; apply gives_ret, Hadd).
  do 2 (eapply gives_bind; [apply gives_any|intros _ _]). apply gives_get. intros n2. cbv zeta. match goal with |- context [validateMembership (s_membership ?x)] => set (s1 := x) end.
  assert (s_index s1 = s_index s) as E1 by (unfold s1; by destruct (_ =? _)%nat).
  repeat match goal with
  | |- gives _ (mret _) => apply gives_ret, Hadd
  | |- gives _ (accept_snapshot m _ u) => apply Hskip
  | |- gives _ (if ?b then _ else _) => destruct b
  | |- gives _ (match ?x with _ => _ end) => destruct x
  | |- gives _ (_ ≫= _) => eapply gives_bind; [apply gives_any|intros ? _]
  end.
  apply gives_get. intros n3. apply gives_ret. split; [done|]. cbn. intros s' [= <-]. split; [done|]. by exists s.
Qed.

Lemma Step_installs m : m_type m <> MsgAppend -> gives (installs m) (Step m).
Proof.
  intros Hm. assert (gives (installs m) (dispatch m)) as Hd.
  { destruct (decide (m_type m = MsgSnapshot)) as [Hs|Hs]; [|eapply gives_mono; [by apply handlers_plain|apply plain_installs]].
    unfold dispatch. apply gives_get. intros n. rewrite Hs. by apply handleSnapshot_installs. }
  unfold Step. apply gives_get. intros n. cbv zeta.
  repeat match goal with
  | |- gives _ (if ?b then _ else _) => destruct b
  | |- gives _ (mret _) => apply gives_ret; by apply plain_installs
  | |- gives _ (modify _ ;; mret _) => eapply gives_bind; [apply gives_any|intros _ _]; apply gives_ret; by apply plain_installs
  end.
  eapply gives_bind; [apply refollow_plain|]. intros u [Ht Hs]. eapply gives_bind; [exact Hd|]. intros u' [Ht' Hs'].
  apply gives_ret. unfold installs, uncut in *. split; [by cbn; rewrite Ht', Ht|]. cbn.
  destruct (u_snapshot u') as [s'|]; [intros s [= <-]; by apply Hs'|by rewrite Hs].
Qed.

Lemma ProposeBatch_plain l : gives (fun r => plain r.2) (ProposeBatch l).
Proof. unfold ProposeBatch. by repeat plain_step. Qed.
#[local] Hint Resolve ProposeBatch_plain : plain.

Lemma Propose_plain d : gives (fun r => plain r.2) (Propose d).
Proof. unfold Propose. repeat plain_step. intros n. done. Qed.
#[local] Hint Resolve Propose_plain : plain.

Lemma ProposeMembership_plain v : gives (fun r => plain r.2) (ProposeMembership v).
Proof. unfold ProposeMembership. by repeat plain_step. Qed.
#[local] Hint Resolve ProposeMembership_plain : plain.

Lemma ReadProbe_plain c : gives plain (ReadProbe c).
Proof. unfold ReadProbe. by repeat plain_step. Qed.

Lemma Tick_plain : gives plain Tick.
Proof. unfold Tick. by repeat plain_step. Qed.

(** An operation's update installs no snapshot, or it truncates nothing. *)
Lemma run_op_exclusive op n u n' : wf (core n) -> op_ok op (core n) -> run_op op n = (Ok u, n') -> late u (commit n) \/ uncut u.
Proof.
  intros Hw Hop Hrun. assert (forall m, gives plain m -> m n = (Ok u, n') -> late u (commit n) \/ uncut u) as H.
  { intros m Hm E. specialize (Hm n). rewrite E in Hm. right. apply Hm. }
  destruct op as [|m|d|l|v|ctx|i d|s]; cbn [run_op] in Hrun.
  - by eapply H; [apply Tick_plain|].
  - destruct (decide (m_type m = MsgAppend)) as [Hm|Hm]; [left; by apply (Step_late m n u n')|].
    right. pose proof (Step_installs m Hm n) as Hi. rewrite Hrun in Hi. apply Hi.
  - eapply H; [|exact Hrun]. by repeat plain_step.
  - eapply H; [|exact Hrun]. by repeat plain_step.
  - eapply H; [|exact Hrun]. by repeat plain_step.
  - by eapply H; [apply ReadProbe_plain|].
  - right. assert (gives uncut (CreateSnapshot i d)) as Hc by (unfold CreateSnapshot, Compact; by repeat plain_step).
    specialize (Hc n). by rewrite Hrun in Hc.
  - right. assert (gives uncut (Compact s)) as Hc by (unfold Compact; by repeat plain_step). specialize (Hc n). by rewrite Hrun in Hc.
Qed.

(** ** Durable states a node can start from *)

Definition resting (id : Z) (init : Membership) (d : Durable) (m : Membership) : Core :=
  mkCore id init Follower (hs_term (d_hard d)) (hs_votedFor (d_hard d)) (d_snap d) (d_log d) (s_index (d_snap d)) m ∅ ∅ ∅ false.

Definition startable (id : Z) (init : Membership) (d : Durable) : Prop := exists m, wf (resting id init d m).

Section startable.
Context (id : Z) (init : Membership).

Lemma startable_core c : wf c -> startable (k_id c) (k_init c) (dur c).
Proof.
  intros Hw. exists (k_memb c). pose proof (wf_commit _ Hw). exact (restarted_wf (s_index (k_snap c)) c Hw ltac:(lia)).
Qed.

(** Without the data of the snapshot. *)
Lemma startable_sans d : startable id init d -> startable id init (sans d).
Proof.
  intros [m Hw]. exists m. pose proof (wf_snap_memb _ Hw) as [Hz Hx]. destruct d as [h [i t data mb] l]. destruct Hw; constructor; try done. cbn in *.
  split; [|done]. intros Hi. specialize (Hz Hi). unfold with_data. cbn. by injection Hz as -> -> -> ->.
Qed.

(** With a later term and any vote. *)
Lemma startable_hard h d : startable id init d -> hs_term (d_hard d) <= hs_term h < 2 ^ 64 -> startable id init (mkDurable h (d_snap d) (d_log d)).
Proof.
  intros [m Hw] Ht. exists m. pose proof (wf_term _ Hw). pose proof (wf_snap _ Hw) as (Hs1 & Hs2 & Hs3). pose proof (wf_log _ Hw) as Hl.
  destruct Hw; constructor; try done; cbn in *; try lia.
  - eapply log_ok_mono; [exact Hl|lia].
  - by intros [?|?].
Qed.

(** With a part of the log. *)
Lemma startable_prefix k d : startable id init d -> startable id init (mkDurable (d_hard d) (d_snap d) (take k (d_log d))).
Proof.
  intros [m Hw]. pose proof (wf_memb _ Hw) as Hc. cbn in Hc. rewrite <- (take_drop k (d_log d)) in Hc. apply conf_prefix in Hc as [m1 Hc].
  pose proof (wf_last _ Hw) as Hlast. exists m1. destruct Hw; constructor; try done; unfold k_last in *; cbn in *.
  - by apply log_ok_take.
  - unfold terms_ok in *. rewrite <- (take_drop k (d_log d)), fmap_app, app_comm_cons in wf_terms0. by apply StronglySorted_app in wf_terms0 as (_ & ? & _).
  - rewrite length_take. lia.
  - rewrite length_take. lia.
Qed.

End startable.

(** Whatever a crash leaves of the update of a node's operation, a node can start from it. *)
Lemma crash_startable op n u n' d : wf (core n) -> op_ok op (core n) -> run_op op n = (Ok u, n') ->
  crash_state u (dur (core n)) d -> startable (c_ID (cfg n)) (initialMembership n) d.
Proof.
  intros Hw Hop Hrun Hd. destruct (run_op_performs _ _ _ _ Hw Hop Hrun) as [[Hacts Hdur _] Hw'].
  pose proof (run_op_exclusive _ _ _ _ Hw Hop Hrun) as Hex. destruct (acts_config _ _ _ _ Hacts) as [Ei Em].
  pose proof (startable_core _ Hw) as H0. pose proof (startable_core _ Hw') as H1. rewrite Ei, Em, Hdur in H1. cbn [k_id k_init core] in H0, H1.
  set (id := c_ID (cfg n)) in *. set (init := initialMembership n) in *. set (d0 := dur (core n)) in *.
  assert (startable id init (after_hard u d0)) as Hh.
  { unfold after_hard. destruct (u_hardState u) as [h|] eqn:Eh; [|done]. apply startable_hard; [done|].
    assert (h = mkHard (k_term (core n')) (k_voted (core n'))) as ->.
    { apply (f_equal d_hard) in Hdur. change (d_hard (dur (core n'))) with (mkHard (k_term (core n')) (k_voted (core n'))) in Hdur.
      rewrite Hdur, persist_eq. cbn [Stable.with_log d_hard]. unfold after_snap, after_hard, d_install. rewrite Eh. destruct (u_snapshot u); [|done].
      by destruct (_ <=? _). }
    pose proof (av_term _ _ (acts_advances _ _ _ _ Hw Hacts)). pose proof (wf_term _ Hw'). cbn in *. lia. }
  assert (forall k, startable id init (after_entries k u d0)) as He.
  { intros k. pose proof (startable_prefix id init (length (kept (u_truncateFrom u) (after_snap u d0)) + k) _ H1) as H.
    rewrite persist_eq in H. cbn [Stable.with_log d_hard d_snap d_log] in H. by rewrite take_app_add in H. }
  destruct Hd as [->|[->|[->|[k ->]]]]; [done|done| |done].
  destruct Hex as [[Hs _]|Ht]; [unfold after_snap; by rewrite Hs|]. specialize (He 0%nat). unfold after_entries, kept in He. rewrite Ht in He. cbn in He.
  rewrite app_nil_r in He. by destruct (after_snap u d0).
Qed.

(** A snapshot of the store's own log leaves the log as long as it was. *)
Lemma clean_install_last u d : clean_install u d -> d_last d <= d_last (after_snap u d).
Proof.
  intros Hc. destruct (after_hard_same u d) as [Es El]. unfold after_snap. assert (d_last (after_hard u d) = d_last d) as Eh by (unfold d_last; by rewrite Es, El).
  destruct (u_snapshot u) as [sn|] eqn:E; [|lia]. unfold d_install. rewrite Es, El. destruct (Z.leb_spec (s_index sn) (s_index (d_snap d))); [lia|].
  destruct (Hc sn E) as [?|(H0 & e & He & Ht)]; [lia|]. rewrite H0, Z.sub_0_r, He, Ht, Z.eqb_refl. apply lookup_lt_Some in He.
  unfold d_last. cbn. rewrite length_drop, H0. lia.
Qed.

(** What a node has committed is in every state its store may be left in. *)
Lemma crash_committed op n u n' v d d' : wf (core n) -> op_ok op (core n) -> run_op op n = (Ok u, n') -> sans d = sans (dur (core n)) ->
  u_truncateFrom v = u_truncateFrom u -> (u_snapshot u = None -> u_snapshot v = None) -> clean_install v d -> crash_state v d d' -> commit n <= d_last d'.
Proof.
  intros Hw Hop Hrun Hs Et Ev Hc Hd. pose proof (clean_install_last _ _ Hc) as Hi. destruct (after_hard_same v d) as [Es El].
  assert (d_last d = d_last (dur (core n))) as Ed.
  { apply (f_equal d_last) in Hs. unfold d_last, sans in *. by cbn in *. }
  assert (commit n <= d_last d) as H0.
  { rewrite Ed. pose proof (wf_commit _ Hw). unfold d_last, k_last in *. cbn in *. lia. }
  destruct Hd as [->|[->|[->|[k ->]]]]; [done|unfold d_last in *; rewrite Es, El; lia|lia|].
  destruct (run_op_exclusive _ _ _ _ Hw Hop Hrun) as [[Hn Hl]|Hl]; unfold after_entries, kept, uncut in *; rewrite Et.
  - destruct (Z.eqb_spec (u_truncateFrom u) 0); [|destruct Hl as [?|Hl]; [done|]]; unfold d_last in *; cbn; rewrite length_app, ?length_take; lia.
  - rewrite Hl. unfold d_last in *. cbn. rewrite length_app. lia.
Qed.

(** The same up to the data of snapshots, which only the store has. *)
Lemma crash_state_sans src u d e d' : crash_state (streamed src u) d d' -> sans d = sans e -> exists e', crash_state u e e' /\ sans d' = sans e'.
Proof.
  intros Hd Hs. assert (sans (after_hard u d) = sans (after_hard u e)) as Hh.
  { unfold after_hard. destruct (u_hardState u); [|done]. destruct d as [? [] ?], e as [? [] ?]. unfold sans, with_data in *. cbn in *. by simplify_eq. }
  assert (sans (after_snap (streamed src u) d) = sans (after_snap u e)) as Ha.
  { unfold after_snap. cbn [streamed u_snapshot]. destruct (u_snapshot u) as [sn|]; cbn; [|exact Hh]. by apply sans_install. }
  destruct Hd as [->|[->|[->|[k ->]]]].
  - exists e. split; [by left|done].
  - exists (after_hard u e). split; [right; by left|exact Hh].
  - exists (after_snap u e). split; [right; right; by left|exact Ha].
  - exists (after_entries k u e). split; [right; right; right; by exists k|]. unfold after_entries. cbn [streamed u_truncateFrom u_entries].
    revert Ha. generalize (after_snap (streamed src u) d), (after_snap u e). intros [h [] l] [h' [] l'].
    unfold sans, Stable.with_log, kept, with_data. cbn. by intros [= -> -> -> -> ->].
Qed.

(** ** The configuration *)

Section config.
Context {H : Type}.

Record NodeConfig := mkNodeConfig {
  nc_ID : Z;
  nc_ListenAddress : bytes;
  nc_MetricsAddress : bytes;
  nc_DataDir : bytes;
  nc_Peers : gmap Z bytes;
  nc_PeerResolver : option (Peers.Resolver H);
  nc_Voters : list Z;
  nc_TickInterval : Z;
  nc_ElectionTickMin : Z;
  nc_ElectionTickMax : Z;
  nc_HeartbeatTicks : Z;
  nc_CheckQuorumTicks : Z;
  nc_SnapshotThreshold : Z;
  nc_DBOptions : option Db.Options
}.

(** [if x <= 0 { x = d }] *)
Definition positive (x d : Z) : Z := if x <=? 0 then d else x.

Definition defaults (c : NodeConfig) : NodeConfig :=
  let emin := positive (nc_ElectionTickMin c) 6 in
  mkNodeConfig (nc_ID c) (nc_ListenAddress c) (nc_MetricsAddress c) (nc_DataDir c) (nc_Peers c) (nc_PeerResolver c)
    (if (length (nc_Voters c) =? 0)%nat then merge_sort Z.le (map_to_list (nc_Peers c)).*1 else nc_Voters c)
    (positive (nc_TickInterval c) (50 * 10 ^ 6)) emin (positive (nc_ElectionTickMax c) 12)
    (positive (nc_HeartbeatTicks c) 1) (positive (nc_CheckQuorumTicks c) emin)
    (if nc_SnapshotThreshold c =? 0 then 1000 else nc_SnapshotThreshold c) (nc_DBOptions c).

Fixpoint check_voters (seen : gset Z) (l : list Z) : option string :=
  match l with
  | [] => if decide (seen = ∅) then Some "at least one initial voter is required"%string else None
  | id :: l' =>
      if id =? 0 then Some "initial voter IDs must be positive"%string else
      if bool_decide (id ∈ seen) then Some "duplicate initial voter"%string else
      check_voters ({[id]} ∪ seen) l'
  end.

Definition node_validate (c : NodeConfig) : option string :=
  if (nc_ID c =? 0) || (length (nc_ListenAddress c) =? 0)%nat || (length (nc_DataDir c) =? 0)%nat
  then Some "node ID, listen address, and data directory are required"%string else
  match nc_PeerResolver c with
  | None => if (size (nc_Peers c) =? 0)%nat then Some "static peers or a peer resolver are required"%string else check_voters ∅ (nc_Voters c)
  | Some _ => check_voters ∅ (nc_Voters c)
  end.

Definition raft_config (c : NodeConfig) (applied : Z) : Config :=
  mkConfig (nc_ID c) (nc_Voters c) (nc_ElectionTickMin c) (nc_ElectionTickMax c) (nc_HeartbeatTicks c) (nc_CheckQuorumTicks c)
    (nc_ID c) applied 0 0.
End config.
Arguments NodeConfig : clear implicits.

End Startup.

(** ** What a node is started from *)

(** The store and the machine in their directories, before and after they are opened. *)
Class NodeStore (S : Type) := {
  store_Open : M S unit;
  store_Load : S -> Raft.HardState * list Raft.Entry;
  store_SnapshotMetadata : S -> Raft.Snapshot
}.

Class NodeMachine (T : Type) := {
  machine_Open : option Db.Options -> M T unit
}.

(** The host: its directories and its network. *)
Class Host (H : Type) := {
  host_MkdirAll : bytes -> M H unit;
  host_Listen : bytes -> M H unit;
  host_CloseListener : M H unit
}.

Module Starting.
Import Raftstore Stable Membership Raft Node Core Refine Handlers Ops Api Runtime Loop InStep Startup.

Section start.
Context {H S T : Type} `{!Peers.Surroundings H} `{!Host H} `{!StableStore S} `{!NodeStore S} `{!StateMachine T} `{!NodeMachine T}.

Record Boot := mkBoot { host : H; bstore : S; bmachine : T }.

Definition on_host {A} (m : M H A) : M Boot A := zoom host (fun x b => mkBoot x (bstore b) (bmachine b)) m.
Definition on_bstore {A} (m : M S A) : M Boot A := zoom bstore (fun x b => mkBoot (host b) x (bmachine b)) m.
Definition on_bmachine {A} (m : M T A) : M Boot A := zoom bmachine (fun x b => mkBoot (host b) (bstore b) x) m.

(** An error, after what was opened is closed. *)
Definition failing {A} (what : string) (cleanup : M Boot unit) (m : M Boot A) : M Boot A :=
  catch m (fun e => cleanup ;; raise (what ++ ": " ++ e)).

Definition close_machine : M Boot unit := ignore (on_bmachine machine_Close).
Definition close_both : M Boot unit := ignore (on_bstore store_Close) ;; ignore (on_bmachine machine_Close).

(** Every voter and the node itself can be resolved. *)
Fixpoint resolve_startup (resolve : Peers.Resolver H) (l : list Z) : M H unit :=
  match l with
  | [] => mret tt
  | id :: l' => fun h =>
      match resolve id h with
      | (inl e, h') => (Err ("resolve startup peer: " ++ e), h')
      | (inr _, h') => resolve_startup resolve l' h'
      end
  end.

Definition startup_resolver (c : NodeConfig H) : Peers.Resolver H :=
  Peers.fallback_Resolve (nc_PeerResolver c) (Peers.static_Resolve (nc_Peers c)).

(** The machine is brought up to the snapshot of the store. *)
Definition restore_state : M Boot unit :=
  b ← gets id;
  let snapshot := store_SnapshotMetadata (bstore b) in
  if machine_AppliedIndex (bmachine b) <? s_index snapshot then
    reader ← failing "open state snapshot" close_both (on_bstore (store_OpenSnapshot (s_index snapshot)));
    let '(content, size, _) := reader in
    restoreErr ← try_err (on_bmachine (machine_RestoreSnapshot (s_index snapshot) size content));
    closeErr ← try_err (on_bstore store_CloseReader);
    match restoreErr, closeErr with
    | Some e, _ => close_both ;; raise ("restore state snapshot: " ++ e)
    | None, Some e => close_both ;; raise ("close state snapshot: " ++ e)
    | None, None => mret tt
    end
  else mret tt.

Definition StartNode (c : NodeConfig H) : M Boot (@Runtime S T) :=
  let c := defaults c in
  match node_validate c with
  | Some e => raise e
  | None =>
      on_host (catch (host_MkdirAll (nc_DataDir c)) (fun e => raise ("create node data dir: " ++ e))) ;;
      on_host (resolve_startup (startup_resolver c) (nc_Voters c ++ [nc_ID c])) ;;
      failing "open state machine" (mret tt) (on_bmachine (machine_Open (nc_DBOptions c))) ;;
      failing "open raft store" close_machine (on_bstore store_Open) ;;
      loaded ← gets (fun b => (store_Load (bstore b), store_SnapshotMetadata (bstore b)));
      let '((hard, entries), snapshot) := loaded in
      restore_state ;;
      applied ← gets (fun b => machine_AppliedIndex (bmachine b));
      core ← failing "restore raft core" close_both (of_res (New (raft_config c applied) hard entries [snapshot]));
      failing "listen" close_both (on_host (host_Listen (nc_ListenAddress c))) ;;
      b ← gets id;
      catch (of_res (Start (0 <? nc_TickInterval c) 0 (nc_SnapshotThreshold c) core (bstore b) (bmachine b)))
        (fun e => ignore (on_host host_CloseListener) ;; close_both ;; raise e)
  end.

End start.
End Starting.

(** What the parts promise: a store at rest holds a durable state, a machine at rest what it
    had applied, and opening them gives it back. *)
Class StoreOpens (S : Type) `{!StableStore S} `{!NodeStore S} `{!StoreLaws S} := {
  at_rest : S -> Core.Durable -> Prop;
  open_store_runs s d : at_rest s d -> depends fallible store_Open s (fun _ s' => keeps s' d /\
    store_Load s' = (Core.d_hard d, Core.d_log d) /\ store_SnapshotMetadata s' = Raftstore.metadata (Core.d_snap d))
}.

Class MachineOpens (T : Type) `{!StateMachine T} `{!NodeMachine T} `{!MachineLaws T} := {
  asleep : T -> Z -> mstate -> Prop;
  open_machine_runs o t c x : asleep t c x -> depends mfallible (machine_Open o) t (fun _ t' =>
    sound t' /\ machine_AppliedIndex t' = c /\ contents t' = x)
}.

(** What a process that ends leaves of a store: what it kept. A snapshot is only read at the
    index of the stored one. *)
Class StoreRests (S : Type) `{!StableStore S} `{!NodeStore S} `{!StoreLaws S} `{!StoreOpens S} := {
  store_left : S -> S -> Prop;
  left_at_rest s s0 d : keeps s d -> store_left s s0 -> at_rest s0 d;
  opens_current i s d content size sum s1 : keeps s d -> store_OpenSnapshot i s = (Ok (content, size, sum), s1) ->
    i = Raft.s_index (Core.d_snap d) /\ content = Raft.s_data (Core.d_snap d) /\ keeps s1 d /\ (fallible s1 -> fallible s)
}.

(** What a process that ends leaves of a machine: an earlier state, [remains], which only the
    calls that change the machine bring up to date. *)
Class MachineRests (T : Type) `{!StateMachine T} `{!NodeMachine T} `{!MachineLaws T} `{!MachineOpens T} := {
  machine_left : T -> T -> Prop;
  remains : T -> Z -> mstate -> Prop;
  left_asleep t t0 : sound t -> machine_left t t0 -> exists c x, remains t c x /\ asleep t0 c x;
  remains_bounded t k x : sound t -> remains t k x -> 0 <= k <= machine_AppliedIndex t;
  remains_apply i c t t' k x : sound t -> accepts i c t -> i = machine_AppliedIndex t + 1 -> machine_Apply i c t = (Ok tt, t') ->
    remains t' k x -> remains t k x \/ k = i /\ x = contents t';
  remains_restore i content t t' k x : sound t -> loadable i content t -> machine_AppliedIndex t < i ->
    machine_RestoreSnapshot i (Z.of_nat (length content)) content t = (Ok tt, t') -> remains t' k x -> k = i /\ x = contents t';
  remains_open o t t' c x k y : asleep t c x -> machine_Open o t = (Ok tt, t') -> remains t' k y -> k = c /\ y = x
}.

Class HostLaws (H : Type) `{!Host H} := {
  shut : H -> Prop;
  mkdir_runs dir h : depends shut (host_MkdirAll dir) h (fun _ _ => True);
  listen_runs a h : depends shut (host_Listen a) h (fun _ _ => True);
  close_listener_runs h : runs host_CloseListener h (fun _ _ => True) (fun _ => True) (fun _ => True)
}.

Module Restart.
Import Raftstore Stable Membership Raft Node Core Refine Handlers Ops Api Runtime Loop InStep Startup Starting.

Section restart.
Context {H S T : Type} `{!Peers.Surroundings H} `{!Host H} `{!HostLaws H} `{!StableStore S} `{!NodeStore S} `{!StoreLaws S} `{!StoreOpens S}
  `{!StateMachine T} `{!NodeMachine T} `{!MachineLaws T} `{!MachineOpens T}.
Implicit Types b : @Boot H S T.

(** A call that starting depends on may fail. *)
Definition troubled b : Prop := shut (host b) \/ fallible (bstore b) \/ mfallible (bmachine b).

(** [begins C P m b Q]: the computation ends well with [Q], or it fails and [P] holds, which
    trouble implies; [C] holds of the machine as long as it goes well. *)
Definition begins (C : T -> Prop) (P : Prop) {A} (m : M Boot A) b (Q : A -> @Boot H S T -> Prop) : Prop :=
  (troubled b -> P) -> C (bmachine b) ->
  runs m b (fun a b' => Q a b' /\ (troubled b' -> P) /\ C (bmachine b')) (fun _ => P) (fun _ => True).

Section rules.
Context (C : T -> Prop) (P : Prop).

Lemma begins_bind {A B} (m : M Boot A) (k : A -> M Boot B) b Q : begins C P m b (fun a b' => begins C P (k a) b' Q) -> begins C P (m ≫= k) b Q.
Proof. intros Hm HP HC. apply runs_bind. eapply runs_mono; [by apply Hm| |done|done]. intros a b' (Hk & Hb & HC'). by apply Hk. Qed.

Lemma begins_mono {A} (m : M Boot A) b (Q Q' : A -> Boot -> Prop) : begins C P m b Q -> (forall a b', Q a b' -> Q' a b') -> begins C P m b Q'.
Proof. intros Hm HQ HP HC. eapply runs_mono; [by apply Hm| |done|done]. naive_solver. Qed.

Lemma begins_ret {A} (a : A) b (Q : A -> Boot -> Prop) : Q a b -> begins C P (mret a) b Q.
Proof. by intros ? ?. Qed.

Lemma begins_gets {A B} (f : Boot -> A) (k : A -> M Boot B) b Q : begins C P (k (f b)) b Q -> begins C P (gets f ≫= k) b Q.
Proof. done. Qed.

Lemma begins_host {A} (m : M H A) b (Q : A -> Boot -> Prop) :
  depends shut m (host b) (fun a h => Q a (mkBoot h (bstore b) (bmachine b))) -> begins C P (on_host m) b Q.
Proof.
  intros Hm HP HC. apply runs_zoom. unfold troubled in *. eapply runs_mono; [exact Hm| | |done].
  - intros a h [HQ Hb]. cbn. tauto.
  - intros h Hb. tauto.
Qed.

Lemma begins_store {A} (m : M S A) b (Q : A -> Boot -> Prop) :
  depends fallible m (bstore b) (fun a s => Q a (mkBoot (host b) s (bmachine b))) -> begins C P (on_bstore m) b Q.
Proof.
  intros Hm HP HC. apply runs_zoom. unfold troubled in *. eapply runs_mono; [exact Hm| | |done].
  - intros a s [HQ Hb]. cbn. tauto.
  - intros s Hb. tauto.
Qed.

(** Clean-up that does not panic. *)
Definition tidy (m : M (@Boot H S T) unit) : Prop := forall b, C (bmachine b) -> runs m b (fun _ _ => True) (fun _ => True) (fun _ => True).

Lemma begins_tidy_raise {A} c e b (Q : A -> Boot -> Prop) : tidy c -> P -> begins C P (c ;; raise e) b Q.
Proof. intros Hc HP _ HC. apply runs_bind. by eapply runs_mono; [apply Hc|..]. Qed.

(** A step that leaves the machine alone, and what is done when it fails. *)
Definition steady {A} (m : M (@Boot H S T) A) : Prop := forall b, bmachine (m b).2 = bmachine b.

Lemma begins_failing {A} what c (m : M Boot A) b Q : tidy c -> steady m -> begins C P m b Q -> begins C P (failing what c m) b Q.
Proof.
  intros Hc Hl Hm HP HC. specialize (Hm HP HC). specialize (Hl b). unfold runs, failing, catch in *.
  destruct (m b) as [[a|e| |] b'] eqn:E; try done. cbn in Hl. rewrite <- Hl in HC.
  pose proof (begins_tidy_raise c (what ++ ": " ++ e) b' Q Hc Hm) as H'. by apply H'.
Qed.
End rules.

Lemma steady_store {A} (m : M S A) : steady (on_bstore m).
Proof. intros b. unfold on_bstore, zoom. by destruct (m (bstore b)). Qed.
Lemma steady_host {A} (m : M H A) : steady (on_host m).
Proof. intros b. unfold on_host, zoom. by destruct (m (host b)). Qed.
Lemma steady_of_res {A} (x : res A) : steady (of_res x).
Proof. by intros b. Qed.

Lemma tidy_close_machine : tidy closable close_machine.
Proof. intros b HC. apply runs_ignore, runs_zoom. by eapply runs_mono; [apply machine_close_runs|..]. Qed.

Lemma tidy_close_both : tidy closable close_both.
Proof.
  intros b HC. apply runs_bind, runs_ignore, runs_zoom.
  by eapply runs_mono; [apply store_close_runs| | |done]; [intros [] s _|intros s _]; apply tidy_close_machine.
Qed.

(** Once the machine is open it has to be closed. *)
Lemma begins_open {A B} (C : T -> Prop) P (m : M Boot A) (k : A -> M Boot B) b Q :
  begins (fun _ => True) P m b (fun a b' => C (bmachine b') /\ begins C P (k a) b' Q) -> begins (fun _ => True) P (m ≫= k) b Q.
Proof.
  intros Hm HP _. apply runs_bind. eapply runs_mono; [by apply Hm| |done|done]. intros a b' ((HC & Hk) & Hb & _).
  eapply runs_mono; [by apply Hk| |done|done]. naive_solver.
Qed.

Section steps.
Context (P : Prop).

(** What became of the machine. *)
Definition brought_up (c : Z) (d : Durable) (t1 t2 : T) : Prop :=
  if c <? s_index (d_snap d) then loadable (s_index (d_snap d)) (s_data (d_snap d)) t1 /\
    machine_RestoreSnapshot (s_index (d_snap d)) (Z.of_nat (length (s_data (d_snap d)))) (s_data (d_snap d)) t1 = (Ok tt, t2)
  else t2 = t1.

Lemma begins_restore b d c : keeps (bstore b) d -> store_SnapshotMetadata (bstore b) = metadata (d_snap d) ->
  sound (bmachine b) -> machine_AppliedIndex (bmachine b) = c -> 0 <= c ->
  (c < s_index (d_snap d) -> loadable (s_index (d_snap d)) (s_data (d_snap d)) (bmachine b)) ->
  begins closable P restore_state b (fun _ b' => keeps (bstore b') d /\ sound (bmachine b') /\
    machine_AppliedIndex (bmachine b') = Z.max c (s_index (d_snap d)) /\ contents (bmachine b') = restored c d (contents (bmachine b)) /\
    brought_up c d (bmachine b) (bmachine b')).
Proof.
  intros Hk Hm Ht Ha Hc Hld. unfold restore_state. apply begins_gets. cbv zeta beta. unfold id. rewrite Hm, Ha. cbn [metadata s_index]. unfold restored, brought_up.
  destruct (Z.ltb_spec c (s_index (d_snap d))) as [Hlt|]; [|apply begins_ret; split_and!; (done || lia)].
  apply begins_bind, begins_failing; [apply tidy_close_both|apply steady_store|]. apply begins_store.
  eapply runs_mono; [by apply (open_keeps (bstore b) d); [done|lia]| |done|done].
  intros [[content size] sum] s1 [(Hk1 & -> & ->) Hf]. split; [|done].
  intros HP _. unfold troubled in HP. cbn in HP. apply runs_bind, runs_try_err, runs_zoom.
  eapply runs_mono; [apply fails_to_eq, restore_runs; [done|by apply Hld|cbn; lia]| | |done].
  - intros [] t [[(Ht1 & Ha1 & Hx1) Hrun] Hf1]. pose proof (sound_closable t Ht1) as Hc1. apply runs_bind, runs_try_err, runs_zoom.
    eapply runs_mono; [by apply (close_reader_keeps s1 d)| | |done].
    + intros _ s2 [Hk2 Hf2]. split; [|unfold troubled; cbn; tauto]. cbn. split_and!; [done|done|lia|done|by apply Hld|done].
    + intros s2 Hb e. cbn in *. by apply (begins_tidy_raise closable P close_both _ _ _ tidy_close_both ltac:(tauto)); [unfold troubled; cbn; tauto|].
  - intros t [Hb Hc1] e. apply runs_bind, runs_try_err, runs_zoom. eapply runs_mono; [by apply (close_reader_keeps s1 d)| | |done].
    + intros _ s2 _. by apply (begins_tidy_raise closable P close_both _ _ _ tidy_close_both ltac:(tauto)); [intros _; tauto|].
    + intros s2 _ e2. by apply (begins_tidy_raise closable P close_both _ _ _ tidy_close_both ltac:(tauto)); [intros _; tauto|].
Qed.

Lemma resolve_startup_ok resolve l (h : H) : (forall id h, id ∈ l -> exists a, resolve id h = (inr a, h)) -> resolve_startup resolve l h = (Ok tt, h).
Proof.
  induction l as [|id l IH]; intros Hr; [done|]. cbn [resolve_startup]. destruct (Hr id h ltac:(by left)) as [a ->].
  apply IH. intros id' h' Hin. apply Hr. by right.
Qed.
End steps.

(** The configuration of a node with an identity and first members: it is complete, its
    voters have addresses, and the consensus core accepts it. *)
Record configured (cfg : NodeConfig H) (me : Z) (init : Membership) : Prop := {
  cg_valid : node_validate (defaults cfg) = None;
  cg_peers : forall id h, id ∈ nc_Voters (defaults cfg) ++ [nc_ID (defaults cfg)] -> exists a, startup_resolver (defaults cfg) id h = (inr a, h);
  cg_raft : validate (raft_config (defaults cfg) 0) = None;
  cg_me : nc_ID (defaults cfg) = me;
  cg_voters : normalizeVoters (nc_Voters (defaults cfg)) = Ok (Voters init)
}.

(** The machine, once opened, can be brought up to the snapshot of a durable state if it is
    behind it. *)
Definition can_load (t : T) (c : Z) (d : Durable) : Prop :=
  c < s_index (d_snap d) -> forall o t', machine_Open o t = (Ok tt, t') -> loadable (s_index (d_snap d)) (s_data (d_snap d)) t'.

(** The loop a node starts with. *)
Record started (cfg : NodeConfig H) (me : Z) (init : Membership) (d : Durable) (t : T) (c : Z) (x : mstate) (r : @Runtime S T) : Prop := {
  sd_step : in_step r;
  sd_keeps : keeps (store r) d;
  sd_dur : sans (dur (core (node r))) = sans d;
  sd_commit : commit (node r) = Z.max c (s_index (d_snap d));
  sd_contents : contents (machine r) = restored c d x;
  sd_sound : sound (machine r);
  sd_applied : machine_AppliedIndex (machine r) = commit (node r);
  sd_core : exists m, wf (resting me init (sans d) m) /\ core (node r) = restarted (Z.max c (s_index (d_snap d))) (resting me init (sans d) m);
  sd_machine : exists t1, machine_Open (nc_DBOptions (defaults cfg)) t = (Ok tt, t1) /\ brought_up c d t1 (machine r);
  sd_queues : (events r, deferred r, outgoing r, stopped r) = ([], [], [], false)
}.

Lemma StartNode_runs cfg h s t d c x me init : configured cfg me init -> at_rest s d -> startable me init (sans d) -> asleep t c x -> 0 <= c <= d_last d ->
  can_load t c d ->
  runs (StartNode cfg) (mkBoot h s t)
    (fun r _ => started cfg me init d t c x r)
    (fun _ => shut h \/ fallible s \/ mfallible t)
    (fun _ => True).
Proof.
  intros [Hv Hres Hraft Hme Hvoters] Hrest Hstart Hsleep Hc Hcan. set (P := shut h \/ fallible s \/ mfallible t). set (cf := defaults cfg) in *.
  assert (begins (fun _ => True) P (StartNode cfg) (mkBoot h s t) (fun r _ => started cfg me init d t c x r)) as Hb.
  2:{ eapply runs_mono; [by apply Hb| |done|done]. intros r b [? _]. done. }
  unfold StartNode. cbv zeta. fold cf. rewrite Hv.
  apply begins_bind, begins_host. eapply runs_catch, runs_mono; [apply mkdir_runs| |by intros h1 Hs e|done]. intros _ h1 [_ Hs1]. split; [|done].
  apply begins_bind, begins_host. unfold depends, runs. cbn [host bstore bmachine]. rewrite resolve_startup_ok by done. split; [|done].
  apply (begins_open closable). intros HP _. apply runs_catch, runs_zoom. eapply runs_mono; [by apply depends_eq, open_machine_runs| | |done].
  2:{ intros t1 Hf1 e. apply HP. right. by right. }
  intros [] t1 [[(Ht1 & Ha1 & Hx1) Hopen] Hf1]. split_and!; [by apply sound_closable| |revert HP; unfold troubled; cbn; tauto|done]. clear HP. cbn [host bstore bmachine].
  apply begins_bind, begins_failing; [apply tidy_close_machine|apply steady_store|]. apply begins_store. eapply runs_mono; [by apply open_store_runs| |done|done].
  intros _ s1 [(Hk1 & Hl1 & Hm1) Hf2]. split; [|done]. cbn [host bstore bmachine]. apply begins_gets. cbn [host bstore bmachine]. rewrite Hl1, Hm1.
  apply begins_bind. eapply begins_mono; [apply (begins_restore P _ d c); [done..|lia|intros Hlt; by eapply Hcan]|].
  intros _ [h2 s2 t2] (Hk2 & Ht2 & Ha2 & Hx2 & Hup). cbn [host bstore bmachine] in *. apply begins_gets. cbn [bmachine]. rewrite Ha2.
  apply begins_bind, begins_failing; [apply tidy_close_both|apply steady_of_res|]. destruct Hstart as [m Hw].
  destruct (New_spec (raft_config cf (Z.max c (s_index (d_snap d)))) _ Hw) as (n & En & Ecore); [exact Hraft|exact Hme|exact Hvoters| |].
  { cbn. unfold d_last, k_last in *. cbn. lia. }
  cbn [resting dur d_hard d_log d_snap hs_term hs_votedFor k_snap k_log k_term k_voted sans] in En.
  replace (mkHard (hs_term (d_hard d)) (hs_votedFor (d_hard d))) with (d_hard d) in En by (by destruct (d_hard d)).
  change (with_data [] (d_snap d)) with (metadata (d_snap d)) in En. rewrite En. intros HP HC. unfold runs, of_res. split; [|done]. clear HP HC.
  apply begins_bind, begins_failing; [apply tidy_close_both|apply steady_host|]. apply begins_host. eapply runs_mono; [apply listen_runs| |done|done].
  intros _ h3 [_ Hs3]. split; [|done]. cbn [host bstore bmachine]. apply begins_gets.
  assert (0 <? nc_TickInterval cf = true) as Htick by (apply Z.ltb_lt; cbn; unfold positive; destruct (Z.leb_spec (nc_TickInterval cfg) 0); lia).
  unfold Start. rewrite Htick. intros HP HC. unfold runs, catch, of_res. cbn [negb]. split; [|done]. cbn [node machine store id bstore bmachine].
  pose proof (f_equal dur Ecore) as Edur. pose proof (f_equal k_commit Ecore) as Ecm. cbn in Ecm.
  assert (sans (dur (core n)) = sans d) as Hsans by (rewrite Edur; by destruct d as [[] [] ?]).
  assert (wf (core n)) as Hwn by (rewrite Ecore; apply restarted_wf; [done|]; cbn; unfold d_last, k_last in *; cbn; lia).
  constructor; cbn [node machine store]; try done.
  - exists d. unfold due. cbn [node machine store]. split_and!; [done| |done|by rewrite Ecm]. by apply owes_nothing.
  - by rewrite Hx2, Hx1.
  - by rewrite Ecm.
  - by exists m.
  - by exists t1.
Qed.
End restart.

(** ** The store on its files *)

#[global] Instance file_node_store : NodeStore Raftstore.St := {
  store_Open := fun '(s, w) => match Raftstore.Open w with
    | (Ok s', w') => (Ok tt, (s', w'))
    | (Err e, w') => (Err e, (s, w'))
    | (Panic, w') => (Panic, (s, w'))
    | (Crash, w') => (Crash, (s, w'))
    end;
  store_Load st := Load st.1;
  store_SnapshotMetadata st := SnapshotMetadata st.1
}.

#[global] Instance file_store_opens : StoreOpens Raftstore.St.
Proof.
  refine (Build_StoreOpens Raftstore.St _ _ _ (fun st d => recovers (files st.2) d) _). intros [s w] d HR. cbn [snd] in HR.
  pose proof (store_Open_safe w w d (reflexivity w) HR) as H. unfold safe, runs in H. unfold depends, runs, store_Open, file_node_store.
  destruct (Raftstore.Open w) as [[s'|e| |] w']; [|by destruct H as (_ & _ & H)|done|done]. destruct H as ([l Hl] & _ & HH). split.
  - split; [exact HH|]. unfold store_Load, store_SnapshotMetadata, Load, SnapshotMetadata. cbn [fst].
    by rewrite (ho_hard _ _ _ HH), (ho_log _ _ _ HH), (ho_snap _ _ _ HH).
  - intros [k Hk]. exists k. cbn in *. rewrite Hl. set_solver.
Defined.

#[global] Instance file_store_rests : StoreRests Raftstore.St.
Proof.
  refine (Build_StoreRests Raftstore.St _ _ _ _ (fun st st0 => files st0.2 = files st.2) _ _).
  - intros [s w] [s0 w0] d Hk E. cbn in *. rewrite E. apply (ho_files _ _ _ Hk).
  - intros i [s w] d content size sum [s1 w1] Hk E. cbn in Hk. assert (i <> 0 /\ i = s_index (d_snap d)) as [Hi ->].
    { revert E. cbn. unfold OpenSnapshot, Raftstore.get, mbind, M_bind, gets. cbn [fst snd]. rewrite (ho_snap _ _ _ Hk). cbn [metadata s_index].
      destruct (Z.eqb_spec i 0) as [->|]; [done|]. by destruct (Z.eqb_spec i (s_index (d_snap d))) as [->|]. }
    pose proof (secure_depends _ _ _ _ _ (open_snapshot_secure s w d Hk Hi)) as H. unfold depends, runs in H. cbn in E. rewrite E in H.
    destruct H as [(? & ? & _) ?]. done.
Defined.

(** A crash at any call of Persist leaves a state a node starts from, the committed part of
    the log included. *)
Lemma crash_rests op n u n' src s w d : wf (core n) -> op_ok op (core n) -> run_op op n = (Ok u, n') ->
  (forall x, src = Some x -> source_error x = None) -> Stable.holds s (files w) d -> sans d = sans (dur (core n)) ->
  update_ok (streamed src u) d -> clean_install (streamed src u) d ->
  exists d', recovers (files (persist_update u src (s, w)).2.2) d' /\ crash_state (streamed src u) d d' /\ (exists e, crash_state u (dur (core n)) e /\ sans d' = sans e) /\
    startable (c_ID (cfg n)) (initialMembership n) (sans d') /\ commit n <= d_last d'.
Proof.
  intros Hw Hop Hrun Hsrc HH Hs Hu Hc. pose proof (persist_secure u src s w d Hsrc HH Hu) as H. unfold secure, runs in H.
  assert (exists d', recovers (files (persist_update u src (s, w)).2.2) d' /\ crash_state (streamed src u) d d') as (d' & HR & Hd).
  { destruct (persist_update u src (s, w)) as [[[]|e| |] [s' w']]; cbn [fst snd] in *; [| |done|].
    - exists (persist (streamed src u) d). split; [by apply H|]. right; right; right. exists (length (u_entries (streamed src u))).
      unfold after_entries. by rewrite persist_eq, firstn_all.
    - destruct H as (_ & HJ & _). destruct (HJ Hc) as (d' & ? & ?). eauto.
    - destruct H as (HJ & _). destruct (HJ Hc) as (d' & ? & ?). eauto. }
  destruct (crash_state_sans src u d (dur (core n)) d' Hd Hs) as (e & He & Ee). exists d'. split_and!; [done|done|eauto| |].
  - rewrite Ee. by eapply startable_sans, crash_startable.
  - eapply (crash_committed op n u n' (streamed src u) d); try done. unfold streamed. cbn. by intros ->.
Qed.

(** The files an update left, with other calls to come. *)
Definition left_by (x : res unit * St) (fts : list fate) : World := mkWorld (files x.2.2) fts.

Section crash.
Context {H T : Type} `{!Peers.Surroundings H} `{!Host H} `{!HostLaws H} `{!StateMachine T} `{!NodeMachine T} `{!MachineLaws T} `{!MachineOpens T}.

(** C14: A node that crashes while it makes an update stable starts again, in step with its
    store and its machine. The node performed an operation, its store (the files of
    raftstore) was in step with it, and Persist of the operation's update ended in any way:
    it returned, it failed, or the process crashed at one of its calls on the files. The
    update carries no snapshot the store would install, or it carries the first one of the
    store, taken of the store's own log ([clean_install]); for any other installation a crash
    between its two renames can lose entries (see [Stable.interrupted_install]). Then
    StartNode on the files left, with a machine that had applied at most what the node had
    committed and can load the snapshot if it is behind it, returns a loop whose node, store
    and machine are in step: its node has the term, vote and log of a state the update passes
    through, and has committed what the machine has applied or the snapshot covers. It fails
    only if a call on the host, the files or the machine may fail. *)
Theorem restart_after_crash op n u n' src s w d cfg h s0 t c x fts :
  wf (core n) -> op_ok op (core n) -> run_op op n = (Ok u, n') ->
  (forall x, src = Some x -> source_error x = None) -> Stable.holds s (files w) d -> sans d = sans (dur (core n)) ->
  update_ok (streamed src u) d -> clean_install (streamed src u) d ->
  configured cfg (c_ID (Node.cfg n)) (initialMembership n) -> asleep t c x -> 0 <= c <= commit n ->
  (forall d', crash_state (streamed src u) d d' -> can_load t c d') ->
  runs (StartNode cfg) (mkBoot h (s0, left_by (persist_update u src (s, w)) fts) t)
    (fun r _ => in_step r /\ exists e, crash_state u (dur (core n)) e /\ sans (dur (core (node r))) = sans e /\
       commit (node r) = Z.max c (s_index (d_snap e)))
    (fun _ => shut h \/ can_fail (left_by (persist_update u src (s, w)) fts) \/ mfallible t)
    (fun _ => True).
Proof.
  intros Hw Hop Hrun Hsrc HH Hs Hu Hc Hcfg Ht Hcc Hcan.
  destruct (crash_rests op n u n' src s w d Hw Hop Hrun Hsrc HH Hs Hu Hc) as (d' & HR & Hd' & (e & He & Ee) & Hst & Hl).
  eapply runs_mono; [exact (StartNode_runs cfg h (s0, left_by _ fts) t d' c x _ _ Hcfg HR Hst Ht ltac:(lia) (Hcan d' Hd'))| |done|done].
  intros r b [Hr _ Es Ec _ _ _ _ _ _]. split; [done|]. exists e. rewrite Es, Ec. split_and!; [done|done|].
  by rewrite (f_equal (fun d => s_index (d_snap d)) Ee : s_index (d_snap d') = s_index (d_snap e)).
Qed.
End crash.

(** ** Example *)

(** A host on which every call succeeds, and a machine that is kept. *)
#[global] Instance quiet_host : Host (Z * bytes) := { host_MkdirAll _ := mret tt; host_Listen _ := mret tt; host_CloseListener := mret tt }.
#[global] Instance quiet_host_laws : HostLaws (Z * bytes).
Proof. by refine (Build_HostLaws (Z * bytes) _ (fun _ => False) _ _ _). Defined.

(** A store that is kept. *)
#[global] Instance memory_node_store : NodeStore Durable :=
  { store_Open := mret tt; store_Load d := (d_hard d, d_log d); store_SnapshotMetadata d := metadata (d_snap d) }.
#[global] Instance memory_store_opens : StoreOpens Durable.
Proof. refine (Build_StoreOpens Durable _ _ _ (fun s d => s = d) _). by intros s d ->. Defined.

#[global] Instance memory_store_rests : StoreRests Durable.
Proof.
  refine (Build_StoreRests Durable _ _ _ _ (fun s s0 => s0 = s) _ _); [by intros s s0 d -> ->|].
  intros i s d content size sum s1 ->. cbn. unfold mbind, M_bind, gets, id. destruct (Z.eqb_spec (s_index (d_snap d)) i) as [<-|]; [|done]. by intros [= <- _ _ <-].
Defined.

#[global] Instance memory_node_machine : NodeMachine (Z * bytes) := { machine_Open _ := mret tt }.
#[global] Instance memory_machine_opens : MachineOpens (Z * bytes).
Proof. refine (Build_MachineOpens (Z * bytes) _ _ _ (fun t c x => t = (c, x)) _). by intros o t c x ->. Defined.

#[global] Instance memory_machine_rests : MachineRests (Z * bytes).
Proof.
  refine (Build_MachineRests (Z * bytes) _ _ _ _ (fun t t0 => t0 = t /\ 0 <= t.1) (fun t k x => t = (k, x) /\ 0 <= k) _ _ _ _ _).
  - intros [c x] t0 _ [-> H0]. exists c, x. cbn in *. by split.
  - intros t k x _ [-> H0]. cbn. lia.
  - intros i c [a y] t' k x _ _ _ Hr [-> H0]. right. injection Hr as <- <-. done.
  - intros i content [a y] t' k x _ _ _ Hr [-> H0]. injection Hr as <- <-. done.
  - intros o t t' c x k y -> [= <-] [E _]. by injection E as -> ->.
Defined.

Definition solo_config : NodeConfig (Z * bytes) :=
  mkNodeConfig 1 (str "a:1") [] (str "d") {[1 := str "a:1"]} None [] 0 10 20 2 0 0 None.

(** The store of a cluster of one that has elected its node. *)
Definition elected : Update := appending (mkHard 1 1) [mkEntry 1 1 []].
Definition solo_store : St := Stable.after elected first.

Lemma solo_holds : Stable.holds solo_store.1 (files solo_store.2) (dur (core solo_leader)).
Proof.
  assert (update_ok elected empty) as Hu.
  { assert (entry_valid (mkEntry 1 1 [])) as He by (split; [simpl; lia|simpl; lia|vm_compute; congruence]).
    split; [|done|done|done|by left|by split]. intros h [= <-]. split; simpl; lia. }
  pose proof (persist_secure elected None first.1 first.2 empty ltac:(done) first_holds Hu) as H. unfold secure, runs in H.
  replace (persist_update elected None (first.1, first.2)) with (Ok tt, solo_store) in H by (vm_compute; reflexivity).
  destruct H as (_ & _ & H). rewrite streamed_none in H. rewrite solo_leader_core. exact H.
Qed.

(** The crash cuts the record of the command short. *)
Definition cut_world : World := mkWorld (files solo_store.2) (replicate 1 Fine ++ [Crashes 7]).

Lemma solo_configured : configured solo_config (c_ID (Node.cfg solo_leader)) (initialMembership solo_leader).
Proof.
  split; [vm_compute; reflexivity| |vm_compute; reflexivity..]. intros id h Hin. exists (str "a:1").
  assert (id = 1) as -> by (vm_compute in Hin; set_solver). vm_compute. reflexivity.
Qed.

Lemma second_entry_writable ms cs : update_ok (mkUpdate None 0 [mkEntry 2 1 [Byte.x61]] ms cs false None []) (dur solo_core).
Proof.
  assert (entry_valid (mkEntry 2 1 [Byte.x61])) as He by (split; [simpl; lia|simpl; lia|vm_compute; congruence]).
  split; [done|done|done|done|by left|by split].
Qed.

Lemma one_command_writable : update_ok one_result.1 (dur (core solo_leader)).
Proof.
  replace one_result.1 with (mkUpdate None 0 [mkEntry 2 1 [Byte.x61]] (u_messages one_result.1) (u_committed one_result.1) false None [])
    by (vm_compute; reflexivity).
  rewrite solo_leader_core. apply second_entry_writable.
Qed.

(** What the crash leaves, and the node started on it. *)
#[local] Notation cut_end := (persist_update one_result.1 None (solo_store.1, cut_world)).
#[local] Notation solo_boot := (mkBoot (0, []) (no_store, left_by cut_end []) (1, [])).

(** A part of the value a computation returned. *)
Definition outcome {X A B} (f : A -> B) (x : res A * X) : option B := match x.1 with Ok a => Some (f a) | _ => None end.

Lemma runs_outcome {X A B} (f : A -> B) (m : M X A) s v Q E C : outcome f (m s) = Some v -> runs m s Q E C ->
  exists a s', m s = (Ok a, s') /\ Q a s' /\ f a = v.
Proof. unfold outcome, runs. destruct (m s) as [[a|e| |] s']; [|done..]. intros [= <-] HQ. eauto. Qed.

Lemma solo_starts : outcome (fun r => (sans (dur (core (node r))), commit (node r))) (StartNode solo_config solo_boot) =
  Some (sans (dur (core solo_leader)), 1).
Proof. vm_compute. reflexivity. Qed.

Lemma restart_after_crash_witness : cut_end.1 = Crash /\
  exists r b, StartNode solo_config solo_boot = (Ok r, b) /\
    (in_step r /\ exists e, crash_state one_result.1 (dur (core solo_leader)) e /\ sans (dur (core (node r))) = sans e /\
       commit (node r) = Z.max 1 (s_index (d_snap e))) /\
    (sans (dur (core (node r))), commit (node r)) = (sans (dur (core solo_leader)), 1).
Proof.
  split; [vm_compute; reflexivity|]. eapply runs_outcome; [exact solo_starts|].
  refine (restart_after_crash one_command solo_leader one_result.1 one_result.2 None solo_store.1 cut_world (dur (core solo_leader))
    solo_config (0, []) no_store (1, []) 1 [] [] solo_leader_wf one_command_ok one_command_runs ltac:(done) solo_holds eq_refl _ _ solo_configured eq_refl _ _).
  - rewrite streamed_none. apply one_command_writable.
  - intros sn Hsn. vm_compute in Hsn. discriminate.
  - vm_compute. split; discriminate.
  - intros d' _ _ o t' _. exact I.
Defined.

End Restart.
