(* ===== verification/KvMachine.v ===== *)
(** * The key-value machine of a node

    The state machine a node of src/cluster runs is the one of internal/kvstate, on an LSM
    store in a directory of its own. Shown: it keeps the promises the event loop is proved
    against, so a node with the files of raftstore and with this machine is in step after
    every turn and after every start; and a snapshot one machine writes gives another
    machine its state. *)

From Stdlib Require Import FunctionalExtensionality.
From S2P Require Import Prelude GoStd Fs Memtable Bloom Wal Sstable Heap Compact Json Manifest Db Recovery Reopen Durability Replica Snapshot Transfer Kvstate Membership RaftTypes RaftNode RaftCore RaftRefine RaftHandlers RaftOps RaftApi RaftCluster Raftstore Stable Runtime Loop InStep Peers Startup.

Module KvMachine.
Import Sstable Manifest Db Recovery Reopen Durability Replica Snapshot Transfer.

(** No call fails; a crash may come at any point. *)
#[local] Existing Instance crashes.
#[local] Canonical Structure crashes.

Section machine.
Context {BS : BloomSizing} {C : Kvstate.CommandCodec}.

(** ** The machine as the event loop sees it *)

(** What the function handed to PersistSnapshot writes: the stream of the machine, or the
    error it ends with, and the index the machine says. *)
Definition snapshot_source (db : DB) : Raftstore.Source * Z :=
  match Kvstate.WriteSnapshot append_writer db [] with
  | Ok (out, index) => (Raftstore.mkSource [out] None, index)
  | Err e => (Raftstore.mkSource [] (Some e), 0)
  | Panic | Crash => (Raftstore.mkSource [] (Some "panic"%string), 0)
  end.

#[global] Instance kv_machine : StateMachine Db.St := {
  machine_Apply := Kvstate.Apply;
  machine_AppliedIndex t := Kvstate.Machine_AppliedIndex t.1;
  machine_WriteSnapshot t := snapshot_source t.1;
  machine_RestoreSnapshot := Kvstate.RestoreSnapshot;
  machine_Close := Kvstate.Close
}.

#[global] Instance kv_node_machine : NodeMachine Db.St := {
  machine_Open o := fun '(db, w) =>
    match Kvstate.Open o w with
    | (Ok db', w') => (Ok tt, (db', w'))
    | (Err e, w') => (Err e, (db, w'))
    | (Panic, w') => (Panic, (db, w'))
    | (Crash, w') => (Crash, (db, w'))
    end
}.

(** ** Room *)

(** The bytes of the records of a handle. *)
Definition stored (db : DB) : option Z :=
  match mapM LoadAll (readers db) with
  | Ok ls => Some (Z.of_nat (length (data (MemTable.SortedEntries (mem db) ++ concat ls))))
  | _ => None
  end.

Lemma stored_weight db w D : Inv db w D -> stored db = Some (weight db D).
Proof. intros Hi. unfold stored. by rewrite (Compact.load_all _ _ (inv_reads _ _ _ Hi)). Qed.

(** Room for so many bytes and so many commands more. *)
Definition roomy (bytes cmds : Z) (db : DB) : bool :=
  match stored db with
  | Some n => (n + bytes <? 2 ^ 50) && (nextSST db + 2 * cmds <? 2 ^ 63) && (appliedIndex db + cmds + 1 <? 2 ^ 64)
  | None => false
  end.

Lemma roomy_budget bytes cmds db w D : Inv db w D -> roomy bytes cmds db = true <-> rbudget bytes cmds db D.
Proof.
  intros Hi. unfold roomy, rbudget. rewrite (stored_weight db w D Hi), (inv_next _ _ _ Hi), !andb_true_iff, !Z.ltb_lt. tauto.
Qed.

(** ** The contents of a snapshot *)

Fixpoint decode_pairs (fuel : nat) (rest previous : bytes) : list KVPair :=
  match fuel with
  | O => []
  | S fuel' =>
      match read_snapshot_record rest previous with
      | Ok (key, value, rest') => mkKV key value :: decode_pairs fuel' rest' key
      | _ => []
      end
  end.

Definition decode (content : bytes) : list KVPair :=
  let rest := drop 16 content in decode_pairs (length rest) rest [].

Lemma decode_pairs_ok pairs : forall fuel previous, key_sorted kv_key pairs -> Forall (fun p => kv_key p <> []) pairs ->
  Forall (fun p => Z.of_nat (length (kv_key p)) <= maxReplicaSnapshotField /\ Z.of_nat (length (kv_value p)) <= maxReplicaSnapshotField) pairs ->
  (forall p, p ∈ pairs -> key_lt previous (kv_key p)) -> (length pairs <= fuel)%nat ->
  decode_pairs fuel (concat (snapshot_record_bytes <$> pairs)) previous = pairs.
Proof.
  induction pairs as [|p pairs IH]; intros fuel previous Hs Hk Hz Hp Hf.
  { by destruct fuel. }
  destruct fuel as [|fuel]; [simpl in Hf; lia|]. inv Hs. inv Hk. inv Hz. destruct H5. rewrite fmap_cons, concat_cons. cbn [decode_pairs].
  rewrite read_snapshot_record_ok by (done || apply Hp; left). destruct p as [k v]. f_equal. cbn [kv_key kv_value] in *.
  apply IH; [done|done|done| |simpl in Hf; lia]. intros q Hq. rewrite Forall_forall in H2. by apply H2.
Qed.

Lemma decode_snapshot pairs : pairs_ok pairs -> decode (snapshot_bytes pairs) = pairs.
Proof.
  intros [Hs Hk Hz _]. unfold decode, snapshot_bytes. rewrite app_assoc, drop_app_length'; [|by rewrite length_app, length_PutUint64].
  apply decode_pairs_ok; [done..| |].
  - intros p Hp. apply key_lt_nil. rewrite Forall_forall in Hk. by apply Hk.
  - clear. induction pairs as [|p l IH]; [done|]. rewrite fmap_cons, concat_cons, length_app. unfold snapshot_record_bytes at 1.
    rewrite !length_app, length_PutUint32. simpl. lia.
Qed.

Lemma pairs_map_elem pairs k v : key_sorted kv_key pairs -> pairs_map pairs k = Some v <-> mkKV k v ∈ pairs.
Proof.
  induction pairs as [|p pairs IH]; intros Hs; [split; [done|by intros ?%not_elem_of_nil]|]. inv Hs. cbn [pairs_map]. rewrite elem_of_cons.
  destruct (key_eqb (kv_key p) k) eqn:E; key_bools.
  - split; [intros [= <-]; left; by destruct p, E|]. intros [<-|Hin]; [done|]. exfalso. rewrite Forall_forall in H2.
    specialize (H2 _ Hin). cbn in H2. subst k. key_order.
  - rewrite IH by done. split; [by right|]. intros [<-|?]; [done|done].
Qed.

(** ** The promises of the machine *)

Definition kv_contents (t : Db.St) : bytes -> option bytes := fun k => (Db.Get t.1 k).2.
Definition kv_load (content : bytes) : bytes -> option bytes := pairs_map (decode content).

(** An open store that follows a log, on files whose calls do not fail, with room to be
    closed. *)
Definition kv_sound (t : Db.St) : Prop :=
  crash_only t.2 /\ roomy 0 1 t.1 = true /\ exists V i h D, Inv t.1 t.2 D /\ tracked V i h t.1 D.

(** The entry is a command of a client, or empty, and there is room for its records. *)
Definition kv_accepts (i : Z) (c : bytes) (t : Db.St) : Prop :=
  Kvstate.valid_entry c = true /\ roomy (Kvstate.entry_size c) 2 t.1 = true.

(** The content is the stream of a snapshot. *)
Definition kv_loadable (i : Z) (content : bytes) (t : Db.St) : Prop :=
  (exists pairs, content = snapshot_bytes pairs /\ pairs_ok pairs) /\ 0 < i /\ i + 2 < 2 ^ 64 /\ nextSST t.1 + 3 < 2 ^ 63.

(** The fields of the records fit those of a snapshot. *)
Definition kv_writable (t : Db.St) : Prop := exists pairs, ExportReplicaState t.1 = Ok pairs /\ pairs_ok pairs.

Lemma sound_contents V i h db w D : Inv db w D -> tracked V i h db D -> kv_contents (db, w) = foldl apply_batch V h.
Proof.
  intros Hi Ht. apply functional_extensionality. intros k. unfold kv_contents. cbn [fst]. rewrite (Get_Mview db w D k Hi).
  apply (tr_map _ _ _ _ _ Ht).
Qed.

Lemma keeps_fails_to {A} (C' : Db.St -> Prop) J (m : M Db.St A) t (Q : A -> Db.St -> Prop) :
  Recovery.keeps J m t (fun a t' => crash_only t'.2 -> Q a t') -> fails_to (fun _ => False) C' m t Q.
Proof. intros H. eapply runs_mono; [exact H| |done|done]. intros a t' (Hg & _ & HQ). split; [auto|done]. Qed.

Lemma kv_apply_runs i c t : kv_sound t -> kv_accepts i c t -> i = machine_AppliedIndex t + 1 ->
  fails_to (fun _ => False) kv_sound (machine_Apply i c) t (fun _ t' =>
    kv_sound t' /\ machine_AppliedIndex t' = i /\ kv_contents t' = Kvstate.apply_entry (kv_contents t) c).
Proof.
  destruct t as [db w]. intros (Hg & _ & V & i0 & h & D & Hi & Ht) [Hv Hr] ->. cbn [fst snd] in *.
  rewrite (roomy_budget _ _ _ _ _ Hi) in Hr. unfold rbudget in Hr.
  eapply keeps_fails_to, keeps_mono; [apply (Kvstate.Apply_keeps V i0 h db w D c Hi Ht Hg Hv); unfold rbudget; lia|intros fs Hfs; exact Hfs|].
  intros [] [db' w'] _ (D' & Hi' & Ht' & Hs & _) Hg'. cbn [fst snd] in *. unfold rspent in Hs. split_and!.
  - split_and!; [done| |by eexists _, _, _, D']. cbn [fst]. rewrite (roomy_budget _ _ _ _ _ Hi'). unfold rbudget. lia.
  - pose proof (tr_index _ _ _ _ _ Ht') as E'. pose proof (tr_index _ _ _ _ _ Ht) as E. rewrite length_app in E'. simpl in E'.
    change (appliedIndex db' = appliedIndex db + 1). lia.
  - rewrite (sound_contents _ _ _ _ _ _ Hi' Ht'), (sound_contents _ _ _ _ _ _ Hi Ht), foldl_app. done.
Qed.

Lemma tracked_replaced pairs index next t : replaced_by pairs index next t ->
  exists D, Inv t.1 t.2 D /\ tracked (pairs_map pairs) index [] t.1 D /\ weight t.1 D < 2 ^ 50.
Proof.
  intros (D & Hi & Hm & HM & HV & Ha & Hai & Hd & _ & Hw). exists D. split_and!; [done| |done]. split; [done| |done|simpl; lia].
  exists 0%nat. split_and!; [simpl; lia|done|lia].
Qed.

Lemma kv_restore_runs i content t : kv_sound t -> kv_loadable i content t -> machine_AppliedIndex t < i ->
  fails_to (fun _ => False) kv_sound (machine_RestoreSnapshot i (Z.of_nat (length content)) content) t (fun _ t' =>
    kv_sound t' /\ machine_AppliedIndex t' = i /\ kv_contents t' = kv_load content).
Proof.
  destruct t as [db w]. intros (Hg & _ & V & i0 & h & D & Hi & Ht) ((pairs & -> & Hp) & H0 & H1 & H2) Hlt. cbn [fst snd] in *.
  change (appliedIndex db < i) in Hlt. pose proof (inv_next _ _ _ Hi) as En.
  eapply keeps_fails_to, keeps_mono; [apply (ReplaceReplicaSnapshot_atomic db w D i pairs Hi (tr_mode _ _ _ _ _ Ht) Hp Hg); lia|intros fs Hfs; exact Hfs|].
  intros [] [db' w'] _ Hr Hg'. destruct (tracked_replaced _ _ _ _ Hr) as (D' & Hi' & Ht' & Hw). destruct Hr as (_ & _ & _ & _ & _ & _ & Ha & _ & Hn & _).
  cbn [fst snd] in *.
  split_and!; [|exact Ha|].
  - split_and!; [done| |by eexists _, _, _, D']. rewrite (roomy_budget _ _ _ _ _ Hi'). unfold rbudget. rewrite <- (inv_next _ _ _ Hi'). lia.
  - unfold kv_load. rewrite decode_snapshot by done. by rewrite (sound_contents _ _ _ _ _ _ Hi' Ht').
Qed.

(** The stream a machine writes, and the map it stands for. *)
Lemma written_snapshot t : kv_sound t -> kv_writable t -> 0 < machine_AppliedIndex t -> exists pairs, pairs_ok pairs /\
  snapshot_source t.1 = (Raftstore.mkSource [snapshot_bytes pairs] None, machine_AppliedIndex t) /\ pairs_map pairs = kv_contents t.
Proof.
  destruct t as [db w]. intros (Hg & Hr & V & i0 & h & D & Hi & Ht) (pairs & Hex & Hp) Ha. cbn [fst snd] in *.
  rewrite (roomy_budget _ _ _ _ _ Hi) in Hr. unfold rbudget in Hr. change (0 < appliedIndex db) in Ha. exists pairs.
  assert (replica db = true) as Hrep by (rewrite (inv_mode _ _ _ Hi); unfold d_replica; by rewrite (tr_mode _ _ _ _ _ Ht)).
  destruct (snapshot_stream_is_export db w D Hi Hrep ltac:(lia) ltac:(lia)) as (pairs' & Hex' & Hw & Hs & Hel).
  assert (pairs' = pairs) as -> by congruence. split_and!; [done| |].
  - unfold snapshot_source, Kvstate.WriteSnapshot. by rewrite Hw.
  - apply functional_extensionality. intros k. unfold kv_contents. cbn [fst]. rewrite (Get_Mview db w D k Hi). apply option_eq. intros v.
    rewrite <- Hel. by apply pairs_map_elem.
Qed.

Lemma f_Close_runs w : runs f_Close w (fun _ _ => True) (fun _ => True) (fun _ => True).
Proof. unfold runs, f_Close, sys. by destruct (next_fate w) as [[] w']. Qed.

(** Closing flushes what is not yet in a table. *)
Lemma close_tables_runs (s : Db.St) : log s.1 = None -> runs close_all s (fun _ _ => True) (fun _ => False) (fun _ => True).
Proof.
  intros Hl. unfold close_all. apply runs_bind. unfold runs at 1. cbn [get_db gets fst]. rewrite Hl. apply runs_bind.
  match goal with |- runs (?go _) _ _ _ _ => assert (forall rs s, runs (go rs) s (fun _ _ => True) (fun _ => False) (fun _ => True)) as Hgo end.
  { induction rs as [|r rs IH]; intros s'; [done|].
    apply runs_bind, runs_try_err, runs_zoom. eapply runs_mono; [apply f_Close_runs| | |done]; [intros ? w' _|intros w' _ e].
    all: apply runs_bind; by eapply runs_mono; [apply IH|..]. }
  eapply runs_mono; [apply Hgo|done|done|done].
Qed.

Lemma kv_close_runs t : kv_sound t -> runs machine_Close t (fun _ _ => True) (fun _ => True) (fun _ => True).
Proof.
  destruct t as [db w]. intros (Hg & Hr & V & i0 & h & D & Hi & Ht). cbn [fst snd] in *. rewrite (roomy_budget _ _ _ _ _ Hi) in Hr. unfold rbudget in Hr.
  cbn [machine_Close kv_machine]. unfold Kvstate.Close, Db.Close. apply runs_bind. unfold runs at 1. cbn [get_db gets fst].
  destruct (closed db); [done|]. pose proof (tr_mode _ _ _ _ _ Ht) as Hm.
  assert (replica db = true) as -> by (rewrite (inv_mode _ _ _ Hi); unfold d_replica; by rewrite Hm).
  apply runs_bind. eapply runs_mono; [apply (flush_keeps db w D Hi Hg); split; lia| |done|done].
  intros [] [db' w'] (_ & _ & D' & Hi' & _ & _ & _ & _ & Ho & _). cbn [fst snd] in *. pose proof (d_wal_opts _ _ _ _ _ _ Hi Hi' Ho Hm) as Hm'.
  apply runs_bind, runs_modify, runs_bind. eapply runs_mono; [apply close_tables_runs| |done|done].
  - cbn. by rewrite (inv_log _ _ _ Hi'), Hm'.
  - intros [e|] s' _; done.
Qed.

#[global] Instance kv_machine_laws : MachineLaws Db.St.
Proof.
  refine (Build_MachineLaws Db.St _ (bytes -> option bytes) kv_sound (fun _ => False) kv_contents
    (fun _ c V => Kvstate.apply_entry V c) kv_load kv_accepts kv_loadable kv_writable kv_sound _ kv_apply_runs kv_restore_runs _ kv_close_runs).
  - done.
  - intros t Ht Hw Ha. destruct (written_snapshot t Ht Hw Ha) as (pairs & Hp & E & HM). cbn [machine_WriteSnapshot kv_machine]. rewrite E.
    cbn [Raftstore.source_error Raftstore.chunks concat]. rewrite app_nil_r. unfold kv_load. by rewrite decode_snapshot.
Defined.

(** ** Opening the machine *)

(** Files from which the machine is opened at an index, with a map. *)
Definition kv_asleep (t : Db.St) (c : Z) (V : bytes -> option bytes) : Prop :=
  crash_only t.2 /\ exists D torn, disk_ok D /\ d_wal D = None /\ on_disk D torn (files t.2) /\ torn_ok torn /\
    AppliedIndex (d_state D) = c /\ View D = V /\
    Z.of_nat (length (data (concat (tables D)))) < 2 ^ 50 /\ NextSST (d_state D) + 2 < 2 ^ 63 /\ c + 2 < 2 ^ 64.

#[global] Instance kv_machine_opens : MachineOpens Db.St.
Proof.
  refine (Build_MachineOpens Db.St _ _ _ kv_asleep _). intros o [db w] c V (Hg & D & torn & Hd & Hm & Ho & Ht & Hc & HV & Hz & Hn & Hb). cbn [snd] in *.
  assert (Mode (Kvstate.machine_options o) = mode_of D) as Hmo by (unfold mode_of; by rewrite Hm).
  pose proof (Open_safe w (Kvstate.machine_options o) D torn Hd Ho Ht Hmo) as H. unfold safe, runs in H. unfold depends, runs. cbn [machine_Open kv_node_machine].
  unfold Kvstate.Open. destruct (Open true (Kvstate.machine_options o) w) as [[db'|e| |] w']; [|by destruct H as (_ & _ & H); apply crash_only_cannot_fail in H|done|done].
  destruct H as (Hf & _ & Hi & HM & Ha). destruct (Ha Hm) as [Hai Hmem]. split; [|done].
  assert (weight db' D = Z.of_nat (length (data (concat (tables D))))) as Hw by (unfold weight; by rewrite Hmem).
  assert (tracked V c [] db' D) as Htr.
  { split; [done|exists 0%nat; split_and!; [simpl; lia|by rewrite HV|lia]|intros k; rewrite HM, HV; done|simpl; lia]. }
  split_and!; [|change (appliedIndex db' = c); lia|exact (sound_contents _ _ _ _ w' _ Hi Htr)].
  split_and!; [by eapply crash_only_follows| |by eexists _, _, _, D]. cbn [fst]. rewrite (roomy_budget _ _ _ _ _ Hi). unfold rbudget. lia.
Defined.

(** ** What a process that ends leaves *)

(** A handle and its files have one description. *)
Lemma Inv_unique db w w' D D' : Inv db w D -> Inv db w' D' -> d_wal D = None -> D' = D.
Proof.
  intros Hi Hi' Hm. destruct D as [st ts wl], D' as [st' ts' wl']. cbn in Hm. subst wl. f_equal.
  - pose proof (inv_manifest _ _ _ Hi). pose proof (inv_manifest _ _ _ Hi'). cbn in *. congruence.
  - pose proof (Compact.load_all _ _ (inv_reads _ _ _ Hi)) as E. rewrite (Compact.load_all _ _ (inv_reads _ _ _ Hi')) in E. injection E as E.
    unfold tables in E. cbn in E. pose proof (inv_readers _ _ _ Hi) as HF. pose proof (inv_readers _ _ _ Hi') as HF'. cbn in HF, HF'.
    clear -E HF HF'. revert ts' E HF'. induction HF as [|r [n l] rs ts [_ Hn] _ IH]; intros ts' E HF'; inversion HF' as [|? [n' l'] ? ts2 [_ Hn'] HF2]; subst; [done|].
    cbn in *. injection E as -> E. f_equal; [congruence|by apply IH].
  - pose proof (inv_mode _ _ _ Hi) as E. rewrite (inv_mode _ _ _ Hi') in E. unfold d_replica in E. cbn in E. by destruct wl'.
Qed.

(** The index and the map of the tables. *)
Definition kv_remains (t : Db.St) (c : Z) (V : bytes -> option bytes) : Prop :=
  exists D, Inv t.1 t.2 D /\ d_wal D = None /\ AppliedIndex (d_state D) = c /\ View D = V.

(** The files stay, on a host that does not fail. *)
Definition kv_left (t t0 : Db.St) : Prop := files t0.2 = files t.2 /\ crash_only t0.2.

Lemma kv_left_asleep t t0 : kv_sound t -> kv_left t t0 -> exists c V, kv_remains t c V /\ kv_asleep t0 c V.
Proof.
  destruct t as [db w], t0 as [db0 w0]. intros (_ & Hr & V & i & h & D & Hi & Ht) [Hf Hg0]. cbn [fst snd] in *. exists (AppliedIndex (d_state D)), (View D).
  pose proof (tr_mode _ _ _ _ _ Ht) as Hm. split; [by exists D|]. rewrite (roomy_budget _ _ _ _ _ Hi) in Hr. unfold rbudget in Hr.
  destruct (inv_replica _ _ _ Hi Hm) as (H1 & H2 & _). split; [done|]. cbn [snd]. exists D, []. split_and!; try done; try lia.
  - apply (inv_ok _ _ _ Hi).
  - rewrite Hf. apply (inv_disk _ _ _ Hi).
  - apply torn_nil.
  - unfold weight in Hr. rewrite Sstable.data_app, length_app in Hr. lia.
Qed.

Lemma kv_remains_bounded t k V : kv_sound t -> kv_remains t k V -> 0 <= k <= machine_AppliedIndex t.
Proof.
  intros _ (D & Hi & Hm & <- & _). destruct (inv_replica _ _ _ Hi Hm) as (H1 & H2 & _).
  pose proof (st_applied _ (dk_state _ (inv_ok _ _ _ Hi))) as H3. change (machine_AppliedIndex t) with (appliedIndex t.1). lia.
Qed.

Lemma View_contents t D : Inv t.1 t.2 D -> (forall k, View D k = Mview t.1 D k) -> View D = kv_contents t.
Proof.
  intros Hi H. apply functional_extensionality. intros k. unfold kv_contents. by rewrite H, (Get_Mview t.1 t.2 D k Hi).
Qed.

Lemma kv_remains_apply i c t t' k V : kv_sound t -> kv_accepts i c t -> i = machine_AppliedIndex t + 1 -> machine_Apply i c t = (Ok tt, t') ->
  kv_remains t' k V -> kv_remains t k V \/ k = i /\ V = kv_contents t'.
Proof.
  destruct t as [db w]. intros (Hg & _ & V0 & i0 & h & D & Hi & Ht) [Hv Hr] -> Hok (D2 & Hi2 & Hm2 & <- & <-). cbn [fst snd] in *.
  rewrite (roomy_budget _ _ _ _ _ Hi) in Hr. unfold rbudget in Hr.
  pose proof (Kvstate.Apply_keeps V0 i0 h db w D c Hi Ht Hg Hv) as H. unfold rbudget in H. specialize (H ltac:(lia)). unfold Recovery.keeps, runs in H.
  change (machine_AppliedIndex (db, w)) with (appliedIndex db) in *. cbn [machine_Apply kv_machine] in Hok. rewrite Hok in H.
  destruct H as (_ & _ & D' & Hi' & Ht' & _ & Hmv). rewrite (Inv_unique _ _ _ _ _ Hi' Hi2 (tr_mode _ _ _ _ _ Ht')) in *. clear D2 Hi2 Hm2.
  destruct Hmv as [[HV HA]|[HV HA]]; [left; exists D; split_and!; [done|apply (tr_mode _ _ _ _ _ Ht)|done|by apply functional_extensionality]|right].
  pose proof (tr_index _ _ _ _ _ Ht') as E'. pose proof (tr_index _ _ _ _ _ Ht) as E. rewrite length_app in E'. simpl in E'.
  split; [lia|by apply View_contents].
Qed.

Lemma kv_remains_restore i content t t' k V : kv_sound t -> kv_loadable i content t -> machine_AppliedIndex t < i ->
  machine_RestoreSnapshot i (Z.of_nat (length content)) content t = (Ok tt, t') -> kv_remains t' k V -> k = i /\ V = kv_contents t'.
Proof.
  destruct t as [db w]. intros (Hg & _ & V0 & i0 & h & D & Hi & Ht) ((pairs & -> & Hp) & H0 & H1 & H2) Hlt Hok (D2 & Hi2 & Hm2 & <- & <-). cbn [fst snd] in *.
  change (appliedIndex db < i) in Hlt. pose proof (inv_next _ _ _ Hi) as En.
  pose proof (ReplaceReplicaSnapshot_atomic db w D i pairs Hi (tr_mode _ _ _ _ _ Ht) Hp Hg ltac:(lia) ltac:(lia) ltac:(lia) ltac:(lia)) as H.
  unfold Recovery.keeps, runs in H. cbn [machine_RestoreSnapshot kv_machine] in Hok. unfold Kvstate.RestoreSnapshot in Hok. rewrite Hok in H.
  destruct H as (_ & _ & D' & Hi' & Hm' & HM & HV & HA & _). rewrite (Inv_unique _ _ _ _ _ Hi' Hi2 Hm') in *. split; [done|].
  apply View_contents; [done|]. intros q. by rewrite HV, HM.
Qed.

Lemma kv_remains_open o t t' c V k V' : kv_asleep t c V -> machine_Open o t = (Ok tt, t') -> kv_remains t' k V' -> k = c /\ V' = V.
Proof.
  destruct t as [db w]. intros (Hg & D & torn & Hd & Hm & Ho & Ht & <- & <- & _) Hok (D2 & Hi2 & Hm2 & <- & <-). cbn [snd] in *.
  assert (Mode (Kvstate.machine_options o) = mode_of D) as Hmo by (unfold mode_of; by rewrite Hm).
  pose proof (Open_safe w (Kvstate.machine_options o) D torn Hd Ho Ht Hmo) as H. unfold safe, runs in H. cbn [machine_Open kv_node_machine] in Hok.
  unfold Kvstate.Open in Hok. destruct (Open true (Kvstate.machine_options o) w) as [[db'|e| |] w']; [|done..]. injection Hok as <-.
  destruct H as (_ & _ & Hi & _). cbn [fst snd] in *. by rewrite (Inv_unique _ _ _ _ _ Hi Hi2 Hm).
Qed.

#[global] Instance kv_machine_rests : MachineRests Db.St :=
  Build_MachineRests Db.St _ _ _ _ kv_left kv_remains kv_left_asleep kv_remains_bounded kv_remains_apply kv_remains_restore kv_remains_open.

(** ** Copying a machine *)

(** C16: A snapshot copies a machine. What one machine streams with WriteSnapshot, merged from
    its memtable and its tables, another machine that is behind it takes with
    RestoreSnapshot: it returns with exactly the map of the first, the clients' sessions
    included, at its index, and goes on from there as a sound machine. It neither fails nor
    panics, and at a crash at any call on the files they give back the machine's own
    state or the one of the snapshot. *)
Theorem snapshot_copies t t' D : kv_sound t -> kv_writable t -> 0 < machine_AppliedIndex t ->
  kv_sound t' -> Inv t'.1 t'.2 D -> d_wal D = None -> machine_AppliedIndex t' < machine_AppliedIndex t ->
  machine_AppliedIndex t + 2 < 2 ^ 64 -> nextSST t'.1 + 3 < 2 ^ 63 ->
  let '(src, i) := machine_WriteSnapshot t in let content := concat (Raftstore.chunks src) in
  Raftstore.source_error src = None /\ i = machine_AppliedIndex t /\
  runs (machine_RestoreSnapshot i (Z.of_nat (length content)) content) t'
    (fun _ t2 => kv_sound t2 /\ machine_AppliedIndex t2 = i /\ kv_contents t2 = kv_contents t) (fun _ => False)
    (fun t2 => recoverable true (View D) (AppliedIndex (d_state D)) (files t2.2) \/ recoverable true (kv_contents t) i (files t2.2)).
Proof.
  intros Ht Hw Ha Ht' Hi Hm Hlt H1 H2. destruct (written_snapshot t Ht Hw Ha) as (pairs & Hp & E & HM).
  change (machine_WriteSnapshot t) with (snapshot_source t.1). rewrite E. cbv zeta. cbn [Raftstore.source_error Raftstore.chunks concat]. rewrite app_nil_r.
  split_and!; [done|done|]. set (i := machine_AppliedIndex t) in *.
  assert (kv_loadable i (snapshot_bytes pairs) t') as Hl by (split_and!; [by exists pairs|done|done|done]).
  pose proof (kv_restore_runs i (snapshot_bytes pairs) t' Ht' Hl Hlt) as Hok. unfold kv_load in Hok. rewrite decode_snapshot, HM in Hok by done.
  destruct t' as [db' w']. cbn [fst snd] in *. change (appliedIndex db' < i) in Hlt. pose proof (inv_next _ _ _ Hi) as En.
  pose proof (ReplaceReplicaSnapshot_atomic db' w' D i pairs Hi Hm Hp (proj1 Ht') ltac:(lia) Ha ltac:(lia) ltac:(lia)) as Hcr.
  unfold fails_to, Recovery.keeps, runs in *. cbn [machine_RestoreSnapshot kv_machine] in *. unfold Kvstate.RestoreSnapshot in *.
  destruct (ReplaceReplicaSnapshot i _ _ _) as [[[]|e| |] t2]; [apply Hok|done|done|]. unfold old_or_snapshot in Hcr. by rewrite HM in Hcr.
Qed.

End machine.

(** ** Example *)

(** A machine at index 1 and one that has nothing, whose host crashes. *)
Definition ahead : Db.St := (batched_handle, mkWorld replica_files []).
Definition behind : Db.St := (replica_handle, mkWorld replica_files [Fine; Fine; Crashes 3]).

Lemma replica_tracked : tracked (View replica_disk) 0 [] replica_handle replica_disk.
Proof.
  split; [done|exists 0%nat; split_and!; [simpl; lia|done|done]| |done]. intros k. vm_compute. reflexivity.
Qed.

Lemma ahead_sound : @kv_sound demo_sizing ahead.
Proof.
  split; [apply crash_onlyb_spec; vm_compute; reflexivity|]. split; [vm_compute; reflexivity|].
  exists (View replica_disk), 0, ([] ++ [demo_batch]), replica_disk. split; [apply batched_inv|].
  refine (@tracked_batched demo_sizing _ _ _ replica_handle (mkWorld replica_files []) _ demo_batch (replica_inv _) replica_tracked _ _); vm_compute; reflexivity.
Qed.

Lemma behind_sound : @kv_sound demo_sizing behind.
Proof.
  split; [apply crash_onlyb_spec; vm_compute; reflexivity|]. split; [vm_compute; reflexivity|].
  exists (View replica_disk), 0, [], replica_disk. split; [apply replica_inv|apply replica_tracked].
Qed.

Lemma ahead_writable : kv_writable ahead.
Proof.
  destruct (ExportReplicaState batched_handle) as [pairs| | |] eqn:E; [|vm_compute in E; discriminate..]. exists pairs. split; [exact E|].
  vm_compute in E. injection E as <-. split.
  - repeat constructor.
  - repeat constructor; discriminate.
  - change maxReplicaSnapshotField with 67108864. repeat constructor; simpl; lia.
  - by vm_compute.
Qed.

Lemma snapshot_copies_witness :
  let '(src, i) := @snapshot_source batched_handle in let content := concat (Raftstore.chunks src) in
  Raftstore.source_error src = None /\ i = 1 /\
  runs (@Kvstate.RestoreSnapshot demo_sizing i (Z.of_nat (length content)) content) behind
    (fun _ t2 => @kv_sound demo_sizing t2 /\ appliedIndex t2.1 = i /\ kv_contents t2 = kv_contents ahead) (fun _ => False)
    (fun t2 => @recoverable demo_sizing true (View replica_disk) 0 (files t2.2) \/ @recoverable demo_sizing true (kv_contents ahead) i (files t2.2)).
Proof.
  pose proof (@snapshot_copies demo_sizing Kvstate.demo_codec ahead behind replica_disk ahead_sound ahead_writable ltac:(vm_compute; reflexivity)
    behind_sound (replica_inv _) eq_refl ltac:(vm_compute; reflexivity) ltac:(vm_compute; reflexivity) ltac:(vm_compute; reflexivity)) as H. exact H.
Defined.

End KvMachine.
