(* ===== verification/Replicas.v ===== *)
(** * Replicas agree

    A cluster of whole nodes: every node is an event loop of internal/raftnode with its
    stable store and its state machine, started by StartNode of src/cluster, and what the
    loops send is delivered, in any order, any number of times or never. Shown: the state
    machines stay replicas of one another, through elections, appends, compactions, installed
    snapshots and restarts of the nodes. *)

From S2P Require Import Prelude GoStd Fs Db Json Membership RaftTypes RaftNode RaftCore RaftRefine RaftHandlers RaftOps RaftApi RaftInv RaftSteps RaftCluster Raftstore Stable Runtime Loop InStep Peers Startup Sstable Kvstate KvMachine.

Module Replicas.
Import Raftstore Stable Membership Raft Node Core Refine Handlers Ops Api Inv Steps Cluster Runtime Loop InStep Startup Starting Restart.

(** ** The history without its messages *)

Section net.
Context (m0 : Membership).

Lemma Inv_split cs net g : Inv m0 cs net g <-> Inv m0 cs [] g /\ Forall (message_ok m0 g) net.
Proof. split; [intros []; split; [by split|done]|]. intros [[] ?]. by split. Qed.
End net.

Section watch.
Context {S T : Type} `{!StableStore S} `{!NodeStore S} `{!StoreLaws S} `{!StoreOpens S} `{!StoreRests S}
  `{!StateMachine T} `{!NodeMachine T} `{!MachineLaws T} `{!MachineOpens T} `{!MachineRests T}.
Context (voters : list Z) (Hvoters : voters_ok voters) (x0 : mstate).
Notation m0 := (mkMembership voters [] 0).
Notation Inv := (Inv m0).
Notation committed := (committed m0).
Notation message_ok := (message_ok m0).

(** ** Images of the committed log *)

(** The contents of a machine that has applied a committed log from the start. *)
Definition image (g : Ghost) (k : Z) (x : mstate) : Prop :=
  exists t l, committed g t l /\ Z.of_nat (length l) = k /\ x = foldl apply_entry x0 l.

Definition imaged (g : Ghost) (d : Durable) : Prop :=
  0 < s_index (d_snap d) -> image g (s_index (d_snap d)) (load (s_data (d_snap d))).

Definition images (g : Ghost) (t : T) : Prop :=
  image g (machine_AppliedIndex t) (contents t) /\ forall k x, remains t k x -> image g k x.

Lemma image_extends g g' k x : extends g g' -> image g k x -> image g' k x.
Proof. intros X (t & l & Hc & Hl & Hx). exists t, l. split; [by eapply x_committed|done]. Qed.

Lemma imaged_extends g g' d : extends g g' -> imaged g d -> imaged g' d.
Proof. intros X H Hi. eapply image_extends; [done|auto]. Qed.

Lemma images_extends g g' t : extends g g' -> images g t -> images g' t.
Proof. intros X [H1 H2]. split; [by eapply image_extends|]. intros k x Hr. eapply image_extends; [done|auto]. Qed.

(** An image that is behind another is the image of a part of its log. *)
Lemma image_prefix cs net g k x t l : Inv cs net g -> image g k x -> committed g t l -> k <= Z.of_nat (length l) ->
  x = foldl apply_entry x0 (take (Z.to_nat k) l).
Proof.
  intros HI (t' & l' & Hc & Hl & ->) Hc' Hk. f_equal.
  assert (l' `prefix_of` l) as [r ->].
  { destruct (committed_comparable _ HI _ _ _ _ Hc Hc') as [?|Hp]; [done|]. pose proof (prefix_length _ _ Hp).
    destruct Hp as [r ->]. rewrite length_app in *. destruct r; [by rewrite app_nil_r|simpl in *; lia]. }
  rewrite take_app_length'; [done|lia].
Qed.

(** ** The machine applies the committed log *)

Lemma ran {A} (m : M T A) t t' a bad left Q : fails_to bad left m t Q -> m t = (Ok a, t') -> Q a t'.
Proof. intros H E. unfold fails_to, runs in H. rewrite E in H. apply H. Qed.

Lemma apply_images g tm es : forall t t' la, images g t -> sound t -> takes_entries es t -> apply_entries es t = (Ok tt, t') ->
  committed g tm (la ++ es) -> machine_AppliedIndex t = Z.of_nat (length la) -> contents t = foldl apply_entry x0 la ->
  e_index <$> es = seqZ (machine_AppliedIndex t + 1) (Z.of_nat (length es)) -> images g t'.
Proof.
  induction es as [|e es IH]; intros t t' la Him Ht Htk Hrun Hc Ha Hx Hi; [by injection Hrun as <-|].
  destruct Htk as [Hacc Htk]. cbn [length fmap list_fmap] in Hi. rewrite seqZ_cons in Hi by lia. injection Hi as Hi Hes.
  unfold apply_entries in Hrun. cbn [mfold] in Hrun. unfold mbind at 1, M_bind at 1 in Hrun.
  destruct (machine_Apply _ _ t) as [[[]|e1| |] t1] eqn:E; [|done..].
  destruct (ran _ _ _ _ _ _ _ (apply_runs _ _ t Ht Hacc Hi) E) as (Ht1 & Ha1 & Hx1).
  assert (contents t1 = foldl apply_entry x0 (la ++ [e])) as Hx1' by (rewrite Hx1, Hx, foldl_app; done).
  rewrite (cons_middle e la es), app_assoc in Hc.
  assert (image g (machine_AppliedIndex t1) (contents t1)) as Him1.
  { exists tm, (la ++ [e]). split_and!; [eapply committed_prefix; [exact Hc|by apply prefix_app_r]|rewrite length_app; simpl; lia|done]. }
  apply (IH t1 t' (la ++ [e])); [split; [done|]|done|by apply Htk|exact Hrun|done|rewrite length_app; simpl; lia|done|].
  - intros k x Hr. destruct (remains_apply _ _ _ _ _ _ Ht Hacc Hi E Hr) as [Hr'|[-> ->]]; [by apply Him|by rewrite <- Ha1].
  - rewrite Hes, Ha1, Hi. f_equal; lia.
Qed.

(** The entries of a node up to an index, as a part of its whole log. *)
Lemma between_full g i c lo hi : node_ok m0 g i c -> Z.max lo (s_index (k_snap c)) <= hi <= k_commit c ->
  between lo hi c = drop (Z.to_nat (Z.max lo (s_index (k_snap c)))) (take (Z.to_nat hi) (g_full g i)).
Proof.
  intros N Hhi. pose proof (n_wf _ _ _ _ N) as Hw. destruct (n_rep _ _ _ _ N) as [El Hlen _]. pose proof (wf_commit _ Hw) as Hc.
  destruct (wf_snap _ Hw) as [H0 _]. rewrite between_max, between_slice by (done || lia). unfold slice. rewrite El, drop_drop, skipn_firstn_comm.
  f_equal; [|f_equal]; lia.
Qed.

Lemma restore_images g d t t1 : images g t -> sound t -> imaged g d -> 0 <= machine_AppliedIndex t -> machine_AppliedIndex t < s_index (d_snap d) ->
  loadable (s_index (d_snap d)) (s_data (d_snap d)) t ->
  machine_RestoreSnapshot (s_index (d_snap d)) (Z.of_nat (length (s_data (d_snap d)))) (s_data (d_snap d)) t = (Ok tt, t1) ->
  images g t1 /\ sound t1 /\ machine_AppliedIndex t1 = s_index (d_snap d).
Proof.
  intros Him Ht Hd H0 Hlt Hld E. destruct (ran _ _ _ _ _ _ _ (restore_runs _ _ t Ht Hld Hlt) E) as (Ht1 & Ha1 & Hx1).
  specialize (Hd ltac:(lia)). rewrite <- Hx1 in Hd. split_and!; [split|done|done]; [by rewrite Ha1|].
  intros k x Hr. by destruct (remains_restore _ _ _ _ _ _ Ht Hld Hlt E Hr) as [-> ->].
Qed.

Lemma carry_images cs g i n d t k t' : Inv cs [] g -> node_ok m0 g i (core n) -> images g t -> sound t -> imaged g d ->
  s_index (d_snap d) = s_index (snapshot n) -> machine_AppliedIndex t <= k <= commit n ->
  takes d (between (machine_AppliedIndex t) k (core n)) t -> carry d (between (machine_AppliedIndex t) k (core n)) t = (Ok tt, t') -> images g t'.
Proof.
  intros HI N Him Ht Hd Ei Hk Htk Hrun. set (a := machine_AppliedIndex t) in *. set (es := between a k (core n)) in *.
  pose proof (n_wf _ _ _ _ N) as Hw. pose proof (wf_commit _ Hw) as Hcm. cbn in Hcm.
  assert (0 <= a) as H0 by (destruct Him as [(? & ? & _ & E & _) _]; fold a in E; lia).
  assert (exists t1, images g t1 /\ sound t1 /\ machine_AppliedIndex t1 = Z.max a (s_index (snapshot n)) /\ takes_entries es t1 /\
    apply_entries es t1 = (Ok tt, t')) as (t1 & Him1 & Ht1 & Ha1 & Htk1 & Hrun1).
  { unfold takes, carry in *. fold a in Htk, Hrun. destruct (Z.ltb_spec a (s_index (d_snap d))) as [Hlt|]; [|exists t; split_and!; try done; fold a; lia].
    destruct Htk as [Hld Htk]. unfold mbind, M_bind in Hrun. destruct (machine_RestoreSnapshot _ _ _ t) as [[[]|e| |] t1] eqn:E; [|done..].
    destruct (restore_images g d t t1 Him Ht Hd H0 Hlt Hld E) as (H1 & H2 & H3). exists t1. split_and!; try done; [lia|by apply Htk]. }
  pose proof (between_indexes a k (core n) Hw ltac:(cbn in *; lia)) as Hix. cbv zeta in Hix. fold es in Hix. change (k_snap (core n)) with (snapshot n) in Hix.
  pose proof (f_equal length Hix) as Hlen. rewrite length_fmap, length_seqZ in Hlen.
  destruct (Z.le_gt_cases (Z.max a (s_index (snapshot n))) k) as [Hle|].
  2:{ destruct es; [by injection Hrun1 as <-|cbn in Hlen; lia]. }
  assert (committed g (k_term (core n)) (take (Z.to_nat k) (g_full g i))) as Hc.
  { eapply committed_prefix; [apply (n_commit _ _ _ _ N)|]. eapply prefix_same; [apply take_prefix|apply take_prefix|]. rewrite !length_take. cbn. lia. }
  pose proof (between_full g i (core n) a k N ltac:(cbn; lia)) as Ees. fold es in Ees. change (k_snap (core n)) with (snapshot n) in Ees.
  set (b := Z.max a (s_index (snapshot n))) in *. set (L := take (Z.to_nat k) (g_full g i)) in *.
  assert (Z.of_nat (length L) = k) as HL.
  { unfold L. rewrite length_take. pose proof (rep_last _ _ (n_rep _ _ _ _ N) Hw). cbn in *. lia. }
  eapply (apply_images g (k_term (core n)) es t1 t' (take (Z.to_nat b) L)); [done|done|done|done|by rewrite Ees, take_drop| | |].
  - rewrite Ha1, length_take. lia.
  - eapply image_prefix; [exact HI|rewrite <- Ha1; apply (proj1 Him1)|exact Hc|lia].
  - rewrite Hix, Ha1. f_equal; lia.
Qed.

(** ** What a loop keeps *)

(** What the sending goroutine hands to the transport. *)
Definition Packet : Type := Message * option (bytes * Z * Z).

(** An operation of the loop of a node: a message that was sent to it, a snapshot with the
    content it was sent with; and clients propose commands, not members. *)
Definition arrives (packets : list Packet) (i : Z) (op : NodeOp) (data : option Source) : Prop :=
  match op with
  | OpStep m => m_to m = i /\ exists sent, (m, sent) ∈ packets /\
      match data, sent with
      | None, None => True
      | Some src, Some (content, _, _) => concat (chunks src) = content
      | _, _ => False
      end
  | OpTick | OpProposeBatch _ | OpReadProbe _ => True
  | _ => False
  end.

(** A packet says what the history says, and a snapshot comes with an image of the log. *)
Definition packet_ok (g : Ghost) (p : Packet) : Prop :=
  message_ok g p.1 /\ (m_type p.1 = MsgSnapshot -> exists s content size sum, m_snapshot p.1 = Some s /\ p.2 = Some (content, size, sum) /\
    (0 < s_index s -> image g (s_index s) (load content))).

Section loop.
Context (cs : gmap Z Core) (g0 : Ghost) (packets : list Packet) (i : Z) (Hpackets : forall p, p ∈ packets -> packet_ok g0 p).

Definition kept_up (n : Node) (d : Durable) (t : T) (out owed : list Message) : Prop :=
  exists g, extends g0 g /\ Inv (<[i := core n]> cs) [] g /\ Forall (message_ok g) (out ++ owed) /\ imaged g d /\ images g t.

Definition delivered (u : Update) (src : option Source) : Prop :=
  forall s, u_snapshot u = Some s -> exists source, src = Some source /\ (0 < s_index s -> image g0 (s_index s) (load (concat (chunks source)))).

(** A step of the node extends the history. *)
Lemma kept_up_acts inp n n' ms d t out p : kept_up n d t out p ->
  match inp with Quiet => True | Received m => message_ok g0 m /\ m_to m = i | Reconfigure => False end ->
  acts inp (core n) ms (core n') -> kept_up n' d t out (p ++ ms).
Proof.
  intros (g & X & HI & Hm & Hd & Ht) Hinp Ha. set (net := match inp with Received m => [m] | _ => [] end).
  assert (Inv (<[i := core n]> cs) net g) as HIn.
  { apply Inv_split. split; [done|]. unfold net. destruct inp as [|m|]; [by constructor| |by constructor].
    constructor; [|by constructor]. eapply x_message; [done|apply Hinp]. }
  assert (exists g', extends g g' /\ Inv (<[i := core n']> (<[i := core n]> cs)) (net ++ ms) g') as (g' & X' & HI').
  { eapply acts_inv; [by apply memb_ok_voters|done|done|exact HIn|apply lookup_insert_eq| |exact Ha].
    unfold net. destruct inp as [|m|]; [done| |done]. split; [by left|apply Hinp]. }
  rewrite insert_insert_eq in HI'. apply Inv_split in HI' as [HI' [_ Hms]%Forall_app]. exists g'. split_and!; [by eapply extends_trans|done| | |].
  - rewrite app_assoc. apply Forall_app. split; [|done]. eapply Forall_impl; [exact Hm|]. intros m. by apply x_message.
  - by eapply imaged_extends.
  - by eapply images_extends.
Qed.

Lemma run_op_snapshot op data n u n' : wf (core n) -> op_ok op (core n) -> arrives packets i op data -> run_op op n = (Ok u, n') ->
  delivered u (source_for u data).
Proof.
  intros Hw Hop Har Hrun s Hs. unfold source_for. rewrite Hs.
  assert (forall m, gives plain m -> m n = (Ok u, n') -> False) as Hno.
  { intros m Hm E. specialize (Hm n). rewrite E in Hm. destruct Hm as [_ Hm]. congruence. }
  destruct op as [|m|d|l|v|ctx|k d|sn]; cbn [run_op arrives] in *; try done; [exfalso; eapply Hno; [apply Tick_plain|exact Hrun]| | |].
  - destruct (decide (m_type m = MsgAppend)) as [Hm|Hm]; [destruct (Step_late m n u n' Hw Hop Hm Hrun); congruence|].
    pose proof (Step_installs m Hm n) as Hi. rewrite Hrun in Hi. destruct Hi as [_ Hi]. destruct (Hi s Hs) as (Hty & s' & Hs' & ->).
    destruct Har as (_ & sent & Hin & Hdata). destruct (Hpackets _ Hin) as [_ Hp].
    destruct (Hp Hty) as (s2 & content & size & sum & E2 & Es & Him). cbn in E2, Es. rewrite Hs' in E2. injection E2 as <-. subst sent.
    destruct data as [src|]; [|done]. exists src. by rewrite Hdata.
  - exfalso. eapply Hno; [|exact Hrun]. eapply gives_bind; [apply ProposeBatch_plain|]. intros r Hr. by apply gives_ret.
  - exfalso. eapply Hno; [apply ReadProbe_plain|exact Hrun].
Qed.

(** Where the stored snapshot comes from. *)
Lemma persist_snap_from u d : d_snap (persist u d) = d_snap d \/ u_snapshot u = Some (d_snap (persist u d)).
Proof.
  rewrite persist_eq. cbn. unfold after_snap. pose proof (proj1 (after_hard_same u d)) as E. destruct (u_snapshot u) as [s|]; [|by left].
  unfold d_install. destruct (_ <=? _); [by left|by right].
Qed.

Lemma delivered_imaged g u src d : extends g0 g -> delivered u src -> imaged g d -> imaged g (persist (streamed src u) d).
Proof.
  intros X Hu Hd. destruct (persist_snap_from (streamed src u) d) as [E|E]; unfold imaged; [by rewrite E|].
  generalize dependent (d_snap (persist (streamed src u) d)). intros sn E. cbn in E. destruct (u_snapshot u) as [s|] eqn:Es; [|done]. injection E as <-. destruct (Hu s Es) as (source & -> & Him).
  intros Hi. eapply image_extends; [done|]. by apply Him.
Qed.

Lemma kept_up_done n d t out p q u src k t' : kept_up n d t out (p ++ q) -> delivered u src -> wf (core n) -> sound t ->
  let d1 := persist (streamed src u) d in
  s_index (d_snap d) <= machine_AppliedIndex t <= k -> k <= commit n ->
  u_committed u = between (machine_AppliedIndex t) k (core n) -> with_data [] (d_snap d1) = with_data [] (snapshot n) ->
  takes d1 (u_committed u) t -> carry d1 (u_committed u) t = (Ok tt, t') -> kept_up n d1 t' (out ++ p) q.
Proof.
  intros (g & X & HI & Hm & Hd & Ht) Hu Hw Hs d1 Hk Hkc Hdel Esn Htk Hrun. exists g. rewrite <- app_assoc.
  pose proof (delivered_imaged g u src d X Hu Hd) as Hd1. split_and!; [done|done|done|done|]. rewrite Hdel in Htk, Hrun.
  eapply (carry_images _ g i n d1 t k t' HI); [eapply i_nodes; [exact HI|apply lookup_insert_eq]|done|done|done| |lia|done|done].
  exact (f_equal s_index Esn).
Qed.

Lemma kept_up_compact n d t out p u n' src : kept_up n d t out p -> wf (core n) -> k_last (core n) + 1 < 2 ^ 64 -> machine_AppliedIndex t <= commit n ->
  CreateSnapshot (machine_AppliedIndex t) [] n = (Ok u, n') -> load (concat (chunks src)) = contents t ->
  s_index (snapshot n) < machine_AppliedIndex t -> kept_up n' (persist (streamed (Some src) u) d) t out p.
Proof.
  intros HG Hw Hroom Hc Hrun Hld Hlt. pose proof (CreateSnapshot_works Quiet (machine_AppliedIndex t) [] n Hw Hroom (conj Hlt Hc)) as H.
  unfold does, runs in H. rewrite Hrun in H. destruct H as ([Ha _ _] & _ & s & -> & Hi & _). cbn [u_messages] in Ha.
  pose proof (kept_up_acts Quiet _ _ _ _ _ _ _ HG I Ha) as (g & X & HI & Hm & Hd & Ht). rewrite app_nil_r in Hm. exists g. split_and!; try done.
  destruct (persist_snap_from (streamed (Some src) (mkUpdate None 0 [] [] [] false (Some s) [])) d) as [E|E]; unfold imaged; [by rewrite E|].
  generalize dependent (d_snap (persist (streamed (Some src) (mkUpdate None 0 [] [] [] false (Some s) [])) d)). intros sn [= <-] _. cbn. rewrite Hi, Hld. apply (proj1 Ht).
Qed.

Definition loop_watch : Watch T.
Proof.
  refine {| watched := kept_up; admits := arrives packets i; carried := delivered |}.
  - intros u src Hu s Hs. congruence.
  - intros n n' d t out p E (g & H). exists g. by rewrite E.
  - intros op data n u n' d t out p HG Hw Hop Har Hrun. split; [|by eapply run_op_snapshot].
    destruct (run_op_performs _ _ _ _ Hw Hop Hrun) as [[Ha _ _] _]. eapply kept_up_acts; [exact HG| |exact Ha].
    destruct op; try done. destruct Har as (Hto & sent & Hin & _). split; [by apply (Hpackets _ Hin)|done].
  - exact kept_up_done.
  - exact kept_up_compact.
Defined.
End loop.

(** ** The cluster *)

Section cluster.
Context {H : Type} `{!Peers.Surroundings H} `{!Host H} `{!HostLaws H}.

Record System := mkSystem { loops : gmap Z (@Runtime S T); packets : list Packet }.

(** Only the operations of a turn are looked at. *)
Definition screened (admitted : NodeOp -> option Source -> Prop) : Watch T.
Proof. by refine {| watched _ _ _ _ _ := True; admits := admitted; carried _ _ := True |}. Defined.

(** A turn of a loop that goes on; a message handed to the transport; and a process that ends
    between two turns and is started again on what it leaves. *)
Inductive step : System -> System -> Prop :=
| step_turn s i r t r' :
    loops s !! i = Some r -> (forall d, keeps (store r) d -> turn_fits (screened (arrives (packets s) i)) t d r) ->
    run t r = (Ok tt, r') -> stopped r' = false ->
    step s (mkSystem (<[i := r']> (loops s)) (packets s))
| step_transmit s i r m p st :
    loops s !! i = Some r -> m ∈ outgoing r -> ~ fallible (store r) -> transmit m (store r) = (Ok (Some p), st) ->
    step s (mkSystem (<[i := with_store st r]> (loops s)) (p :: packets s))
| step_restart s i r (cfg : NodeConfig H) h st t r' b :
    loops s !! i = Some r -> configured cfg i m0 -> store_left (store r) st -> machine_left (machine r) t ->
    (forall d c x, keeps (store r) d -> remains (machine r) c x -> can_load t c d) ->
    StartNode cfg (mkBoot h st t) = (Ok r', b) ->
    step s (mkSystem (<[i := r']> (loops s)) (packets s)).

(** Every node is started on an empty store and a machine that has nothing. *)
Definition initial (s : System) : Prop :=
  packets s = [] /\ forall i r, loops s !! i = Some r -> 0 < i < 2 ^ 64 /\ exists (cfg : NodeConfig H) h st t b,
    configured cfg i m0 /\ at_rest st (mkDurable (mkHard 0 0) zeroSnapshot []) /\ asleep t 0 x0 /\ StartNode cfg (mkBoot h st t) = (Ok r, b).

Definition reachable (s : System) : Prop := exists s0, initial s0 /\ rtc step s0 s.

(** ** The invariant *)

Definition loop_ok (g : Ghost) (r : @Runtime S T) : Prop :=
  Forall (message_ok g) (outgoing r) /\ exists d, due d (commit (node r)) noUpdate r /\ imaged g d /\ images g (machine r).

Record system_ok (s : System) (g : Ghost) : Prop := {
  so_inv : Inv ((fun r => core (node r)) <$> loops s) [] g;
  so_loops : forall i r, loops s !! i = Some r -> loop_ok g r;
  so_packets : forall p, p ∈ packets s -> packet_ok g p
}.

Lemma packet_extends g g' p : extends g g' -> packet_ok g p -> packet_ok g' p.
Proof.
  intros X [Hm Hs]. split; [by eapply x_message|]. intros Hty. destruct (Hs Hty) as (s & content & size & sum & ? & ? & Hi).
  exists s, content, size, sum. split_and!; [done|done|]. intros Hpos. eapply image_extends; [done|auto].
Qed.

Lemma loop_extends g g' r : extends g g' -> loop_ok g r -> loop_ok g' r.
Proof.
  intros X (Hm & d & Hd & Hi & Ht). split; [eapply Forall_impl; [exact Hm|]; intros m; by apply x_message|].
  exists d. split_and!; [done|by eapply imaged_extends|by eapply images_extends].
Qed.

(** One loop moves. *)
Lemma system_moves s g i r r' g' ps : system_ok s g -> loops s !! i = Some r -> extends g g' ->
  Inv (<[i := core (node r')]> ((fun r => core (node r)) <$> loops s)) [] g' -> loop_ok g' r' -> (forall p, p ∈ ps -> p ∈ packets s \/ packet_ok g' p) ->
  system_ok (mkSystem (<[i := r']> (loops s)) ps) g'.
Proof.
  intros [HI Hl Hp] Hr X HI' Hr' Hps. split; cbn [loops packets].
  - by rewrite fmap_insert.
  - intros j rj Hj. destruct (decide (j = i)) as [->|Hne].
    + rewrite lookup_insert_eq in Hj. by injection Hj as <-.
    + rewrite lookup_insert_ne in Hj by done. eapply loop_extends; [done|by eapply Hl].
  - intros p Hin. destruct (Hps p Hin) as [Hin'|]; [|done]. eapply packet_extends; [done|by apply Hp].
Qed.

Lemma turn_ok s g i r t r' : system_ok s g -> loops s !! i = Some r ->
  (forall d, keeps (store r) d -> turn_fits (screened (arrives (packets s) i)) t d r) -> run t r = (Ok tt, r') -> stopped r' = false ->
  exists g', extends g g' /\ system_ok (mkSystem (<[i := r']> (loops s)) (packets s)) g'.
Proof.
  intros Hs Hr Hfit Hrun Hgo. pose proof (so_loops _ _ Hs _ _ Hr) as (Hm & d & Hd & Hi & Ht). set (cs := (fun r => core (node r)) <$> loops s).
  assert (cs !! i = Some (core (node r))) as Hc by (unfold cs; by rewrite lookup_fmap, Hr).
  set (W := loop_watch cs g (packets s) i (so_packets _ _ Hs)).
  assert (ready W d (commit (node r)) noUpdate r) as Hready.
  { split; [done|]. exists g. rewrite app_nil_r. split_and!; try done; [by apply extends_refl|]. rewrite insert_id by done. apply Hs. }
  pose proof (turn_watched W t d r Hready (Hfit d (proj1 Hd))) as Ho. unfold runs in Ho. rewrite Hrun in Ho.
  destruct Ho as [(d' & Hd' & g' & X & HI & Hm' & Hi' & Ht')|[? _]]; [|congruence]. rewrite app_nil_r in Hm'.
  exists g'. split; [done|]. eapply system_moves; [exact Hs|exact Hr|done|exact HI| |by left]. split; [done|by exists d'].
Qed.

(** What is handed to the transport is in step with the store. *)
Lemma transmit_packet g r d m p st : message_ok g m -> due d (commit (node r)) noUpdate r -> imaged g d -> ~ fallible (store r) ->
  transmit m (store r) = (Ok (Some p), st) -> packet_ok g p /\ keeps st d.
Proof.
  intros Hm (Hk & _) Hi Hf. unfold transmit. case_bool_decide as Hty; cbn [negb].
  2:{ intros [= <- <-]. split; [split; [done|]|done]. intros Hty'. by contradict Hty. }
  destruct (m_snapshot m) as [s|] eqn:Es; [|done]. unfold catch, mbind, M_bind.
  destruct (store_OpenSnapshot (s_index s) (store r)) as [[[[content size] sum]|e| |] s1] eqn:Eo; try done.
  destruct (opens_current _ _ _ _ _ _ _ Hk Eo) as (Ecur & -> & Hk1 & Hf1).
  pose proof (close_reader_keeps _ _ Hk1) as Hcl. unfold ignore, try_err, depends, runs in *.
  destruct (store_CloseReader s1) as [[[]|e| |] s2]; [|by destruct Hf; apply Hf1|done|done]. intros [= <- <-].
  split; [split; [done|]|apply Hcl]. intros _. eexists s, _, _, _. split_and!; [done|done|]. rewrite Ecur. exact Hi.
Qed.

Lemma transmit_ok s g i r m p st : system_ok s g -> loops s !! i = Some r -> m ∈ outgoing r -> ~ fallible (store r) ->
  transmit m (store r) = (Ok (Some p), st) -> system_ok (mkSystem (<[i := with_store st r]> (loops s)) (p :: packets s)) g.
Proof.
  intros Hs Hr Hm Hf Htr. pose proof (so_loops _ _ Hs _ _ Hr) as (Hms & d & Hd & Hi & Ht). rewrite Forall_forall in Hms.
  destruct (transmit_packet g r d m p st (Hms _ Hm) Hd Hi Hf Htr) as [Hp Hk]. eapply system_moves; [exact Hs|exact Hr|by apply extends_refl| | |].
  - rewrite insert_id; [apply Hs|]. by rewrite lookup_fmap, Hr.
  - split; [by apply Forall_forall|]. exists d. split_and!; [|done|done]. destruct Hd as (_ & Hd). by split.
  - intros q [->|Hq]%elem_of_cons; [by right|by left].
Qed.

(** *** Restarting *)

(** What a node is started from is what it was, up to the data of its snapshot. *)
Lemma node_ok_reborn g i c d k m : node_ok m0 g i c -> sans d = sans (dur c) -> wf (resting i m0 (sans d) m) ->
  s_index (k_snap c) <= k <= k_commit c -> node_ok m0 g i (restarted k (resting i m0 (sans d) m)).
Proof.
  intros N E Hw Hk. rewrite E in *. pose proof (n_wf _ _ _ _ N) as Hwc. pose proof (wf_commit _ Hwc) as Hcm.
  destruct (n_memb _ _ _ _ N) as (Em & Eb & Ei & Es). assert (m = m0) as ->.
  { pose proof (wf_memb _ Hw) as H1. pose proof (wf_memb _ Hwc) as H2. rewrite Em in H2.
    assert (k_base (resting i m0 (sans (dur c)) m) = k_base c) as E1 by (unfold k_base; cbn; by rewrite Ei).
    rewrite E1 in H1. change (conf (k_base c) (k_log c) = Ok m) in H1. congruence. }
  assert (wf (restarted k (resting i m0 (sans (dur c)) m0))) as Hwr by (apply restarted_wf; [done|cbn in *; unfold k_last in *; cbn; lia]).
  destruct N as [Hid _ _ [R1 R2 R3] Hg Hmt Hc Hv Hvs _ _]. constructor; try done.
  - split_and!; [done| |done|exact Es]. trans (k_base c); [|done]. unfold k_base. cbn. by rewrite Ei.
  - eapply committed_prefix; [exact Hc|]. cbn. eapply prefix_same; [apply take_prefix|apply take_prefix|]. rewrite !length_take. lia.
Qed.

Lemma started_images g d c x (cfg : NodeConfig H) i t r : started cfg i m0 d t c x r -> asleep t c x -> 0 <= c -> imaged g d -> image g c x -> images g (machine r).
Proof.
  intros Hst Hsleep Hc Hd Hx. destruct (sd_machine _ _ _ _ _ _ _ _ Hst) as (t1 & Ho & Hup).
  assert (image g (machine_AppliedIndex (machine r)) (contents (machine r))) as Him.
  { rewrite (sd_applied _ _ _ _ _ _ _ _ Hst), (sd_commit _ _ _ _ _ _ _ _ Hst), (sd_contents _ _ _ _ _ _ _ _ Hst). unfold restored.
    destruct (Z.ltb_spec c (s_index (d_snap d))); [rewrite Z.max_r by lia; apply Hd; lia|by rewrite Z.max_l by lia]. }
  split; [done|]. intros k y Hr. pose proof (open_machine_runs (nc_DBOptions (defaults cfg)) t c x Hsleep) as Hopen. unfold depends, runs in Hopen.
  rewrite Ho in Hopen. destruct Hopen as [(Ht1 & Ha1 & _) _]. unfold brought_up in Hup. destruct (Z.ltb_spec c (s_index (d_snap d))) as [Hlt|].
  - destruct Hup as [Hld Hres]. destruct (remains_restore _ _ t1 _ _ _ Ht1 Hld ltac:(lia) Hres Hr) as [-> ->].
    rewrite <- (Z.max_r c (s_index (d_snap d))), <- (sd_commit _ _ _ _ _ _ _ _ Hst), <- (sd_applied _ _ _ _ _ _ _ _ Hst) by lia. done.
  - rewrite Hup in Hr. by destruct (remains_open _ _ _ _ _ _ _ Hsleep Ho Hr) as [-> ->].
Qed.

Lemma started_due g d c x (cfg : NodeConfig H) i t r : started cfg i m0 d t c x r -> imaged g d -> images g (machine r) -> loop_ok g r.
Proof.
  intros Hst Hd Him. pose proof (sd_queues _ _ _ _ _ _ _ _ Hst) as [= _ _ Eo _]. split; [by rewrite Eo|]. exists d. split_and!; [|done|done].
  destruct (sd_step _ _ _ _ _ _ _ _ Hst) as (d' & _ & Ho & _). split_and!; [apply Hst|apply owes_nothing; [apply Ho|symmetry; apply Hst]|apply Hst|apply Hst].
Qed.

Lemma restart_ok s g i r (cfg : NodeConfig H) h st t r' b : system_ok s g -> loops s !! i = Some r -> configured cfg i m0 ->
  store_left (store r) st -> machine_left (machine r) t -> (forall d c x, keeps (store r) d -> remains (machine r) c x -> can_load t c d) ->
  StartNode cfg (mkBoot h st t) = (Ok r', b) -> system_ok (mkSystem (<[i := r']> (loops s)) (packets s)) g.
Proof.
  intros Hs Hr Hcfg Hst Ht Hld Hrun. pose proof (so_loops _ _ Hs _ _ Hr) as (_ & d & (Hk & Ho & Hsound & Ha) & Hd & Him).
  assert (((fun r => core (node r)) <$> loops s) !! i = Some (core (node r))) as Hc by (by rewrite lookup_fmap, Hr).
  pose proof (i_nodes _ _ _ _ (so_inv _ _ Hs) _ _ Hc) as N. pose proof (n_wf _ _ _ _ N) as Hw. destruct (owes_none _ _ _ Ho) as [_ Hsans].
  destruct (left_asleep _ _ Hsound Ht) as (c & x & Hrem & Hsleep). pose proof (remains_bounded _ _ _ Hsound Hrem) as Hcb. rewrite Ha in Hcb.
  assert (startable i m0 (sans d)) as Hstart.
  { rewrite Hsans. apply startable_sans. rewrite <- (n_id _ _ _ _ N). destruct (n_memb _ _ _ _ N) as (_ & _ & <- & _). by apply startable_core. }
  pose proof (StartNode_runs cfg h st t d c x i m0 Hcfg (left_at_rest _ _ _ Hk Hst) Hstart Hsleep) as H1.
  specialize (H1 ltac:(pose proof (ow_last _ _ _ _ Ho); lia) (Hld _ _ _ Hk Hrem)). unfold runs in H1. rewrite Hrun in H1.
  destruct (sd_core _ _ _ _ _ _ _ _ H1) as (m & Hwm & Ecore).
  pose proof (started_images g _ _ _ _ _ _ _ H1 Hsleep ltac:(lia) Hd (proj2 Him _ _ Hrem)) as Him'.
  eapply system_moves; [exact Hs|exact Hr|by apply extends_refl| |by eapply started_due|by left]. rewrite Ecore.
  pose proof (ow_snap _ _ _ _ Ho). eapply (inv_same m0 _ [] g i _ _ []); [apply Hs|exact Hc| | |constructor].
  - apply (f_equal (fun d => hs_term (d_hard d))) in Hsans. cbn in *. lia.
  - eapply node_ok_reborn; [exact N|done|done|]. pose proof (sans_index _ _ Hsans). cbn in *. lia.
Qed.

(** *** Starting *)

Lemma initial_ok s : initial s -> system_ok s empty_history.
Proof.
  intros [Hp Hl]. set (d0 := mkDurable (mkHard 0 0) zeroSnapshot []).
  assert (forall i r, loops s !! i = Some r -> node_ok m0 empty_history i (core (node r)) /\ loop_ok empty_history r) as Hboth.
  { intros i r Hr. destruct (Hl i r Hr) as (Hi & cfg & h & st & t & b & Hcfg & Hrest & Hsleep & Hrun).
    pose proof (fresh_wf i voters Hi Hvoters) as Hf. assert (startable i m0 (sans d0)) as Hstart by (by apply (startable_core (fresh i voters))).
    pose proof (StartNode_runs cfg h st t d0 0 x0 i m0 Hcfg Hrest Hstart Hsleep ltac:(done) ltac:(done)) as H1. unfold runs in H1. rewrite Hrun in H1.
    destruct (sd_core _ _ _ _ _ _ _ _ H1) as (m & Hwm & Ecore). assert (imaged empty_history d0) as Hd by done.
    assert (image empty_history 0 x0) as Hx by (exists 0, []; split_and!; [by left|done|done]).
    split; [|by eapply started_due; [..|by eapply started_images]]. rewrite Ecore.
    apply (node_ok_reborn _ i (fresh i voters)); [|done|done|done]. constructor; try done; [apply good_nil|by left]. }
  split; [|intros i r Hr; by apply Hboth in Hr as [_ ?]|by rewrite Hp; intros p ?%not_elem_of_nil].
  constructor; try done. intros i c Hc. apply lookup_fmap_Some in Hc as (r & <- & Hr). by apply Hboth.
Qed.

Lemma step_ok s s' g : system_ok s g -> step s s' -> exists g', extends g g' /\ system_ok s' g'.
Proof.
  intros Hs H'. destruct H' as [s i r t r' Hr Hfit Hrun Hgo|s i r m p st Hr Hm Hf Htr|s i r cfg h st t r' b Hr Hcfg Hst Ht Hld Hrun].
  - by eapply turn_ok.
  - exists g. split; [by apply extends_refl|by eapply transmit_ok].
  - exists g. split; [by apply extends_refl|by eapply restart_ok].
Qed.

Lemma run_ok s s' g : system_ok s g -> rtc step s s' -> exists g', extends g g' /\ system_ok s' g'.
Proof.
  intros Hs H'. revert g Hs. induction H' as [s|s s1 s2 Hstep _ IH]; intros g Hs; [exists g; split; [by apply extends_refl|done]|].
  destruct (step_ok _ _ _ Hs Hstep) as (g1 & X1 & Hs1). destruct (IH g1 Hs1) as (g2 & X2 & Hs2). exists g2. split; [by eapply extends_trans|done].
Qed.

(** Machines of equal index have equal contents. *)
Lemma same_contents s s' i j r r' : reachable s -> rtc step s s' -> loops s !! i = Some r -> loops s' !! j = Some r' ->
  machine_AppliedIndex (machine r) = machine_AppliedIndex (machine r') -> contents (machine r) = contents (machine r').
Proof.
  intros (s0 & Hinit & Hs0) Hs Hr Hr' E. destruct (run_ok _ _ _ (initial_ok _ Hinit) Hs0) as (g & _ & Hg). destruct (run_ok _ _ _ Hg Hs) as (g' & X & Hg').
  destruct (so_loops _ _ Hg _ _ Hr) as (_ & d & _ & _ & Him & _). destruct (so_loops _ _ Hg' _ _ Hr') as (_ & d' & _ & _ & (t & l & Hc & Hl & ->) & _).
  rewrite (image_prefix _ _ _ _ _ _ _ (so_inv _ _ Hg') (image_extends _ _ _ _ X Him) Hc) by lia. rewrite firstn_all2; [done|lia].
Qed.

(** One committed log covers finitely many indexes. *)
Lemma common_log cs net g (ks : list Z) : Inv cs net g -> Forall (fun k => exists x, image g k x) ks ->
  exists t l, committed g t l /\ Forall (fun k => k <= Z.of_nat (length l)) ks.
Proof.
  intros HI. induction 1 as [|k ks (x & t & l & Hc & Hl & _) _ (t' & l' & Hc' & Hks)]; [exists 0, []; split; [by left|done]|].
  destruct (committed_comparable _ HI _ _ _ _ Hc Hc') as [Hp|Hp]; apply prefix_length in Hp.
  - exists t', l'. split; [done|]. constructor; [lia|done].
  - exists t, l. split; [done|]. constructor; [lia|]. eapply Forall_impl; [exact Hks|]. cbn. lia.
Qed.

Lemma committed_numbered cs net g t l k e : Inv cs net g -> committed g t l -> l !! k = Some e -> e_index e = Z.of_nat k + 1.
Proof.
  intros HI [->|(t0 & j & lg & k0 & _ & Hl & _ & _ & _ & Hp)] He; [done|].
  pose proof (prefix_lookup_Some _ _ _ _ He Hp) as [He' _]%lookup_take_Some.
  destruct (good_log _ _ (l_good _ _ _ _ _ _ (i_leads _ _ _ _ HI _ _ _ Hl)) _ _ He'). lia.
Qed.

(** What a node has of a committed log up to what it has applied. *)
Lemma applied_entry s g cs g' i r t l x e : system_ok s g -> loops s !! i = Some r -> extends g g' -> Inv cs [] g' -> committed g' t l ->
  machine_AppliedIndex (machine r) <= Z.of_nat (length l) -> x <= machine_AppliedIndex (machine r) -> entry_at (core (node r)) x = Some e ->
  l !! Z.to_nat (x - 1) = Some e.
Proof.
  intros Hs Hr X HI Hc Hk Hx He. destruct (so_loops _ _ Hs _ _ Hr) as (_ & d & (_ & _ & _ & Ha) & _). rewrite Ha in *.
  assert (((fun r => core (node r)) <$> loops s) !! i = Some (core (node r))) as Hci by (by rewrite lookup_fmap, Hr).
  pose proof (i_nodes _ _ _ _ (so_inv _ _ Hs) _ _ Hci) as N. destruct (committed_entry _ _ _ _ _ _ N Hx He) as [Hpos H1].
  pose proof (x_committed _ X _ _ _ (n_commit _ _ _ _ N) (Z.le_refl _)) as Hc'.
  destruct (committed_comparable _ HI _ _ _ _ Hc Hc') as [Hp|Hp]; [|by eapply prefix_lookup_Some].
  destruct (lookup_lt_is_Some_2 l (Z.to_nat (x - 1))) as [e' He']; [lia|]. pose proof (prefix_lookup_Some _ _ _ _ He' Hp). congruence.
Qed.

(** C1: the state machines are replicas of one another. In every execution of a cluster of
    whole nodes there is one log such that every machine, at either of two times, has
    exactly the contents its first entries lead to, as many as it has applied, each once
    and in order; and what a node still has of those entries in its raft log is the same.
    So two machines that have applied equally much have equal contents, whichever nodes and
    times they are of. The nodes tick, propose, read, vote, append, merge appends, compact
    their logs, send and install snapshots, and are started again on what their processes
    left; messages are delivered in any order, any number of times or never. *)
Theorem replicas_agree s s' : reachable s -> rtc step s s' ->
  exists log : list Entry, (forall k e, log !! k = Some e -> e_index e = Z.of_nat k + 1) /\
  forall i r, loops s !! i = Some r \/ loops s' !! i = Some r -> let k := machine_AppliedIndex (machine r) in
    0 <= k <= Z.of_nat (length log) /\ contents (machine r) = foldl apply_entry x0 (take (Z.to_nat k) log) /\
    forall x e, x <= k -> entry_at (core (node r)) x = Some e -> log !! Z.to_nat (x - 1) = Some e.
Proof.
  intros (s0 & Hinit & Hs0) Hs. destruct (run_ok _ _ _ (initial_ok _ Hinit) Hs0) as (g & _ & Hg). destruct (run_ok _ _ _ Hg Hs) as (g' & X & Hg').
  set (applied := fun r : @Runtime S T => machine_AppliedIndex (machine r)).
  assert (forall i r, loops s !! i = Some r \/ loops s' !! i = Some r -> image g' (applied r) (contents (machine r))) as Him.
  { intros i r [Hr|Hr]; [destruct (so_loops _ _ Hg _ _ Hr) as (_ & d & _ & _ & Hi & _); by eapply image_extends|].
    by destruct (so_loops _ _ Hg' _ _ Hr) as (_ & d & _ & _ & Hi & _). }
  set (ks := (fun '(_, r) => applied r) <$> map_to_list (loops s) ++ map_to_list (loops s')).
  assert (forall i r, loops s !! i = Some r \/ loops s' !! i = Some r -> applied r ∈ ks) as Hks.
  { intros i r Hr. apply list_elem_of_fmap. exists (i, r). split; [done|]. rewrite elem_of_app, !elem_of_map_to_list. done. }
  destruct (common_log _ _ g' ks (so_inv _ _ Hg')) as (t & l & Hc & Hlen).
  { apply Forall_forall. intros k ([i r] & -> & Hin)%list_elem_of_fmap. rewrite elem_of_app, !elem_of_map_to_list in Hin. eexists. by eapply Him. }
  exists l. split; [intros k e; by eapply committed_numbered; [apply Hg'|]|]. intros i r Hr. cbv zeta. fold (applied r). rewrite Forall_forall in Hlen.
  specialize (Hlen _ (Hks _ _ Hr)). pose proof (Him _ _ Hr) as Hi. split; [destruct Hi as (? & ? & _ & ? & _); lia|].
  split; [by eapply image_prefix; [apply Hg'|..]|]. intros x e Hx He.
  destruct Hr as [Hr|Hr]; [by eapply applied_entry; [exact Hg|exact Hr|exact X|apply Hg'|..]|].
  by eapply applied_entry; [exact Hg'|exact Hr|by apply extends_refl|apply Hg'|..].
Qed.
End cluster.
End watch.

(** The nodes of src/cluster, with the files of raftstore and the machine of kvstate: two
    replicas that have applied equally much answer every Get alike. *)
Corollary kv_replicas_agree `{!Sstable.BloomSizing, !Kvstate.CommandCodec} {X} `{!Peers.Surroundings X, !Host X, !HostLaws X} voters
  (x0 : bytes -> option bytes) (s s' : @System Raftstore.St Db.St) i j r r' key :
  voters_ok voters -> reachable (S := Raftstore.St) (T := Db.St) (H := X) voters x0 s -> rtc (step (H := X) voters) s s' -> loops s !! i = Some r -> loops s' !! j = Some r' ->
  Kvstate.Machine_AppliedIndex (machine r).1 = Kvstate.Machine_AppliedIndex (machine r').1 ->
  (Db.Get (machine r).1 key).2 = (Db.Get (machine r').1 key).2.
Proof. intros Hv Hs Hs' Hr Hr' E. exact (f_equal (fun V => V key) (same_contents (S := Raftstore.St) (T := Db.St) voters Hv x0 s s' i j r r' Hs Hs' Hr Hr' E)). Qed.

(** ** Example *)

(** The turns of a cluster of one in memory, as long as its numbers fit: ticks, and commands
    of clients, one at a time. *)
Definition SoloLoop : Type := @Runtime Durable (Z * bytes).

Definition op_fitsb (op : NodeOp) (n : Node) : bool := room_b n && (k_last (core (run_op op n).2) + 1 <? 2 ^ 64).

Definition turn_fitsb (t : turn) (r : SoloLoop) : bool :=
  match t with
  | Submit _ => true
  | TurnTick => op_fitsb OpTick (node r)
  | TurnEvent =>
      match deferred r, events r with
      | [], [proposalEvent data _] => op_fitsb (OpProposeBatch [data]) (node r) && negb (hasMembershipPrefix data)
      | _, _ => false
      end
  end.

Fixpoint turns (l : list turn) (r : SoloLoop) : option SoloLoop :=
  match l with
  | [] => Some r
  | t :: l' =>
      if turn_fitsb t r then match run t r with (Ok tt, r') => if stopped r' then None else turns l' r' | _ => None end else None
  end.

Lemma memory_op_fits A op d (n : Node) (t : Z * bytes) : op_fitsb op n = true -> op_ok op (core n) -> A op None -> op_fits (S := Durable) (screened A) op None d n t.
Proof.
  intros Hf Hop HA. split_and!; [done|done|]. intros u n' E. apply memory_fits. unfold op_fitsb in Hf. rewrite E in Hf. apply andb_true_iff in Hf as [_ Hf%Z.ltb_lt]. exact Hf.
Qed.

Lemma turn_fitsb_ok ps t d (r : SoloLoop) : turn_fitsb t r = true -> turn_fits (screened (arrives ps 1)) t d r.
Proof.
  assert (forall op, op_fitsb op (node r) = true -> room (core (node r))) as Hroom.
  { intros op Hf. unfold op_fitsb, room_b in Hf. bool_hyps. split; lia. }
  destruct t as [| |ev]; cbn [turn_fitsb turn_fits]; [| |done].
  - intros Hf. apply memory_op_fits; [done|split; [by eapply Hroom|done]|done].
  - destruct (deferred r) eqn:Ed; [|done]. destruct (events r) as [|[data ch| | | | |] [|]] eqn:Ee; try done.
    rewrite andb_true_iff, negb_true_iff. intros [Hf Hp]. pose proof (Hroom _ Hf) as Hr. cbn [event_fits]. unfold batch_of. cbn [deferred with_events]. rewrite Ed.
    assert (forall k b z, (drain_proposals k [] b z []).1.1 = b) as Hdr by (intros k b z; destruct k; cbn; [done|by destruct (_ && _)]).
    cbn [capacity with_events events]. rewrite Hdr. apply memory_op_fits; [done| |done]. destruct Hr. split; [by split|]. cbn. split; [lia|by repeat constructor].
Qed.

Definition alone (r : SoloLoop) : @System Durable (Z * bytes) := mkSystem {[1 := r]} [].

Lemma turns_run l : forall r r', turns l r = Some r' -> rtc (step (H := Z * bytes) [1]) (alone r) (alone r').
Proof.
  induction l as [|t l IH]; intros r r'; cbn [turns]; [by intros [= ->]|]. destruct (turn_fitsb t r) eqn:Hf; [|done].
  destruct (run t r) as [[[]|e| |] r1] eqn:Er; try done. destruct (stopped r1) eqn:Est; [done|]. intros Hl. eapply rtc_l; [|by apply IH].
  replace (alone r1) with (mkSystem (<[1 := r1]> (loops (alone r))) (packets (alone r))) by (unfold alone; cbn; by rewrite insert_singleton_eq).
  eapply step_turn; [unfold alone; cbn; by rewrite lookup_singleton_eq| |exact Er|done]. intros d _. by apply turn_fitsb_ok.
Qed.

(** The node is started, elects itself, and takes a command; then it is started again. *)
Definition started_on (st : Durable) (t : Z * bytes) : SoloLoop :=
  match StartNode solo_config (mkBoot (0, []) st t) with (Ok r, _) => r | _ => solo_loop end.

Definition awake : SoloLoop := started_on (mkDurable (mkHard 0 0) zeroSnapshot []) (0, []).
Definition commanded : SoloLoop := default awake (turns (repeat TurnTick 20 ++ [Submit (proposalEvent (str "a") 7); TurnEvent]) awake).
Definition woken : SoloLoop := started_on (store commanded) (machine commanded).

Lemma started_on_ok st t : is_ok (StartNode solo_config (mkBoot (0, []) st t)).1 = true -> exists b, StartNode solo_config (mkBoot (0, []) st t) = (Ok (started_on st t), b).
Proof. unfold started_on. destruct (StartNode _ _) as [[r|e| |] b]; [by exists b|done..]. Qed.

Lemma solo_config_ok : configured solo_config 1 (mkMembership [1] [] 0).
Proof. exact solo_configured. Qed.

Lemma awake_initial : initial (S := Durable) (T := Z * bytes) (H := Z * bytes) [1] [] (alone awake).
Proof.
  split; [done|]. intros i r Hr. unfold alone in Hr. cbn [loops] in Hr. apply lookup_singleton_Some in Hr as [<- <-]. split; [done|].
  destruct (started_on_ok (mkDurable (mkHard 0 0) zeroSnapshot []) (0, [])) as [b E]; [vm_compute; reflexivity|].
  exists solo_config, (0, []), (mkDurable (mkHard 0 0) zeroSnapshot []), (0, []), b. split_and!; [exact solo_config_ok|exact eq_refl|exact eq_refl|exact E].
Qed.

Lemma commanded_reachable : reachable (S := Durable) (T := Z * bytes) (H := Z * bytes) [1] [] (alone commanded).
Proof.
  exists (alone awake). split; [exact awake_initial|]. apply (turns_run (repeat TurnTick 20 ++ [Submit (proposalEvent (str "a") 7); TurnEvent])).
  unfold commanded. destruct (turns _ awake) as [r|] eqn:E; [done|]. vm_compute in E. discriminate.
Qed.

Lemma woken_next : step (S := Durable) (T := Z * bytes) (H := Z * bytes) [1] (alone commanded) (alone woken).
Proof.
  destruct (started_on_ok (store commanded) (machine commanded)) as [b E]; [vm_compute; reflexivity|].
  replace (alone woken) with (mkSystem (<[1 := woken]> (loops (alone commanded))) (packets (alone commanded))) by (unfold alone; cbn; by rewrite insert_singleton_eq).
  eapply step_restart; [unfold alone; cbn; by rewrite lookup_singleton_eq|exact solo_config_ok|exact eq_refl|split; [exact eq_refl|]| |exact E].
  - vm_compute. discriminate.
  - intros d c x _ _ _ o t' _. exact I.
Qed.

Lemma replicas_agree_witness : machine commanded = (2, str "a") /\ machine woken = (2, str "a") /\
  exists log : list Entry, (forall k e, log !! k = Some e -> e_index e = Z.of_nat k + 1) /\
  forall i r, loops (alone commanded) !! i = Some r \/ loops (alone woken) !! i = Some r -> let k := machine_AppliedIndex (machine r) in
    0 <= k <= Z.of_nat (length log) /\ contents (machine r) = foldl apply_entry [] (take (Z.to_nat k) log) /\
    forall x e, x <= k -> entry_at (core (node r)) x = Some e -> log !! Z.to_nat (x - 1) = Some e.
Proof.
  split; [vm_compute; reflexivity|]. split; [vm_compute; reflexivity|].
  exact (replicas_agree (S := Durable) (T := Z * bytes) (H := Z * bytes) [1] solo_voters_ok [] (alone commanded) (alone woken) commanded_reachable (rtc_once _ _ woken_next)).
Defined.

End Replicas.
