(* ===== verification/Metrics.v ===== *)
(** * What a node counts

    src/cluster/metrics.go: the stable store, the state machine and the transport a node is
    started with are wrapped in ones that count what passes through them, and a status is
    turned into gauges. Shown: a loop over wrapped parts does what the loop over the parts
    does, so that what is proved of the loop holds of the one that is started; the counters
    of a store add up; and a log write is attributed to the role it was made in. *)

From S2P Require Import Prelude GoStd Fs Json Membership RaftTypes RaftNode RaftCore RaftRefine RaftHandlers RaftOps RaftApi RaftCluster Raftstore Stable Runtime Loop InStep Startup.

(** ** Computations that follow each other *)

Module Follow.

(** The computation on the image of a state does what the one on the state does. *)
Definition follows {S S' A} (f : S -> S') (m : M S A) (m' : M S' A) : Prop := forall s, m' (f s) = ((m s).1, f (m s).2).

Section rules.
Context {S S' : Type} (f : S -> S').

Lemma follows_ret {A} (a : A) : follows f (mret a) (mret a).
Proof. done. Qed.
Lemma follows_raise {A} e : follows f (raise (A := A) e) (raise e).
Proof. done. Qed.
Lemma follows_of_res {A} (r : res A) : follows f (of_res r) (of_res r).
Proof. done. Qed.
Lemma follows_modify g g' : (forall s, f (g s) = g' (f s)) -> follows f (modify g) (modify g').
Proof. intros H s. unfold modify. by rewrite <- H. Qed.

Lemma follows_bind {A B} (m : M S A) (m' : M S' A) (k : A -> M S B) (k' : A -> M S' B) : follows f m m' -> (forall a, follows f (k a) (k' a)) -> follows f (m ≫= k) (m' ≫= k').
Proof. intros Hm Hk s. unfold mbind, M_bind. rewrite Hm. destruct (m s) as [[a|e| |] s1]; cbn; [apply Hk|done..]. Qed.

Lemma follows_gets {A A' B} (g : S -> A) (g' : S' -> A') (k : A -> M S B) (k' : A' -> M S' B) : (forall s, follows f (k (g s)) (k' (g' (f s)))) -> follows f (gets g ≫= k) (gets g' ≫= k').
Proof. intros H s. apply H. Qed.

Lemma follows_catch {A} (m : M S A) (m' : M S' A) h h' : follows f m m' -> (forall e, follows f (h e) (h' e)) -> follows f (catch m h) (catch m' h').
Proof. intros Hm Hh s. unfold catch. rewrite Hm. destruct (m s) as [[a|e| |] s1]; cbn; [done|apply Hh|done..]. Qed.

Lemma follows_try_err {A} (m : M S A) (m' : M S' A) : follows f m m' -> follows f (try_err m) (try_err m').
Proof. intros Hm s. unfold try_err. rewrite Hm. by destruct (m s) as [[a|e| |] s1]. Qed.

Lemma follows_mfold {A} (h : A -> M S unit) (h' : A -> M S' unit) l : (forall x, follows f (h x) (h' x)) -> follows f (mfold h l) (mfold h' l).
Proof. intros H. induction l as [|x l IH]; [apply follows_ret|]. apply follows_bind; [apply H|]. by intros _. Qed.
End rules.

End Follow.

(** A store and a machine whose images do the same. *)
Class StoreImage {S S' : Type} `{!StableStore S} `{!StableStore S'} (f : S -> S') : Prop := {
  image_Persist u : Follow.follows f (store_Persist u) (store_Persist u);
  image_PersistSnapshot u src : Follow.follows f (store_PersistSnapshot u src) (store_PersistSnapshot u src);
  image_OpenSnapshot i : Follow.follows f (store_OpenSnapshot i) (store_OpenSnapshot i);
  image_CloseReader : Follow.follows f store_CloseReader store_CloseReader;
  image_store_Close : Follow.follows f store_Close store_Close
}.

Class MachineImage {T T' : Type} `{!StateMachine T} `{!StateMachine T'} (g : T -> T') : Prop := {
  image_Apply i c : Follow.follows g (machine_Apply i c) (machine_Apply i c);
  image_AppliedIndex t : machine_AppliedIndex (g t) = machine_AppliedIndex t;
  image_WriteSnapshot t : machine_WriteSnapshot (g t) = machine_WriteSnapshot t;
  image_RestoreSnapshot i n c : Follow.follows g (machine_RestoreSnapshot i n c) (machine_RestoreSnapshot i n c);
  image_machine_Close : Follow.follows g machine_Close machine_Close
}.

Module Image.
Import Follow Membership Raft Node Raftstore Runtime.

Section image.
Context {S S' T T' : Type} (f : S -> S') (g : T -> T') `{!StableStore S} `{!StableStore S'} `{!StateMachine T} `{!StateMachine T'}
  `{!StoreImage f} `{!MachineImage g}.

(** The loop over the images. *)
Definition image (r : @Runtime S T) : @Runtime S' T' :=
  mkRuntime (node r) (f (store r)) (g (machine r)) (events r) (capacity r) (deferred r) (outgoing r) (pending r)
    (pendingReads r) (nextReadContext r) (change r) (snapshotThreshold r) (answers r) (stopped r).

Notation same m := (follows image m m).

Lemma same_node {A} (m : M Node A) : same (on_node m).
Proof. intros r. unfold on_node, zoom. cbn. by destruct (m (node r)). Qed.
Lemma same_store {A} (m : M S A) (m' : M S' A) : follows f m m' -> follows image (on_store m) (on_store m').
Proof. intros H r. unfold on_store, zoom. cbn. rewrite H. by destruct (m (store r)). Qed.
Lemma same_machine {A} (m : M T A) (m' : M T' A) : follows g m m' -> follows image (on_machine m) (on_machine m').
Proof. intros H r. unfold on_machine, zoom. cbn. rewrite H. by destruct (m (machine r)). Qed.
Lemma same_attempt {A} (m : M Node A) : same (attempt m).
Proof. intros r. unfold attempt. cbn. by destruct (m (node r)) as [[?|?| |] ?]. Qed.
Lemma same_wrap {A} what (m : M (@Runtime S T) A) (m' : M (@Runtime S' T') A) : follows image m m' -> follows image (wrap what m) (wrap what m').
Proof. intros H. apply follows_catch; [done|]. intros e. apply follows_raise. Qed.
Lemma same_get {A} (k : @Runtime S T -> M Runtime A) (k' : @Runtime S' T' -> M Runtime A) :
  (forall r, follows image (k r) (k' (image r))) -> follows image (get ≫= k) (get ≫= k').
Proof. intros H. apply follows_gets. exact H. Qed.

Lemma applied_same t : machine_AppliedIndex (g t) = machine_AppliedIndex t.
Proof. apply image_AppliedIndex. Qed.
Lemma written_same t : machine_WriteSnapshot (g t) = machine_WriteSnapshot t.
Proof. apply image_WriteSnapshot. Qed.

Ltac same_step :=
  match goal with
  | |- follows _ (get ≫= _) _ => apply same_get; intros ?; cbn [image node machine events capacity deferred outgoing pending pendingReads nextReadContext change snapshotThreshold answers stopped]; rewrite ?applied_same, ?written_same
  | |- follows _ (mret _) _ => apply follows_ret
  | |- follows _ (raise _) _ => apply follows_raise
  | |- follows _ (of_res _) _ => apply follows_of_res
  | |- follows _ (modify _) _ => apply follows_modify; intros ?; exact eq_refl
  | |- follows _ (on_node _) _ => apply same_node
  | |- follows _ (on_store _) _ => apply same_store; eauto with image nocore
  | |- follows _ (on_machine _) _ => apply same_machine; eauto with image nocore
  | |- follows _ (attempt _) _ => apply same_attempt
  | |- follows _ (wrap _ _) _ => apply same_wrap
  | |- follows _ (try_err _) _ => apply follows_try_err
  | |- follows _ (catch _ _) _ => apply follows_catch; [|intros ?]
  | |- follows _ (mfold _ _) _ => apply follows_mfold; intros ?
  | |- follows _ (if ?b then _ else _) _ => destruct b
  | |- follows _ (match ?x with _ => _ end) _ => destruct x
  | |- follows _ (let _ := _ in _) _ => cbv zeta
  | |- follows _ (_ ≫= _) _ => apply follows_bind; [|intros ?]
  | _ => solve [eauto with image nocore]
  end.
Ltac same := repeat same_step.

#[local] Hint Resolve image_Persist image_PersistSnapshot image_OpenSnapshot image_CloseReader image_store_Close
  image_Apply image_RestoreSnapshot image_machine_Close : image.

Lemma same_respond ch a : same (respond ch a).
Proof. unfold respond. same. Qed.
#[local] Hint Resolve same_respond : image.
Lemma same_complete read a : same (complete read a).
Proof. unfold complete. same. Qed.
#[local] Hint Resolve same_complete : image.
Lemma same_send ms : same (send ms).
Proof. unfold send. same. Qed.
#[local] Hint Resolve same_send : image.
Lemma same_answer_waiter i t : same (answer_waiter i t).
Proof. unfold answer_waiter. same. Qed.
#[local] Hint Resolve same_answer_waiter : image.
Lemma same_apply_committed e : same (apply_committed e).
Proof. unfold apply_committed. same. Qed.
#[local] Hint Resolve same_apply_committed : image.
Lemma same_restore_snapshot u : same (restore_snapshot u).
Proof. unfold restore_snapshot. same. Qed.
#[local] Hint Resolve same_restore_snapshot : image.
Lemma same_take_snapshot : same take_snapshot.
Proof. unfold take_snapshot. same. Qed.
#[local] Hint Resolve same_take_snapshot : image.
Lemma same_resolve : same resolveMembership.
Proof. unfold resolveMembership. same. Qed.
#[local] Hint Resolve same_resolve : image.
Lemma same_dismiss cause : same (dismiss cause).
Proof. unfold dismiss. same. Qed.
#[local] Hint Resolve same_dismiss : image.
Lemma same_step_down u : same (step_down u).
Proof. unfold step_down. same. Qed.
#[local] Hint Resolve same_step_down : image.
Lemma same_update u data : same (processUpdateWithSnapshot u data).
Proof. unfold processUpdateWithSnapshot. same. Qed.
#[local] Hint Resolve same_update : image.
Lemma same_processUpdate u : same (processUpdate u).
Proof. apply same_update. Qed.
#[local] Hint Resolve same_processUpdate : image.

Lemma same_drain_proposals data ch : same (drainProposals data ch).
Proof. unfold drainProposals. same. Qed.
#[local] Hint Resolve same_drain_proposals : image.
Lemma same_register batch : forall indexes, same (register batch indexes).
Proof. induction batch as [|[d ch] batch IH]; intros [|i indexes]; cbn [register]; same. Qed.
#[local] Hint Resolve same_register : image.
Lemma same_propose batch : same (proposeBatch batch).
Proof. unfold proposeBatch. same. Qed.
#[local] Hint Resolve same_propose : image.
Lemma same_collect ch : same (collectReads ch).
Proof. unfold collectReads. same. Qed.
#[local] Hint Resolve same_collect : image.
Lemma same_read ch : same (handle_read ch).
Proof. unfold handle_read. same. Qed.
#[local] Hint Resolve same_read : image.
Lemma same_acknowledge m : same (acknowledgeRead m).
Proof. unfold acknowledgeRead. same. Qed.
#[local] Hint Resolve same_acknowledge : image.
Lemma same_drain_appends m ch : same (drainAppends m ch).
Proof. unfold drainAppends. same. Qed.
#[local] Hint Resolve same_drain_appends : image.
Lemma same_respond_all chs a : same (respond_all chs a).
Proof. unfold respond_all. same. Qed.
#[local] Hint Resolve same_respond_all : image.
Lemma same_flush merged waiting : same (flush merged waiting).
Proof. unfold flush. same. Qed.
#[local] Hint Resolve same_flush : image.
Lemma same_appends group : forall merged waiting, same (step_appends group merged waiting).
Proof. induction group as [|[m ch] group IH]; intros merged waiting; cbn [step_appends]; same. Qed.
#[local] Hint Resolve same_appends : image.
Lemma same_close : same closeResources.
Proof. unfold closeResources. same. Qed.
#[local] Hint Resolve same_close : image.
Lemma same_fail cause : same (fail cause).
Proof. unfold fail. same. Qed.
#[local] Hint Resolve same_fail : image.
Lemma same_membership voters ch : same (handle_membership voters ch).
Proof. unfold handle_membership. same. Qed.
#[local] Hint Resolve same_membership : image.
Lemma same_message m data ch : same (handle_message m data ch).
Proof. unfold handle_message. same. Qed.
#[local] Hint Resolve same_message : image.
Lemma same_handle ev : same (handle ev).
Proof. unfold handle, stepAppends. same. Qed.
#[local] Hint Resolve same_handle : image.

(** A turn over the images. *)
Lemma same_run t : same (run t).
Proof. unfold run, guarded. same. Qed.

End image.

(** ** Invariants of a store *)

(** What every call on a store preserves. *)
Record upheld {S} `{!StableStore S} (P : S -> Prop) : Prop := {
  up_Persist u s : P s -> P (store_Persist u s).2;
  up_PersistSnapshot u src s : P s -> P (store_PersistSnapshot u src s).2;
  up_OpenSnapshot i s : P s -> P (store_OpenSnapshot i s).2;
  up_CloseReader s : P s -> P (store_CloseReader s).2;
  up_Close s : P s -> P (store_Close s).2
}.

Section upheld.
Context {S T : Type} `{!StableStore S} `{!StateMachine T} (P : S -> Prop) (HP : upheld P).

(** The store with a proof that it satisfies the invariant. *)
Definition lift {A} (m : M S A) (Hm : forall s, P s -> P (m s).2) : M {s | P s} A := fun x => ((m (proj1_sig x)).1, (m (proj1_sig x)).2 ↾ Hm _ (proj2_sig x)).

Definition proven_store : StableStore {s | P s} := {|
  store_Persist u := lift _ (up_Persist _ HP u);
  store_PersistSnapshot u src := lift _ (up_PersistSnapshot _ HP u src);
  store_OpenSnapshot i := lift _ (up_OpenSnapshot _ HP i);
  store_CloseReader := lift _ (up_CloseReader _ HP);
  store_Close := lift _ (up_Close _ HP)
|}.

Lemma proven_image : @StoreImage _ _ proven_store _ (@proj1_sig S P).
Proof. split; intros; intros [s Hs]; apply surjective_pairing. Qed.

Lemma machine_id_image : MachineImage (@id T).
Proof. split; try done; intros; intros t; apply surjective_pairing. Qed.

(** A loop over the store preserves it. *)
Lemma store_upheld ts (r : @Runtime S T) : P (store r) -> P (store (mfold run ts r).2).
Proof.
  intros Hr. pose proof proven_image. pose proof machine_id_image. set (Sp := proven_store) in *.
  set (r' := mkRuntime (S := {s | P s}) (node r) (store r ↾ Hr) (machine r) (events r) (capacity r) (deferred r) (outgoing r) (pending r)
    (pendingReads r) (nextReadContext r) (change r) (snapshotThreshold r) (answers r) (stopped r)).
  assert (image (@proj1_sig S P) id r' = r) as E by (by destruct r). rewrite <- E.
  rewrite (follows_mfold (image (@proj1_sig S P) id) run run ts (same_run _ _)). cbn. apply proj2_sig.
Qed.
End upheld.
End Image.

(** ** The metrics *)

Module Metrics.
Import Follow Image Json Membership Raft Node Raftstore Runtime.

(** A vector of counters or gauges: a value for each label. Prometheus keeps float64 values,
    which hold whole numbers exactly up to 2^53. *)
Notation vec := (gmap bytes Z).
Definition value (v : vec) (label : bytes) : Z := default 0 (v !! label).
Definition add (label : bytes) (x : Z) (v : vec) : vec := <[label := value v label + x]> v.

(** What the store's wrapper changes; [sm_clock] counts the readings of the clock. *)
Record StoreMetrics := mkStoreMetrics {
  logSyncs : Z;
  logSyncEntries : Z;
  roleLogSyncs : vec;
  roleLogEntries : vec;
  hardStateSyncs : Z;
  droppedAppends : Z;
  snapshotSeconds : list Z;
  sm_clock : nat
}.

(** The machine's. *)
Record MachineMetrics := mkMachineMetrics { applySeconds : list Z; mm_clock : nat }.

(** The transport's. *)
Record TransportMetrics := mkTransportMetrics { appendMessages : vec; transportFailures : vec; sendFailures : vec }.

(** The gauges and counters made from a status. *)
Record StatusMetrics := mkStatusMetrics {
  role_ : vec;
  term_ : Z;
  leader_ : Z;
  commit_ : Z;
  applied_ : Z;
  logLength : Z;
  snapshotIndex : Z;
  replicationLag : vec;
  elections : Z;
  leadershipChanges : Z;
  quorumLoss : Z
}.

(** The counters of the service. *)
Record ServiceMetrics := mkServiceMetrics { proposals : vec; rpcRequests : gmap (bytes * bytes) Z; rpcDuration : gmap bytes (list Z) }.

Definition syncRoleLeader : bytes := str "leader".
Definition syncRoleFollower : bytes := str "follower".
Definition sendFailureDeadline : bytes := str "deadline".
Definition sendFailureOther : bytes := str "other".

Definition roles : list Role := [Follower; PreCandidate; Candidate; Leader].
Definition origins : list MessageOrigin := [OriginOther; OriginHeartbeat; OriginProposal; OriginCommitAdvance; OriginAckResend].

(** newNodeMetrics: the labels that are there from the start. *)
Definition zeros (labels : list bytes) : vec := list_to_map ((fun l => (l, 0)) <$> labels).
Definition new_store_metrics : StoreMetrics :=
  mkStoreMetrics 0 0 (zeros [syncRoleLeader; syncRoleFollower]) (zeros [syncRoleLeader; syncRoleFollower]) 0 0 [] 0.
Definition new_machine_metrics : MachineMetrics := mkMachineMetrics [] 0.
Definition new_transport_metrics : TransportMetrics :=
  mkTransportMetrics (zeros (Origin_String <$> origins)) ∅ (zeros [sendFailureDeadline; sendFailureOther]).
Definition new_status_metrics : StatusMetrics := mkStatusMetrics ∅ 0 0 0 0 0 0 ∅ 0 0 0.
Definition new_service_metrics : ServiceMetrics := mkServiceMetrics ∅ ∅ ∅.

(** *** A status *)

Definition observe_role (current : Role) (v : vec) : vec :=
  foldl (fun v role => <[Role_String role := if bool_decide (current = role) then 1 else 0]> v) v roles.

Definition lag (last match_ : Z) : Z := u64 (last - Z.min last match_).

Definition observe_lag (last : Z) (l : list (Z * Z)) (v : vec) : vec :=
  foldl (fun v '(peer, match_) => <[dec peer := lag last match_]> v) v l.

Definition observeStatus (previous current : Status) (applied : Z) (m : StatusMetrics) : StatusMetrics :=
  let in_role := fun st r => bool_decide (st_Role st = r) in
  mkStatusMetrics (observe_role (st_Role current) (role_ m)) (st_Term current) (st_LeaderID current) (st_CommitIndex current) applied
    (st_RetainedLogEntries current) (st_SnapshotIndex current)
    (observe_lag (st_LastLogIndex current) (map_to_list (st_MatchIndex current)) (replicationLag m))
    (if in_role current Candidate && negb (in_role previous Candidate) then elections m + 1 else elections m)
    (if in_role current Leader && negb (in_role previous Leader) then leadershipChanges m + 1 else leadershipChanges m)
    (if in_role previous Leader && negb (in_role current Leader) && (st_Term previous =? st_Term current) then quorumLoss m + 1 else quorumLoss m).

(** *** The store *)

Definition syncRole (u : Update) : bytes :=
  if existsb (fun m => bool_decide (m_type m = MsgAppendResponse) || bool_decide (m_type m = MsgSnapshotResponse)) (u_messages u)
  then syncRoleFollower else syncRoleLeader.

Definition count (u : Update) (m : StoreMetrics) : StoreMetrics :=
  let n := Z.of_nat (length (u_entries u)) in
  let m := if (0 <? length (u_entries u))%nat then
      mkStoreMetrics (logSyncs m + 1) (logSyncEntries m + n) (add (syncRole u) 1 (roleLogSyncs m)) (add (syncRole u) n (roleLogEntries m))
        (hardStateSyncs m) (droppedAppends m) (snapshotSeconds m) (sm_clock m)
    else m in
  let m := match u_hardState u with
    | Some _ => mkStoreMetrics (logSyncs m) (logSyncEntries m) (roleLogSyncs m) (roleLogEntries m) (hardStateSyncs m + 1) (droppedAppends m)
        (snapshotSeconds m) (sm_clock m)
    | None => m
    end in
  if (length (u_droppedAppend u) =? 0)%nat then m else
  mkStoreMetrics (logSyncs m) (logSyncEntries m) (roleLogSyncs m) (roleLogEntries m) (hardStateSyncs m) (droppedAppends m + 1)
    (snapshotSeconds m) (sm_clock m).

Definition with_sample (sample : list Z) (reads : nat) (m : StoreMetrics) : StoreMetrics :=
  mkStoreMetrics (logSyncs m) (logSyncEntries m) (roleLogSyncs m) (roleLogEntries m) (hardStateSyncs m) (droppedAppends m)
    (snapshotSeconds m ++ sample) (sm_clock m + reads).

Section observed.
Context {S T : Type} `{!StableStore S} `{!StateMachine T}.
(** The readings of the clock, in their order. *)
Context (clock : nat -> Z).

Definition elapsed (start : nat) : Z := clock (start + 1) - clock start.

Definition observed_Persist (u : Update) : M (S * StoreMetrics) unit := fun st =>
  match store_Persist u st.1 with
  | (Ok _, s) => (Ok tt, (s, count u st.2))
  | (r, s) => (r, (s, st.2))
  end.

Definition observed_PersistSnapshot (u : Update) (writeData : Source) : M (S * StoreMetrics) unit := fun st =>
  match store_PersistSnapshot u writeData st.1 with
  | (Ok _, s) => (Ok tt, (s, count u (with_sample [elapsed (sm_clock st.2)] 2 st.2)))
  | (r, s) => (r, (s, with_sample [] 1 st.2))
  end.

(** A call that is passed on. *)
Definition inner {X Y A} (m : M X A) : M (X * Y) A := zoom fst (fun x p => (x, p.2)) m.

Definition observedStore : StableStore (S * StoreMetrics) := {|
  store_Persist := observed_Persist;
  store_PersistSnapshot := observed_PersistSnapshot;
  store_OpenSnapshot i := inner (store_OpenSnapshot i);
  store_CloseReader := inner store_CloseReader;
  store_Close := inner store_Close
|}.

(** *** The machine *)

Definition observed_Apply (index : Z) (command : bytes) : M (T * MachineMetrics) unit := fun st =>
  let (r, t) := machine_Apply index command st.1 in
  match r with
  | Ok _ | Err _ => (r, (t, mkMachineMetrics (applySeconds st.2 ++ [elapsed (mm_clock st.2)]) (mm_clock st.2 + 2)))
  | _ => (r, (t, st.2))
  end.

Definition observedMachine : StateMachine (T * MachineMetrics) := {|
  machine_Apply := observed_Apply;
  machine_AppliedIndex st := machine_AppliedIndex st.1;
  machine_WriteSnapshot st := machine_WriteSnapshot st.1;
  machine_RestoreSnapshot i n c := inner (machine_RestoreSnapshot i n c);
  machine_Close := inner machine_Close
|}.

(** The wrapped parts do what the parts do. *)
Lemma follows_inner {X Y A} (m : M X A) : follows (@fst X Y) (inner m) m.
Proof. intros [x y]. unfold inner, zoom. cbn. by destruct (m x). Qed.

Lemma observed_store_image : @StoreImage _ _ observedStore _ fst.
Proof.
  split; try (intros; apply follows_inner); intros; intros [s m]; cbn.
  - unfold observed_Persist. cbn. by destruct (store_Persist u s) as [[[]|e| |] s'].
  - unfold observed_PersistSnapshot. cbn. by destruct (store_PersistSnapshot u src s) as [[[]|e| |] s'].
Qed.

Lemma observed_machine_image : @MachineImage _ _ observedMachine _ fst.
Proof.
  split; try done; try (intros; apply follows_inner). intros i c [t m]. cbn. unfold observed_Apply. cbn.
  by destruct (machine_Apply i c t) as [[[]|e| |] t'].
Qed.

#[local] Existing Instances observedStore observedMachine.

(** The loop over the parts themselves. *)
Definition plain (r : @Runtime (S * StoreMetrics) (T * MachineMetrics)) : @Runtime S T := image fst fst r.

(** C24: Counting changes nothing. A node is started over wrappers that count what its store and
    its machine do. Any sequence of turns of the loop over the wrappers leads to the same
    outcome as over the parts themselves, and to the same node, store, machine, queues,
    messages and answers. *)
Theorem observed_loop_same ts r : mfold run ts (plain r) = ((mfold run ts r).1, plain (mfold run ts r).2).
Proof.
  revert r. apply (follows_mfold plain). intros t. pose proof observed_store_image. pose proof observed_machine_image.
  apply (same_run fst fst).
Qed.
End observed.

(** *** The transport *)

(** The interface Transport; [send_deadline] tells the errors of an expired deadline, of the
    local context or in a gRPC status. *)
Class Transport (X : Type) := {
  transport_Send : Message -> M X unit;
  transport_SendSnapshot : Message -> bytes -> Z -> Z -> M X unit;
  send_deadline : string -> bool
}.

Definition sendFailureClass `{!Transport X} (err : string) : bytes := if send_deadline err then sendFailureDeadline else sendFailureOther.

Definition countFailure `{!Transport X} (message : Message) (err : string) (m : TransportMetrics) : TransportMetrics :=
  mkTransportMetrics (appendMessages m) (add (dec (m_to message)) 1 (transportFailures m)) (add (sendFailureClass err) 1 (sendFailures m)).

(** A send whose failure is counted. *)
Definition counted `{!Transport X} (message : Message) (send : M X unit) : M (X * TransportMetrics) unit := fun st =>
  match send st.1 with
  | (Err e, x) => (Err e, (x, countFailure message e st.2))
  | (r, x) => (r, (x, st.2))
  end.

Definition observed_Send `{!Transport X} (message : Message) : M (X * TransportMetrics) unit :=
  (if bool_decide (m_type message = MsgAppend)
   then modify (fun st => (st.1, mkTransportMetrics (add (Origin_String (m_origin message)) 1 (appendMessages st.2)) (transportFailures st.2) (sendFailures st.2)))
   else mret tt) ;;
  counted message (transport_Send message).

Definition observed_SendSnapshot `{!Transport X} (message : Message) (reader : bytes) (size checksum : Z) : M (X * TransportMetrics) unit :=
  counted message (transport_SendSnapshot message reader size checksum).

(** *** The service *)

(** unaryInterceptor and streamInterceptor: [took] is the time the handler took, [code_of]
    the name of the status code. *)
Definition interceptor {W R} (clock : nat -> Z) (code_of : option string -> bytes) (method : bytes) (handler : M W R) : M (W * (ServiceMetrics * nat)) R := fun st =>
  let '(w, (m, reads)) := st in
  let (r, w') := handler w in
  let err := match r with Ok _ => Some None | Err e => Some (Some e) | _ => None end in
  match err with
  | Some err =>
      let sample := elapsed clock reads in
      let key := (method, code_of err) in
      (r, (w', (mkServiceMetrics (proposals m) (<[key := default 0 (rpcRequests m !! key) + 1]> (rpcRequests m))
                  (<[method := default [] (rpcDuration m !! method) ++ [sample]]> (rpcDuration m)), (reads + 2)%nat)))
  | None => (r, (w', (m, reads)))
  end.

(** ** The role of a log write *)

Import Startup Core Refine Handlers Ops Api Loop InStep.

(** No message answers an append or a snapshot. *)
Definition is_answer (m : Message) : bool := bool_decide (m_type m = MsgAppendResponse) || bool_decide (m_type m = MsgSnapshotResponse).
Definition unanswering (ms : list Message) : Prop := existsb is_answer ms = false.

Lemma unanswering_app ms ms' : unanswering ms -> unanswering ms' -> unanswering (ms ++ ms').
Proof. unfold unanswering. intros H H'. by rewrite existsb_app, H, H'. Qed.

Lemma unanswering_map {A} (f : A -> Message) l : (forall x, is_answer (f x) = false) -> unanswering (f <$> l).
Proof. intros H. unfold unanswering. induction l as [|x l IH]; [done|]. cbn. by rewrite H, IH. Qed.

Definition quiet_update (u : Update) : Prop := unanswering (u_messages u).

Lemma quiet_merge u v : quiet_update u -> quiet_update v -> quiet_update (merge u v).
Proof. apply unanswering_app. Qed.

Create HintDb unanswering.
#[local] Hint Resolve quiet_merge unanswering_app : unanswering.

Ltac quiet_step :=
  match goal with
  | |- gives _ (Node.get ≫= _) => apply gives_get; intros ?
  | |- gives _ (mret _) => apply gives_ret
  | |- gives _ (raise _) => apply gives_raise
  | |- gives _ (if ?b then _ else _) => destruct b
  | |- gives _ (match ?x with _ => _ end) => destruct x
  | |- gives _ (_ ≫= _) => first [eapply gives_bind; [solve [eauto with unanswering nocore]|intros ? ?] | eapply gives_bind; [apply gives_any|intros ? _]]
  | |- gives _ (let _ := _ in _) => cbv zeta
  | |- quiet_update (snd (_, _)) => cbn [snd]
  | |- quiet_update noUpdate => exact eq_refl
  | |- quiet_update (mkUpdate _ _ _ [] _ _ _ _) => exact eq_refl
  | |- quiet_update (mkUpdate _ _ _ _ _ _ _ _) => unfold quiet_update; cbn [u_messages]
  | |- quiet_update (add_messages _ _) => unfold quiet_update, add_messages; cbn [u_messages]
  | _ => solve [eauto with unanswering nocore]
  end.

Lemma becomeFollower_unanswering t l : gives quiet_update (becomeFollower t l).
Proof. unfold becomeFollower. by repeat quiet_step. Qed.
#[local] Hint Resolve becomeFollower_unanswering : unanswering.

Lemma appendMessage_unanswering p c o : gives (fun m => unanswering [m]) (appendMessage p c o).
Proof. unfold appendMessage. repeat quiet_step; done. Qed.
#[local] Hint Resolve appendMessage_unanswering : unanswering.

Lemma collect_unanswering f l : (forall p, gives unanswering (f p)) -> gives unanswering (collect f l).
Proof.
  intros Hf. induction l as [|p l IH]; cbn [collect]; [by apply gives_ret|].
  eapply gives_bind; [apply Hf|]. intros ms Hms. eapply gives_bind; [exact IH|]. intros ms' Hms'. apply gives_ret. by apply unanswering_app.
Qed.

Lemma broadcast_unanswering o : gives unanswering (broadcastAppend o).
Proof.
  unfold broadcastAppend. apply gives_get. intros n. destruct (_ =? 0)%nat; [by intros ?|]. apply collect_unanswering. intros p. repeat quiet_step; done.
Qed.
#[local] Hint Resolve broadcast_unanswering : unanswering.

Lemma maybeCommit_unanswering : gives quiet_update maybeCommit.
Proof. unfold maybeCommit. repeat quiet_step; done. Qed.
#[local] Hint Resolve maybeCommit_unanswering : unanswering.

Lemma becomeLeader_unanswering : gives quiet_update becomeLeader.
Proof. unfold becomeLeader. repeat quiet_step. Qed.
#[local] Hint Resolve becomeLeader_unanswering : unanswering.

Lemma campaign_unanswering t tm n : t = MsgVote \/ t = MsgPreVote -> unanswering (campaign_messages t tm n).
Proof. intros Ht. apply unanswering_map. intros p. by destruct Ht as [-> | ->]. Qed.

Lemma startElection_unanswering : gives quiet_update startElection.
Proof. unfold startElection. repeat quiet_step. apply campaign_unanswering. by left. Qed.
#[local] Hint Resolve startElection_unanswering : unanswering.

Lemma startPreVote_unanswering : gives quiet_update startPreVote.
Proof. unfold startPreVote. repeat quiet_step. apply campaign_unanswering. by right. Qed.
#[local] Hint Resolve startPreVote_unanswering : unanswering.

Lemma probes_unanswering c o l : gives unanswering (collect (fun peer => m ← appendMessage peer c o; mret [m]) l).
Proof. apply collect_unanswering. intros p. repeat quiet_step; done. Qed.
#[local] Hint Resolve probes_unanswering : unanswering.

Lemma heartbeats_unanswering (b : bool) l :
  gives unanswering (if b then modify (with_heartbeatElapsed 0) ;; broadcastAppend OriginHeartbeat
    else collect (fun peer => m ← appendMessage peer 0 OriginHeartbeat; mret [m]) l).
Proof. repeat quiet_step. Qed.
#[local] Hint Resolve heartbeats_unanswering : unanswering.

Lemma Tick_unanswering : gives quiet_update Tick.
Proof. unfold Tick. repeat quiet_step; done. Qed.

Lemma ReadProbe_unanswering c : gives quiet_update (ReadProbe c).
Proof.
  unfold ReadProbe. apply gives_get. intros n. repeat case_match; try apply gives_raise. eapply gives_bind; [|intros ms Hms; by apply gives_ret].
  apply collect_unanswering. intros p. repeat quiet_step; done.
Qed.

Lemma ProposeBatch_unanswering l : gives (fun r => quiet_update r.2) (ProposeBatch l).
Proof. unfold ProposeBatch. repeat quiet_step. Qed.
#[local] Hint Resolve ProposeBatch_unanswering : unanswering.

Lemma Propose_unanswering d : gives (fun r => quiet_update r.2) (Propose d).
Proof. unfold Propose. repeat quiet_step; done. Qed.
#[local] Hint Resolve Propose_unanswering : unanswering.

Lemma ProposeMembership_unanswering v : gives (fun r => quiet_update r.2) (ProposeMembership v).
Proof. unfold ProposeMembership. repeat quiet_step. Qed.
#[local] Hint Resolve ProposeMembership_unanswering : unanswering.

(** Without entries to write, or without an answer. *)
Definition led (u : Update) : Prop := u_entries u = [] \/ quiet_update u.

Lemma refollow_blank (b : bool) t l :
  gives (fun u => u_entries u = [] /\ quiet_update u) (if b then u ← becomeFollower t l; mret (merge noUpdate u) else mret noUpdate).
Proof.
  destruct b; [|by apply gives_ret]. eapply (gives_bind (fun u => u_entries u = [] /\ quiet_update u)); [|intros u Hu; by apply gives_ret].
  unfold becomeFollower. repeat quiet_step. by split.
Qed.

Lemma handleSnapshot_blank m : gives (fun u => u_entries u = []) (handleSnapshot m).
Proof.
  unfold handleSnapshot. apply gives_get. intros n. destruct (m_snapshot m) as [s|]; [|by apply gives_ret].
  destruct (_ || _); [by apply gives_ret|]. eapply gives_bind; [apply refollow_blank|]. intros u [Hu _]. cbv zeta.
  eapply gives_bind; [apply gives_any|]. intros _ _. eapply gives_bind; [apply gives_any|]. intros _ _. apply gives_get. intros n'.
  unfold accept_snapshot. repeat quiet_step; done.
Qed.

Lemma dispatch_led m : m_type m <> MsgAppend -> gives led (dispatch m).
Proof.
  intros Hm. unfold dispatch. apply gives_get. intros n. assert (forall x, gives quiet_update x -> gives led x) as H.
  { intros x Hx. eapply gives_mono; [exact Hx|]. by right. }
  destruct (m_type m); try done.
  - apply gives_ret. by left.
  - apply H. unfold handlePreVoteResponse. repeat quiet_step.
  - apply H. unfold handleVote. repeat quiet_step. done.
  - apply H. unfold handleVoteResponse. repeat quiet_step.
  - apply H. unfold handleAppendResponse. repeat quiet_step; done.
  - eapply gives_mono; [apply handleSnapshot_blank|]. by left.
  - apply H. unfold handleSnapshotResponse. repeat quiet_step; done.
Qed.

Definition answering (u : Update) : Prop := existsb is_answer (u_messages u) = true.

Lemma answering_last u m : is_answer m = true -> answering (add_messages [m] u).
Proof. intros H. unfold answering. cbn. rewrite existsb_app. cbn. by rewrite H, orb_true_r. Qed.

Lemma finish_answering m u : gives answering (finish_append m u).
Proof.
  unfold finish_append. apply gives_get. intros n. cbv zeta. eapply gives_bind; [apply gives_any|]. intros l _. apply gives_ret.
  unfold answering. cbn. rewrite existsb_app. by apply orb_true_r.
Qed.

Lemma handleAppend_answering m : gives answering (handleAppend m).
Proof.
  unfold handleAppend. apply gives_get. intros n. eapply gives_bind; [apply gives_any|]. intros u _.
  eapply gives_bind; [apply gives_any|]. intros _ _. eapply gives_bind; [apply gives_any|]. intros _ _. apply gives_get. intros n'.
  destruct (_ || _); [by apply gives_ret, answering_last|]. destruct (scan_entries _ _) as [| |tr rest]; [apply finish_answering|by apply gives_ret, answering_last|].
  unfold store_entries. apply gives_get. intros n2. cbv zeta. eapply gives_bind; [apply gives_any|]. intros _ _.
  destruct (_ || _); [|apply finish_answering]. eapply gives_bind; [apply gives_any|]. intros [e|] _; [|apply finish_answering].
  apply gives_get. intros n3. eapply gives_bind; [apply gives_any|]. intros _ _. apply gives_get. intros n4. apply gives_ret.
  unfold answering. cbn. rewrite existsb_app. by apply orb_true_r.
Qed.

Lemma Step_role m : gives (fun u => u_entries u = [] \/ if decide (m_type m = MsgAppend) then answering u else quiet_update u) (Step m).
Proof.
  unfold Step. apply gives_get. intros n. destruct (_ && _); [apply gives_ret; by left|]. destruct (_ || _); [apply gives_ret; by left|]. cbv zeta.
  destruct (negb (length _ =? 0)%nat); [eapply gives_bind; [apply gives_any|]; intros _ _; apply gives_ret; by left|].
  destruct (_ && _ && _); [eapply gives_bind; [apply gives_any|]; intros _ _; apply gives_ret; by left|].
  destruct (_ && _); [apply gives_ret; by left|]. eapply gives_bind; [apply refollow_blank|]. intros u0 [He Hq].
  destruct (decide (m_type m = MsgAppend)) as [Hm|Hm].
  - eapply (gives_bind answering); [unfold dispatch; rewrite Hm; apply gives_get; intros _; apply handleAppend_answering|]. intros u Hu. apply gives_ret. right.
    unfold answering. cbn. rewrite existsb_app. unfold answering in Hu. rewrite Hu. apply orb_true_r.
  - eapply gives_bind; [by apply dispatch_led|]. intros u Hu. apply gives_ret. destruct Hu as [Hu|Hu]; [left; cbn; by rewrite He, Hu|right; by apply quiet_merge].
Qed.

(** A log write is attributed to the role it is made in. When the update of an operation
    brings entries to write, it is counted as the follower's if the operation handles an
    append of a leader, and as the leader's if it is any other (a proposal, a membership
    change, the entry of a new leader, the end of a membership change). *)
Theorem log_write_role op n u n' : run_op op n = (Ok u, n') -> u_entries u <> [] ->
  syncRole u = match op with
               | OpStep m => if decide (m_type m = MsgAppend) then syncRoleFollower else syncRoleLeader
               | _ => syncRoleLeader
               end.
Proof.
  intros Hrun Hu. assert (forall P, gives P (run_op op) -> P u) as H by (intros P HP; specialize (HP n); by rewrite Hrun in HP).
  assert (quiet_update u -> syncRole u = syncRoleLeader) as Hl.
  { intros Hq. unfold syncRole. unfold quiet_update, unanswering, is_answer in Hq. by rewrite Hq. }
  destruct op as [|m|d|l|v|ctx|i d|s]; cbn [run_op] in *.
  - apply Hl, H, Tick_unanswering.
  - destruct (H _ (Step_role m)) as [?|Ha]; [done|]. destruct (decide _); [|by apply Hl]. unfold syncRole. unfold answering, is_answer in Ha. by rewrite Ha.
  - apply Hl, H. repeat quiet_step; done.
  - apply Hl, H. repeat quiet_step; done.
  - apply Hl, H. repeat quiet_step; done.
  - apply Hl, H, ReadProbe_unanswering.
  - apply Hl, H. unfold CreateSnapshot, Compact. repeat quiet_step.
  - apply Hl, H. unfold Compact. repeat quiet_step.
Qed.

(** ** The counters of a store add up *)

(** What a log of updates that were persisted makes of the counters. *)
Definition tally (f : Update -> Z) (us : list Update) : Z := foldr (fun u n => f u + n) 0 us.
Definition writes (u : Update) : Z := if (0 <? length (u_entries u))%nat then 1 else 0.
Definition written (u : Update) : Z := Z.of_nat (length (u_entries u)).
Definition in_role_ (role : bytes) (f : Update -> Z) (u : Update) : Z := if decide (syncRole u = role) then f u else 0.

Record tallied (us : list Update) (m : StoreMetrics) : Prop := {
  ta_syncs : logSyncs m = tally writes us;
  ta_entries : logSyncEntries m = tally written us;
  ta_role_syncs role : value (roleLogSyncs m) role = tally (in_role_ role writes) us;
  ta_role_entries role : value (roleLogEntries m) role = tally (in_role_ role written) us;
  ta_hard : hardStateSyncs m = tally (fun u => match u_hardState u with Some _ => 1 | None => 0 end) us;
  ta_dropped : droppedAppends m = tally (fun u => if (length (u_droppedAppend u) =? 0)%nat then 0 else 1) us
}.

(** A store with the updates it has persisted. *)
Section recorded.
Context {S T : Type} `{!StableStore S} `{!StateMachine T} (clock : nat -> Z).

Definition recording (u : Update) (m : M S unit) : M (S * list Update) unit := fun st =>
  match m st.1 with
  | (Ok _, s) => (Ok tt, (s, u :: st.2))
  | (r, s) => (r, (s, st.2))
  end.

Definition recordedStore : StableStore (S * list Update) := {|
  store_Persist u := recording u (store_Persist u);
  store_PersistSnapshot u src := recording u (store_PersistSnapshot u src);
  store_OpenSnapshot i := inner (store_OpenSnapshot i);
  store_CloseReader := inner store_CloseReader;
  store_Close := inner store_Close
|}.

Lemma zeros_value labels role : value (zeros labels) role = 0.
Proof.
  unfold value, zeros. destruct (_ !! role) as [z|] eqn:E; [|done]. apply elem_of_list_to_map_2 in E. apply list_elem_of_fmap in E as (? & [= -> ->] & _). done.
Qed.

Lemma value_add label x v role : value (add label x v) role = value v role + (if decide (label = role) then x else 0).
Proof. unfold add, value. destruct (decide (label = role)) as [->|Hl]; [by rewrite lookup_insert_eq|rewrite lookup_insert_ne by done; lia]. Qed.

Lemma count_adds u m : let m' := count u m in
  logSyncs m' = writes u + logSyncs m /\ logSyncEntries m' = written u + logSyncEntries m /\
  (forall role, value (roleLogSyncs m') role = in_role_ role writes u + value (roleLogSyncs m) role) /\
  (forall role, value (roleLogEntries m') role = in_role_ role written u + value (roleLogEntries m) role) /\
  hardStateSyncs m' = (match u_hardState u with Some _ => 1 | None => 0 end) + hardStateSyncs m /\
  droppedAppends m' = (if (length (u_droppedAppend u) =? 0)%nat then 0 else 1) + droppedAppends m.
Proof.
  cbv zeta. unfold count. cbv zeta. unfold in_role_, writes, written. destruct (u_entries u) as [|e l]; cbn [length].
  - destruct (u_hardState u), (_ =? 0)%nat; cbn; split_and!; try lia; intros role; by destruct (decide _).
  - destruct (u_hardState u), (_ =? 0)%nat; cbn; split_and!; try lia; intros role; rewrite value_add; destruct (decide _); lia.
Qed.

Lemma count_tallied u us m : tallied us m -> tallied (u :: us) (count u m).
Proof.
  intros [H1 H2 H3 H4 H5 H6]. destruct (count_adds u m) as (E1 & E2 & E3 & E4 & E5 & E6). unfold tally in *.
  split; cbn [foldr]; [by rewrite E1, H1|by rewrite E2, H2|intros role; by rewrite E3, H3|intros role; by rewrite E4, H4|by rewrite E5, H5|by rewrite E6, H6].
Qed.

#[local] Existing Instance recordedStore.
#[local] Instance counting_store : StableStore ((S * list Update) * StoreMetrics) := observedStore clock.
#[local] Instance counting_machine : StateMachine (T * MachineMetrics) := observedMachine clock.

(** The counters tell what was recorded. *)
Definition accounted (st : (S * list Update) * StoreMetrics) : Prop := tallied st.1.2 st.2.

Lemma with_sample_tallied us x k m : tallied us m -> tallied us (with_sample x k m).
Proof. intros []. by split. Qed.

Lemma inner_accounted {A} (m : M S A) st : accounted st -> accounted (inner (Y := StoreMetrics) (inner (Y := list Update) m) st).2.
Proof. destruct st as [[s us] x]. unfold inner, zoom, accounted. cbn. by destruct (m s). Qed.

Lemma observed_accounted : upheld (S := (S * list Update) * StoreMetrics) accounted.
Proof.
  split; try (intros; by apply inner_accounted); intros; destruct s as [[s us] m]; unfold accounted in *; cbn in *.
  - unfold observed_Persist. cbn. unfold recording. cbn. destruct (store_Persist u s) as [[[]|e| |] s']; cbn; try done. by apply count_tallied.
  - unfold observed_PersistSnapshot. cbn. unfold recording. cbn. destruct (store_PersistSnapshot u src s) as [[[]|e| |] s']; cbn; try by apply with_sample_tallied.
    by apply count_tallied, with_sample_tallied.
Qed.

(** The counters of the log add up. Whatever the turns of a loop over a counting store, the
    number of log writes is the number of updates with entries that were persisted, the
    number of entries is the number of their entries, those of the two roles are the
    parts of them that are attributed to the role, and the state changes and the dropped
    appends are counted one by one; a failed write is not counted. *)
Theorem counters_add_up tickPositive size threshold n s m ts (r0 : @Runtime ((S * list Update) * StoreMetrics) (T * MachineMetrics)) :
  Start tickPositive size threshold n ((s, []), new_store_metrics) m = Ok r0 ->
  let '((_, persisted), counters) := store (mfold run ts r0).2 in tallied persisted counters.
Proof.
  intros H0. assert (accounted (store (mfold run ts r0).2)) as H.
  { apply store_upheld; [apply observed_accounted|]. unfold Start in H0. destruct (negb _); [done|]. injection H0 as <-. cbn.
    split; try done; intros role; by apply zeros_value. }
  by destruct (store _) as [[? ?] ?].
Qed.
End recorded.

(** ** The gauges of a status *)

Lemma Role_String_inj r r' : Role_String r = Role_String r' -> r = r'.
Proof. by destruct r, r'. Qed.

Lemma observe_lag_value last l v p x : NoDup (l.*1) -> Forall (fun q => 0 <= q < 2 ^ 64) l.*1 -> (p, x) ∈ l -> value (observe_lag last l v) (dec p) = lag last x.
Proof.
  revert v. induction l as [|[q y] l IH] using rev_ind; intros v Hn Hr Hp; [by apply elem_of_nil in Hp|].
  rewrite fmap_app in Hn, Hr. change ([(q, y)].*1) with [q] in Hn, Hr. apply Forall_app in Hr as [Hr Hq]. rewrite Forall_singleton in Hq.
  unfold observe_lag, value. rewrite foldl_app. cbn. apply elem_of_app in Hp as [Hp|Hp].
  - apply NoDup_app in Hn as (Hn & Hd & _). assert (p ∈ l.*1) as Hp' by (apply list_elem_of_fmap; by exists (p, x)).
    rewrite lookup_insert_ne; [by apply IH|]. intros E. apply (Hd p Hp'). apply (f_equal undec) in E.
    rewrite Forall_forall in Hr. pose proof (Hr _ Hp'). assert (2 ^ 64 < 10 ^ 20) by by vm_compute.
    rewrite !undec_dec in E by (cbv beta in *; lia). subst. by left.
  - apply list_elem_of_singleton in Hp as [= -> ->]. by rewrite lookup_insert_eq.
Qed.

(** The role gauges are one-hot: that of the current role is 1 and the others are 0. The
    lag of every peer whose match index the status gives is the number of entries of the
    log behind that index, and 0 if the peer is ahead. *)
Theorem status_observed previous current applied m : 0 <= st_LastLogIndex current < 2 ^ 64 ->
  (forall p x, st_MatchIndex current !! p = Some x -> 0 <= p < 2 ^ 64 /\ 0 <= x) ->
  let m' := observeStatus previous current applied m in
  (forall r, value (role_ m') (Role_String r) = if decide (st_Role current = r) then 1 else 0) /\
  (forall p x, st_MatchIndex current !! p = Some x -> value (replicationLag m') (dec p) = Z.max 0 (st_LastLogIndex current - x)).
Proof.
  intros Hlast Hm. cbv zeta. split.
  - intros r. unfold value, observeStatus, observe_role. cbn [role_ roles foldl].
    destruct r; repeat first [rewrite lookup_insert_eq | rewrite lookup_insert_ne by (intros E; by apply Role_String_inj in E)];
      cbn; rewrite bool_decide_decide; by destruct (decide _).
  - intros p x Hx. cbn [observeStatus replicationLag]. rewrite (observe_lag_value _ _ _ _ x).
    + unfold lag. rewrite u64_small; [lia|]. destruct (Hm _ _ Hx). lia.
    + apply NoDup_fst_map_to_list.
    + apply Forall_forall. intros q Hq. apply list_elem_of_fmap in Hq as ([q' y] & -> & Hq). apply elem_of_map_to_list in Hq. by apply (Hm _ _ Hq).
    + by apply elem_of_map_to_list.
Qed.

(** ** Examples *)

Definition no_clock (_ : nat) : Z := 0.

Lemma log_write_role_witness : exists u n', run_op one_command solo_leader = (Ok u, n') /\ u_entries u <> [] /\ syncRole u = syncRoleLeader.
Proof.
  exists one_result.1, one_result.2. split; [apply one_command_runs|]. split; [vm_compute; discriminate|].
  exact (log_write_role one_command solo_leader one_result.1 one_result.2 one_command_runs ltac:(vm_compute; discriminate)).
Defined.

#[local] Existing Instance recordedStore.

Definition counting_loop : @Runtime ((Durable * list Update) * StoreMetrics) ((Z * bytes) * MachineMetrics) :=
  mkRuntime solo_leader ((dur (core solo_leader), []), new_store_metrics) ((1, []), new_machine_metrics) [] 256 [] [] ∅ ∅ 0 None 0 [] false.
Definition one_write : list turn := [Submit (proposalEvent (str "a") 7); TurnEvent].

Notation counted_run := (@run _ _ (counting_store (S := Durable) no_clock) (counting_machine (T := Z * bytes) no_clock)) (only parsing).

Lemma counters_add_up_witness : Start true 256 0 solo_leader ((dur (core solo_leader), []), new_store_metrics) ((1, []), new_machine_metrics) = Ok counting_loop /\
  (let '((_, persisted), counters) := store (mfold counted_run one_write counting_loop).2 in tallied persisted counters) /\
  logSyncs (store (mfold counted_run one_write counting_loop).2).2 = 1.
Proof.
  split; [exact eq_refl|]. split; [|vm_compute; exact eq_refl].
  pose proof (counters_add_up no_clock true 256 0 solo_leader (dur (core solo_leader)) ((1, []), new_machine_metrics) one_write counting_loop eq_refl) as H.
  exact H.
Defined.

End Metrics.
