(* ===== verification/Calls.v ===== *)
(** * The calls of a runtime

    internal/raftnode/runtime.go: the methods a runtime offers to other goroutines. A call
    queues an event and waits for the answer, for the end of its context or for the end of
    the loop. What happens while it waits is a script: turns of the loop (the requests of
    others among them), the end of the context, and the moments at which a select takes one
    of its cases if that is ready. A script that ends first is a process that ends first. *)

From S2P Require Import Prelude GoStd Fs Json Membership RaftTypes RaftNode RaftCore RaftRefine RaftHandlers RaftOps RaftApi RaftCluster Raftstore Stable Runtime Loop InStep.

Module Calls.
Import Membership Raft Node Raftstore Runtime.

(** ** Waiting *)

Inductive case := CSend | CResult | CContext | CDone.

Inductive moment :=
| Turn (t : turn)
| Expire (e : string)    (** the context ends, with its error *)
| Take (c : case).

Definition ErrStopped : string := "raft node is stopped".

Section calls.
Context {S T : Type} `{!StableStore S} `{!StateMachine T}.

(** A loop and a caller: the error of the caller's context once it has ended, what is to
    come, and whether Close was called. *)
Record Session := mkSession { loop : @Runtime S T; expired : option string; script : list moment; closed : bool }.

Definition with_loop (r : @Runtime S T) (s : Session) : Session := mkSession r (expired s) (script s) (closed s).
Definition with_script (l : list moment) (s : Session) : Session := mkSession (loop s) (expired s) l (closed s).
Definition with_expired (e : option string) (s : Session) : Session := mkSession (loop s) e (script s) (closed s).

(** A select: [ready] gives the outcome of the cases that are ready. *)
Fixpoint select_on {A} (ready : case -> Session -> option (res A * Session)) (l : list moment) (s : Session) : res A * Session :=
  match l with
  | [] => (Crash, with_script [] s)
  | Turn t :: l' =>
      match run t (loop s) with
      | (Ok _, r) => select_on ready l' (with_loop r s)
      | (_, r) => (Crash, with_script [] (with_loop r s))
      end
  | Expire e :: l' => select_on ready l' (match expired s with None => with_expired (Some e) s | Some _ => s end)
  | Take c :: l' =>
      match ready c s with
      | Some (a, s') => (a, with_script l' s')
      | None => select_on ready l' s
      end
  end.
Definition select {A} (ready : case -> Session -> option (res A * Session)) : M Session A := fun s => select_on ready (script s) s.

Definition context_case {A} (s : Session) : option (res A * Session) := e ← expired s; Some (Err e, s).
Definition done_case {A} (s : Session) : option (res A * Session) := if stopped (loop s) then Some (Err ErrStopped, s) else None.

(** [r.events <- event]: the queue has room; nobody closes it. *)
Definition send_case (ev : event) (s : Session) : option (res unit * Session) :=
  let r := loop s in
  if (length (events r) <? capacity r)%nat then Some (Ok tt, with_loop (with_events (events r ++ [ev]) r) s) else None.

(** The value sent on a channel. *)
Fixpoint answer_on (ch : nat) (l : list (nat * answer)) : option answer :=
  match l with
  | [] => None
  | (ch', a) :: l' => if (ch' =? ch)%nat then Some a else answer_on ch l'
  end.
Definition result_case {A} (ch : nat) (read : answer -> res A) (s : Session) : option (res A * Session) :=
  a ← answer_on ch (answers (loop s)); Some (read a, s).

(** [ctx]: whether the select waits for the context too; context.Background never ends. *)
Definition enqueue (ctx : bool) (ev : event) : M Session unit := select (fun c s =>
  match c with CSend => send_case ev s | CContext => if ctx then context_case s else None | CDone => done_case s | CResult => None end).

Definition await {A} (ctx : bool) (ch : nat) (read : answer -> res A) : M Session A := select (fun c s =>
  match c with CResult => result_case ch read s | CContext => if ctx then context_case s else None | CDone => done_case s | CSend => None end).

(** What a call makes of the answer on its channel, which has one type. *)
Definition read_proposal (a : answer) : res (Z * Z) :=
  match a with proposalResult index term None => Ok (index, term) | proposalResult _ _ (Some e) => Err e | _ => Panic end.
Definition read_error (a : answer) : res unit := match a with errorResult None => Ok tt | errorResult (Some e) => Err e | _ => Panic end.
Definition read_status (a : answer) : res Status := match a with statusResult st => Ok st | _ => Panic end.
Definition read_read (a : answer) : res Z := match a with readResult index None => Ok index | readResult _ (Some e) => Err e | _ => Panic end.

(** ** The calls; [ch] is the channel a call makes. *)

Definition Propose (ch : nat) (command : bytes) : M Session (Z * Z) := enqueue true (proposalEvent command ch) ;; await true ch read_proposal.

Definition ChangeMembership (ch : nat) (voters : list Z) : M Session Z :=
  enqueue true (membershipEvent voters ch) ;; r ← await true ch read_proposal; mret r.1.

Definition step (ch : nat) (message : Message) (data : option Source) : M Session unit :=
  enqueue true (messageEvent message data ch) ;; await true ch read_error.
Definition Step (ch : nat) (message : Message) : M Session unit := step ch message None.

Definition StepSnapshot (ch : nat) (message : Message) (data : option Source) : M Session unit :=
  match data with
  | None => raise "snapshot data reader is required"
  | Some _ => enqueue true (messageEvent message data ch) ;; await false ch read_error
  end.

Definition Status_ (ctx : bool) (ch : nat) : M Session Status := enqueue ctx (statusEvent ch) ;; await ctx ch read_status.
Definition LinearizableRead (ch : nat) : M Session Z := enqueue true (readEvent ch) ;; await true ch read_read.

(** Close: once. The stop event may be queued behind the end of the loop, and then nothing
    answers it. *)
Definition close_queue (ch : nat) : M Session bool := select (fun c s =>
  match c with
  | CSend => '(_, s') ← send_case (stopEvent ch) s; Some (Ok true, s')
  | CDone => if stopped (loop s) then Some (Ok false, s) else None
  | _ => None
  end).
Definition close_result (ch : nat) : M Session (option string) := select (fun c s =>
  let result := a ← answer_on ch (answers (loop s)); match a with errorResult e => Some e | _ => None end in
  match c with
  | CResult => e ← result; Some (Ok e, s)
  | CDone => if stopped (loop s) then Some (Ok (default None result), s) else None
  | _ => None
  end).
Definition Close (ch : nat) : M Session (option string) :=
  s ← gets id;
  if closed s then mret None else
  modify (fun s => mkSession (loop s) (expired s) (script s) true) ;;
  queued ← close_queue ch;
  if queued : bool then close_result ch else mret None.

(** ** What a call waits for *)

Import Loop.

Definition turns_of (l : list moment) : list turn := omap (fun m => match m with Turn t => Some t | _ => None end) l.

(** The channels in use, now and by the requests to come. *)
Definition budget (l : list moment) (s : Session) : list nat := account (loop s) ++ concat (submitted <$> turns_of l).

(** A select ends with a case that is ready. *)
Lemma select_takes {A} (ready : case -> Session -> option (res A * Session)) l : forall s o s',
  select_on ready l s = (o, s') -> o <> Crash ->
  exists c l1 s1 s2, ready c s1 = Some (o, s2) /\ s' = with_script l1 s2 /\ budget l1 s1 ⊆+ budget l s /\ closed s1 = closed s.
Proof.
  induction l as [|[t|e|c] l IH]; intros s o s'; cbn [select_on]; [by intros [= <- <-]|..].
  - destruct (run t (loop s)) as [[[]|e| |] r] eqn:E; try (by intros [= <- <-]). intros H Ho.
    destruct (IH _ _ _ H Ho) as (c & l1 & s1 & s2 & H1 & H2 & H3 & H4). exists c, l1, s1, s2. split_and!; try done. etrans; [exact H3|].
    unfold budget. cbn. etrans; [apply submseteq_app; [exact (run_account _ _ _ E)|done]|]. solve_submseteq.
  - intros H Ho. destruct (IH _ _ _ H Ho) as (c & l1 & s1 & s2 & H1 & H2 & H3 & H4). exists c, l1, s1, s2.
    split_and!; [done|done| |]; destruct (expired s); done.
  - destruct (ready c s) as [[a s1]|] eqn:E; [|by apply IH]. intros [= -> <-] _. by exists c, l, s, s1.
Qed.

Lemma answer_on_in ch l a : answer_on ch l = Some a -> (ch, a) ∈ l.
Proof.
  induction l as [|[ch' a'] l IH]; cbn; [done|]. destruct (Nat.eqb_spec ch' ch) as [->|]; [intros [= ->]; by left|]. intros H. right. by apply IH.
Qed.

(** An answered channel is not in the queue. *)
Lemma answered_out ch a s l : NoDup (budget l s) -> answer_on ch (answers (loop s)) = Some a -> ch ∉ queued (loop s).
Proof.
  intros Hn Ha Hq. apply answer_on_in in Ha. unfold budget, account in Hn. rewrite <- !app_assoc in Hn.
  apply NoDup_app in Hn as (_ & Hd & _). apply (Hd ch); [by apply list_elem_of_fmap; exists (ch, a)|]. set_solver.
Qed.

Lemma budget_sub_NoDup l l' s s' : budget l s ⊆+ budget l' s' -> NoDup (budget l' s') -> NoDup (budget l s).
Proof. intros [k Hk]%submseteq_Permutation Hn. rewrite Hk in Hn. by apply NoDup_app in Hn as [??]. Qed.

(** A call whose event was queued under a channel of its own. *)
Lemma enqueue_budget ctx ev s s' : NoDup (event_chan ev :: budget (script s) s) -> enqueue ctx ev s = (Ok tt, s') -> NoDup (budget (script s') s').
Proof.
  intros Hn He. destruct (select_takes _ _ _ _ _ He ltac:(done)) as ([] & l1 & s1 & s2 & H1 & -> & H3 & _); try done.
  2:{ destruct ctx; [|done]. unfold context_case in H1. by destruct (expired s1). }
  2:{ unfold done_case in H1. by destruct (stopped _). }
  unfold send_case in H1. destruct (_ <? _)%nat; [|done]. injection H1 as <-.
  assert (budget l1 (with_loop (with_events (events (loop s1) ++ [ev]) (loop s1)) s1) ≡ₚ event_chan ev :: budget l1 s1) as E.
  { unfold budget, account, queued. cbn. rewrite !fmap_app. cbn. unfold waiters. cbn. solve_Permutation. }
  cbn. unfold budget in *. cbn in *. rewrite E. apply submseteq_Permutation in H3 as [k Hk]. rewrite Hk in Hn. apply NoDup_cons in Hn as [Hin Hn].
  apply NoDup_app in Hn as (Hn & _ & _). apply NoDup_cons. split; [set_solver|done].
Qed.

(** C13: A snapshot stream is the loop's until it is done with it. StepSnapshot, when it was
    given a channel nobody else uses, returns only after the loop has ended, or when the
    event is in none of the loop's queues: it was never queued, or it was answered.
    Cancelling the call does not take the reader away from an event the loop will still
    handle. *)
Theorem snapshot_reader_owned ch m src s o s' : NoDup (ch :: budget (script s) s) ->
  StepSnapshot ch m (Some src) s = (o, s') -> o <> Crash -> stopped (loop s') = true \/ ch ∉ queued (loop s').
Proof.
  intros Hn Hs Ho. unfold StepSnapshot, mbind, M_bind in Hs. destruct (enqueue _ _ s) as [[[]|e| |] s1] eqn:E; [|right|..]; try (simplify_eq; done).
  - pose proof (enqueue_budget true (messageEvent m (Some src) ch) _ _ Hn E) as Hn1.
    destruct (select_takes _ _ _ _ _ Hs Ho) as ([] & l1 & s2 & s3 & H1 & -> & H3 & _); try done; cbn in *.
    + unfold result_case in H1. destruct (answer_on _ _) as [a|] eqn:Ea; [|done]. injection H1 as _ <-. right.
      eapply answered_out; [|exact Ea]. eapply budget_sub_NoDup; [exact H3|done].
    + unfold done_case in H1. destruct (stopped (loop s2)) eqn:Es; [|done]. injection H1 as _ <-. by left.
  - injection Hs as <- <-. destruct (select_takes _ _ _ _ _ E ltac:(done)) as (c & l1 & s2 & s3 & H1 & -> & H3 & _).
    assert (s3 = s2) as ->.
    { destruct c; try done; [unfold send_case in H1; by destruct (_ <? _)%nat|unfold context_case in H1|unfold done_case in H1].
      - by destruct (expired s2); [injection H1|].
      - by destruct (stopped _); [injection H1|]. }
    apply NoDup_cons in Hn as [Hin _]. intros Hq. apply Hin. eapply elem_of_submseteq; [|exact H3]. unfold budget, account. set_solver.
  - injection Hs as <- <-. destruct (select_takes _ _ _ _ _ E ltac:(done)) as ([] & l1 & s2 & s3 & H1 & _); try done; cbn in H1.
    + unfold send_case in H1. by destruct (_ <? _)%nat.
    + unfold context_case in H1. by destruct (expired s2).
    + unfold done_case in H1. by destruct (stopped _).
Qed.

End calls.

(** ** Example *)

Import Core Api InStep.

(** A snapshot with an unknown sender arrives at a busy loop; the call is cancelled while its
    event is queued, and returns after the loop has handled it. *)
Definition stray_snapshot : Message := mkMessage MsgSnapshot 9 1 1 0 0 [] 0 false 0 0 None OriginOther.
Definition stray_session : @Session Durable (Z * bytes) :=
  mkSession solo_loop None [Take CSend; Expire "context canceled"; Take CContext; Turn TurnEvent; Take CResult; Turn TurnEvent; Take CResult] false.
Definition stray_source : Source := mkSource [str "x"] None.

Lemma snapshot_reader_owned_witness : exists s', StepSnapshot 8 stray_snapshot (Some stray_source) stray_session = (Ok tt, s') /\
  (stopped (loop s') = true \/ 8%nat ∉ Loop.queued (loop s')).
Proof.
  eexists. split; [vm_compute; exact eq_refl|].
  refine (snapshot_reader_owned 8 stray_snapshot stray_source stray_session (Ok tt) _ _ _ ltac:(discriminate)).
  - apply (bool_decide_unpack _). vm_compute. exact I.
  - vm_compute. exact eq_refl.
Defined.

End Calls.
