(* ===== verification/Server.v ===== *)
(** * A node serves

    src/cluster/node.go: the handlers of the KV and the Raft service of a node, on the calls
    of its runtime. A handler returns a response or a status. What a handler finds around it
    (the addresses of peers, the clock, the network) and its staging files are part of the
    state; channels are numbered as they are made. *)

From S2P Require Import Prelude GoStd Fs Memtable Bloom Wal Sstable Heap Compact Json Manifest Db Recovery Reopen Durability Replica Snapshot Kvstate Membership RaftTypes RaftNode RaftCore RaftRefine RaftHandlers RaftOps RaftApi RaftCluster Raftstore Stable Runtime Loop InStep Grpc Rpc Client Peers Startup Metrics Calls.

(** A state machine that can be read. *)
Class Readable (T : Type) := { machine_Get : bytes -> M T (option bytes) }.

(** What a node closes besides its runtime. *)
Class Services (E : Type) := {
  service_Stop : E -> E;                    (** the gRPC server and the metrics loop *)
  service_Shutdown : M E unit;              (** the metrics server, when there is one *)
  service_CloseTransport : M E unit;
  service_CloseListener : M E unit;
  service_SendAndClose : M E unit           (** the acknowledgement of a stream *)
}.

Module Returns.

(** [ends m s Qok Qerr]: what holds when the computation comes to its end. *)
Definition ends {S A} (m : M S A) (s : S) (Qok : A -> S -> Prop) (Qerr : S -> Prop) : Prop :=
  match m s with (Ok a, s') => Qok a s' | (Err _, s') => Qerr s' | _ => True end.

Section rules.
Context {S : Type}.
Implicit Types s : S.

Lemma ends_bind {A B} (m : M S A) (k : A -> M S B) s Qok Qerr :
  ends m s (fun a s' => ends (k a) s' Qok Qerr) Qerr -> ends (m ≫= k) s Qok Qerr.
Proof. unfold ends, mbind, M_bind. by destruct (m s) as [[a|e| |] s']. Qed.
Lemma ends_mono {A} (m : M S A) s (Qok Qok' : A -> S -> Prop) (Qerr Qerr' : S -> Prop) :
  ends m s Qok Qerr -> (forall a s', Qok a s' -> Qok' a s') -> (forall s', Qerr s' -> Qerr' s') -> ends m s Qok' Qerr'.
Proof. unfold ends. destruct (m s) as [[a|e| |] s']; auto. Qed.
Lemma ends_ret {A} (a : A) s (Qok : A -> S -> Prop) Qerr : Qok a s -> ends (mret a) s Qok Qerr.
Proof. done. Qed.
Lemma ends_try_err {A} (m : M S A) s (Qok : option string -> S -> Prop) Qerr :
  ends m s (fun _ s' => Qok None s') (fun s' => forall e, Qok (Some e) s') -> ends (try_err m) s Qok Qerr.
Proof. unfold ends, try_err. destruct (m s) as [[a|e| |] s']; auto. Qed.
Lemma ends_ignore {A} (m : M S A) s (Qok : unit -> S -> Prop) Qerr :
  ends m s (fun _ s' => Qok tt s') (fun s' => Qok tt s') -> ends (ignore m) s Qok Qerr.
Proof. unfold ends, ignore. destruct (m s) as [[a|e| |] s']; auto. Qed.
Lemma ends_zoom {T A} (get : T -> S) (put : S -> T -> T) (m : M S A) t Qok Qerr :
  ends m (get t) (fun a s' => Qok a (put s' t)) (fun s' => Qerr (put s' t)) -> ends (zoom get put m) t Qok Qerr.
Proof. unfold ends, zoom. by destruct (m (get t)) as [[a|e| |] s']. Qed.
Lemma ends_same {A} (m : M S A) s a s' Qok Qerr : m s = (Ok a, s') -> ends m s Qok Qerr -> Qok a s'.
Proof. unfold ends. by intros ->. Qed.
End rules.

(** A system call that fails leaves the files. *)
Lemma ends_sys what f w (Qok : unit -> World -> Prop) Qerr :
  (forall w', files w' = f (files w) -> Qok tt w') -> (forall w', files w' = files w -> Qerr w') -> ends (sys what f) w Qok Qerr.
Proof.
  intros Hok Herr. unfold ends, sys, next_fate. destruct (fates w) as [|[]]; cbn; [apply Hok|apply Hok|apply Herr|]; done.
Qed.

End Returns.

Module Server.
Import Membership Raft Node Raftstore Runtime Calls Rpc.

Section server.
Context {E S T : Type} `{!Kvstate.CommandCodec} `{!StableStore S} `{!StateMachine T} `{!Readable T} `{!Peers.Surroundings E} `{!Services E}.
Implicit Types A R : Type.

Record Server := mkServer {
  session : @Session S T;
  env : E;
  disk : World;
  counters : Metrics.ServiceMetrics;
  gauges : Metrics.StatusMetrics;
  next : nat;                        (** the next channel *)
  closeErr : option string;
  down : bool                        (** closeOnce was used *)
}.

(** The configuration, and the resolver StartNode makes of it. *)
Context (config : Startup.NodeConfig E) (peerResolver : Peers.Resolver E).
(** The order in which range visits a set. *)
Context (visit : gset Z -> list Z) (visit_all : forall X, visit X ≡ₚ elements X).
(** How a reader splits what it reads. *)
Context (pieces : bytes -> list bytes) (pieces_all : forall b, concat (pieces b) = b).

Definition set_session x v := mkServer x (env v) (disk v) (counters v) (gauges v) (next v) (closeErr v) (down v).
Definition set_env x v := mkServer (session v) x (disk v) (counters v) (gauges v) (next v) (closeErr v) (down v).
Definition set_disk x v := mkServer (session v) (env v) x (counters v) (gauges v) (next v) (closeErr v) (down v).
Definition set_counters x v := mkServer (session v) (env v) (disk v) x (gauges v) (next v) (closeErr v) (down v).
Definition set_gauges x v := mkServer (session v) (env v) (disk v) (counters v) x (next v) (closeErr v) (down v).
Definition set_next x v := mkServer (session v) (env v) (disk v) (counters v) (gauges v) x (closeErr v) (down v).

(** A call of the runtime on a channel of its own; its error is a value. *)
Definition call {A} (m : nat -> M Session A) : M Server (string + A) := fun v =>
  match m (next v) (session v) with
  | (Ok a, s) => (Ok (inr a), set_next (next v + 1)%nat (set_session s v))
  | (Err e, s) => (Ok (inl e), set_next (next v + 1)%nat (set_session s v))
  | (Panic, s) => (Panic, set_session s v)
  | (Crash, s) => (Crash, set_session s v)
  end.

(** [n.machine], which the loop uses too. *)
Definition on_loop_machine {A} (m : M T A) : M Server A :=
  zoom (fun v => machine (loop (session v))) (fun t v => set_session (with_loop (with_machine t (loop (session v))) (session v)) v) m.

Definition peerAddress (id : Z) : M Server (string + bytes) := fun v =>
  let (r, e) := peerResolver id (env v) in (Ok r, set_env e v).

Definition fail_with (c : Code) (text : string) : Status := mkStatus c text [].

(** ** Errors *)

Definition ErrNoMembershipChange : string := "requested raft membership is already active".
Definition context_canceled : string := "context canceled".
Definition deadline_exceeded : string := "context deadline exceeded".

(** errors.Is: the loop wraps errors of the store and the machine, none of these. *)
Definition is_err (err target : string) : bool := bool_decide (err = target).

Definition rpcError (err : string) : M Server Status :=
  if is_err err ErrNotLeader then
    current ← call (Status_ false);
    let leader := match current with inr st => st_LeaderID st | inl _ => 0 end in
    address ← peerAddress leader;
    mret (mkStatus FailedPrecondition "node is not the Raft leader" [NotLeader leader (match address with inr a => a | inl _ => [] end)])
  else mret
    (if is_err err ErrEntryTooLarge then fail_with InvalidArgument err else
     if is_err err ErrReadNotReady then fail_with Unavailable err else
     if is_err err ErrMembershipChangeInProgress || is_err err ErrNoMembershipChange then fail_with FailedPrecondition err else
     if is_err err context_canceled then fail_with Canceled err else
     if is_err err deadline_exceeded then fail_with DeadlineExceeded err else
     fail_with Unavailable err).

(** A response, or the status of an error. *)
Definition refuse {R} (err : string) : M Server (Status + R) := st ← rpcError err; mret (inl st).
Definition invalid {R} (text : string) : M Server (Status + R) := mret (inl (fail_with InvalidArgument text)).

(** ** The KV service *)

Definition count_proposal (result : bytes) : M Server unit :=
  modify (fun v => set_counters (Metrics.mkServiceMetrics (Metrics.add result 1 (Metrics.proposals (counters v)))
    (Metrics.rpcRequests (counters v)) (Metrics.rpcDuration (counters v))) v).

Definition write (command : bytes) : M Server (Status + WriteResponse) :=
  r ← call (fun ch => Propose ch command);
  match r with
  | inl err => count_proposal (str "error") ;; refuse err
  | inr (index, term) => count_proposal (str "committed") ;; mret (inr (mkWritten term index))
  end.

(** A command that cannot be encoded is the caller's fault. *)
Definition write_encoded (command : res bytes) : M Server (Status + WriteResponse) :=
  match command with
  | Ok c => write c
  | Err e => invalid e
  | Panic => of_res Panic
  | Crash => of_res Crash
  end.

Definition Put (request : option PutRequest) : M Server (Status + WriteResponse) :=
  match request with
  | None => invalid "request is required"
  | Some q => write_encoded (Kvstate.EncodeCommand Kvstate.OPERATION_PUT (put_key q) (put_value q) (put_client q) (put_seq q))
  end.

Definition Delete (request : option DeleteRequest) : M Server (Status + WriteResponse) :=
  match request with
  | None => invalid "request is required"
  | Some q => write_encoded (Kvstate.EncodeCommand Kvstate.OPERATION_DELETE (del_key q) [] (del_client q) (del_seq q))
  end.

Definition Get (request : option bytes) : M Server (Status + GetResponse) :=
  match request with
  | None => invalid "request is required"
  | Some key =>
      r ← call LinearizableRead;
      match r with
      | inl err => refuse err
      | inr readIndex =>
          catch (value ← on_loop_machine (machine_Get key);
                 mret (inr (mkGot (match value with Some _ => true | None => false end) (default [] value) readIndex)))
            (fun e => invalid e)
      end
  end.

(** The addresses of peers, in the order of their IDs; an unknown one is empty. *)
Fixpoint peer_list (ids : list Z) : M Server (list (Z * bytes)) :=
  match ids with
  | [] => mret []
  | id :: ids' =>
      address ← peerAddress id;
      rest ← peer_list ids';
      mret ((id, match address with inr a => a | inl _ => [] end) :: rest)
  end.

Definition by_id (p q : Z * bytes) : Prop := p.1 <= q.1.
#[local] Instance by_id_dec p q : Decision (by_id p q).
Proof. unfold by_id. apply _. Defined.

Definition Status_rpc : M Server (Status + StatusResponse) :=
  r ← call (Status_ true);
  match r with
  | inl err => refuse err
  | inr current =>
      let m := st_Membership current in
      let peerIDs := dom (Startup.nc_Peers config) ∪ list_to_set (Voters m ++ JointVoters m) in
      peers ← peer_list (visit peerIDs);
      applied ← gets (fun v => machine_AppliedIndex (machine (loop (session v))));
      mret (inr (mkNodeStatus (st_ID current) (Role_String (st_Role current)) (st_Term current) (st_LeaderID current) (st_CommitIndex current)
                   applied (merge_sort by_id peers) (st_SnapshotIndex current) (st_RetainedLogEntries current) (Voters m) (JointVoters m)))
  end.

Fixpoint check_voters (seen : gset Z) (l : list Z) : M Server (option string) :=
  match l with
  | [] => mret None
  | id :: l' =>
      address ← peerAddress id;
      match address with
      | inl e => mret (Some ("resolve voter: " ++ e)%string)
      | inr _ => if bool_decide (id ∈ seen) then mret (Some "duplicate voter"%string) else check_voters ({[id]} ∪ seen) l'
      end
  end.

Definition ChangeMembership_rpc (request : option (list Z)) : M Server (Status + ChangeResponse) :=
  match request with
  | None | Some [] => invalid "at least one voter ID is required"
  | Some voters =>
      checked ← check_voters ∅ voters;
      match checked with
      | Some e => invalid e
      | None =>
          r ← call (fun ch => ChangeMembership ch voters);
          match r with
          | inl err => refuse err
          | inr index =>
              st ← call (Status_ true);
              match st with
              | inl err => refuse err
              | inr current => mret (inr (mkChanged (st_Term current) index))
              end
          end
      end
  end.

(** The handler of a client's request. *)
Definition serve {R} (q : request R) : M Server (Status + R) :=
  match q with
  | CallPut r => Put (Some r)
  | CallDelete r => Delete (Some r)
  | CallGet key => Get (Some key)
  | CallStatus => Status_rpc
  | CallChange voters => ChangeMembership_rpc (Some voters)
  end.

(** ** The Raft service *)

Definition handleRaftMessage (request : option Grpc.RaftMessage) : M Server (Status + unit) :=
  match Grpc.FromProto request with
  | Ok message =>
      if negb (m_to message =? Startup.nc_ID config) then invalid "message addressed to another node" else
      r ← call (fun ch => Step ch message);
      match r with inl err => refuse err | inr _ => mret (inr tt) end
  | Err e => invalid e
  | Panic => of_res Panic
  | Crash => of_res Crash
  end.

Definition Send := handleRaftMessage.

Definition on_disk {A} (m : M World A) : M Server A := zoom disk set_disk m.
Definition on_env {A} (m : M E A) : M Server A := zoom env set_env m.
Definition internal {R} (text : string) : M Server (Status + R) := mret (inl (fail_with Internal text)).

(** The chunks of a stream are written to the staging file, from its start. *)
Definition receive_into (tmp : bytes) (stream : list Grpc.Received) : M World (string + Message) := fun w =>
  match Grpc.ReceiveSnapshotTo (f_Write tmp) stream (0%nat, w) with
  | (Ok m, (_, w')) => (Ok (inr m), w')
  | (Err e, (_, w')) => (Ok (inl e), w')
  | (Panic, (_, w')) => (Panic, w')
  | (Crash, (_, w')) => (Crash, w')
  end.

(** The file is open: close it and go on. *)
Definition close_staging {A} (m : M Server A) : M Server A := ignore (on_disk f_Close) ;; m.

Definition staged (tmp : bytes) (stream : list Grpc.Received) : M Server (Status + unit) :=
  received ← on_disk (receive_into tmp stream);
  match received with
  | inl e => close_staging (invalid e)
  | inr message =>
      synced ← try_err (on_disk f_Sync);
      if synced : option string then close_staging (internal "sync snapshot staging file") else
      sought ← try_err (on_disk f_Seek);
      if sought : option string then close_staging (internal "rewind snapshot staging file") else
      if negb (m_to message =? Startup.nc_ID config) then close_staging (invalid "snapshot addressed to another node") else
      content ← gets (fun v => default [] (files (disk v) !! tmp));
      r ← call (fun ch => StepSnapshot ch message (Some (mkSource (pieces content) None)));
      match r with
      | inl err => close_staging (refuse err)
      | inr _ =>
          closed ← try_err (on_disk f_Close);
          if closed : option string then internal "close snapshot staging file" else
          sent ← try_err (on_env service_SendAndClose);
          match sent with Some e => mret (inl (fail_with OtherCode e)) | None => mret (inr tt) end
      end
  end.

(** [tmp]: the name os.CreateTemp chooses. *)
Definition InstallSnapshot (tmp : bytes) (stream : list Grpc.Received) : M Server (Status + unit) :=
  created ← try_err (on_disk (os_Create tmp));
  if created : option string then internal "create snapshot staging file" else
  r ← staged tmp stream;
  ignore (on_disk (os_Remove tmp)) ;;
  mret r.

(** ** The node *)

(** One turn of observeMetrics, when its timer fires. *)
Definition observe_once (previous : Raft.Status) : M Server Raft.Status :=
  r ← call (Status_ true);
  match r with
  | inl _ => mret previous
  | inr current =>
      modify (fun v => set_gauges (Metrics.observeStatus previous current (machine_AppliedIndex (machine (loop (session v)))) (gauges v)) v) ;;
      mret current
  end.

Definition note_close (replace : bool) (e : option string) : M Server unit := modify (fun v =>
  mkServer (session v) (env v) (disk v) (counters v) (gauges v) (next v)
    (match e with
     | None => closeErr v
     | Some e => if replace then Some e else match closeErr v with Some _ => closeErr v | None => Some e end
     end) true).

Definition Close_node : M Server (option string) :=
  v ← gets id;
  if down v then mret (closeErr v) else
  modify (fun v => set_env (service_Stop (env v)) v) ;;
  note_close true None ;;
  (if (length (Startup.nc_MetricsAddress config) =? 0)%nat then mret tt else
   e ← try_err (on_env service_Shutdown); note_close true e) ;;
  r ← call Calls.Close;
  note_close true (match r with inr e => e | inl e => Some e end) ;;
  e ← try_err (on_env service_CloseTransport);
  note_close false e ;;
  ignore (on_env service_CloseListener) ;;
  gets closeErr.

(** ** Snapshots that are received *)

Import Returns.

Section staging.
Context (tmp : bytes).

(** Everything but the staging file. *)
Definition others (w : World) : gmap bytes bytes := delete tmp (files w).

Lemma write_others pos data fs : delete tmp (write_bytes tmp pos data fs) = delete tmp fs.
Proof. unfold write_bytes. apply map_eq. intros k. rewrite !lookup_delete. destruct (decide (tmp = k)); [done|]. by rewrite lookup_alter_ne. Qed.

Lemma f_Write_ends data pos w c : files w !! tmp = Some c -> pos = length c ->
  ends (f_Write tmp data) (pos, w)
    (fun _ st => files st.2 !! tmp = Some (c ++ data) /\ st.1 = length (c ++ data) /\ others st.2 = others w)
    (fun st => others st.2 = others w).
Proof.
  intros Hc ->. unfold ends, f_Write, next_fate, others. destruct (fates w) as [|[|k|k]]; cbn; rewrite ?write_others; try done.
  all: split_and!; [|by rewrite length_app|done]; unfold write_bytes; rewrite lookup_alter_eq, Hc; cbn; by rewrite splice_end.
Qed.

Lemma writes_end l : forall pos w c, files w !! tmp = Some c -> pos = length c ->
  ends (Grpc.writes (f_Write tmp) l) (pos, w) (fun _ st => files st.2 !! tmp = Some (c ++ concat l)) (fun _ => True).
Proof.
  induction l as [|d l IH]; intros pos w c Hc Hpos; unfold Grpc.writes in *; cbn [mfold concat]; [apply ends_ret; by rewrite app_nil_r|].
  apply ends_bind. unfold Grpc.copy. destruct (Nat.eqb_spec (length d) 0) as [E0|E0].
  - apply nil_length_inv in E0 as ->. apply ends_ret. by apply IH.
  - eapply ends_mono; [by apply f_Write_ends| |done]. intros _ [pos' w'] (H1 & H2 & _). cbn in *. rewrite app_assoc. by apply IH.
Qed.

Lemma receive_others l : forall first received crc pos w c, files w !! tmp = Some c -> pos = length c ->
  ends (Grpc.receive (f_Write tmp) l first received crc) (pos, w) (fun _ st => others st.2 = others w) (fun st => others st.2 = others w).
Proof.
  induction l as [|[[ch|]|e] l IH]; intros first received crc pos w c Hc Hpos; cbn [Grpc.receive]; try done.
  - destruct first as [f|]; [|done]. destruct (negb _); [done|]. by destruct (negb _).
  - destruct (Grpc.check_metadata first ch); [done|]. destruct (Grpc.check_bounds received ch); [done|]. apply ends_bind.
    assert (ends (Grpc.copy (f_Write tmp) (Grpc.sc_data ch)) (pos, w)
      (fun _ st => others st.2 = others w /\ exists c', files st.2 !! tmp = Some c' /\ st.1 = length c') (fun st => others st.2 = others w)) as Hcopy.
    { unfold Grpc.copy. destruct (_ =? _)%nat; [apply ends_ret; eauto|]. eapply ends_mono; [by apply f_Write_ends| |done].
      intros _ st (H1 & H2 & H3). eauto. }
    unfold ends, catch in *. destruct (Grpc.copy _ _ _) as [[[]|e| |] [pos' w']]; [|done..].
    destruct Hcopy as (Ho & c' & Hc' & Hp'). specialize (IH (Some (default ch first)) (u64 (received + Z.of_nat (length (Grpc.sc_data ch))))
      (crc32_update crc (Grpc.sc_data ch)) pos' w' c' Hc' Hp'). cbn in Ho. rewrite Ho in IH. exact IH.
Qed.

(** The chunks of a stream that was accepted, and what their sender announced. *)
Definition carries (stream : list Grpc.Received) (m : Message) (content : bytes) : Prop :=
  exists cs f, stream = Grpc.RChunk ∘ Some <$> cs /\ Grpc.stream_ok f cs /\ m = Grpc.announced f [] /\ content = Grpc.whole cs.

Lemma receive_into_ends stream w : files w !! tmp = Some [] ->
  ends (receive_into tmp stream) w (fun r w' => others w' = others w /\
    forall m, r = inr m -> exists content, files w' !! tmp = Some content /\ carries stream m content) (fun _ => False).
Proof.
  intros Hw. unfold ends, receive_into. pose proof (receive_others stream None 0 0 0 w [] Hw eq_refl) as Ho. unfold ends in Ho.
  pose proof (Grpc.ReceiveSnapshotTo_accepts (f_Write tmp) stream (0%nat, w)) as Ha. unfold Grpc.ReceiveSnapshotTo in *.
  destruct (Grpc.receive _ _ _ _ _ _) as [[m|e| |] [pos w']]; try done. split; [done|]. intros m' [= <-].
  destruct (proj1 (Ha m (pos, w')) eq_refl) as (cs & f & -> & Hok & Hwr & ->). exists (Grpc.whole cs). split; [|by exists cs, f].
  pose proof (writes_end (Grpc.sc_data <$> cs) 0 w [] Hw eq_refl) as He. unfold ends in He. rewrite Hwr in He. exact He.
Qed.
End staging.

(** How a handler of a stream ends: only the staging file may have changed; on success the
    loop accepted the snapshot that was streamed. *)
Definition installed (stream : list Grpc.Received) (v v' : Server) (r : Status + unit) : Prop :=
  r = inr tt -> exists m content, carries stream m content /\ m_to m = Startup.nc_ID config /\
    StepSnapshot (next v) m (Some (mkSource (pieces content) None)) (session v) = (Ok tt, session v').

Lemma ends_call {A} (m : nat -> M Session A) v (Q : string + A -> Server -> Prop) Qerr :
  (forall a s, m (next v) (session v) = (Ok a, s) -> Q (inr a) (set_next (next v + 1) (set_session s v))) ->
  (forall e s, m (next v) (session v) = (Err e, s) -> Q (inl e) (set_next (next v + 1) (set_session s v))) -> ends (call m) v Q Qerr.
Proof. intros Hok Herr. unfold ends, call. destruct (m (next v) (session v)) as [[a|e| |] s] eqn:Em; auto. Qed.

Lemma refuse_ends {R} err v : ends (refuse (R := R) err) v (fun r v' => disk v' = disk v /\ exists st, r = inl st) (fun _ => False).
Proof.
  unfold refuse, rpcError. apply ends_bind. destruct (is_err err ErrNotLeader).
  - apply ends_bind. apply ends_call; intros; apply ends_bind; unfold ends, peerAddress; cbn; destruct (peerResolver _ _); cbn; split; eauto.
  - apply ends_ret, ends_ret. eauto.
Qed.

(** Ends of a handler that reports an error: only the staging file may have changed. *)
Definition refused tmp v (r : Status + unit) v' : Prop := others tmp (disk v') = others tmp (disk v) /\ exists st, r = inl st.

Lemma close_staging_ends tmp (m : M Server (Status + unit)) v :
  (forall v', ends m v' (fun r v2 => disk v2 = disk v' /\ exists st, r = inl st) (fun _ => False)) ->
  ends (close_staging m) v (refused tmp v) (fun _ => False).
Proof.
  intros Hm. apply ends_bind, ends_ignore, ends_zoom.
  apply ends_sys; intros w' Hw; (eapply ends_mono; [by apply Hm| |done]); intros r v2 [Ed Hr]; (split; [|done]); unfold others; rewrite Ed; cbn; by rewrite Hw.
Qed.

Lemma refused_installed tmp stream v v1 r v' : others tmp (disk v1) = others tmp (disk v) -> refused tmp v1 r v' ->
  others tmp (disk v') = others tmp (disk v) /\ installed stream v v' r.
Proof. intros H1 [H2 [st ->]]. split; [congruence|done]. Qed.

Lemma staged_ends tmp stream v : files (disk v) !! tmp = Some [] ->
  ends (staged tmp stream) v (fun r v' => others tmp (disk v') = others tmp (disk v) /\ installed stream v v' r) (fun _ => False).
Proof.
  intros Hv. unfold staged. apply ends_bind, ends_zoom. eapply ends_mono; [by apply receive_into_ends| |done]. intros r w [Ho Hr].
  assert (forall (m : M Server (Status + unit)) v1, others tmp (disk v1) = others tmp (disk v) ->
    (forall v', ends m v' (fun r v2 => disk v2 = disk v' /\ exists st, r = inl st) (fun _ => False)) ->
    ends (close_staging m) v1 (fun r v' => others tmp (disk v') = others tmp (disk v) /\ installed stream v v' r) (fun _ => False)) as Hclose.
  { intros m v1 H1 Hm. eapply ends_mono; [by apply (close_staging_ends tmp)| |done]. intros r' v' H'. by eapply refused_installed. }
  destruct r as [e|m]; [apply Hclose; [done|]; intros v'; apply ends_ret; eauto|]. destruct (Hr m eq_refl) as (content & Hc & Hcar).
  apply ends_bind, ends_try_err, ends_zoom. apply ends_sys; intros w1 H1; [|intros e; apply Hclose; [unfold others; cbn; by rewrite H1|]; intros v'; apply ends_ret; eauto].
  apply ends_bind, ends_try_err, ends_zoom. cbn in H1. apply ends_sys; intros w2 H2; [|intros e; apply Hclose; [unfold others; cbn in *; by rewrite H2, H1|]; intros v'; apply ends_ret; eauto].
  cbn in H2. assert (others tmp w2 = others tmp (disk v)) as Ho2 by (unfold others in *; unfold id in *; congruence).
  destruct (Z.eqb_spec (m_to m) (Startup.nc_ID config)) as [Hto|Hto]; cbn [negb]; [|apply Hclose; [done|]; intros v'; apply ends_ret; eauto].
  apply ends_bind. unfold ends at 1. cbn [gets disk set_disk]. apply ends_bind, ends_call; [|intros e s _; apply Hclose; [done|]; intros v'; apply refuse_ends].
  intros [] s Hs. cbn [disk set_disk] in Hs. unfold id in *. rewrite H2, H1, Hc in Hs. cbn in Hs.
  assert (forall r v', session v' = s -> installed stream v v' r) as Hin by (intros r v' Es _; exists m, content; by rewrite Es).
  apply ends_bind, ends_try_err, ends_zoom. apply ends_sys; intros w3 H3; [|intros e; apply ends_ret; split; [unfold others in *; cbn in *; unfold id in *; congruence|by apply Hin]].
  apply ends_bind, ends_try_err, ends_zoom. unfold ends. cbn in H3. unfold id in *.
  destruct (service_SendAndClose _) as [[[]|e| |] e']; try done; [|intros e1]; (split; [unfold others in *; cbn in *; congruence|by apply Hin]).
Qed.

(** The staging file is gone afterwards, or its removal failed. *)
Definition cleaned tmp v v' : Prop :=
  files (disk v') = files (disk v) \/ others tmp (disk v') = files (disk v) /\ exists w e, os_Remove tmp w = (Err e, disk v').

Lemma os_Remove_ends tmp w (Qok : unit -> World -> Prop) Qerr :
  (forall w', files w' = delete tmp (files w) -> Qok tt w') ->
  (forall e w', os_Remove tmp w = (Err e, w') -> files w' = files w -> Qerr w') -> ends (os_Remove tmp) w Qok Qerr.
Proof.
  intros Hok Herr. unfold ends. destruct (os_Remove tmp w) as [[[]|e| |] w'] eqn:Er; try done; [apply Hok|eapply Herr; [done|]]; revert Er; unfold os_Remove.
  all: destruct (files w !! tmp); [unfold sys, next_fate; destruct (fates w) as [|[|k|k]]; cbn|]; intros Er; simplify_eq; done.
Qed.

(** What the handler of a stream does, however it ends: no file but its staging file changes,
    and when it acknowledges the stream, the runtime took the snapshot that was streamed. *)
Lemma InstallSnapshot_ends tmp stream v : files (disk v) !! tmp = None ->
  ends (InstallSnapshot tmp stream) v (fun r v' => cleaned tmp v v' /\ installed stream v v' r) (fun _ => False).
Proof.
  intros Hv. unfold InstallSnapshot. apply ends_bind, ends_try_err, ends_zoom.
  apply ends_sys; intros w Hw; [|intros e; apply ends_ret; split; [by left|done]].
  apply ends_bind. eapply ends_mono; [apply staged_ends; cbn; rewrite Hw; apply lookup_insert_eq| |done].
  intros r v1 [Ho Hi]. cbn in Ho. unfold others at 2 in Ho. rewrite Hw, delete_insert_id in Ho by done.
  apply ends_bind, ends_ignore, ends_zoom. apply os_Remove_ends.
  - intros w' Hw'. apply ends_ret. split; [left; cbn; by rewrite Hw'|done].
  - intros e w' He Hw'. apply ends_ret. split; [right; split; [unfold others; cbn; by rewrite Hw'|by exists (disk v1), e]|done].
Qed.

(** C23: A snapshot travels from the store of one node to the loop of another. If sendSnapshot
    returned without an error and the handler at the other end acknowledged its stream, then
    the runtime there accepted the message with the sender's metadata, and its reader gives
    exactly the bytes the source held, which have the announced size and checksum. However
    the handler ends, it changes no file but its staging file, which is gone unless its
    removal failed. *)
Theorem snapshot_travels `{!Grpc.Connections X} `{!Grpc.ConnectionLaws X} conn m s size checksum content fault (x : X) st tmp v r v' :
  m_snapshot m = Some s -> 0 <= size -> m_from m <> 0 -> m_to m <> 0 -> m_term m <> 0 -> s_index s <> 0 -> s_term s <> 0 ->
  Grpc.sendSnapshot conn m size checksum (Grpc.mkReader content fault, x) = (Ok tt, st) ->
  files (disk v) !! tmp = None -> InstallSnapshot tmp (Grpc.RChunk ∘ Some <$> Grpc.sent st.2) v = (Ok r, v') ->
  cleaned tmp v v' /\
  (r = inr tt -> size = Z.of_nat (length content) /\ checksum = ChecksumIEEE content /\ m_to m = Startup.nc_ID config /\
     exists source, concat (chunks source) = content /\ source_error source = None /\
       StepSnapshot (next v) (Grpc.delivered m s []) (Some source) (session v) = (Ok tt, session v')).
Proof.
  intros Hm Hsz Hm1 Hm2 Hm3 Hm4 Hm5 Hsend Hv Hin. pose proof (InstallSnapshot_ends tmp (Grpc.RChunk ∘ Some <$> Grpc.sent st.2) v Hv) as He.
  destruct (ends_same _ _ _ _ _ _ Hin He) as [Hc Hi]. split; [done|]. intros ->. destruct (Hi eq_refl) as (m' & content' & Hcar & Hto & Hstep).
  pose proof (Grpc.sendSnapshot_runs m s size checksum conn content fault x Hm Hsz) as Hrun. unfold runs in Hrun. rewrite Hsend in Hrun.
  destruct Hrun as (Hs & Hf & Hmax & Hp & Hw & Hne & _).
  destruct (Grpc.partial_stream m s size checksum (Grpc.sent st.2) Hp Hne ltac:(congruence) Hmax Hm1 Hm2 Hm3 Hm4 Hm5) as (f & Hok & Hh & Ha).
  destruct Hcar as (cs & f' & Ecs & Hok' & -> & ->). apply (inj (fmap (M := list) (Grpc.RChunk ∘ Some))) in Ecs. subst cs.
  assert (f' = f) as -> by (apply Grpc.so_first in Hok'; congruence). rewrite Hw in *.
  assert (Grpc.announced f [] = Grpc.delivered m s []) as Ea.
  { unfold Grpc.announced, Grpc.delivered in *. injection Ha. intros. congruence. }
  rewrite Ea in *. split_and!; [done|by apply Hok|done|]. exists (mkSource (pieces content) None).
  split; [apply pieces_all|]. split; [done|exact Hstep].
Qed.

(** ** What the handlers promise *)

(** A message another node converted for the wire is stepped as it was, if it is addressed
    to this node, and otherwise refused without a call of the runtime. *)
Theorem message_delivered m v : Grpc.wire m = m ->
  handleRaftMessage (Some (Grpc.ToProto m)) v =
  (if negb (m_to m =? Startup.nc_ID config) then invalid "message addressed to another node" else
   r ← call (fun ch => Step ch m); match r with inl err => refuse err | inr _ => mret (inr tt) end) v.
Proof. intros Hw. unfold handleRaftMessage. by rewrite (proj2 (Grpc.FromProto_exact (Grpc.ToProto m) m)). Qed.

Lemma peer_list_ends ids : forall v, ends (peer_list ids) v (fun l _ => l.*1 = ids) (fun _ => False).
Proof.
  induction ids as [|id ids IH]; intros v; cbn [peer_list]; [by apply ends_ret|]. apply ends_bind. unfold ends at 1, peerAddress.
  destruct (peerResolver id (env v)) as [a e]. apply ends_bind. eapply ends_mono; [apply IH| |done]. intros l v' <-. by apply ends_ret.
Qed.

(** A membership change reaches the runtime only with voters that are there, each once. *)
Lemma check_voters_ends l : forall seen v, ends (check_voters seen l) v
  (fun e _ => e = None -> NoDup l /\ forall id, id ∈ l -> id ∉ seen) (fun _ => False).
Proof.
  clear visit_all pieces_all. induction l as [|id l IH]; intros seen v; cbn [check_voters].
  { apply ends_ret. intros _. split; [constructor|]. intros id Hid. by apply elem_of_nil in Hid. }
  apply ends_bind. unfold ends at 1, peerAddress. destruct (peerResolver id (env v)) as [[e|a] e']; [by apply ends_ret|].
  case_bool_decide as Hs; [by apply ends_ret|]. eapply ends_mono; [apply IH| |done]. intros o v' Ho Hnone. destruct (Ho Hnone) as [Hn Hd].
  split; [apply NoDup_cons; split; [intros Hin; apply (Hd id Hin); set_solver|done]|]. intros x [->|Hx]%elem_of_cons; [done|]. specialize (Hd x Hx). set_solver.
Qed.

(** The errors of the runtime a client gives up on. *)
Definition final (err : string) : Prop :=
  err = ErrEntryTooLarge \/ err = ErrMembershipChangeInProgress \/ err = ErrNoMembershipChange.

(** What a client makes of the status [st] that stands for the error [err]. *)
Definition stands_for (st : Status) (err : string) : Prop :=
  (Client.gives_up st = true <-> final err) /\ ((Client.leaderHint st).2 = true <-> err = ErrNotLeader).

Lemma refuse_stands {R} err v : ends (refuse (R := R) err) v (fun r _ => exists st, r = inl st /\ stands_for st err) (fun _ => False).
Proof.
  unfold refuse, rpcError, stands_for, final. apply ends_bind. unfold is_err. destruct (bool_decide_reflect (err = ErrNotLeader)) as [->|Hn].
  - apply ends_bind. apply ends_call; intros; apply ends_bind; unfold ends, peerAddress; cbn; destruct (peerResolver _ _); cbn;
      eexists; (split; [done|]); (split; [|done]); split; try done; by intros [?|[?|?]].
  - apply ends_ret, ends_ret. eexists. split; [done|].
    repeat (case_bool_decide as Hb; [subst err; cbn; split; [by split; auto|by split]|]); cbn.
    all: repeat match goal with |- context [bool_decide ?P] => destruct (bool_decide_reflect P) end; cbn; subst; split; try (by split); split; intros; naive_solver.
Qed.

(** The encoding of the command of a write. *)
Definition encoding {R} (q : request R) : res bytes :=
  match q with
  | CallPut r => Kvstate.EncodeCommand Kvstate.OPERATION_PUT (put_key r) (put_value r) (put_client r) (put_seq r)
  | CallDelete r => Kvstate.EncodeCommand Kvstate.OPERATION_DELETE (del_key r) [] (del_client r) (del_seq r)
  | _ => Panic
  end.

(** The handler itself refuses the request: the command of a write cannot be encoded, the
    machine cannot read the key, or the voters are not there, each once and with an address. *)
Definition rejects {R} (q : request R) (text : string) (v : Server) : Prop :=
  match q with
  | CallPut _ | CallDelete _ => encoding q = Err text
  | CallGet key => exists i s, LinearizableRead (next v) (session v) = (Ok i, s) /\ (machine_Get key (machine (loop s))).1 = Err text
  | CallStatus => False
  | CallChange [] => text = "at least one voter ID is required"%string
  | CallChange voters => (check_voters ∅ voters v).1 = Ok (Some text)
  end.

(** The runtime returns an error to the handler. *)
Definition raises {R} (q : request R) (err : string) (v : Server) : Prop :=
  match q with
  | CallPut _ | CallDelete _ => exists c s, encoding q = Ok c /\ Propose (next v) c (session v) = (Err err, s)
  | CallGet _ => exists s, LinearizableRead (next v) (session v) = (Err err, s)
  | CallStatus => exists s, Status_ true (next v) (session v) = (Err err, s)
  | CallChange voters => exists v1, check_voters ∅ voters v = (Ok None, v1) /\
      ((exists s, ChangeMembership (next v1) voters (session v1) = (Err err, s)) \/
       exists i s s', ChangeMembership (next v1) voters (session v1) = (Ok i, s) /\ Status_ true (next v1 + 1) s = (Err err, s'))
  end.

(** How a handler that returns a status got to it. *)
Definition explained {R} (q : request R) (v : Server) (r : Status + R) : Prop := forall st, r = inl st ->
  (exists text, rejects q text v /\ st = fail_with InvalidArgument text) \/ (exists err, raises q err v /\ stands_for st err).

Lemma refuse_explained {R} (q : request R) err v v' : raises q err v -> ends (refuse err) v' (fun r _ => explained q v r) (fun _ => False).
Proof.
  intros Hr. eapply ends_mono; [apply refuse_stands| |done]. intros r _ (st & -> & Hst) st' [= <-]. right. eauto.
Qed.

Lemma invalid_explained {R} (q : request R) text v v' : rejects q text v -> ends (invalid text) v' (fun r _ => explained q v r) (fun _ => False).
Proof. intros Hr st [= <-]. left. eauto. Qed.

Lemma write_explained (q : request WriteResponse) v : (exists r, q = CallPut r) \/ (exists r, q = CallDelete r) ->
  ends (write_encoded (encoding q)) v (fun r _ => explained q v r) (fun _ => False).
Proof.
  intros Hq. assert (forall text, encoding q = Err text -> rejects q text v) as H1 by (by destruct Hq as [[r ->]|[r ->]]).
  assert (forall c err s, encoding q = Ok c -> Propose (next v) c (session v) = (Err err, s) -> raises q err v) as H2
    by (intros c err s; destruct Hq as [[r ->]|[r ->]]; cbn [raises]; eauto).
  unfold write_encoded. destruct (encoding q) as [c|e| |]; [|by apply invalid_explained, H1|done|done].
  unfold write. apply ends_bind, ends_call.
  - intros [index term] s _. apply ends_bind. done.
  - intros err s Hs. apply ends_bind. unfold ends at 1. cbn. apply refuse_explained. by eapply H2.
Qed.

Lemma get_explained key v : ends (Get (Some key)) v (fun r _ => explained (CallGet key) v r) (fun _ => False).
Proof.
  unfold Get. apply ends_bind, ends_call.
  - intros i s Hs. unfold ends, catch, mbind at 1, M_bind at 1, on_loop_machine, zoom. cbn [loop session set_next set_session].
    destruct (machine_Get key (machine (loop s))) as [[value|e| |] t] eqn:Em; cbn; try done. intros st [= <-]. left. exists e. split; [|done].
    exists i, s. by rewrite Em.
  - intros err s Hs. apply refuse_explained. by exists s.
Qed.

Lemma change_explained voters v : ends (ChangeMembership_rpc (Some voters)) v (fun r _ => explained (CallChange voters) v r) (fun _ => False).
Proof.
  unfold ChangeMembership_rpc. destruct voters as [|id voters]; [by apply invalid_explained|]. set (l := id :: voters) in *.
  apply ends_bind. unfold ends at 1. destruct (check_voters ∅ l v) as [[[text|]|e| |] v1] eqn:Ec; try done.
  - apply invalid_explained. unfold rejects, l in *. by rewrite Ec.
  - apply ends_bind, ends_call.
    + intros i s Hs. apply ends_bind, ends_call; [done|]. intros err s' Hs'. apply refuse_explained. exists v1. split; [done|]. right. by exists i, s, s'.
    + intros err s Hs. apply refuse_explained. exists v1. split; [done|]. left. by exists s.
  - pose proof (check_voters_ends l ∅ v) as Hv. unfold ends in Hv. by rewrite Ec in Hv.
Qed.

(** C29: When a client gives up on a node's answer. A handler that answers a request of a
    client with a status either refused the request itself (the command cannot be encoded,
    the machine fails to read the key, there are no voters, a voter is named twice or its
    address is not found), and then the client gives up; or it got an error from the
    runtime. On such an error the client gives up exactly if the entry is too large or a
    membership change is in progress or changes nothing; on all others it tries on, and
    exactly the error of a node that is not leader comes with a hint of the leader. The
    client gives up also where a later attempt could succeed: while a membership change is
    in progress, or an address cannot be resolved for the moment. *)
Theorem when_clients_give_up {R} (q : request R) v :
  ends (serve q) v (fun r _ => forall st, r = inl st ->
    (exists text, rejects q text v /\ st = fail_with InvalidArgument text /\ Client.gives_up st = true) \/
    (exists err, raises q err v /\ (Client.gives_up st = true <-> final err) /\ ((Client.leaderHint st).2 = true <-> err = ErrNotLeader)))
    (fun _ => False).
Proof.
  assert (ends (serve q) v (fun r _ => explained q v r) (fun _ => False)) as Hx.
  { destruct q as [r|r|key| |voters]; cbn [serve].
    - apply (write_explained (CallPut r)); eauto.
    - apply (write_explained (CallDelete r)); eauto.
    - apply get_explained.
    - unfold Status_rpc. apply ends_bind, ends_call; [|intros err s Hs; apply refuse_explained; by exists s].
      intros current s _. cbv zeta. apply ends_bind. eapply ends_mono; [apply peer_list_ends|done|done].
    - apply change_explained. }
  eapply ends_mono; [exact Hx| |done]. intros r v1 Hr st Hst. destruct (Hr st Hst) as [(text & H1 & ->)|(err & H1 & H2)]; [left|right]; eauto.
Qed.

#[local] Instance by_id_total : Total by_id.
Proof. intros p q. unfold by_id. lia. Qed.
#[local] Instance by_id_trans : Transitive by_id.
Proof. intros p q r. unfold by_id. lia. Qed.

(** A status names every peer once: the peers of a status response are ordered by ID, no ID
    twice, and the IDs are those of the configured peers and of the voters of the current
    configuration and the one it changes to. *)
Theorem status_peers v : ends Status_rpc v
  (fun r _ => match r with
    | inr resp => StronglySorted Z.lt (ns_peers resp).*1 /\
        forall id, id ∈ (ns_peers resp).*1 <-> is_Some (Startup.nc_Peers config !! id) \/ id ∈ ns_voters resp \/ id ∈ ns_jointVoters resp
    | inl _ => True
    end) (fun _ => False).
Proof.
  unfold Status_rpc. apply ends_bind, ends_call; [|intros e s _; eapply ends_mono; [apply refuse_ends|intros r v' [_ [st ->]]; done|done]].
  intros current s _. cbv zeta. apply ends_bind. eapply ends_mono; [apply peer_list_ends| |done]. intros l v' El. apply ends_bind. unfold ends at 1. cbn [gets].
  apply ends_ret. cbn [ns_peers ns_voters ns_jointVoters]. set (X := dom _ ∪ _) in *.
  assert ((merge_sort by_id l).*1 ≡ₚ elements X) as Hp by (rewrite merge_sort_Permutation, El; apply visit_all). split.
  - pose proof (StronglySorted_merge_sort by_id l) as Hs. assert (NoDup (merge_sort by_id l).*1) as Hn by (rewrite Hp; apply NoDup_elements).
    clear -Hs Hn. induction Hs as [|p l' Hs IH Hall]; cbn in *; [constructor|]. apply NoDup_cons in Hn as [Hin Hn]. constructor; [by apply IH|].
    apply Forall_forall. intros id Hid. pose proof Hid as (q & -> & Hq)%list_elem_of_fmap. rewrite Forall_forall in Hall.
    specialize (Hall _ Hq). unfold by_id in Hall. assert (p.1 <> q.1) by (intros Epq; apply Hin; by rewrite Epq). lia.
  - intros id. rewrite Hp, elem_of_elements. unfold X. rewrite elem_of_union, elem_of_dom, elem_of_list_to_set, elem_of_app. done.
Qed.

End server.

(** ** Example *)

Import Core Api InStep.

#[local] Instance calm_services : Services unit := {|
  service_Stop e := e; service_Shutdown := mret tt; service_CloseTransport := mret tt; service_CloseListener := mret tt; service_SendAndClose := mret tt
|}.

(** Node 2 is asked to install the snapshot of Grpc's example while it handles a command. *)
Definition second_node : Startup.NodeConfig unit := Startup.mkNodeConfig 2 [] [] [] ∅ None [] 0 0 0 0 0 0 None.
Definition nobody : Peers.Resolver unit := fun _ e => (inl "peer has no static address"%string, e).
Definition in_one_piece (b : bytes) : list bytes := [b].
Definition idle_server : @Server unit Durable (Z * bytes) :=
  mkServer (mkSession solo_loop None [Take CSend; Turn TurnEvent; Turn TurnEvent; Take CResult] false) tt (mkWorld ∅ [])
    Metrics.new_service_metrics Metrics.new_status_metrics 9 None false.
#[local] Notation sending := (Grpc.sendSnapshot 0 Grpc.small_message 5 (ChecksumIEEE (str "state")) (Grpc.mkReader (str "state") None, Grpc.mkWire ∅ [] [] [])).
#[local] Notation receiving := (InstallSnapshot second_node nobody in_one_piece (str "tmp") (Grpc.RChunk ∘ Some <$> Grpc.sent sending.2.2) idle_server).

Lemma pair_outcome {A B} (p : A * B) a : p.1 = a -> p = (a, p.2).
Proof. by destruct p; intros <-. Qed.

Lemma snapshot_travels_witness : receiving.1 = Ok (inr tt) /\ cleaned (str "tmp") idle_server receiving.2 /\
  exists source, concat (chunks source) = str "state" /\ source_error source = None /\
    StepSnapshot 9 (Grpc.delivered Grpc.small_message Grpc.small_snapshot []) (Some source) (session idle_server) = (Ok tt, session receiving.2).
Proof.
  assert (receiving.1 = Ok (inr tt)) as Er by (vm_compute; exact eq_refl). split; [exact Er|].
  assert (sending.1 = Ok tt) as Es by (vm_compute; exact eq_refl).
  pose proof (pair_outcome _ _ Er) as Er'. pose proof (pair_outcome _ _ Es) as Es'.
  pose proof (snapshot_travels second_node nobody in_one_piece (fun b => app_nil_r b) 0 Grpc.small_message Grpc.small_snapshot 5 (ChecksumIEEE (str "state"))
    (str "state") None (Grpc.mkWire ∅ [] [] []) sending.2 (str "tmp") idle_server (inr tt) receiving.2 eq_refl ltac:(lia) ltac:(discriminate)
    ltac:(discriminate) ltac:(discriminate) ltac:(discriminate) ltac:(discriminate) Es' eq_refl Er') as [Hc Hi].
  split; [exact Hc|]. destruct (Hi eq_refl) as (_ & _ & _ & Hsrc). exact Hsrc.
Defined.

End Server.
