(* ===== verification/Raftnet.v ===== *)
(** * The network in memory

    internal/raftnet/memory.go: nodes in one process send each other messages over links
    that can drop, delay and hold them. Every method holds the lock while it looks at the
    network and gives it up before it calls a handler; a call of a method is one step. *)

From S2P Require Import Prelude GoStd Fs Json Membership RaftTypes.

Module Raftnet.
Import Membership Raft.

(** The outside: what a handler does with a message, and time; [sleep] ends early with the
    error of the context, if the caller has one. *)
Class Outside (H W : Type) := {
  handle : H -> Message -> M W unit;
  sleep : bool -> Z -> M W unit
}.

Record link := mkLink { drop : bool; delay : Z; hold : bool; queue : list Message }.
Definition no_link : link := mkLink false 0 false [].

Section network.
Context {H W : Type} `{!Outside H W}.

Record Network := mkNetwork { handlers : gmap Z H; paused : gmap Z bool; links : gmap (Z * Z) link }.

Definition New : Network := mkNetwork ∅ ∅ ∅.

Definition Register (id : Z) (h : H) (n : Network) : Network := mkNetwork (<[id := h]> (handlers n)) (paused n) (links n).
Definition Unregister (id : Z) (n : Network) : Network := mkNetwork (delete id (handlers n)) (paused n) (links n).
Definition Pause (id : Z) (p : bool) (n : Network) : Network := mkNetwork (handlers n) (<[id := p]> (paused n)) (links n).

(** The link from one node to another, made when it is first asked for. *)
Definition link_of (from to : Z) (n : Network) : link := default no_link (links n !! (from, to)).
Definition set_link (from to : Z) (l : link) (n : Network) : Network := mkNetwork (handlers n) (paused n) (<[(from, to) := l]> (links n)).

Definition Drop (from to : Z) (d : bool) (n : Network) : Network :=
  let l := link_of from to n in set_link from to (mkLink d (delay l) (hold l) (queue l)) n.
Definition Delay (from to : Z) (d : Z) (n : Network) : Network :=
  let l := link_of from to n in set_link from to (mkLink (drop l) d (hold l) (queue l)) n.
Definition Hold (from to : Z) (b : bool) (n : Network) : Network :=
  let l := link_of from to n in set_link from to (mkLink (drop l) (delay l) b (queue l)) n.

Definition Partition (left right : list Z) (n : Network) : Network :=
  foldl (fun n from => foldl (fun n to => Drop to from true (Drop from to true n)) n right) n left.

Definition Heal (n : Network) : Network := mkNetwork (handlers n) ∅ ((fun _ => no_link) <$> links n).

Definition is_paused (id : Z) (n : Network) : bool := default false (paused n !! id).

(** [ctx]: the caller's context can end. *)
Definition deliver (ctx : bool) (m : Message) : M (Network * W) unit := fun st =>
  let '(n, w) := st in
  if is_paused (m_from m) n || is_paused (m_to m) n then (Err "raft node is paused", st) else
  let l := link_of (m_from m) (m_to m) n in
  let n := set_link (m_from m) (m_to m) l n in
  if drop l then (Err "raft message dropped", (n, w)) else
  if hold l then (Ok tt, (set_link (m_from m) (m_to m) (mkLink (drop l) (delay l) (hold l) (queue l ++ [m])) n, w)) else
  match handlers n !! m_to m with
  | None => (Err "raft node is unavailable", (n, w))
  | Some h => let (r, w') := ((if 0 <? delay l then sleep ctx (delay l) else mret tt) ;; handle h m) w in (r, (n, w'))
  end.

(** The two indexes that meet in the middle. *)
Fixpoint swap_loop (fuel left right : nat) (l : list Message) : list Message :=
  match fuel with
  | O => l
  | S fuel' =>
      if (left <? right)%nat then
        match l !! left, l !! right with
        | Some a, Some b => swap_loop fuel' (S left) (right - 1) (<[right := a]> (<[left := b]> l))
        | _, _ => l
        end
      else l
  end.
Definition reversed (l : list Message) : list Message := swap_loop (length l) 0 (length l - 1) l.

Definition Release (from to : Z) (reverse : bool) : M (Network * W) unit :=
  st ← gets id;
  let l := link_of from to st.1 in
  modify (fun st => (set_link from to (mkLink (drop l) (delay l) false []) st.1, st.2)) ;;
  mfold (deliver false) (if reverse then reversed (queue l) else queue l).

(** ** The transport of a node *)

Definition Send (id : Z) (m : Message) : M (Network * W) unit :=
  if negb (m_from m =? id) then raise "adapter cannot send as another node" else deliver true m.

(** What a reader gives, and its error; [limit] bytes are read at most. *)
Definition read_all (limit : Z) (reader : bytes * option string) : res bytes :=
  if Z.of_nat (length reader.1) <? limit then match reader.2 with Some e => Err e | None => Ok reader.1 end
  else Ok (take (Z.to_nat limit) reader.1).

Definition SendSnapshot (id : Z) (m : Message) (reader : bytes * option string) (size checksum : Z) : M (Network * W) unit :=
  if 2 ^ 63 - 1 <? size then raise "snapshot exceeds in-memory adapter limit" else
  data ← of_res (read_all (s64 (size + 1)) reader);
  if negb (Z.of_nat (length data) =? size) || negb (ChecksumIEEE data =? checksum) then raise "snapshot source size or checksum mismatch" else
  match m_snapshot m with
  | None => raise "snapshot message has no metadata"
  | Some s =>
      Send id (mkMessage (m_type m) (m_from m) (m_to m) (m_term m) (m_logIndex m) (m_logTerm m) (m_entries m) (m_leaderCommit m) (m_reject m)
                 (m_rejectHint m) (m_context m) (Some (mkSnapshot (s_index s) (s_term s) data (s_membership s))) (m_origin m))
  end.

(** ** What the network does *)

Lemma insert_middle {A} (a b : list A) x y : <[length a := y]> (a ++ x :: b) = a ++ y :: b.
Proof. induction a as [|z a IH]; [done|]. cbn. f_equal. exact IH. Qed.

Lemma swap_loop_rev fuel : forall a m b lo hi, (length m <= fuel)%nat -> lo = length a -> (hi + 1 = length a + length m \/ m = [])%nat ->
  swap_loop fuel lo hi (a ++ m ++ b) = a ++ rev m ++ b \/ m = [].
Proof.
  induction fuel as [|fuel IH]; intros a m b lo hi Hf -> Hr; [right; destruct m; cbn in *; [done|lia]|].
  destruct m as [|x m]; [by right|]. left. destruct Hr as [Hr|]; [|done]. cbn [length] in *. cbn [swap_loop].
  destruct m as [|y m _] using rev_ind; [cbn [length] in *; by rewrite (proj2 (Nat.ltb_ge _ _)) by lia|].
  rewrite length_app in *. cbn [length] in *. rewrite (proj2 (Nat.ltb_lt _ _)) by lia.
  assert (hi = length (a ++ x :: m)) as -> by (rewrite length_app; cbn; lia).
  replace (a ++ (x :: m ++ [y]) ++ b) with ((a ++ x :: m) ++ y :: b) by (by rewrite <- !app_assoc; cbn; rewrite <- app_assoc).
  assert (((a ++ x :: m) ++ y :: b) !! length a = Some x) as -> by (rewrite <- app_assoc; by apply list_lookup_middle).
  assert (((a ++ x :: m) ++ y :: b) !! length (a ++ x :: m) = Some y) as -> by by apply list_lookup_middle.
  assert (<[length a := y]> ((a ++ x :: m) ++ y :: b) = (a ++ y :: m) ++ y :: b) as -> by (rewrite <- !app_assoc; by apply insert_middle).
  replace (length (a ++ x :: m)) with (length (a ++ y :: m)) by (by rewrite !length_app). rewrite insert_middle.
  replace ((a ++ y :: m) ++ x :: b) with ((a ++ [y]) ++ m ++ (x :: b)) by (by rewrite <- !app_assoc).
  assert (swap_loop fuel (S (length a)) (length (a ++ y :: m) - 1) ((a ++ [y]) ++ m ++ x :: b) = (a ++ [y]) ++ rev m ++ x :: b) as ->.
  { destruct (IH (a ++ [y]) m (x :: b) (S (length a)) (length (a ++ y :: m) - 1)%nat) as [->| ->]; [lia| | |done|].
    - rewrite length_app. cbn. lia.
    - rewrite !length_app. cbn. destruct m; [by right|left; cbn; lia].
    - cbn [app rev]. destruct fuel; cbn [swap_loop]; [done|]. by rewrite (proj2 (Nat.ltb_ge _ _)) by (rewrite length_app; cbn; lia). }
  cbn [rev]. rewrite rev_app_distr. cbn. by rewrite <- !app_assoc.
Qed.

(** The loop with two indexes reverses the messages. *)
Lemma reversed_rev l : reversed l = rev l.
Proof.
  unfold reversed. destruct (swap_loop_rev (length l) [] l [] 0 (length l - 1)) as [E| ->]; [lia|done| |by rewrite !app_nil_r in E|done].
  destruct l; [by right|left; cbn; lia].
Qed.

Lemma link_of_set from to l n : link_of from to (set_link from to l n) = l.
Proof. unfold link_of, set_link. cbn. by rewrite lookup_insert_eq. Qed.
Lemma link_of_set_ne from to from' to' l n : (from, to) <> (from', to') -> link_of from' to' (set_link from to l n) = link_of from' to' n.
Proof. intros Hne. unfold link_of, set_link. cbn. by rewrite lookup_insert_ne. Qed.

Lemma set_link_twice from to l l' n : set_link from to l' (set_link from to l n) = set_link from to l' n.
Proof. unfold set_link. cbn. f_equal. apply insert_insert_eq. Qed.

(** A network in which a link holds messages and nothing else is in their way. *)
Record holding (from to : Z) (h : H) (q : list Message) (n : Network) : Prop := {
  ho_from : is_paused from n = false;
  ho_to : is_paused to n = false;
  ho_handler : handlers n !! to = Some h;
  ho_link : link_of from to n = mkLink false 0 true q
}.

Lemma deliver_held ctx from to h q n w m : holding from to h q n -> m_from m = from -> m_to m = to ->
  exists n', deliver ctx m (n, w) = (Ok tt, (n', w)) /\ holding from to h (q ++ [m]) n'.
Proof.
  intros [H1 H2 H3 H4] <- <-. unfold deliver. rewrite H1, H2, H4. cbn [orb drop hold delay queue]. eexists. split; [done|].
  split; try done. by rewrite link_of_set.
Qed.

Lemma deliver_all_held ctx from to h ms : forall q n w, holding from to h q n -> Forall (fun m => m_from m = from /\ m_to m = to) ms ->
  exists n', mfold (deliver ctx) ms (n, w) = (Ok tt, (n', w)) /\ holding from to h (q ++ ms) n'.
Proof.
  induction ms as [|m ms IH]; intros q n w Hn Hms; cbn [mfold]; [exists n; by rewrite app_nil_r|].
  apply Forall_cons in Hms as [[Hf Ht] Hms]. destruct (deliver_held ctx _ _ _ _ _ w m Hn Hf Ht) as (n1 & E1 & Hn1).
  destruct (IH _ _ w Hn1 Hms) as (n2 & E2 & Hn2). exists n2. unfold mbind, M_bind. rewrite E1. split; [done|]. by rewrite <- app_assoc in Hn2.
Qed.

Lemma deliver_open ctx from to h n w m : is_paused from n = false -> is_paused to n = false -> handlers n !! to = Some h ->
  link_of from to n = no_link -> links n !! (from, to) = Some no_link -> m_from m = from -> m_to m = to ->
  deliver ctx m (n, w) = ((handle h m w).1, (n, (handle h m w).2)).
Proof.
  intros H1 H2 H3 H4 H5 <- <-. unfold deliver. rewrite H1, H2, H4. cbn [orb drop hold delay no_link]. rewrite Z.ltb_irrefl.
  assert (set_link (m_from m) (m_to m) no_link n = n) as -> by (unfold set_link; rewrite insert_id by done; by destruct n).
  rewrite H3. unfold mbind, M_bind. cbn. by destruct (handle h m w).
Qed.

Lemma deliver_all_open ctx from to h n ms : is_paused from n = false -> is_paused to n = false -> handlers n !! to = Some h ->
  link_of from to n = no_link -> links n !! (from, to) = Some no_link -> Forall (fun m => m_from m = from /\ m_to m = to) ms ->
  forall w, mfold (deliver ctx) ms (n, w) = ((mfold (handle h) ms w).1, (n, (mfold (handle h) ms w).2)).
Proof.
  intros H1 H2 H3 H4 H5 Hms. induction Hms as [|m ms [Hf Ht] Hms IH]; intros w; cbn [mfold]; [done|]. unfold mbind, M_bind.
  rewrite (deliver_open ctx from to h) by done. destruct (handle h m w) as [[[]|e| |] w1]; cbn; [apply IH|done..].
Qed.

(** A held link delivers on release what was sent over it. Messages sent over a link that
    holds are all accepted and reach no handler. Releasing the link hands exactly these
    messages to the handler of the receiver, each once, in the order they were sent or in
    the reverse order as asked, until the handler fails; the link is open afterwards. *)
Theorem release_delivers from to h n w ms reverse : holding from to h [] n -> Forall (fun m => m_from m = from /\ m_to m = to) ms ->
  exists n', (mfold (deliver true) ms ;; Release from to reverse) (n, w) =
    ((mfold (handle h) (if reverse then rev ms else ms) w).1, (n', (mfold (handle h) (if reverse then rev ms else ms) w).2)) /\
    link_of from to n' = no_link.
Proof.
  intros Hn Hms. destruct (deliver_all_held true _ _ _ ms _ _ w Hn Hms) as (n1 & E1 & [H1 H2 H3 H4]).
  unfold mbind at 1, M_bind at 1. rewrite E1. unfold Release, mbind at 1, M_bind at 1. cbn [gets]. unfold id. cbn [fst]. rewrite H4.
  unfold mbind at 1, M_bind at 1. cbn [modify fst snd queue drop delay]. rewrite reversed_rev. cbn [app].
  exists (set_link from to no_link n1). split; [|apply link_of_set].
  apply (deliver_all_open false from to); try done; [apply link_of_set|apply lookup_insert_eq|destruct reverse; [by apply Forall_rev|done]].
Qed.

(** Links a partition cuts, and what it leaves of the others. *)
Lemma Drop_link from to from' to' n :
  link_of from' to' (Drop from to true n) =
    (let l := link_of from' to' n in if decide ((from, to) = (from', to')) then mkLink true (delay l) (hold l) (queue l) else l).
Proof. unfold Drop. cbv zeta. destruct (decide _) as [[= -> ->]|Hne]; [apply link_of_set|by apply link_of_set_ne]. Qed.

Definition crosses (left right : list Z) (from to : Z) : Prop := from ∈ left /\ to ∈ right \/ from ∈ right /\ to ∈ left.
#[global] Instance crosses_dec left right from to : Decision (crosses left right from to).
Proof. unfold crosses. apply _. Defined.

Definition cut (b : bool) (l : link) : link := mkLink (b || drop l) (delay l) (hold l) (queue l).

Lemma cut_row from right from' to' : forall n, let n' := foldl (fun n to => Drop to from true (Drop from to true n)) n right in
  link_of from' to' n' = cut (bool_decide (crosses [from] right from' to')) (link_of from' to' n) /\ handlers n' = handlers n /\ paused n' = paused n.
Proof.
  induction right as [|to right IH]; intros n; cbn [foldl]; cbv zeta.
  { rewrite bool_decide_false by (unfold crosses; set_solver). by destruct (link_of from' to' n). }
  destruct (IH (Drop to from true (Drop from to true n))) as (-> & -> & ->). split; [|done]. rewrite !Drop_link. cbv zeta.
  unfold cut. destruct (link_of from' to' n) as [d e h q].
  destruct (decide ((from, to) = (from', to'))) as [H1|H1], (decide ((to, from) = (from', to'))) as [H2|H2]; cbn; f_equal;
    repeat case_bool_decide; rewrite ?orb_true_r; try done; exfalso; simplify_eq; unfold crosses in *; set_solver.
Qed.

(** A partition cuts exactly the links between its groups, in both directions. A message
    between nodes of different groups is refused and reaches no handler; every other link
    drops, delays, holds and has queued what it did before, and no node is paused by it. *)
Theorem partition_cuts left right n w ctx m :
  let n' := Partition left right n in
  (crosses left right (m_from m) (m_to m) -> exists e n2, deliver ctx m (n', w) = (Err e, (n2, w))) /\
  (~ crosses left right (m_from m) (m_to m) -> link_of (m_from m) (m_to m) n' = link_of (m_from m) (m_to m) n) /\
  handlers n' = handlers n /\ paused n' = paused n.
Proof.
  cbv zeta. set (from := m_from m). set (to := m_to m).
  assert (link_of from to (Partition left right n) = cut (bool_decide (crosses left right from to)) (link_of from to n) /\
    handlers (Partition left right n) = handlers n /\ paused (Partition left right n) = paused n) as (Hl & Hh & Hp).
  { unfold Partition. clearbody from to. clear. revert n. induction left as [|x left IH]; intros n; cbn [foldl].
    - rewrite bool_decide_false by (unfold crosses; set_solver). by destruct (link_of from to n).
    - destruct (cut_row x right from to n) as (E1 & E2 & E3). destruct (IH (foldl (fun n to => Drop to x true (Drop x to true n)) n right)) as (-> & -> & ->).
      rewrite E1, E2, E3. split; [|done]. unfold cut. cbn. f_equal. rewrite orb_assoc. f_equal.
      repeat case_bool_decide; rewrite ?orb_true_r; try done; exfalso; unfold crosses in *; set_solver. }
  split_and!; [|intros Hc|done|done].
  - intros Hc. unfold deliver. fold from to. destruct (_ || _); [eauto|]. rewrite Hl. unfold cut. rewrite bool_decide_true by done. cbn. eauto.
  - rewrite Hl, bool_decide_false by done. unfold cut. by destruct (link_of from to n).
Qed.

(** After Heal no link is in the way; what links held is lost. *)
Theorem heal_opens n from to : link_of from to (Heal n) = no_link /\ is_paused from (Heal n) = false.
Proof. split; [|done]. unfold link_of, Heal. cbn. rewrite lookup_fmap. by destruct (links n !! (from, to)). Qed.

End network.

(** ** Example *)

(** Handlers note what they get. *)
#[local] Instance notes : Outside unit (list Message) := {| handle _ m := modify (fun l => l ++ [m]); sleep _ _ := mret tt |}.

Definition note (i : Z) : Message := mkMessage MsgAppend 1 2 1 i 0 [] 0 false 0 0 None OriginOther.
Definition held_link : @Network unit := Hold 1 2 true (Register 2 tt New).

Lemma release_delivers_witness : exists n', (mfold (deliver true) [note 1; note 2; note 3] ;; Release 1 2 true) (held_link, []) =
  (Ok tt, (n', [note 3; note 2; note 1])) /\ link_of 1 2 n' = no_link.
Proof.
  destruct (release_delivers 1 2 tt held_link [] [note 1; note 2; note 3] true) as (n' & En & Hl).
  - by split.
  - repeat constructor.
  - exists n'. split; [rewrite En; reflexivity|exact Hl].
Defined.

End Raftnet.
